(* ===== verification/_CoqProject ===== *)
-Q . S2P
Prelude.v
GoIO.v
Wal.v
Store.v
Lsm.v
Replication.v
Linearcheck.v
GoText.v
GoUtf8.v
GoJson.v
GoJsonTypes.v
StoreSnapshot.v
Server.v
Listeners.v
ServerLife.v
LeaderLife.v
RaftNode.v
RaftCluster.v
RaftSteps.v
RaftLogs.v
RaftSafety.v
RaftTransport.v
SimTransport.v
RaftWire.v
RaftTyped.v
RaftPersist.v
TcpTransport.v
Kvengine.v
RaftReplicas.v
Kvmain.v
