(* ===== verification/Prelude.v ===== *)
(** * kvengine: a verification of the durable, replicated key-value store

    ** The program and the files that model it

    kvengine (src/) is a Go program. Clients speak a text protocol to a server,
    which calls a key-value store: either a durable map on top of a write-ahead
    log, or that map behind Raft. The log can also be streamed to followers. A
    log-structured engine and a linearizability checker stand beside it.

    Shared basics and the parts of Go's standard library the program uses:
    - [Prelude]: this file. The outcome of a Go function (a value, an error, a
      panic), machine integers with explicit wrap-around, bytes and
      little-endian numbers, byte streams and [io.ReadFull], decimal printing,
      the order on byte strings; tactics and the hint databases [kv].
    - [GoIO]: CRC-32, an [os.File] whose system calls follow a script of
      failures and which knows its fsynced prefix, crash images, [bufio.Writer]
      with its buffer and sticky error.
    - [GoText], [GoUtf8]: UTF-8, [strings.Fields], [ToUpper], [ReplaceAll],
      [strconv.Atoi], [%q]; valid strings and their repair.
    - [GoJson], [GoJsonTypes]: the text and the types of encoding/json. A
      [codec] is a Go type with its encoder and decoder, [codec_ok] its round
      trip.
    - [Listeners]: the accept loop that three servers of the program share, as
      a state machine.

    Storage:
    - [Wal] (internal/wal/wal.go): record framing, [ReadRecord], [Replay], the
      log object ([Append], [Sync], [Close]), and [StreamFrom] as the transition
      system [stream_step], interleaved with writers in [sys_step].
    - [Store] (internal/store/store.go): the classes [KVStore] and [KVStoreOk]
      (the server's interface and its laws), [Open], [Put], [Delete], [Get],
      [Len], [Close], and the same writes split at their lock releases for
      concurrent callers ([cstep]). [StoreSnapshot] has [Snapshot] and
      [RestoreSnapshot].
    - [Lsm] (internal/lsm/lsm.go): memtable, table files, [Get], [maybeFlush],
      [compact], [Flush].
    - [Linearcheck] (internal/linearcheck/linearcheck.go): recorder, sequential
      reference and search.

    Clients and followers:
    - [Server] (internal/server/server.go): the handlers as programs ([prog])
      that work on a connection and call a store, and one connection, from bytes
      to bytes, against any [KVStore]; [ServerLife]: accepting, serving and
      closing with any number of clients, whose calls of the store interleave
      section by section ([KVSteps]).
    - [Replication] (internal/replication/): [handleFollower], the follower's
      [runOnce] with its offset file, and the system of sessions and crashes
      ([fstep]); [LeaderLife]: the leader with any number of followers.

    Raft (internal/raft/):
    - [RaftNode] (raft.go, persist.go, snapshot.go): a node as a record and one
      function per handler, timer body and reply.
    - [RaftCluster]: nodes and the RPCs between them as a transition function
      on events; any message may be delayed, reordered or lost, any node may
      crash and restart or take a snapshot.
    - [RaftSteps], [RaftLogs], [RaftSafety]: the safety argument for cluster
      runs: what a step does to terms and logs, the logs of the leaders, and
      what is committed.
    - [RaftTransport] (transport.go, envelopes of tcp_transport.go),
      [SimTransport] (sim_transport.go), [TcpTransport] (tcp_transport.go): the
      three transports.
    - [RaftWire]: the JSON of the Raft types; [RaftTyped]: numbers and names
      stay within their Go types when requests are handled; [RaftPersist] (persist.go, snapshot.go): the
      two files as bytes that are replaced and may lose renames.

    The program (cmd/kvengine/main.go):
    - [Kvengine]: the Raft-backed store: commands, the apply loop, waiting.
    - [RaftReplicas]: cluster and stores together.
    - [Kvmain]: flags, peer lists, the commands, and how a node is started.

    A Go struct is a record, an operation a function from the state to the
    result and the new state, an error a value of an error type. Failures of
    files and connections come from scripts carried in the state, so theorems
    quantify over all of them. Mutexes make an operation one step; where the
    code releases a lock in the middle, the model has one step per critical
    section.

    ** What the theorems show

    - Durability. Every crash image of the log replays to a prefix of the
      written records that contains the acknowledged ones; so does the store,
      sequentially and with concurrent callers. Behind the server, a write that
      was answered [+OK] is one the client asked for and is recovered, with any
      bytes a client may send ([server_durable]) and with any number of clients
      ([server_conc_durable]). These start from a log of whole, synced records
      within the size that replay accepts. A Raft state file is after any
      failures and a crash one that was written completely.
    - Formats. Records, table files, envelopes, offsets, lengths, commands,
      snapshots, RPCs and state files read back as written; torn records end a
      replay cleanly; replay, JSON parsing and the server loop end on every
      input.
    - Functional correctness. A protocol session behaves as a finite map over
      any store that meets [KVStoreOk], which the durable store does; with many
      clients the calls of the store, in the order in which they take effect,
      explain every reply, and every client is served ([server_serializable],
      [server_serves]); a sequence of command-line calls behaves as a map; the
      LSM engine holds the newest entries whatever writes fail; the checker
      decides linearizability of histories in which no operation ends before it
      starts; AppendEntries merges logs as a reference function does; votes and
      commits follow Raft's rules.
    - Transports. A call over TCP does what a call of the in-memory transport
      does, no bytes on a connection make a node panic or leave its types, and
      the simulation transport with links only cut and healed is the in-memory
      transport.
    - Distributed runs. A follower whose log is never torn is a prefix of its
      leader as long as no rename of its offset file is lost, and catches up in
      any case; every stream of a leader sends the durable log, and ends after
      [Close]. The theorems on clusters are about runs without snapshots
      ([no_snapshots]), in which state files can be written. In no such run does
      a handler, a timer, a proposal or a restart panic. As long as no node
      votes twice in a term: a term has one leader, logs match, leaders are
      complete, no two commands are applied at one index, the apply loop does
      not panic either, a rejected leader backs up ([raft_backup_progress]), and
      the stores of nodes that have applied equally far are equal, across
      crashes.
    - What fails. The proofs also pin down where the code does not do what it
      means to. A same-term AppendEntries clears the vote, so the condition of
      one vote per term can be broken, and two leaders of a term and divergent
      commits are reachable ([raft_two_leaders], [raft_divergent_commit]); so
      can a lost rename ([lost_rename_votes_twice]). A snapshot shortens the log
      and leaves the indices as they were, so the leader panics at its next
      heartbeat ([raft_snapshot_panics], [raft_snapshot_run_panics]) or stops
      committing ([raft_snapshot_stall]). A torn record in a follower's log
      makes it diverge for good ([replication_torn_diverges]). A write through Raft is acknowledged before it is
      committed ([put_acks_before_commit], [acknowledged_write_lost]). A
      flushed tombstone does not shadow older tables
      ([lsm_deleted_key_returns]); reopening behind a torn record loses later
      writes ([store_torn_reopen]); concurrent puts of a key may leave memory
      and log disagreeing ([store_conc_divergence]); oversized records are
      written but not read ([wal_oversized_lost]); a bad PUT length lets the
      value run as commands ([server_bad_length]); keys that are not UTF-8 do
      not survive JSON ([snapshot_binary_keys], [command_binary_collision]);
      closing too early or twice goes wrong ([close_before_serve],
      [leader_close_twice]).

    ** Bounds and fuel

    Loops that are not structural take fuel that is proved sufficient: [Replay],
    [readAll], [sst_get], [runOnce] and [handleConn] get one iteration per input
    byte and one more, since each iteration consumes a byte, on damaged input
    too ([wal_replay_total], [readAll_loop_total], [sst_scan_total],
    [runOnce_total], [server_total]); so does the JSON parser ([parse_total]);
    [bufio_Write] needs three iterations ([bufio_write_loop_done]);
    [waitApplied] polls every five milliseconds for five seconds, so a thousand
    and one iterations suffice ([wait_applied_returns]); the linearizability
    search recurses once per operation; [dec_go] once per bit. In cluster runs
    an event that would take a log to 2^62 entries or a term past 2^64 - 1 does
    not happen. A snapshot is due at the hundredth command of a process, so the
    theorem on equal stores is about fewer.

    ** What is not modelled

    Dialling and deadlines other than as failures; goroutine scheduling other
    than as interleaving; timers other than as events that may happen at any
    time; the profiling endpoint, log lines and the text of messages. A
    handler's work on its own connection within a turn is one step; the log of
    a follower's leader stays below 2^63 bytes. Parameters: the table of Unicode case mappings and
    printable runes beyond ASCII, and the generator of math/rand, as a function
    of the seed and the number of draws. The fault-injection helper of the
    tests is not modelled: it appends and syncs numbered records.

    ** Plan

    Next come a repair of the snapshot indices and its proof; the
    linearizability of the store's operations against [Linearcheck]'s
    specification; and liveness of elections under timing assumptions. *)
From stdpp Require Import prelude gmap sorting.
From Stdlib Require Import ZArith Lia Strings.Byte.
From Stdlib Require Strings.String.
Export String.StringSyntax.

Local Open Scope Z_scope.

(** ** Automation shared by the development *)

Create HintDb kv.
Create Rewrite HintDb kv.

(** Split the conjunctions of the context and of the goal, then close what
    arithmetic or an assumption closes. *)
Ltac kv_simp :=
  repeat match goal with
  | H : _ ∧ _ |- _ => destruct H
  | H : ∃ _, _ |- _ => destruct H
  | H : Some _ = Some _ |- _ => injection H as H; subst
  | H : (_, _) = (_, _) |- _ => injection H as H; subst
  end; simpl in *; try done; try lia.

(** Case on the scrutinee of the first [if] or [match] of the goal. *)
Ltac kv_case :=
  match goal with
  | |- context [if ?b then _ else _] => destruct b eqn:?
  | |- context [match ?x with _ => _ end] => destruct x eqn:?
  end.

(** Turn the boolean comparisons of the context into propositions. *)
Ltac kv_bool :=
  repeat match goal with
  | H : (_ && _) = true |- _ => apply andb_true_iff in H; destruct H
  | H : (_ || _) = false |- _ => apply orb_false_iff in H; destruct H
  | H : negb _ = true |- _ => apply negb_true_iff in H
  | H : negb _ = false |- _ => apply negb_false_iff in H
  | H : (_ <? _) = true |- _ => apply Z.ltb_lt in H
  | H : (_ <? _) = false |- _ => apply Z.ltb_ge in H
  | H : (_ <=? _) = true |- _ => apply Z.leb_le in H
  | H : (_ <=? _) = false |- _ => apply Z.leb_gt in H
  | H : (_ =? _) = true |- _ => apply Z.eqb_eq in H
  | H : (_ =? _) = false |- _ => apply Z.eqb_neq in H
  | H : bool_decide _ = true |- _ => apply bool_decide_eq_true in H
  | H : bool_decide _ = false |- _ => apply bool_decide_eq_false in H
  end.

(** ** Outcomes of Go code: a value, an error value, or a run-time panic *)

Inductive outcome (E A : Type) : Type :=
| Ret (a : A)
| Err (e : E)
| Panic.
Arguments Ret {E A} a.
Arguments Err {E A} e.
Arguments Panic {E A}.

#[global] Instance outcome_ret E : MRet (outcome E) := λ A a, Ret a.
#[global] Instance outcome_bind E : MBind (outcome E) := λ A B f m,
  match m with Ret a => f a | Err e => Err e | Panic => Panic end.

(** A Go slice or index expression panics out of range. *)
Definition or_panic {E A} (o : option A) : outcome E A :=
  match o with Some a => Ret a | None => Panic end.

(** A guarded early return of an error. *)
Definition fail_if {E} (b : bool) (e : E) : outcome E () :=
  if b then Err e else Ret ().

(** Run the error monad as far as the known outcomes allow. *)
Ltac go_red := cbn [or_panic fail_if mbind outcome_bind mret outcome_ret negb].

(** ** Machine integers *)

Definition u32 (z : Z) : Z := z mod 2 ^ 32.
Definition u64 (z : Z) : Z := z mod 2 ^ 64.

Definition Zlen {A} (l : list A) : Z := Z.of_nat (length l).

(** ** Bytes *)

Abbreviation bytes := (list Byte.byte).

Definition byteZ (b : Byte.byte) : Z := Z.of_N (Byte.to_N b).
Definition Zbyte (z : Z) : Byte.byte :=
  match Byte.of_N (Z.to_N (z mod 256)) with
  | Some b => b
  | None => Byte.x00
  end.

#[global] Instance byte_eq_dec : EqDecision Byte.byte := Byte.byte_eq_dec.
#[global] Program Instance byte_countable : Countable Byte.byte :=
  inj_countable Byte.to_N Byte.of_N _.
Next Obligation. intros b. apply Byte.of_to_N. Qed.

(** [binary.LittleEndian.PutUintN] and [binary.LittleEndian.UintN]. *)
Fixpoint put_le (n : nat) (z : Z) : bytes :=
  match n with
  | O => []
  | S n => Zbyte z :: put_le n (z / 256)
  end.
Fixpoint get_le (bs : bytes) : Z :=
  match bs with
  | [] => 0
  | b :: bs => byteZ b + 256 * get_le bs
  end.

(** [b[lo:hi]] on a slice whose capacity is its length. *)
Definition slice (b : bytes) (lo hi : Z) : option bytes :=
  if (0 <=? lo) && (lo <=? hi) && (hi <=? Zlen b)
  then Some (take (Z.to_nat (hi - lo)) (drop (Z.to_nat lo) b))
  else None.

(** Go compares strings byte by byte. *)
Fixpoint bytes_cmp (a b : bytes) : comparison :=
  match a, b with
  | [], [] => Eq
  | [], _ :: _ => Lt
  | _ :: _, [] => Gt
  | x :: a, y :: b =>
      match Z.compare (byteZ x) (byteZ y) with
      | Eq => bytes_cmp a b
      | c => c
      end
  end.
Definition bytes_ltb (a b : bytes) : bool :=
  match bytes_cmp a b with Lt => true | _ => false end.

(** A string literal of the source as bytes. *)
Definition bs (s : String.string) : bytes := String.list_byte_of_string s.
Arguments bs s%_string_scope.

(** ** Decimal numbers: the verbs [%d] and [%06d], and their digits *)

Fixpoint dec_go (fuel : nat) (n : Z) (acc : bytes) : bytes :=
  match fuel with
  | O => acc
  | S fuel =>
      let acc := Zbyte (48 + n mod 10) :: acc in
      if n <? 10 then acc else dec_go fuel (n / 10) acc
  end.
Definition dec_nonneg (n : Z) : bytes := dec_go (S (Z.to_nat (Z.log2 n))) n [].
Definition dec (n : Z) : bytes :=
  if n <? 0 then Byte.x2d :: dec_nonneg (- n) else dec_nonneg n.
Definition dec06 (n : Z) : bytes :=
  repeat Byte.x30 (6 - length (dec_nonneg n)) ++ dec_nonneg n.

Definition is_digit (b : Byte.byte) : bool := (48 <=? byteZ b) && (byteZ b <=? 57).
Definition digits_val (acc : Z) (ds : bytes) : Z :=
  foldl (λ n b, n * 10 + (byteZ b - 48)) acc ds.

(** ** Byte streams: what [bufio.Reader] over a file or a connection yields *)

Inductive io_error := EOF | ErrUnexpectedEOF | OtherErr.

(** The bytes still to come and the error reported once they are exhausted:
    [EOF] at the end of a file or of a closed connection, [OtherErr] for a
    deadline or a device error. *)
Record Stream := mkStream { s_data : bytes; s_end : io_error }.

(** [io.ReadFull(r, buf)] with [len(buf) = n]. *)
Definition ReadFull (n : Z) (r : Stream) : outcome io_error bytes * Stream :=
  if n <=? Zlen (s_data r) then
    (Ret (take (Z.to_nat n) (s_data r)),
     mkStream (drop (Z.to_nat n) (s_data r)) (s_end r))
  else
    let e := match s_end r with
             | EOF => match s_data r with [] => EOF | _ => ErrUnexpectedEOF end
             | e => e
             end in
    (Err e, mkStream [] (s_end r)).

(** ** Lemmas on bytes and integers *)

Lemma byteZ_range b : 0 ≤ byteZ b < 256.
Proof. unfold byteZ. pose proof (Byte.to_N_bounded b). lia. Qed.

Lemma byteZ_Zbyte z : byteZ (Zbyte z) = z mod 256.
Proof.
  unfold byteZ, Zbyte.
  assert (Hz : 0 ≤ z mod 256 < 256) by (apply Z.mod_pos_bound; lia).
  destruct (Byte.of_N _) as [b|] eqn:E.
  - apply Byte.to_of_N in E. rewrite E. lia.
  - apply Byte.of_N_None_iff in E. lia.
Qed.

Lemma byteZ_inj a b : byteZ a = byteZ b → a = b.
Proof.
  unfold byteZ. intros H%N2Z.inj.
  pose proof (Byte.of_to_N a) as Ha. pose proof (Byte.of_to_N b) as Hb. congruence.
Qed.

Lemma Zbyte_byteZ b : Zbyte (byteZ b) = b.
Proof.
  apply byteZ_inj. rewrite byteZ_Zbyte. apply Z.mod_small, byteZ_range.
Qed.

Lemma Zlen_nonneg {A} (l : list A) : 0 ≤ Zlen l.
Proof. unfold Zlen. lia. Qed.

Lemma Zlen_nil {A} : Zlen (@nil A) = 0.
Proof. done. Qed.

Lemma Zlen_cons {A} (x : A) l : Zlen (x :: l) = 1 + Zlen l.
Proof. unfold Zlen. simpl. lia. Qed.

Lemma Zlen_app {A} (l k : list A) : Zlen (l ++ k) = Zlen l + Zlen k.
Proof. unfold Zlen. rewrite length_app. lia. Qed.

Lemma Zlen_snoc {A} (l : list A) x : Zlen (l ++ [x]) = Zlen l + 1.
Proof. unfold Zlen. rewrite length_app. cbn [length]. lia. Qed.

Lemma Zlen_take {A} (l : list A) n : (n ≤ length l)%nat → Zlen (take n l) = Z.of_nat n.
Proof. unfold Zlen. intros. rewrite length_take. lia. Qed.

Lemma Zlen_drop {A} (l : list A) n : (n ≤ length l)%nat → Zlen (drop n l) = Zlen l - Z.of_nat n.
Proof. unfold Zlen. intros. rewrite length_drop. lia. Qed.

Lemma Zlen_0 {A} (l : list A) : Zlen l = 0 → l = [].
Proof. destruct l; unfold Zlen; simpl; [done|lia]. Qed.

#[export] Hint Rewrite @Zlen_nil @Zlen_cons @Zlen_app : kv.
#[export] Hint Resolve Zlen_nonneg byteZ_range : kv.

Lemma length_put_le n z : length (put_le n z) = n.
Proof. revert z. induction n as [|n IH]; intros z; simpl; [done|]. by rewrite IH. Qed.

Lemma Zlen_put_le n z : Zlen (put_le n z) = Z.of_nat n.
Proof. unfold Zlen. by rewrite length_put_le. Qed.

#[export] Hint Rewrite length_put_le Zlen_put_le : kv.

Lemma get_put_le n z : get_le (put_le n z) = z mod 256 ^ Z.of_nat n.
Proof.
  revert z. induction n as [|n IH]; intros z.
  - simpl. by rewrite Z.mod_1_r.
  - cbn [put_le get_le]. rewrite IH, byteZ_Zbyte, Nat2Z.inj_succ, Z.pow_succ_r by lia.
    rewrite Z.rem_mul_r by lia. done.
Qed.

Lemma get_le_range bs : 0 ≤ get_le bs < 256 ^ Zlen bs.
Proof.
  induction bs as [|b bs IH]; [done|].
  rewrite Zlen_cons, Z.pow_add_r by (auto with kv; lia). cbn [get_le].
  pose proof (byteZ_range b). lia.
Qed.

Lemma put_get_le bs : put_le (length bs) (get_le bs) = bs.
Proof.
  induction bs as [|b bs IH]; [done|]. cbn [length get_le put_le].
  pose proof (byteZ_range b).
  assert (E : (byteZ b + 256 * get_le bs) / 256 = get_le bs).
  { rewrite (Z.mul_comm 256), Z.div_add, Z.div_small; lia. }
  rewrite E, IH. f_equal. apply byteZ_inj.
  rewrite byteZ_Zbyte, (Z.mul_comm 256), Z.mod_add, Z.mod_small; lia.
Qed.

(** A 32-bit little-endian field holds every value of its width. *)
Lemma get_put_u32 z : get_le (put_le 4 z) = u32 z.
Proof. apply get_put_le. Qed.

Lemma u32_id z : 0 ≤ z < 2 ^ 32 → u32 z = z.
Proof. apply Z.mod_small. Qed.

Lemma u32_range z : 0 ≤ u32 z < 2 ^ 32.
Proof. apply Z.mod_pos_bound. lia. Qed.

(** ** Lemmas on slices and streams *)

Lemma slice_app_mid (a b c : bytes) lo hi :
  lo = Zlen a → hi = Zlen a + Zlen b → slice (a ++ b ++ c) lo hi = Some b.
Proof.
  intros -> ->. unfold slice. rewrite !Zlen_app.
  pose proof (Zlen_nonneg a). pose proof (Zlen_nonneg b). pose proof (Zlen_nonneg c).
  replace ((0 <=? Zlen a) && _ && _) with true by (symmetry; rewrite !andb_true_iff; lia).
  f_equal. unfold Zlen.
  rewrite Nat2Z.id, drop_app_length.
  replace (Z.to_nat _) with (length b) by lia. apply take_app_length.
Qed.

Lemma slice_in_range (b : bytes) lo hi :
  0 ≤ lo ≤ hi → hi ≤ Zlen b →
  slice b lo hi = Some (take (Z.to_nat (hi - lo)) (drop (Z.to_nat lo) b)).
Proof.
  intros. unfold slice.
  by replace ((0 <=? lo) && _ && _) with true by (symmetry; rewrite !andb_true_iff; lia).
Qed.

Lemma ReadFull_app a rest e :
  ReadFull (Zlen a) (mkStream (a ++ rest) e) = (Ret a, mkStream rest e).
Proof.
  unfold ReadFull. cbn [s_data s_end]. rewrite Zlen_app.
  pose proof (Zlen_nonneg rest).
  replace (_ <=? _) with true by (symmetry; lia).
  unfold Zlen. by rewrite Nat2Z.id, take_app_length, drop_app_length.
Qed.

Lemma ReadFull_app' n a rest e :
  n = Zlen a → ReadFull n (mkStream (a ++ rest) e) = (Ret a, mkStream rest e).
Proof. intros ->. apply ReadFull_app. Qed.

Lemma ReadFull_short n r :
  Zlen (s_data r) < n → ∃ e, ReadFull n r = (Err e, mkStream [] (s_end r)).
Proof.
  intros. unfold ReadFull. replace (_ <=? _) with false by (symmetry; lia). eauto.
Qed.

Lemma ReadFull_Ret n r b r' :
  0 ≤ n → ReadFull n r = (Ret b, r') →
  Zlen b = n ∧ s_data r = b ++ s_data r' ∧ s_end r' = s_end r.
Proof.
  unfold ReadFull. intros Hn. destruct (_ <=? _) eqn:E; [|done]. intros [= <- <-].
  kv_bool. unfold Zlen in *. cbn [s_data s_end]. rewrite length_take, take_drop. split; [lia|done].
Qed.

Lemma ReadFull_not_Panic n r : (ReadFull n r).1 ≠ Panic.
Proof. unfold ReadFull. by destruct (_ <=? _). Qed.

(** ** The order on byte strings *)

Lemma bytes_cmp_refl a : bytes_cmp a a = Eq.
Proof. induction a as [|x a IH]; simpl; [done|]. by rewrite Z.compare_refl. Qed.

Lemma bytes_cmp_eq a b : bytes_cmp a b = Eq → a = b.
Proof.
  revert b. induction a as [|x a IH]; intros [|y b]; simpl; try done.
  destruct (Z.compare_spec (byteZ x) (byteZ y)) as [E| |]; try done.
  intros H. f_equal; [by apply byteZ_inj|by apply IH].
Qed.

Lemma bytes_cmp_antisym a b : bytes_cmp b a = CompOpp (bytes_cmp a b).
Proof.
  revert b. induction a as [|x a IH]; intros [|y b]; simpl; try done.
  rewrite (Z.compare_antisym (byteZ x) (byteZ y)).
  destruct (byteZ x ?= byteZ y); simpl; auto.
Qed.

Lemma bytes_ltb_trans a b c : bytes_ltb a b → bytes_ltb b c → bytes_ltb a c.
Proof.
  unfold bytes_ltb. revert b c.
  induction a as [|x a IH]; intros [|y b] [|z c]; simpl; try done.
  destruct (Z.compare_spec (byteZ x) (byteZ y)), (Z.compare_spec (byteZ y) (byteZ z)),
    (Z.compare_spec (byteZ x) (byteZ z)); try done; try lia.
  apply IH.
Qed.

Lemma bytes_ltb_irrefl a : ¬ bytes_ltb a a.
Proof. unfold bytes_ltb. rewrite bytes_cmp_refl. auto. Qed.

Lemma bytes_ltb_total a b : bytes_ltb a b ∨ a = b ∨ bytes_ltb b a.
Proof.
  unfold bytes_ltb. rewrite (bytes_cmp_antisym a b).
  destruct (bytes_cmp a b) eqn:E; simpl; auto. right; left. by apply bytes_cmp_eq.
Qed.

(** ** Lemmas on decimal numbers *)

Lemma digit_byte n : 0 ≤ n → byteZ (Zbyte (48 + n mod 10)) = 48 + n mod 10.
Proof.
  intros Hn. rewrite byteZ_Zbyte, Z.mod_small; [done|].
  pose proof (Z.mod_pos_bound n 10). lia.
Qed.

Lemma dec_go_val fuel n acc :
  0 ≤ n < 2 ^ Z.of_nat fuel → (0 < fuel)%nat → ∃ ds,
    dec_go fuel n acc = ds ++ acc ∧ ds ≠ [] ∧ Forall (λ b, is_digit b = true) ds ∧ digits_val 0 ds = n.
Proof.
  revert n acc. induction fuel as [|fuel IH]; intros n acc Hn Hf; [lia|]. cbn [dec_go].
  set (b := Zbyte (48 + n mod 10)).
  assert (Hb : byteZ b = 48 + n mod 10) by (apply digit_byte; lia).
  pose proof (Z.mod_pos_bound n 10 ltac:(lia)) as Hm.
  assert (Hdig : is_digit b = true) by (unfold is_digit; rewrite Hb; apply andb_true_iff; lia).
  destruct (n <? 10) eqn:E; kv_bool.
  - exists [b]. split_and!; try done; [by repeat constructor|].
    unfold digits_val. cbn [foldl]. rewrite Hb, Z.mod_small; lia.
  - assert (Hq : 0 ≤ n / 10 < 2 ^ Z.of_nat fuel).
    { split; [apply Z.div_pos; lia|]. apply Z.div_lt_upper_bound; [lia|].
      rewrite Nat2Z.inj_succ, Z.pow_succ_r in Hn by lia. lia. }
    destruct (IH (n / 10) (b :: acc) Hq) as (ds & -> & Hne & Hds & Hv).
    { destruct fuel; [|lia]. cbn in Hq. pose proof (Z.div_le_mono 10 n 10). lia. }
    exists (ds ++ [b]). rewrite <-app_assoc. split_and!; try done.
    + by destruct ds.
    + apply Forall_app. split; [done|by repeat constructor].
    + unfold digits_val in *. rewrite foldl_app, Hv. cbn [foldl]. rewrite Hb.
      pose proof (Z.div_mod n 10). lia.
Qed.

Lemma dec_nonneg_val n :
  0 ≤ n → dec_nonneg n ≠ [] ∧ Forall (λ b, is_digit b = true) (dec_nonneg n) ∧ digits_val 0 (dec_nonneg n) = n.
Proof.
  intros Hn. unfold dec_nonneg.
  destruct (dec_go_val (S (Z.to_nat (Z.log2 n))) n []) as (ds & -> & H1 & H2 & H3); [|lia|].
  - rewrite Nat2Z.inj_succ, Z2Nat.id by apply Z.log2_nonneg. split; [done|].
    destruct (decide (n = 0)) as [->|]; [done|]. apply Z.log2_spec. lia.
  - by rewrite app_nil_r.
Qed.

Lemma digits_val_zeros k acc ds :
  acc = 0 → digits_val acc (repeat Byte.x30 k ++ ds) = digits_val 0 ds.
Proof. intros ->. induction k as [|k IH]; [done|]. cbn. exact IH. Qed.

Lemma dec06_inj a b : 0 ≤ a → 0 ≤ b → dec06 a = dec06 b → a = b.
Proof.
  intros Ha Hb H. apply (f_equal (digits_val 0)) in H. unfold dec06 in H.
  rewrite !digits_val_zeros in H by done.
  destruct (dec_nonneg_val a Ha) as (_ & _ & <-). by destruct (dec_nonneg_val b Hb) as (_ & _ & <-).
Qed.

(** ** Lemmas on lists *)

Lemma prefix_take_of {A} (l k : list A) : l `prefix_of` k → take (length l) k = l.
Proof. intros [s ->]. apply take_app_length. Qed.

Lemma prefix_of_app_inv {A} (p a b : list A) :
  p `prefix_of` a ++ b → (p `prefix_of` a ∧ (length p < length a)%nat) ∨ ∃ q, p = a ++ q ∧ q `prefix_of` b.
Proof.
  intros [s E]. destruct (decide (length p < length a)%nat) as [Hl|Hl].
  - left. split; [|done]. exists (drop (length p) a).
    rewrite <-(take_drop (length p) a) at 1. f_equal.
    apply (f_equal (take (length p))) in E.
    rewrite take_app_le, take_app_length in E by lia. done.
  - right. exists (drop (length a) p).
    assert (Hp : p = a ++ drop (length a) p).
    { rewrite <-(take_drop (length a) p) at 1. f_equal.
      apply (f_equal (take (length a))) in E.
      rewrite take_app_length, take_app_le in E by lia. done. }
    split; [done|]. exists s. rewrite Hp, <-app_assoc in E. by apply app_inv_head in E.
Qed.

(** ** Invariants of transition systems *)

Lemma rtc_invariant {A} (R : relation A) (P : A → Prop) x y :
  (∀ a b, P a → R a b → P b) → rtc R x y → P x → P y.
Proof. intros Hstep Hrtc. induction Hrtc; eauto. Qed.
