(* ===== verification/GoIO.v ===== *)
(** * GoIO: the parts of the Go run-time library the storage code relies on

    [hash/crc32] (the IEEE checksum), an [os.File] opened for appending with
    its page cache and its fsynced prefix, and [bufio.Writer] over it.  A file
    carries the script of the outcomes its next system calls will have, so
    every pattern of write and fsync failures is an input of the model. *)
From stdpp Require Import prelude gmap.
From Stdlib Require Import ZArith Lia Strings.Byte.
From S2P Require Import Prelude.
Local Open Scope Z_scope.

(** ** hash/crc32 *)

Definition crc_poly : Z := 0xEDB88320.

Definition crc_bit (c : Z) : Z :=
  if Z.odd c then Z.lxor (Z.shiftr c 1) crc_poly else Z.shiftr c 1.
Definition crc_byte (c : Z) (b : Byte.byte) : Z :=
  Nat.iter 8 crc_bit (Z.lxor c (byteZ b)).
Definition ChecksumIEEE (body : bytes) : Z :=
  Z.lxor (foldl crc_byte 0xFFFFFFFF body) 0xFFFFFFFF.

(** ** os.File in append mode *)

(** The outcome of one system call: it succeeds, or it fails after [n] bytes
    of a write reached the page cache. *)
Inductive fault := FOk | FFail (n : nat).

Record File := mkFile {
  f_content : bytes;        (* what a reader of the file sees *)
  f_synced : nat;           (* the length of the fsynced prefix *)
  f_faults : list fault;    (* the outcomes of the next system calls *)
  f_closed : bool           (* every call on a closed file fails *)
}.

Definition next_fault (f : File) : fault * list fault :=
  match f_faults f with
  | [] => (FOk, [])
  | x :: l => (x, l)
  end.

(** [f.Write(p)]: the number of bytes written, whether it failed. A failed
    write is short. *)
Definition file_Write (p : bytes) (f : File) : nat * bool * File :=
  if f_closed f then (O, true, f)
  else
    let '(x, l) := next_fault f in
    match x with
    | FOk => (length p, false, mkFile (f_content f ++ p) (f_synced f) l false)
    | FFail n =>
        let n := Nat.min n (Nat.pred (length p)) in
        (n, true, mkFile (f_content f ++ take n p) (f_synced f) l false)
    end.

(** [f.Sync()]: on success everything written so far is durable. *)
Definition file_Sync (f : File) : bool * File :=
  if f_closed f then (true, f)
  else
    let '(x, l) := next_fault f in
    match x with
    | FOk => (false, mkFile (f_content f) (length (f_content f)) l false)
    | FFail _ => (true, mkFile (f_content f) (f_synced f) l false)
    end.

(** [f.Close()]: the descriptor is gone whether or not the call reports an
    error. *)
Definition file_Close (f : File) : bool * File :=
  if f_closed f then (true, f)
  else
    let '(x, l) := next_fault f in
    (match x with FOk => false | FFail _ => true end,
     mkFile (f_content f) (f_synced f) l true).

(** What a crash may leave of a file: the fsynced prefix, with any part of
    what was written after it. *)
Definition crash_image (f : File) (img : bytes) : Prop :=
  take (f_synced f) (f_content f) `prefix_of` img ∧ img `prefix_of` f_content f.

(** ** bufio.Writer *)

Definition defaultBufSize : nat := 4096.
#[global] Opaque defaultBufSize.

Record Writer := mkWriter { wb_buf : bytes; wb_err : bool }.
Definition NewWriter : Writer := mkWriter [] false.

Definition Available (w : Writer) : nat := defaultBufSize - length (wb_buf w).

Definition bufio_Flush (w : Writer) (f : File) : bool * Writer * File :=
  if wb_err w then (true, w, f)
  else match wb_buf w with
  | [] => (false, w, f)
  | _ =>
      let '(n, err, f) := file_Write (wb_buf w) f in
      if err then (true, mkWriter (drop n (wb_buf w)) true, f)
      else (false, mkWriter [] false, f)
  end.

(** The loop of [Write]: while the rest of [p] does not fit, fill the buffer
    and flush it, or write straight through when the buffer is empty. *)
Fixpoint bufio_write_loop (fuel : nat) (p : bytes) (w : Writer) (f : File) : bytes * Writer * File :=
  match fuel with
  | O => (p, w, f)
  | S fuel =>
      if bool_decide (Available w < length p)%nat && negb (wb_err w) then
        match wb_buf w with
        | [] =>
            let '(n, err, f) := file_Write p f in
            bufio_write_loop fuel (drop n p) (mkWriter [] err) f
        | _ =>
            let n := Nat.min (Available w) (length p) in
            let '(_, w, f) := bufio_Flush (mkWriter (wb_buf w ++ take n p) false) f in
            bufio_write_loop fuel (drop n p) w f
        end
      else (p, w, f)
  end.

(** [Write] as a whole; three iterations empty [p] or leave a rest that fits
    ([bufio_write_loop_done]). *)
Definition bufio_Write (p : bytes) (w : Writer) (f : File) : bool * Writer * File :=
  let '(p, w, f) := bufio_write_loop 3 p w f in
  if wb_err w then (true, w, f)
  else (false, mkWriter (wb_buf w ++ p) false, f).

(** ** Lemmas *)

Example crc32_check_value :
  ChecksumIEEE (map Zbyte [49; 50; 51; 52; 53; 54; 55; 56; 57]) = 0xCBF43926.
Proof. vm_compute. reflexivity. Qed.

Lemma Zlxor_bound a b : 0 ≤ a < 2 ^ 32 → 0 ≤ b < 2 ^ 32 → 0 ≤ Z.lxor a b < 2 ^ 32.
Proof.
  intros Ha Hb. assert (Hn : 0 ≤ Z.lxor a b) by (apply Z.lxor_nonneg; lia).
  split; [done|]. destruct (decide (Z.lxor a b = 0)) as [->|]; [lia|].
  apply Z.log2_lt_pow2; [lia|].
  eapply Z.le_lt_trans; [apply Z.log2_lxor; lia|].
  assert (∀ x, 0 ≤ x < 2 ^ 32 → Z.log2 x < 32) as Hlog.
  { intros x Hx. destruct (decide (x = 0)) as [->|]; [done|]. apply Z.log2_lt_pow2; lia. }
  apply Z.max_lub_lt; auto.
Qed.

Lemma crc_bit_bound c : 0 ≤ c < 2 ^ 32 → 0 ≤ crc_bit c < 2 ^ 32.
Proof.
  intros Hc. assert (0 ≤ Z.shiftr c 1 < 2 ^ 32).
  { rewrite Z.shiftr_div_pow2 by lia. split; [apply Z.div_pos; lia|].
    apply Z.div_lt_upper_bound; lia. }
  unfold crc_bit. destruct (Z.odd c); [|done]. apply Zlxor_bound; [done|]. unfold crc_poly. lia.
Qed.

Lemma crc_byte_bound c b : 0 ≤ c < 2 ^ 32 → 0 ≤ crc_byte c b < 2 ^ 32.
Proof.
  intros Hc. unfold crc_byte. pose proof (byteZ_range b) as Hb.
  assert (H0 : 0 ≤ Z.lxor c (byteZ b) < 2 ^ 32) by (apply Zlxor_bound; lia).
  revert H0. generalize (Z.lxor c (byteZ b)). generalize 8%nat as k.
  induction k as [|k IH]; intros x Hx; [done|]. rewrite Nat.iter_succ. by apply crc_bit_bound, IH.
Qed.

(** The checksum fits the 32-bit field it is stored in. *)
Lemma ChecksumIEEE_range body : 0 ≤ ChecksumIEEE body < 2 ^ 32.
Proof.
  unfold ChecksumIEEE. apply Zlxor_bound; [|lia].
  assert (H : ∀ c, 0 ≤ c < 2 ^ 32 → 0 ≤ foldl crc_byte c body < 2 ^ 32).
  { induction body as [|b body IH]; intros c Hc; [done|]. by apply IH, crc_byte_bound. }
  apply H. lia.
Qed.

(** What every operation on a file preserves: bytes once written stay, the
    synced prefix never shrinks. *)
Definition file_le (f g : File) : Prop :=
  f_content f `prefix_of` f_content g ∧ (f_synced f ≤ f_synced g)%nat.

#[global] Instance file_le_preorder : PreOrder file_le.
Proof.
  split.
  - intros f. by split.
  - intros f g h [??] [??]. split; [by etrans|lia].
Qed.

Definition file_wf (f : File) : Prop := (f_synced f ≤ length (f_content f))%nat.

Lemma file_Write_spec p f n err f' :
  file_Write p f = (n, err, f') →
  f_content f' = f_content f ++ take n p ∧ f_synced f' = f_synced f ∧
  (if err then (n ≤ pred (length p))%nat else n = length p).
Proof.
  unfold file_Write. destruct (f_closed f).
  { intros [= <- <- <-]. rewrite take_0, app_nil_r. split_and!; [done|done|lia]. }
  destruct (next_fault f) as [[|k] l]; intros [= <- <- <-]; simpl.
  - by rewrite firstn_all.
  - split_and!; [done|done|lia].
Qed.

Definition writer_wf (w : Writer) : Prop := (length (wb_buf w) ≤ defaultBufSize)%nat.

Lemma bufio_Flush_spec w f err w' f' :
  bufio_Flush w f = (err, w', f') → writer_wf w →
  f_content f `prefix_of` f_content f' ∧ f_synced f' = f_synced f ∧ writer_wf w' ∧
  f_content f' ++ wb_buf w' = f_content f ++ wb_buf w ∧ wb_err w' = err ∧
  (err = false → wb_buf w' = []).
Proof.
  unfold bufio_Flush, writer_wf. intros H Hw.
  destruct (wb_err w) eqn:Ew; [by injection H as <- <- <-|].
  destruct (wb_buf w) as [|b l] eqn:Eb; [injection H as <- <- <-; by rewrite Ew, Eb|].
  destruct (file_Write (b :: l) f) as [[n e] g] eqn:Ef.
  apply file_Write_spec in Ef as (Hc & Hs & He).
  destruct e; injection H as <- <- <-; cbn [wb_buf wb_err].
  - rewrite Hc. split_and!; try done.
    + by apply prefix_app_r.
    + rewrite length_drop. lia.
    + by rewrite <-app_assoc, take_drop.
  - rewrite Hc, He, firstn_all, app_nil_r. split_and!; try done.
    + by apply prefix_app_r.
    + simpl. lia.
Qed.

Lemma bufio_write_loop_spec fuel p w f p' w' f' :
  bufio_write_loop fuel p w f = (p', w', f') → writer_wf w →
  f_content f `prefix_of` f_content f' ∧ f_synced f' = f_synced f ∧ writer_wf w' ∧
  f_content f' ++ wb_buf w' ++ p' = f_content f ++ wb_buf w ++ p.
Proof.
  revert p w f. induction fuel as [|fuel IH]; intros p w f H Hw; [by injection H as <- <- <-|].
  cbn [bufio_write_loop] in H.
  destruct (_ && _) eqn:Ec in H; [|by injection H as <- <- <-].
  destruct (wb_buf w) as [|b l] eqn:Eb.
  - destruct (file_Write p f) as [[n e] g] eqn:Ef.
    apply file_Write_spec in Ef as (Hc & Hs & _).
    apply IH in H as (H1 & H2 & H3 & H4); [|by apply Nat.le_0_l].
    rewrite H4, H2, Hs, Hc. split_and!; try done.
    + etrans; [|exact H1]. rewrite Hc. by apply prefix_app_r.
    + simpl. by rewrite <-app_assoc, take_drop.
  - set (n := Nat.min (Available w) (length p)) in *.
    destruct (bufio_Flush _ f) as [[e w1] g] eqn:Ef.
    apply bufio_Flush_spec in Ef as (F1 & F2 & F3 & F4 & _ & _).
    2: { try subst n; unfold writer_wf, Available in *. cbn [wb_buf].
         rewrite Eb in *. rewrite length_app, length_take. lia. }
    apply IH in H as (H1 & H2 & H3 & H4); [|done]. cbn [wb_buf] in F4.
    split_and!; try done; [by etrans|by rewrite H2|].
    by rewrite H4, app_assoc, F4, <-!app_assoc, take_drop.
Qed.

(** The loop of [Write] ends within three iterations: the buffer is filled
    and flushed at most once, then a rest of more than a buffer is written
    straight through. *)
Lemma bufio_write_loop_done p w f p' w' f' :
  bufio_write_loop 3 p w f = (p', w', f') → writer_wf w →
  wb_err w' = true ∨ (length p' ≤ Available w')%nat.
Proof.
  (* an empty buffer is left in one more iteration *)
  assert (Hempty : ∀ k p f p' w' f' e, bufio_write_loop (S (S k)) p (mkWriter [] e) f = (p', w', f') →
    wb_err w' = true ∨ (length p' ≤ Available w')%nat).
  { clear. intros k p f p' w' f' e H. cbn [bufio_write_loop] in H.
    destruct (_ && _) eqn:Ec in H.
    - cbn [wb_buf] in H. destruct (file_Write p f) as [[n e1] g] eqn:Ef.
      apply file_Write_spec in Ef as (_ & _ & He).
      destruct e1.
      + rewrite andb_false_r in H. injection H as <- <- <-. by left.
      + subst n. rewrite drop_all in H. cbn [length] in H.
        rewrite bool_decide_eq_false_2 in H by lia. injection H as <- <- <-. right. simpl. lia.
    - injection H as <- <- <-. apply andb_false_iff in Ec as [Ec|Ec]; kv_bool; [right; lia|by left]. }
  intros H Hw. destruct (wb_buf w) as [|b l] eqn:Eb.
  - destruct w as [bf e]. simpl in Eb. subst bf. by eapply Hempty.
  - cbn [bufio_write_loop] in H. destruct (_ && _) eqn:Ec in H.
    2: { injection H as <- <- <-. apply andb_false_iff in Ec as [Ec|Ec]; kv_bool; [right; lia|by left]. }
    rewrite Eb in H. destruct (bufio_Flush _ f) as [[e w1] g] eqn:Ef.
    apply bufio_Flush_spec in Ef as (_ & _ & _ & _ & He & Hb).
    2: { try subst n; unfold writer_wf, Available in *. cbn [wb_buf].
         rewrite Eb in *. rewrite length_app, length_take. lia. }
    destruct e.
    + destruct (wb_buf w1); rewrite He in H; rewrite andb_false_r in H; injection H as <- <- <-; by left.
    + destruct w1 as [bf e1]. cbn [wb_buf wb_err] in *. rewrite (Hb eq_refl), He in H.
      eapply (Hempty 0%nat). exact H.
Qed.

(** [Write] loses nothing: on success the buffered and written bytes are
    exactly the old ones followed by [p]; on failure they are a prefix. *)
Lemma bufio_Write_spec p w f err w' f' :
  bufio_Write p w f = (err, w', f') → writer_wf w →
  f_content f `prefix_of` f_content f' ∧ f_synced f' = f_synced f ∧ writer_wf w' ∧
  wb_err w' = err ∧
  (if err then f_content f' ++ wb_buf w' `prefix_of` f_content f ++ wb_buf w ++ p
   else f_content f' ++ wb_buf w' = f_content f ++ wb_buf w ++ p).
Proof.
  unfold bufio_Write. destruct (bufio_write_loop 3 p w f) as [[q w1] g] eqn:E. intros H Hw.
  pose proof (bufio_write_loop_done _ _ _ _ _ _ E Hw) as Hd.
  apply bufio_write_loop_spec in E as (H1 & H2 & H3 & H4); [|done].
  destruct (wb_err w1) eqn:Ee; injection H as <- <- <-; split_and!; try done.
  - rewrite <-H4, app_assoc. by apply prefix_app_r.
  - destruct Hd as [|Hd]; [done|]. unfold writer_wf, Available in *. cbn [wb_buf].
    rewrite length_app. lia.
Qed.

(** A writer whose error is set refuses every further write. *)
Lemma bufio_Write_sticky p w f : wb_err w = true → bufio_Write p w f = (true, w, f).
Proof.
  intros E. unfold bufio_Write. cbn [bufio_write_loop]. rewrite E, andb_false_r. by rewrite E.
Qed.

Lemma file_Sync_spec f err f' :
  file_Sync f = (err, f') →
  f_content f' = f_content f ∧
  f_synced f' = (if err then f_synced f else length (f_content f)).
Proof.
  unfold file_Sync. destruct (f_closed f); [by intros [= <- <-]|].
  by destruct (next_fault f) as [[|] ?]; intros [= <- <-].
Qed.

(** ** Files whose system calls all succeed *)

Definition fault_free (f : File) : Prop := f_faults f = [] ∧ f_closed f = false.

Lemma file_Write_fault_free p f n err f' :
  file_Write p f = (n, err, f') → fault_free f → err = false ∧ fault_free f'.
Proof.
  unfold file_Write, next_fault, fault_free. intros H [Hf Hc]. rewrite Hc, Hf in H.
  by injection H as <- <- <-.
Qed.

Lemma file_Sync_fault_free f err f' :
  file_Sync f = (err, f') → fault_free f → err = false ∧ fault_free f'.
Proof.
  unfold file_Sync, next_fault, fault_free. intros H [Hf Hc]. rewrite Hc, Hf in H.
  by injection H as <- <-.
Qed.

Lemma bufio_Flush_fault_free w f err w' f' :
  bufio_Flush w f = (err, w', f') → fault_free f → wb_err w = false →
  err = false ∧ wb_err w' = false ∧ fault_free f'.
Proof.
  unfold bufio_Flush. intros H Hf He. rewrite He in H.
  destruct (wb_buf w) eqn:Eb; [by injection H as <- <- <-|].
  destruct (file_Write _ f) as [[n e] g] eqn:Ew.
  apply file_Write_fault_free in Ew as [-> Hg]; [|done]. by injection H as <- <- <-.
Qed.

Lemma bufio_Write_fault_free p w f err w' f' :
  bufio_Write p w f = (err, w', f') → fault_free f → wb_err w = false →
  err = false ∧ wb_err w' = false ∧ fault_free f'.
Proof.
  assert (Hloop : ∀ k p w f p' w' f', bufio_write_loop k p w f = (p', w', f') →
    fault_free f → wb_err w = false → wb_err w' = false ∧ fault_free f').
  { clear. induction k as [|k IH]; intros p w f p' w' f' H Hf He; [by injection H as <- <- <-|].
    cbn [bufio_write_loop] in H. destruct (_ && _); [|by injection H as <- <- <-].
    destruct (wb_buf w) eqn:Eb.
    - destruct (file_Write p f) as [[n e] g] eqn:Ew.
      apply file_Write_fault_free in Ew as [-> Hg]; [|done]. by eapply IH.
    - destruct (bufio_Flush _ f) as [[e w1] g] eqn:Ew.
      apply bufio_Flush_fault_free in Ew as (_ & He1 & Hg); [|done..]. by eapply IH. }
  unfold bufio_Write. intros H Hf He. destruct (bufio_write_loop 3 p w f) as [[q w1] g] eqn:E.
  apply Hloop in E as [He1 Hg]; [|done..]. rewrite He1 in H. by injection H as <- <- <-.
Qed.
