(* ===== verification/Wal.v ===== *)
(** * Wal: internal/wal/wal.go

    The write-ahead log: the record framing ([encode], [ReadRecord]), crash
    replay ([Replay]), the log object with its buffered writer, its durable
    frontier and its wake-up channel ([Open], [Append], [Sync], [Close]), and
    the replication reader [StreamFrom] as a transition system. *)
From stdpp Require Import prelude gmap.
From Stdlib Require Import ZArith Lia Strings.Byte.
From S2P Require Import Prelude GoIO.
Local Open Scope Z_scope.

(** ** Records *)

Definition RecordPut : Byte.byte := Byte.x01.
Definition RecordDelete : Byte.byte := Byte.x02.

Record WRecord := mkRec {
  Type_ : Byte.byte;
  Key : bytes;
  Value : bytes
}.

(** ** Framing *)

Definition appendUint32 (b : bytes) (v : Z) : bytes := b ++ put_le 4 v.

Definition encode_body (rec : WRecord) : bytes :=
  let body := [Type_ rec] in
  let body := appendUint32 body (u32 (Zlen (Key rec))) in
  let body := body ++ Key rec in
  let body := appendUint32 body (u32 (Zlen (Value rec))) in
  body ++ Value rec.

Definition encode (rec : WRecord) : bytes :=
  let body := encode_body rec in
  let crc := ChecksumIEEE body in
  let out := appendUint32 [] crc in
  let out := appendUint32 out (u32 (Zlen body)) in
  out ++ body.

Inductive wal_error :=
| WIO (e : io_error)
| BodyTooLarge (length : Z)
| ChecksumMismatch
| MalformedBody
| MalformedKeyLength
| MalformedValueLength.

Definition maxBodySize : Z := Z.shiftl 32 20.

(** The part of [ReadRecord] that follows the read of the body. *)
Definition decode_body (crcWant : Z) (body : bytes) : outcome wal_error WRecord :=
  _ ← fail_if (negb (ChecksumIEEE body =? crcWant)) ChecksumMismatch;
  _ ← fail_if (Zlen body <? 9) MalformedBody;
  typ ← or_panic (body !! O);
  keyLenB ← or_panic (slice body 1 5);
  let keyLen := get_le keyLenB in
  let valLenOffset := 5 + keyLen in
  _ ← fail_if (Zlen body <? valLenOffset + 4) MalformedKeyLength;
  key ← or_panic (slice body 5 valLenOffset);
  valLenB ← or_panic (slice body valLenOffset (valLenOffset + 4));
  let valLen := get_le valLenB in
  let valStart := valLenOffset + 4 in
  _ ← fail_if (Zlen body <? valStart + valLen) MalformedValueLength;
  val ← or_panic (slice body valStart (valStart + valLen));
  Ret (mkRec typ key val).

(** The record or the error, the reported number of consumed bytes, and the
    reader after the call. *)
Definition ReadRecord (r : Stream) : outcome wal_error WRecord * Z * Stream :=
  let '(header, r) := ReadFull 8 r in
  match header with
  | Panic => (Panic, 0, r)
  | Err e => (Err (WIO e), 0, r)
  | Ret header =>
      let crcWant := get_le (take 4 header) in
      let length := get_le (drop 4 header) in
      if maxBodySize <? length then (Err (BodyTooLarge length), 0, r)
      else
        let '(body, r) := ReadFull length r in
        match body with
        | Panic => (Panic, 8, r)
        | Err _ => (Err (WIO ErrUnexpectedEOF), 8, r)
        | Ret body => (decode_body crcWant body, u32 (8 + length), r)
        end
  end.

(** ** Replay *)

(** What [os.Open] finds at a path. *)
Inductive opened := NotExist | OpenFailed | Opened (r : Stream).

Inductive replay_error := ReplayOpen | OutOfFuel.

Fixpoint replay_loop (fuel : nat) (records : list WRecord) (r : Stream) : outcome replay_error (list WRecord) :=
  match fuel with
  | O => Err OutOfFuel
  | S fuel =>
      let '(rec, _, r) := ReadRecord r in
      match rec with
      | Panic => Panic
      | Err _ => Ret records
      | Ret rec => replay_loop fuel (records ++ [rec]) r
      end
  end.

(** Every record takes at least one byte of the log, so one iteration per
    byte and one for the end are enough ([replay_total]). *)
Definition Replay (path : opened) : outcome replay_error (list WRecord) :=
  match path with
  | NotExist => Ret []
  | OpenFailed => Err ReplayOpen
  | Opened r => replay_loop (S (length (s_data r))) [] r
  end.

(** ** The log object *)

Record WAL := mkWAL {
  file : File;
  w : Writer;
  durableOff : Z;
  pendingBytes : Z;
  notify : nat          (* the number of the current wake-up channel *)
}.

Inductive walop_error := AppendErr | FlushErr | FsyncErr | CloseErr.

(** [Open] on a file that opens and whose size [Stat] reports. *)
Definition Open (f : File) : WAL :=
  mkWAL f NewWriter (Zlen (f_content f)) 0 O.

Definition Append (rec : WRecord) (l : WAL) : option walop_error * WAL :=
  let b := encode rec in
  let '(err, w, f) := bufio_Write b (w l) (file l) in
  if err then (Some AppendErr, mkWAL f w (durableOff l) (pendingBytes l) (notify l))
  else (None, mkWAL f w (durableOff l) (pendingBytes l + Zlen b) (notify l)).

(** Channel [n] is closed once [notify] has moved past it. *)
Definition Sync (l : WAL) : option walop_error * WAL :=
  let '(err, w, f) := bufio_Flush (w l) (file l) in
  if err then (Some FlushErr, mkWAL f w (durableOff l) (pendingBytes l) (notify l))
  else
    let '(err, f) := file_Sync f in
    if err then (Some FsyncErr, mkWAL f w (durableOff l) (pendingBytes l) (notify l))
    else (None, mkWAL f w (durableOff l + pendingBytes l) 0 (S (notify l))).

Definition DurableOffset (l : WAL) : Z := durableOff l.

Definition chan_closed (l : WAL) (ch : nat) : bool := bool_decide (ch < notify l)%nat.

Definition Close (l : WAL) : option walop_error * WAL :=
  let '(err, w, f) := bufio_Flush (w l) (file l) in
  if err then (Some FlushErr, mkWAL f w (durableOff l) (pendingBytes l) (notify l))
  else
    let '(err, f) := file_Close f in
    (if err then Some CloseErr else None,
     mkWAL f w (durableOff l) (pendingBytes l) (notify l)).

(** ** StreamFrom *)

Inductive stream_error := CopyEOF | DstWrite | DstFlush.

(** At the head of the loop, blocked in the [select] with the channel it
    captured, or returned. *)
Inductive phase := SLoop | SWait (ch : nat) | SRet (err : option stream_error).

Record Streamer := mkStreamer {
  pos : Z;
  sent : bytes;
  st_phase : phase
}.

(** What the destination does with the bytes of one iteration. *)
Inductive dst_outcome := DstOk | DstFail (n : nat) | DstFlushFail.

Definition stream_start (fromOffset : Z) : Streamer := mkStreamer fromOffset [] SLoop.

(** One iteration of the [for] loop: read the frontier and the channel under
    the lock, then copy up to the frontier or go to wait. *)
Definition stream_iter (l : WAL) (d : dst_outcome) (s : Streamer) : Streamer :=
  let target := durableOff l in
  let ch := notify l in
  if pos s <? target then
    let chunk := take (Z.to_nat (target - pos s)) (drop (Z.to_nat (pos s)) (f_content (file l))) in
    match d, chunk with
    | DstFail n, _ :: _ =>
        let n := Nat.min n (Nat.pred (length chunk)) in
        mkStreamer (pos s + Z.of_nat n) (sent s ++ take n chunk) (SRet (Some DstWrite))
    | _, _ =>
        mkStreamer (pos s + Zlen chunk) (sent s ++ chunk)
          (if Zlen chunk <? target - pos s then SRet (Some CopyEOF)
           else match d with DstFlushFail => SRet (Some DstFlush) | _ => SLoop end)
    end
  else mkStreamer (pos s) (sent s) (SWait ch).

Inductive stream_step (l : WAL) (done : bool) : Streamer → Streamer → Prop :=
| step_iter d s :
    st_phase s = SLoop → stream_step l done s (stream_iter l d s)
| step_done s ch :
    st_phase s = SWait ch → done = true →
    stream_step l done s (mkStreamer (pos s) (sent s) (SRet None))
| step_wake s ch :
    st_phase s = SWait ch → chan_closed l ch = true →
    stream_step l done s (mkStreamer (pos s) (sent s) SLoop).

(** The writers of the log and one streamer, interleaved at the points where
    the mutex is released. *)
Inductive sys_step : WAL * Streamer → WAL * Streamer → Prop :=
| sys_append rec l s : sys_step (l, s) ((Append rec l).2, s)
| sys_sync l s : sys_step (l, s) ((Sync l).2, s)
| sys_stream done l s s' : stream_step l done s s' → sys_step (l, s) (l, s').

(** ** Histories of appends and syncs *)

Inductive wop := WAppend (rec : WRecord) | WSync.

(** The log, the records passed to [Append] so far, and how many of them had
    been passed when [Sync] last reported success. *)
Definition wstep (st : WAL * list WRecord * nat) (op : wop) : WAL * list WRecord * nat :=
  let '(l, attempted, acked) := st in
  match op with
  | WAppend rec => ((Append rec l).2, attempted ++ [rec], acked)
  | WSync =>
      match Sync l with
      | (None, l) => (l, attempted, length attempted)
      | (Some _, l) => (l, attempted, acked)
      end
  end.

Definition wrun (ops : list wop) (l : WAL) : WAL * list WRecord * nat :=
  foldl wstep (l, [], O) ops.

Definition encodes (rs : list WRecord) : bytes := concat (encode <$> rs).

(** The records whose frame [ReadRecord] accepts: a body of at most 32 MiB. *)
Definition rec_ok (rec : WRecord) : Prop := Zlen (encode_body rec) ≤ maxBodySize.

(** ** Lemmas on the framing *)

Lemma maxBodySize_value : maxBodySize = 33554432.
Proof. reflexivity. Qed.

Lemma Zlen_encode_body rec : Zlen (encode_body rec) = 9 + Zlen (Key rec) + Zlen (Value rec).
Proof.
  unfold encode_body, appendUint32. autorewrite with kv. lia.
Qed.

Lemma Zlen_encode rec : Zlen (encode rec) = 17 + Zlen (Key rec) + Zlen (Value rec).
Proof.
  unfold encode, appendUint32. autorewrite with kv. rewrite Zlen_encode_body. lia.
Qed.

(** The fields of an encoded body, by position. *)
Lemma encode_body_fields rec :
  let kl := put_le 4 (u32 (Zlen (Key rec))) in
  let vl := put_le 4 (u32 (Zlen (Value rec))) in
  let off := 5 + Zlen (Key rec) in
  encode_body rec !! O = Some (Type_ rec) ∧
  slice (encode_body rec) 1 5 = Some kl ∧
  slice (encode_body rec) 5 off = Some (Key rec) ∧
  slice (encode_body rec) off (off + 4) = Some vl ∧
  slice (encode_body rec) (off + 4) (off + 4 + Zlen (Value rec)) = Some (Value rec).
Proof.
  intros kl vl off. subst off.
  assert (Hkl : Zlen kl = 4) by apply Zlen_put_le.
  assert (Hvl : Zlen vl = 4) by apply Zlen_put_le.
  assert (Hbody : encode_body rec = [Type_ rec] ++ kl ++ Key rec ++ vl ++ Value rec).
  { unfold encode_body, appendUint32. by rewrite <-!app_assoc. }
  rewrite Hbody. split_and!.
  - done.
  - apply slice_app_mid; autorewrite with kv; lia.
  - rewrite app_assoc. apply slice_app_mid; autorewrite with kv; lia.
  - rewrite app_assoc, (app_assoc _ (Key rec)). apply slice_app_mid; autorewrite with kv; lia.
  - rewrite app_assoc, (app_assoc _ (Key rec)), (app_assoc _ vl), <-(app_nil_r (Value rec)) at 1.
    apply slice_app_mid; autorewrite with kv; lia.
Qed.

Lemma get_put_len {A} (l : list A) : Zlen l < 2 ^ 32 → get_le (put_le 4 (u32 (Zlen l))) = Zlen l.
Proof.
  intros. pose proof (Zlen_nonneg l).
  rewrite get_put_u32, !u32_id; try done; rewrite ?u32_id; lia.
Qed.

Lemma decode_encode_body rec :
  rec_ok rec → decode_body (ChecksumIEEE (encode_body rec)) (encode_body rec) = Ret rec.
Proof.
  unfold rec_ok. rewrite Zlen_encode_body, maxBodySize_value. intros Hok.
  pose proof (Zlen_nonneg (Key rec)). pose proof (Zlen_nonneg (Value rec)).
  pose proof (Zlen_encode_body rec) as Hlen.
  destruct (encode_body_fields rec) as (F0 & F1 & F2 & F3 & F4).
  unfold decode_body. rewrite Z.eqb_refl, F0, F1. go_red.
  rewrite get_put_len, F2, F3 by lia. go_red.
  rewrite get_put_len, F4 by lia.
  replace (Zlen (encode_body rec) <? 9) with false by (symmetry; lia).
  replace (Zlen (encode_body rec) <? 5 + Zlen (Key rec) + 4) with false by (symmetry; lia).
  replace (Zlen (encode_body rec) <? _) with false by (symmetry; lia).
  cbn. by destruct rec.
Qed.

(** [ReadRecord] undoes [encode], whatever follows on the stream. *)
Lemma ReadRecord_encode rec rest e :
  rec_ok rec →
  ReadRecord (mkStream (encode rec ++ rest) e) = (Ret rec, Zlen (encode rec), mkStream rest e).
Proof.
  intros Hok. pose proof (Zlen_encode rec) as Hle. pose proof (Zlen_encode_body rec) as Hlb.
  pose proof Hok as Hok'. unfold rec_ok in Hok'. rewrite maxBodySize_value in Hok'.
  pose proof (Zlen_nonneg (encode_body rec)).
  set (hdr := put_le 4 (ChecksumIEEE (encode_body rec)) ++ put_le 4 (u32 (Zlen (encode_body rec)))).
  assert (Henc : encode rec = hdr ++ encode_body rec).
  { done. }
  unfold ReadRecord. rewrite Henc, <-app_assoc.
  rewrite (ReadFull_app' 8) by (unfold hdr; by autorewrite with kv).
  assert (H4 : take 4 hdr = put_le 4 (ChecksumIEEE (encode_body rec))) by done.
  assert (H5 : drop 4 hdr = put_le 4 (u32 (Zlen (encode_body rec)))) by done.
  rewrite H4, H5, get_put_len by lia.
  rewrite get_put_u32, u32_id by apply ChecksumIEEE_range.
  replace (maxBodySize <? _) with false by (symmetry; rewrite maxBodySize_value; lia).
  rewrite ReadFull_app, decode_encode_body by done. rewrite <-Henc, Hle, Hlb, u32_id by lia.
  do 2 f_equal. lia.
Qed.

(** A strict prefix of a frame is never taken for a record. *)
Lemma ReadRecord_torn rec p e :
  rec_ok rec → p `prefix_of` encode rec → (length p < length (encode rec))%nat →
  ∃ er n r, ReadRecord (mkStream p e) = (Err er, n, r).
Proof.
  intros Hok Hp Hlt. pose proof (Zlen_encode_body rec) as Hlb.
  pose proof Hok as Hok'. unfold rec_ok in Hok'. rewrite maxBodySize_value in Hok'.
  set (hdr := put_le 4 (ChecksumIEEE (encode_body rec)) ++ put_le 4 (u32 (Zlen (encode_body rec)))).
  assert (Henc : encode rec = hdr ++ encode_body rec) by done.
  assert (Hh : Zlen hdr = 8) by (unfold hdr; by autorewrite with kv).
  rewrite Henc in Hp, Hlt. unfold ReadRecord.
  apply prefix_of_app_inv in Hp as [[Hp Hpl]|(q & -> & Hq)].
  - destruct (ReadFull_short 8 (mkStream p e)) as [er ->]; [unfold Zlen in *; cbn [s_data]; lia|]. eauto.
  - rewrite (ReadFull_app' 8) by done.
    assert (H5 : drop 4 hdr = put_le 4 (u32 (Zlen (encode_body rec)))) by done.
    rewrite H5, get_put_len by lia.
    replace (maxBodySize <? _) with false by (symmetry; rewrite maxBodySize_value; lia).
    rewrite !length_app in Hlt.
    destruct (ReadFull_short (Zlen (encode_body rec)) (mkStream q e)) as [er ->];
      [unfold Zlen in *; cbn [s_data]; lia|]. eauto.
Qed.

(** A whole header whose body is cut short ends the log, whatever the bytes
    after the header are. *)
Lemma ReadRecord_cut rec t x e :
  rec_ok rec → t `prefix_of` encode rec → (8 ≤ length t)%nat →
  (length t + length x < length (encode rec))%nat →
  ∃ er n r, ReadRecord (mkStream (t ++ x) e) = (Err er, n, r).
Proof.
  intros Hok Ht H8 Hlt. pose proof (Zlen_encode_body rec) as Hlb.
  pose proof Hok as Hok'. unfold rec_ok in Hok'. rewrite maxBodySize_value in Hok'.
  set (hdr := put_le 4 (ChecksumIEEE (encode_body rec)) ++ put_le 4 (u32 (Zlen (encode_body rec)))).
  assert (Henc : encode rec = hdr ++ encode_body rec) by done.
  assert (Hh : length hdr = 8%nat) by done.
  rewrite Henc in Ht, Hlt. apply prefix_of_app_inv in Ht as [[_ ?]|(q & -> & Hq)]; [lia|].
  rewrite <-app_assoc. unfold ReadRecord. rewrite (ReadFull_app' 8) by done.
  assert (H5 : drop 4 hdr = put_le 4 (u32 (Zlen (encode_body rec)))) by done.
  rewrite H5, get_put_len by lia.
  replace (maxBodySize <? _) with false by (symmetry; rewrite maxBodySize_value; lia).
  rewrite !length_app in Hlt.
  destruct (ReadFull_short (Zlen (encode_body rec)) (mkStream (q ++ x) e)) as [er ->];
    [unfold Zlen in *; cbn [s_data]; rewrite length_app; lia|]. eauto.
Qed.

(** An oversized frame is refused whatever follows it. *)
Lemma ReadRecord_oversized rec rest e :
  maxBodySize < Zlen (encode_body rec) < 2 ^ 32 →
  ∃ n r, ReadRecord (mkStream (encode rec ++ rest) e) = (Err (BodyTooLarge (Zlen (encode_body rec))), n, r).
Proof.
  intros Hsz. rewrite maxBodySize_value in Hsz.
  set (hdr := put_le 4 (ChecksumIEEE (encode_body rec)) ++ put_le 4 (u32 (Zlen (encode_body rec)))).
  assert (Henc : encode rec = hdr ++ encode_body rec) by done.
  unfold ReadRecord. rewrite Henc, <-app_assoc.
  rewrite (ReadFull_app' 8) by (unfold hdr; by autorewrite with kv).
  assert (H5 : drop 4 hdr = put_le 4 (u32 (Zlen (encode_body rec)))) by done.
  rewrite H5, get_put_len by lia.
  replace (maxBodySize <? _) with true by (symmetry; rewrite maxBodySize_value; lia). eauto.
Qed.

Lemma slice_Zlen b lo hi c : slice b lo hi = Some c → Zlen c = hi - lo ∧ 0 ≤ lo ≤ hi ∧ hi ≤ Zlen b.
Proof.
  unfold slice. destruct (_ && _) eqn:E; [|done]. intros [= <-]. kv_bool.
  unfold Zlen in *. rewrite length_take, length_drop. lia.
Qed.

Lemma slice_range b lo hi : 0 ≤ lo ≤ hi → hi ≤ Zlen b → ∃ c, slice b lo hi = Some c.
Proof. intros. rewrite slice_in_range by done. eauto. Qed.

(** The bounds checks of the decoder cover every slice it takes. *)
Lemma decode_body_not_Panic crc body : decode_body crc body ≠ Panic.
Proof.
  unfold decode_body. destruct (negb _); [done|]. go_red.
  destruct (Zlen body <? 9) eqn:E9; [done|]. kv_bool. go_red.
  destruct (body !! O) as [t|] eqn:E0.
  2: { apply lookup_ge_None in E0. unfold Zlen in *. lia. }
  go_red. destruct (slice_range body 1 5) as [kl Ekl]; [lia|lia|]. rewrite Ekl. go_red.
  pose proof (get_le_range kl) as Hkl.
  destruct (Zlen body <? 5 + get_le kl + 4) eqn:Ek; [done|]. kv_bool. go_red.
  destruct (slice_range body 5 (5 + get_le kl)) as [k ->]; [lia|lia|]. go_red.
  destruct (slice_range body (5 + get_le kl) (5 + get_le kl + 4)) as [vl ->]; [lia|lia|]. go_red.
  pose proof (get_le_range vl) as Hvl.
  destruct (Zlen body <? 5 + get_le kl + 4 + get_le vl) eqn:Ev; [done|]. kv_bool. go_red.
  destruct (slice_range body (5 + get_le kl + 4) (5 + get_le kl + 4 + get_le vl)) as [v ->]; [lia|lia|].
  done.
Qed.

(** A decoded body has at least the nine bytes of its fixed fields. *)
Lemma decode_body_Ret crc body rec : decode_body crc body = Ret rec → 9 ≤ Zlen body.
Proof.
  unfold decode_body. destruct (negb _); [done|]. go_red.
  destruct (Zlen body <? 9) eqn:E9; [done|]. by kv_bool.
Qed.

Lemma ReadRecord_not_Panic r : (ReadRecord r).1.1 ≠ Panic.
Proof.
  unfold ReadRecord. destruct (ReadFull 8 r) as [[h|e|] r1] eqn:E1; try done.
  2: { pose proof (ReadFull_not_Panic 8 r) as H. by rewrite E1 in H. }
  destruct (_ <? _); [done|].
  destruct (ReadFull _ r1) as [[b|e|] r2] eqn:E2; try done.
  - apply decode_body_not_Panic.
  - pose proof (ReadFull_not_Panic (get_le (drop 4 h)) r1) as H. by rewrite E2 in H.
Qed.

(** On success exactly the reported number of bytes left the stream. *)
Lemma ReadRecord_consumes r rec n r' :
  ReadRecord r = (Ret rec, n, r') →
  ∃ c, s_data r = c ++ s_data r' ∧ Zlen c = n ∧ 17 ≤ n ≤ 8 + maxBodySize ∧ s_end r' = s_end r.
Proof.
  unfold ReadRecord. destruct (ReadFull 8 r) as [[h|e|] r1] eqn:E1; try done.
  apply ReadFull_Ret in E1 as (Hh & Hd & He); [|lia].
  destruct (maxBodySize <? _) eqn:Em; [done|]. kv_bool. rewrite maxBodySize_value in *.
  pose proof (get_le_range (drop 4 h)) as Hr.
  destruct (ReadFull _ r1) as [[b|e|] r2] eqn:E2; try done.
  apply ReadFull_Ret in E2 as (Hb & Hd2 & He2); [|lia].
  intros [= Hdec <- <-]. apply decode_body_Ret in Hdec. rewrite u32_id by lia.
  exists (h ++ b). rewrite Hd, Hd2, <-app_assoc, Zlen_app, Hh, Hb, He2, He. split_and!; try done; lia.
Qed.

(** ** Lemmas on replay *)

Lemma replay_loop_total fuel acc r :
  (length (s_data r) < fuel)%nat → ∃ rs, replay_loop fuel acc r = Ret (acc ++ rs).
Proof.
  revert acc r. induction fuel as [|fuel IH]; intros acc r Hf; [lia|].
  cbn [replay_loop]. destruct (ReadRecord r) as [[[rec|e|] n] r1] eqn:E.
  - apply ReadRecord_consumes in E as (c & Hc & Hn & ? & _).
    destruct (IH (acc ++ [rec]) r1) as [rs ->].
    { rewrite Hc, length_app in Hf. unfold Zlen in Hn. lia. }
    exists (rec :: rs). by rewrite <-app_assoc.
  - exists []. by rewrite app_nil_r.
  - pose proof (ReadRecord_not_Panic r) as H. by rewrite E in H.
Qed.

(** More fuel than bytes changes nothing. *)
Lemma replay_loop_fuel f1 f2 acc r :
  (length (s_data r) < f1)%nat → (length (s_data r) < f2)%nat →
  replay_loop f1 acc r = replay_loop f2 acc r.
Proof.
  revert f2 acc r. induction f1 as [|f1 IH]; intros [|f2] acc r H1 H2; try lia.
  cbn [replay_loop]. destruct (ReadRecord r) as [[[rec|e|] n] r1] eqn:E; try done.
  apply ReadRecord_consumes in E as (c & Hc & Hn & ? & _).
  rewrite Hc, length_app in H1, H2. unfold Zlen in Hn. apply IH; lia.
Qed.

Definition replay_from (acc : list WRecord) (data : bytes) : outcome replay_error (list WRecord) :=
  replay_loop (S (length data)) acc (mkStream data EOF).

Lemma replay_from_encode acc rec rest :
  rec_ok rec → replay_from acc (encode rec ++ rest) = replay_from (acc ++ [rec]) rest.
Proof.
  intros Hok. unfold replay_from at 1. cbn [replay_loop]. rewrite ReadRecord_encode by done.
  apply replay_loop_fuel; cbn [s_data]; rewrite ?length_app; [|lia].
  pose proof (Zlen_encode rec) as H. pose proof (Zlen_nonneg (Key rec)).
  pose proof (Zlen_nonneg (Value rec)). unfold Zlen in *. lia.
Qed.

Lemma replay_from_err acc data er n r :
  ReadRecord (mkStream data EOF) = (Err er, n, r) → replay_from acc data = Ret acc.
Proof. intros E. unfold replay_from. cbn [replay_loop]. by rewrite E. Qed.

Lemma replay_from_encodes acc rs rest :
  Forall rec_ok rs → replay_from acc (encodes rs ++ rest) = replay_from (acc ++ rs) rest.
Proof.
  intros Hok. revert acc. induction Hok as [|r rs Hr _ IH]; intros acc; [by rewrite app_nil_r|].
  unfold encodes in *. cbn [fmap list_fmap concat].
  rewrite <-app_assoc, replay_from_encode, IH, <-app_assoc by done. done.
Qed.

Lemma replay_from_nil acc : replay_from acc [] = Ret acc.
Proof. done. Qed.

(** Any prefix of a well-formed log replays to the records it holds whole. *)
Lemma replay_from_prefix acc rs img :
  Forall rec_ok rs → img `prefix_of` encodes rs →
  ∃ k, replay_from acc img = Ret (acc ++ take k rs) ∧
       ∀ m, (m ≤ length rs)%nat → (length (encodes (take m rs)) ≤ length img)%nat → (m ≤ k)%nat.
Proof.
  intros Hok. revert acc img. induction Hok as [|r rs Hr Hrs IH]; intros acc img Himg.
  - apply prefix_nil_inv in Himg as ->. exists O. rewrite app_nil_r. split; [done|simpl; lia].
  - unfold encodes in *. cbn [fmap list_fmap concat] in *.
    apply prefix_of_app_inv in Himg as [[Hp Hl]|(q & -> & Hq)].
    + destruct (ReadRecord_torn r img EOF) as (er & n & s & E); [done..|].
      exists O. rewrite app_nil_r. split; [by eapply replay_from_err|].
      intros [|m] ??; [lia|]. cbn [take fmap list_fmap concat] in *. rewrite length_app in *. lia.
    + destruct (IH (acc ++ [r]) q Hq) as (k & E & Hk).
      exists (S k). rewrite replay_from_encode, E, <-app_assoc by done. split; [done|].
      intros [|m] ? Hm; [lia|]. cbn [take fmap list_fmap concat length] in *.
      rewrite !length_app in Hm. apply le_n_S, Hk; lia.
Qed.

(** ** The invariant of the log object *)

Definition wal_ok (l : WAL) : Prop :=
  writer_wf (w l) ∧ file_wf (file l) ∧ 0 ≤ pendingBytes l ∧
  0 ≤ durableOff l ≤ Zlen (f_content (file l)) ∧
  (wb_err (w l) = false →
   durableOff l + pendingBytes l = Zlen (f_content (file l)) + Zlen (wb_buf (w l))).

Lemma Open_ok f : file_wf f → wal_ok (Open f).
Proof.
  intros Hf. unfold wal_ok, Open, writer_wf. cbn [w file pendingBytes durableOff NewWriter wb_buf wb_err].
  unfold Zlen. cbn [length]. split_and!; done || lia.
Qed.

Lemma prefix_Zlen {A} (l k : list A) : l `prefix_of` k → Zlen l ≤ Zlen k.
Proof. intros H%prefix_length. unfold Zlen. lia. Qed.

Lemma Append_ok rec l : wal_ok l → wal_ok (Append rec l).2.
Proof.
  intros (Hw & Hf & Hp & Hd & He). unfold Append.
  destruct (bufio_Write _ _ _) as [[err w'] f'] eqn:E.
  apply bufio_Write_spec in E as Hs; [|done]. destruct Hs as (Hc & Hsy & Hw' & He' & Hb).
  pose proof (prefix_Zlen _ _ Hc). pose proof (Zlen_nonneg (encode rec)).
  assert (file_wf f') by (unfold file_wf in *; apply prefix_length in Hc; lia).
  destruct err; unfold wal_ok; cbn [snd w file pendingBytes durableOff].
  - rewrite He'. split_and!; try done; lia.
  - split_and!; try done; try lia. intros _.
    destruct (wb_err (w l)) eqn:Ee; [by rewrite bufio_Write_sticky in E|].
    apply (f_equal Zlen) in Hb. rewrite !Zlen_app in Hb. specialize (He eq_refl). lia.
Qed.

(** A successful [Sync] makes everything appended so far durable and moves the
    frontier to the end of the file. *)
Lemma Sync_success l l' :
  wal_ok l → Sync l = (None, l') →
  f_content (file l') = f_content (file l) ++ wb_buf (w l) ∧ wb_buf (w l') = [] ∧
  wb_err (w l') = false ∧ f_synced (file l') = length (f_content (file l')) ∧
  durableOff l' = Zlen (f_content (file l')) ∧ pendingBytes l' = 0 ∧
  notify l' = S (notify l) ∧ wb_err (w l) = false.
Proof.
  intros (Hw & Hf & Hp & Hd & He). unfold Sync.
  destruct (bufio_Flush _ _) as [[err w'] f'] eqn:E.
  apply bufio_Flush_spec in E as Hs; [|done]. destruct Hs as (Hc & Hsy & Hw' & Hb & He' & Hbuf).
  destruct err; [done|]. destruct (file_Sync f') as [err f''] eqn:E2.
  apply file_Sync_spec in E2 as (Hc2 & Hs2). destruct err; [done|]. intros [= <-].
  cbn [w file pendingBytes durableOff notify].
  assert (Ee : wb_err (w l) = false).
  { destruct (wb_err (w l)) eqn:Ee; [|done]. unfold bufio_Flush in E. by rewrite Ee in E. }
  rewrite (Hbuf eq_refl), app_nil_r in Hb. rewrite Hc2, Hb, Hs2, Hb. split_and!; auto.
  rewrite Zlen_app. auto.
Qed.

Lemma Sync_failure l l' e :
  wal_ok l → Sync l = (Some e, l') →
  f_content (file l') ++ wb_buf (w l') = f_content (file l) ++ wb_buf (w l) ∧
  f_content (file l) `prefix_of` f_content (file l') ∧ writer_wf (w l') ∧
  f_synced (file l') = f_synced (file l) ∧ durableOff l' = durableOff l ∧
  pendingBytes l' = pendingBytes l ∧ notify l' = notify l ∧
  (wb_err (w l) = true → wb_err (w l') = true).
Proof.
  intros (Hw & Hf & Hp & Hd & He). unfold Sync.
  destruct (bufio_Flush _ _) as [[err w'] f'] eqn:E.
  apply bufio_Flush_spec in E as Hs; [|done]. destruct Hs as (Hc & Hsy & Hw' & Hb & He' & Hbuf).
  assert (Hst : wb_err (w l) = true → wb_err w' = true).
  { intros Ee. unfold bufio_Flush in E. rewrite Ee in E. by injection E as <- <- <-. }
  destruct err; [by intros [= <- <-]|].
  destruct (file_Sync f') as [err f''] eqn:E2.
  apply file_Sync_spec in E2 as (Hc2 & Hs2). destruct err; [|done]. intros [= <- <-].
  cbn [w file pendingBytes durableOff notify]. rewrite Hc2, Hs2, Hsy. split_and!; auto.
Qed.

Lemma Sync_ok l : wal_ok l → wal_ok (Sync l).2.
Proof.
  intros Hok. destruct (Sync l) as [[e|] l'] eqn:E; cbn [snd].
  - apply Sync_failure in E as (Hb & Hc & Hw' & Hs & Hd & Hp & _ & Hst); [|done].
    destruct Hok as (Hw & Hf & Hp0 & Hd0 & He).
    pose proof (prefix_Zlen _ _ Hc). unfold wal_ok. rewrite Hd, Hp.
    split_and!; try done; try lia.
    + unfold file_wf in *. apply prefix_length in Hc. lia.
    + intros Ee. apply (f_equal Zlen) in Hb. rewrite !Zlen_app in Hb.
      destruct (wb_err (w l)); [by rewrite Hst in Ee|]. specialize (He eq_refl). lia.
  - apply Sync_success in E as (Hc & Hb & Hee & Hs & Hd & Hp & _); [|done].
    unfold wal_ok, writer_wf, file_wf. rewrite Hb, Hs, Hd, Hp. unfold Zlen. cbn [length].
    split_and!; lia.
Qed.

Lemma Close_ok l : wal_ok l → wal_ok (Close l).2.
Proof.
  intros (Hw & Hf & Hp & Hd & He). unfold Close.
  destruct (bufio_Flush _ _) as [[err w'] f'] eqn:E.
  apply bufio_Flush_spec in E as Hs; [|done]. destruct Hs as (Hc & Hsy & Hw' & Hb & He' & Hbuf).
  pose proof (prefix_Zlen _ _ Hc).
  assert (Hf' : file_wf f') by (unfold file_wf in *; apply prefix_length in Hc; lia).
  assert (Hlen : wb_err w' = false → durableOff l + pendingBytes l = Zlen (f_content f') + Zlen (wb_buf w')).
  { intros Ee. apply (f_equal Zlen) in Hb. rewrite !Zlen_app in Hb.
    destruct (wb_err (w l)) eqn:El; [|specialize (He eq_refl); lia].
    unfold bufio_Flush in E. rewrite El in E. injection E as <- <- <-. congruence. }
  destruct err; [unfold wal_ok; cbn [snd w file pendingBytes durableOff]; split_and!; try done; lia|].
  destruct (file_Close f') as [err f''] eqn:E2.
  assert (Hc2 : f_content f'' = f_content f' ∧ f_synced f'' = f_synced f').
  { unfold file_Close in E2. destruct (f_closed f'); [by injection E2 as <- <-|].
    destruct (next_fault f'). by injection E2 as <- <-. }
  destruct Hc2 as [Hc2 Hs2]. unfold wal_ok, file_wf in *. cbn [snd w file pendingBytes durableOff].
  rewrite Hc2, Hs2. split_and!; try done; lia.
Qed.

(** ** The log as a history *)

Lemma encodes_app rs qs : encodes (rs ++ qs) = encodes rs ++ encodes qs.
Proof. unfold encodes. by rewrite fmap_app, concat_app. Qed.

Lemma encodes_snoc rs r : encodes (rs ++ [r]) = encodes rs ++ encode r.
Proof. rewrite encodes_app. unfold encodes at 2. simpl. by rewrite app_nil_r. Qed.

(** What the file and the buffer hold of the attempted records, and how far
    the acknowledged ones are synced. *)
Definition log_inv (base : list WRecord) (st : WAL * list WRecord * nat) : Prop :=
  let '(l, att, ack) := st in
  let all := f_content (file l) ++ wb_buf (w l) in
  wal_ok l ∧ all `prefix_of` encodes (base ++ att) ∧
  (wb_err (w l) = false → all = encodes (base ++ att)) ∧
  (ack ≤ length att)%nat ∧
  (length (encodes (base ++ take ack att)) ≤ f_synced (file l))%nat.

Lemma log_inv_open base f :
  f_content f = encodes base → f_synced f = length (f_content f) →
  log_inv base (Open f, [], O).
Proof.
  intros Hc Hs. unfold log_inv. split; [apply Open_ok; unfold file_wf; lia|].
  cbn [Open file w NewWriter wb_buf wb_err take]. rewrite !app_nil_r, Hs, Hc. split_and!; done.
Qed.

Lemma log_inv_append base l att ack r :
  log_inv base (l, att, ack) → log_inv base ((Append r l).2, att ++ [r], ack).
Proof.
  intros (Hok & Hpre & Heq & Hack & Hsy). split; [by apply Append_ok|].
  rewrite app_assoc, encodes_snoc. rewrite length_app, take_app_le by done.
  destruct Hok as (Hw & _). unfold Append.
  destruct (wb_err (w l)) eqn:Ee.
  - rewrite bufio_Write_sticky by done. cbn [snd file w]. rewrite Ee. split_and!; try done.
    + etrans; [exact Hpre|]. by apply prefix_app_r.
    + cbn. lia.
  - destruct (bufio_Write _ _ _) as [[err w'] f'] eqn:E.
    apply bufio_Write_spec in E as (_ & Hs & _ & He' & Hb); [|done].
    rewrite <-Heq by done. rewrite <-app_assoc.
    destruct err; cbn [snd file w length]; rewrite Hs; split_and!; try done; try lia.
    + by rewrite He'.
    + by rewrite Hb.
Qed.

Lemma log_inv_step base st op : log_inv base st → log_inv base (wstep st op).
Proof.
  destruct st as [[l att] ack]. intros Hinv. destruct op as [r|]; cbn [wstep].
  - by apply log_inv_append.
  - destruct Hinv as (Hok & Hpre & Heq & Hack & Hsy).
    pose proof (Sync_ok l Hok) as Hok'. destruct (Sync l) as [[e|] l'] eqn:E.
    + apply Sync_failure in E as (Hb & _ & _ & Hs & _ & _ & _ & Hst); [|done].
      split; [done|]. rewrite Hb, Hs. split_and!; try done.
      intros Ee. apply Heq. destruct (wb_err (w l)); [by rewrite Hst in Ee|done].
    + apply Sync_success in E as (Hc & Hb & _ & Hs & _ & _ & _ & Ee); [|done].
      split; [done|]. rewrite Hb, app_nil_r, Hs, Hc, (Heq Ee), firstn_all. done.
Qed.

Lemma log_inv_run base ops st : log_inv base st → log_inv base (foldl wstep st ops).
Proof.
  revert st. induction ops as [|op ops IH]; intros st H; [done|]. by apply IH, log_inv_step.
Qed.

Lemma wstep_attempted st op :
  (wstep st op).1.2 = st.1.2 ++ match op with WAppend r => [r] | WSync => [] end.
Proof.
  destruct st as [[l att] ack], op as [r|]; cbn [wstep]; [done|].
  destruct (Sync l) as [[e|] l']; simpl; by rewrite app_nil_r.
Qed.

(** The records a history passes to [Append]. *)
Definition op_recs (ops : list wop) : list WRecord :=
  ops ≫= λ op, match op with WAppend r => [r] | WSync => [] end.

Lemma wrun_attempted ops st : (foldl wstep st ops).1.2 = st.1.2 ++ op_recs ops.
Proof.
  revert st. induction ops as [|op ops IH]; intros st; [by rewrite app_nil_r|].
  cbn [foldl]. rewrite IH, wstep_attempted, <-app_assoc. done.
Qed.

(** Every crash image of a log that satisfies the invariant replays to the
    old records, all acknowledged ones and possibly some later ones. *)
Lemma log_inv_replay base l att ack img :
  log_inv base (l, att, ack) → Forall rec_ok (base ++ att) → crash_image (file l) img →
  ∃ k, replay_from [] img = Ret (base ++ take k att) ∧ (ack ≤ k)%nat.
Proof.
  intros (Hok & Hpre & _ & Hack & Hsy) Hrec [Himg1 Himg2].
  assert (Himg : img `prefix_of` encodes (base ++ att)).
  { etrans; [exact Himg2|]. etrans; [|exact Hpre]. by apply prefix_app_r. }
  destruct (replay_from_prefix [] (base ++ att) img Hrec Himg) as (k & E & Hk).
  destruct Hok as (_ & Hwf & _). unfold file_wf in Hwf.
  assert (Hlen : (length base + ack ≤ k)%nat).
  { apply Hk; [rewrite length_app; lia|].
    rewrite take_app_add.
    apply prefix_length in Himg1. rewrite length_take in Himg1. lia. }
  exists (k - length base)%nat. rewrite E. split; [|lia].
  simpl. by rewrite take_app_ge by lia.
Qed.

(** ** Lemmas on streaming *)

Lemma Append_notify rec l :
  notify (Append rec l).2 = notify l ∧ durableOff (Append rec l).2 = durableOff l.
Proof. unfold Append. by destruct (bufio_Write _ _ _) as [[[] ?] ?]. Qed.

Lemma Append_content rec l : wal_ok l → f_content (file l) `prefix_of` f_content (file (Append rec l).2).
Proof.
  intros (Hw & _). unfold Append. destruct (bufio_Write _ _ _) as [[err ?] ?] eqn:E.
  apply bufio_Write_spec in E as (H & _); [|done]. by destruct err.
Qed.

Lemma Sync_content l : wal_ok l → f_content (file l) `prefix_of` f_content (file (Sync l).2).
Proof.
  intros Hok. destruct (Sync l) as [[e|] l'] eqn:E; cbn [snd].
  - by apply Sync_failure in E as (_ & H & _).
  - apply Sync_success in E as (H & _); [|done]. rewrite H. by apply prefix_app_r.
Qed.

(** The frontier moves only together with the channel, and never back. *)
Lemma Sync_notify l :
  wal_ok l →
  durableOff l ≤ durableOff (Sync l).2 ∧ (notify l ≤ notify (Sync l).2)%nat ∧
  (notify (Sync l).2 = notify l → durableOff (Sync l).2 = durableOff l).
Proof.
  intros Hok. destruct (Sync l) as [[e|] l'] eqn:E; cbn [snd].
  - apply Sync_failure in E as (_ & _ & _ & _ & Hd & _ & Hn & _); [|done]. rewrite Hd, Hn. done.
  - apply Sync_success in E as (Hc & _ & _ & _ & Hd & _ & Hn & _); [|done].
    destruct Hok as (_ & _ & _ & H & _). rewrite Hd, Hn, Hc, Zlen_app.
    pose proof (Zlen_nonneg (wb_buf (w l))). split_and!; lia.
Qed.

Lemma take_drop_prefix {A} (c d : list A) (a n : nat) :
  c `prefix_of` d → (a + n ≤ length c)%nat → take n (drop a d) = take n (drop a c).
Proof.
  intros [s ->] H. rewrite drop_app_le, take_app_le; [done| |lia]. rewrite length_drop. lia.
Qed.

(** The streamer has sent exactly the log's bytes from its start to its
    position, never beyond the frontier; when it waits on the current channel
    there is nothing to send. *)
Definition stream_ok (from : Z) (st : WAL * Streamer) : Prop :=
  let '(l, s) := st in
  wal_ok l ∧ 0 ≤ from ≤ pos s ∧ pos s ≤ Z.max from (durableOff l) ∧
  sent s = take (Z.to_nat (pos s - from)) (drop (Z.to_nat from) (f_content (file l))) ∧
  (match st_phase s with
   | SWait ch => (ch ≤ notify l)%nat ∧ (ch = notify l → durableOff l ≤ pos s)
   | SLoop => True
   | SRet e => e ≠ Some CopyEOF
   end).

Lemma stream_ok_grow from l l' s :
  stream_ok from (l, s) → wal_ok l' → f_content (file l) `prefix_of` f_content (file l') →
  durableOff l ≤ durableOff l' → (notify l ≤ notify l')%nat →
  (notify l' = notify l → durableOff l' = durableOff l) →
  stream_ok from (l', s).
Proof.
  intros (Hok & Hfrom & Hpos & Hsent & Hph) Hok' Hc Hd Hn Hnd.
  destruct Hok as (_ & _ & _ & Hdl & _). unfold Zlen in Hdl.
  split_and!; try done; [lia..| |].
  - rewrite Hsent. destruct (decide (pos s = from)) as [->|]; [by rewrite Z.sub_diag|].
    symmetry. apply take_drop_prefix; [done|]. lia.
  - destruct (st_phase s) as [|ch|]; try done. destruct Hph as [Hch1 Hch2].
    split; [lia|]. intros ->. rewrite Hnd; [apply Hch2|]; lia.
Qed.

Lemma stream_iter_ok from l d s :
  stream_ok from (l, s) → stream_ok from (l, stream_iter l d s).
Proof.
  intros (Hok & Hfrom & Hpos & Hsent & Hph). pose proof Hok as (_ & _ & _ & Hdl & _).
  unfold stream_iter. destruct (pos s <? durableOff l) eqn:Ep; kv_bool.
  2: { split_and!; try done; simpl; lia. }
  set (c := f_content (file l)) in *.
  set (chunk := take (Z.to_nat (durableOff l - pos s)) (drop (Z.to_nat (pos s)) c)).
  assert (Hlen : Zlen chunk = durableOff l - pos s).
  { unfold Zlen in *. subst chunk. rewrite length_take, length_drop. lia. }
  assert (Hext : ∀ n, (n ≤ length chunk)%nat →
    sent s ++ take n chunk = take (Z.to_nat (pos s + Z.of_nat n - from)) (drop (Z.to_nat from) c)).
  { intros n Hn. unfold Zlen in *. rewrite Hsent. subst chunk. rewrite take_take.
    replace (Z.to_nat (pos s + Z.of_nat n - from)) with (Z.to_nat (pos s - from) + n)%nat by lia.
    rewrite <-take_take_drop, drop_drop. f_equal. f_equal; [lia|]. f_equal. lia. }
  assert (Hfull : sent s ++ chunk = take (Z.to_nat (pos s + Zlen chunk - from)) (drop (Z.to_nat from) c)).
  { unfold Zlen. rewrite <-Hext, firstn_all by done. done. }
  assert (Hs : ∀ n e, (n ≤ length chunk)%nat → e ≠ Some CopyEOF →
    stream_ok from (l, mkStreamer (pos s + Z.of_nat n) (sent s ++ take n chunk) (SRet e))).
  { intros n e Hn He. unfold Zlen in *. split_and!; try done; cbn [pos]; try lia. by apply Hext. }
  replace (Zlen chunk <? durableOff l - pos s) with false by (symmetry; lia).
  destruct d as [|n|], chunk as [|b chunk'] eqn:Ech;
    try (apply Hs; [lia|done]);
    (split_and!; try done; cbn [pos sent]; lia).
Qed.

Lemma sys_step_ok from st st' : stream_ok from st → sys_step st st' → stream_ok from st'.
Proof.
  intros Hst Hstep. destruct Hstep as [rec l s|l s|done l s s' Hs].
  - pose proof (Append_notify rec l) as [Hn Hd]. pose proof Hst as (Hok & _).
    apply (stream_ok_grow from l); auto using Append_ok, Append_content; lia.
  - pose proof Hst as (Hok & _). destruct (Sync_notify l Hok) as (Hd & Hn & Hnd).
    apply (stream_ok_grow from l); auto using Sync_ok, Sync_content.
  - destruct Hs as [d s Hp|s ch Hp Hdone|s ch Hp Hc].
    + by apply stream_iter_ok.
    + destruct Hst as (? & ? & ? & ? & _). split_and!; cbn [pos sent st_phase]; done || lia.
    + destruct Hst as (? & ? & ? & ? & _). split_and!; cbn [pos sent st_phase]; done || lia.
Qed.

Lemma stream_ok_reach from f st :
  file_wf f → 0 ≤ from → rtc sys_step (Open f, stream_start from) st → stream_ok from st.
Proof.
  intros Hf Hfrom Hrtc. eapply (rtc_invariant sys_step); [apply sys_step_ok|exact Hrtc|].
  split_and!; try done; [by apply Open_ok|cbn; lia..|]. by rewrite Z.sub_diag.
Qed.

(** ** Properties *)

(** C16: Crash durability of the log. Start from a log of whole records, all of
    them synced, and run any sequence of appends and syncs, with any pattern of
    short writes, write errors and fsync errors; the records, old and new, are
    within the size that replay accepts. Whatever prefix of the unsynced bytes a
    crash leaves on disk, [Replay] returns the old records followed by a
    prefix of the appended ones that contains every record appended before
    the last [Sync] that reported success. *)
Theorem wal_crash_durability base f ops img :
  f_content f = encodes base → f_synced f = length (f_content f) →
  Forall rec_ok base → Forall rec_ok (op_recs ops) →
  crash_image (file (wrun ops (Open f)).1.1) img →
  ∃ k, Replay (Opened (mkStream img EOF)) = Ret (base ++ take k (op_recs ops)) ∧
       ((wrun ops (Open f)).2 ≤ k)%nat.
Proof.
  intros Hc Hs Hb Hops. pose proof (wrun_attempted ops (Open f, [], O)) as Hatt.
  pose proof (log_inv_run base ops _ (log_inv_open base f Hc Hs)) as Hinv.
  unfold wrun. destruct (foldl wstep _ ops) as [[l att] ack]. cbn in Hatt. subst att. intros Himg.
  apply (log_inv_replay base l (op_recs ops) ack img); [done| |done]. by apply Forall_app.
Qed.

(** A log of one record, an acknowledged append, and an append whose bytes
    reach the file without being synced: the crash keeps four of them. *)
Definition ex_rec1 : WRecord := mkRec RecordPut [Byte.x61] [Byte.x31].
Definition ex_rec2 : WRecord := mkRec RecordDelete [Byte.x61] [].
Definition ex_ops : list wop := [WAppend ex_rec2; WSync; WAppend ex_rec1; WSync].
Definition ex_file : File := mkFile (encode ex_rec1) 19 [FOk; FOk; FOk; FFail 0] false.
Definition ex_image : bytes := encode ex_rec1 ++ encode ex_rec2 ++ take 4 (encode ex_rec1).

Lemma wal_crash_durability_witness :
  (wrun ex_ops (Open ex_file)).2 = 1%nat ∧
  ∃ k, Replay (Opened (mkStream ex_image EOF)) = Ret ([ex_rec1] ++ take k (op_recs ex_ops)) ∧
       ((wrun ex_ops (Open ex_file)).2 ≤ k)%nat.
Proof.
  split; [vm_compute; reflexivity|].
  apply (wal_crash_durability [ex_rec1] ex_file ex_ops ex_image).
  - vm_compute. reflexivity.
  - vm_compute. reflexivity.
  - repeat constructor; vm_compute; discriminate.
  - repeat constructor; vm_compute; discriminate.
  - split.
    + exists (take 4 (encode ex_rec1)). vm_compute. reflexivity.
    + exists (drop 4 (encode ex_rec1)). vm_compute. reflexivity.
Defined.

(** Framing round trip. Decoding the frame of a record whose body is at
    most 32 MiB returns the record, reports the frame's length, and leaves
    the reader at the first byte after the frame. *)
Theorem wal_roundtrip rec rest e :
  rec_ok rec →
  ReadRecord (mkStream (encode rec ++ rest) e) = (Ret rec, Zlen (encode rec), mkStream rest e).
Proof. apply ReadRecord_encode. Qed.

Lemma wal_roundtrip_witness :
  ReadRecord (mkStream (encode ex_rec1 ++ [Byte.xff]) EOF) = (Ret ex_rec1, 19, mkStream [Byte.xff] EOF).
Proof. apply (wal_roundtrip ex_rec1 [Byte.xff] EOF). vm_compute. discriminate. Defined.

(** Torn tails. A log of whole frames followed by a strict prefix of
    another frame replays to exactly the whole frames. *)
Theorem wal_torn_tail rs rec t :
  Forall rec_ok rs → rec_ok rec → t `prefix_of` encode rec → (length t < length (encode rec))%nat →
  Replay (Opened (mkStream (encodes rs ++ t) EOF)) = Ret rs.
Proof.
  intros Hrs Hrec Ht Hlt. change (replay_from [] (encodes rs ++ t) = Ret rs).
  rewrite replay_from_encodes by done.
  destruct (ReadRecord_torn rec t EOF) as (er & n & r & E); [done..|]. by eapply replay_from_err.
Qed.

Lemma wal_torn_tail_witness :
  Replay (Opened (mkStream (encodes [ex_rec1; ex_rec2] ++ take 10 (encode ex_rec1)) EOF)) =
  Ret [ex_rec1; ex_rec2].
Proof.
  apply (wal_torn_tail _ ex_rec1).
  - repeat constructor; vm_compute; discriminate.
  - vm_compute. discriminate.
  - exists (drop 10 (encode ex_rec1)). vm_compute. reflexivity.
  - apply Nat.ltb_lt. vm_compute. reflexivity.
Defined.

(** C32: The decoder is total and stays in bounds. On every input, [Replay]
    returns a list of records: no slice expression of [ReadRecord] is out of
    range and the loop ends. *)
Theorem wal_replay_total r : ∃ rs, Replay (Opened r) = Ret rs.
Proof. destruct (replay_loop_total (S (length (s_data r))) [] r) as [rs E]; [lia|]. by exists rs. Qed.

(** Consumption. A successful [ReadRecord] removes exactly the reported
    number of bytes from the stream, between 17 bytes and 32 MiB plus the
    header, so replay makes progress and allocation is bounded. *)
Theorem wal_read_consumes r rec n r' :
  ReadRecord r = (Ret rec, n, r') →
  ∃ c, s_data r = c ++ s_data r' ∧ Zlen c = n ∧ 17 ≤ n ≤ 8 + maxBodySize ∧ s_end r' = s_end r.
Proof. apply ReadRecord_consumes. Qed.

Lemma wal_read_consumes_witness :
  ∃ c, encode ex_rec1 ++ [Byte.x00] = c ++ [Byte.x00] ∧ Zlen c = 19 ∧ 17 ≤ 19 ≤ 8 + maxBodySize ∧ EOF = EOF.
Proof.
  apply (wal_read_consumes (mkStream (encode ex_rec1 ++ [Byte.x00]) EOF) ex_rec1 19 (mkStream [Byte.x00] EOF)).
  vm_compute. reflexivity.
Defined.

(** A record with a value of [n] zero bytes. *)
Definition ex_big (n : nat) : WRecord := mkRec RecordPut [] (repeat Byte.x00 n).

Lemma ex_big_len n : Zlen (encode_body (ex_big n)) = 9 + Z.of_nat n.
Proof. rewrite Zlen_encode_body. unfold ex_big, Zlen. cbn [Key Value length]. rewrite repeat_length. lia. Qed.

(** Oversized records end the log. [Append] accepts a record whose body
    exceeds 32 MiB, but replay refuses its frame and drops everything after
    it, however many acknowledged records follow. *)
Theorem wal_oversized_lost rs rec rest :
  Forall rec_ok rs → maxBodySize < Zlen (encode_body rec) < 2 ^ 32 →
  Replay (Opened (mkStream (encodes rs ++ encode rec ++ rest) EOF)) = Ret rs.
Proof.
  intros Hrs Hrec. change (replay_from [] (encodes rs ++ encode rec ++ rest) = Ret rs).
  rewrite replay_from_encodes by done.
  destruct (ReadRecord_oversized rec rest EOF Hrec) as (n & r & E). by eapply replay_from_err.
Qed.

Lemma wal_oversized_lost_witness :
  Replay (Opened (mkStream (encodes [ex_rec1] ++ encode (ex_big (Z.to_nat maxBodySize)) ++ encode ex_rec2) EOF))
  = Ret [ex_rec1].
Proof.
  apply (wal_oversized_lost [ex_rec1] (ex_big (Z.to_nat maxBodySize)) (encode ex_rec2)).
  - repeat constructor. vm_compute. discriminate.
  - rewrite ex_big_len, Z2Nat.id by (apply Z.leb_le; reflexivity).
    split; apply Z.ltb_lt; reflexivity.
Defined.

(** Streaming safety. In every interleaving of appends, syncs and the
    streaming loop, the bytes handed to the follower are exactly the log file's
    bytes from the requested offset to the streamer's position, they never
    pass the durable frontier, and the copy never meets the end of the file
    early. *)
Theorem wal_stream_safe from f l s :
  file_wf f → 0 ≤ from → rtc sys_step (Open f, stream_start from) (l, s) →
  sent s = take (Z.to_nat (pos s - from)) (drop (Z.to_nat from) (f_content (file l))) ∧
  from ≤ pos s ≤ Z.max from (durableOff l) ∧ durableOff l ≤ Zlen (f_content (file l)) ∧
  st_phase s ≠ SRet (Some CopyEOF).
Proof.
  intros Hf Hfrom Hrtc. pose proof (stream_ok_reach from f (l, s) Hf Hfrom Hrtc) as Hst.
  destruct Hst as ((_ & _ & _ & Hd & _) & Hfr & Hp & Hsent & Hph).
  split_and!; try lia; [done|]. intros E. by rewrite E in Hph.
Qed.

(** An append, a sync and one iteration of a streamer that started at the
    beginning of an empty log. *)
Definition ex_empty : File := mkFile [] 0 [] false.
Definition ex_synced : WAL := (Sync (Append ex_rec1 (Open ex_empty)).2).2.

Lemma ex_stream_run ph :
  stream_step ex_synced false (stream_start 0) ph →
  rtc sys_step (Open ex_empty, stream_start 0) (ex_synced, ph).
Proof.
  intros H. eapply rtc_l; [apply (sys_append ex_rec1)|].
  eapply rtc_l; [apply sys_sync|]. apply rtc_once. by eapply sys_stream.
Qed.

Lemma wal_stream_safe_witness :
  let s := stream_iter ex_synced DstOk (stream_start 0) in
  sent s = take (Z.to_nat (pos s - 0)) (drop (Z.to_nat 0) (f_content (file ex_synced))) ∧
  0 ≤ pos s ≤ Z.max 0 (durableOff ex_synced) ∧
  durableOff ex_synced ≤ Zlen (f_content (file ex_synced)) ∧
  st_phase s ≠ SRet (Some CopyEOF).
Proof.
  intros s. apply (wal_stream_safe 0 ex_empty ex_synced s).
  - apply Nat.le_refl.
  - apply Z.le_refl.
  - apply ex_stream_run. by apply step_iter.
Defined.

(** No lost wake-up. Whenever a streamer is blocked although the durable
    frontier is past its position, the channel it is blocked on is closed, so
    it can run again. *)
Theorem wal_no_lost_wakeup from f l s ch :
  file_wf f → 0 ≤ from → rtc sys_step (Open f, stream_start from) (l, s) →
  st_phase s = SWait ch → pos s < durableOff l →
  chan_closed l ch = true ∧ stream_step l false s (mkStreamer (pos s) (sent s) SLoop).
Proof.
  intros Hf Hfrom Hrtc Hph Hlt. pose proof (stream_ok_reach from f (l, s) Hf Hfrom Hrtc) as Hst.
  destruct Hst as (_ & _ & _ & _ & Hst). rewrite Hph in Hst. destruct Hst as [Hle Heq].
  assert (Hc : chan_closed l ch = true).
  { apply bool_decide_eq_true_2. destruct (decide (ch = notify l)) as [->|]; [|lia].
    specialize (Heq eq_refl). lia. }
  split; [done|]. by eapply step_wake.
Qed.

Lemma wal_no_lost_wakeup_witness :
  chan_closed ex_synced 0 = true ∧
  stream_step ex_synced false (mkStreamer 0 [] (SWait 0)) (mkStreamer 0 [] SLoop).
Proof.
  apply (wal_no_lost_wakeup 0 ex_empty ex_synced (mkStreamer 0 [] (SWait 0)) 0).
  - apply Nat.le_refl.
  - apply Z.le_refl.
  - eapply rtc_l; [apply (sys_stream false); apply (step_iter _ _ DstOk); reflexivity|].
    eapply rtc_l; [apply (sys_append ex_rec1)|]. apply rtc_once. apply sys_sync.
  - reflexivity.
  - vm_compute. reflexivity.
Defined.
