(* ===== verification/Store.v ===== *)
(** * Store: internal/store/store.go

    The durable key-value map: recovery by replaying the log ([Open]), the
    write-ahead operations [Put] and [Delete], the reads, and the same
    operations split at the points where the code releases a lock, for
    concurrent callers. *)
From stdpp Require Import prelude gmap.
From Stdlib Require Import ZArith Lia Strings.Byte.
From S2P Require Import Prelude GoIO Wal.
Local Open Scope Z_scope.

(** ** The interface the network server expects of a store

    [KVStore] is the Go interface of the same name in internal/server; its
    laws say what a caller may rely on: a successful write is the map update,
    a failed one leaves the visible map alone, and a read is a lookup. *)
Class KVStore (S E : Type) := {
  kv_put : bytes → bytes → S → option E * S;
  kv_delete : bytes → S → option E * S;
  kv_get : bytes → S → option bytes;
  kv_len : S → Z
}.

Class KVStoreOk (S E : Type) `{KVStore S E} := {
  kv_abs : S → gmap bytes bytes;
  kv_put_abs k v s :
    kv_abs (kv_put k v s).2 =
    match (kv_put k v s).1 with None => <[k := v]> (kv_abs s) | Some _ => kv_abs s end;
  kv_delete_abs k s :
    kv_abs (kv_delete k s).2 =
    match (kv_delete k s).1 with None => delete k (kv_abs s) | Some _ => kv_abs s end;
  kv_get_abs k s : kv_get k s = kv_abs s !! k;
  kv_len_abs s : kv_len s = Z.of_nat (size (kv_abs s))
}.

(** ** The store *)

Record Store := mkStore {
  data : gmap bytes bytes;
  log : WAL
}.

(** The effect of one replayed record on the map. *)
Definition apply_record (d : gmap bytes bytes) (rec : WRecord) : gmap bytes bytes :=
  if bool_decide (Type_ rec = RecordPut) then <[Key rec := Value rec]> d
  else if bool_decide (Type_ rec = RecordDelete) then delete (Key rec) d
  else d.

Definition rebuild (records : list WRecord) : gmap bytes bytes := foldl apply_record ∅ records.

(** The log file as [Open] finds it: absent or present, whether opening it
    for reading or for appending fails, and how a read past its bytes ends. *)
Record Disk := mkDisk {
  d_file : option File;
  d_open_fails : bool;
  d_append_fails : bool;
  d_end : io_error
}.

Inductive store_error := OpenErr (e : replay_error) | OpenWalErr.

Definition disk_opened (d : Disk) : opened :=
  if d_open_fails d then OpenFailed
  else match d_file d with
       | None => NotExist
       | Some f => Opened (mkStream (f_content f) (d_end d))
       end.

Definition Open (d : Disk) : outcome store_error Store :=
  match Replay (disk_opened d) with
  | Panic => Panic
  | Err e => Err (OpenErr e)
  | Ret records =>
      let data := rebuild records in
      if d_append_fails d then Err OpenWalErr
      else
        let f := default (mkFile [] 0 [] false) (d_file d) in
        Ret (mkStore data (Wal.Open f))
  end.

Definition Put (key value : bytes) (s : Store) : option walop_error * Store :=
  match Append (mkRec RecordPut key value) (log s) with
  | (Some e, l) => (Some e, mkStore (data s) l)
  | (None, l) =>
      match Sync l with
      | (Some e, l) => (Some e, mkStore (data s) l)
      | (None, l) => (None, mkStore (<[key := value]> (data s)) l)
      end
  end.

Definition Delete (key : bytes) (s : Store) : option walop_error * Store :=
  match Append (mkRec RecordDelete key []) (log s) with
  | (Some e, l) => (Some e, mkStore (data s) l)
  | (None, l) =>
      match Sync l with
      | (Some e, l) => (Some e, mkStore (data s) l)
      | (None, l) => (None, mkStore (delete key (data s)) l)
      end
  end.

(** The value and whether it was present. *)
Definition Get (key : bytes) (s : Store) : option bytes := data s !! key.

Definition Len (s : Store) : Z := Z.of_nat (size (data s)).

Definition Close (s : Store) : option walop_error * Store :=
  let '(e, l) := Wal.Close (log s) in (e, mkStore (data s) l).

#[global] Instance Store_KVStore : KVStore Store walop_error := {
  kv_put := Put;
  kv_delete := Delete;
  kv_get := Get;
  kv_len := Len
}.

(** ** Sequential histories *)

Inductive sop := SPut (k v : bytes) | SDelete (k : bytes).

Definition rec_of (op : sop) : WRecord :=
  match op with
  | SPut k v => mkRec RecordPut k v
  | SDelete k => mkRec RecordDelete k []
  end.

Definition sexec (op : sop) (s : Store) : option walop_error * Store :=
  match op with SPut k v => Put k v s | SDelete k => Delete k s end.

(** The store, the number of operations so far and how many had been issued
    when the last one to report success returned. *)
Definition sstep (st : Store * nat * nat) (op : sop) : Store * nat * nat :=
  let '(s, n, acked) := st in
  match sexec op s with
  | (None, s) => (s, S n, S n)
  | (Some _, s) => (s, S n, acked)
  end.

Definition srun (ops : list sop) (s : Store) : Store * nat * nat := foldl sstep (s, O, O) ops.

(** ** Concurrent callers

    [Put] and [Delete] hold the log's mutex during [Append] and again during
    [Sync], and the store's mutex during the map update; between these three
    sections other callers run. *)
Inductive pc := PStart | PAppended | PSynced | PDone | PFailed.

#[global] Instance pc_eq_dec : EqDecision pc.
Proof. solve_decision. Defined.

Record Conc := mkConc {
  c_store : Store;
  c_threads : list (sop * pc)
}.

Definition set_pc (c : Conc) (t : nat) (op : sop) (p : pc) (s : Store) : Conc :=
  mkConc s (<[t := (op, p)]> (c_threads c)).

Inductive cstep (c : Conc) : Conc → Prop :=
| c_append t op e l :
    c_threads c !! t = Some (op, PStart) →
    Append (rec_of op) (log (c_store c)) = (e, l) →
    cstep c (set_pc c t op (match e with Some _ => PFailed | None => PAppended end) (mkStore (data (c_store c)) l))
| c_sync t op e l :
    c_threads c !! t = Some (op, PAppended) →
    Sync (log (c_store c)) = (e, l) →
    cstep c (set_pc c t op (match e with Some _ => PFailed | None => PSynced end) (mkStore (data (c_store c)) l))
| c_update t op :
    c_threads c !! t = Some (op, PSynced) →
    cstep c (set_pc c t op PDone
      (mkStore (apply_record (data (c_store c)) (rec_of op)) (log (c_store c)))).

(** The next step of thread [t], as a function; a schedule is a list of
    thread numbers. *)
Definition cnext (c : Conc) (t : nat) : Conc :=
  match c_threads c !! t with
  | Some (op, PStart) =>
      let '(e, l) := Append (rec_of op) (log (c_store c)) in
      set_pc c t op (match e with Some _ => PFailed | None => PAppended end) (mkStore (data (c_store c)) l)
  | Some (op, PAppended) =>
      let '(e, l) := Sync (log (c_store c)) in
      set_pc c t op (match e with Some _ => PFailed | None => PSynced end) (mkStore (data (c_store c)) l)
  | Some (op, PSynced) =>
      set_pc c t op PDone
        (mkStore (apply_record (data (c_store c)) (rec_of op)) (log (c_store c)))
  | _ => c
  end.

(** ** Lemmas *)

Lemma cnext_rtc c ts : rtc cstep c (foldl cnext c ts).
Proof.
  revert c. induction ts as [|t ts IH]; intros c; [done|]. cbn [foldl].
  transitivity (cnext c t); [|done]. unfold cnext.
  destruct (c_threads c !! t) as [[op []]|] eqn:Ht; try done.
  - destruct (Append _ _) as [e l] eqn:E. apply rtc_once. by eapply c_append.
  - destruct (Sync _) as [e l] eqn:E. apply rtc_once. by eapply c_sync.
  - apply rtc_once. by eapply c_update.
Qed.

Lemma apply_record_rec_of d op :
  apply_record d (rec_of op) =
  match op with SPut k v => <[k := v]> d | SDelete k => delete k d end.
Proof. by destruct op. Qed.

(** Both writes have the same shape. *)
Lemma sexec_unfold op s :
  sexec op s =
  match Append (rec_of op) (log s) with
  | (Some e, l) => (Some e, mkStore (data s) l)
  | (None, l) =>
      match Sync l with
      | (Some e, l) => (Some e, mkStore (data s) l)
      | (None, l) => (None, mkStore (apply_record (data s) (rec_of op)) l)
      end
  end.
Proof. by destruct op. Qed.

Lemma rebuild_app rs qs : rebuild (rs ++ qs) = foldl apply_record (rebuild rs) qs.
Proof. apply foldl_app. Qed.

(** A write moves the log as one append and, if that succeeded, one sync. *)
Lemma sexec_log_inv base op s att acked :
  log_inv base (log s, att, acked) →
  log_inv base (log (sexec op s).2, att ++ [rec_of op],
    match (sexec op s).1 with None => length (att ++ [rec_of op]) | Some _ => acked end).
Proof.
  intros Hinv. rewrite sexec_unfold.
  pose proof (log_inv_append base _ _ _ (rec_of op) Hinv) as H1.
  destruct (Append _ _) as [[e|] l]; [done|]. cbn [snd] in H1.
  pose proof (log_inv_step base _ WSync H1) as H2. cbn [wstep] in H2.
  by destruct (Sync l) as [[e|] l'].
Qed.

Lemma srun_log_inv base ops s att acked :
  log_inv base (log s, att, acked) →
  let '(s', n, acked') := foldl sstep (s, length att, acked) ops in
  log_inv base (log s', att ++ (rec_of <$> ops), acked').
Proof.
  revert s att acked. induction ops as [|op ops IH]; intros s att acked Hinv; [by rewrite app_nil_r|].
  cbn [foldl sstep]. pose proof (sexec_log_inv base op s att acked Hinv) as H.
  destruct (sexec op s) as [[e|] s'] eqn:E; cbn [fst snd] in H; apply IH in H;
    rewrite length_app, Nat.add_1_r in H; rewrite <-app_assoc in H; exact H.
Qed.

Lemma Open_encodes f rs :
  f_content f = encodes rs → Forall rec_ok rs →
  Open (mkDisk (Some f) false false EOF) = Ret (mkStore (rebuild rs) (Wal.Open f)).
Proof.
  intros Hc Hok. unfold Open, disk_opened, Replay. cbn [d_open_fails d_file d_end d_append_fails].
  change (replay_loop _ [] _) with (replay_from [] (f_content f)).
  rewrite Hc, <-(app_nil_r (encodes rs)), replay_from_encodes, replay_from_nil by done. done.
Qed.

Lemma Open_replay f rs :
  replay_from [] (f_content f) = Ret rs →
  Open (mkDisk (Some f) false false EOF) = Ret (mkStore (rebuild rs) (Wal.Open f)).
Proof.
  intros H. unfold Open, disk_opened, Replay. cbn [d_open_fails d_file d_end d_append_fails].
  change (replay_loop _ [] _) with (replay_from [] (f_content f)). by rewrite H.
Qed.

(** On a file whose system calls succeed, so do the writes. *)
Lemma sexec_fault_free op s :
  fault_free (file (log s)) → wb_err (w (log s)) = false →
  let s' := (sexec op s).2 in
  (sexec op s).1 = None ∧ data s' = apply_record (data s) (rec_of op) ∧
  fault_free (file (log s')) ∧ wb_err (w (log s')) = false.
Proof.
  intros Hf He. rewrite sexec_unfold. unfold Append.
  destruct (bufio_Write _ _ _) as [[e1 w1] f1] eqn:E1.
  apply bufio_Write_fault_free in E1 as (-> & He1 & Hf1); [|done..].
  unfold Sync. cbn [w file]. destruct (bufio_Flush w1 f1) as [[e2 w2] f2] eqn:E2.
  apply bufio_Flush_fault_free in E2 as (-> & He2 & Hf2); [|done..].
  destruct (file_Sync f2) as [e3 f3] eqn:E3. apply file_Sync_fault_free in E3 as [-> Hf3]; done.
Qed.

Lemma srun_fault_free ops s n :
  fault_free (file (log s)) → wb_err (w (log s)) = false →
  let '(s', n', acked) := foldl sstep (s, n, n) ops in
  n' = (n + length ops)%nat ∧ acked = n' ∧
  data s' = foldl apply_record (data s) (rec_of <$> ops).
Proof.
  revert s n. induction ops as [|op ops IH]; intros s n Hf He; [cbn; split_and!; done || lia|].
  cbn [foldl sstep]. destruct (sexec_fault_free op s Hf He) as (H1 & H2 & H3 & H4).
  destruct (sexec op s) as [r s'] eqn:E. cbn [fst snd] in *. subst r.
  specialize (IH s' (S n) H3 H4). destruct (foldl sstep _ ops) as [[s'' n''] a''].
  destruct IH as (-> & -> & ->). rewrite H2. split_and!; try done. cbn [length]. lia.
Qed.

(** A write on a file that does not fail appends exactly its frame, synced. *)
Lemma sexec_content op s :
  wal_ok (log s) → fault_free (file (log s)) → wb_err (w (log s)) = false →
  let l' := log (sexec op s).2 in
  f_content (file l') ++ wb_buf (w l') = (f_content (file (log s)) ++ wb_buf (w (log s))) ++ encode (rec_of op) ∧
  wb_buf (w l') = [] ∧ f_synced (file l') = length (f_content (file l')) ∧ wal_ok l'.
Proof.
  intros Hok Hf He. pose proof (sexec_fault_free op s Hf He) as (H1 & _).
  rewrite sexec_unfold in H1 |- *. pose proof (Append_ok (rec_of op) (log s) Hok) as Hok1.
  destruct (Append _ _) as [[e|] l] eqn:E1; [done|]. cbn [snd] in Hok1.
  pose proof (Sync_ok l Hok1) as Hok2. destruct (Sync l) as [[e|] l2] eqn:E2; [done|].
  cbn [snd log] in *. apply Sync_success in E2 as (Hc & Hb & _ & Hs & _); [|done].
  rewrite Hb, Hc, app_nil_r. split_and!; try done; [|by rewrite <-Hc].
  unfold Append in E1. destruct (bufio_Write _ _ _) as [[err w1] f1] eqn:Ew.
  destruct Hok as (Hw & _). apply bufio_Write_spec in Ew as (_ & _ & _ & _ & Hx); [|done].
  destruct err; [done|]. injection E1 as <-. cbn [file w]. by rewrite Hx, <-app_assoc.
Qed.

Lemma srun_content ops s n a :
  wal_ok (log s) → fault_free (file (log s)) → wb_err (w (log s)) = false →
  let l' := log (foldl sstep (s, n, a) ops).1.1 in
  f_content (file l') ++ wb_buf (w l') =
  (f_content (file (log s)) ++ wb_buf (w (log s))) ++ encodes (rec_of <$> ops) ∧
  (ops ≠ [] → wb_buf (w l') = [] ∧ f_synced (file l') = length (f_content (file l'))).
Proof.
  revert s n a. induction ops as [|op ops IH]; intros s n a Hok Hf He.
  { cbn. by rewrite app_nil_r. }
  cbn [foldl sstep]. destruct (sexec_fault_free op s Hf He) as (H1 & _ & H3 & H4).
  destruct (sexec_content op s Hok Hf He) as (H5 & H6 & H7 & H8).
  destruct (sexec op s) as [r s'] eqn:E. cbn [fst snd] in *. subst r.
  destruct (IH s' (S n) (S n) H8 H3 H4) as [H9 H10]. split.
  - rewrite H9, H5, <-!app_assoc. unfold encodes. cbn [fmap list_fmap concat]. done.
  - intros _. destruct ops; [done|]. by apply H10.
Qed.

(** ** The effect of a history on one key *)

Definition key_effect (k : bytes) (o : option bytes) (rec : WRecord) : option bytes :=
  if bool_decide (Key rec = k) then
    if bool_decide (Type_ rec = RecordPut) then Some (Value rec)
    else if bool_decide (Type_ rec = RecordDelete) then None
    else o
  else o.

Lemma apply_record_lookup d rec k : apply_record d rec !! k = key_effect k (d !! k) rec.
Proof.
  unfold apply_record, key_effect. repeat case_bool_decide; subst; try done.
  - apply lookup_insert_eq.
  - by rewrite lookup_insert_ne.
  - apply lookup_delete_eq.
  - by rewrite lookup_delete_ne.
Qed.

Lemma foldl_apply_lookup d rs k :
  foldl apply_record d rs !! k = foldl (key_effect k) (d !! k) rs.
Proof.
  revert d. induction rs as [|r rs IH]; intros d; [done|].
  cbn [foldl]. by rewrite IH, apply_record_lookup.
Qed.

Lemma key_effect_filter k o rs :
  foldl (key_effect k) o rs = foldl (key_effect k) o (filter (λ r, Key r = k) rs).
Proof.
  revert o. induction rs as [|r rs IH]; intros o; [done|]. rewrite filter_cons. cbn [foldl].
  destruct (decide (Key r = k)) as [E|E]; cbn [foldl]; rewrite IH; [done|].
  f_equal. unfold key_effect. by rewrite bool_decide_eq_false_2.
Qed.

(** Two orders of the same writes agree on a key written at most once. *)
Lemma rebuild_perm_lookup d rs qs k :
  rs ≡ₚ qs → (length (filter (λ r, Key r = k) rs) ≤ 1)%nat →
  foldl apply_record d rs !! k = foldl apply_record d qs !! k.
Proof.
  intros Hp Hl. rewrite !foldl_apply_lookup, (key_effect_filter k _ rs), (key_effect_filter k _ qs).
  assert (H : filter (λ r, Key r = k) rs ≡ₚ filter (λ r, Key r = k) qs) by by rewrite Hp.
  destruct (filter _ rs) as [|r [|r' l]] eqn:E; simpl in Hl; [| |lia].
  - apply Permutation_nil_l in H. by rewrite <-H.
  - apply Permutation_length_1_inv in H. by rewrite H.
Qed.

(** ** The invariant of concurrent runs *)

Definition started (p : pc) : bool := match p with PStart => false | _ => true end.
Definition pending_pc (p : pc) : bool := match p with PAppended | PFailed => true | _ => false end.
Definition acked_pc (p : pc) : bool := match p with PSynced | PDone => true | _ => false end.

(** The records of the threads whose program counter satisfies [P]. *)
Definition recs_at (P : pc → bool) (ts : list (sop * pc)) : list WRecord :=
  (λ t : sop * pc, rec_of t.1) <$> filter (λ t : sop * pc, P t.2 = true) ts.

Definition conc_inv (base : list WRecord) (c : Conc) : Prop :=
  ∃ (att : list WRecord) (acked : nat) (upd : list WRecord),
    log_inv base (log (c_store c), att, acked) ∧
    data (c_store c) = foldl apply_record (rebuild base) upd ∧
    att ≡ₚ recs_at started (c_threads c) ∧
    upd ≡ₚ recs_at (λ p, bool_decide (p = PDone)) (c_threads c) ∧
    (length att ≤ acked + length (recs_at pending_pc (c_threads c)))%nat ∧
    (∀ (t : nat) op p, c_threads c !! t = Some (op, p) → acked_pc p = true → rec_of op ∈ take acked att).

(** Moving one thread changes [recs_at] by at most its record. *)
Lemma recs_at_insert (P : pc → bool) (ts : list (sop * pc)) (t : nat) op p q :
  ts !! t = Some (op, p) →
  (if P p then [rec_of op] else []) ++ recs_at P (<[t := (op, q)]> ts) ≡ₚ
  (if P q then [rec_of op] else []) ++ recs_at P ts.
Proof.
  intros Ht. unfold recs_at. pose proof Ht as Hlt. apply lookup_lt_Some in Hlt.
  pose proof (take_drop_middle ts t (op, p) Ht) as H1.
  pose proof (insert_take_drop ts t (op, q) Hlt) as H2.
  revert H1 H2. generalize (take t ts) (drop (S t) ts). intros a b <- ->.
  rewrite !filter_app, !filter_cons, !fmap_app. cbn [snd].
  destruct (P p) eqn:Ep, (P q) eqn:Eq; rewrite ?decide_True, ?decide_False by (done || congruence);
    cbn [app fmap list_fmap fst]; try done.
  - by rewrite Permutation_middle.
  - by rewrite <-Permutation_middle.
Qed.

(** The two uses of [recs_at_insert]: the thread enters the set, or its
    membership does not change. *)
Lemma recs_at_enter (P : pc → bool) (ts : list (sop * pc)) (t : nat) op p q :
  ts !! t = Some (op, p) → P p = false → P q = true →
  recs_at P (<[t := (op, q)]> ts) ≡ₚ rec_of op :: recs_at P ts.
Proof. intros Ht Hp Hq. pose proof (recs_at_insert P ts t op p q Ht) as H. by rewrite Hp, Hq in H. Qed.

Lemma recs_at_stay (P : pc → bool) (ts : list (sop * pc)) (t : nat) op p q :
  ts !! t = Some (op, p) → P p = P q →
  recs_at P (<[t := (op, q)]> ts) ≡ₚ recs_at P ts.
Proof.
  intros Ht Hpq. pose proof (recs_at_insert P ts t op p q Ht) as H. rewrite Hpq in H.
  by apply Permutation_app_inv_l in H.
Qed.

Lemma recs_at_elem (P : pc → bool) (ts : list (sop * pc)) (t : nat) op p :
  ts !! t = Some (op, p) → P p = true → rec_of op ∈ recs_at P ts.
Proof.
  intros Ht Hp. unfold recs_at. apply list_elem_of_fmap. exists (op, p). split; [done|].
  apply list_elem_of_filter. split; [done|]. by eapply list_elem_of_lookup_2.
Qed.

Lemma lookup_set_pc (ts : list (sop * pc)) (t u : nat) x y :
  <[t := x]> ts !! u = Some y → (u = t ∧ y = x) ∨ ts !! u = Some y.
Proof.
  destruct (decide (t = u)) as [->|Hne].
  - intros H. pose proof H as Hlt. apply lookup_lt_Some in Hlt. rewrite length_insert in Hlt.
    rewrite list_lookup_insert_eq in H by done. injection H as <-. by left.
  - rewrite list_lookup_insert_ne by done. by right.
Qed.

Lemma cstep_inv base c c' : conc_inv base c → cstep c c' → conc_inv base c'.
Proof.
  intros (att & acked & upd & Hlog & Hdata & Hatt & Hupd & Hpend & Hack) Hstep.
  destruct Hstep as [t op e l Ht E|t op e l Ht E|t op Ht]; unfold set_pc.
  - exists (att ++ [rec_of op]), acked, upd. cbn [c_store c_threads log data].
    pose proof (log_inv_append base _ _ _ (rec_of op) Hlog) as Hlog'. rewrite E in Hlog'.
    destruct Hlog as (_ & _ & _ & Hle & _). split_and!; try done.
    + rewrite Hatt, (recs_at_enter started _ _ _ _ _ Ht) by by destruct e.
      by rewrite Permutation_app_comm.
    + by rewrite Hupd, (recs_at_stay _ _ _ _ _ _ Ht) by by destruct e.
    + rewrite (recs_at_enter pending_pc _ _ _ _ _ Ht) by by destruct e.
      rewrite length_app. cbn [length]. lia.
    + intros u o p Hu Hp. rewrite take_app_le by done.
      apply lookup_set_pc in Hu as [[-> [= -> ->]]|Hu]; [by destruct e|by eapply Hack].
  - pose proof (log_inv_step base _ WSync Hlog) as Hlog'. cbn [wstep] in Hlog'. rewrite E in Hlog'.
    exists att, (match e with None => length att | Some _ => acked end), upd.
    cbn [c_store c_threads log data]. split_and!; try done.
    + by destruct e.
    + by rewrite Hatt, (recs_at_stay _ _ _ _ _ _ Ht) by by destruct e.
    + by rewrite Hupd, (recs_at_stay _ _ _ _ _ _ Ht) by by destruct e.
    + destruct e; [|lia]. by rewrite (recs_at_stay pending_pc _ _ _ _ _ Ht).
    + intros u o p Hu Hp. apply lookup_set_pc in Hu as [[-> [= -> ->]]|Hu].
      * destruct e; [done|]. rewrite firstn_all, Hatt. by eapply recs_at_elem.
      * specialize (Hack u o p Hu Hp). destruct e; [done|]. rewrite firstn_all.
        rewrite <-(take_drop acked att). apply elem_of_app. by left.
  - exists att, acked, (upd ++ [rec_of op]). cbn [c_store c_threads log data]. split_and!; try done.
    + by rewrite foldl_app, <-Hdata.
    + by rewrite Hatt, (recs_at_stay _ _ _ _ _ _ Ht).
    + rewrite Hupd, (recs_at_enter _ _ _ _ _ _ Ht) by done. by rewrite Permutation_app_comm.
    + by rewrite (recs_at_stay pending_pc _ _ _ _ _ Ht).
    + intros u o p Hu Hp. apply lookup_set_pc in Hu as [[-> [= -> ->]]|Hu]; by eapply Hack.
Qed.

(** Callers that have not started yet, over a recovered store. *)
Definition conc_init (base : list WRecord) (f : File) (ops : list sop) : Conc :=
  mkConc (mkStore (rebuild base) (Wal.Open f)) ((λ op, (op, PStart)) <$> ops).

Lemma recs_at_init (P : pc → bool) (ops : list sop) :
  P PStart = false → recs_at P ((λ op, (op, PStart)) <$> ops) = [].
Proof.
  intros HP. unfold recs_at. induction ops as [|op ops IH]; [done|].
  cbn [fmap list_fmap]. rewrite filter_cons_False; [done|]. cbn. congruence.
Qed.

Lemma conc_inv_reach base f ops c :
  f_content f = encodes base → f_synced f = length (f_content f) →
  rtc cstep (conc_init base f ops) c → conc_inv base c.
Proof.
  intros Hc Hs Hrtc. eapply (rtc_invariant cstep); [apply cstep_inv|exact Hrtc|].
  exists [], O, []. unfold conc_init. cbn [c_store c_threads log data].
  rewrite !recs_at_init by done. split_and!; try done; [by apply log_inv_open|].
  intros t op p Ht Hp. rewrite list_lookup_fmap in Ht.
  destruct (ops !! t); simpl in Ht; [|done]. by injection Ht as <- <-.
Qed.

(** The threads and their operations never change, only the counters do. *)
Lemma cstep_threads c c' : cstep c c' → (c_threads c').*1 = (c_threads c).*1.
Proof.
  assert (H : ∀ (t : nat) op p q, c_threads c !! t = Some (op, p) →
    (<[t := (op, q)]> (c_threads c)).*1 = (c_threads c).*1).
  { intros t op p q Ht. rewrite list_fmap_insert. apply list_insert_id.
    by rewrite list_lookup_fmap, Ht. }
  intros [t op e l Ht E|t op e l Ht E|t op Ht]; by eapply H.
Qed.

Lemma rtc_cstep_threads c c' : rtc cstep c c' → (c_threads c').*1 = (c_threads c).*1.
Proof.
  induction 1 as [|x y z Hxy _ IH]; [done|]. rewrite IH. by apply cstep_threads.
Qed.

Lemma recs_at_all (P : pc → bool) (ts : list (sop * pc)) :
  Forall (λ t, P t.2 = true) ts → recs_at P ts = rec_of <$> ts.*1.
Proof.
  unfold recs_at. induction 1 as [|t ts Ht _ IH]; [done|].
  rewrite filter_cons_True by done. cbn [fmap list_fmap]. by f_equal.
Qed.

Lemma recs_at_none (P : pc → bool) (ts : list (sop * pc)) :
  Forall (λ t, P t.2 = false) ts → recs_at P ts = [].
Proof.
  unfold recs_at. induction 1 as [|t ts Ht _ IH]; [done|]. rewrite filter_cons_False; [done|congruence].
Qed.

Lemma recs_at_subset (P : pc → bool) (ts : list (sop * pc)) r :
  r ∈ recs_at P ts → r ∈ rec_of <$> ts.*1.
Proof.
  unfold recs_at. intros (x & -> & Hx)%list_elem_of_fmap. apply list_elem_of_filter in Hx as [_ Hx].
  apply list_elem_of_fmap. exists x.1. split; [done|]. apply list_elem_of_fmap. eauto.
Qed.

(** Once every caller has returned, the file holds every record. *)
Lemma conc_inv_quiescent base c :
  conc_inv base c → Forall (λ t, t.2 = PDone) (c_threads c) →
  ∃ att upd,
    f_content (file (log (c_store c))) = encodes (base ++ att) ∧
    data (c_store c) = foldl apply_record (rebuild base) upd ∧
    att ≡ₚ rec_of <$> (c_threads c).*1 ∧ upd ≡ₚ rec_of <$> (c_threads c).*1.
Proof.
  intros (att & acked & upd & Hlog & Hdata & Hatt & Hupd & Hpend & _) Hdone.
  exists att, upd. rewrite recs_at_none in Hpend.
  2: { eapply Forall_impl; [exact Hdone|]. by intros [o p] ->. }
  rewrite recs_at_all in Hatt by (eapply Forall_impl; [exact Hdone|]; by intros [o p] ->).
  rewrite recs_at_all in Hupd by (eapply Forall_impl; [exact Hdone|]; by intros [o p] ->).
  split_and!; try done.
  destruct Hlog as (Hok & Hpre & _ & Hle & Hsy).
  cbn [length] in Hpend. rewrite firstn_all2 in Hsy by lia.
  destruct Hok as (_ & Hwf & _). unfold file_wf in Hwf. destruct Hpre as [z Hz].
  pose proof (f_equal length Hz) as Hlen. rewrite !length_app in Hlen.
  destruct (wb_buf _), z; simpl in Hlen; try lia. by rewrite !app_nil_r in Hz.
Qed.

(** Whatever a crash leaves of the log replays to a prefix of the history. *)
Lemma srun_recover base f ops img :
  f_content f = encodes base → f_synced f = length (f_content f) →
  Forall rec_ok base → Forall rec_ok (rec_of <$> ops) →
  let r := srun ops (mkStore (rebuild base) (Wal.Open f)) in
  crash_image (file (log r.1.1)) img →
  ∃ k s', (r.2 ≤ k)%nat ∧
    Open (mkDisk (Some (mkFile img (length img) [] false)) false false EOF) = Ret s' ∧
    data s' = rebuild (base ++ take k (rec_of <$> ops)).
Proof.
  intros Hc Hs Hb Hops r Himg.
  pose proof (srun_log_inv base ops _ [] O (log_inv_open base f Hc Hs : log_inv base (log (mkStore (rebuild base) _), _, _))) as Hinv.
  subst r. unfold srun in *. cbn [length] in Hinv. destruct (foldl sstep _ ops) as [[s' n] acked].
  destruct (log_inv_replay base _ _ _ img Hinv) as (k & E & Hk); [by apply Forall_app|done|].
  exists k. eexists. split; [done|]. split; [apply Open_replay; exact E|]. done.
Qed.

#[global] Instance Store_KVStoreOk : KVStoreOk Store walop_error.
Proof.
  refine {| kv_abs := data |}.
  - intros k v s. unfold kv_put, Store_KVStore, Put.
    destruct (Append _ _) as [[e|] l]; [done|]. by destruct (Sync l) as [[e|] l'].
  - intros k s. unfold kv_delete, Store_KVStore, Delete.
    destruct (Append _ _) as [[e|] l]; [done|]. by destruct (Sync l) as [[e|] l'].
  - done.
  - done.
Defined.

(** ** Properties *)

(** C1: Crash recovery. Open a store on a log of whole records, all of them
    synced, and run any sequence of puts and deletes on it, with any failures of
    the underlying file; the records, old and new, are within the size that
    replay accepts. Whatever a crash leaves of the unsynced bytes, reopening
    succeeds and yields the map obtained by replaying the old records and a
    prefix of the operations that contains every operation issued up to the
    last one that reported success. *)
Theorem store_crash_recovery base f ops s img :
  f_content f = encodes base → f_synced f = length (f_content f) →
  Forall rec_ok base → Forall rec_ok (rec_of <$> ops) →
  Open (mkDisk (Some f) false false EOF) = Ret s →
  crash_image (file (log (srun ops s).1.1)) img →
  ∃ k s', ((srun ops s).2 ≤ k)%nat ∧
    Open (mkDisk (Some (mkFile img (length img) [] false)) false false EOF) = Ret s' ∧
    data s' = rebuild (base ++ take k (rec_of <$> ops)).
Proof.
  intros Hc Hs Hb Hops HO Himg. rewrite (Open_encodes f base Hc Hb) in HO. injection HO as <-.
  by apply (srun_recover base f ops img).
Qed.

Definition ex_ops : list sop := [SPut [Byte.x6b] [Byte.x31]; SPut [Byte.x6b] [Byte.x32]].
(** The first put is synced; the second one's write reaches the file but its
    fsync fails. *)
Definition ex_file : File := mkFile [] 0 [FOk; FOk; FOk; FFail 0] false.
Definition ex_store : Store := mkStore ∅ (Wal.Open ex_file).
Definition ex_img : bytes := take 30 (encodes (rec_of <$> ex_ops)).

Lemma store_crash_recovery_witness :
  (srun ex_ops ex_store).2 = 1%nat ∧
  ∃ k s', ((srun ex_ops ex_store).2 ≤ k)%nat ∧
    Open (mkDisk (Some (mkFile ex_img (length ex_img) [] false)) false false EOF) = Ret s' ∧
    data s' = rebuild ([] ++ take k (rec_of <$> ex_ops)).
Proof.
  split; [vm_compute; reflexivity|].
  apply (store_crash_recovery [] ex_file ex_ops ex_store ex_img).
  - reflexivity.
  - reflexivity.
  - constructor.
  - repeat constructor; vm_compute; discriminate.
  - reflexivity.
  - split.
    + exists (drop 19 ex_img). vm_compute. reflexivity.
    + exists (drop 30 (encodes (rec_of <$> ex_ops))). vm_compute. reflexivity.
Defined.

(** Restart is the identity. When the file does not fail, every operation
    reports success, the map is the result of the operations in order, and
    opening the file again yields exactly that map. *)
Theorem store_restart base f ops :
  f_content f = encodes base → f_synced f = length (f_content f) → fault_free f →
  Forall rec_ok base → Forall rec_ok (rec_of <$> ops) →
  let s := (srun ops (mkStore (rebuild base) (Wal.Open f))).1.1 in
  (srun ops (mkStore (rebuild base) (Wal.Open f))).2 = length ops ∧
  data s = foldl apply_record (rebuild base) (rec_of <$> ops) ∧
  ∃ s', Open (mkDisk (Some (file (log s))) false false EOF) = Ret s' ∧ data s' = data s.
Proof.
  intros Hc Hs Hf Hb Hops.
  pose proof (srun_log_inv base ops _ [] O (log_inv_open base f Hc Hs : log_inv base (log (mkStore (rebuild base) _), _, _))) as Hinv.
  pose proof (srun_fault_free ops (mkStore (rebuild base) (Wal.Open f)) O Hf eq_refl) as Hrun.
  unfold srun. cbn [length] in Hinv. destruct (foldl sstep _ ops) as [[s n] acked].
  destruct Hrun as (Hn & Hack & Hd). cbn [fst snd]. split; [lia|]. split; [done|].
  destruct (log_inv_replay base _ _ _ (f_content (file (log s))) Hinv) as (k & E & Hk).
  - by apply Forall_app.
  - split; [|done]. exists (drop (f_synced (file (log s))) (f_content (file (log s)))). by rewrite take_drop.
  - eexists. split; [apply Open_replay; exact E|]. cbn [data].
    rewrite firstn_all2 by (rewrite length_app, length_fmap; simpl; lia).
    by rewrite rebuild_app, Hd.
Qed.

Lemma store_restart_witness :
  let f := mkFile [] 0 [] false in
  let s := (srun ex_ops (mkStore (rebuild []) (Wal.Open f))).1.1 in
  (srun ex_ops (mkStore (rebuild []) (Wal.Open f))).2 = length ex_ops ∧
  data s = foldl apply_record (rebuild []) (rec_of <$> ex_ops) ∧
  ∃ s', Open (mkDisk (Some (file (log s))) false false EOF) = Ret s' ∧ data s' = data s.
Proof.
  apply (store_restart [] (mkFile [] 0 [] false) ex_ops).
  - reflexivity.
  - reflexivity.
  - split; reflexivity.
  - constructor.
  - repeat constructor; vm_compute; discriminate.
Defined.

(** Appending after a torn tail loses acknowledged writes. [Open] keeps a
    torn tail in the file and appends behind it. If the tail holds a whole
    header, then every write acknowledged afterwards is dropped by the next
    recovery, as long as the new bytes do not fill the torn record's frame. *)
Theorem store_torn_reopen base rec t ops s :
  Forall rec_ok base → rec_ok rec → t `prefix_of` encode rec → (8 ≤ length t)%nat →
  (length t + length (encodes (rec_of <$> ops)) < length (encode rec))%nat →
  let img := encodes base ++ t in
  Open (mkDisk (Some (mkFile img (length img) [] false)) false false EOF) = Ret s →
  let s1 := (srun ops s).1.1 in
  data s = rebuild base ∧ (srun ops s).2 = length ops ∧
  f_synced (file (log s1)) = length (f_content (file (log s1))) ∧
  ∃ s2, Open (mkDisk (Some (file (log s1))) false false EOF) = Ret s2 ∧ data s2 = rebuild base.
Proof.
  intros Hb Hr Ht H8 Hlt img HO s1.
  assert (Hcut : ∀ x, (length x ≤ length (encodes (rec_of <$> ops)))%nat →
    replay_from [] (img ++ x) = Ret base).
  { intros x Hx. unfold img. rewrite <-app_assoc, replay_from_encodes by done.
    destruct (ReadRecord_cut rec t x EOF) as (er & n & r & E); [done|done|done|lia|].
    by eapply replay_from_err. }
  assert (Himg : replay_from [] img = Ret base) by (rewrite <-(app_nil_r img); apply Hcut; simpl; lia).
  pose proof (Open_replay (mkFile img (length img) [] false) base Himg) as HO2.
  rewrite HO in HO2. injection HO2 as ->. set (s := mkStore _ _) in *.
  assert (Hok : wal_ok (log s)) by (apply Open_ok; unfold file_wf; done).
  assert (Hf : fault_free (file (log s))) by done.
  pose proof (srun_fault_free ops s O Hf eq_refl) as Hrun.
  pose proof (srun_content ops s O O Hok Hf eq_refl) as [Hc Hsy].
  fold (srun ops s) in Hrun, Hc, Hsy. fold s1 in Hc, Hsy.
  destruct (srun ops s) as [[s1' n] acked] eqn:Erun. cbn [fst snd] in *. subst s1.
  destruct Hrun as (Hn & Hack & _). cbn [log s Wal.Open file w NewWriter wb_buf f_content] in Hc.
  split; [done|]. split; [lia|].
  destruct ops as [|op ops].
  { cbn in Erun. injection Erun as <- <- <-. split; [done|].
    eexists. split; [by apply Open_replay|done]. }
  destruct (Hsy ltac:(done)) as [Hbuf Hs]. split; [done|].
  rewrite Hbuf, !app_nil_r in Hc.
  eexists. split; [apply Open_replay; rewrite Hc; by apply Hcut|done].
Qed.

(** A crash cuts a put of a 40-byte value after 20 bytes; the store recovers,
    acknowledges a put, and the next recovery has forgotten it. *)
Definition ex_cut : WRecord := mkRec RecordPut [Byte.x61] (repeat Byte.x00 40).
Definition ex_cut_img : bytes := encodes [] ++ take 20 (encode ex_cut).
Definition ex_cut_store : Store := mkStore ∅ (Wal.Open (mkFile ex_cut_img 20 [] false)).

Lemma store_torn_reopen_witness :
  let s1 := (srun [SPut [Byte.x6b] [Byte.x31]] ex_cut_store).1.1 in
  Get [Byte.x6b] s1 = Some [Byte.x31] ∧
  data ex_cut_store = rebuild [] ∧ (srun [SPut [Byte.x6b] [Byte.x31]] ex_cut_store).2 = 1%nat ∧
  f_synced (file (log s1)) = length (f_content (file (log s1))) ∧
  ∃ s2, Open (mkDisk (Some (file (log s1))) false false EOF) = Ret s2 ∧ data s2 = rebuild [].
Proof.
  intros s1. split; [vm_compute; reflexivity|].
  apply (store_torn_reopen [] ex_cut (take 20 (encode ex_cut)) [SPut [Byte.x6b] [Byte.x31]] ex_cut_store).
  - constructor.
  - vm_compute. discriminate.
  - exists (drop 20 (encode ex_cut)). vm_compute. reflexivity.
  - apply Nat.leb_le. vm_compute. reflexivity.
  - apply Nat.ltb_lt. vm_compute. reflexivity.
  - vm_compute. reflexivity.
Defined.

(** C22: Concurrent durability. Open a store on a log of whole records, all of
    them synced, and let any number of callers put and delete concurrently; the
    records, old and new, are within the size that replay accepts. In every
    interleaving, with any failures of the file, and for every crash image,
    recovery succeeds, the recovered map replays the old records and some of the
    issued operations, and the operations of all callers that got past their
    [Sync] are among them. *)
Theorem store_conc_durability base f ops c img :
  f_content f = encodes base → f_synced f = length (f_content f) →
  Forall rec_ok base → Forall rec_ok (rec_of <$> ops) →
  rtc cstep (conc_init base f ops) c → crash_image (file (log (c_store c))) img →
  ∃ rs s', Open (mkDisk (Some (mkFile img (length img) [] false)) false false EOF) = Ret s' ∧
    data s' = rebuild (base ++ rs) ∧ rs ⊆ rec_of <$> ops ∧
    ∀ (t : nat) op p, c_threads c !! t = Some (op, p) → acked_pc p = true → rec_of op ∈ rs.
Proof.
  intros Hc Hs Hb Hops Hrtc Himg.
  assert (Hth : (c_threads c).*1 = ops).
  { rewrite (rtc_cstep_threads _ _ Hrtc). cbn. rewrite <-list_fmap_compose. apply list_fmap_id. }
  destruct (conc_inv_reach base f ops c Hc Hs Hrtc) as (att & acked & upd & Hlog & _ & Hatt & _ & _ & Hack).
  assert (Hsub : ∀ r, r ∈ att → r ∈ rec_of <$> ops).
  { intros r Hr. rewrite Hatt in Hr. apply recs_at_subset in Hr. by rewrite Hth in Hr. }
  destruct (log_inv_replay base _ att acked img Hlog) as (k & E & Hk).
  - apply Forall_app. split; [done|]. rewrite Forall_forall in Hops |- *. auto.
  - done.
  - exists (take k att). eexists. split; [apply Open_replay; exact E|]. split; [done|]. split.
    + intros r Hr. apply Hsub. rewrite <-(take_drop k att). apply elem_of_app. by left.
    + intros t op p Ht Hp. specialize (Hack t op p Ht Hp).
      replace acked with (Nat.min acked k) in Hack by lia.
      rewrite <-take_take in Hack. rewrite <-(take_drop acked (take k att)). apply elem_of_app. by left.
Qed.

(** The first caller is past its sync, the second one's fsync failed. *)
Definition ex_conc : Conc := foldl cnext (conc_init [] ex_file ex_ops) [0; 0; 1; 1]%nat.

Lemma store_conc_durability_witness :
  ∃ rs s', Open (mkDisk (Some (mkFile ex_img (length ex_img) [] false)) false false EOF) = Ret s' ∧
    data s' = rebuild ([] ++ rs) ∧ rs ⊆ rec_of <$> ex_ops ∧
    ∀ (t : nat) op p, c_threads ex_conc !! t = Some (op, p) → acked_pc p = true → rec_of op ∈ rs.
Proof.
  apply (store_conc_durability [] ex_file ex_ops ex_conc ex_img).
  - reflexivity.
  - reflexivity.
  - constructor.
  - repeat constructor; vm_compute; discriminate.
  - apply cnext_rtc.
  - split.
    + exists (drop 19 ex_img). vm_compute. reflexivity.
    + exists (drop 30 (encodes (rec_of <$> ex_ops))). vm_compute. reflexivity.
Defined.

(** Quiescent agreement. Once all concurrent callers have returned
    successfully, a restart reproduces the map on every key that at most one
    of them wrote. *)
Theorem store_conc_agree base f ops c k :
  f_content f = encodes base → f_synced f = length (f_content f) →
  Forall rec_ok base → Forall rec_ok (rec_of <$> ops) →
  rtc cstep (conc_init base f ops) c → Forall (λ t, t.2 = PDone) (c_threads c) →
  (length (filter (λ r, Key r = k) (rec_of <$> ops)) ≤ 1)%nat →
  ∃ s', Open (mkDisk (Some (file (log (c_store c)))) false false EOF) = Ret s' ∧
    Get k s' = Get k (c_store c).
Proof.
  intros Hc Hs Hb Hops Hrtc Hdone Hk.
  assert (Hth : (c_threads c).*1 = ops).
  { rewrite (rtc_cstep_threads _ _ Hrtc). cbn. rewrite <-list_fmap_compose. apply list_fmap_id. }
  pose proof (conc_inv_reach base f ops c Hc Hs Hrtc) as Hinv.
  destruct (conc_inv_quiescent base c Hinv Hdone) as (att & upd & Hf & Hd & Ha & Hu).
  rewrite Hth in Ha, Hu. eexists. split.
  - apply Open_encodes; [exact Hf|]. apply Forall_app. split; [done|]. by rewrite Ha.
  - unfold Get. cbn [data]. rewrite Hd, rebuild_app. apply rebuild_perm_lookup.
    + by rewrite Ha, Hu.
    + by rewrite Ha.
Qed.

Definition ex_done : Conc :=
  foldl cnext (conc_init [] (mkFile [] 0 [] false) [SPut [Byte.x61] [Byte.x31]; SPut [Byte.x62] [Byte.x32]])
    [0; 1; 1; 0; 1; 0]%nat.

Lemma store_conc_agree_witness :
  ∃ s', Open (mkDisk (Some (file (log (c_store ex_done)))) false false EOF) = Ret s' ∧
    Get [Byte.x61] s' = Get [Byte.x61] (c_store ex_done).
Proof.
  apply (store_conc_agree [] (mkFile [] 0 [] false)
    [SPut [Byte.x61] [Byte.x31]; SPut [Byte.x62] [Byte.x32]]).
  - reflexivity.
  - reflexivity.
  - constructor.
  - repeat constructor; vm_compute; discriminate.
  - apply cnext_rtc.
  - repeat constructor.
  - apply Nat.leb_le. vm_compute. reflexivity.
Defined.

(** Concurrent writers of one key can leave memory and log disagreeing.
    The log's mutex orders the appends but the map is updated later, under a
    different mutex: two acknowledged puts of the same key can be logged in
    one order and applied in the other, so a restart changes the value with
    no failure anywhere. *)
Theorem store_conc_divergence :
  ∃ c s', rtc cstep (conc_init [] (mkFile [] 0 [] false) ex_ops) c ∧
    Forall (λ t, t.2 = PDone) (c_threads c) ∧
    Get [Byte.x6b] (c_store c) = Some [Byte.x31] ∧
    Open (mkDisk (Some (file (log (c_store c)))) false false EOF) = Ret s' ∧
    Get [Byte.x6b] s' = Some [Byte.x32].
Proof.
  pose (c := foldl cnext (conc_init [] (mkFile [] 0 [] false) ex_ops) [0; 1; 0; 1; 1; 0]%nat).
  assert (Hc : f_content (file (log (c_store c))) = encodes (rec_of <$> ex_ops))
    by (vm_compute; reflexivity).
  exists c. eexists. split; [apply cnext_rtc|]. split; [repeat constructor|].
  split; [vm_compute; reflexivity|]. split.
  - apply Open_encodes; [exact Hc|]. repeat constructor; vm_compute; discriminate.
  - vm_compute. reflexivity.
Qed.
