(* ===== verification/Lsm.v ===== *)
(** * Lsm: internal/lsm/lsm.go

    The log-structured storage engine: the memtable, the on-disk sorted
    tables with their writer and their two readers, and the engine that
    flushes, searches and compacts them. The directory is part of the engine's
    state; every system call that writes takes its outcome from the fault
    script, every one that reads from a fault function. *)
From stdpp Require Import prelude gmap sorting.
From Stdlib Require Import ZArith Lia Strings.Byte.
From S2P Require Import Prelude GoIO Wal.
Local Open Scope Z_scope.

(** ** Constants and entries *)

Definition memTableSizeLimit : Z := 4 * 1024 * 1024.
Definition maxL0Tables : Z := 4.
Definition tombstone : bytes :=
  [Byte.x00; Byte.x74; Byte.x6f; Byte.x6d; Byte.x62; Byte.x73; Byte.x74; Byte.x6f; Byte.x6e; Byte.x65].

(** A key and its value; the value [tombstone] means deleted. *)
Abbreviation entry := (bytes * bytes)%type.

Definition is_tombstone (v : bytes) : bool := bool_decide (v = tombstone).

(** ** MemTable *)

Record MemTable := mkMem {
  m_data : gmap bytes bytes;
  m_size : Z
}.

Definition newMemTable : MemTable := mkMem ∅ 0.

Definition mem_put (key value : bytes) (m : MemTable) : MemTable :=
  mkMem (<[key := value]> (m_data m)) (m_size m + (Zlen key + Zlen value)).

Definition mem_delete (key : bytes) (m : MemTable) : MemTable :=
  mkMem (<[key := tombstone]> (m_data m)) (m_size m + (Zlen key + Zlen tombstone)).

Definition mem_get (key : bytes) (m : MemTable) : option bytes :=
  match m_data m !! key with
  | None => None
  | Some v => if is_tombstone v then None else Some v
  end.

Definition bytesUsed (m : MemTable) : Z := m_size m.

(** [sort.Slice] by key. The keys of a map are distinct, so the order of the
    result does not depend on the sorting algorithm or on the order in which
    the map was traversed. *)
Definition entry_le (a b : entry) : Prop := bytes_ltb b.1 a.1 = false.
#[global] Instance entry_le_dec a b : Decision (entry_le a b).
Proof. unfold entry_le. apply _. Defined.

Definition sort_entries (l : list entry) : list entry := merge_sort entry_le l.

Definition sorted (m : MemTable) : list entry := sort_entries (map_to_list (m_data m)).

(** ** SSTables *)

Record SSTable := mkSST {
  path : bytes;
  minKey : bytes;
  maxKey : bytes
}.

(** The files of the engine's directory. *)
Abbreviation Dir := (gmap bytes File).

Inductive lsm_error := CreateErr | WriteErr | FlushErr | SyncErr | OpenErr | ReadErr (e : io_error) | NoFuel.

Definition entry_header (e : entry) : bytes :=
  put_le 4 (u32 (Zlen e.1)) ++ put_le 4 (u32 (Zlen e.2)).

Definition writeEntry (e : entry) (w : Writer) (f : File) : bool * Writer * File :=
  let '(err, w, f) := bufio_Write (entry_header e) w f in
  if err then (true, w, f)
  else
    let '(err, w, f) := bufio_Write e.1 w f in
    if err then (true, w, f)
    else bufio_Write e.2 w f.

Fixpoint writeEntries (es : list entry) (w : Writer) (f : File) : bool * Writer * File :=
  match es with
  | [] => (false, w, f)
  | e :: es =>
      let '(err, w, f) := writeEntry e w f in
      if err then (true, w, f) else writeEntries es w f
  end.

(** The table or the error, the directory and the rest of the fault script. *)
Definition flushToSSTable (p : bytes) (es : list entry) (d : Dir) (faults : list fault)
    : outcome lsm_error SSTable * Dir * list fault :=
  match faults with
  | FFail _ :: faults => (Err CreateErr, d, faults)
  | _ =>
      let f := mkFile [] 0 (tail faults) false in
      let '(err, w, f) := writeEntries es NewWriter f in
      if err then (Err WriteErr, <[p := (file_Close f).2]> d, f_faults (file_Close f).2)
      else
        let '(err, w, f) := bufio_Flush w f in
        if err then (Err FlushErr, <[p := (file_Close f).2]> d, f_faults (file_Close f).2)
        else
          let '(err, f) := file_Sync f in
          if err then (Err SyncErr, <[p := (file_Close f).2]> d, f_faults (file_Close f).2)
          else
            let sst :=
              match es with
              | [] => mkSST p [] []
              | e :: _ => mkSST p e.1 (default e (last es)).1
              end in
            (Ret sst, <[p := (file_Close f).2]> d, f_faults (file_Close f).2)
  end.

(** How opening and reading a file goes: well, the open fails, or a device
    error after [n] bytes. *)
Inductive rfault := ROk | ROpenFail | RReadErr (n : nat).

Definition dir_open (d : Dir) (rf : bytes → rfault) (p : bytes) : opened :=
  match rf p, d !! p with
  | ROpenFail, _ => OpenFailed
  | _, None => NotExist
  | ROk, Some f => Opened (mkStream (f_content f) EOF)
  | RReadErr n, Some f => Opened (mkStream (take n (f_content f)) OtherErr)
  end.

(** The scan loop of [SSTable.get]; an error of the header read other than a
    clean end, and every error of the key and value reads, is returned. *)
Fixpoint sst_scan (fuel : nat) (key : bytes) (r : Stream) : outcome lsm_error (option bytes) :=
  match fuel with
  | O => Err NoFuel
  | S fuel =>
      let '(hdr, r) := ReadFull 8 r in
      match hdr with
      | Panic => Panic
      | Err EOF => Ret None
      | Err e => Err (ReadErr e)
      | Ret hdr =>
          let keyLen := get_le (take 4 hdr) in
          let valLen := get_le (drop 4 hdr) in
          match ReadFull keyLen r with
          | (Ret k, r) =>
              match ReadFull valLen r with
              | (Ret v, r) =>
                  if bool_decide (k = key)
                  then Ret (if is_tombstone v then None else Some v)
                  else sst_scan fuel key r
              | (Err e, _) => Err (ReadErr e)
              | (Panic, _) => Panic
              end
          | (Err e, _) => Err (ReadErr e)
          | (Panic, _) => Panic
          end
      end
  end.

Definition sst_get (d : Dir) (rf : bytes → rfault) (sst : SSTable) (key : bytes) : outcome lsm_error (option bytes) :=
  if negb (bool_decide (minKey sst = [])) && (bytes_ltb key (minKey sst) || bytes_ltb (maxKey sst) key)
  then Ret None
  else
    match dir_open d rf (path sst) with
    | Opened r => sst_scan (S (length (s_data r))) key r
    | _ => Err OpenErr
    end.

(** [io.ReadFull(r, buf)] with its error ignored: the bytes that were there,
    and zeros in the rest of the buffer. *)
Definition read_ignoring (n : Z) (r : Stream) : bytes * Stream :=
  let got := take (Z.to_nat n) (s_data r) in
  (got ++ repeat Byte.x00 (Z.to_nat n - length got), mkStream (drop (Z.to_nat n) (s_data r)) (s_end r)).

Fixpoint readAll_loop (fuel : nat) (es : list entry) (r : Stream) : outcome lsm_error (list entry) :=
  match fuel with
  | O => Err NoFuel
  | S fuel =>
      let '(hdr, r) := ReadFull 8 r in
      match hdr with
      | Panic => Panic
      | Err EOF => Ret es
      | Err e => Err (ReadErr e)
      | Ret hdr =>
          let kl := get_le (take 4 hdr) in
          let vl := get_le (drop 4 hdr) in
          let '(k, r) := read_ignoring kl r in
          let '(v, r) := read_ignoring vl r in
          readAll_loop fuel (es ++ [(k, v)]) r
      end
  end.

Definition readAll (d : Dir) (rf : bytes → rfault) (sst : SSTable) : outcome lsm_error (list entry) :=
  match dir_open d rf (path sst) with
  | Opened r => readAll_loop (S (length (s_data r))) [] r
  | _ => Err OpenErr
  end.

(** ** The engine *)

Record Engine := mkEngine {
  memtable : MemTable;
  l0 : list SSTable;      (* oldest first *)
  l1 : list SSTable;
  nextID : Z;
  dir : Dir;
  faults : list fault
}.

Definition l0_name (id : Z) : bytes := bs "l0-" ++ dec06 id ++ bs ".sst".
Definition l1_name (id : Z) : bytes := bs "l1-" ++ dec06 id ++ bs ".sst".

(** [Open] on an empty directory; existing tables are not reloaded. *)
Definition Open (d : Dir) (fs : list fault) : Engine := mkEngine newMemTable [] [] 0 d fs.

(** The first table of the list that reports a value wins; errors and misses
    fall through to the next one. *)
Fixpoint first_hit (d : Dir) (rf : bytes → rfault) (ssts : list SSTable) (key : bytes) : outcome lsm_error (option bytes) :=
  match ssts with
  | [] => Ret None
  | sst :: ssts =>
      match sst_get d rf sst key with
      | Panic => Panic
      | Ret (Some v) => Ret (Some v)
      | _ => first_hit d rf ssts key
      end
  end.

Definition Get (rf : bytes → rfault) (key : bytes) (e : Engine) : outcome lsm_error (option bytes) :=
  match m_data (memtable e) !! key with
  | Some raw => Ret (if is_tombstone raw then None else Some raw)
  | None =>
      match first_hit (dir e) rf (reverse (l0 e)) key with
      | Ret None => first_hit (dir e) rf (l1 e) key
      | r => r
      end
  end.

(** Read the tables in order and merge their entries, later ones first. *)
Fixpoint merge_tables (d : Dir) (rf : bytes → rfault) (ssts : list SSTable) (merged : gmap bytes bytes)
    : outcome lsm_error (gmap bytes bytes) :=
  match ssts with
  | [] => Ret merged
  | sst :: ssts =>
      es ← readAll d rf sst;
      merge_tables d rf ssts (foldl (λ m e, <[e.1 := e.2]> m) merged es)
  end.

(** Level 1 first, then level 0 oldest to newest. *)
Definition read_merged (rf : bytes → rfault) (e : Engine) : outcome lsm_error (gmap bytes bytes) :=
  merged ← merge_tables (dir e) rf (l1 e) ∅;
  merge_tables (dir e) rf (l0 e) merged.

Definition remove_files (ssts : list SSTable) (d : Dir) : Dir := foldl (λ d sst, delete (path sst) d) d ssts.

Definition compact (rf : bytes → rfault) (e : Engine) : option lsm_error * Engine :=
  match read_merged rf e with
  | Panic => (Some OpenErr, e)
  | Err er => (Some er, e)
  | Ret merged =>
      let entries := sort_entries (map_to_list (filter (λ kv, is_tombstone kv.2 = false) merged)) in
      match entries with
      | [] =>
          (None, mkEngine (memtable e) [] [] (nextID e)
                   (remove_files (l1 e) (remove_files (l0 e) (dir e))) (faults e))
      | _ =>
          let id := nextID e + 1 in
          match flushToSSTable (l1_name id) entries (dir e) (faults e) with
          | (Ret sst, d, fs) =>
              (None, mkEngine (memtable e) [] [sst] id
                       (remove_files (l1 e) (remove_files (l0 e) d)) fs)
          | (Err er, d, fs) => (Some er, mkEngine (memtable e) (l0 e) (l1 e) id d fs)
          | (Panic, d, fs) => (Some OpenErr, mkEngine (memtable e) (l0 e) (l1 e) id d fs)
          end
      end
  end.

(** Write the memtable to a new table of level 0 and start an empty one. *)
Definition flush_memtable (e : Engine) : option lsm_error * Engine :=
  let entries := sorted (memtable e) in
  let id := nextID e + 1 in
  match flushToSSTable (l0_name id) entries (dir e) (faults e) with
  | (Ret sst, d, fs) => (None, mkEngine newMemTable (l0 e ++ [sst]) (l1 e) id d fs)
  | (Err er, d, fs) => (Some er, mkEngine (memtable e) (l0 e) (l1 e) id d fs)
  | (Panic, d, fs) => (Some OpenErr, mkEngine (memtable e) (l0 e) (l1 e) id d fs)
  end.

Definition maybeFlush (rf : bytes → rfault) (e : Engine) : option lsm_error * Engine :=
  if bytesUsed (memtable e) <? memTableSizeLimit then (None, e)
  else
    match flush_memtable e with
    | (Some er, e) => (Some er, e)
    | (None, e) => if maxL0Tables <=? Zlen (l0 e) then compact rf e else (None, e)
    end.

Definition with_mem (e : Engine) (m : MemTable) : Engine :=
  mkEngine m (l0 e) (l1 e) (nextID e) (dir e) (faults e).

Definition Put (rf : bytes → rfault) (key value : bytes) (e : Engine) : option lsm_error * Engine :=
  maybeFlush rf (with_mem e (mem_put key value (memtable e))).

Definition Delete (rf : bytes → rfault) (key : bytes) (e : Engine) : option lsm_error * Engine :=
  maybeFlush rf (with_mem e (mem_delete key (memtable e))).

Definition Flush (e : Engine) : option lsm_error * Engine :=
  if bytesUsed (memtable e) =? 0 then (None, e) else flush_memtable e.

(** [Stats]: the memtable's bytes and the number of tables per level. *)
Definition Stats (e : Engine) : Z * Z * Z := (bytesUsed (memtable e), Zlen (l0 e), Zlen (l1 e)).

(** ** Lemmas on the order and on sorted tables *)

#[global] Instance entry_le_total : Total entry_le.
Proof.
  intros a b. unfold entry_le.
  destruct (bytes_ltb b.1 a.1) eqn:E1, (bytes_ltb a.1 b.1) eqn:E2; auto.
  exfalso. apply (bytes_ltb_irrefl a.1), (bytes_ltb_trans _ b.1); by rewrite ?E1, ?E2.
Qed.

#[global] Instance entry_le_trans : Transitive entry_le.
Proof.
  intros a b c. unfold entry_le. intros H1 H2. destruct (bytes_ltb c.1 a.1) eqn:E; [|done].
  destruct (bytes_ltb_total a.1 b.1) as [H|[H|H]].
  - pose proof (bytes_ltb_trans c.1 a.1 b.1) as Ht. rewrite E, H2 in Ht. exfalso. by apply Ht.
  - rewrite H in E. congruence.
  - by rewrite H1 in H.
Qed.

Lemma sort_entries_perm l : sort_entries l ≡ₚ l.
Proof. apply merge_sort_Permutation. Qed.

Lemma sort_entries_sorted l : StronglySorted entry_le (sort_entries l).
Proof. apply (StronglySorted_merge_sort entry_le). Qed.

(** No key of a sorted table lies outside the range of its first and last
    entries. *)
Lemma sorted_in_range e0 es e :
  StronglySorted entry_le (e0 :: es) → e ∈ e0 :: es →
  bytes_ltb e.1 e0.1 = false ∧ bytes_ltb (default e0 (last (e0 :: es))).1 e.1 = false.
Proof.
  intros Hs He. split.
  - apply elem_of_cons in He as [->|He].
    + destruct (bytes_ltb e0.1 e0.1) eqn:E; [|done]. exfalso. apply (bytes_ltb_irrefl e0.1). by rewrite E.
    + apply StronglySorted_inv in Hs as [_ Hall]. rewrite Forall_forall in Hall. by apply Hall.
  - destruct (last (e0 :: es)) as [el|] eqn:El; [|by apply last_None in El]. cbn [default].
    apply last_Some in El as [l' El]. rewrite El in Hs, He.
    apply elem_of_app in He as [He|He].
    + change (entry_le e el). eapply StronglySorted_app_1_elem_of; [exact Hs|done|].
      by apply list_elem_of_singleton.
    + apply list_elem_of_singleton in He as ->.
      destruct (bytes_ltb el.1 el.1) eqn:E; [|done]. exfalso. apply (bytes_ltb_irrefl el.1). by rewrite E.
Qed.

(** ** Lemmas on the table format *)

Definition entry_ok (e : entry) : Prop := Zlen e.1 < 2 ^ 32 ∧ Zlen e.2 < 2 ^ 32.

Definition enc_entry (e : entry) : bytes := entry_header e ++ e.1 ++ e.2.
Definition enc_entries (es : list entry) : bytes := concat (enc_entry <$> es).

Lemma writeEntry_spec e w f err w' f' :
  writeEntry e w f = (err, w', f') → writer_wf w →
  writer_wf w' ∧ (err = false → f_content f' ++ wb_buf w' = (f_content f ++ wb_buf w) ++ enc_entry e).
Proof.
  unfold writeEntry. intros H Hw.
  destruct (bufio_Write (entry_header e) w f) as [[e1 w1] f1] eqn:E1.
  apply bufio_Write_spec in E1 as (_ & _ & Hw1 & _ & H1); [|done].
  destruct e1; [by injection H as <- <- <-|].
  destruct (bufio_Write e.1 w1 f1) as [[e2 w2] f2] eqn:E2.
  apply bufio_Write_spec in E2 as (_ & _ & Hw2 & _ & H2); [|done].
  destruct e2; [by injection H as <- <- <-|].
  apply bufio_Write_spec in H as (_ & _ & Hw3 & _ & H3); [|done]. split; [done|]. intros ->.
  unfold enc_entry. rewrite H3, app_assoc, H2, app_assoc, H1. by rewrite <-!app_assoc.
Qed.

Lemma writeEntries_spec es w f err w' f' :
  writeEntries es w f = (err, w', f') → writer_wf w →
  writer_wf w' ∧ (err = false → f_content f' ++ wb_buf w' = (f_content f ++ wb_buf w) ++ enc_entries es).
Proof.
  revert w f. induction es as [|e es IH]; intros w f H Hw.
  { injection H as <- <- <-. split; [done|]. intros _. unfold enc_entries. by rewrite app_nil_r. }
  cbn [writeEntries] in H. destruct (writeEntry e w f) as [[e1 w1] f1] eqn:E1.
  apply writeEntry_spec in E1 as [Hw1 H1]; [|done].
  destruct e1; [by injection H as <- <- <-|].
  apply IH in H as [Hw' H]; [|done]. split; [done|]. intros Herr.
  rewrite H, H1 by done. unfold enc_entries. cbn [fmap list_fmap concat]. by rewrite <-app_assoc.
Qed.

Lemma file_Close_content f : f_content (file_Close f).2 = f_content f.
Proof. unfold file_Close. destruct (f_closed f); [done|]. by destruct (next_fault f). Qed.

Definition sst_of (p : bytes) (es : list entry) : SSTable :=
  match es with
  | [] => mkSST p [] []
  | e :: _ => mkSST p e.1 (default e (last es)).1
  end.

(** Writing a table touches only its own file; on success that file holds
    the encoded entries. *)
Lemma flushToSSTable_spec p es d fs r d' fs' :
  flushToSSTable p es d fs = (r, d', fs') →
  (∀ q, q ≠ p → d' !! q = d !! q) ∧
  match r with
  | Ret sst => sst = sst_of p es ∧ ∃ f, d' !! p = Some f ∧ f_content f = enc_entries es
  | Err _ => True
  | Panic => False
  end.
Proof.
  unfold flushToSSTable. intros H.
  assert (Hother : ∀ f q, q ≠ p → <[p := f]> d !! q = d !! q).
  { intros f q Hq. by rewrite lookup_insert_ne. }
  destruct (writeEntries es NewWriter _) as [[e1 w1] f1] eqn:E1.
  apply writeEntries_spec in E1 as [Hw1 H1]; [|unfold writer_wf; simpl; lia].
  destruct fs as [|[|n] fs].
  3: { by injection H as <- <- <-. }
  all: destruct e1; [injection H as <- <- <-; by auto|];
    destruct (bufio_Flush w1 f1) as [[e2 w2] f2] eqn:E2;
    apply bufio_Flush_spec in E2 as (_ & _ & _ & Hb & _ & Hbuf); [|done];
    destruct e2; [injection H as <- <- <-; by auto|];
    destruct (file_Sync f2) as [e3 f3] eqn:E3; apply file_Sync_spec in E3 as [Hc _];
    destruct e3; [injection H as <- <- <-; by auto|];
    injection H as <- <- <-; (split; [by auto|]); (split; [by destruct es|]);
    eexists; (split; [by rewrite lookup_insert_eq|]);
    rewrite file_Close_content, Hc; rewrite (Hbuf eq_refl), app_nil_r in Hb; rewrite Hb, H1 by done; done.
Qed.

Definition live (o : option bytes) : option bytes :=
  match o with Some v => if is_tombstone v then None else Some v | None => None end.

Lemma Zlen_enc_entry e : Zlen (enc_entry e) = 8 + Zlen e.1 + Zlen e.2.
Proof. unfold enc_entry, entry_header. autorewrite with kv. lia. Qed.

(** Both readers step over one encoded entry the same way. *)
Lemma read_entry e rest en :
  entry_ok e →
  ReadFull 8 (mkStream (enc_entry e ++ rest) en) = (Ret (entry_header e), mkStream (e.1 ++ e.2 ++ rest) en) ∧
  get_le (take 4 (entry_header e)) = Zlen e.1 ∧ get_le (drop 4 (entry_header e)) = Zlen e.2.
Proof.
  intros [H1 H2]. split_and!.
  - unfold enc_entry. rewrite <-!app_assoc. apply ReadFull_app'.
    unfold entry_header. by autorewrite with kv.
  - change (take 4 (entry_header e)) with (put_le 4 (u32 (Zlen e.1))). by apply get_put_len.
  - change (drop 4 (entry_header e)) with (put_le 4 (u32 (Zlen e.2))). by apply get_put_len.
Qed.

Lemma read_ignoring_app a rest en :
  read_ignoring (Zlen a) (mkStream (a ++ rest) en) = (a, mkStream rest en).
Proof.
  unfold read_ignoring, Zlen. cbn [s_data s_end].
  rewrite Nat2Z.id, take_app_length, drop_app_length, Nat.sub_diag. by rewrite app_nil_r.
Qed.

(** The budgets suffice on every file, damaged ones included: a round takes
    eight bytes or ends the loop. *)
Lemma ReadFull_shorter n r b r' :
  0 ≤ n → ReadFull n r = (Ret b, r') → Zlen (s_data r') = Zlen (s_data r) - n.
Proof. intros Hn H. apply ReadFull_Ret in H as (Hb & Hd & _); [|done]. rewrite Hd, Zlen_app. lia. Qed.

Lemma sst_scan_total fuel key r : (length (s_data r) < fuel)%nat → sst_scan fuel key r ≠ Err NoFuel.
Proof.
  revert r. induction fuel as [|fuel IH]; intros r Hf; [lia|]. cbn [sst_scan].
  destruct (ReadFull 8 r) as [[h|[]|] r1] eqn:E1; try done.
  destruct (ReadFull _ r1) as [[k|e|] r2] eqn:E2; try done.
  destruct (ReadFull _ r2) as [[v|e|] r3] eqn:E3; try done.
  case_bool_decide; [done|]. apply IH.
  apply ReadFull_shorter in E1; [|lia]. apply ReadFull_shorter in E2; [|apply get_le_range].
  apply ReadFull_shorter in E3; [|apply get_le_range].
  pose proof (get_le_range (take 4 h)). pose proof (get_le_range (drop 4 h)). unfold Zlen in *. lia.
Qed.

Lemma readAll_loop_total fuel es r : (length (s_data r) < fuel)%nat → readAll_loop fuel es r ≠ Err NoFuel.
Proof.
  revert es r. induction fuel as [|fuel IH]; intros es r Hf; [lia|]. cbn [readAll_loop].
  destruct (ReadFull 8 r) as [[h|[]|] r1] eqn:E1; try done.
  apply ReadFull_shorter in E1; [|lia]. cbn. apply IH. cbn [s_data]. rewrite !length_drop. unfold Zlen in *. lia.
Qed.

(** The scan of an encoded table is the lookup of its first entry for the
    key; a tombstone reads as absent. *)
Lemma sst_scan_spec fuel es key :
  Forall entry_ok es → (length (enc_entries es) < fuel)%nat →
  sst_scan fuel key (mkStream (enc_entries es) EOF) = Ret (live ((list_to_map es : gmap bytes bytes) !! key)).
Proof.
  intros Hok. revert fuel. induction Hok as [|e es He _ IH]; intros fuel Hf.
  - destruct fuel; [cbn in Hf; lia|]. done.
  - destruct fuel as [|fuel]; [lia|]. unfold enc_entries in *. cbn [fmap list_fmap concat] in *.
    destruct (read_entry e (concat (enc_entry <$> es)) EOF He) as (H1 & H2 & H3).
    cbn [sst_scan]. rewrite H1, H2, H3, ReadFull_app, ReadFull_app.
    destruct e as [k v]. cbn [fst snd]. rewrite list_to_map_cons. case_bool_decide as Hk.
    + subst k. rewrite lookup_insert_eq. done.
    + rewrite lookup_insert_ne by done. apply IH.
      rewrite length_app in Hf. pose proof (Zlen_enc_entry (k, v)) as Hlen. cbn [fst snd] in Hlen.
      unfold Zlen in Hlen. lia.
Qed.

Lemma readAll_loop_spec fuel es acc :
  Forall entry_ok es → (length (enc_entries es) < fuel)%nat →
  readAll_loop fuel acc (mkStream (enc_entries es) EOF) = Ret (acc ++ es).
Proof.
  intros Hok. revert fuel acc. induction Hok as [|e es He _ IH]; intros fuel acc Hf.
  - destruct fuel; [cbn in Hf; lia|]. by rewrite app_nil_r.
  - destruct fuel as [|fuel]; [lia|]. unfold enc_entries in *. cbn [fmap list_fmap concat] in *.
    destruct (read_entry e (concat (enc_entry <$> es)) EOF He) as (H1 & H2 & H3).
    cbn [readAll_loop]. rewrite H1, H2, H3, read_ignoring_app, read_ignoring_app.
    rewrite IH.
    + rewrite <-app_assoc. by destruct e.
    + rewrite length_app in Hf. pose proof (Zlen_enc_entry e) as Hlen. unfold Zlen in Hlen. lia.
Qed.

(** ** Tables on disk *)

(** The table [sst] is on disk and holds the map [t]. *)
Definition sst_ok (d : Dir) (sst : SSTable) (t : gmap bytes bytes) : Prop :=
  ∃ es f, d !! path sst = Some f ∧ f_content f = enc_entries es ∧ Forall entry_ok es ∧
    StronglySorted entry_le es ∧ NoDup es.*1 ∧ sst = sst_of (path sst) es ∧ t = list_to_map es.

Lemma sst_of_path p es : path (sst_of p es) = p.
Proof. by destruct es. Qed.

Lemma sst_ok_dir d d' sst t : d' !! path sst = d !! path sst → sst_ok d sst t → sst_ok d' sst t.
Proof. intros Hd (es & f & H & ?). exists es, f. by rewrite Hd. Qed.

(** [SSTable.get] is the lookup in the table's map: the range check skips
    only tables that do not have the key. *)
Lemma sst_get_spec d rf sst t key :
  sst_ok d sst t → rf (path sst) = ROk → sst_get d rf sst key = Ret (live (t !! key)).
Proof.
  intros (es & f & Hd & Hc & Hok & Hs & _ & Hsst & ->) Hrf. unfold sst_get.
  assert (Hscan : match dir_open d rf (path sst) with
    | Opened r => sst_scan (S (length (s_data r))) key r | _ => Err OpenErr end =
    Ret (live ((list_to_map es : gmap bytes bytes) !! key))).
  { unfold dir_open. rewrite Hrf, Hd, Hc. cbn [s_data]. apply sst_scan_spec; [done|lia]. }
  destruct (negb _ && _) eqn:E; [|exact Hscan].
  apply andb_true_iff in E as [_ E]. rewrite Hsst in E.
  replace ((list_to_map es : gmap bytes bytes) !! key) with (@None bytes); [done|].
  symmetry. apply not_elem_of_list_to_map_1. intros (e & -> & He)%list_elem_of_fmap.
  destruct es as [|e0 es]; [by apply not_elem_of_nil in He|]. cbn [sst_of minKey maxKey] in E.
  destruct (sorted_in_range e0 es e Hs He) as [H1 H2]. rewrite H1, H2 in E. done.
Qed.

Lemma readAll_spec d rf sst t :
  sst_ok d sst t → rf (path sst) = ROk →
  ∃ es, readAll d rf sst = Ret es ∧ NoDup es.*1 ∧ t = list_to_map es.
Proof.
  intros (es & f & Hd & Hc & Hok & _ & Hn & _ & ->) Hrf. exists es. split; [|done].
  unfold readAll, dir_open. rewrite Hrf, Hd, Hc. cbn [s_data].
  rewrite readAll_loop_spec; [done|done|lia].
Qed.

(** Inserting entries with distinct keys is a left-biased union. *)
Lemma foldl_insert_union (m : gmap bytes bytes) (es : list entry) :
  NoDup es.*1 → foldl (λ m (e : entry), <[e.1 := e.2]> m) m es = list_to_map es ∪ m.
Proof.
  revert m. induction es as [|[k v] es IH]; intros m Hn.
  - cbn. by rewrite (left_id_L ∅ (∪)).
  - cbn [fmap list_fmap fst] in Hn. apply NoDup_cons in Hn as [Hk Hn].
    cbn [foldl fst snd]. rewrite list_to_map_cons, IH by done.
    rewrite <-insert_union_r; [by rewrite insert_union_l|].
    by apply not_elem_of_list_to_map_1.
Qed.

(** ** The engine's invariant and its contents *)

(** Stacked maps, newest first. *)
Definition layers (ts : list (gmap bytes bytes)) : gmap bytes bytes := foldr (∪) ∅ ts.

Record engine_ok (e : Engine) (ts0 ts1 : list (gmap bytes bytes)) : Prop := {
  eo_l0 : Forall2 (sst_ok (dir e)) (l0 e) ts0;
  eo_l1 : Forall2 (sst_ok (dir e)) (l1 e) ts1;
  eo_one : (length (l1 e) ≤ 1)%nat;
  eo_id : 0 ≤ nextID e;
  eo_names0 : Forall (λ sst, ∃ id, 0 ≤ id ≤ nextID e ∧ path sst = l0_name id) (l0 e);
  eo_names1 : Forall (λ sst, ∃ id, 0 ≤ id ≤ nextID e ∧ path sst = l1_name id) (l1 e);
  eo_mem : map_Forall (λ k v, entry_ok (k, v)) (m_data (memtable e))
}.

(** All entries the engine holds, tombstones included, newest value first;
    [view] is the map a client wrote. *)
Definition raw (e : Engine) (ts0 ts1 : list (gmap bytes bytes)) : gmap bytes bytes :=
  m_data (memtable e) ∪ (layers (reverse ts0) ∪ layers ts1).

Definition live_map (m : gmap bytes bytes) : gmap bytes bytes :=
  filter (λ kv, is_tombstone kv.2 = false) m.

Lemma live_map_lookup m k : live_map m !! k = live (m !! k).
Proof.
  unfold live_map. rewrite map_lookup_filter. destruct (m !! k) as [v|]; [|done]. cbn.
  destruct (is_tombstone v) eqn:E; [by rewrite option_guard_False by congruence|by rewrite option_guard_True].
Qed.

Lemma layers_app ts us : layers (ts ++ us) = layers ts ∪ layers us.
Proof.
  unfold layers. induction ts as [|t ts IH]; cbn; [by rewrite (left_id_L ∅ (∪))|].
  by rewrite IH, (assoc_L (∪)).
Qed.

Lemma layers_snoc ts t : layers (reverse (ts ++ [t])) = t ∪ layers (reverse ts).
Proof. by rewrite reverse_snoc. Qed.

Lemma name_inj p q a b : p ++ dec06 a ++ q = p ++ dec06 b ++ q → 0 ≤ a → 0 ≤ b → a = b.
Proof. intros H%app_inv_head%app_inv_tail Ha Hb. by apply dec06_inj. Qed.

Lemma l0_name_inj a b : l0_name a = l0_name b → 0 ≤ a → 0 ≤ b → a = b.
Proof. apply name_inj. Qed.

Lemma l1_name_inj a b : l1_name a = l1_name b → 0 ≤ a → 0 ≤ b → a = b.
Proof. apply name_inj. Qed.

Lemma l0_l1_name a b : l0_name a ≠ l1_name b.
Proof. done. Qed.

(** Changing files the tables do not use keeps the tables. *)
Lemma sst_ok_frame d d' ssts ts :
  Forall (λ sst, d' !! path sst = d !! path sst) ssts →
  Forall2 (sst_ok d) ssts ts → Forall2 (sst_ok d') ssts ts.
Proof.
  intros Hf H. induction H as [|sst t ssts ts Hs _ IH]; [constructor|].
  apply Forall_cons in Hf as [Hd Hf]. constructor; [by eapply sst_ok_dir|by apply IH].
Qed.

Lemma entries_of_map (m : gmap bytes bytes) :
  map_Forall (λ k v, entry_ok (k, v)) m →
  let es := sort_entries (map_to_list m) in
  Forall entry_ok es ∧ StronglySorted entry_le es ∧ NoDup es.*1 ∧ list_to_map es = m.
Proof.
  intros Hm es. assert (Hp : es ≡ₚ map_to_list m) by apply sort_entries_perm. split_and!.
  - rewrite Hp. apply Forall_forall. intros [k v] He%elem_of_map_to_list. by apply Hm.
  - apply sort_entries_sorted.
  - rewrite Hp. apply NoDup_fst_map_to_list.
  - symmetry. by apply list_to_map_flip.
Qed.

(** A flushed map is a good table. *)
Lemma flush_map_ok p m d fs sst d' fs' :
  map_Forall (λ k v, entry_ok (k, v)) m →
  flushToSSTable p (sort_entries (map_to_list m)) d fs = (Ret sst, d', fs') →
  path sst = p ∧ sst_ok d' sst m ∧ ∀ q, q ≠ p → d' !! q = d !! q.
Proof.
  intros Hm H. apply flushToSSTable_spec in H as (Ho & -> & f & Hf & Hc).
  destruct (entries_of_map m Hm) as (H1 & H2 & H3 & H4).
  rewrite sst_of_path. split_and!; try done.
  eexists _, f. rewrite sst_of_path. split_and!; done.
Qed.

Lemma sst_ok_entries d sst t : sst_ok d sst t → map_Forall (λ k v, entry_ok (k, v)) t.
Proof.
  intros (es & f & _ & _ & Hok & _ & Hn & _ & ->). intros k v Hk.
  apply elem_of_list_to_map_2 in Hk. rewrite Forall_forall in Hok. by apply Hok.
Qed.

Lemma layers_entries d ssts ts :
  Forall2 (sst_ok d) ssts ts → Forall (map_Forall (λ k v, entry_ok (k, v))) ts.
Proof. induction 1; constructor; [by eapply sst_ok_entries|done]. Qed.

Lemma layers_Forall (P : bytes → bytes → Prop) ts : Forall (map_Forall P) ts → map_Forall P (layers ts).
Proof.
  induction 1 as [|t ts Ht _ IH]; [done|]. cbn. intros k v Hk.
  apply lookup_union_Some_raw in Hk as [Hk|[_ Hk]]; [by apply Ht|by apply IH].
Qed.

Definition rf_clean (rf : bytes → rfault) : Prop := ∀ p n, rf p ≠ RReadErr n.

(** Reading all tables in order yields their stacked union, or fails to open
    one of them. *)
Lemma merge_tables_spec d rf ssts ts m :
  Forall2 (sst_ok d) ssts ts → rf_clean rf →
  (∃ er, merge_tables d rf ssts m = Err er) ∨
  merge_tables d rf ssts m = Ret (layers (reverse ts) ∪ m).
Proof.
  intros H Hrf. revert m. induction H as [|sst t ssts ts Hs _ IH]; intros m.
  - right. cbn. by rewrite (left_id_L ∅ (∪)).
  - cbn [merge_tables]. destruct (rf (path sst)) eqn:Er.
    + destruct (readAll_spec d rf sst t Hs Er) as (es & -> & Hn & ->).
      cbn [mbind outcome_bind]. destruct (IH (foldl (λ m (e : entry), <[e.1:=e.2]> m) m es)) as [IH'|IH']; [by left|].
      right. rewrite IH', foldl_insert_union, reverse_cons, layers_app by done.
      cbn [layers foldr]. by rewrite (right_id_L ∅ (∪)), (assoc_L (∪)).
    + left. unfold readAll, dir_open. rewrite Er. cbn. eauto.
    + exfalso. by eapply Hrf.
Qed.

Lemma merge_tables_ok d rf ssts ts m :
  Forall2 (sst_ok d) ssts ts → (∀ p, rf p = ROk) →
  merge_tables d rf ssts m = Ret (layers (reverse ts) ∪ m).
Proof.
  intros H Hrf. revert m. induction H as [|sst t ssts ts Hs _ IH]; intros m.
  - cbn. by rewrite (left_id_L ∅ (∪)).
  - cbn [merge_tables]. destruct (readAll_spec d rf sst t Hs (Hrf _)) as (es & -> & Hn & ->).
    cbn [mbind outcome_bind]. rewrite IH, foldl_insert_union, reverse_cons, layers_app by done.
    cbn [layers foldr]. by rewrite (right_id_L ∅ (∪)), (assoc_L (∪)).
Qed.

(** ** Every operation keeps the invariant and moves the contents as a map *)

(** A table written under the next number leaves the existing tables alone. *)
Lemma engine_ok_frame e ts0 ts1 m d fs id :
  engine_ok e ts0 ts1 → id = nextID e + 1 →
  (∀ q, q ≠ l0_name id → q ≠ l1_name id → d !! q = dir e !! q) →
  map_Forall (λ k v, entry_ok (k, v)) (m_data m) →
  engine_ok (mkEngine m (l0 e) (l1 e) id d fs) ts0 ts1.
Proof.
  intros [H0 H1 Hone Hid Hn0 Hn1 Hm] -> Hd Hm'. split; cbn; try done; try lia.
  - eapply sst_ok_frame; [|exact H0]. eapply Forall_impl; [exact Hn0|].
    intros sst (i & Hi & ->). apply Hd; [|apply l0_l1_name].
    intros E. apply l0_name_inj in E; lia.
  - eapply sst_ok_frame; [|exact H1]. eapply Forall_impl; [exact Hn1|].
    intros sst (i & Hi & ->). apply Hd; [by intros E; eapply l0_l1_name|].
    intros E. apply l1_name_inj in E; lia.
  - eapply Forall_impl; [exact Hn0|]. intros sst (i & Hi & Hp). exists i. split; [lia|done].
  - eapply Forall_impl; [exact Hn1|]. intros sst (i & Hi & Hp). exists i. split; [lia|done].
Qed.

Lemma flush_memtable_ok e ts0 ts1 :
  engine_ok e ts0 ts1 →
  let '(r, e') := flush_memtable e in
  ∃ ts0', engine_ok e' ts0' ts1 ∧ raw e' ts0' ts1 = raw e ts0 ts1 ∧
    match r with
    | None => memtable e' = newMemTable ∧ length (l0 e') = S (length (l0 e)) ∧ ts0' = ts0 ++ [m_data (memtable e)]
    | Some _ => memtable e' = memtable e ∧ l0 e' = l0 e ∧ ts0' = ts0
    end.
Proof.
  intros Hok. unfold flush_memtable, sorted.
  destruct (flushToSSTable _ _ _ _) as [[[sst|er|] d] fs] eqn:E.
  - apply flush_map_ok in E as (Hp & Hs & Hd); [|apply Hok].
    pose proof (engine_ok_frame e ts0 ts1 newMemTable d fs (nextID e + 1) Hok eq_refl
      (λ q H _, Hd q H) ltac:(done)) as Hok'.
    exists (ts0 ++ [m_data (memtable e)]). destruct Hok' as [H0 H1 Hone Hid Hn0 Hn1 Hm].
    split_and!; cbn; try done.
    + split; cbn; try done.
      * apply Forall2_app; [done|]. by repeat constructor.
      * apply Forall_app. split; [done|]. constructor; [|done]. exists (nextID e + 1).
        cbn in Hid. split; [lia|done].
    + unfold raw. cbn. rewrite layers_snoc. rewrite (left_id_L ∅ (∪)). by rewrite (assoc_L (∪)).
    + rewrite length_app. cbn. lia.
  - apply flushToSSTable_spec in E as [Hd _]. exists ts0. split_and!; try done.
    apply engine_ok_frame; [done|done| |apply Hok]. auto.
  - apply flushToSSTable_spec in E as [Hd []].
Qed.

Lemma live_map_union_live (m x : gmap bytes bytes) : live_map (m ∪ live_map x) = live_map (m ∪ x).
Proof.
  apply map_eq. intros k. rewrite !live_map_lookup, !lookup_union, live_map_lookup.
  destruct (m !! k), (x !! k) as [v|]; cbn; try done; [by destruct (is_tombstone v)|].
  by destruct (is_tombstone v) eqn:E; cbn; rewrite ?E.
Qed.

Lemma remove_files_lookup ssts d q :
  (∀ sst, sst ∈ ssts → path sst ≠ q) → remove_files ssts d !! q = d !! q.
Proof.
  unfold remove_files. revert d. induction ssts as [|sst ssts IH]; intros d H; [done|].
  cbn [foldl]. rewrite IH by (intros s Hs; apply H; by right).
  apply lookup_delete_ne, H. by left.
Qed.

(** What compaction computes from the tables it reads. *)
Lemma compact_merged e ts0 ts1 rf :
  engine_ok e ts0 ts1 → rf_clean rf →
  (∃ er, read_merged rf e = Err er) ∨
  read_merged rf e = Ret (layers (reverse ts0) ∪ layers ts1).
Proof.
  unfold read_merged.
  intros [H0 H1 Hone _ _ _ _] Hrf.
  destruct (merge_tables_spec (dir e) rf (l1 e) ts1 ∅ H1 Hrf) as [[er ->]| ->]; [left; by exists er|].
  cbn [mbind outcome_bind]. apply Forall2_length in H1.
  replace (reverse ts1) with ts1.
  2: { destruct ts1 as [|t [|]]; [done|done|]. cbn in H1. lia. }
  rewrite (right_id_L ∅ (∪)). destruct (merge_tables_spec (dir e) rf (l0 e) ts0 (layers ts1) H0 Hrf); eauto.
Qed.

Lemma compact_ok rf e ts0 ts1 :
  engine_ok e ts0 ts1 → rf_clean rf →
  let '(r, e') := compact rf e in
  memtable e' = memtable e ∧
  match r with
  | None => ∃ t, engine_ok e' [] t ∧ l0 e' = [] ∧ (length (l1 e') ≤ 1)%nat ∧
      layers t = live_map (layers (reverse ts0) ∪ layers ts1)
  | Some _ => engine_ok e' ts0 ts1 ∧ l0 e' = l0 e ∧ l1 e' = l1 e
  end.
Proof.
  intros Hok Hrf. pose proof Hok as [H0 H1 Hone Hid Hn0 Hn1 Hm]. unfold compact.
  destruct (compact_merged e ts0 ts1 rf Hok Hrf) as [[er ->]| ->]; [done|].
  fold (live_map (layers (reverse ts0) ∪ layers ts1)).
  set (mg := live_map (layers (reverse ts0) ∪ layers ts1)).
  assert (Hmg : map_Forall (λ k v, entry_ok (k, v)) mg).
  { intros k v Hk. unfold mg in Hk. rewrite live_map_lookup in Hk.
    assert (Hu : map_Forall (λ k v, entry_ok (k, v)) (layers (reverse ts0 ++ ts1))).
    { apply layers_Forall, Forall_app. rewrite Forall_reverse.
      split; by eapply layers_entries. }
    rewrite layers_app in Hu. apply Hu. destruct (_ !! k) as [x|]; cbn in Hk; [|done].
    by destruct (is_tombstone x). }
  destruct (sort_entries (map_to_list mg)) as [|en ens] eqn:Es.
  - cbn. split; [done|]. exists []. split_and!; cbn; try done; try lia.
    + split; cbn; try done; try lia.
    + destruct (entries_of_map mg Hmg) as (_ & _ & _ & Hl). rewrite Es in Hl. by rewrite <-Hl.
  - rewrite <-Es. destruct (flushToSSTable _ _ _ _) as [[[sst|er|] d] fs] eqn:E.
    + apply flush_map_ok in E as (Hp & Hs & Hd); [|done]. cbn. split; [done|].
      exists [mg]. split_and!; cbn; try done; try lia.
      2: { by rewrite (right_id_L ∅ (∪)). }
      split; cbn; try done; try lia.
      * constructor; [|done]. eapply sst_ok_dir; [|exact Hs]. rewrite Hp.
        rewrite remove_files_lookup, remove_files_lookup; [done| |].
        -- intros s Hs'. rewrite Forall_forall in Hn0. destruct (Hn0 s Hs') as (i & Hi & ->). apply l0_l1_name.
        -- intros s Hs'. rewrite Forall_forall in Hn1. destruct (Hn1 s Hs') as (i & Hi & ->).
           intros Eq. apply l1_name_inj in Eq; lia.
      * constructor; [|done]. exists (nextID e + 1). split; [lia|done].
    + apply flushToSSTable_spec in E as [Hd _]. cbn. split; [done|]. split; [|done].
      apply engine_ok_frame; [done|done| |done]. auto.
    + apply flushToSSTable_spec in E as [Hd []].
Qed.

Lemma maybeFlush_ok rf e ts0 ts1 :
  engine_ok e ts0 ts1 → rf_clean rf →
  ∃ ts0' ts1', engine_ok (maybeFlush rf e).2 ts0' ts1' ∧
    live_map (raw (maybeFlush rf e).2 ts0' ts1') = live_map (raw e ts0 ts1) ∧
    (∀ k, (∀ t, t ∈ m_data (memtable e) :: ts0 ++ ts1 → t !! k ≠ Some tombstone) →
          ∀ t, t ∈ m_data (memtable (maybeFlush rf e).2) :: ts0' ++ ts1' → t !! k ≠ Some tombstone).
Proof.
  intros Hok Hrf. unfold maybeFlush. destruct (_ <? _); [by exists ts0, ts1|].
  pose proof (flush_memtable_ok e ts0 ts1 Hok) as Hf.
  destruct (flush_memtable e) as [[er|] e1]; destruct Hf as (ts0' & Hok1 & Hraw & Hm & Hl & Ht).
  { exists ts0', ts1. cbn [snd]. split_and!; [done|by rewrite Hraw|]. subst ts0'. by rewrite Hm. }
  assert (Hclean : ∀ k, (∀ t, t ∈ m_data (memtable e) :: ts0 ++ ts1 → t !! k ≠ Some tombstone) →
    ∀ t, t ∈ m_data (memtable e1) :: ts0' ++ ts1 → t !! k ≠ Some tombstone).
  { intros k Hk t Hin. rewrite Hm in Hin. subst ts0'.
    rewrite elem_of_cons, !elem_of_app, list_elem_of_singleton in Hin.
    destruct Hin as [->|[[Hin| ->]|Hin]]; [done| | |]; apply Hk; rewrite elem_of_cons, elem_of_app; auto. }
  destruct (_ <=? _); [|exists ts0', ts1; cbn [snd]; by rewrite Hraw].
  pose proof (compact_ok rf e1 ts0' ts1 Hok1 Hrf) as Hc.
  destruct (compact rf e1) as [[er|] e2]; destruct Hc as [Hm2 Hc].
  - exists ts0', ts1. destruct Hc as [Hok2 _]. cbn [snd]. split_and!; [done| |by rewrite Hm2].
    rewrite <-Hraw. unfold raw. by rewrite Hm2.
  - destruct Hc as (t & Hok2 & _ & Hone & Hlay). exists [], t. split_and!; [done| |].
    + rewrite <-Hraw. unfold raw. cbn [snd reverse layers]. rewrite Hm2.
      change (layers (reverse [])) with (∅ : gmap bytes bytes).
      by rewrite (left_id_L ∅ (∪)), Hlay, live_map_union_live.
    + intros k Hk x Hx. cbn [snd app] in Hx. rewrite Hm2 in Hx. apply elem_of_cons in Hx as [->|Hx].
      { eapply Hclean; [exact Hk|]. by left. }
      pose proof (eo_l1 _ _ _ Hok2) as Hl1. apply Forall2_length in Hl1.
      destruct t as [|y [|]]; [by apply not_elem_of_nil in Hx| |cbn in Hl1; lia].
      apply list_elem_of_singleton in Hx as ->. cbn in Hlay. rewrite (right_id_L ∅ (∪)) in Hlay.
      rewrite Hlay, live_map_lookup. destruct (_ !! k) as [v|]; [|done]. cbn. unfold is_tombstone.
      case_bool_decide; congruence.
Qed.

(** ** Histories *)

Inductive lop := LPut (k v : bytes) | LDelete (k : bytes) | LFlush.

Definition lexec (rf : bytes → rfault) (e : Engine) (op : lop) : Engine :=
  match op with
  | LPut k v => (Put rf k v e).2
  | LDelete k => (Delete rf k e).2
  | LFlush => (Flush e).2
  end.
Definition lrun (rf : bytes → rfault) (ops : list lop) (e : Engine) : Engine := foldl (lexec rf) e ops.

(** What the operations mean to a client; a put of the sentinel value is a
    delete. *)
Definition lspec (m : gmap bytes bytes) (op : lop) : gmap bytes bytes :=
  match op with
  | LPut k v => if is_tombstone v then delete k m else <[k := v]> m
  | LDelete k => delete k m
  | LFlush => m
  end.

Definition lop_ok (op : lop) : Prop :=
  match op with LPut k v => entry_ok (k, v) | LDelete k => Zlen k < 2 ^ 32 | LFlush => True end.

(** The operation may leave a tombstone for [k]. *)
Definition deletes (k : bytes) (op : lop) : bool :=
  match op with
  | LPut k' v => bool_decide (k' = k) && is_tombstone v
  | LDelete k' => bool_decide (k' = k)
  | LFlush => false
  end.

Lemma live_map_insert m k v :
  live_map (<[k := v]> m) = if is_tombstone v then delete k (live_map m) else <[k := v]> (live_map m).
Proof.
  apply map_eq. intros q. rewrite live_map_lookup.
  destruct (is_tombstone v) eqn:E; destruct (decide (k = q)) as [->|Hne];
    rewrite ?lookup_insert_eq, ?lookup_delete_eq, ?lookup_insert_ne, ?lookup_delete_ne, ?live_map_lookup by done;
    cbn; rewrite ?E; done.
Qed.

Lemma lexec_mem_ok rf e ts0 ts1 k v m :
  engine_ok e ts0 ts1 → rf_clean rf → entry_ok (k, v) →
  m_data m = <[k := v]> (m_data (memtable e)) →
  let e' := (maybeFlush rf (with_mem e m)).2 in
  ∃ ts0' ts1', engine_ok e' ts0' ts1' ∧
    live_map (raw e' ts0' ts1') = lspec (live_map (raw e ts0 ts1)) (LPut k v) ∧
    (∀ q, (q = k → v ≠ tombstone) →
          (∀ t, t ∈ m_data (memtable e) :: ts0 ++ ts1 → t !! q ≠ Some tombstone) →
          ∀ t, t ∈ m_data (memtable e') :: ts0' ++ ts1' → t !! q ≠ Some tombstone).
Proof.
  intros Hok Hrf Hkv Hm. assert (Hok1 : engine_ok (with_mem e m) ts0 ts1).
  { destruct Hok. split; cbn; try done. rewrite Hm. by apply map_Forall_insert_2. }
  destruct (maybeFlush_ok rf _ ts0 ts1 Hok1 Hrf) as (ts0' & ts1' & H1 & H2 & H3).
  exists ts0', ts1'. split_and!; [done| |].
  - rewrite H2. unfold raw. cbn [with_mem memtable]. rewrite Hm, <-insert_union_l. apply live_map_insert.
  - intros q Hq Hc. apply H3. intros t Ht. apply elem_of_cons in Ht as [->|Ht].
    + cbn [with_mem memtable]. rewrite Hm. destruct (decide (k = q)) as [->|Hne].
      * rewrite lookup_insert_eq. intros [= E]. by apply Hq.
      * rewrite lookup_insert_ne by done. apply Hc. by left.
    + apply Hc. by right.
Qed.

Lemma tombstone_Zlen : Zlen tombstone = 10.
Proof. done. Qed.

Lemma lexec_ok rf e ts0 ts1 op :
  engine_ok e ts0 ts1 → rf_clean rf → lop_ok op →
  ∃ ts0' ts1', engine_ok (lexec rf e op) ts0' ts1' ∧
    live_map (raw (lexec rf e op) ts0' ts1') = lspec (live_map (raw e ts0 ts1)) op ∧
    (∀ q, deletes q op = false →
          (∀ t, t ∈ m_data (memtable e) :: ts0 ++ ts1 → t !! q ≠ Some tombstone) →
          ∀ t, t ∈ m_data (memtable (lexec rf e op)) :: ts0' ++ ts1' → t !! q ≠ Some tombstone).
Proof.
  intros Hok Hrf Hop. destruct op as [k v|k|]; cbn [lexec].
  - destruct (lexec_mem_ok rf e ts0 ts1 k v (mem_put k v (memtable e))) as (a & b & H1 & H2 & H3); [done..|].
    exists a, b. split_and!; [done|done|]. intros q Hq. apply H3. intros -> ->.
    cbn [deletes] in Hq. by rewrite bool_decide_eq_true_2 in Hq.
  - destruct (lexec_mem_ok rf e ts0 ts1 k tombstone (mem_delete k (memtable e))) as (a & b & H1 & H2 & H3).
    { done. } { done. } { split; [done|]. cbn [snd]. rewrite tombstone_Zlen. lia. } { done. }
    exists a, b. split_and!; [done|done|]. intros q Hq. apply H3. intros ->.
    cbn [deletes] in Hq. by rewrite bool_decide_eq_true_2 in Hq.
  - unfold Flush. destruct (_ =? _); [by exists ts0, ts1|].
    pose proof (flush_memtable_ok e ts0 ts1 Hok) as Hf.
    destruct (flush_memtable e) as [r e1]; destruct Hf as (ts0' & Hok1 & Hraw & Hr).
    exists ts0', ts1. split_and!; [done|cbn [snd]; by rewrite Hraw|].
    intros q _ Hc t Ht. destruct r; destruct Hr as (Hm & _ & ->); cbn [snd] in Ht; rewrite Hm in Ht; [by apply Hc|].
    rewrite elem_of_cons, !elem_of_app, list_elem_of_singleton in Ht.
    destruct Ht as [->|[[Ht| ->]|Ht]]; [done| | |]; apply Hc; rewrite elem_of_cons, elem_of_app; auto.
Qed.

Lemma lrun_ok rf ops e ts0 ts1 :
  engine_ok e ts0 ts1 → rf_clean rf → Forall lop_ok ops →
  ∃ ts0' ts1', engine_ok (lrun rf ops e) ts0' ts1' ∧
    live_map (raw (lrun rf ops e) ts0' ts1') = foldl lspec (live_map (raw e ts0 ts1)) ops ∧
    (∀ q, Forall (λ op, deletes q op = false) ops →
          (∀ t, t ∈ m_data (memtable e) :: ts0 ++ ts1 → t !! q ≠ Some tombstone) →
          ∀ t, t ∈ m_data (memtable (lrun rf ops e)) :: ts0' ++ ts1' → t !! q ≠ Some tombstone).
Proof.
  intros Hok Hrf Hops. revert e ts0 ts1 Hok. induction Hops as [|op ops Hop _ IH]; intros e ts0 ts1 Hok.
  { by exists ts0, ts1. }
  destruct (lexec_ok rf e ts0 ts1 op Hok Hrf Hop) as (a & b & H1 & H2 & H3).
  destruct (IH _ _ _ H1) as (a' & b' & H1' & H2' & H3'). exists a', b'. split_and!; [done| |].
  - change (lrun rf (op :: ops) e) with (lrun rf ops (lexec rf e op)). by rewrite H2', H2.
  - intros q Hq Hc. apply Forall_cons in Hq as [Hq1 Hq2]. apply (H3' q Hq2). by apply H3.
Qed.

Lemma Open_engine_ok d fs : engine_ok (Open d fs) [] [].
Proof. split; cbn; try done; try lia. Qed.

(** ** Reads *)

(** The newest table with a live value for the key; tombstones do not stop
    the search. *)
Definition first_live (ts : list (gmap bytes bytes)) (k : bytes) : option bytes :=
  foldr (λ t acc, match live (t !! k) with Some v => Some v | None => acc end) None ts.

Lemma first_hit_spec d rf ssts ts k :
  Forall2 (sst_ok d) ssts ts → (∀ p, rf p = ROk) →
  first_hit d rf ssts k = Ret (first_live ts k).
Proof.
  intros H Hrf. induction H as [|sst t ssts ts Hs _ IH]; [done|].
  cbn [first_hit first_live foldr]. rewrite (sst_get_spec d rf sst t k Hs (Hrf _)).
  by destruct (live (t !! k)).
Qed.

Lemma first_live_app ts us k :
  first_live (ts ++ us) k = match first_live ts k with Some v => Some v | None => first_live us k end.
Proof.
  unfold first_live. induction ts as [|t ts IH]; cbn [app foldr]; [done|].
  destruct (live (t !! k)); [done|exact IH].
Qed.

Lemma Get_spec rf k e ts0 ts1 :
  engine_ok e ts0 ts1 → (∀ p, rf p = ROk) →
  Get rf k e = Ret (match m_data (memtable e) !! k with
                    | Some v => live (Some v)
                    | None => first_live (reverse ts0 ++ ts1) k
                    end).
Proof.
  intros [H0 H1 _ _ _ _ _] Hrf. unfold Get. destruct (m_data (memtable e) !! k) as [v|]; [done|].
  apply Forall2_reverse in H0. rewrite (first_hit_spec _ rf _ _ k H0 Hrf), (first_hit_spec _ rf _ _ k H1 Hrf).
  rewrite first_live_app. by destruct (first_live (reverse ts0) k).
Qed.

Lemma first_live_layers ts k :
  (∀ t, t ∈ ts → t !! k ≠ Some tombstone) → first_live ts k = live (layers ts !! k).
Proof.
  induction ts as [|t ts IH]; intros H; [done|].
  cbn [first_live layers foldr]. fold (first_live ts k). fold (layers ts).
  rewrite lookup_union, IH by (intros; apply H; by right).
  specialize (H t ltac:(by left)). destruct (t !! k) as [v|] eqn:E; [|by destruct (layers ts !! k)].
  assert (Ht : is_tombstone v = false) by (apply bool_decide_eq_false_2; congruence).
  cbn. rewrite Ht. destruct (layers ts !! k); cbn; by rewrite Ht.
Qed.

(** When no table has a tombstone for the key, the search is the lookup of
    the contents. *)
Lemma Get_exact rf k e ts0 ts1 :
  engine_ok e ts0 ts1 → (∀ p, rf p = ROk) →
  (∀ t, t ∈ ts0 ++ ts1 → t !! k ≠ Some tombstone) →
  Get rf k e = Ret (live_map (raw e ts0 ts1) !! k).
Proof.
  intros Hok Hrf Hc. rewrite (Get_spec rf k e ts0 ts1 Hok Hrf), live_map_lookup.
  unfold raw. rewrite lookup_union. rewrite <-layers_app.
  rewrite first_live_layers.
  - destruct (m_data (memtable e) !! k) as [v|]; [by destruct (layers _ !! k)|].
    by destruct (layers _ !! k).
  - intros t Ht. apply Hc. rewrite elem_of_app, elem_of_reverse in Ht. by rewrite elem_of_app.
Qed.

(** ** Directories whose system calls all succeed *)

Lemma writeEntries_fault_free es w f err w' f' :
  writeEntries es w f = (err, w', f') → fault_free f → wb_err w = false →
  err = false ∧ wb_err w' = false ∧ fault_free f'.
Proof.
  revert w f. induction es as [|e es IH]; intros w f H Hf He; [by injection H as <- <- <-|].
  cbn [writeEntries] in H. unfold writeEntry in H.
  destruct (bufio_Write (entry_header e) w f) as [[e1 w1] f1] eqn:E1.
  apply bufio_Write_fault_free in E1 as (-> & He1 & Hf1); [|done..].
  destruct (bufio_Write e.1 w1 f1) as [[e2 w2] f2] eqn:E2.
  apply bufio_Write_fault_free in E2 as (-> & He2 & Hf2); [|done..].
  destruct (bufio_Write e.2 w2 f2) as [[e3 w3] f3] eqn:E3.
  apply bufio_Write_fault_free in E3 as (-> & He3 & Hf3); [|done..].
  by eapply IH.
Qed.

Lemma flushToSSTable_fault_free p es d :
  ∃ d', flushToSSTable p es d [] = (Ret (sst_of p es), d', []).
Proof.
  unfold flushToSSTable. cbn [tail].
  destruct (writeEntries es NewWriter _) as [[e1 w1] f1] eqn:E1.
  apply writeEntries_fault_free in E1 as (-> & He1 & Hf1); [|done..].
  destruct (bufio_Flush w1 f1) as [[e2 w2] f2] eqn:E2.
  apply bufio_Flush_fault_free in E2 as (-> & He2 & Hf2); [|done..].
  destruct (file_Sync f2) as [e3 f3] eqn:E3. apply file_Sync_fault_free in E3 as [-> [Hf3 Hc3]]; [|done].
  assert (Hf : f_faults (file_Close f3).2 = []) by (unfold file_Close, next_fault; by rewrite Hc3, Hf3).
  rewrite Hf. eexists. reflexivity.
Qed.

Lemma flush_memtable_fault_free e :
  faults e = [] → (flush_memtable e).1 = None ∧ faults (flush_memtable e).2 = [].
Proof.
  intros Hf. unfold flush_memtable. rewrite Hf.
  by destruct (flushToSSTable_fault_free (l0_name (nextID e + 1)) (sorted (memtable e)) (dir e)) as [d' ->].
Qed.

Lemma Flush_step e ts0 ts1 :
  engine_ok e ts0 ts1 → faults e = [] → m_size (memtable e) ≠ 0 →
  engine_ok (Flush e).2 (ts0 ++ [m_data (memtable e)]) ts1 ∧ memtable (Flush e).2 = newMemTable ∧
  faults (Flush e).2 = [] ∧ length (l0 (Flush e).2) = S (length (l0 e)).
Proof.
  intros Hok Hf Hs. unfold Flush, bytesUsed. replace (_ =? 0) with false by (symmetry; by apply Z.eqb_neq).
  pose proof (flush_memtable_ok e ts0 ts1 Hok) as H.
  destruct (flush_memtable_fault_free e Hf) as [H1 H2].
  destruct (flush_memtable e) as [r e1]. cbn [fst snd] in *. subst r.
  by destruct H as (ts0' & Hok1 & _ & Hm & Hl & ->).
Qed.

(** A write that does not fill the memtable only touches the memtable. *)
Lemma maybeFlush_small rf e : m_size (memtable e) < memTableSizeLimit → maybeFlush rf e = (None, e).
Proof. intros H. unfold maybeFlush, bytesUsed. by replace (_ <? _) with true by (symmetry; lia). Qed.

(** ** Properties *)

(** C21: The engine stores a map. Any sequence of puts, deletes and flushes,
    with any failures of the writes to disk and of the opening of tables
    during compaction, leaves a consistent engine whose contents, newest
    entry first and without tombstones, are the map the operations
    describe. An error reported by an operation does not undo it. *)
Theorem lsm_contents rf d fs ops :
  rf_clean rf → Forall lop_ok ops →
  ∃ ts0 ts1, engine_ok (lrun rf ops (Open d fs)) ts0 ts1 ∧
    live_map (raw (lrun rf ops (Open d fs)) ts0 ts1) = foldl lspec ∅ ops.
Proof.
  intros Hrf Hops. destruct (lrun_ok rf ops _ _ _ (Open_engine_ok d fs) Hrf Hops) as (a & b & H1 & H2 & _).
  exists a, b. split; [done|]. rewrite H2. done.
Qed.

(** Three puts and a delete with a failing table write in between. *)
Definition ex_lops : list lop :=
  [LPut (bs "a") (bs "1"); LFlush; LPut (bs "a") (bs "2"); LFlush; LDelete (bs "b"); LPut (bs "c") (bs "3"); LFlush].
Definition ex_lfaults : list fault := [FOk; FOk; FOk; FOk; FOk; FFail 2; FOk].

Lemma lsm_contents_witness :
  l0 (lrun (λ _, ROk) ex_lops (Open ∅ ex_lfaults)) ≠ [] ∧
  ∃ ts0 ts1, engine_ok (lrun (λ _, ROk) ex_lops (Open ∅ ex_lfaults)) ts0 ts1 ∧
    live_map (raw (lrun (λ _, ROk) ex_lops (Open ∅ ex_lfaults)) ts0 ts1) = foldl lspec ∅ ex_lops.
Proof.
  split; [vm_compute; discriminate|]. apply (lsm_contents (λ _, ROk) ∅ ex_lfaults ex_lops).
  - done.
  - repeat constructor.
Defined.

(** Reads of keys that were never deleted are exact. Whatever flushes,
    compactions and write failures happened, [Get] returns the value of the
    last put of such a key, and nothing for a key never written. *)
Theorem lsm_get_undeleted rf d fs ops k :
  (∀ p, rf p = ROk) → Forall lop_ok ops → Forall (λ op, deletes k op = false) ops →
  Get rf k (lrun rf ops (Open d fs)) = Ret (foldl lspec ∅ ops !! k).
Proof.
  intros Hrf Hops Hdel. assert (Hcl : rf_clean rf) by (intros p n; by rewrite Hrf).
  destruct (lrun_ok rf ops _ _ _ (Open_engine_ok d fs) Hcl Hops) as (a & b & H1 & H2 & H3).
  rewrite (Get_exact rf k _ a b H1 Hrf), H2; [done|].
  intros t Ht. apply (H3 k Hdel); [|by right]. intros t' Ht'.
  by apply list_elem_of_singleton in Ht' as ->.
Qed.

Lemma lsm_get_undeleted_witness :
  Get (λ _, ROk) (bs "a") (lrun (λ _, ROk) ex_lops (Open ∅ ex_lfaults)) = Ret (Some (bs "2")).
Proof.
  apply (lsm_get_undeleted (λ _, ROk) ∅ ex_lfaults ex_lops (bs "a")).
  - done.
  - repeat constructor.
  - repeat constructor.
Defined.

(** Compaction is correct. From any reachable state, a compaction that
    reports success leaves level 0 empty and at most one table on level 1,
    and afterwards [Get] is exact on every key, deleted keys included. *)
Theorem lsm_compact_exact rf d fs ops e k :
  (∀ p, rf p = ROk) → Forall lop_ok ops →
  compact rf (lrun rf ops (Open d fs)) = (None, e) →
  l0 e = [] ∧ (length (l1 e) ≤ 1)%nat ∧ Get rf k e = Ret (foldl lspec ∅ ops !! k).
Proof.
  intros Hrf Hops Hc. assert (Hcl : rf_clean rf) by (intros p n; by rewrite Hrf).
  destruct (lrun_ok rf ops _ _ _ (Open_engine_ok d fs) Hcl Hops) as (a & b & H1 & H2 & _).
  pose proof (compact_ok rf _ a b H1 Hcl) as Hco. rewrite Hc in Hco.
  destruct Hco as (Hm & t & Hok & Hl0 & Hone & Hlay). split; [done|]. split; [done|].
  rewrite (Get_exact rf k e [] t Hok Hrf).
  - change (foldl lspec ∅ ops) with (foldl lspec (live_map (raw (Open d fs) [] [])) ops). rewrite <-H2.
    unfold raw. rewrite Hm, Hlay. change (layers (reverse [])) with (∅ : gmap bytes bytes).
    by rewrite (left_id_L ∅ (∪)), live_map_union_live.
  - intros x Hx. pose proof (eo_l1 _ _ _ Hok) as Hl1. apply Forall2_length in Hl1.
    destruct t as [|y [|]]; [by apply not_elem_of_nil in Hx| |cbn in Hl1; lia].
    apply list_elem_of_singleton in Hx as ->. cbn in Hlay. rewrite (right_id_L ∅ (∪)) in Hlay.
    rewrite Hlay, live_map_lookup. destruct (_ !! k) as [v|]; [|done]. cbn. unfold is_tombstone.
    case_bool_decide; congruence.
Qed.

Definition ex_dels : list lop :=
  [LPut (bs "a") (bs "1"); LPut (bs "b") (bs "2"); LFlush; LDelete (bs "a"); LFlush].

Lemma lsm_compact_exact_witness :
  let e := (compact (λ _, ROk) (lrun (λ _, ROk) ex_dels (Open ∅ []))).2 in
  l0 e = [] ∧ (length (l1 e) ≤ 1)%nat ∧ Get (λ _, ROk) (bs "a") e = Ret None.
Proof.
  intros e. apply (lsm_compact_exact (λ _, ROk) ∅ [] ex_dels e (bs "a")).
  - done.
  - repeat constructor.
  - vm_compute. reflexivity.
Defined.

(** A flushed tombstone does not hide older values. [Get] treats a
    tombstone found in a table like a miss and goes on to older tables, so
    after put, flush, delete, flush the deleted key is readable again, for
    every key and value that fit the memtable. *)
Theorem lsm_deleted_key_returns rf d k v :
  (∀ p, rf p = ROk) → v ≠ tombstone → entry_ok (k, v) →
  0 < Zlen k + Zlen v < memTableSizeLimit → Zlen k + 10 < memTableSizeLimit →
  let ops := [LPut k v; LFlush; LDelete k; LFlush] in
  foldl lspec ∅ ops !! k = None ∧ Get rf k (lrun rf ops (Open d [])) = Ret (Some v).
Proof.
  intros Hrf Hv Hkv Hlen Hlen2 ops.
  assert (Ht : is_tombstone v = false) by by apply bool_decide_eq_false_2.
  split. { unfold ops. cbn [foldl lspec]. rewrite Ht. apply lookup_delete_eq. }
  pose proof (Zlen_nonneg k).
  set (e1 := with_mem (Open d []) (mem_put k v newMemTable)).
  assert (H1 : engine_ok e1 [] []).
  { split; cbn; try done; try lia. by apply map_Forall_insert_2. }
  destruct (Flush_step e1 [] [] H1 eq_refl) as (H2 & Hm2 & Hf2 & _); [cbn; lia|].
  set (e2 := (Flush e1).2) in *.
  set (e3 := with_mem e2 (mem_delete k newMemTable)).
  assert (H3 : engine_ok e3 [<[k := v]> ∅] []).
  { destruct H2. split; cbn; try done. apply map_Forall_insert_2; [|done].
    split; [apply Hkv|]. cbn [snd]. rewrite tombstone_Zlen. lia. }
  destruct (Flush_step e3 [<[k := v]> ∅] [] H3 Hf2) as (H4 & Hm4 & _).
  { cbn. change (Zlen tombstone) with 10. lia. }
  assert (Hrun : lrun rf ops (Open d []) = (Flush e3).2).
  { unfold lrun, ops. cbn [foldl lexec]. unfold Put, Delete.
    change (with_mem (Open d []) (mem_put k v (memtable (Open d [])))) with e1.
    rewrite (maybeFlush_small rf e1) by (cbn; lia). cbn [snd]. fold e2. rewrite Hm2. fold e3.
    rewrite maybeFlush_small; [done|]. cbn. change (Zlen tombstone) with 10. lia. }
  rewrite Hrun, (Get_spec rf k _ _ [] H4 Hrf), Hm4. cbn [newMemTable m_data].
  rewrite lookup_empty. cbn [app]. rewrite app_nil_r. cbn [e3 with_mem memtable mem_delete m_data newMemTable].
  cbn [reverse rev_append first_live foldr]. rewrite !lookup_insert_eq. cbn [live].
  by rewrite Ht.
Qed.

Lemma lsm_deleted_key_returns_witness :
  foldl lspec ∅ [LPut (bs "a") (bs "1"); LFlush; LDelete (bs "a"); LFlush] !! (bs "a") = None ∧
  Get (λ _, ROk) (bs "a") (lrun (λ _, ROk) [LPut (bs "a") (bs "1"); LFlush; LDelete (bs "a"); LFlush] (Open ∅ []))
  = Ret (Some (bs "1")).
Proof.
  apply (lsm_deleted_key_returns (λ _, ROk) ∅ (bs "a") (bs "1")); try done.
Defined.

(** Table round trip. A map flushed to a table is read back whole by
    [readAll], and [get] on the table is the lookup in the map with
    tombstones reading as absent; the key-range check never hides a key. *)
Theorem lsm_table_roundtrip rf p m d fs sst d' fs' :
  (∀ q, rf q = ROk) → map_Forall (λ k v, entry_ok (k, v)) m →
  flushToSSTable p (sort_entries (map_to_list m)) d fs = (Ret sst, d', fs') →
  readAll d' rf sst = Ret (sort_entries (map_to_list m)) ∧
  ∀ k, sst_get d' rf sst k = Ret (live (m !! k)).
Proof.
  intros Hrf Hm H. pose proof H as Hfl. apply flush_map_ok in H as (Hp & Hs & _); [|done]. split.
  - apply flushToSSTable_spec in Hfl as (_ & -> & f & Hf & Hc).
    unfold readAll, dir_open. rewrite Hrf, sst_of_path, Hf, Hc. cbn [s_data].
    rewrite readAll_loop_spec; [done| |lia]. by apply entries_of_map.
  - intros k. by apply sst_get_spec.
Qed.

Definition ex_table : gmap bytes bytes := <[bs "a" := bs "1"]> (<[bs "b" := tombstone]> (<[[] := bs "0"]> ∅)).

Lemma lsm_table_roundtrip_witness :
  ∃ d, readAll d (λ _, ROk) (sst_of (l0_name 1) (sort_entries (map_to_list ex_table)))
       = Ret (sort_entries (map_to_list ex_table)) ∧
    ∀ k, sst_get d (λ _, ROk) (sst_of (l0_name 1) (sort_entries (map_to_list ex_table))) k
       = Ret (live (ex_table !! k)).
Proof.
  destruct (flushToSSTable_fault_free (l0_name 1) (sort_entries (map_to_list ex_table)) ∅) as [d E].
  exists d. apply (lsm_table_roundtrip (λ _, ROk) (l0_name 1) ex_table ∅ [] _ d []).
  - done.
  - unfold ex_table. do 3 (apply map_Forall_insert_2; [split; apply Z.ltb_lt; vm_compute; reflexivity|]).
    apply map_Forall_empty.
  - exact E.
Defined.

(** The tables after a successful [compact], and after a successful write. *)
Lemma compact_tables rf e e' :
  compact rf e = (None, e') → memtable e' = memtable e ∧ l0 e' = [] ∧ (length (l1 e') ≤ 1)%nat.
Proof.
  unfold compact. destruct (read_merged rf e) as [merged| |]; [|done..].
  destruct (sort_entries _) as [|x xs]; [intros [= <-]; cbn; split_and!; [done|done|lia]|].
  destruct (flushToSSTable _ _ _ _) as [[[sst| |] d] fs]; [|done..]. intros [= <-]. cbn. split_and!; [done|done|lia].
Qed.

Lemma maybeFlush_tables rf e e' :
  maybeFlush rf e = (None, e') →
  if bytesUsed (memtable e) <? memTableSizeLimit then e' = e
  else memtable e' = newMemTable ∧ Zlen (l0 e') < maxL0Tables ∧
       ((l0 e' = [] ∧ (length (l1 e') ≤ 1)%nat) ∨ (l1 e' = l1 e ∧ ∃ sst, l0 e' = l0 e ++ [sst])).
Proof.
  unfold maybeFlush. destruct (_ <? memTableSizeLimit); [by intros [= <-]|]. unfold flush_memtable.
  destruct (flushToSSTable _ _ _ _) as [[[sst| |] d] fs]; [|done..]. cbn [l0]. destruct (maxL0Tables <=? _) eqn:E; kv_bool.
  - intros (Hm & Hl0 & Hl1)%compact_tables. rewrite Hm, Hl0. split; [done|]. split; [done|]. by left.
  - intros [= <-]. cbn. split; [done|]. split; [lia|]. right. eauto.
Qed.

(** Level 0 stays bounded under puts and deletes. In whatever state the
    engine is, a put or delete that reports success does one of two things. If
    the memtable stays below its limit, only the memtable changes. Otherwise
    the memtable has been written out and is empty, level 0 has fewer than
    [maxL0Tables] tables, and either one table has been added to it or it has
    been merged into at most one table of level 1. *)
Theorem lsm_l0_bound rf k v e m e' :
  (m = mem_put k v (memtable e) ∧ Put rf k v e = (None, e')) ∨
  (m = mem_delete k (memtable e) ∧ Delete rf k e = (None, e')) →
  if bytesUsed m <? memTableSizeLimit then e' = with_mem e m
  else memtable e' = newMemTable ∧ Zlen (l0 e') < maxL0Tables ∧
       ((l0 e' = [] ∧ (length (l1 e') ≤ 1)%nat) ∨ (l1 e' = l1 e ∧ ∃ sst, l0 e' = l0 e ++ [sst])).
Proof. intros [[-> H]|[-> H]]; exact (maybeFlush_tables _ _ _ H). Qed.

(** Three tables have been flushed, and the memtable, whose size counts the
    overwritten values too, is one byte below its limit. The next put flushes
    it and merges the four tables into one. *)
Definition ex_full : Engine :=
  let put k e := (Flush (Put (λ _, ROk) k (bs "1") e).2).2 in
  with_mem (put (bs "c") (put (bs "b") (put (bs "a") (Open ∅ [])))) (mkMem {[bs "d" := bs "0"]} (memTableSizeLimit - 1)).

Lemma lsm_l0_bound_witness :
  Stats ex_full = (memTableSizeLimit - 1, 3, 0) ∧
  ∃ e', Put (λ _, ROk) (bs "d") (bs "1") ex_full = (None, e') ∧ Zlen (l0 e') < maxL0Tables ∧ Stats e' = (0, 0, 1).
Proof.
  split; [vm_compute; reflexivity|]. destruct (Put (λ _, ROk) (bs "d") (bs "1") ex_full) as [r e'] eqn:E. exists e'.
  assert (Hr : r = None ∧ Stats e' = (0, 0, 1)).
  { change r with ((r, e').1). change e' with ((r, e').2) at 2. rewrite <-E. split; vm_compute; reflexivity. }
  destruct Hr as [Hr Hst]. subst r. split; [reflexivity|]. split; [|exact Hst].
  exact (proj1 (proj2 (lsm_l0_bound (λ _, ROk) (bs "d") (bs "1") ex_full _ e' (or_introl (conj eq_refl E))))).
Defined.
