(* ===== verification/Replication.v ===== *)
(** * Replication: internal/replication/leader.go and follower.go

    The leader serves its log from the offset a follower reports; the
    follower decodes the records, applies them to its own store and keeps the
    offset in a file. The connection is a byte stream that may end anywhere, and
    a crash may tear the follower's log and undo renames of the offset file. *)
From stdpp Require Import prelude gmap.
From Stdlib Require Import ZArith Lia Strings.Byte.
From S2P Require Import Prelude GoIO Wal Store.
Local Open Scope Z_scope.

(** ** 64-bit offsets on the wire and in the file *)

Definition i64 (z : Z) : Z := if z <? 2 ^ 63 then z else z - 2 ^ 64.

(** [binary.Write] and [binary.Read] of an [int64], little-endian. *)
Definition put_i64 (v : Z) : bytes := put_le 8 (u64 v).
Definition read_i64 (r : Stream) : outcome io_error Z * Stream :=
  let '(b, r) := ReadFull 8 r in
  (match b with Ret b => Ret (i64 (get_le b)) | Err e => Err e | Panic => Panic end, r).

(** ** The leader *)

(** The prologue of [handleFollower]: the offset the follower asks for starts
    a streamer of the log; nothing if the follower hangs up first. *)
Definition handleFollower (conn : Stream) : option Streamer :=
  match (read_i64 conn).1 with
  | Ret fromOffset => Some (stream_start (if fromOffset <? 0 then 0 else fromOffset))
  | _ => None
  end.

(** ** The follower *)

Record Follower := mkFollower {
  f_store : Store;
  f_offset : option bytes;   (* the offset file *)
  f_past : list (option bytes); (* what it was before the renames since the last start *)
  f_wfaults : list bool      (* which of the coming writes of it fail; past the end none does *)
}.

Inductive follower_error :=
| ReadOffsetErr | DialErr | SendErr | DecodeErr (e : wal_error) | ApplyErr (e : walop_error) | PersistErr.

(** [openFails] is an error other than a missing file. *)
Definition readOffset (openFails : bool) (f : Follower) : outcome () Z :=
  match f_offset f with
  | None => Ret 0
  | Some content =>
      if openFails then Err ()
      else match (read_i64 (mkStream content EOF)).1 with Ret o => Ret o | _ => Err () end
  end.

(** The file is replaced by a rename, so a failure leaves the old offset. The
    directory is not fsynced: until the next start the rename may be lost. *)
Definition writeOffset (offset : Z) (f : Follower) : bool * Follower :=
  match f_wfaults f with
  | true :: fl => (true, mkFollower (f_store f) (f_offset f) (f_past f) fl)
  | fl => (false, mkFollower (f_store f) (Some (put_i64 offset)) (f_offset f :: f_past f) (tail fl))
  end.

(** The switch on the record type. *)
Definition apply_to_store (rec : WRecord) (s : Store) : option walop_error * Store :=
  if bool_decide (Type_ rec = RecordPut) then Put (Key rec) (Value rec) s
  else if bool_decide (Type_ rec = RecordDelete) then Delete (Key rec) s
  else (None, s).

(** The loop of [runOnce]; nothing is an exhausted budget. *)
Fixpoint follow (fuel : nat) (cancelled : bool) (offset : Z) (r : Stream) (f : Follower) :
    option (option follower_error * Follower) :=
  match fuel with
  | O => None
  | S fuel =>
      let '(rec, frameSize, r) := ReadRecord r in
      match rec with
      | Panic => None
      | Err e =>
          match e with
          | WIO EOF => Some (None, f)
          | _ => Some (if cancelled then None else Some (DecodeErr e), f)
          end
      | Ret rec =>
          let '(e, s) := apply_to_store rec (f_store f) in
          let f := mkFollower s (f_offset f) (f_past f) (f_wfaults f) in
          match e with
          | Some e => Some (Some (ApplyErr e), f)
          | None =>
              let offset := offset + frameSize in
              let '(e, f) := writeOffset offset f in
              if e : bool then Some (Some PersistErr, f)
              else follow fuel cancelled offset r f
          end
      end
  end.

(** What [runOnce] meets: failures to read the offset file, to dial or to
    send, the leader's stream for the bytes sent to it, and cancellation. *)
Record Session := mkSession {
  s_openFails : bool;
  s_dialFails : bool;
  s_sendFails : bool;
  s_stream : bytes → Stream;
  s_cancelled : bool
}.

(** Every record takes at least one byte of the stream. *)
Definition runOnce (x : Session) (f : Follower) : option (option follower_error * Follower) :=
  match readOffset (s_openFails x) f with
  | Ret offset =>
      if s_dialFails x then Some (Some DialErr, f)
      else if s_sendFails x then Some (Some SendErr, f)
      else
        let r := s_stream x (put_i64 offset) in
        follow (S (length (s_data r))) (s_cancelled x) offset r f
  | _ => Some (Some ReadOffsetErr, f)
  end.

(** ** The system: one follower of a leader whose log will hold [recs] *)

(** The stream of a leader that sent some of what it has from the requested
    offset on. *)
Definition leader_stream (content : bytes) (req : bytes) (r : Stream) : Prop :=
  match handleFollower (mkStream req EOF) with
  | Some st => s_data r `prefix_of` drop (Z.to_nat (pos st)) content
  | None => s_data r = []
  end.

(** What a crash leaves: an image of the follower's log and an offset file.
    [any_crash] is what a disk may do. With [whole_crash] the log ends between
    two records, and with [kept_crash] no rename of the offset file is lost
    either. *)
Definition any_crash (f : Follower) (img : bytes) (offset : option bytes) : Prop := True.
Definition whole_crash (f : Follower) (img : bytes) (offset : option bytes) : Prop :=
  ∃ l, Replay (Opened (mkStream img EOF)) = Ret l ∧ img = encodes l.
Definition kept_crash (f : Follower) (img : bytes) (offset : option bytes) : Prop :=
  whole_crash f img offset ∧ offset = f_offset f.

(** A session, or the end of the process, by a crash or not, and its next
    start. [C] says which crashes happen. *)
Inductive fstep (C : Follower → bytes → option bytes → Prop) (recs : list WRecord) (f : Follower) : Follower → Prop :=
| f_session x e f' :
    (∀ req, leader_stream (encodes recs) req (s_stream x req)) →
    runOnce x f = Some (e, f') → fstep C recs f f'
| f_crash img offset s' wfaults faults :
    crash_image (file (log (f_store f))) img → offset ∈ f_offset f :: f_past f → C f img offset →
    Store.Open (mkDisk (Some (mkFile img (length img) faults false)) false false EOF) = Ret s' →
    fstep C recs f (mkFollower s' offset [] wfaults).

(** ** Lemmas *)

Lemma i64_u64 v : 0 ≤ v < 2 ^ 63 → i64 (u64 v) = v.
Proof. intros Hv. unfold u64, i64. rewrite Z.mod_small by lia. by replace (v <? 2 ^ 63) with true by lia. Qed.

(** Offsets survive the wire and the file. *)
Lemma read_put_i64 v rest e :
  0 ≤ v < 2 ^ 63 → read_i64 (mkStream (put_i64 v ++ rest) e) = (Ret v, mkStream rest e).
Proof.
  intros Hv. unfold read_i64, put_i64. rewrite (ReadFull_app' 8) by by rewrite Zlen_put_le.
  rewrite get_put_le. change (256 ^ Z.of_nat 8) with (2 ^ 64).
  rewrite (Z.mod_small (u64 v)) by (apply Z.mod_pos_bound; lia). by rewrite i64_u64.
Qed.

Lemma handleFollower_put v : 0 ≤ v < 2 ^ 63 → handleFollower (mkStream (put_i64 v) EOF) = Some (stream_start v).
Proof.
  intros Hv. unfold handleFollower. rewrite <-(app_nil_r (put_i64 v)), read_put_i64 by done. cbn [fst].
  by replace (v <? 0) with false by lia.
Qed.

(** Applying a record is one write of the store, or nothing. *)
Lemma apply_to_store_cases rec s :
  (∃ op, apply_to_store rec s = sexec op s ∧ (∀ d, apply_record d (rec_of op) = apply_record d rec) ∧
     (rec_ok rec → rec_ok (rec_of op))) ∨
  (apply_to_store rec s = (None, s) ∧ ∀ d, apply_record d rec = d).
Proof.
  unfold apply_to_store, apply_record. case_bool_decide as H1.
  { left. exists (SPut (Key rec) (Value rec)). split; [done|]. split; [done|].
    unfold rec_ok. by rewrite !Zlen_encode_body. }
  case_bool_decide as H2; [left|by right].
  exists (SDelete (Key rec)). split; [done|]. split; [done|].
  unfold rec_ok. rewrite !Zlen_encode_body. cbn [rec_of Key Value]. pose proof (Zlen_nonneg (Value rec)).
  change (Zlen (@nil Byte.byte)) with 0. lia.
Qed.

(** Applying a record twice in a row is applying it once. *)
Lemma apply_record_idem d rec : apply_record (apply_record d rec) rec = apply_record d rec.
Proof.
  unfold apply_record. case_bool_decide; [apply insert_insert_eq|]. case_bool_decide; [apply delete_delete_eq|done].
Qed.

(** A store in memory and what its log recovers to after a crash. *)
Lemma sexec_effect base op s att ack :
  log_inv base (log s, att, ack) →
  let r := sexec op s in
  ∃ ack', log_inv base (log r.2, att ++ [rec_of op], ack') ∧ (ack ≤ ack')%nat ∧
    (r.1 = None → ack' = S (length att) ∧ data r.2 = apply_record (data s) (rec_of op)) ∧
    (r.1 ≠ None → ack' = ack ∧ data r.2 = data s).
Proof.
  intros Hinv r. pose proof (sexec_log_inv base op s att ack Hinv) as H. pose proof Hinv as (_ & _ & _ & Hle & _).
  subst r. rewrite length_app, Nat.add_1_r in H. rewrite sexec_unfold in *.
  destruct (Append _ _) as [[e|] l]; [by exists ack|].
  destruct (Sync l) as [[e|] l']; [by exists ack|]. exists (S (length att)). split; [done|]. split; [lia|done].
Qed.

(** The budget of [runOnce] suffices on every stream, whoever sends it. *)
Lemma follow_total fuel cancelled offset r f :
  (length (s_data r) < fuel)%nat → follow fuel cancelled offset r f ≠ None.
Proof.
  revert offset r f. induction fuel as [|fuel IH]; intros offset r f Hf; [lia|]. cbn [follow].
  pose proof (ReadRecord_not_Panic r) as Hp. destruct (ReadRecord r) as [[[rec|e|] n] r'] eqn:E; [| |done].
  - destruct (apply_to_store _ _) as [[e|] s]; [done|]. destruct (writeOffset _ _) as [[|] f']; [done|].
    apply IH. apply ReadRecord_consumes in E as (c & Hd & Hc & Hn & _).
    rewrite Hd, length_app in Hf. unfold Zlen in Hc. lia.
  - by destruct e as [[]| | | | | ].
Qed.

Lemma runOnce_total x f : runOnce x f ≠ None.
Proof.
  unfold runOnce. destruct (readOffset _ _); [|done..]. destruct (s_dialFails x); [done|].
  destruct (s_sendFails x); [done|]. apply follow_total. lia.
Qed.

Definition contents : Type := gmap bytes bytes.

Section following.
Context (recs : list WRecord) (Hok : Forall rec_ok recs) (Hlen : Zlen (encodes recs) < 2 ^ 63).

(** The offset of the [o]-th record. *)
Definition off (o : nat) : Z := Zlen (encodes (take o recs)).

(** The offset file names record [o]. *)
Definition offset_at (offset : option bytes) (o : nat) : Prop :=
  match offset with None => o = O | Some b => b = put_i64 (off o) end.

(** What the map may be while the offset file names record [o]: [Sat o]. A
    record may be applied before and after the offset moves on. *)
Context (Sat : nat → contents → Prop).
Context (Sat_next : ∀ o d rec, recs !! o = Some rec → Sat o d → Sat (S o) (apply_record d rec)).
Context (Sat_again : ∀ o d rec, recs !! o = Some rec → Sat o d → Sat o (apply_record d rec)).

Definition recovers (base att : list WRecord) (ack o : nat) : Prop :=
  ∀ k, (ack ≤ k)%nat → Sat o (rebuild (base ++ take k att)).

Definition stored (s : Store) (o : nat) : Prop :=
  Sat o (data s) ∧
  ∃ base att ack, log_inv base (log s, att, ack) ∧ Forall rec_ok (base ++ att) ∧ recovers base att ack o.

Definition finv_at (f : Follower) (o : nat) : Prop :=
  offset_at (f_offset f) o ∧ (o ≤ length recs)%nat ∧
  Forall (λ b, ∃ o', offset_at b o' ∧ (o' ≤ o)%nat) (f_past f) ∧ stored (f_store f) o.

Lemma off_range o : 0 ≤ off o < 2 ^ 63.
Proof.
  unfold off. pose proof (Zlen_nonneg (encodes (take o recs))). split; [done|].
  assert (encodes recs = encodes (take o recs) ++ encodes (drop o recs)) as E by (by rewrite <-encodes_app, take_drop).
  rewrite E, Zlen_app in Hlen. pose proof (Zlen_nonneg (encodes (drop o recs))). lia.
Qed.

Lemma drop_off o : drop (Z.to_nat (off o)) (encodes recs) = encodes (drop o recs).
Proof.
  rewrite <-(take_drop o recs) at 1. rewrite encodes_app. apply drop_app_length'.
  unfold off, Zlen. lia.
Qed.

Lemma off_S o rec : recs !! o = Some rec → off (S o) = off o + Zlen (encode rec).
Proof. intros H. unfold off. by rewrite (take_S_r _ _ rec), encodes_snoc, Zlen_app. Qed.

(** One record is applied, successfully or not. *)
Lemma apply_stored s o rec :
  stored s o → recs !! o = Some rec →
  let '(e, s') := apply_to_store rec s in stored s' o ∧ (e = None → stored s' (S o)).
Proof.
  intros (Hd & base & att & ack & Hinv & Hall & Hrec) Ho. pose proof (Forall_lookup_1 _ _ _ _ Hok Ho) as Hrok.
  destruct (apply_to_store_cases rec s) as [(op & -> & Happ & Hopok)|[-> Hnop]].
  - destruct (sexec_effect base op s att ack Hinv) as (ack' & Hinv' & _ & Hok' & Hfail).
    destruct (sexec op s) as [e s']. cbn [fst snd] in *. pose proof Hinv as (_ & _ & _ & Hack & _).
    pose proof (Hrec (length att) Hack) as Hfull. rewrite firstn_all in Hfull.
    assert (Hlast : ∀ k, (length att < k)%nat →
      rebuild (base ++ take k (att ++ [rec_of op])) = apply_record (rebuild (base ++ att)) rec).
    { intros k Hk. rewrite firstn_all2 by (rewrite length_app; cbn; lia). rewrite app_assoc, rebuild_app. cbn. by rewrite Happ. }
    assert (Hall' : Forall rec_ok (base ++ att ++ [rec_of op])).
    { rewrite app_assoc. apply Forall_app. split; [done|]. apply List.Forall_cons; [by apply Hopok|done]. }
    destruct e as [e|].
    + destruct (Hfail ltac:(done)) as [-> Hds]. split; [|done]. split; [by rewrite Hds|].
      exists base, (att ++ [rec_of op]), ack. split_and!; [done..|]. intros k Hk.
      destruct (decide (k ≤ length att)%nat); [rewrite take_app_le by done; by apply Hrec|].
      rewrite Hlast by lia. by apply Sat_again.
    + destruct (Hok' eq_refl) as [-> Hds].
      assert (H : ∀ o', (∀ d, Sat o d → Sat o' (apply_record d rec)) → stored s' o').
      { intros o' Hs. split; [rewrite Hds, Happ; by apply Hs|]. exists base, (att ++ [rec_of op]), (S (length att)).
        split_and!; [done..|]. intros k Hk. rewrite Hlast by lia. by apply Hs. }
      split; [apply H|intros _; apply H]; intros d; [by apply Sat_again|by apply Sat_next].
  - split; [split; [done|]; by exists base, att, ack|]. intros _.
    split; [rewrite <-(Hnop (data s)); by apply Sat_next|]. exists base, att, ack. split_and!; [done..|].
    intros k Hk. rewrite <-(Hnop (rebuild _)). apply Sat_next; [done|]. by apply Hrec.
Qed.

(** After a record is applied the offset file moves on, or stays. *)
Lemma writeOffset_finv f o s :
  finv_at f o → (S o ≤ length recs)%nat → stored s o → stored s (S o) →
  let '(e, f') := writeOffset (off (S o)) (mkFollower s (f_offset f) (f_past f) (f_wfaults f)) in
  finv_at f' (if e then o else S o).
Proof.
  intros (Ha & _ & Hp & _) Ho Hs HS. unfold writeOffset. cbn [f_wfaults f_store f_offset f_past].
  assert (Hkeep : ∀ fl, finv_at (mkFollower s (f_offset f) (f_past f) fl) o) by (intros fl; split_and!; [done|lia|done..]).
  assert (Hmove : ∀ fl, finv_at (mkFollower s (Some (put_i64 (off (S o)))) (f_offset f :: f_past f) fl) (S o)).
  { intros fl. split_and!; [done..| |done]. cbn. apply List.Forall_cons; [exists o; split; [done|lia]|].
    eapply Forall_impl; [exact Hp|]. intros b (o' & ? & ?). exists o'. split; [done|lia]. }
  destruct (f_wfaults f) as [|[|] fl]; auto.
Qed.

(** The loop keeps the invariant on every stream cut from the leader's log,
    and ends. *)
Lemma follow_finv fuel cancelled r f o :
  finv_at f o → s_data r `prefix_of` encodes (drop o recs) → (length (s_data r) < fuel)%nat →
  ∃ e f' o', follow fuel cancelled (off o) r f = Some (e, f') ∧ finv_at f' o' ∧ (o ≤ o')%nat.
Proof.
  revert r f o. induction fuel as [|fuel IH]; intros r f o Hf Hr Hfu; [lia|]. cbn [follow].
  assert (Herr : ∀ er n r', ReadRecord r = (Err er, n, r') → ∃ e f' o',
    (let '(rec, frameSize, r0) := ReadRecord r in
     match rec with
     | Panic => None
     | Err e => match e with WIO EOF => Some (None, f) | _ => Some (if cancelled then None else Some (DecodeErr e), f) end
     | Ret rec0 => let '(e, s) := apply_to_store rec0 (f_store f) in
         let f0 := mkFollower s (f_offset f) (f_past f) (f_wfaults f) in
         match e with
         | Some e => Some (Some (ApplyErr e), f0)
         | None => let offset := off o + frameSize in let '(e, f1) := writeOffset offset f0 in
             if e : bool then Some (Some PersistErr, f1) else follow fuel cancelled offset r0 f1
         end
     end) = Some (e, f') ∧ finv_at f' o' ∧ (o ≤ o')%nat).
  { intros er n r' ->. destruct er as [[]| | | | |]; eauto 10. }
  destruct (drop o recs) as [|rec rest] eqn:Ed.
  { apply prefix_nil_inv in Hr. destruct r as [d e]. cbn in Hr. subst d. eapply Herr. reflexivity. }
  assert (Ho : recs !! o = Some rec) by (by rewrite <-(Nat.add_0_r o), <-lookup_drop, Ed).
  pose proof (Forall_lookup_1 _ _ _ _ Hok Ho) as Hrok.
  assert (Hd : drop (S o) recs = rest) by (rewrite (drop_S _ rec) in Ed by done; by injection Ed).
  unfold encodes in Hr. cbn [fmap list_fmap concat] in Hr. fold (encodes rest) in Hr.
  apply prefix_of_app_inv in Hr as [[Hp Hl]|(q & Hq & Hqr)].
  { destruct r as [d e]. destruct (ReadRecord_torn rec d e Hrok Hp Hl) as (er & n & r' & HR). by eapply Herr. }
  destruct r as [d e]. cbn [s_data] in *. subst d. rewrite ReadRecord_encode by done.
  pose proof Hf as (Hf1 & Hf2 & Hf3 & Hf4). pose proof (apply_stored (f_store f) o rec Hf4 Ho) as Ha.
  destruct (apply_to_store rec (f_store f)) as [[er|] s].
  - eexists _, _, o. split; [done|]. split; [|lia]. split_and!; [done..|apply Ha].
  - destruct Ha as [Ha1 Ha2]. rewrite <-(off_S o rec Ho).
    pose proof (writeOffset_finv f o s Hf (lookup_lt_Some _ _ _ Ho) Ha1 (Ha2 eq_refl)) as Hw.
    destruct (writeOffset _ _) as [[|] f1]; [eexists _, _, o; split; [done|split; [done|lia]]|].
    destruct (IH (mkStream q e) f1 (S o) Hw) as (e' & f' & o' & H5 & H6 & H7); [by rewrite Hd| |].
    { cbn [s_data]. rewrite length_app in Hfu. assert (0 < length (encode rec))%nat; [|lia].
      pose proof (Zlen_encode rec). pose proof (Zlen_nonneg (Key rec)). pose proof (Zlen_nonneg (Value rec)). unfold Zlen in *. lia. }
    eexists _, _, o'. split; [done|]. split; [done|lia].
Qed.

Lemma readOffset_at f o openFails offset :
  offset_at (f_offset f) o → readOffset openFails f = Ret offset → offset = off o.
Proof.
  unfold offset_at, readOffset. destruct (f_offset f) as [b|]; [|by intros -> [= <-]]. intros ->.
  destruct openFails; [done|]. rewrite <-(app_nil_r (put_i64 _)), read_put_i64 by apply off_range. by intros [= <-].
Qed.

Lemma leader_stream_at o r :
  leader_stream (encodes recs) (put_i64 (off o)) r → s_data r `prefix_of` encodes (drop o recs).
Proof. unfold leader_stream. rewrite handleFollower_put by apply off_range. cbn [pos stream_start]. by rewrite drop_off. Qed.

(** A session ends, whatever happens in it, and keeps the invariant. *)
Lemma runOnce_finv x f o :
  (∀ req, leader_stream (encodes recs) req (s_stream x req)) → finv_at f o →
  ∃ e f' o', runOnce x f = Some (e, f') ∧ finv_at f' o' ∧ (o ≤ o')%nat.
Proof.
  intros Hx Hf. unfold runOnce. destruct (readOffset (s_openFails x) f) as [offset| |] eqn:Ero; [|by eexists _, f, o..].
  apply (readOffset_at f o) in Ero as ->; [|apply Hf].
  destruct (s_dialFails x); [by eexists _, f, o|]. destruct (s_sendFails x); [by eexists _, f, o|].
  apply follow_finv; [done|by apply leader_stream_at|lia].
Qed.

Lemma crash_finv f o img offset s' wfaults faults o' :
  finv_at f o → crash_image (file (log (f_store f))) img → whole_crash f img offset →
  Store.Open (mkDisk (Some (mkFile img (length img) faults false)) false false EOF) = Ret s' →
  offset_at offset o' → (o' ≤ o)%nat → (∀ d, Sat o d → Sat o' d) →
  finv_at (mkFollower s' offset [] wfaults) o'.
Proof.
  intros (_ & H2 & _ & _ & base & att & ack & Hinv & Hall & Hrec) Hci (l & Hl & Himg) HO Ho' Hle Hmono.
  destruct (log_inv_replay base _ att ack _ Hinv Hall Hci) as (k & Hrep & Hk).
  change (Replay _) with (replay_from [] img) in Hl. rewrite Hl in Hrep. injection Hrep as ->.
  set (fl := mkFile img (length img) faults false) in *.
  rewrite (Open_replay fl _ Hl) in HO. injection HO as <-. pose proof (Hmono _ (Hrec k Hk)) as Hs.
  split_and!; [done|lia|constructor|]. split; [done|].
  exists (base ++ take k att), [], O. split; [by apply (log_inv_open (base ++ take k att) fl)|].
  split; [rewrite app_nil_r; apply Forall_app in Hall as [? ?]; apply Forall_app; split; [done|by apply Forall_take]|].
  intros k' _. by rewrite take_nil, app_nil_r.
Qed.

(** Runs in which no rename is lost, and, where older offsets are no problem,
    runs in which some are. *)
Lemma fstep_kept_finv f f' : (∃ o, finv_at f o) → fstep kept_crash recs f f' → ∃ o, finv_at f' o.
Proof.
  intros [o Hf] [x e f1 Hx Hrun|img offset s' wfaults faults Hci _ [Hw ->] HO].
  - destruct (runOnce_finv x f o Hx Hf) as (e' & f'' & o' & Hr & Hf' & _). rewrite Hrun in Hr. injection Hr as -> ->. eauto.
  - exists o. eapply crash_finv; [done..|apply Hf|lia|done].
Qed.

Lemma fstep_whole_finv f f' :
  (∀ o o' d, (o' ≤ o)%nat → Sat o d → Sat o' d) →
  (∃ o, finv_at f o) → fstep whole_crash recs f f' → ∃ o, finv_at f' o.
Proof.
  intros Hmono [o Hf] [x e f1 Hx Hrun|img offset s' wfaults faults Hci Hin Hw HO].
  - destruct (runOnce_finv x f o Hx Hf) as (e' & f'' & o' & Hr & Hf' & _). rewrite Hrun in Hr. injection Hr as -> ->. eauto.
  - assert (Ho : ∃ o', offset_at offset o' ∧ (o' ≤ o)%nat).
    { destruct Hf as (Ha & _ & Hp & _). apply elem_of_cons in Hin as [->|Hin]; [exists o; split; [done|lia]|].
      by apply (proj1 (Forall_forall _ _) Hp). }
    destruct Ho as (o' & Ho' & Hle). exists o'. eapply crash_finv; [done..|]. intros d. by apply Hmono.
Qed.

(** Without failures the whole stream is applied. *)
Lemma follow_all fuel cancelled o f :
  finv_at f o → fault_free (file (log (f_store f))) → wb_err (w (log (f_store f))) = false → f_wfaults f = [] →
  (length (encodes (drop o recs)) < fuel)%nat →
  ∃ f', follow fuel cancelled (off o) (mkStream (encodes (drop o recs)) EOF) f = Some (None, f') ∧
    finv_at f' (length recs).
Proof.
  revert o f. induction fuel as [|fuel IH]; intros o f Hf Hff He Hw Hfu; [lia|]. cbn [follow].
  destruct (drop o recs) as [|rec rest] eqn:Ed.
  { assert (o = length recs) as ->; [|by exists f]. destruct Hf as (_ & ? & _).
    apply (f_equal length) in Ed. rewrite length_drop in Ed. cbn in Ed. lia. }
  assert (Ho : recs !! o = Some rec) by (by rewrite <-(Nat.add_0_r o), <-lookup_drop, Ed).
  pose proof (Forall_lookup_1 _ _ _ _ Hok Ho) as Hrok.
  assert (Hd : drop (S o) recs = rest) by (rewrite (drop_S _ rec) in Ed by done; by injection Ed).
  unfold encodes. cbn [fmap list_fmap concat]. fold (encodes rest). rewrite ReadRecord_encode by done.
  pose proof Hf as (_ & _ & _ & Hf4). pose proof (apply_stored (f_store f) o rec Hf4 Ho) as Ha.
  assert (Hap : (apply_to_store rec (f_store f)).1 = None ∧
    fault_free (file (log (apply_to_store rec (f_store f)).2)) ∧ wb_err (w (log (apply_to_store rec (f_store f)).2)) = false).
  { destruct (apply_to_store_cases rec (f_store f)) as [(op & -> & _)|[-> _]]; [|done].
    destruct (sexec_fault_free op (f_store f) Hff He) as (? & _ & ? & ?). done. }
  destruct (apply_to_store rec (f_store f)) as [er s]. cbn [fst snd] in Hap. destruct Hap as (-> & Hff1 & He1).
  destruct Ha as [Ha1 Ha2]. rewrite <-(off_S o rec Ho).
  pose proof (writeOffset_finv f o s Hf (lookup_lt_Some _ _ _ Ho) Ha1 (Ha2 eq_refl)) as Hwo.
  unfold writeOffset in *. cbn [f_wfaults f_store f_offset f_past] in *. rewrite Hw in *.
  rewrite <-Hd. apply IH; try done. rewrite Hd. unfold encodes in Hfu. cbn [fmap list_fmap concat] in Hfu.
  rewrite length_app in Hfu. fold (encodes rest) in Hfu. assert (0 < length (encode rec))%nat; [|lia].
  pose proof (Zlen_encode rec). pose proof (Zlen_nonneg (Key rec)). pose proof (Zlen_nonneg (Value rec)). unfold Zlen in *. lia.
Qed.

End following.

(** ** What a follower's map may be *)

(** The first [o] records have been applied, or one more. *)
Definition applied_upto (recs : list WRecord) (o : nat) (d : gmap bytes bytes) : Prop :=
  ∃ j, (o ≤ j ≤ S o)%nat ∧ (j ≤ length recs)%nat ∧ d = rebuild (take j recs).

(** Every key is as it was after some record from the [o]-th on. *)
Definition between (recs : list WRecord) (o : nat) (d : gmap bytes bytes) : Prop :=
  ∀ key, ∃ i, (o ≤ i ≤ length recs)%nat ∧ d !! key = rebuild (take i recs) !! key.

Lemma rebuild_S recs o rec :
  recs !! o = Some rec → rebuild (take (S o) recs) = apply_record (rebuild (take o recs)) rec.
Proof. intros Ho. by rewrite (take_S_r _ _ rec), rebuild_app. Qed.

Lemma applied_apply recs o d rec :
  recs !! o = Some rec → applied_upto recs o d → apply_record d rec = rebuild (take (S o) recs).
Proof.
  intros Ho (j & Hj & _ & ->). rewrite (rebuild_S recs o rec Ho).
  assert (j = o ∨ j = S o) as [->| ->] by lia; [done|]. by rewrite (rebuild_S recs o rec Ho), apply_record_idem.
Qed.

Lemma applied_next recs o d rec :
  recs !! o = Some rec → applied_upto recs o d → applied_upto recs (S o) (apply_record d rec).
Proof.
  intros Ho Hd. rewrite (applied_apply recs o d rec Ho Hd). apply lookup_lt_Some in Ho. exists (S o). split_and!; [lia..|done].
Qed.

Lemma applied_again recs o d rec :
  recs !! o = Some rec → applied_upto recs o d → applied_upto recs o (apply_record d rec).
Proof.
  intros Ho Hd. rewrite (applied_apply recs o d rec Ho Hd). apply lookup_lt_Some in Ho. exists (S o). split_and!; [lia..|done].
Qed.

(** A record sets or removes one key, whatever the map was. *)
Lemma apply_record_key rec key :
  (∀ d, apply_record d rec !! key = d !! key) ∨ (∀ d d', apply_record d rec !! key = apply_record d' rec !! key).
Proof.
  unfold apply_record. destruct (decide (key = Key rec)) as [->|Hne].
  - case_bool_decide; [right; intros; by rewrite !lookup_insert_eq|].
    case_bool_decide; [right; intros; by rewrite !lookup_delete_eq|by left].
  - left. intros d. case_bool_decide; [by apply lookup_insert_ne|]. case_bool_decide; [by apply lookup_delete_ne|done].
Qed.

Lemma between_next recs o d rec :
  recs !! o = Some rec → between recs o d → between recs (S o) (apply_record d rec).
Proof.
  intros Ho Hd key. pose proof (lookup_lt_Some _ _ _ Ho) as Hlt. destruct (apply_record_key rec key) as [Hk|Hk].
  - rewrite Hk. destruct (Hd key) as (i & Hi & ->). destruct (decide (i = o)) as [->|Hne]; [|exists i; split; [lia|done]].
    exists (S o). split; [lia|]. by rewrite (rebuild_S recs o rec Ho), Hk.
  - exists (S o). split; [lia|]. rewrite (rebuild_S recs o rec Ho). apply Hk.
Qed.

Lemma between_mono recs o o' d : (o' ≤ o)%nat → between recs o d → between recs o' d.
Proof. intros Hle Hd key. destruct (Hd key) as (i & Hi & E). exists i. split; [lia|done]. Qed.

Lemma between_again recs o d rec :
  recs !! o = Some rec → between recs o d → between recs o (apply_record d rec).
Proof. intros Ho Hd. eapply between_mono; [|by apply between_next]. lia. Qed.

Definition fresh_follower (faults : list fault) (wfaults : list bool) : Follower :=
  mkFollower (mkStore ∅ (Wal.Open (mkFile [] 0 faults false))) None [] wfaults.

Lemma finv_init recs (Sat : nat → contents → Prop) faults wfaults :
  Sat O ∅ → finv_at recs Sat (fresh_follower faults wfaults) O.
Proof.
  intros HS. split_and!; [done|lia|constructor|]. split; [done|].
  exists [], [], O. split; [by apply log_inv_open|]. split; [constructor|]. intros k _. by rewrite take_nil.
Qed.

(** ** Properties *)

(** C19: A follower is a prefix of its leader. Start a fresh follower and run
    any sequence of sessions, each of which may fail at any point and receive
    any part of the leader's log from the reported offset on, with any failures
    of the follower's own log and of its offset file, and of restarts, after a
    crash or not, at which the follower's log ends between two records and no
    rename of the offset file is lost. The follower's map is always the one the
    first [j] records of the leader's log produce, and its offset file names
    record [j] or the one before; so at most the last record is applied again. *)
Theorem replication_prefix recs faults wfaults f :
  Forall rec_ok recs → Zlen (encodes recs) < 2 ^ 63 → rtc (fstep kept_crash recs) (fresh_follower faults wfaults) f →
  ∃ o j, offset_at recs (f_offset f) o ∧ (o ≤ j ≤ S o)%nat ∧ (j ≤ length recs)%nat ∧ data (f_store f) = rebuild (take j recs).
Proof.
  intros Hok Hlen Hrtc. destruct (rtc_invariant _ (λ f, ∃ o, finv_at recs (applied_upto recs) f o) _ _
    (fstep_kept_finv recs Hok Hlen _ (applied_next recs) (applied_again recs)) Hrtc) as [o Ho].
  { exists O. apply finv_init. exists O. split_and!; [lia..|done]. }
  destruct Ho as (H1 & _ & _ & (j & H2 & H3 & H4) & _). by exists o, j.
Qed.

Definition ex_recs : list WRecord := [mkRec RecordPut (bs "k") (bs "1"); mkRec RecordPut (bs "k") (bs "2")].
(** A leader that sends [n] bytes from the requested offset on. *)
Definition ex_session (n : nat) : Session :=
  mkSession false false false (λ req,
    match handleFollower (mkStream req EOF) with
    | Some st => mkStream (take n (drop (Z.to_nat (pos st)) (encodes ex_recs))) EOF
    | None => mkStream [] EOF
    end) false.

(** The stream ends within the second record, and writing the offset file
    fails after the first. *)
Lemma replication_prefix_witness :
  ∃ e f, runOnce (ex_session 25) (fresh_follower [] [true]) = Some (e, f) ∧
  ∃ o j, offset_at ex_recs (f_offset f) o ∧ (o ≤ j ≤ S o)%nat ∧ (j ≤ length ex_recs)%nat ∧
    data (f_store f) = rebuild (take j ex_recs).
Proof.
  destruct (runOnce (ex_session 25) (fresh_follower [] [true])) as [[e f]|] eqn:E; [|vm_compute in E; discriminate].
  exists e, f. split; [reflexivity|]. apply (replication_prefix ex_recs [] [true] f).
  - repeat constructor; vm_compute; discriminate.
  - vm_compute. reflexivity.
  - eapply rtc_once, (f_session _ _ _ (ex_session 25)); [|exact E]. intros req. unfold leader_stream, ex_session. cbn [s_stream].
    destruct (handleFollower _); [apply prefix_take|reflexivity].
Defined.


(** The follower after a session, and after a restart on [img] and [offset]. *)
Definition after (x : Session) (f : Follower) : Follower :=
  match runOnce x f with Some (_, f') => f' | None => f end.
Definition restart (img : bytes) (offset : option bytes) (f : Follower) : Follower :=
  match Store.Open (mkDisk (Some (mkFile img (length img) [] false)) false false EOF) with
  | Ret s => mkFollower s offset [] []
  | _ => f
  end.

Lemma after_step C n f : fstep C ex_recs f (after (ex_session n) f).
Proof.
  unfold after. pose proof (runOnce_total (ex_session n) f) as Ht.
  destruct (runOnce (ex_session n) f) as [[e f']|] eqn:E; [|done]. eapply f_session; [|exact E]. intros req.
  unfold leader_stream, ex_session. cbn [s_stream]. destruct (handleFollower _); [apply prefix_take|reflexivity].
Qed.

Lemma restart_step C recs img offset l f :
  crash_image (file (log (f_store f))) img → offset ∈ f_offset f :: f_past f → C f img offset →
  replay_from [] img = Ret l → fstep C recs f (restart img offset f).
Proof.
  intros Hc Ho HC Hl. unfold restart. pose proof (Open_replay (mkFile img (length img) [] false) l Hl) as HO.
  rewrite HO. by eapply f_crash.
Qed.

(** Both records are applied, and a crash brings the first offset file back. *)
Definition ex_behind : Follower :=
  let f := after (ex_session 100) (fresh_follower [] []) in restart (encodes ex_recs) (Some (put_i64 19)) f.

Lemma ex_behind_run : rtc (fstep whole_crash ex_recs) (fresh_follower [] []) ex_behind.
Proof.
  eapply rtc_l; [apply (after_step _ 100)|]. apply rtc_once. apply (restart_step _ _ _ _ ex_recs).
  - split; [vm_compute; exists []; reflexivity|vm_compute; exists []; reflexivity].
  - apply elem_of_cons. right. apply list_elem_of_In. vm_compute. left. reflexivity.
  - exists ex_recs. split; [vm_compute; reflexivity|reflexivity].
  - vm_compute. reflexivity.
Qed.


(** A follower whose offset is at the end of the log gets nothing more. *)
Lemma end_session recs x f e f' :
  Zlen (encodes recs) < 2 ^ 63 → readOffset false f = Ret (Zlen (encodes recs)) →
  (∀ req, leader_stream (encodes recs) req (s_stream x req)) → runOnce x f = Some (e, f') → f' = f.
Proof.
  intros Hlen Hro Hx. unfold runOnce.
  assert (Ho : readOffset (s_openFails x) f = Ret (Zlen (encodes recs)) ∨ readOffset (s_openFails x) f = Err ()).
  { unfold readOffset in *. destruct (f_offset f); [destruct (s_openFails x); auto|auto]. }
  destruct Ho as [-> | ->]; [|congruence].
  destruct (s_dialFails x); [congruence|]. destruct (s_sendFails x); [congruence|].
  specialize (Hx (put_i64 (Zlen (encodes recs)))). pose proof (Zlen_nonneg (encodes recs)).
  unfold leader_stream in Hx. rewrite handleFollower_put in Hx by lia. cbn [pos stream_start] in Hx.
  rewrite drop_ge in Hx by (unfold Zlen; lia). apply prefix_nil_inv in Hx.
  destruct (s_stream x _) as [d er]. cbn [s_data] in *. subst d. cbn [length follow].
  assert (HR : ∃ er0 n r, ReadRecord (mkStream [] er) = (Err er0, n, r)) by (destruct er; eexists _, _, _; reflexivity).
  destruct HR as (er0 & n & r & ->). destruct er0 as [[]| | | | |]; congruence.
Qed.

(** The fsync of the second record fails and a crash leaves ten bytes of it.
    The record is applied again, behind those bytes, and the follower stops. *)
Definition ex_lost : Follower :=
  let f := after (ex_session 100) (fresh_follower [FOk; FOk; FOk; FFail 0] []) in
  let f := restart (take 29 (encodes ex_recs)) (Some (put_i64 19)) f in
  let f := after (ex_session 100) f in
  restart (take 29 (encodes ex_recs) ++ drop 19 (encodes ex_recs)) (Some (put_i64 38)) f.

(** A torn tail makes a follower diverge for good. Let a crash leave part of
    a record in the follower's log. The follower restarts, receives that record
    again and reports its offset, all without an error; yet after its next
    restart the record is gone, while the offset says that it was applied. So
    whatever sessions with the leader follow, the follower's map stays behind
    the leader's. *)
Theorem replication_torn_diverges :
  rtc (fstep any_crash ex_recs) (fresh_follower [FOk; FOk; FOk; FFail 0] []) ex_lost ∧
  readOffset false ex_lost = Ret (Zlen (encodes ex_recs)) ∧
  data (f_store ex_lost) !! bs "k" = Some (bs "1") ∧ rebuild ex_recs !! bs "k" = Some (bs "2") ∧
  ∀ x e f, (∀ req, leader_stream (encodes ex_recs) req (s_stream x req)) → runOnce x ex_lost = Some (e, f) → f = ex_lost.
Proof.
  split; [|split; [vm_compute; reflexivity|split; [vm_compute; reflexivity|split; [vm_compute; reflexivity|]]]].
  - eapply rtc_l; [apply (after_step _ 100)|]. eapply rtc_l; [apply (restart_step _ _ (take 29 (encodes ex_recs)) (Some (put_i64 19)) (take 1 ex_recs))|].
    + split; [by exists (take 10 (drop 19 (encodes ex_recs)))|by exists (drop 29 (encodes ex_recs))].
    + apply elem_of_cons. left. vm_compute. reflexivity.
    + done.
    + vm_compute. reflexivity.
    + eapply rtc_l; [apply (after_step _ 100)|]. apply rtc_once. apply (restart_step _ _ _ _ (take 1 ex_recs)).
      * split; [vm_compute; exists []; reflexivity|vm_compute; exists []; reflexivity].
      * apply elem_of_cons. left. vm_compute. reflexivity.
      * done.
      * vm_compute. reflexivity.
  - intros x e f. apply end_session; vm_compute; reflexivity.
Qed.
