(* ===== verification/Linearcheck.v ===== *)
(** * Linearcheck: internal/linearcheck/linearcheck.go

    The linearizability checker: the recorder of completed operations, the
    sequential reference state, and the backtracking search, proved to decide
    exactly whether a history has a linearization. *)
From stdpp Require Import prelude gmap sorting.
From Stdlib Require Import ZArith Lia Strings.Byte.
From S2P Require Import Prelude.
Local Open Scope Z_scope.

(** ** Operations *)

(** [OpType] is a [uint8]; the code names three of its values. *)
Inductive OpType := OpPut | OpGet | OpDelete | OpOther (n : Z).

Record Op := mkOp {
  ID : Z;
  OType : OpType;
  Key : bytes;
  Value : bytes;
  Found : bool;
  Start : Z;
  End_ : Z
}.

(** ** Recorder *)

Record Recorder := mkRecorder { ops : list Op; seq : Z }.

(** The new operation's id and start time. *)
Definition Begin (now : Z) (r : Recorder) : Z * Z * Recorder :=
  (seq r + 1, now, mkRecorder (ops r) (seq r + 1)).

Definition record (op : Op) (r : Recorder) : Recorder := mkRecorder (ops r ++ [op]) (seq r).

Definition RecordPut (id start : Z) (key value : bytes) (now : Z) (r : Recorder) : Recorder :=
  record (mkOp id OpPut key value false start now) r.
Definition RecordGet (id start : Z) (key value : bytes) (found : bool) (now : Z) (r : Recorder) : Recorder :=
  record (mkOp id OpGet key value found start now) r.
Definition RecordDelete (id start : Z) (key : bytes) (now : Z) (r : Recorder) : Recorder :=
  record (mkOp id OpDelete key [] false start now) r.

Definition Ops (r : Recorder) : list Op := ops r.

(** ** The sequential reference state *)

Abbreviation kvState := (gmap bytes bytes).

Definition newKVState : kvState := ∅.

(** The next state, or nothing if the observed result does not fit. *)
Definition apply (s : kvState) (op : Op) : option kvState :=
  match OType op with
  | OpPut => Some (<[Key op := Value op]> s)
  | OpDelete => Some (delete (Key op) s)
  | OpGet =>
      match s !! Key op with
      | None => if Found op then None else Some s
      | Some v => if Found op then (if bool_decide (v = Value op) then Some s else None) else None
      end
  | OpOther _ => None
  end.

(** ** The search *)

(** The number of operations that could not be sequenced. *)
Inductive lin_error := NoLinearization (remaining : Z).

Definition earliest_end (op : Op) (rest : list Op) : Z :=
  foldl (λ e o, if End_ o <? e then End_ o else e) (End_ op) rest.

(** The loop over the candidates, with the ones already tried in [pre]. *)
Fixpoint try_ops (chk : kvState → list Op → option lin_error) (state : kvState) (earliest : Z)
    (pre post : list Op) : bool :=
  match post with
  | [] => false
  | op :: post =>
      if earliest <? Start op then try_ops chk state earliest (pre ++ [op]) post
      else match apply state op with
           | None => try_ops chk state earliest (pre ++ [op]) post
           | Some next =>
               match chk next (pre ++ post) with
               | None => true
               | Some _ => try_ops chk state earliest (pre ++ [op]) post
               end
           end
  end.

(** One level of recursion per remaining operation; [None] is a nil error. *)
Fixpoint check (fuel : nat) (state : kvState) (remaining : list Op) : option lin_error :=
  match remaining with
  | [] => None
  | op :: rest =>
      match fuel with
      | O => Some (NoLinearization (Zlen remaining))
      | S fuel =>
          if try_ops (check fuel) state (earliest_end op rest) [] remaining then None
          else Some (NoLinearization (Zlen remaining))
      end
  end.

Definition Check (ops : list Op) : option lin_error :=
  match ops with
  | [] => None
  | _ => check (length ops) newKVState ops
  end.

(** ** The specification *)

(** A sequence of operations whose observed results the sequential store
    reproduces. *)
Fixpoint legal (s : kvState) (lin : list Op) : Prop :=
  match lin with
  | [] => True
  | op :: lin => ∃ s', apply s op = Some s' ∧ legal s' lin
  end.

(** No operation is placed before one that had ended when it started. *)
Definition real_time (lin : list Op) : Prop := StronglySorted (λ a b, ¬ End_ b < Start a) lin.

Definition linearizable (s : kvState) (h : list Op) : Prop :=
  ∃ lin, lin ≡ₚ h ∧ legal s lin ∧ real_time lin.

Definition well_timed (h : list Op) : Prop := Forall (λ op, Start op ≤ End_ op) h.

(** ** Lemmas *)

Lemma earliest_end_le op rest o : o ∈ op :: rest → earliest_end op rest ≤ End_ o.
Proof.
  unfold earliest_end.
  assert (H : ∀ e, foldl (λ e o, if End_ o <? e then End_ o else e) e rest ≤ e ∧
    ∀ o, o ∈ rest → foldl (λ e o, if End_ o <? e then End_ o else e) e rest ≤ End_ o).
  { induction rest as [|x rest IH]; intros e; cbn [foldl].
    { split; [lia|]. intros o' Ho. by apply not_elem_of_nil in Ho. }
    destruct (IH (if End_ x <? e then End_ x else e)) as [IH1 IH2].
    destruct (End_ x <? e) eqn:E; kv_bool; (split; [lia|]);
      intros o' Ho; apply elem_of_cons in Ho as [->|Ho]; [lia|auto|lia|auto]. }
  destruct (H (End_ op)) as [H1 H2]. intros Ho. apply elem_of_cons in Ho as [->|Ho]; auto.
Qed.

Lemma earliest_end_attained op rest : ∃ o, o ∈ op :: rest ∧ earliest_end op rest = End_ o.
Proof.
  unfold earliest_end.
  assert (H : ∀ e, foldl (λ e o, if End_ o <? e then End_ o else e) e rest = e ∨
    ∃ o, o ∈ rest ∧ foldl (λ e o, if End_ o <? e then End_ o else e) e rest = End_ o).
  { induction rest as [|x rest IH]; intros e; cbn [foldl]; [by left|].
    destruct (IH (if End_ x <? e then End_ x else e)) as [->|(o & Ho & ->)].
    - destruct (_ <? _); [right; exists x; split; [apply elem_of_cons; by left|done]|by left].
    - right. exists o. split; [apply elem_of_cons; by right|done]. }
  destruct (H (End_ op)) as [->|(o & Ho & ->)]; [exists op|exists o]; split; try done; apply elem_of_cons; auto.
Qed.

(** The loop succeeds exactly when some candidate leads to success. *)
Lemma try_ops_true chk s earliest pre post :
  try_ops chk s earliest pre post = true ↔
  ∃ a op b next, post = a ++ op :: b ∧ Start op ≤ earliest ∧ apply s op = Some next ∧
    chk next ((pre ++ a) ++ b) = None.
Proof.
  revert pre. induction post as [|x post IH]; intros pre; cbn [try_ops].
  { split; [done|]. intros ([|? ?] & ? & ? & ? & ? & _); done. }
  assert (Hrec : try_ops chk s earliest (pre ++ [x]) post = true ↔
    ∃ a op b next, x :: post = (x :: a) ++ op :: b ∧ Start op ≤ earliest ∧ apply s op = Some next ∧
      chk next ((pre ++ x :: a) ++ b) = None).
  { rewrite IH. split; intros (a & op & b & next & H1 & H2 & H3 & H4); exists a, op, b, next.
    - rewrite <-(app_assoc pre [x] a) in H4. by rewrite H1.
    - injection H1 as H1. by rewrite <-(app_assoc pre [x] a). }
  assert (Hsplit : (∃ a op b next, x :: post = a ++ op :: b ∧ Start op ≤ earliest ∧
      apply s op = Some next ∧ chk next ((pre ++ a) ++ b) = None) ↔
    (∃ next, Start x ≤ earliest ∧ apply s x = Some next ∧ chk next (pre ++ post) = None) ∨
    try_ops chk s earliest (pre ++ [x]) post = true).
  { rewrite Hrec. split.
    - intros (a & op & b & next & H1 & H2 & H3 & H4). destruct a as [|y a].
      + injection H1 as <- <-. left. exists next. by rewrite app_nil_r in H4.
      + injection H1 as <- H1. right. exists a, op, b, next. by rewrite H1.
    - intros [(next & H2 & H3 & H4)|(a & op & b & next & H)].
      + exists [], x, post, next. by rewrite app_nil_r.
      + by exists (x :: a), op, b, next. }
  rewrite Hsplit. destruct (earliest <? Start x) eqn:E; kv_bool.
  - split; [by right|]. intros [(next & ? & _)|H]; [lia|done].
  - destruct (apply s x) as [next|]; [|split; [by right|]; intros [(next & _ & ? & _)|H]; done].
    destruct (chk next (pre ++ post)) eqn:Ec.
    + split; [by right|]. intros [(n & _ & [= <-] & ?)|H]; [congruence|done].
    + split; [|done]. intros _. left. by exists next.
Qed.

Lemma check_sound fuel s h : check fuel s h = None → linearizable s h.
Proof.
  revert s h. induction fuel as [|fuel IH]; intros s [|op rest] H; try done.
  1,2: exists []; split_and!; [done|done|constructor].
  cbn [check] in H. destruct (try_ops _ _ _ _ _) eqn:E; [|done].
  apply try_ops_true in E as (a & x & b & next & Hpost & Hst & Happ & Hc).
  apply IH in Hc as (lin & Hp & Hl & Hrt). exists (x :: lin). split_and!.
  - rewrite Hpost, Hp. cbn. by rewrite Permutation_middle.
  - by exists next.
  - constructor; [done|]. rewrite Hp. apply Forall_forall. intros o Ho.
    pose proof (earliest_end_le op rest o). rewrite Hpost in H0. cbn in Ho.
    assert (o ∈ a ++ x :: b) as Hin by (rewrite elem_of_app, elem_of_cons; apply elem_of_app in Ho as []; auto).
    specialize (H0 Hin). lia.
Qed.

Lemma check_complete fuel s h :
  well_timed h → (length h ≤ fuel)%nat → linearizable s h → check fuel s h = None.
Proof.
  revert s h. induction fuel as [|fuel IH]; intros s [|op rest] Hwt Hf (lin & Hp & Hl & Hrt); try done.
  1: cbn in Hf; lia.
  cbn [check]. destruct lin as [|x lin]; [by apply Permutation_nil_l in Hp|].
  assert (Hx : x ∈ op :: rest) by (rewrite <-Hp; apply elem_of_cons; by left).
  apply list_elem_of_split in Hx as (a & b & Hab).
  assert (Hlin : lin ≡ₚ a ++ b).
  { rewrite Hab, <-Permutation_middle in Hp. by apply Permutation_cons_inv in Hp. }
  destruct Hl as (next & Happ & Hl). apply StronglySorted_inv in Hrt as [Hrt Hall].
  assert (Ht : try_ops (check fuel) s (earliest_end op rest) [] (op :: rest) = true); [|by rewrite Ht].
  apply try_ops_true. exists a, x, b, next. split_and!; [done| |done|].
  - destruct (earliest_end_attained op rest) as (o & Ho & ->). rewrite <-Hp in Ho.
    apply elem_of_cons in Ho as [->|Ho].
    + unfold well_timed in Hwt. rewrite Hab, Forall_app, Forall_cons in Hwt. by destruct Hwt as (_ & ? & _).
    + rewrite Forall_forall in Hall. specialize (Hall o Ho). lia.
  - apply IH.
    + unfold well_timed in *. rewrite Hab, Forall_app, Forall_cons in Hwt. apply Forall_app. by destruct Hwt as (? & _ & ?).
    + rewrite Hab, length_app in Hf. cbn in *. rewrite length_app. lia.
    + by exists lin.
Qed.

(** ** Properties *)

(** C12: The checker decides linearizability. For a history whose operations
    end no earlier than they start, [Check] returns nil exactly when the
    operations can be ordered so that the sequential store reproduces every
    observed result and no operation precedes one that ended before it
    started. *)
Theorem linearcheck_correct h :
  well_timed h → (Check h = None ↔ linearizable newKVState h).
Proof.
  intros Hwt. unfold Check. destruct h as [|op rest].
  { split; [|done]. intros _. exists []. split_and!; [done|done|constructor]. }
  split; [apply check_sound|]. apply check_complete; [done|lia].
Qed.

(** Two overlapping reads that see the write and its absence. *)
Definition ex_history : list Op :=
  [mkOp 1 OpPut (bs "k") (bs "v") false 0 10; mkOp 2 OpGet (bs "k") (bs "v") true 1 3;
   mkOp 3 OpGet (bs "k") [] false 2 9].

Lemma linearcheck_correct_witness :
  Check ex_history = None ∧ (Check ex_history = None ↔ linearizable newKVState ex_history).
Proof.
  split; [vm_compute; reflexivity|]. apply (linearcheck_correct ex_history).
  repeat constructor; cbn; lia.
Defined.
