(* ===== verification/GoText.v ===== *)
(** * GoText: the text routines of Go's standard library the program uses

    UTF-8 decoding and encoding, [strings.Fields], [strings.ToUpper],
    [strings.ReplaceAll], [strconv.Atoi] and the verb [%q]. Strings are byte
    lists, as in Go. *)
From stdpp Require Import prelude.
From Stdlib Require Import ZArith Lia Strings.Byte.
From S2P Require Import Prelude.
Local Open Scope Z_scope.

(** ** UTF-8 *)

Definition RuneError : Z := 0xFFFD.

Definition in_range (lo hi : Z) (b : Byte.byte) : bool := (lo <=? byteZ b) && (byteZ b <=? hi).

(** [utf8.DecodeRuneInString]: the rune and its width; an invalid sequence is
    [RuneError] of width one. *)
Definition DecodeRune (p : bytes) : Z * nat :=
  match p with
  | [] => (RuneError, O)
  | b0 :: p =>
      let z0 := byteZ b0 in
      let lo := if z0 =? 0xE0 then 0xA0 else if z0 =? 0xF0 then 0x90 else 0x80 in
      let hi := if z0 =? 0xED then 0x9F else if z0 =? 0xF4 then 0x8F else 0xBF in
      let low b := Z.land (byteZ b) 0x3F in
      if z0 <? 0x80 then (z0, 1%nat)
      else if (z0 <? 0xC2) || (0xF4 <? z0) then (RuneError, 1%nat)
      else match p with
      | [] => (RuneError, 1%nat)
      | b1 :: p =>
          if negb (in_range lo hi b1) then (RuneError, 1%nat)
          else if z0 <=? 0xDF then (Z.lor (Z.shiftl (Z.land z0 0x1F) 6) (low b1), 2%nat)
          else match p with
          | [] => (RuneError, 1%nat)
          | b2 :: p =>
              if negb (in_range 0x80 0xBF b2) then (RuneError, 1%nat)
              else if z0 <=? 0xEF then
                (Z.lor (Z.shiftl (Z.land z0 0x0F) 12) (Z.lor (Z.shiftl (low b1) 6) (low b2)), 3%nat)
              else match p with
              | [] => (RuneError, 1%nat)
              | b3 :: _ =>
                  if negb (in_range 0x80 0xBF b3) then (RuneError, 1%nat)
                  else (Z.lor (Z.shiftl (Z.land z0 0x07) 18)
                         (Z.lor (Z.shiftl (low b1) 12) (Z.lor (Z.shiftl (low b2) 6) (low b3))), 4%nat)
              end
          end
      end
  end.

(** [utf8.AppendRune]. *)
Definition EncodeRune (r : Z) : bytes :=
  let r := if (r <? 0) || (0x10FFFF <? r) || ((0xD800 <=? r) && (r <=? 0xDFFF)) then RuneError else r in
  let tail k := Zbyte (0x80 + Z.land (Z.shiftr r k) 0x3F) in
  if r <? 0x80 then [Zbyte r]
  else if r <? 0x800 then [Zbyte (0xC0 + Z.shiftr r 6); tail 0]
  else if r <? 0x10000 then [Zbyte (0xE0 + Z.shiftr r 12); tail 6; tail 0]
  else [Zbyte (0xF0 + Z.shiftr r 18); tail 12; tail 6; tail 0].

(** The runes of [for _, c := range s] with their widths; [skip] counts the
    bytes of the current rune still to pass over. *)
Fixpoint runes (skip : nat) (s : bytes) : list (Z * nat * Byte.byte) :=
  match s with
  | [] => []
  | b :: s' =>
      match skip with
      | S skip => runes skip s'
      | O => let '(r, w) := DecodeRune s in (r, w, b) :: runes (pred w) s'
      end
  end.

(** ** strings *)

(** [unicode.IsSpace]. *)
Definition IsSpace (r : Z) : bool :=
  existsb (Z.eqb r) [9; 10; 11; 12; 13; 32; 0x85; 0xA0; 0x1680; 0x2028; 0x2029; 0x202F; 0x205F; 0x3000]
  || ((0x2000 <=? r) && (r <=? 0x200A)).

Definition emit (cur : bytes) : list bytes := match cur with [] => [] | _ => [cur] end.

(** [strings.Fields]: the loop with the current field [cur]; [skip] bytes of
    the current rune remain, which belong to the field if [keep]. *)
Fixpoint fields_go (keep : bool) (skip : nat) (cur s : bytes) : list bytes :=
  match s with
  | [] => emit cur
  | b :: s' =>
      match skip with
      | S skip => fields_go keep skip (if keep then cur ++ [b] else cur) s'
      | O =>
          let '(r, w) := DecodeRune s in
          if IsSpace r then emit cur ++ fields_go false (pred w) [] s'
          else fields_go true (pred w) (cur ++ [b]) s'
      end
  end.
Definition Fields (s : bytes) : list bytes := fields_go false 0 [] s.

(** [strings.ToUpper]. The case mapping of runes beyond ASCII is the table
    [upper] of package unicode. *)
Definition upper_rune (upper : Z → Z) (r : Z) : Z :=
  if r <? 0x80 then (if (97 <=? r) && (r <=? 122) then r - 32 else r) else upper r.
Definition ToUpper (upper : Z → Z) (s : bytes) : bytes :=
  concat ((λ x : Z * nat * Byte.byte, EncodeRune (upper_rune upper x.1.1)) <$> runes 0 s).

(** [strings.ReplaceAll(s, old, new)] for a non-empty [old]. *)
Fixpoint replace_go (skip : nat) (old new s : bytes) : bytes :=
  match s with
  | [] => []
  | b :: s' =>
      match skip with
      | S skip => replace_go skip old new s'
      | O => if bool_decide (old `prefix_of` s) then new ++ replace_go (pred (length old)) old new s'
             else b :: replace_go 0 old new s'
      end
  end.
Definition ReplaceAll (s old new : bytes) : bytes := replace_go 0 old new s.

(** ** strconv *)

(** [strconv.Atoi]: an optional sign, then decimal digits within the range of
    a 64-bit [int]. *)
Definition Atoi (s : bytes) : option Z :=
  let '(neg, ds) :=
    match s with
    | Byte.x2d :: ds => (true, ds)
    | Byte.x2b :: ds => (false, ds)
    | _ => (false, s)
    end in
  if bool_decide (ds = []) || negb (forallb is_digit ds) then None
  else
    let v := if neg : bool then - digits_val 0 ds else digits_val 0 ds in
    if (- 2 ^ 63 <=? v) && (v <? 2 ^ 63) then Some v else None.

(** Lower-case hexadecimal with [n] digits. *)
Definition hex_digit (d : Z) : Byte.byte := Zbyte (if d <? 10 then 48 + d else 87 + d).
Fixpoint hex (n : nat) (z : Z) : bytes :=
  match n with
  | O => []
  | S n => hex n (z / 16) ++ [hex_digit (z mod 16)]
  end.

(** [strconv.Quote], the verb [%q]. Which runes beyond ASCII are printable is
    the table [print] of package unicode. *)
Definition quote_rune (print : Z → bool) (x : Z * nat * Byte.byte) : bytes :=
  let '(r, w, b) := x in
  if (bool_decide (w = 1%nat)) && (r =? RuneError) then bs "\x" ++ hex 2 (byteZ b)
  else if (r =? 34) || (r =? 92) then [Byte.x5c; Zbyte r]
  else if (if r <? 0x80 then (32 <=? r) && (r <? 127) else print r) then EncodeRune r
  else if r =? 7 then bs "\a"
  else if r =? 8 then bs "\b"
  else if r =? 12 then bs "\f"
  else if r =? 10 then bs "\n"
  else if r =? 13 then bs "\r"
  else if r =? 9 then bs "\t"
  else if r =? 11 then bs "\v"
  else if (r <? 32) || (r =? 127) then bs "\x" ++ hex 2 r
  else if r <? 0x10000 then bs "\u" ++ hex 4 r
  else bs "\U" ++ hex 8 r.
Definition Quote (print : Z → bool) (s : bytes) : bytes :=
  [Byte.x22] ++ concat (quote_rune print <$> runes 0 s) ++ [Byte.x22].

(** ** Lemmas *)

Ltac decode_cases :=
  repeat match goal with
  | |- context [match ?p with [] => _ | _ :: _ => _ end] => destruct p; cbn [fst snd]
  | |- context [if ?c then _ else _] => destruct c eqn:?; cbn [fst snd]
  end.

Lemma DecodeRune_width p : p ≠ [] → (1 ≤ (DecodeRune p).2 ≤ length p)%nat.
Proof. intros Hp. destruct p as [|b0 p]; [done|]. unfold DecodeRune. decode_cases; cbn [length]; lia. Qed.

(** A byte below 0x80 ends whatever sequence comes before it. *)
Lemma DecodeRune_app_ascii p b q :
  p ≠ [] → byteZ b < 0x80 → DecodeRune (p ++ b :: q) = DecodeRune p.
Proof.
  intros Hp Hb.
  assert (Hlow : ∀ lo hi, 0x80 ≤ lo → in_range lo hi b = false).
  { intros lo hi ?. unfold in_range. apply andb_false_iff. left. lia. }
  assert (Hlo : ∀ z : Z, 0x80 ≤ if z =? 0xE0 then 0xA0 else if z =? 0xF0 then 0x90 else 0x80)
    by (intros z; repeat case_match; lia).
  destruct p as [|b0 [|b1 [|b2 [|b3 p]]]]; [done|..]; cbn [app]; unfold DecodeRune.
  - destruct (_ <? _); [done|]. destruct (_ || _); [done|]. by rewrite Hlow by done.
  - destruct (_ <? _); [done|]. destruct (_ || _); [done|]. destruct (negb _); [done|].
    destruct (_ <=? _); [done|]. by rewrite Hlow by done.
  - destruct (_ <? _); [done|]. destruct (_ || _); [done|]. destruct (negb _); [done|].
    destruct (_ <=? _); [done|]. destruct (negb _); [done|]. destruct (_ <=? _); [done|].
    by rewrite Hlow by done.
  - done.
Qed.

Lemma DecodeRune_ascii b p : byteZ b < 0x80 → DecodeRune (b :: p) = (byteZ b, 1%nat).
Proof. intros Hb. unfold DecodeRune. by replace (byteZ b <? 0x80) with true by lia. Qed.

Lemma DecodeRune_cont b p :
  Forall (λ c, 0x80 ≤ byteZ c) (take (pred (DecodeRune (b :: p)).2) p).
Proof.
  assert (Hin : ∀ lo hi c, negb (in_range lo hi c) = false → 0x80 ≤ lo → 0x80 ≤ byteZ c).
  { intros lo hi c Hc. apply negb_false_iff in Hc. unfold in_range in Hc. lia. }
  assert (Hlo : ∀ z : Z, 0x80 ≤ if z =? 0xE0 then 0xA0 else if z =? 0xF0 then 0x90 else 0x80)
    by (intros z; repeat case_match; lia).
  unfold DecodeRune. destruct (_ <? _); [constructor|]. destruct (_ || _); [constructor|].
  destruct p as [|b1 p]; [constructor|]. destruct (negb _) eqn:E1; [constructor|].
  destruct (_ <=? _); [cbn; by repeat constructor; eauto|].
  destruct p as [|b2 p]; [constructor|]. destruct (negb _) eqn:E2 in |- *; [constructor|].
  destruct (_ <=? _); [cbn; repeat constructor; eapply Hin; eauto; done|].
  destruct p as [|b3 p]; [constructor|]. destruct (negb _) eqn:E3 in |- *; [constructor|].
  cbn. repeat constructor; eapply Hin; eauto; done.
Qed.

Lemma DecodeRune_cases b p :
  (byteZ b < 0x80 ∧ DecodeRune (b :: p) = (byteZ b, 1%nat)) ∨ 0x80 ≤ byteZ b.
Proof. destruct (decide (byteZ b < 0x80)); [left; split; [done|by apply DecodeRune_ascii]|right; lia]. Qed.

(** *** Fields *)

Lemma fields_go_app_space keep skip cur s b q :
  byteZ b < 0x80 → IsSpace (byteZ b) = true → (skip ≤ length s)%nat →
  fields_go keep skip cur (s ++ b :: q) = fields_go keep skip cur s ++ Fields q.
Proof.
  intros Hb Hsp. revert keep skip cur. induction s as [|x s IH]; intros keep skip cur Hs.
  - destruct skip; [|cbn in Hs; lia]. cbn [app fields_go]. rewrite DecodeRune_ascii, Hsp by done. done.
  - destruct skip as [|skip]; cbn [app fields_go].
    2: { apply IH. cbn in Hs. lia. }
    change (x :: s ++ b :: q) with ((x :: s) ++ b :: q). rewrite DecodeRune_app_ascii by done.
    pose proof (DecodeRune_width (x :: s) ltac:(done)) as Hw.
    destruct (DecodeRune (x :: s)) as [r w]. cbn [snd length] in Hw.
    destruct (IsSpace r); rewrite IH by lia; [by rewrite app_assoc|done].
Qed.

(** A separating ASCII space splits the fields. *)
Lemma Fields_app_space s b q :
  byteZ b < 0x80 → IsSpace (byteZ b) = true → Fields (s ++ b :: q) = Fields s ++ Fields q.
Proof. intros. apply fields_go_app_space; [done..|lia]. Qed.

Lemma emit_elem cur f : f ∈ emit cur → f = cur.
Proof. destruct cur; [by intros ?%not_elem_of_nil|]. by intros ?%list_elem_of_singleton. Qed.

(** Every field is part of the line, and holds no ASCII white space. *)
Lemma fields_go_elem keep skip cur s f :
  f ∈ fields_go keep skip cur s →
  Zlen f ≤ Zlen cur + Zlen s ∧
  (Forall (λ c, IsSpace (byteZ c) = false ∨ 0x80 ≤ byteZ c) cur →
   (keep = true → Forall (λ c, 0x80 ≤ byteZ c) (take skip s)) →
   Forall (λ c, IsSpace (byteZ c) = false ∨ 0x80 ≤ byteZ c) f).
Proof.
  revert keep skip cur. induction s as [|x s IH]; intros keep skip cur Hf.
  { apply emit_elem in Hf as ->. unfold Zlen at 3. cbn [length]. split; [lia|done]. }
  cbn [fields_go] in Hf. rewrite Zlen_cons. pose proof (Zlen_nonneg s). pose proof (Zlen_nonneg cur).
  destruct skip as [|skip].
  - pose proof (DecodeRune_cont x s) as Hc. pose proof (DecodeRune_cases x s) as Hx.
    destruct (DecodeRune (x :: s)) as [r w]. cbn [fst snd] in *.
    destruct (IsSpace r) eqn:Er.
    + apply elem_of_app in Hf as [->%emit_elem|Hf]; [split; [lia|done]|].
      apply IH in Hf as [Hl Hs]. unfold Zlen at 2 in Hl. cbn [length] in Hl. split; [lia|].
      intros _ _. apply Hs; [constructor|done].
    + apply IH in Hf as [Hl Hs]. rewrite Zlen_app, Zlen_cons in Hl. unfold Zlen at 3 in Hl. cbn [length] in Hl.
      split; [lia|]. intros Hcur _. apply Hs; [|done]. apply Forall_app. split; [done|]. constructor; [|done].
      destruct Hx as [[_ [= -> _]]|Hx]; [by left|by right].
  - apply IH in Hf as [Hl Hs]. split.
    { destruct keep; [rewrite Zlen_app, Zlen_cons in Hl; unfold Zlen at 3 in Hl; cbn [length] in Hl|]; lia. }
    intros Hcur Hk. destruct keep.
    + specialize (Hk eq_refl). cbn [take] in Hk. apply Forall_cons in Hk as [Hx Hk]. apply Hs; [|done].
      apply Forall_app. split; [done|]. constructor; [by right|done].
    + by apply Hs.
Qed.

Lemma Fields_len s f : f ∈ Fields s → Zlen f ≤ Zlen s.
Proof. intros H%fields_go_elem. destruct H as [H _]. unfold Zlen at 2 in H. cbn [length] in H. lia. Qed.

Lemma Fields_no_newline s f : f ∈ Fields s → Byte.x0a ∉ f.
Proof.
  intros H%fields_go_elem. destruct H as [_ H]. specialize (H ltac:(constructor) ltac:(done)).
  rewrite Forall_forall in H. intros Hin. by destruct (H _ Hin).
Qed.

(** *** Numbers *)

Lemma Atoi_digits ds :
  ds ≠ [] → Forall (λ b, is_digit b = true) ds → 0 ≤ digits_val 0 ds < 2 ^ 63 →
  Atoi ds = Some (digits_val 0 ds).
Proof.
  intros Hne Hd Hv. unfold Atoi. destruct ds as [|d ds]; [done|].
  assert (match d :: ds with Byte.x2d :: ds => (true, ds) | Byte.x2b :: ds => (false, ds) | _ => (false, d :: ds) end
    = (false, d :: ds)) as ->.
  { apply Forall_cons in Hd as [Hd _]. destruct d; try done; by vm_compute in Hd. }
  rewrite bool_decide_eq_false_2 by done. cbn [orb].
  replace (forallb is_digit (d :: ds)) with true; cbn [negb].
  - by replace (_ && _) with true by lia.
  - symmetry. apply forallb_forall. intros x Hx%list_elem_of_In. rewrite Forall_forall in Hd. auto.
Qed.

(** Printing and parsing a length. *)
Lemma Atoi_dec n : 0 ≤ n < 2 ^ 63 → Atoi (dec n) = Some n.
Proof.
  intros Hn. unfold dec. replace (n <? 0) with false by lia.
  destruct (dec_nonneg_val n) as (H1 & H2 & H3); [lia|]. rewrite Atoi_digits; [by rewrite H3|done..|lia].
Qed.

(** *** ReplaceAll *)

Definition crlf : bytes := [Byte.x0d; Byte.x0a].
Definition contains (s sub : bytes) : Prop := ∃ a b, s = a ++ sub ++ b.

(** A text from which CR LF was replaced holds none. *)
Lemma ReplaceAll_no_crlf s : ¬ contains (ReplaceAll s crlf [Byte.x20]) crlf.
Proof.
  unfold ReplaceAll.
  assert (Hhd : ∀ s t, replace_go 0 crlf [Byte.x20] s = Byte.x0a :: t → ∃ s', s = Byte.x0a :: s').
  { intros [|b s'] t H; [done|]. cbn [replace_go] in H. destruct (bool_decide _); [done|].
    injection H as -> _. eauto. }
  assert (Hall : ¬ contains (replace_go 0 crlf [Byte.x20] s) crlf ∧
                 ¬ contains (replace_go 1 crlf [Byte.x20] s) crlf); [|apply Hall].
  induction s as [|b s [IH0 IH1]].
  { split; intros ([|? ?] & ? & H); done. }
  split; [|exact IH0]. cbn [replace_go]. intros (p & q & H). case_bool_decide as Hp.
  - destruct p as [|y p]; [done|]. injection H as _ H. apply IH1. by exists p, q.
  - destruct p as [|y p].
    + injection H as -> H. apply Hhd in H as [s' ->]. apply Hp. by exists s'.
    + injection H as _ H. apply IH0. by exists p, q.
Qed.

(** A word of ASCII characters other than white space is one field. *)
Lemma Fields_word l :
  l ≠ [] → Forall (λ b, byteZ b < 0x80 ∧ IsSpace (byteZ b) = false) l → Fields l = [l].
Proof.
  intros Hne Hl. unfold Fields.
  assert (H : ∀ keep cur, fields_go keep 0 cur l = emit (cur ++ l)).
  { clear Hne. induction Hl as [|b l [Hb Hs] Hl IH]; intros keep cur; cbn [fields_go].
    { by rewrite app_nil_r. }
    rewrite DecodeRune_ascii, Hs by done. cbn [pred]. by rewrite IH, <-app_assoc. }
  rewrite H. by destruct l.
Qed.

Lemma Fields_dec n : 0 ≤ n → Fields (dec n) = [dec n].
Proof.
  intros Hn. unfold dec. replace (n <? 0) with false by lia.
  destruct (dec_nonneg_val n Hn) as (H1 & H2 & _). apply Fields_word; [done|].
  eapply Forall_impl; [exact H2|]. intros b Hb. cbn in Hb. destruct b; vm_compute in Hb; try done.
Qed.
