(* ===== verification/GoUtf8.v ===== *)
(** * GoUtf8: valid UTF-8 and its repair

    Decoding a rune and encoding it again, [utf8.ValidString], and the string
    in which every invalid byte has become U+FFFD, which is what a conversion
    through runes makes of it. *)
From stdpp Require Import prelude.
From Stdlib Require Import ZArith Lia Strings.Byte.
From S2P Require Import Prelude GoText.
Local Open Scope Z_scope.

(** Let [lia] reason about division by constants. *)
#[local] Ltac Zify.zify_post_hook ::= Z.to_euclidean_division_equations.

(** ** Definitions *)

(** Whether a decoded rune stands for an invalid byte. *)
Definition bad_rune (x : Z * nat * Byte.byte) : bool :=
  (x.1.1 =? RuneError) && bool_decide (x.1.2 = 1%nat).

Definition ValidString (s : bytes) : bool := forallb (λ x, negb (bad_rune x)) (runes 0 s).

(** Every rune encoded again; invalid bytes become U+FFFD. *)
Definition repair (s : bytes) : bytes := concat ((λ x : Z * nat * Byte.byte, EncodeRune x.1.1) <$> runes 0 s).

(** The code points that have an encoding. *)
Definition scalar (r : Z) : Prop := 0 ≤ r < 0xD800 ∨ 0xE000 ≤ r ≤ 0x10FFFF.

(** ** Bits *)

Lemma lor_shift a b k : 0 ≤ k → 0 ≤ b < 2 ^ k → Z.lor (Z.shiftl a k) b = a * 2 ^ k + b.
Proof.
  intros Hk Hb. assert (H : Z.land (Z.shiftl a k) b = 0).
  { apply Z.bits_inj'. intros n Hn. rewrite Z.land_spec, Z.bits_0, Z.shiftl_spec by done.
    destruct (decide (n < k)); [by rewrite Z.testbit_neg_r by lia|].
    rewrite <-(Z.mod_small b (2 ^ k)), Z.mod_pow2_bits_high by lia. by rewrite andb_false_r. }
  rewrite <-Z.shiftl_mul_pow2 by done. pose proof (Z.add_lor_land (Z.shiftl a k) b). lia.
Qed.

Lemma low6 z : Z.land z 0x3F = z mod 64.
Proof. change 0x3F with (Z.ones 6). by apply Z.land_ones. Qed.

Lemma low5 z : Z.land z 0x1F = z mod 32.
Proof. change 0x1F with (Z.ones 5). by apply Z.land_ones. Qed.

Lemma low4 z : Z.land z 0x0F = z mod 16.
Proof. change 0x0F with (Z.ones 4). by apply Z.land_ones. Qed.

Lemma low3 z : Z.land z 0x07 = z mod 8.
Proof. change 0x07 with (Z.ones 3). by apply Z.land_ones. Qed.

Lemma mod64 z : 0 ≤ z mod 64 < 64.
Proof. by apply Z.mod_pos_bound. Qed.

(** Joining groups of six bits. *)
Lemma join2 a b : Z.lor (Z.shiftl a 6) (b mod 64) = a * 64 + b mod 64.
Proof. apply lor_shift; [done|apply mod64]. Qed.

Lemma join3 a b c : Z.lor (Z.shiftl a 12) (Z.lor (Z.shiftl (b mod 64) 6) (c mod 64)) = a * 4096 + (b mod 64 * 64 + c mod 64).
Proof. rewrite join2. pose proof (mod64 b). pose proof (mod64 c). rewrite lor_shift; [done|done|lia]. Qed.

Lemma join4 a b c d :
  Z.lor (Z.shiftl a 18) (Z.lor (Z.shiftl (b mod 64) 12) (Z.lor (Z.shiftl (c mod 64) 6) (d mod 64))) =
  a * 262144 + (b mod 64 * 4096 + (c mod 64 * 64 + d mod 64)).
Proof. rewrite join3. pose proof (mod64 b). pose proof (mod64 c). pose proof (mod64 d). rewrite lor_shift; [done|done|lia]. Qed.

Lemma Zbyte_eq z b : z = byteZ b → Zbyte z = b.
Proof. intros ->. apply Zbyte_byteZ. Qed.

(** ** Runes *)

(** [EncodeRune] of a scalar value, by ranges. *)
Definition encode2 (r : Z) : bytes := [Zbyte (0xC0 + r / 64); Zbyte (0x80 + r mod 64)].
Definition encode3 (r : Z) : bytes := [Zbyte (0xE0 + r / 4096); Zbyte (0x80 + r / 64 mod 64); Zbyte (0x80 + r mod 64)].
Definition encode4 (r : Z) : bytes :=
  [Zbyte (0xF0 + r / 262144); Zbyte (0x80 + r / 4096 mod 64); Zbyte (0x80 + r / 64 mod 64); Zbyte (0x80 + r mod 64)].

Lemma EncodeRune_scalar r :
  scalar r → EncodeRune r =
    if r <? 0x80 then [Zbyte r] else if r <? 0x800 then encode2 r else if r <? 0x10000 then encode3 r else encode4 r.
Proof.
  intros Hr. unfold EncodeRune. replace (_ || _) with false by (unfold scalar in Hr; lia).
  unfold encode2, encode3, encode4. rewrite !low6, !Z.shiftr_div_pow2 by lia.
  change (2 ^ 0) with 1. change (2 ^ 6) with 64. change (2 ^ 12) with 4096. change (2 ^ 18) with 262144.
  by rewrite Z.div_1_r.
Qed.

(** Continuation bytes: the ranges of the second one depend on the first. *)
Definition cont_lo (z0 : Z) : Z := if z0 =? 0xE0 then 0xA0 else if z0 =? 0xF0 then 0x90 else 0x80.
Definition cont_hi (z0 : Z) : Z := if z0 =? 0xED then 0x9F else if z0 =? 0xF4 then 0x8F else 0xBF.

(** The shape of every decoded rune: one invalid byte, or the shortest
    encoding of a scalar value. *)
Inductive decoded : bytes → Z → nat → Prop :=
| decoded_bad b p : 0x80 ≤ byteZ b → decoded (b :: p) RuneError 1
| decoded1 b p : byteZ b < 0x80 → decoded (b :: p) (byteZ b) 1
| decoded2 b b1 p : 0xC2 ≤ byteZ b ≤ 0xDF → 0x80 ≤ byteZ b1 ≤ 0xBF →
    decoded (b :: b1 :: p) ((byteZ b - 0xC0) * 64 + (byteZ b1 - 0x80)) 2
| decoded3 b b1 b2 p : 0xE0 ≤ byteZ b ≤ 0xEF → cont_lo (byteZ b) ≤ byteZ b1 ≤ cont_hi (byteZ b) → 0x80 ≤ byteZ b2 ≤ 0xBF →
    decoded (b :: b1 :: b2 :: p) ((byteZ b - 0xE0) * 4096 + ((byteZ b1 - 0x80) * 64 + (byteZ b2 - 0x80))) 3
| decoded4 b b1 b2 b3 p : 0xF0 ≤ byteZ b ≤ 0xF4 → cont_lo (byteZ b) ≤ byteZ b1 ≤ cont_hi (byteZ b) →
    0x80 ≤ byteZ b2 ≤ 0xBF → 0x80 ≤ byteZ b3 ≤ 0xBF →
    decoded (b :: b1 :: b2 :: b3 :: p)
      ((byteZ b - 0xF0) * 262144 + ((byteZ b1 - 0x80) * 4096 + ((byteZ b2 - 0x80) * 64 + (byteZ b3 - 0x80)))) 4.

Lemma cont_range z : 0x80 ≤ cont_lo z ∧ cont_hi z ≤ 0xBF.
Proof. unfold cont_lo, cont_hi. repeat case_match; lia. Qed.

Lemma in_range_spec lo hi b : in_range lo hi b = true ↔ lo ≤ byteZ b ≤ hi.
Proof. unfold in_range. rewrite andb_true_iff, !Z.leb_le. done. Qed.

Lemma DecodeRune_decoded b p : decoded (b :: p) (DecodeRune (b :: p)).1 (DecodeRune (b :: p)).2.
Proof.
  unfold DecodeRune. pose proof (byteZ_range b) as Hb. rewrite ?low6, ?low5, ?low4, ?low3.
  fold (cont_lo (byteZ b)). fold (cont_hi (byteZ b)). pose proof (cont_range (byteZ b)) as Hc.
  destruct (byteZ b <? 0x80) eqn:E0; kv_bool; [by constructor|].
  destruct (_ || _) eqn:E1; [by constructor|]. kv_bool.
  destruct p as [|b1 p]; [by constructor|]. destruct (in_range _ _ b1) eqn:E2; cbn [negb]; [|by constructor].
  apply in_range_spec in E2. rewrite low6.
  assert (H1 : byteZ b1 mod 64 = byteZ b1 - 0x80) by lia.
  destruct (byteZ b <=? 0xDF) eqn:E3; kv_bool.
  { rewrite join2, H1. cbn [fst snd]. replace (byteZ b mod 32) with (byteZ b - 0xC0) by lia. constructor; lia. }
  destruct p as [|b2 p]; [by constructor|]. destruct (in_range _ _ b2) eqn:E4; cbn [negb]; [|by constructor].
  apply in_range_spec in E4. rewrite low6. assert (H2 : byteZ b2 mod 64 = byteZ b2 - 0x80) by lia.
  destruct (byteZ b <=? 0xEF) eqn:E5; kv_bool.
  { rewrite join3, H1, H2. cbn [fst snd]. replace (byteZ b mod 16) with (byteZ b - 0xE0) by lia. constructor; lia. }
  destruct p as [|b3 p]; [by constructor|]. destruct (in_range _ _ b3) eqn:E6; cbn [negb]; [|by constructor].
  apply in_range_spec in E6. rewrite low6. assert (H3 : byteZ b3 mod 64 = byteZ b3 - 0x80) by lia.
  rewrite join4, H1, H2, H3. cbn [fst snd]. replace (byteZ b mod 8) with (byteZ b - 0xF0) by lia. constructor; lia.
Qed.

Lemma cont_bounds z x :
  cont_lo z ≤ x ≤ cont_hi z →
  0x80 ≤ x ≤ 0xBF ∧ (z ≠ 0xE0 ∨ 0xA0 ≤ x) ∧ (z ≠ 0xF0 ∨ 0x90 ≤ x) ∧ (z ≠ 0xED ∨ x ≤ 0x9F) ∧ (z ≠ 0xF4 ∨ x ≤ 0x8F).
Proof. unfold cont_lo, cont_hi. repeat case_match; kv_bool; lia. Qed.

Ltac decoded_cases H :=
  destruct H as [b p Hb|b p Hb|b b1 p Hb Hb1|b b1 b2 p Hb Hb1 Hb2|b b1 b2 b3 p Hb Hb1 Hb2 Hb3];
  try apply cont_bounds in Hb1.

Lemma decoded_scalar p r w : decoded p r w → scalar r.
Proof. intros H. unfold scalar. decoded_cases H; unfold RuneError; try pose proof (byteZ_range b); lia. Qed.

(** Settle the comparisons of the goal by arithmetic. *)
Ltac settle :=
  repeat match goal with
  | |- context [?a <? ?c] =>
      first [replace (a <? c) with false by (symmetry; apply Z.ltb_ge; lia)
            | replace (a <? c) with true by (symmetry; apply Z.ltb_lt; lia)]
  | |- context [?a <=? ?c] =>
      first [replace (a <=? c) with false by (symmetry; apply Z.leb_gt; lia)
            | replace (a <=? c) with true by (symmetry; apply Z.leb_le; lia)]
  end.

(** Encoding a valid rune gives the bytes it was decoded from. *)
Lemma decoded_encode p r w : decoded p r w → (r, w) ≠ (RuneError, 1%nat) → EncodeRune r = take w p.
Proof.
  intros Hd Hne. rewrite EncodeRune_scalar by (by eapply decoded_scalar). revert Hne. unfold encode2, encode3, encode4.
  decoded_cases Hd; intros Hne; [done|..]; settle; cbn [take]; repeat (f_equal; [apply Zbyte_eq; lia|..]); done.
Qed.

Lemma byteZ_small z : 0 ≤ z < 256 → byteZ (Zbyte z) = z.
Proof. intros. rewrite byteZ_Zbyte. by apply Z.mod_small. Qed.

Lemma in_range_cont b1 : 0x80 ≤ byteZ b1 ≤ 0xBF → in_range 0x80 0xBF b1 = true.
Proof. intros. by apply in_range_spec. Qed.

(** Valid encodings are decoded as such. *)
Lemma decoded_DecodeRune p r w : decoded p r w → (r, w) ≠ (RuneError, 1%nat) → DecodeRune p = (r, w).
Proof.
  intros Hd. destruct Hd as [b p Hb|b p Hb|b b1 p Hb Hb1|b b1 b2 p Hb Hb1 Hb2|b b1 b2 b3 p Hb Hb1 Hb2 Hb3]; intros Hne.
  - done.
  - by apply DecodeRune_ascii.
  - unfold DecodeRune. fold (cont_lo (byteZ b)) (cont_hi (byteZ b)). settle. cbn [orb].
    rewrite (proj2 (in_range_spec _ _ b1)). 2: { unfold cont_lo, cont_hi. repeat case_match; kv_bool; lia. }
    cbn [negb]. rewrite low5, low6, join2. f_equal. lia.
  - unfold DecodeRune. fold (cont_lo (byteZ b)) (cont_hi (byteZ b)). settle. cbn [orb].
    rewrite (proj2 (in_range_spec _ _ b1)), in_range_cont by done. apply cont_bounds in Hb1.
    cbn [negb]. rewrite low4, !low6, join3. f_equal. lia.
  - unfold DecodeRune. fold (cont_lo (byteZ b)) (cont_hi (byteZ b)). settle. cbn [orb].
    rewrite (proj2 (in_range_spec _ _ b1)), !in_range_cont by done. apply cont_bounds in Hb1.
    cbn [negb]. rewrite low3, !low6, join4. f_equal. lia.
Qed.

(** A scalar value survives encoding and decoding, whatever follows. *)
Lemma DecodeRune_encode r q : scalar r → DecodeRune (EncodeRune r ++ q) = (r, length (EncodeRune r)).
Proof.
  intros Hr. rewrite EncodeRune_scalar by done. unfold scalar in Hr.
  destruct (r <? 0x80) eqn:E1; kv_bool.
  { cbn [app]. by rewrite DecodeRune_ascii, byteZ_small by (rewrite ?byteZ_small; lia). }
  unfold encode2, encode3, encode4, RuneError.
  destruct (r <? 0x800) eqn:E2; [|destruct (r <? 0x10000) eqn:E3]; kv_bool; cbn [app length].
  - apply decoded_DecodeRune; [|intros [=]].
    replace r with ((byteZ (Zbyte (192 + r / 64)) - 0xC0) * 64 + (byteZ (Zbyte (128 + r mod 64)) - 0x80)) at 3
      by (rewrite !byteZ_small; lia).
    constructor; rewrite byteZ_small; lia.
  - apply decoded_DecodeRune; [|intros [=]].
    replace r with ((byteZ (Zbyte (224 + r / 4096)) - 0xE0) * 4096 + ((byteZ (Zbyte (128 + r / 64 mod 64)) - 0x80) * 64 +
      (byteZ (Zbyte (128 + r mod 64)) - 0x80))) at 4 by (rewrite !byteZ_small; lia).
    constructor; rewrite ?byteZ_small by lia; try lia. unfold cont_lo, cont_hi. repeat case_match; kv_bool; lia.
  - apply decoded_DecodeRune; [|intros [=]].
    replace r with ((byteZ (Zbyte (240 + r / 262144)) - 0xF0) * 262144 + ((byteZ (Zbyte (128 + r / 4096 mod 64)) - 0x80) * 4096 +
      ((byteZ (Zbyte (128 + r / 64 mod 64)) - 0x80) * 64 + (byteZ (Zbyte (128 + r mod 64)) - 0x80)))) at 5
      by (rewrite !byteZ_small; lia).
    constructor; rewrite ?byteZ_small by lia; try lia. unfold cont_lo, cont_hi. repeat case_match; kv_bool; lia.
Qed.

(** ** Strings *)

Lemma runes_skip k s : runes k s = runes 0 (drop k s).
Proof. revert k. induction s as [|b s IH]; intros [|k]; try done. cbn [runes drop]. apply IH. Qed.

(** The first rune of a non-empty string and the rest. *)
Lemma runes_cons b p :
  runes 0 (b :: p) = ((DecodeRune (b :: p)).1, (DecodeRune (b :: p)).2, b) :: runes 0 (drop (DecodeRune (b :: p)).2 (b :: p)).
Proof.
  pose proof (DecodeRune_width (b :: p) ltac:(done)) as Hw. cbn [runes].
  destruct (DecodeRune (b :: p)) as [r [|w]]; cbn [fst snd] in *; [lia|]. cbn [pred drop]. by rewrite runes_skip.
Qed.

(** Induction over the runes of a string. *)
Lemma rune_ind (P : bytes → Prop) :
  P [] → (∀ b p, P (drop (DecodeRune (b :: p)).2 (b :: p)) → P (b :: p)) → ∀ s, P s.
Proof.
  intros H0 HS s. induction s as [s IH] using (induction_ltof1 _ (@length _)). unfold ltof in IH.
  destruct s as [|b p]; [done|]. apply HS, IH. rewrite length_drop.
  pose proof (DecodeRune_width (b :: p) ltac:(done)). lia.
Qed.

Lemma repair_cons b p :
  repair (b :: p) = EncodeRune (DecodeRune (b :: p)).1 ++ repair (drop (DecodeRune (b :: p)).2 (b :: p)).
Proof. unfold repair. by rewrite runes_cons. Qed.

Lemma ValidString_cons b p :
  ValidString (b :: p) = negb (bad_rune ((DecodeRune (b :: p)).1, (DecodeRune (b :: p)).2, b)) &&
    ValidString (drop (DecodeRune (b :: p)).2 (b :: p)).
Proof. unfold ValidString. by rewrite runes_cons. Qed.

Lemma bad_rune_false r w b : bad_rune (r, w, b) = false → (r, w) ≠ (RuneError, 1%nat).
Proof. unfold bad_rune. cbn [fst snd]. intros H [= -> ->]. by rewrite bool_decide_eq_true_2 in H. Qed.

(** Valid strings need no repair. *)
Lemma repair_valid s : ValidString s = true → repair s = s.
Proof.
  induction s as [|b p IH] using rune_ind; [done|]. rewrite ValidString_cons, repair_cons. intros H. kv_bool.
  rewrite IH by done. erewrite decoded_encode; [apply take_drop|apply DecodeRune_decoded|by eapply bad_rune_false].
Qed.

Lemma EncodeRune_not_nil r : EncodeRune r ≠ [].
Proof. unfold EncodeRune. repeat case_match; done. Qed.

Lemma EncodeRune_bad_width : length (EncodeRune RuneError) = 3%nat.
Proof. done. Qed.

(** An encoded rune in front. *)
Lemma runes_encode r s : scalar r → ∃ b, runes 0 (EncodeRune r ++ s) = (r, length (EncodeRune r), b) :: runes 0 s.
Proof.
  intros Hr. pose proof (DecodeRune_encode r s Hr) as Hd. pose proof (EncodeRune_not_nil r) as Hne.
  destruct (EncodeRune r) as [|b e] eqn:E; [done|]. exists b. rewrite <-E in *. rewrite E at 1. cbn [app].
  change (b :: e ++ s) with ((b :: e) ++ s). rewrite <-E. destruct (EncodeRune r ++ s) as [|b' p] eqn:E'; [by rewrite E in E'|].
  rewrite runes_cons, Hd. cbn [fst snd]. rewrite <-E', drop_app_length. rewrite E in E'. by injection E' as -> _.
Qed.

Lemma repair_encode r s : scalar r → repair (EncodeRune r ++ s) = EncodeRune r ++ repair s.
Proof. intros Hr. unfold repair. destruct (runes_encode r s Hr) as [b ->]. done. Qed.

Lemma ValidString_encode r s : scalar r → ValidString (EncodeRune r ++ s) = ValidString s.
Proof.
  intros Hr. unfold ValidString. destruct (runes_encode r s Hr) as [b ->]. cbn [forallb].
  replace (bad_rune _) with false; [done|]. symmetry. unfold bad_rune. cbn [fst snd].
  destruct (r =? RuneError) eqn:E; [|done]. kv_bool. subst r. by rewrite EncodeRune_bad_width.
Qed.

(** What repair returns is valid. *)
Lemma repair_is_valid s : ValidString (repair s) = true.
Proof.
  induction s as [|b p IH] using rune_ind; [done|]. rewrite repair_cons, ValidString_encode; [done|].
  eapply decoded_scalar, DecodeRune_decoded.
Qed.

Lemma ValidString_ascii s : Forall (λ b, byteZ b < 0x80) s → ValidString s = true.
Proof.
  induction 1 as [|b s Hb Hs IH]; [done|]. rewrite ValidString_cons, DecodeRune_ascii by done. cbn [fst snd].
  change (drop 1 (b :: s)) with s. rewrite IH, andb_true_r. unfold bad_rune, RuneError. cbn [fst snd].
  by replace (byteZ b =? 65533) with false by lia.
Qed.
