(* ===== verification/GoJson.v ===== *)
(** * GoJson: encoding/json

    The JSON text that [json.Marshal] writes and [json.Unmarshal] reads. A
    [json] value keeps the text it was read from, so that a [json.RawMessage]
    is the bytes of the file. Strings are quoted with HTML escaping and with
    U+FFFD for invalid UTF-8, as [Marshal] does. [GoJsonTypes] has the Go types
    that are encoded. *)
From stdpp Require Import prelude.
From Stdlib Require Import ZArith Lia Strings.Byte.
From S2P Require Import Prelude GoText GoUtf8.
Local Open Scope Z_scope.

(** ** Values *)

Unset Elimination Schemes.
Inductive json :=
| JNull
| JBool (b : bool)
| JNum (lit : bytes)                          (* the literal *)
| JStr (raw : bytes)                          (* between the quotes *)
| JArr (raw : bytes) (l : list json)          (* the text, the elements *)
| JObj (raw : bytes) (l : list (bytes * json)). (* the text, the quoted keys and their values *)
Set Elimination Schemes.

Definition quoted (raw : bytes) : bytes := [Byte.x22] ++ raw ++ [Byte.x22].

(** The text of a value. *)
Definition jraw (j : json) : bytes :=
  match j with
  | JNull => bs "null"
  | JBool true => bs "true"
  | JBool false => bs "false"
  | JNum lit => lit
  | JStr raw => quoted raw
  | JArr raw _ | JObj raw _ => raw
  end.

(** ** The scanner *)

Inductive json_error := SyntaxError | NoFuel.

Definition is_ws (b : Byte.byte) : bool := existsb (Z.eqb (byteZ b)) [32; 9; 13; 10].
Fixpoint skip_ws (s : bytes) : bytes :=
  match s with
  | b :: s' => if is_ws b then skip_ws s' else s
  | [] => []
  end.

Definition is_hex (b : Byte.byte) : bool :=
  is_digit b || in_range 97 102 b || in_range 65 70 b.

(** The rest of a string literal after its opening quote: the text up to the
    closing quote and what follows it. *)
Fixpoint scan_string (s : bytes) : option (bytes * bytes) :=
  match s with
  | [] => None
  | c :: s =>
      if byteZ c =? 34 then Some ([], s)
      else if byteZ c =? 92 then
        match s with
        | e :: s =>
            if existsb (Z.eqb (byteZ e)) [98; 102; 110; 114; 116; 92; 47; 34] then
              '(raw, r) ← scan_string s; Some (c :: e :: raw, r)
            else if byteZ e =? 117 then
              match s with
              | h1 :: h2 :: h3 :: h4 :: s =>
                  if is_hex h1 && is_hex h2 && is_hex h3 && is_hex h4 then
                    '(raw, r) ← scan_string s; Some (c :: e :: h1 :: h2 :: h3 :: h4 :: raw, r)
                  else None
              | _ => None
              end
            else None
        | [] => None
        end
      else if byteZ c <? 32 then None
      else '(raw, r) ← scan_string s; Some (c :: raw, r)
  end.

Fixpoint span_digits (s : bytes) : bytes * bytes :=
  match s with
  | b :: s' => if is_digit b then let '(ds, r) := span_digits s' in (b :: ds, r) else ([], s)
  | [] => ([], [])
  end.

(** At least one digit. *)
Definition digits1 (s : bytes) : option (bytes * bytes) :=
  match span_digits s with
  | ([], _) => None
  | x => Some x
  end.

Definition scan_int (s : bytes) : option (bytes * bytes) :=
  match s with
  | Byte.x30 :: r => Some ([Byte.x30], r)
  | _ => digits1 s
  end.

Definition scan_frac (s : bytes) : option (bytes * bytes) :=
  match s with
  | Byte.x2e :: s => '(ds, r) ← digits1 s; Some (Byte.x2e :: ds, r)
  | _ => Some ([], s)
  end.

Definition scan_exp (s : bytes) : option (bytes * bytes) :=
  match s with
  | b :: s' =>
      if (byteZ b =? 101) || (byteZ b =? 69) then
        let '(sign, s'') :=
          match s' with
          | c :: r => if (byteZ c =? 43) || (byteZ c =? 45) then ([c], r) else ([], s')
          | [] => ([], s')
          end in
        '(ds, r) ← digits1 s''; Some (b :: sign ++ ds, r)
      else Some ([], s)
  | [] => Some ([], s)
  end.

Definition scan_number (s : bytes) : option (bytes * bytes) :=
  let '(sign, s) := match s with Byte.x2d :: r => ([Byte.x2d], r) | _ => ([], s) end in
  '(int, s) ← scan_int s;
  '(frac, s) ← scan_frac s;
  '(exp, s) ← scan_exp s;
  Some (sign ++ int ++ frac ++ exp, s).

(** The text in front of [r] in [s]. *)
Definition before (s r : bytes) : bytes := take (length s - length r) s.

Definition maxNestingDepth : nat := Z.to_nat 10000.

(** [strip lit s] is the rest of [s] after [lit]. *)
Fixpoint strip (lit s : bytes) : option bytes :=
  match lit, s with
  | [], _ => Some s
  | x :: lit, y :: s => if bool_decide (x = y) then strip lit s else None
  | _ :: _, [] => None
  end.

Definition literal (lit : bytes) (j : json) (s : bytes) : outcome json_error (json * bytes) :=
  match strip lit s with Some r => Ret (j, r) | None => Err SyntaxError end.

(** The rest of [s] after its first byte, which is [c]. *)
Definition eat (c : Byte.byte) (s : bytes) : option bytes :=
  match s with
  | b :: r => if bool_decide (b = c) then Some r else None
  | [] => None
  end.

(** A value at the head of [s] and what follows it; [depth] more brackets may
    be opened. [value_elements] reads the rest of an array after its bracket,
    [value_members] that of an object. *)
Fixpoint value (fuel : nat) (depth : nat) (s : bytes) {struct fuel} : outcome json_error (json * bytes) :=
  match fuel with
  | O => Err NoFuel
  | S fuel =>
      match s with
      | [] => Err SyntaxError
      | c :: s' =>
          if byteZ c =? 91 then
            match depth with
            | O => Err SyntaxError
            | S depth =>
                match eat Byte.x5d (skip_ws s') with
                | Some r => Ret (JArr (before s r) [], r)
                | None => '(l, r) ← value_elements fuel depth s'; Ret (JArr (before s r) l, r)
                end
            end
          else if byteZ c =? 123 then
            match depth with
            | O => Err SyntaxError
            | S depth =>
                match eat Byte.x7d (skip_ws s') with
                | Some r => Ret (JObj (before s r) [], r)
                | None => '(l, r) ← value_members fuel depth s'; Ret (JObj (before s r) l, r)
                end
            end
          else if byteZ c =? 34 then
            match scan_string s' with
            | Some (raw, r) => Ret (JStr raw, r)
            | None => Err SyntaxError
            end
          else if byteZ c =? 116 then literal (bs "true") (JBool true) s
          else if byteZ c =? 102 then literal (bs "false") (JBool false) s
          else if byteZ c =? 110 then literal (bs "null") JNull s
          else
            match scan_number s with
            | Some (lit, r) => Ret (JNum lit, r)
            | None => Err SyntaxError
            end
      end
  end
with value_elements (fuel : nat) (depth : nat) (s : bytes) {struct fuel} : outcome json_error (list json * bytes) :=
  match fuel with
  | O => Err NoFuel
  | S fuel =>
      '(j, r) ← value fuel depth (skip_ws s);
      match eat Byte.x2c (skip_ws r), eat Byte.x5d (skip_ws r) with
      | Some r, _ => '(l, r) ← value_elements fuel depth r; Ret (j :: l, r)
      | None, Some r => Ret ([j], r)
      | None, None => Err SyntaxError
      end
  end
with value_members (fuel : nat) (depth : nat) (s : bytes) {struct fuel} : outcome json_error (list (bytes * json) * bytes) :=
  match fuel with
  | O => Err NoFuel
  | S fuel =>
      match eat Byte.x22 (skip_ws s) ≫= scan_string with
      | None => Err SyntaxError
      | Some (k, s) =>
          match eat Byte.x3a (skip_ws s) with
          | None => Err SyntaxError
          | Some s =>
              '(j, r) ← value fuel depth (skip_ws s);
              match eat Byte.x2c (skip_ws r), eat Byte.x7d (skip_ws r) with
              | Some r, _ => '(l, r) ← value_members fuel depth r; Ret ((k, j) :: l, r)
              | None, Some r => Ret ([(k, j)], r)
              | None, None => Err SyntaxError
              end
          end
      end
  end.

(** The whole input is one value between white space. Every byte is visited at
    most twice ([parse_total]). *)
Definition parse (data : bytes) : outcome json_error json :=
  '(j, r) ← value (2 * length data + 1) maxNestingDepth (skip_ws data);
  match skip_ws r with [] => Ret j | _ => Err SyntaxError end.

(** ** Strings *)

(** [appendString] on one rune: characters that are safe in HTML stay, invalid
    bytes become the escape of U+FFFD. *)
Definition json_safe (r : Z) : bool :=
  (32 <=? r) && negb (existsb (Z.eqb r) [34; 92; 60; 62; 38; 0x2028; 0x2029]).

Definition escape_rune (x : Z * nat * Byte.byte) : bytes :=
  let '(r, _, _) := x in
  if bad_rune x then bs "\ufffd"
  else if json_safe r then EncodeRune r
  else if (r =? 34) || (r =? 92) then [Byte.x5c; Zbyte r]
  else if r =? 8 then bs "\b"
  else if r =? 12 then bs "\f"
  else if r =? 10 then bs "\n"
  else if r =? 13 then bs "\r"
  else if r =? 9 then bs "\t"
  else bs "\u" ++ hex 4 r.

(** The text between the quotes. *)
Definition escape (s : bytes) : bytes := concat (escape_rune <$> runes 0 s).

Definition hex_val (b : Byte.byte) : Z :=
  if is_digit b then byteZ b - 48 else if byteZ b <? 97 then byteZ b - 55 else byteZ b - 87.

(** [getu4]: the code of an escape such as [\u00e9] at the head of [s]. *)
Definition getu4 (s : bytes) : option Z :=
  match s with
  | Byte.x5c :: Byte.x75 :: h1 :: h2 :: h3 :: h4 :: _ =>
      if is_hex h1 && is_hex h2 && is_hex h3 && is_hex h4
      then Some (((hex_val h1 * 16 + hex_val h2) * 16 + hex_val h3) * 16 + hex_val h4)
      else None
  | _ => None
  end.

(** [utf16.DecodeRune] on a pair of surrogates. *)
Definition surrogates (r1 r2 : Z) : option Z :=
  if (0xD800 <=? r1) && (r1 <? 0xDC00) && (0xDC00 <=? r2) && (r2 <? 0xE000)
  then Some ((r1 - 0xD800) * 1024 + (r2 - 0xDC00) + 0x10000) else None.

(** One step of [unquoteBytes]: what it writes and how many bytes it reads. *)
Definition unquote_step (s : bytes) : option (bytes * nat) :=
  match s with
  | [] => None
  | c :: s' =>
      if byteZ c =? 92 then
        match s' with
        | [] => None
        | e :: _ =>
            if existsb (Z.eqb (byteZ e)) [34; 92; 47; 39] then Some ([e], 2%nat)
            else if byteZ e =? 98 then Some ([Byte.x08], 2%nat)
            else if byteZ e =? 102 then Some ([Byte.x0c], 2%nat)
            else if byteZ e =? 110 then Some ([Byte.x0a], 2%nat)
            else if byteZ e =? 114 then Some ([Byte.x0d], 2%nat)
            else if byteZ e =? 116 then Some ([Byte.x09], 2%nat)
            else if byteZ e =? 117 then
              rr ← getu4 s;
              if (0xD800 <=? rr) && (rr <? 0xE000) then
                match getu4 (drop 6 s) ≫= surrogates rr with
                | Some d => Some (EncodeRune d, 12%nat)
                | None => Some (EncodeRune RuneError, 6%nat)
                end
              else Some (EncodeRune rr, 6%nat)
            else None
        end
      else if (byteZ c =? 34) || (byteZ c <? 32) then None
      else if byteZ c <? 0x80 then Some ([c], 1%nat)
      else let '(r, w) := DecodeRune s in Some (EncodeRune r, w)
  end.

(** [unquoteBytes] on the text between the quotes; [skip] bytes of the current
    step remain. *)
Fixpoint unquote_go (skip : nat) (s : bytes) : option bytes :=
  match s with
  | [] => Some []
  | _ :: s' =>
      match skip with
      | S skip => unquote_go skip s'
      | O => '(out, n) ← unquote_step s; (out ++.) <$> unquote_go (pred n) s'
      end
  end.
Definition unquote (raw : bytes) : option bytes := unquote_go 0 raw.

(** ** Building values *)

Fixpoint commas (l : list bytes) : bytes :=
  match l with
  | [] => []
  | [x] => x
  | x :: l => x ++ [Byte.x2c] ++ commas l
  end.

Definition member (kv : bytes * json) : bytes := quoted kv.1 ++ [Byte.x3a] ++ jraw kv.2.

Definition jarr (l : list json) : json := JArr ([Byte.x5b] ++ commas (jraw <$> l) ++ [Byte.x5d]) l.
Definition jobj (l : list (bytes * json)) : json := JObj ([Byte.x7b] ++ commas (member <$> l) ++ [Byte.x7d]) l.
Definition jstr (s : bytes) : json := JStr (escape s).

(** [appendCompact] with HTML escaping: white space between tokens goes, and
    inside strings the HTML characters and the two line separators are
    escaped. The other bytes, invalid UTF-8 included, stay. *)
Definition sep2028 : bytes := [Byte.xe2; Byte.x80; Byte.xa8].
Definition sep2029 : bytes := [Byte.xe2; Byte.x80; Byte.xa9].
Fixpoint compact_go (skip : nat) (s : bytes) : bytes :=
  match s with
  | [] => []
  | b :: s' =>
      match skip with
      | S skip => compact_go skip s'
      | O =>
          if existsb (Z.eqb (byteZ b)) [60; 62; 38] then bs "\u00" ++ hex 2 (byteZ b) ++ compact_go 0 s'
          else if bool_decide (take 3 s = sep2028) then bs "\u2028" ++ compact_go 2 s'
          else if bool_decide (take 3 s = sep2029) then bs "\u2029" ++ compact_go 2 s'
          else b :: compact_go 0 s'
      end
  end.
Definition compact_string (s : bytes) : bytes := compact_go 0 s.

Fixpoint compact (j : json) : json :=
  match j with
  | JStr raw => JStr (compact_string raw)
  | JArr _ l => jarr (compact <$> l)
  | JObj _ l => jobj ((λ kv : bytes * json, (compact_string kv.1, compact kv.2)) <$> l)
  | _ => j
  end.

(** JSON text written with apostrophes for quotes, for examples. *)
Definition jtext (s : String.string) : bytes := (λ b, if bool_decide (b = Byte.x27) then Byte.x22 else b) <$> bs s.
Arguments jtext s%_string_scope.

(** Escapes, surrogates, white space and numbers at once. *)
Example parse_example :
  parse (jtext " {'a' : [1, -2.5e3, 'x\u00e9\ud83d\ude00'], 'b':{}}") =
  Ret (JObj (jtext "{'a' : [1, -2.5e3, 'x\u00e9\ud83d\ude00'], 'b':{}}")
    [(bs "a", JArr (jtext "[1, -2.5e3, 'x\u00e9\ud83d\ude00']") [JNum (bs "1"); JNum (bs "-2.5e3"); JStr (bs "x\u00e9\ud83d\ude00")]);
     (bs "b", JObj (bs "{}") [])]).
Proof. vm_compute. reflexivity. Qed.

(** ** Lemmas on strings *)

(** The text can stand between quotes. *)
Definition str_ok (raw : bytes) : Prop := ∀ rest, scan_string (raw ++ Byte.x22 :: rest) = Some (raw, rest).

Definition plain (b : Byte.byte) : Prop := 32 ≤ byteZ b ∧ byteZ b ≠ 34 ∧ byteZ b ≠ 92.

Lemma str_ok_nil : str_ok [].
Proof. intros rest. done. Qed.

Lemma str_ok_plain p raw : Forall plain p → str_ok raw → str_ok (p ++ raw).
Proof.
  induction 1 as [|b p (H1 & H2 & H3) Hp IH]; intros Hraw; [done|]. intros rest. cbn [app scan_string].
  replace (byteZ b =? 34) with false by lia. replace (byteZ b =? 92) with false by lia.
  replace (byteZ b <? 32) with false by lia. by rewrite (IH Hraw rest).
Qed.

Lemma str_ok_simple e raw :
  existsb (Z.eqb (byteZ e)) [98; 102; 110; 114; 116; 92; 47; 34] = true → str_ok raw → str_ok (Byte.x5c :: e :: raw).
Proof. intros He Hraw rest. cbn [app scan_string]. change (byteZ Byte.x5c) with 92. cbn [Z.eqb]. by rewrite He, (Hraw rest). Qed.

Lemma str_ok_u h1 h2 h3 h4 raw :
  is_hex h1 && is_hex h2 && is_hex h3 && is_hex h4 = true → str_ok raw →
  str_ok (Byte.x5c :: Byte.x75 :: h1 :: h2 :: h3 :: h4 :: raw).
Proof. intros Hh Hraw rest. cbn. rewrite Hh, (Hraw rest). done. Qed.

Lemma hex_digit_spec d : 0 ≤ d < 16 → is_hex (hex_digit d) = true ∧ hex_val (hex_digit d) = d.
Proof.
  intros Hd. assert (Hall : forallb (λ d, is_hex (hex_digit d) && (hex_val (hex_digit d) =? d)) (seqZ 0 16) = true)
    by (vm_compute; reflexivity).
  rewrite forallb_forall in Hall. specialize (Hall d). apply andb_true_iff in Hall as [H1 H2].
  - split; [done|]. by apply Z.eqb_eq.
  - apply list_elem_of_In, elem_of_seqZ. lia.
Qed.

(** The four digits of an escape. *)
Lemma hex4 r : 0 ≤ r < 65536 → ∃ h1 h2 h3 h4, hex 4 r = [h1; h2; h3; h4] ∧
  is_hex h1 && is_hex h2 && is_hex h3 && is_hex h4 = true ∧
  ((hex_val h1 * 16 + hex_val h2) * 16 + hex_val h3) * 16 + hex_val h4 = r.
Proof.
  intros Hr. cbn [hex app]. do 4 eexists. split; [reflexivity|].
  destruct (hex_digit_spec (r / 16 / 16 / 16 mod 16)) as [-> ->]; [by apply Z.mod_pos_bound|].
  destruct (hex_digit_spec (r / 16 / 16 mod 16)) as [-> ->]; [by apply Z.mod_pos_bound|].
  destruct (hex_digit_spec (r / 16 mod 16)) as [-> ->]; [by apply Z.mod_pos_bound|].
  destruct (hex_digit_spec (r mod 16)) as [-> ->]; [by apply Z.mod_pos_bound|].
  split; [done|]. Z.to_euclidean_division_equations. lia.
Qed.

(** One rune of a quoted string: it may stand in a string literal, and reading
    it back yields the rune. *)
Lemma EncodeRune_high r : scalar r → 0x80 ≤ r → Forall (λ b, 0x80 ≤ byteZ b) (EncodeRune r).
Proof.
  intros Hr Hh. rewrite EncodeRune_scalar by done. unfold scalar in Hr. replace (r <? 128) with false by lia.
  destruct (r <? 0x800) eqn:E2; [|destruct (r <? 0x10000) eqn:E3]; kv_bool; unfold encode2, encode3, encode4;
    repeat constructor; rewrite byteZ_small; Z.to_euclidean_division_equations; lia.
Qed.

Lemma EncodeRune_ascii r : 0 ≤ r < 0x80 → EncodeRune r = [Zbyte r].
Proof. intros. rewrite EncodeRune_scalar by (unfold scalar; lia). by replace (r <? 128) with true by lia. Qed.

Lemma json_safe_spec r : json_safe r = true → 32 ≤ r ∧ r ≠ 34 ∧ r ≠ 92.
Proof. unfold json_safe. intros H. kv_bool. cbn [existsb] in H0. kv_bool. done. Qed.

Lemma safe_plain r : scalar r → json_safe r = true → Forall plain (EncodeRune r).
Proof.
  intros Hr Hs. apply json_safe_spec in Hs as (H1 & H2 & H3). destruct (decide (r < 0x80)).
  - rewrite EncodeRune_ascii by lia. constructor; [|done]. unfold plain. rewrite byteZ_small by lia. lia.
  - eapply Forall_impl; [apply EncodeRune_high; [done|lia]|]. cbn. unfold plain. lia.
Qed.

(** The characters without a short escape. *)
Lemma unsafe_small r : scalar r → json_safe r = false → 0 ≤ r < 32 ∨ r ∈ [34; 92; 60; 62; 38; 0x2028; 0x2029].
Proof.
  unfold scalar, json_safe. intros Hr H. destruct (32 <=? r) eqn:E; kv_bool; [|left; lia]. right.
  cbn [andb] in H. apply negb_false_iff in H. apply existsb_exists in H as (x & Hx & He). kv_bool. subst x.
  by apply list_elem_of_In.
Qed.

Lemma escape_rune_str_ok r w b raw : scalar r → str_ok raw → str_ok (escape_rune (r, w, b) ++ raw).
Proof.
  intros Hr Hraw. unfold escape_rune. destruct (bad_rune _); [by apply str_ok_u|].
  destruct (json_safe r) eqn:Es; [by apply str_ok_plain; [apply safe_plain|]|].
  pose proof (unsafe_small r Hr Es) as Hu.
  destruct ((r =? 34) || (r =? 92)) eqn:E1.
  { apply str_ok_simple; [|done]. apply orb_true_iff in E1 as [E1|E1]; kv_bool; by subst r. }
  destruct (r =? 8); [by apply str_ok_simple|]. destruct (r =? 12); [by apply str_ok_simple|].
  destruct (r =? 10); [by apply str_ok_simple|]. destruct (r =? 13); [by apply str_ok_simple|].
  destruct (r =? 9); [by apply str_ok_simple|].
  destruct (hex4 r) as (h1 & h2 & h3 & h4 & -> & Hh & _); [|by apply str_ok_u].
  destruct Hu as [Hu|Hu]; [lia|]. repeat (apply elem_of_cons in Hu as [->|Hu]; [done|]). by apply not_elem_of_nil in Hu.
Qed.

Lemma escape_str_ok s : str_ok (escape s).
Proof.
  induction s as [|b p IH] using rune_ind; [apply str_ok_nil|]. unfold escape. rewrite runes_cons.
  cbn [fmap list_fmap concat]. apply escape_rune_str_ok; [|done]. eapply decoded_scalar, DecodeRune_decoded.
Qed.

Lemma unquote_go_skip k s : unquote_go k s = unquote_go 0 (drop k s).
Proof. revert k. induction s as [|b s IH]; intros [|k]; try done. cbn [unquote_go drop]. apply IH. Qed.

Lemma unquote_go_step s out n :
  unquote_step s = Some (out, n) → (0 < n)%nat → unquote_go 0 s = (out ++.) <$> unquote_go 0 (drop n s).
Proof.
  intros H Hn. destruct s as [|b s]; [done|]. cbn [unquote_go]. rewrite H. cbn [mbind option_bind].
  destruct n as [|n]; [lia|]. cbn [pred drop]. by rewrite unquote_go_skip.
Qed.

Lemma unquote_step_plain r t :
  scalar r → json_safe r = true → unquote_step (EncodeRune r ++ t) = Some (EncodeRune r, length (EncodeRune r)).
Proof.
  intros Hr Hs. pose proof (DecodeRune_encode r t Hr) as Hd. pose proof (safe_plain r Hr Hs) as Hp.
  pose proof (EncodeRune_not_nil r) as Hne. apply json_safe_spec in Hs as (H1 & H2 & H3).
  destruct (decide (r < 0x80)) as [Ha|Ha].
  - rewrite EncodeRune_ascii by lia. cbn [app unquote_step]. rewrite byteZ_small by lia.
    replace (r =? 92) with false by lia. replace (r =? 34) with false by lia. replace (r <? 32) with false by lia.
    by replace (r <? 128) with true by lia.
  - pose proof (EncodeRune_high r Hr ltac:(lia)) as Hh. destruct (EncodeRune r) as [|c e] eqn:E; [done|].
    apply Forall_cons in Hh as [Hc _]. apply Forall_cons in Hp as [(P1 & P2 & P3) _]. cbn [app unquote_step].
    replace (byteZ c =? 92) with false by lia. replace (byteZ c =? 34) with false by lia.
    replace (byteZ c <? 32) with false by lia. replace (byteZ c <? 128) with false by lia. cbn [orb].
    rewrite (Hd : DecodeRune (c :: e ++ t) = _). by rewrite E.
Qed.

Lemma unquote_step_u r t :
  0 ≤ r < 0xD800 ∨ 0xE000 ≤ r < 0x10000 →
  unquote_step (bs "\u" ++ hex 4 r ++ t) = Some (EncodeRune r, length (bs "\u" ++ hex 4 r)).
Proof.
  intros Hr. destruct (hex4 r) as (h1 & h2 & h3 & h4 & -> & Hh & Hv); [lia|].
  change (bs "\u") with [Byte.x5c; Byte.x75]. cbn [app unquote_step].
  change (byteZ Byte.x5c =? 92) with true. change (byteZ Byte.x75) with 117. cbn [existsb Z.eqb Pos.eqb orb].
  cbn [getu4]. rewrite Hh, Hv. cbn [mbind option_bind]. by replace ((55296 <=? r) && (r <? 57344)) with false by lia.
Qed.

Lemma unquote_escape_rune r w b t :
  scalar r → unquote_step (escape_rune (r, w, b) ++ t) = Some (EncodeRune r, length (escape_rune (r, w, b))).
Proof.
  intros Hr. unfold escape_rune. destruct (bad_rune (r, w, b)) eqn:Eb.
  { unfold bad_rune in Eb. cbn [fst snd] in Eb. kv_bool. by subst r. }
  destruct (json_safe r) eqn:Es; [by apply unquote_step_plain|].
  pose proof (unsafe_small r Hr Es) as Hu.
  destruct ((r =? 34) || (r =? 92)) eqn:E1.
  { apply orb_true_iff in E1 as [E1|E1]; kv_bool; by subst r. }
  destruct (r =? 8) eqn:E8; kv_bool; [by subst r|]. destruct (r =? 12) eqn:E12; kv_bool; [by subst r|].
  destruct (r =? 10) eqn:E10; kv_bool; [by subst r|]. destruct (r =? 13) eqn:E13; kv_bool; [by subst r|].
  destruct (r =? 9) eqn:E9; kv_bool; [by subst r|].
  rewrite <-app_assoc. apply unquote_step_u.
  destruct Hu as [Hu|Hu]; [lia|]. repeat (apply elem_of_cons in Hu as [->|Hu]; [lia|]). by apply not_elem_of_nil in Hu.
Qed.

Lemma escape_rune_not_nil r w b : scalar r → (0 < length (escape_rune (r, w, b)))%nat.
Proof.
  intros Hr. pose proof (unquote_escape_rune r w b [] Hr) as H. rewrite app_nil_r in H.
  destruct (escape_rune (r, w, b)); [done|]. cbn [length]. lia.
Qed.

(** Reading a quoted string back repairs its UTF-8 and changes nothing else. *)
Lemma unquote_escape s : unquote (escape s) = Some (repair s).
Proof.
  unfold unquote. induction s as [|b p IH] using rune_ind; [done|].
  pose proof (decoded_scalar _ _ _ (DecodeRune_decoded b p)) as Hr. rewrite repair_cons.
  unfold escape in *. rewrite runes_cons. cbn [fmap list_fmap concat].
  erewrite unquote_go_step; [|by apply unquote_escape_rune|by apply escape_rune_not_nil].
  rewrite drop_app_length. by rewrite IH.
Qed.

(** The texts of string literals. *)
Inductive strlit : bytes → Prop :=
| strlit_nil : strlit []
| strlit_plain c s : plain c → strlit s → strlit (c :: s)
| strlit_simple e s : existsb (Z.eqb (byteZ e)) [98; 102; 110; 114; 116; 92; 47; 34] = true → strlit s →
    strlit (Byte.x5c :: e :: s)
| strlit_u h1 h2 h3 h4 s : is_hex h1 && is_hex h2 && is_hex h3 && is_hex h4 = true → strlit s →
    strlit (Byte.x5c :: Byte.x75 :: h1 :: h2 :: h3 :: h4 :: s).

Lemma byteZ_is b c : byteZ b = byteZ c → b = c.
Proof. apply byteZ_inj. Qed.

Lemma scan_string_strlit s raw r : scan_string s = Some (raw, r) → strlit raw ∧ s = raw ++ Byte.x22 :: r.
Proof.
  revert raw r. induction s as [s IH] using (induction_ltof1 _ (@length _)). unfold ltof in IH. intros raw r H.
  destruct s as [|c s]; [done|]. cbn [scan_string] in H.
  destruct (byteZ c =? 34) eqn:E1; kv_bool.
  { injection H as <- <-. rewrite (byteZ_is c Byte.x22) by done. split; [constructor|done]. }
  destruct (byteZ c =? 92) eqn:E2; kv_bool.
  - rewrite (byteZ_is c Byte.x5c) in * by done. destruct s as [|e s]; [done|].
    destruct (existsb _ _) eqn:E3.
    + destruct (scan_string s) as [[raw' r']|] eqn:Es; [|done]. injection H as <- <-.
      apply IH in Es as [Hl ->]; [|cbn [length]; lia]. split; [by constructor|done].
    + destruct (byteZ e =? 117) eqn:E4; [|done]. kv_bool. rewrite (byteZ_is e Byte.x75) in * by done.
      destruct s as [|h1 [|h2 [|h3 [|h4 s]]]]; try done. destruct (_ && _ && _ && _) eqn:Eh; [|done].
      destruct (scan_string s) as [[raw' r']|] eqn:Es; [|done]. injection H as <- <-.
      apply IH in Es as [Hl ->]; [|cbn [length]; lia]. split; [by constructor|done].
  - destruct (byteZ c <? 32) eqn:E3; [done|]. kv_bool.
    destruct (scan_string s) as [[raw' r']|] eqn:Es; [|done]. injection H as <- <-.
    apply IH in Es as [Hl ->]; [|cbn [length]; lia]. split; [by constructor|done].
Qed.

Lemma strlit_drop_high n s : strlit s → Forall (λ b, 0x80 ≤ byteZ b) (take n s) → strlit (drop n s).
Proof.
  revert s. induction n as [|n IH]; intros s Hs Hf; [done|]. destruct s as [|c s]; [done|].
  cbn [take drop] in *. apply Forall_cons in Hf as [Hc Hf]. apply IH; [|done].
  inversion Hs; subst; try done; by vm_compute in Hc.
Qed.

Lemma strlit_getu4 s r : strlit s → getu4 s = Some r → strlit (drop 6 s) ∧ (6 ≤ length s)%nat.
Proof.
  intros Hs H. destruct Hs as [|c s Hc Hs|e s He Hs|h1 h2 h3 h4 s Hh Hs]; [done|..].
  - destruct Hc as (_ & _ & Hc). exfalso. destruct c; try done.
  - exfalso. destruct e; try done.
  - split; [done|cbn [length]; lia].
Qed.

(** Each step of unquoting a literal succeeds and leaves a literal. *)
Lemma strlit_step c s : strlit (c :: s) →
  ∃ out n, unquote_step (c :: s) = Some (out, n) ∧ (0 < n)%nat ∧ strlit (drop n (c :: s)).
Proof.
  intros Hs. inversion Hs as [|c' s' (P1 & P2 & P3) Hs'|e s' He Hs'|h1 h2 h3 h4 s' Hh Hs']; subst.
  - cbn [unquote_step]. replace (byteZ c =? 92) with false by lia. replace (byteZ c =? 34) with false by lia.
    replace (byteZ c <? 32) with false by lia. cbn [orb]. destruct (byteZ c <? 128); [exists [c], 1%nat; split; [reflexivity|split; [lia|exact Hs']]|].
    pose proof (DecodeRune_width (c :: s) ltac:(done)) as Hw. pose proof (DecodeRune_cont c s) as Hc.
    destruct (DecodeRune (c :: s)) as [r [|w]]; cbn [fst snd pred] in *; [lia|]. eexists _, _. split; [done|].
    split; [lia|]. cbn [drop]. by apply strlit_drop_high.
  - cbn [unquote_step]. change (byteZ Byte.x5c =? 92) with true. cbn iota.
    destruct (existsb _ [34; 92; 47; 39]) eqn:E1; [exists [e], 2%nat; split; [reflexivity|split; [lia|exact Hs']]|].
    cbn [existsb] in He, E1. do 5 (let E := fresh in destruct (byteZ e =? _) eqn:E in |- *; [eexists _, 2%nat; split; [reflexivity|split; [lia|done]]|]).
    exfalso. repeat rewrite orb_false_r in *. kv_bool. lia.
  - assert (Hg : getu4 (Byte.x5c :: Byte.x75 :: h1 :: h2 :: h3 :: h4 :: s') =
      Some (((hex_val h1 * 16 + hex_val h2) * 16 + hex_val h3) * 16 + hex_val h4)) by (cbn [getu4]; by rewrite Hh).
    cbn [unquote_step]. change (byteZ Byte.x5c =? 92) with true. change (byteZ Byte.x75) with 117.
    cbn [existsb Z.eqb Pos.eqb orb]. rewrite Hg. cbn [mbind option_bind]. clear Hh. destruct (_ && _); [|eexists _, 6%nat; split; [reflexivity|split; [lia|exact Hs']]].
    change (drop 6 _) with s'. destruct (getu4 s') as [r2|] eqn:E2; cbn [mbind option_bind]; [|eexists _, 6%nat; split; [reflexivity|split; [lia|exact Hs']]].
    destruct (surrogates _ r2); [|eexists _, 6%nat; split; [reflexivity|split; [lia|exact Hs']]]. eexists _, 12%nat. split; [done|]. split; [lia|].
    apply (strlit_getu4 s' r2) in E2 as [E2 _]; [|done]. done.
Qed.

Lemma strlit_unquote raw : strlit raw → is_Some (unquote raw).
Proof.
  unfold unquote. induction raw as [raw IH] using (induction_ltof1 _ (@length _)). unfold ltof in IH. intros Hs.
  destruct raw as [|c s]; [by eexists|]. destruct (strlit_step c s Hs) as (out & n & H & Hn & Hd).
  rewrite (unquote_go_step _ out n) by done. apply fmap_is_Some, IH; [|done]. rewrite length_drop. cbn [length]. lia.
Qed.

(** Whatever the scanner accepts as a string can be unquoted. *)
Lemma unquote_total s raw r : scan_string s = Some (raw, r) → is_Some (unquote raw).
Proof. intros [H _]%scan_string_strlit. by apply strlit_unquote. Qed.

(** ** Lemmas on the parser *)

Lemma skip_ws_length s : (length (skip_ws s) ≤ length s)%nat.
Proof. induction s as [|b s IH]; [done|]. cbn [skip_ws]. destruct (is_ws b); cbn [length]; lia. Qed.

Lemma span_digits_app s ds r : span_digits s = (ds, r) → s = ds ++ r.
Proof.
  revert ds r. induction s as [|b s IH]; intros ds r H; cbn [span_digits] in H; [by injection H as <- <-|].
  destruct (is_digit b); [|by injection H as <- <-]. destruct (span_digits s) as [ds' r']. injection H as <- <-.
  cbn [app]. by rewrite <-(IH ds' r').
Qed.

Lemma digits1_app s ds r : digits1 s = Some (ds, r) → s = ds ++ r ∧ ds ≠ [].
Proof.
  unfold digits1. destruct (span_digits s) as [[|d ds'] r'] eqn:E; [done|]. intros [= <- <-].
  apply span_digits_app in E. done.
Qed.

Lemma scan_int_app s ds r : scan_int s = Some (ds, r) → s = ds ++ r ∧ ds ≠ [].
Proof. unfold scan_int. destruct s as [|[] s]; first [apply digits1_app|intros [= <- <-]; done]. Qed.

Lemma scan_frac_app s ds r : scan_frac s = Some (ds, r) → s = ds ++ r.
Proof.
  unfold scan_frac. destruct s as [|b s]; [by intros [= <- <-]|].
  destruct b; try (by intros [= <- <-]). destruct (digits1 s) as [[ds' r']|] eqn:E; [|done].
  intros [= <- <-]. apply digits1_app in E as [-> _]. done.
Qed.

Lemma scan_exp_app s ds r : scan_exp s = Some (ds, r) → s = ds ++ r.
Proof.
  unfold scan_exp. destruct s as [|b s]; [by intros [= <- <-]|].
  destruct (_ || _); [|by intros [= <- <-]]. destruct s as [|c s]; [done|].
  destruct (_ || _).
  - destruct (digits1 s) as [[ds' r']|] eqn:E; [|done]. intros [= <- <-]. apply digits1_app in E as [-> _]. done.
  - destruct (digits1 (c :: s)) as [[ds' r']|] eqn:E; [|done]. intros [= <- <-]. apply digits1_app in E as [-> _]. done.
Qed.

Lemma scan_number_app s lit r : scan_number s = Some (lit, r) → s = lit ++ r ∧ lit ≠ [].
Proof.
  unfold scan_number. intros H.
  destruct (match s with Byte.x2d :: r => ([Byte.x2d], r) | _ => ([], s) end) as [sign s1] eqn:Es.
  assert (Hs : s = sign ++ s1) by (destruct s as [|[] s]; by injection Es as <- <-).
  destruct (scan_int s1) as [[int s2]|] eqn:E1; [|done]. apply scan_int_app in E1 as [-> Hi]. cbn in H.
  destruct (scan_frac s2) as [[frac s3]|] eqn:E2; [|done]. apply scan_frac_app in E2 as ->. cbn in H.
  destruct (scan_exp s3) as [[exp s4]|] eqn:E3; [|done]. apply scan_exp_app in E3 as ->. cbn in H.
  injection H as <- <-. rewrite Hs, <-!app_assoc. split; [done|]. by destruct sign, int.
Qed.

Lemma strip_app lit s r : strip lit s = Some r → s = lit ++ r.
Proof.
  revert s. induction lit as [|x lit IH]; intros s H; cbn [strip] in H; [by injection H as ->|].
  destruct s as [|y s]; [done|]. destruct (bool_decide _) eqn:E; [|done]. kv_bool. subst y. by rewrite (IH s).
Qed.

Lemma strip_lit lit s : strip lit (lit ++ s) = Some s.
Proof. induction lit as [|x lit IH]; [done|]. cbn [strip app]. by rewrite bool_decide_eq_true_2. Qed.

Lemma eat_Some c s r : eat c s = Some r ↔ s = c :: r.
Proof.
  unfold eat. destruct s as [|b s]; [done|]. case_bool_decide as H; split; try done.
  - intros [= ->]. by rewrite H.
  - by intros [= -> ->].
  - by intros [= -> ->].
Qed.

Lemma eat_ws_length c s r : eat c (skip_ws s) = Some r → (length r < length s)%nat.
Proof. intros H%eat_Some. pose proof (skip_ws_length s) as Hl. rewrite H in Hl. cbn [length] in Hl. lia. Qed.

Lemma scan_string_length s raw r : scan_string s = Some (raw, r) → (length r < length s)%nat.
Proof. intros [_ ->]%scan_string_strlit. rewrite length_app. cbn [length]. lia. Qed.

Lemma key_length s k r : eat Byte.x22 (skip_ws s) ≫= scan_string = Some (k, r) → (length r < length s)%nat.
Proof.
  destruct (eat _ _) as [s'|] eqn:E; [|done]. cbn [mbind option_bind]. intros H%scan_string_length.
  apply eat_ws_length in E. lia.
Qed.

Lemma literal_length lit j s j' r : literal lit j s = Ret (j', r) → lit ≠ [] → (length r < length s)%nat.
Proof.
  unfold literal. destruct (strip lit s) as [r'|] eqn:E; [|done]. intros [= _ ->] Hl.
  apply strip_app in E as ->. rewrite length_app. destruct lit; [done|]. cbn [length]. lia.
Qed.

(** Every value takes at least one byte of the input. *)
Lemma value_shrinks fuel :
  (∀ d s j r, value fuel d s = Ret (j, r) → (length r < length s)%nat) ∧
  (∀ d s l r, value_elements fuel d s = Ret (l, r) → (length r < length s)%nat) ∧
  (∀ d s l r, value_members fuel d s = Ret (l, r) → (length r < length s)%nat).
Proof.
  induction fuel as [|fuel (IHv & IHe & IHm)]; [done|]. split; [|split].
  - intros d s j r H. cbn [value] in H. destruct s as [|c s]; [done|].
    destruct (byteZ c =? 91).
    { destruct d as [|d]; [done|]. destruct (eat _ _) as [r'|] eqn:Ee.
      - injection H as _ <-. apply eat_ws_length in Ee. cbn [length]. lia.
      - destruct (value_elements fuel d s) as [[l r']| |] eqn:E; try done. injection H as _ <-.
        apply IHe in E. cbn [length]. lia. }
    destruct (byteZ c =? 123).
    { destruct d as [|d]; [done|]. destruct (eat _ _) as [r'|] eqn:Ee.
      - injection H as _ <-. apply eat_ws_length in Ee. cbn [length]. lia.
      - destruct (value_members fuel d s) as [[l r']| |] eqn:E; try done. injection H as _ <-.
        apply IHm in E. cbn [length]. lia. }
    destruct (byteZ c =? 34).
    { destruct (scan_string s) as [[raw r']|] eqn:E; [|done]. injection H as _ <-.
      apply scan_string_length in E. cbn [length]. lia. }
    do 3 (destruct (byteZ c =? _); [by eapply literal_length|]).
    destruct (scan_number _) as [[lit r']|] eqn:E; [|done]. injection H as _ <-.
    apply scan_number_app in E as [-> Hl]. rewrite length_app. destruct lit; [done|]. cbn [length]. lia.
  - intros d s l r H. cbn [value_elements] in H. pose proof (skip_ws_length s).
    destruct (value fuel d (skip_ws s)) as [[j r1]| |] eqn:E1; try done. apply IHv in E1. cbn in H.
    destruct (eat Byte.x2c _) as [r2|] eqn:E2.
    + apply eat_ws_length in E2. destruct (value_elements fuel d r2) as [[l' r3]| |] eqn:E3; try done.
      injection H as _ <-. apply IHe in E3. lia.
    + destruct (eat Byte.x5d _) as [r3|] eqn:E3; [|done]. injection H as _ <-. apply eat_ws_length in E3. lia.
  - intros d s l r H. cbn [value_members] in H.
    destruct (_ ≫= _) as [[k s1]|] eqn:Ek in H; [|done]. apply key_length in Ek.
    destruct (eat Byte.x3a _) as [s2|] eqn:Ec; [|done]. apply eat_ws_length in Ec. pose proof (skip_ws_length s2).
    destruct (value fuel d (skip_ws s2)) as [[j r1]| |] eqn:E1; try done. apply IHv in E1. cbn in H.
    destruct (eat Byte.x2c _) as [r2|] eqn:E2.
    + apply eat_ws_length in E2. destruct (value_members fuel d r2) as [[l' r3]| |] eqn:E3; try done.
      injection H as _ <-. apply IHm in E3. lia.
    + destruct (eat Byte.x7d _) as [r3|] eqn:E3; [|done]. injection H as _ <-. apply eat_ws_length in E3. lia.
Qed.

(** The budget suffices: no call runs out of fuel when it has two units for
    every byte still to read. *)
Lemma literal_fuel lit j s : literal lit j s ≠ Err NoFuel.
Proof. unfold literal. by destruct (strip lit s). Qed.

Lemma value_fuel fuel :
  (∀ d s, (2 * length s < fuel)%nat → value fuel d s ≠ Err NoFuel) ∧
  (∀ d s, (2 * length s + 1 < fuel)%nat → value_elements fuel d s ≠ Err NoFuel) ∧
  (∀ d s, (2 * length s + 1 < fuel)%nat → value_members fuel d s ≠ Err NoFuel).
Proof.
  induction fuel as [|fuel (IHv & IHe & IHm)]; [split_and!; intros; lia|]. split; [|split].
  - intros d s Hf. cbn [value]. destruct s as [|c s]; [done|]. cbn [length] in Hf.
    destruct (byteZ c =? 91).
    { destruct d as [|d]; [done|]. destruct (eat _ _); [done|]. pose proof (IHe d s ltac:(lia)) as H.
      by destruct (value_elements fuel d s) as [[]|[]|]. }
    destruct (byteZ c =? 123).
    { destruct d as [|d]; [done|]. destruct (eat _ _); [done|]. pose proof (IHm d s ltac:(lia)) as H.
      by destruct (value_members fuel d s) as [[]|[]|]. }
    destruct (byteZ c =? 34); [by destruct (scan_string s) as [[]|]|].
    do 3 (destruct (byteZ c =? _); [apply literal_fuel|]). by destruct (scan_number _) as [[]|].
  - intros d s Hf. cbn [value_elements]. pose proof (skip_ws_length s).
    pose proof (IHv d (skip_ws s) ltac:(lia)) as Hv.
    destruct (value fuel d (skip_ws s)) as [[j r1]|[]|] eqn:E1; try done. apply value_shrinks in E1. go_red.
    destruct (eat Byte.x2c _) as [r2|] eqn:E2; [|by destruct (eat Byte.x5d _)]. apply eat_ws_length in E2.
    pose proof (IHe d r2 ltac:(lia)) as He. by destruct (value_elements fuel d r2) as [[]|[]|].
  - intros d s Hf. cbn [value_members]. destruct (_ ≫= _) as [[k s1]|] eqn:Ek; [|done]. apply key_length in Ek.
    destruct (eat Byte.x3a _) as [s2|] eqn:Ec; [|done]. apply eat_ws_length in Ec. pose proof (skip_ws_length s2).
    pose proof (IHv d (skip_ws s2) ltac:(lia)) as Hv.
    destruct (value fuel d (skip_ws s2)) as [[j r1]|[]|] eqn:E1; try done. apply value_shrinks in E1. go_red.
    destruct (eat Byte.x2c _) as [r2|] eqn:E2; [|by destruct (eat Byte.x7d _)]. apply eat_ws_length in E2.
    pose proof (IHm d r2 ltac:(lia)) as He. by destruct (value_members fuel d r2) as [[]|[]|].
Qed.

Lemma value_not_Panic fuel :
  (∀ d s, value fuel d s ≠ Panic) ∧ (∀ d s, value_elements fuel d s ≠ Panic) ∧ (∀ d s, value_members fuel d s ≠ Panic).
Proof.
  induction fuel as [|fuel (IHv & IHe & IHm)]; [done|]. split; [|split]; intros d s; cbn [value value_elements value_members].
  - destruct s as [|c s]; [done|]. specialize (IHe (pred d) s). specialize (IHm (pred d) s). unfold literal.
    destruct (byteZ c =? 91).
    { destruct d; [done|]. destruct (eat _ _); [done|]. by destruct (value_elements _ _ _) as [[]| |]. }
    destruct (byteZ c =? 123).
    { destruct d; [done|]. destruct (eat _ _); [done|]. by destruct (value_members _ _ _) as [[]| |]. }
    by repeat case_match.
  - specialize (IHv d (skip_ws s)). destruct (value _ _ _) as [[j r]| |]; [|done..]. go_red.
    destruct (eat Byte.x2c _) as [r'|]; [|by destruct (eat Byte.x5d _)]. specialize (IHe d r').
    by destruct (value_elements _ _ _) as [[]| |].
  - destruct (_ ≫= _) as [[k s1]|]; [|done]. destruct (eat Byte.x3a _) as [s2|]; [|done].
    specialize (IHv d (skip_ws s2)). destruct (value _ _ _) as [[j r]| |]; [|done..]. go_red.
    destruct (eat Byte.x2c _) as [r'|]; [|by destruct (eat Byte.x7d _)]. specialize (IHm d r').
    by destruct (value_members _ _ _) as [[]| |].
Qed.

(** Parsing ends on every input, with a value or a syntax error. *)
Lemma parse_total data : (∃ j, parse data = Ret j) ∨ parse data = Err SyntaxError.
Proof.
  unfold parse. pose proof (skip_ws_length data).
  pose proof (proj1 (value_fuel (2 * length data + 1)) maxNestingDepth (skip_ws data) ltac:(lia)) as Hf.
  pose proof (proj1 (value_not_Panic (2 * length data + 1)) maxNestingDepth (skip_ws data)) as Hp.
  destruct (value _ _ _) as [[j r]|[]|]; [|by right|done..]. cbn. destruct (skip_ws r); [left; by eexists|by right].
Qed.

(** ** Printed values *)

(** What may follow a number. *)
Definition stop (rest : bytes) : Prop :=
  match rest with
  | [] => True
  | b :: _ => is_digit b = false ∧ byteZ b ≠ 46 ∧ byteZ b ≠ 101 ∧ byteZ b ≠ 69
  end.

Definition num_ok (lit : bytes) : Prop :=
  (∃ c t, lit = c :: t ∧ (is_digit c = true ∨ byteZ c = 45)) ∧
  ∀ rest, stop rest → scan_number (lit ++ rest) = Some (lit, rest).

(** Values with at most [d] levels of brackets and the text [Marshal] gives
    them. *)
Fixpoint wf (d : nat) (j : json) {struct d} : Prop :=
  match j with
  | JNull | JBool _ => True
  | JNum lit => num_ok lit
  | JStr raw => str_ok raw
  | JArr raw l =>
      match d with
      | O => False
      | S d => raw = jraw (jarr l) ∧ Forall (wf d) l
      end
  | JObj raw l =>
      match d with
      | O => False
      | S d => raw = jraw (jobj l) ∧ Forall (λ kv, str_ok kv.1 ∧ wf d kv.2) l
      end
  end.

Lemma wf_mono d d' j : (d ≤ d')%nat → wf d j → wf d' j.
Proof.
  revert d' j. induction d as [|d IH]; intros d' j Hd Hj.
  { destruct d', j; try done. }
  destruct d' as [|d']; [lia|]. destruct j as [| | | |raw l|raw l]; try done; destruct Hj as [-> Hl]; split; try done.
  - eapply Forall_impl; [exact Hl|]. intros x Hx. apply IH; [lia|done].
  - eapply Forall_impl; [exact Hl|]. intros x [Hk Hx]. split; [done|]. apply IH; [lia|done].
Qed.

Lemma is_digit_range b : is_digit b = true → 48 ≤ byteZ b ≤ 57.
Proof. unfold is_digit. lia. Qed.

(** A printed value starts with a byte that is neither white space nor a
    closing bracket. *)
Lemma wf_head d j : wf d j → ∃ c t, jraw j = c :: t ∧ is_ws c = false ∧ c ≠ Byte.x5d ∧ c ≠ Byte.x7d.
Proof.
  destruct j as [|[]|lit|raw|raw l|raw l]; intros Hj; try (by do 2 eexists).
  - replace (num_ok lit) with (wf d (JNum lit)) in * by (by destruct d).
    assert (Hn : num_ok lit) by (by destruct d). destruct Hn as [(c & t & -> & Hc) _]. exists c, t. split; [done|].
    unfold is_ws. split; [|split; intros ->; destruct Hc as [Hc|Hc]; by vm_compute in Hc].
    destruct Hc as [Hc%is_digit_range|Hc]; cbn [existsb]; rewrite !orb_false_iff; lia.
  - destruct d; [done|]. destruct Hj as [-> _]. by do 2 eexists.
  - destruct d; [done|]. destruct Hj as [-> _]. by do 2 eexists.
Qed.

Lemma skip_ws_head c t : is_ws c = false → skip_ws (c :: t) = c :: t.
Proof. intros H. cbn [skip_ws]. by rewrite H. Qed.

Lemma before_app p r : before (p ++ r) r = p.
Proof. unfold before. rewrite length_app, Nat.add_sub, take_app_length. done. Qed.

Lemma eat_hit c r : is_ws c = false → eat c (skip_ws (c :: r)) = Some r.
Proof. intros Hc. rewrite skip_ws_head by done. by apply eat_Some. Qed.

Lemma commas_cons x l : l ≠ [] → commas (x :: l) = x ++ Byte.x2c :: commas l.
Proof. by destruct l. Qed.

Section printed.
Context (d : nat).

(** What is shown of the values of one depth for the next. *)
Definition reads_back : Prop :=
  ∀ j fuel depth rest, wf d j → (d ≤ depth)%nat → (2 * length (jraw j ++ rest) < fuel)%nat → stop rest →
  value fuel depth (jraw j ++ rest) = Ret (j, rest).

Context (IH : reads_back).

Lemma value_at j fuel depth rest :
  wf d j → (d ≤ depth)%nat → (2 * length (jraw j ++ rest) < fuel)%nat → stop rest →
  value fuel depth (skip_ws (jraw j ++ rest)) = Ret (j, rest).
Proof.
  intros Hj Hd Hf Hr. destruct (wf_head d j Hj) as (c & t & Ec & Hc & _). rewrite <-(IH j fuel depth rest) by done.
  rewrite Ec. cbn [app]. by rewrite skip_ws_head.
Qed.

Lemma elements_back l fuel depth rest :
  Forall (wf d) l → l ≠ [] → (d ≤ depth)%nat →
  (2 * length (commas (jraw <$> l) ++ Byte.x5d :: rest) + 1 < fuel)%nat →
  value_elements fuel depth (commas (jraw <$> l) ++ Byte.x5d :: rest) = Ret (l, rest).
Proof.
  intros Hl. revert fuel. induction Hl as [|j l Hj Hl IHl]; intros fuel Hne Hd Hf; [done|].
  destruct fuel as [|fuel]; [lia|]. cbn [value_elements]. destruct l as [|j' l].
  - cbn [fmap list_fmap commas] in *. rewrite value_at by (done || lia). go_red. done.
  - rewrite (fmap_cons _ _ (_ :: l)), commas_cons, <-app_assoc in Hf |- * by done. cbn [app] in Hf |- *.
    rewrite length_app in Hf. cbn [length] in Hf. rewrite value_at by (rewrite ?length_app; cbn [length]; (done || lia)).
    go_red. rewrite eat_hit by done.
    rewrite IHl by (done || lia). done.
Qed.

Lemma members_back l fuel depth rest :
  Forall (λ kv, str_ok kv.1 ∧ wf d kv.2) l → l ≠ [] → (d ≤ depth)%nat →
  (2 * length (commas (member <$> l) ++ Byte.x7d :: rest) + 1 < fuel)%nat →
  value_members fuel depth (commas (member <$> l) ++ Byte.x7d :: rest) = Ret (l, rest).
Proof.
  intros Hl. revert fuel. induction Hl as [|[k j] l [Hk Hj] Hl IHl]; intros fuel Hne Hd Hf; [done|].
  assert (Hkey : ∀ t, eat Byte.x22 (skip_ws (member (k, j) ++ t)) ≫= scan_string = Some (k, Byte.x3a :: jraw j ++ t)).
  { intros t. unfold member, quoted. cbn [fst snd]. rewrite <-!app_assoc. cbn [app]. rewrite eat_hit by done. cbn [mbind option_bind]. apply Hk. }
  assert (Hlen : ∀ t, (length (jraw j ++ t) + 3 ≤ length (member (k, j) ++ t))%nat).
  { intros t. unfold member, quoted. rewrite !length_app. cbn [length fst snd]. lia. }
  cbn [fst snd] in Hk, Hj. destruct fuel as [|fuel]; [lia|]. cbn [value_members]. destruct l as [|kv l].
  - cbn [fmap list_fmap commas] in *. rewrite Hkey. specialize (Hlen (Byte.x7d :: rest)).
    rewrite eat_hit by done. rewrite value_at by (done || lia). go_red. done.
  - rewrite (fmap_cons _ _ (_ :: l)), commas_cons, <-app_assoc in Hf |- * by done. cbn [app] in Hf |- *.
    set (t := Byte.x2c :: commas (member <$> kv :: l) ++ Byte.x7d :: rest) in *. specialize (Hlen t). rewrite Hkey.
    rewrite eat_hit by done. rewrite value_at by (done || lia). go_red.
    subst t. rewrite eat_hit by done. rewrite IHl; [done..|].
    rewrite !length_app in *. cbn [length] in *. rewrite !length_app in *. cbn [length] in *. lia.
Qed.
End printed.

(** The brackets of an empty array or object do not appear in front of
    elements. *)
Lemma commas_head c l rest :
  Forall (λ x, ∃ b t, x = b :: t ∧ is_ws b = false ∧ b ≠ c) l → l ≠ [] → eat c (skip_ws (commas l ++ rest)) = None.
Proof.
  intros Hl Hne. destruct Hl as [|x l (b & t & -> & Hb & Hd) _]; [done|].
  destruct l; cbn [commas app]; rewrite skip_ws_head by done; cbn [eat]; by rewrite bool_decide_eq_false_2.
Qed.

Lemma value_num fuel depth lit rest :
  num_ok lit → stop rest → value (S fuel) depth (lit ++ rest) = Ret (JNum lit, rest).
Proof.
  intros [(c & t & -> & Hc) Hn] Hr. cbn [app value].
  assert (H : 48 ≤ byteZ c ≤ 57 ∨ byteZ c = 45) by (destruct Hc as [Hc%is_digit_range|Hc]; lia).
  replace (byteZ c =? 91) with false by lia. replace (byteZ c =? 123) with false by lia.
  replace (byteZ c =? 34) with false by lia. replace (byteZ c =? 116) with false by lia.
  replace (byteZ c =? 102) with false by lia. replace (byteZ c =? 110) with false by lia.
  by rewrite (Hn rest Hr : scan_number (c :: t ++ rest) = _).
Qed.

Lemma value_str fuel depth raw rest : str_ok raw → value (S fuel) depth (jraw (JStr raw) ++ rest) = Ret (JStr raw, rest).
Proof.
  intros Hs. unfold jraw, quoted. rewrite <-!app_assoc. cbn [app value]. change (byteZ Byte.x22 =? 91) with false.
  change (byteZ Byte.x22 =? 123) with false. change (byteZ Byte.x22 =? 34) with true. cbn iota. by rewrite (Hs rest).
Qed.

Lemma value_arr d fuel depth l rest :
  reads_back d → Forall (wf d) l → (d ≤ depth)%nat → (2 * length (jraw (jarr l) ++ rest) < S fuel)%nat →
  value (S fuel) (S depth) (jraw (jarr l) ++ rest) = Ret (jarr l, rest).
Proof.
  intros IH Hl Hd Hf. set (s := jraw (jarr l) ++ rest) in *.
  assert (Es : s = Byte.x5b :: commas (jraw <$> l) ++ Byte.x5d :: rest) by (subst s; cbn; by rewrite <-app_assoc).
  assert (Hb : before s rest = jraw (jarr l)) by apply before_app.
  cbn [value]. rewrite Es in *. cbn [length] in Hf. change (byteZ Byte.x5b =? 91) with true. cbn iota.
  destruct (decide (l = [])) as [->|Hne]; [cbn [fmap list_fmap commas app] in *; rewrite eat_hit by done; by rewrite Hb|].
  rewrite commas_head, (elements_back d); try done; [|lia|..].
  - go_red. by rewrite Hb.
  - apply Forall_fmap. eapply Forall_impl; [exact Hl|]. intros j Hj. destruct (wf_head d j Hj) as (b & t & H1 & H2 & H3 & _).
    cbn. eauto 6.
  - by destruct l.
Qed.

Lemma value_obj d fuel depth l rest :
  reads_back d → Forall (λ kv, str_ok kv.1 ∧ wf d kv.2) l → (d ≤ depth)%nat →
  (2 * length (jraw (jobj l) ++ rest) < S fuel)%nat →
  value (S fuel) (S depth) (jraw (jobj l) ++ rest) = Ret (jobj l, rest).
Proof.
  intros IH Hl Hd Hf. set (s := jraw (jobj l) ++ rest) in *.
  assert (Es : s = Byte.x7b :: commas (member <$> l) ++ Byte.x7d :: rest) by (subst s; cbn; by rewrite <-app_assoc).
  assert (Hb : before s rest = jraw (jobj l)) by apply before_app.
  cbn [value]. rewrite Es in *. cbn [length] in Hf. change (byteZ Byte.x7b =? 91) with false.
  change (byteZ Byte.x7b =? 123) with true. cbn iota.
  destruct (decide (l = [])) as [->|Hne]; [cbn [fmap list_fmap commas app] in *; rewrite eat_hit by done; by rewrite Hb|].
  rewrite commas_head, (members_back d); try done; [|lia|..].
  - go_red. by rewrite Hb.
  - apply Forall_fmap, Forall_true. intros [k j]. by eexists _, _.
  - by destruct l.
Qed.

(** Parsing undoes printing. *)
Lemma value_wf d : reads_back d.
Proof.
  induction d as [|d IH]; intros j fuel depth rest Hj Hd Hf Hr; (destruct fuel as [|fuel]; [lia|]);
    destruct j as [|[]|lit|raw|raw l|raw l]; try done; try (by apply value_num);
    try (by apply value_str);
    destruct Hj as [-> Hl]; (destruct depth as [|depth]; [lia|]).
  - apply (value_arr d fuel depth l rest); try done; lia.
  - apply (value_obj d fuel depth l rest); try done; lia.
Qed.

Lemma parse_wf d j : wf d j → (d ≤ maxNestingDepth)%nat → parse (jraw j) = Ret j.
Proof.
  intros Hj Hd. unfold parse. pose proof (value_at d (value_wf d) j (2 * length (jraw j) + 1) maxNestingDepth [] Hj Hd) as H.
  rewrite app_nil_r in H. rewrite H; [done|lia|done].
Qed.

(** ** Numbers *)

Lemma span_digits_stop ds rest :
  Forall (λ b, is_digit b = true) ds → stop rest → span_digits (ds ++ rest) = (ds, rest).
Proof.
  intros Hd Hr. induction Hd as [|b ds Hb Hd IH]; cbn [app].
  - destruct rest as [|b rest]; [done|]. destruct Hr as [Hb _]. cbn [span_digits]. by rewrite Hb.
  - cbn [span_digits]. by rewrite Hb, IH.
Qed.

Lemma scan_frac_stop rest : stop rest → scan_frac rest = Some ([], rest).
Proof. destruct rest as [|b rest]; [done|]. intros (_ & Hb & _). destruct b; done. Qed.

Lemma scan_exp_stop rest : stop rest → scan_exp rest = Some ([], rest).
Proof.
  destruct rest as [|b rest]; [done|]. intros (_ & _ & H1 & H2). cbn [scan_exp].
  by replace ((byteZ b =? 101) || (byteZ b =? 69)) with false by lia.
Qed.

(** Digits without a superfluous zero are a number. *)
Lemma num_ok_digits ds :
  ds ≠ [] → Forall (λ b, is_digit b = true) ds → ds = [Byte.x30] ∨ head ds ≠ Some Byte.x30 → num_ok ds.
Proof.
  intros Hne Hd Hz. destruct ds as [|c t]; [done|]. pose proof Hd as [Hc Ht]%Forall_cons. split.
  { exists c, t. split; [done|by left]. }
  intros rest Hr. unfold scan_number.
  assert (match (c :: t) ++ rest with Byte.x2d :: r => ([Byte.x2d], r) | _ => ([], (c :: t) ++ rest) end =
    ([], (c :: t) ++ rest)) as ->.
  { cbn [app]. destruct c; done. }
  assert (scan_int ((c :: t) ++ rest) = Some (c :: t, rest)) as ->.
  { destruct Hz as [[= -> ->]|Hz]; [done|]. cbn [head] in Hz.
    assert (scan_int ((c :: t) ++ rest) = digits1 ((c :: t) ++ rest)) as -> by (by destruct c).
    unfold digits1. by rewrite span_digits_stop. }
  cbn [mbind option_bind]. rewrite scan_frac_stop by done. cbn [mbind option_bind]. rewrite scan_exp_stop by done.
  cbn [mbind option_bind app]. by rewrite app_nil_r.
Qed.

Lemma dec_go_head fuel n acc :
  0 < n < 2 ^ Z.of_nat fuel → head (dec_go fuel n acc) ≠ Some Byte.x30 ∧ dec_go fuel n acc ≠ [].
Proof.
  revert n acc. induction fuel as [|fuel IH]; intros n acc Hn; [cbn in Hn; lia|]. cbn [dec_go].
  destruct (n <? 10) eqn:E; kv_bool.
  - cbn [head]. split; [|done]. intros [= H]. apply (f_equal byteZ) in H.
    rewrite Z.mod_small, byteZ_small in H by lia. change (byteZ Byte.x30) with 48 in H. lia.
  - apply IH. rewrite Nat2Z.inj_succ, Z.pow_succ_r in Hn by lia.
    pose proof (Z.div_le_upper_bound n 10 (2 ^ Z.of_nat fuel - 1)). Z.to_euclidean_division_equations. lia.
Qed.

Lemma num_ok_dec n : 0 ≤ n → num_ok (dec n).
Proof.
  intros Hn. unfold dec. replace (n <? 0) with false by lia. destruct (dec_nonneg_val n Hn) as (H1 & H2 & _).
  apply num_ok_digits; [done..|]. destruct (decide (n = 0)) as [->|]; [by left|]. right. unfold dec_nonneg.
  apply dec_go_head. rewrite Nat2Z.inj_succ, Z2Nat.id by apply Z.log2_nonneg. split; [lia|].
  apply Z.log2_spec. lia.
Qed.

(** ** Compaction of what [Marshal] printed *)

Definition compact_keeps (p : bytes) : Prop := ∀ t, compact_string (p ++ t) = p ++ compact_string t.

Lemma compact_keeps_cons b p :
  existsb (Z.eqb (byteZ b)) [60; 62; 38] = false → b ≠ Byte.xe2 → compact_keeps p → compact_keeps (b :: p).
Proof.
  intros Hb He Hp t. unfold compact_string. cbn [app compact_go]. rewrite Hb.
  rewrite !bool_decide_eq_false_2 by (unfold sep2028, sep2029; cbn [take]; congruence). by rewrite (Hp t : compact_go 0 _ = _).
Qed.

Lemma compact_keeps_all p :
  Forall (λ b, existsb (Z.eqb (byteZ b)) [60; 62; 38] = false ∧ b ≠ Byte.xe2) p → compact_keeps p.
Proof. induction 1 as [|b p [Hb He] Hp IH]; [done|]. by apply compact_keeps_cons. Qed.

Lemma compact_keeps_e2 b1 b2 :
  (b1, b2) ≠ (Byte.x80, Byte.xa8) → (b1, b2) ≠ (Byte.x80, Byte.xa9) → 0x80 ≤ byteZ b1 ≤ 0xBF → 0x80 ≤ byteZ b2 ≤ 0xBF →
  compact_keeps [Byte.xe2; b1; b2].
Proof.
  intros H1 H2 Hb1 Hb2 t.
  assert (Hk : compact_keeps [b1; b2]).
  { assert (Hc : ∀ b, 0x80 ≤ byteZ b ≤ 0xBF → existsb (Z.eqb (byteZ b)) [60; 62; 38] = false ∧ b ≠ Byte.xe2).
    { intros b Hb. split; [cbn [existsb]; lia|]. intros ->. change (byteZ Byte.xe2) with 226 in Hb. lia. }
    apply compact_keeps_all. auto using Forall_cons, Forall_nil. }
  unfold compact_string. cbn [app compact_go]. change (existsb (Z.eqb (byteZ Byte.xe2)) [60; 62; 38]) with false. cbn iota.
  rewrite !bool_decide_eq_false_2 by (unfold sep2028, sep2029; cbn [take]; congruence).
  f_equal. apply (Hk t).
Qed.

Definition kept (b : Byte.byte) : Prop := existsb (Z.eqb (byteZ b)) [60; 62; 38] = false ∧ b ≠ Byte.xe2.

Lemma kept_Zbyte z : 0 ≤ z < 256 → z ≠ 0xE2 → z ≠ 60 → z ≠ 62 → z ≠ 38 → kept (Zbyte z).
Proof.
  intros Hz H1 H2 H3 H4. split; [cbn [existsb]; rewrite byteZ_small by done; lia|]. intros He.
  apply (f_equal byteZ) in He. rewrite byteZ_small in He by lia. done.
Qed.

(** The encodings other than those of the two line separators. *)
Lemma compact_encode3 r :
  0x800 ≤ r < 0x10000 → r ≠ 0x2028 → r ≠ 0x2029 → compact_keeps (encode3 r).
Proof.
  intros Hr H1 H2. unfold encode3. assert (Hq : 0 ≤ r / 4096 < 16) by (Z.to_euclidean_division_equations; lia).
  pose proof (mod64 r) as Hm. pose proof (mod64 (r / 64)) as Hm1.
  assert (Hdiv : r = r / 4096 * 4096 + r / 64 mod 64 * 64 + r mod 64) by (Z.to_euclidean_division_equations; lia).
  revert Hq Hm Hm1 Hdiv. generalize (r / 4096) (r / 64 mod 64) (r mod 64). intros q m1 m Hq Hm Hm1 Hdiv.
  destruct (decide (q = 2)) as [->|Hne].
  - change (Zbyte (224 + 2)) with Byte.xe2. apply compact_keeps_e2; rewrite ?byteZ_small by lia; try lia.
    + intros [= Ha Hb]. apply (f_equal byteZ) in Ha, Hb. rewrite byteZ_small in Ha, Hb by lia.
      change (byteZ Byte.x80) with 128 in Ha. change (byteZ Byte.xa8) with 168 in Hb. lia.
    + intros [= Ha Hb]. apply (f_equal byteZ) in Ha, Hb. rewrite byteZ_small in Ha, Hb by lia.
      change (byteZ Byte.x80) with 128 in Ha. change (byteZ Byte.xa9) with 169 in Hb. lia.
  - apply compact_keeps_all. repeat (apply Forall_cons; split; [apply kept_Zbyte; lia|]). done.
Qed.

Lemma compact_safe_rune r : scalar r → json_safe r = true → compact_keeps (EncodeRune r).
Proof.
  intros Hr Hs. unfold json_safe in Hs. kv_bool. cbn [existsb] in *. kv_bool.
  rewrite EncodeRune_scalar by done. unfold scalar in Hr.
  destruct (r <? 0x80) eqn:E1; [|destruct (r <? 0x800) eqn:E2; [|destruct (r <? 0x10000) eqn:E3]]; kv_bool.
  - apply compact_keeps_all. apply Forall_cons. split; [|done]. apply kept_Zbyte; lia.
  - pose proof (mod64 r). assert (0 ≤ r / 64 < 32) by (clear -Hr E2; Z.to_euclidean_division_equations; lia).
    apply compact_keeps_all. repeat (apply Forall_cons; split; [apply kept_Zbyte; lia|]). done.
  - apply compact_encode3; lia.
  - pose proof (mod64 r). pose proof (mod64 (r / 64)). pose proof (mod64 (r / 4096)).
    assert (0 ≤ r / 262144 < 5) by (clear -Hr E3; Z.to_euclidean_division_equations; lia).
    apply compact_keeps_all. repeat (apply Forall_cons; split; [apply kept_Zbyte; lia|]). done.
Qed.

Lemma hex_digit_keeps d : 0 ≤ d < 16 →
  existsb (Z.eqb (byteZ (hex_digit d))) [60; 62; 38] = false ∧ hex_digit d ≠ Byte.xe2.
Proof.
  intros Hd. unfold hex_digit. destruct (d <? 10) eqn:E; kv_bool; (split; [cbn [existsb]; rewrite byteZ_small; lia|]);
    intros He; apply (f_equal byteZ) in He; rewrite byteZ_small in He by lia; change (byteZ Byte.xe2) with 226 in He; lia.
Qed.

Lemma compact_escape_rune r w b : scalar r → compact_keeps (escape_rune (r, w, b)).
Proof.
  intros Hr. unfold escape_rune. destruct (bad_rune _); [done|].
  destruct (json_safe r) eqn:Es; [by apply compact_safe_rune|].
  destruct ((r =? 34) || (r =? 92)) eqn:E1; [apply orb_true_iff in E1 as [E1|E1]; kv_bool; by subst r|].
  destruct (r =? 8); [done|]. destruct (r =? 12); [done|]. destruct (r =? 10); [done|]. destruct (r =? 13); [done|].
  destruct (r =? 9); [done|]. apply compact_keeps_all. change (bs "\u") with [Byte.x5c; Byte.x75]. cbn [hex app].
  do 2 (apply Forall_cons; split; [done|]).
  repeat (apply Forall_cons; split; [apply hex_digit_keeps; by apply Z.mod_pos_bound|]). done.
Qed.

(** Quoted strings are not changed by compaction. *)
Lemma compact_escape s : compact_string (escape s) = escape s.
Proof.
  induction s as [|b p IH] using rune_ind; [done|]. unfold escape in *. rewrite runes_cons. cbn [fmap list_fmap concat].
  rewrite (compact_escape_rune _ _ _ (decoded_scalar _ _ _ (DecodeRune_decoded b p))). by rewrite IH.
Qed.

(** ** The size of what is parsed *)

(** No array of the value has more than [N] elements. *)
Unset Elimination Schemes.
Inductive small (N : nat) : json → Prop :=
| small_null : small N JNull
| small_bool b : small N (JBool b)
| small_num lit : small N (JNum lit)
| small_str raw : small N (JStr raw)
| small_arr raw l : (length l ≤ N)%nat → Forall (small N) l → small N (JArr raw l)
| small_obj raw l : Forall (λ kv, small N kv.2) l → small N (JObj raw l).
Set Elimination Schemes.

Lemma literal_small N lit j s j' r : literal lit j s = Ret (j', r) → small N j → small N j'.
Proof. unfold literal. destruct (strip lit s); [|done]. by intros [= <- _]. Qed.

(** An array has no more elements than its text has bytes. *)
Lemma value_small N fuel :
  (∀ d s j r, (length s ≤ N)%nat → value fuel d s = Ret (j, r) → small N j) ∧
  (∀ d s l r, (length s ≤ N)%nat → value_elements fuel d s = Ret (l, r) → (length l + length r ≤ length s)%nat ∧ Forall (small N) l) ∧
  (∀ d s l r, (length s ≤ N)%nat → value_members fuel d s = Ret (l, r) → Forall (λ kv, small N kv.2) l).
Proof.
  induction fuel as [|fuel (IHv & IHe & IHm)]; [done|]. split; [|split].
  - intros d s j r Hs H. cbn [value] in H. destruct s as [|c s]; [done|]. cbn [length] in Hs.
    destruct (byteZ c =? 91).
    { destruct d as [|d]; [done|]. destruct (eat _ _); [injection H as <- _; constructor; [cbn; lia|constructor]|].
      destruct (value_elements fuel d s) as [[l r']| |] eqn:E; try done. injection H as <- _.
      apply IHe in E as [El Hl]; [|lia]. constructor; [lia|done]. }
    destruct (byteZ c =? 123).
    { destruct d as [|d]; [done|]. destruct (eat _ _); [injection H as <- _; constructor; constructor|].
      destruct (value_members fuel d s) as [[l r']| |] eqn:E; try done. injection H as <- _.
      apply IHm in E; [|lia]. by constructor. }
    destruct (byteZ c =? 34); [destruct (scan_string s) as [[]|]; [injection H as <- _; constructor|done]|].
    do 3 (destruct (byteZ c =? _); [eapply literal_small; [exact H|constructor]|]).
    destruct (scan_number _) as [[]|]; [injection H as <- _; constructor|done].
  - intros d s l r Hs H. cbn [value_elements] in H. pose proof (skip_ws_length s).
    destruct (value fuel d (skip_ws s)) as [[j r1]| |] eqn:E1; try done.
    pose proof E1 as Hj%IHv; [|lia]. apply value_shrinks in E1. go_red. cbn in H.
    destruct (eat Byte.x2c _) as [r2|] eqn:E2.
    + apply eat_ws_length in E2. destruct (value_elements fuel d r2) as [[l' r3]| |] eqn:E3; try done.
      injection H as <- <-. apply IHe in E3 as [El Hl]; [|lia]. cbn [length]. split; [lia|by constructor].
    + destruct (eat Byte.x5d _) as [r3|] eqn:E3; [|done]. injection H as <- <-. apply eat_ws_length in E3. cbn [length].
      split; [lia|]. constructor; [done|constructor].
  - intros d s l r Hs H. cbn [value_members] in H.
    destruct (_ ≫= _) as [[k s1]|] eqn:Ek in H; [|done]. apply key_length in Ek.
    destruct (eat Byte.x3a _) as [s2|] eqn:Ec; [|done]. apply eat_ws_length in Ec. pose proof (skip_ws_length s2).
    destruct (value fuel d (skip_ws s2)) as [[j r1]| |] eqn:E1; try done.
    pose proof E1 as Hj%IHv; [|lia]. apply value_shrinks in E1. cbn in H.
    destruct (eat Byte.x2c _) as [r2|] eqn:E2.
    + apply eat_ws_length in E2. destruct (value_members fuel d r2) as [[l' r3]| |] eqn:E3; try done.
      injection H as <- <-. apply IHm in E3; [|lia]. by constructor.
    + destruct (eat Byte.x7d _) as [r3|] eqn:E3; [|done]. injection H as <- <-. constructor; [done|constructor].
Qed.

Lemma parse_small data j : parse data = Ret j → small (length data) j.
Proof.
  unfold parse. destruct (value _ _ _) as [[j' r]| |] eqn:E; try done. go_red. intros H.
  destruct (skip_ws r) in H; [|done]. injection H as <-.
  eapply value_small; [|exact E]. apply skip_ws_length.
Qed.
