(* ===== verification/GoJsonTypes.v ===== *)
(** * GoJsonTypes: the Go types that are stored and sent as JSON

    Base64, and for each kind of Go type a codec: how [json.Marshal] encodes a
    value and how [json.Unmarshal] decodes a JSON value into a variable that
    already holds one. Decoding records an error and goes on, as the package
    does. [codec_ok] is the round-trip law. *)
From stdpp Require Import prelude gmap sorting.
From Stdlib Require Import ZArith Lia Strings.Byte.
From S2P Require Import Prelude GoText GoUtf8 GoJson.
Local Open Scope Z_scope.

(** ** encoding/base64, the standard alphabet with padding *)

Definition b64_alphabet : bytes := bs "ABCDEFGHIJKLMNOPQRSTUVWXYZabcdefghijklmnopqrstuvwxyz0123456789+/".
Definition b64_char (i : Z) : Byte.byte := default Byte.x00 (b64_alphabet !! Z.to_nat i).
Definition b64_val (b : Byte.byte) : option Z :=
  Z.of_nat ∘ fst <$> list_find (eq b) b64_alphabet.
Definition b64_pad : Byte.byte := Byte.x3d.

Fixpoint b64_encode (s : bytes) : bytes :=
  match s with
  | a :: b :: c :: s =>
      let v := byteZ a * 65536 + byteZ b * 256 + byteZ c in
      [b64_char (v / 262144); b64_char (v / 4096 mod 64); b64_char (v / 64 mod 64); b64_char (v mod 64)] ++ b64_encode s
  | [a; b] =>
      let v := byteZ a * 65536 + byteZ b * 256 in
      [b64_char (v / 262144); b64_char (v / 4096 mod 64); b64_char (v / 64 mod 64); b64_pad]
  | [a] =>
      let v := byteZ a * 65536 in
      [b64_char (v / 262144); b64_char (v / 4096 mod 64); b64_pad; b64_pad]
  | [] => []
  end.

(** The quanta of four characters; padding ends the input. *)
Fixpoint b64_quanta (s : bytes) : option bytes :=
  match s with
  | [] => Some []
  | a :: b :: c :: d :: s =>
      va ← b64_val a; vb ← b64_val b;
      if bool_decide (c = b64_pad) then
        if bool_decide (d = b64_pad ∧ s = []) then Some [Zbyte ((va * 64 + vb) / 16)] else None
      else
        vc ← b64_val c;
        if bool_decide (d = b64_pad) then
          if bool_decide (s = []) then
            let v := (va * 64 + vb) * 64 + vc in Some [Zbyte (v / 1024); Zbyte (v / 4)]
          else None
        else
          vd ← b64_val d;
          let v := ((va * 64 + vb) * 64 + vc) * 64 + vd in
          ([Zbyte (v / 65536); Zbyte (v / 256); Zbyte v] ++.) <$> b64_quanta s
  | _ => None
  end.

(** [StdEncoding.Decode] skips line breaks. *)
Definition b64_decode (s : bytes) : option bytes :=
  b64_quanta (filter (λ b, b ≠ Byte.x0a ∧ b ≠ Byte.x0d) s).

(** ** Slices *)

(** A Go slice: nil, or its elements and those that remain in the array behind
    its length, which decoding may bring back; beyond them it is zero. *)
Inductive goslice (A : Type) := SNil | SMake (vis stale : list A).
Arguments SNil {A}.
Arguments SMake {A} vis stale.

Definition elements {A} (s : goslice A) : list A := match s with SNil => [] | SMake v _ => v end.
Definition backing {A} (s : goslice A) : list A := match s with SNil => [] | SMake v t => v ++ t end.
Definition goslice_of {A} (o : option (list A)) : goslice A := match o with None => SNil | Some l => SMake l [] end.
Definition to_option {A} (s : goslice A) : option (list A) := match s with SNil => None | SMake v _ => Some v end.

(** ** Codecs *)

Record codec (A : Type) := mkCodec {
  c_zero : A;
  c_marshal : A → option json;          (* nothing is an error *)
  c_unmarshal : json → A → A * bool     (* the new contents of the variable, whether there was an error *)
}.
Arguments mkCodec {A}.
Arguments c_zero {A}.
Arguments c_marshal {A}.
Arguments c_unmarshal {A}.

Definition Marshal {A} (c : codec A) (x : A) : option bytes := jraw <$> c_marshal c x.

(** The whole input is checked before anything is decoded. *)
Definition Unmarshal {A} (c : codec A) (data : bytes) (x : A) : A * bool :=
  match parse data with
  | Ret j => c_unmarshal c j x
  | _ => (x, true)
  end.

(** [strconv.ParseUint(lit, 10, 64)] on a JSON number. *)
Definition ParseUint (lit : bytes) : option Z :=
  if bool_decide (lit = []) || negb (forallb is_digit lit) then None
  else if digits_val 0 lit <? 2 ^ 64 then Some (digits_val 0 lit) else None.

Definition c_uint (max : Z) : codec Z := mkCodec 0
  (λ n, Some (JNum (dec n)))
  (λ j old,
    match j with
    | JNum lit =>
        match ParseUint lit with
        | Some n => if n <? max then (n, false) else (old, true)
        | None => (old, true)
        end
    | JNull => (old, false)
    | _ => (old, true)
    end).
Definition c_uint64 : codec Z := c_uint (2 ^ 64).

Definition c_bool : codec bool := mkCodec false
  (λ b, Some (JBool b))
  (λ j old, match j with JBool b => (b, false) | JNull => (old, false) | _ => (old, true) end).

Definition c_string : codec bytes := mkCodec []
  (λ s, Some (jstr s))
  (λ j old,
    match j with
    | JStr raw => match unquote raw with Some s => (s, false) | None => (old, true) end
    | JNull => (old, false)
    | _ => (old, true)
    end).

(** [d.array] into a slice: element [i] is decoded over what the array behind
    the slice holds there. *)
Fixpoint decode_elements {A} (c : codec A) (old : list A) (l : list json) : list A * bool :=
  match l with
  | [] => ([], false)
  | j :: l =>
      let '(x, e) := c_unmarshal c j (default (c_zero c) (head old)) in
      let '(xs, e') := decode_elements c (tail old) l in
      (x :: xs, e || e')
  end.

Definition decode_slice {A} (c : codec A) (j : json) (old : goslice A) : goslice A * bool :=
  match j with
  | JNull => (SNil, false)
  | JArr _ [] => (SMake [] [], false)
  | JArr _ l =>
      let '(xs, e) := decode_elements c (backing old) l in
      (SMake xs (drop (length l) (backing old)), e)
  | _ => (old, true)
  end.

Definition c_slice {A} (c : codec A) : codec (goslice A) := mkCodec SNil
  (λ s, match s with SNil => Some JNull | SMake v _ => jarr <$> mapM (c_marshal c) v end)
  (decode_slice c).

(** A byte slice is a base64 string; an array of numbers is decoded too. *)
Definition c_uint8 : codec Byte.byte := mkCodec Byte.x00
  (λ b, Some (JNum (dec (byteZ b))))
  (λ j old, let '(n, e) := c_unmarshal (c_uint 256) j (byteZ old) in (Zbyte n, e)).

Definition c_bytes : codec (goslice Byte.byte) := mkCodec SNil
  (λ s, match s with SNil => Some JNull | SMake v _ => Some (JStr (b64_encode v)) end)
  (λ j old,
    match j with
    | JStr raw =>
        match unquote raw ≫= b64_decode with
        | Some b => (SMake b [], false)
        | None => (old, true)
        end
    | _ => decode_slice c_uint8 j old
    end).

(** [json.RawMessage]: nil, or any bytes. *)
Definition c_raw : codec (option bytes) := mkCodec None
  (λ m, match m with
        | None => Some JNull
        | Some b => match parse b with Ret j => Some (compact j) | _ => None end
        end)
  (λ j _, (Some (jraw j), false)).

(** *** Structs *)

Record field (S : Type) := mkField {
  f_name : bytes;
  f_marshal : S → option json;
  f_unmarshal : json → S → S * bool
}.
Arguments mkField {S}.
Arguments f_name {S}.
Arguments f_marshal {S}.
Arguments f_unmarshal {S}.

Definition field_of {S A} (name : bytes) (c : codec A) (get : S → A) (set : A → S → S) : field S :=
  mkField name (λ s, c_marshal c (get s))
    (λ j s, let '(a, e) := c_unmarshal c j (get s) in (set a s, e)).

(** [foldName] for comparison with names in ASCII: letters in upper case, and
    the two other runes that fold to an ASCII letter. *)
Definition fold_rune (r : Z) : Z :=
  if (97 <=? r) && (r <=? 122) then r - 32
  else if r =? 0x17F then 83 else if r =? 0x212A then 75 else r.
Definition foldName (s : bytes) : list Z := (λ x : Z * nat * Byte.byte, fold_rune x.1.1) <$> runes 0 s.

(** The exact name is preferred. *)
Definition find_field {S} (fs : list (field S)) (key : bytes) : option (field S) :=
  match list_find (λ f, f_name f = key) fs with
  | Some (_, f) => Some f
  | None => snd <$> list_find (λ f, foldName (f_name f) = foldName key) fs
  end.

Definition decode_member {S} (fs : list (field S)) (acc : S * bool) (kv : bytes * json) : S * bool :=
  match unquote kv.1 with
  | None => (acc.1, true)
  | Some key =>
      match find_field fs key with
      | Some f => let '(s, e) := f_unmarshal f kv.2 acc.1 in (s, acc.2 || e)
      | None => acc
      end
  end.

Definition c_struct {S} (zero : S) (fs : list (field S)) : codec S := mkCodec zero
  (λ s, jobj <$> mapM (λ f, pair (escape (f_name f)) <$> f_marshal f s) fs)
  (λ j old,
    match j with
    | JObj _ l => foldl (decode_member fs) (old, false) l
    | JNull => (old, false)
    | _ => (old, true)
    end).

(** *** Maps with string keys *)

Definition key_le {A} (x y : bytes * A) : Prop := bytes_cmp x.1 y.1 ≠ Gt.
#[global] Instance key_le_dec {A} : RelDecision (@key_le A).
Proof. intros x y. unfold key_le. destruct (bytes_cmp x.1 y.1); [left|left|right]; congruence. Defined.

Definition sorted_members {A} (m : gmap bytes A) : list (bytes * A) := merge_sort key_le (map_to_list m).

(** A nil map is nothing. Every value is decoded into a fresh variable. *)
Definition decode_entry {A} (c : codec A) (acc : gmap bytes A * bool) (kv : bytes * json) : gmap bytes A * bool :=
  match unquote kv.1 with
  | None => (acc.1, true)
  | Some key => let '(x, e) := c_unmarshal c kv.2 (c_zero c) in (<[key := x]> acc.1, acc.2 || e)
  end.

Definition c_map {A} (c : codec A) : codec (option (gmap bytes A)) := mkCodec None
  (λ m, match m with
        | None => Some JNull
        | Some m => jobj <$> mapM (λ kv, pair (escape kv.1) <$> c_marshal c kv.2) (sorted_members m)
        end)
  (λ j old,
    match j with
    | JObj _ l => let '(m, e) := foldl (decode_entry c) (default ∅ old, false) l in (Some m, e)
    | JNull => (None, false)
    | _ => (old, true)
    end).

(** ** Lemmas *)

(** *** Base64 *)

Lemma b64_char_val i : 0 ≤ i < 64 → b64_val (b64_char i) = Some i ∧ b64_char i ≠ b64_pad ∧ plain (b64_char i) ∧
  b64_char i ≠ Byte.x0a ∧ b64_char i ≠ Byte.x0d ∧ byteZ (b64_char i) < 0x80 ∧ kept (b64_char i).
Proof.
  intros Hi. assert (Hall : forallb (λ i, bool_decide (b64_val (b64_char i) = Some i) && bool_decide (b64_char i ≠ b64_pad) &&
    (bool_decide (32 ≤ byteZ (b64_char i)) && bool_decide (byteZ (b64_char i) ≠ 34) && bool_decide (byteZ (b64_char i) ≠ 92)) &&
    bool_decide (b64_char i ≠ Byte.x0a) && bool_decide (b64_char i ≠ Byte.x0d) && bool_decide (byteZ (b64_char i) < 0x80) &&
    bool_decide (existsb (Z.eqb (byteZ (b64_char i))) [60; 62; 38] = false)) (seqZ 0 64) = true) by (vm_compute; reflexivity).
  rewrite forallb_forall in Hall. specialize (Hall i).
  assert (Hin : In i (seqZ 0 64)) by (apply list_elem_of_In, elem_of_seqZ; lia). specialize (Hall Hin). clear Hin.
  kv_bool. unfold plain, kept. repeat (split; [done|]). intros He. rewrite He in *. done.
Qed.

(** The three bytes of a quantum. *)
Lemma b64_quantum a b c :
  let v := byteZ a * 65536 + byteZ b * 256 + byteZ c in
  0 ≤ v / 262144 < 64 ∧ 0 ≤ v / 4096 mod 64 < 64 ∧ 0 ≤ v / 64 mod 64 < 64 ∧ 0 ≤ v mod 64 < 64 ∧
  ((v / 262144 * 64 + v / 4096 mod 64) * 64 + v / 64 mod 64) * 64 + v mod 64 = v.
Proof.
  intros v. pose proof (byteZ_range a). pose proof (byteZ_range b). pose proof (byteZ_range c).
  assert (0 ≤ v < 16777216) by lia. clearbody v. repeat (split; [Z.to_euclidean_division_equations; lia|]).
  Z.to_euclidean_division_equations. lia.
Qed.

Lemma Zbyte_mod z b : z mod 256 = byteZ b → Zbyte z = b.
Proof. intros H. apply byteZ_inj. by rewrite byteZ_Zbyte. Qed.

(** Induction in steps of three bytes. *)
Lemma three_ind (P : bytes → Prop) :
  P [] → (∀ a, P [a]) → (∀ a b, P [a; b]) → (∀ a b c s, P s → P (a :: b :: c :: s)) → ∀ s, P s.
Proof.
  intros H0 H1 H2 H3 s. induction s as [s IH] using (induction_ltof1 _ (@length _)). unfold ltof in IH.
  destruct s as [|a [|b [|c s]]]; [done|done|done|]. apply H3, IH. cbn [length]. lia.
Qed.

Lemma b64_quanta_encode s : b64_quanta (b64_encode s) = Some s.
Proof.
  induction s as [|a|a b|a b c s IH] using three_ind; [done|..]; cbn [b64_encode app b64_quanta].
  - pose proof (b64_quantum a Byte.x00 Byte.x00) as (H1 & H2 & _). change (byteZ Byte.x00) with 0 in *.
    rewrite !Z.add_0_r in H1, H2. rewrite (proj1 (b64_char_val _ H1)), (proj1 (b64_char_val _ H2)). cbn [mbind option_bind].
    do 2 f_equal. apply Zbyte_mod. pose proof (byteZ_range a). Z.to_euclidean_division_equations. lia.
  - pose proof (b64_quantum a b Byte.x00) as (H1 & H2 & H3 & H4 & Hv). change (byteZ Byte.x00) with 0 in *.
    rewrite !Z.add_0_r in *. rewrite (proj1 (b64_char_val _ H1)), (proj1 (b64_char_val _ H2)). cbn [mbind option_bind].
    rewrite bool_decide_eq_false_2 by apply (b64_char_val _ H3). rewrite (proj1 (b64_char_val _ H3)). cbn [mbind option_bind].
    pose proof (byteZ_range a). pose proof (byteZ_range b). do 2 f_equal; [|f_equal]; apply Zbyte_mod.
    + Z.to_euclidean_division_equations. lia.
    + Z.to_euclidean_division_equations. lia.
  - pose proof (b64_quantum a b c) as (H1 & H2 & H3 & H4 & Hv).
    rewrite (proj1 (b64_char_val _ H1)), (proj1 (b64_char_val _ H2)). cbn [mbind option_bind].
    rewrite bool_decide_eq_false_2 by apply (b64_char_val _ H3). rewrite (proj1 (b64_char_val _ H3)). cbn [mbind option_bind].
    rewrite bool_decide_eq_false_2 by apply (b64_char_val _ H4). rewrite (proj1 (b64_char_val _ H4)). cbn [mbind option_bind].
    rewrite IH, Hv. cbn [fmap option_fmap option_map app].
    pose proof (byteZ_range a). pose proof (byteZ_range b). pose proof (byteZ_range c).
    f_equal. f_equal; [|f_equal; [|f_equal]]; apply Zbyte_mod; Z.to_euclidean_division_equations; lia.
Qed.

(** The characters of an encoding need no escape and hold no line break. *)
Definition b64_safe (b : Byte.byte) : Prop := plain b ∧ (b ≠ Byte.x0a ∧ b ≠ Byte.x0d) ∧ byteZ b < 0x80 ∧ kept b.

Lemma b64_char_safe i : 0 ≤ i < 64 → b64_safe (b64_char i).
Proof. intros Hi. destruct (b64_char_val i Hi) as (_ & _ & H1 & H2 & H3 & H4 & H5). exact (conj H1 (conj (conj H2 H3) (conj H4 H5))). Qed.

Lemma b64_pad_safe : b64_safe b64_pad.
Proof. by repeat split. Qed.

Lemma b64_encode_safe s : Forall b64_safe (b64_encode s).
Proof.
  induction s as [|a|a b|a b c s IH] using three_ind; [done|..]; cbn [b64_encode app].
  - pose proof (b64_quantum a Byte.x00 Byte.x00) as (H1 & H2 & _). change (byteZ Byte.x00) with 0 in *.
    rewrite !Z.add_0_r in H1, H2. auto using b64_char_safe, b64_pad_safe, Forall_cons, Forall_nil.
  - pose proof (b64_quantum a b Byte.x00) as (H1 & H2 & H3 & _). change (byteZ Byte.x00) with 0 in *.
    rewrite !Z.add_0_r in *. auto using b64_char_safe, b64_pad_safe, Forall_cons, Forall_nil.
  - pose proof (b64_quantum a b c) as (H1 & H2 & H3 & H4 & _). auto 7 using b64_char_safe, Forall_cons.
Qed.

Lemma filter_all {A} (P : A → Prop) `{∀ x, Decision (P x)} l : Forall P l → filter P l = l.
Proof. induction 1 as [|x l Hx Hl IH]; [done|]. rewrite filter_cons_True by done. by rewrite IH. Qed.

Lemma b64_decode_encode s : b64_decode (b64_encode s) = Some s.
Proof.
  unfold b64_decode. rewrite filter_all; [apply b64_quanta_encode|].
  eapply Forall_impl; [apply b64_encode_safe|]. by intros b (_ & ? & _).
Qed.

(** Text without escapes. *)
Lemma unquote_plain s : Forall (λ b, plain b ∧ byteZ b < 0x80) s → unquote s = Some s.
Proof.
  unfold unquote. induction 1 as [|b s [(H1 & H2 & H3) H4] Hs IH]; [done|]. cbn [unquote_go unquote_step].
  replace (byteZ b =? 92) with false by lia. replace (byteZ b =? 34) with false by lia.
  replace (byteZ b <? 32) with false by lia. replace (byteZ b <? 128) with true by lia. cbn. by rewrite IH.
Qed.

Lemma unquote_b64 s : unquote (b64_encode s) = Some (b64_encode s).
Proof. apply unquote_plain. eapply Forall_impl; [apply b64_encode_safe|]. by intros b (? & _ & ? & _). Qed.

Lemma str_ok_b64 s : str_ok (b64_encode s).
Proof.
  rewrite <-(app_nil_r (b64_encode s)). apply str_ok_plain; [|apply str_ok_nil].
  eapply Forall_impl; [apply b64_encode_safe|]. by intros b (? & _).
Qed.

Lemma compact_b64 s : compact_string (b64_encode s) = b64_encode s.
Proof.
  rewrite <-(app_nil_r (b64_encode s)) at 1. rewrite compact_keeps_all; [by rewrite app_nil_r|].
  eapply Forall_impl; [apply b64_encode_safe|]. by intros b (_ & _ & _ & ?).
Qed.

(** *** The round-trip law *)

(** Values in [P] are encoded with at most [d] levels of brackets; the text is
    compact, and decoding it into a fresh variable gives the value back. *)
Definition codec_ok {A} (c : codec A) (P : A → Prop) (d : nat) : Prop :=
  ∀ x, P x → ∃ j, c_marshal c x = Some j ∧ wf d j ∧ compact j = j ∧ c_unmarshal c j (c_zero c) = (x, false).

Lemma codec_roundtrip {A} (c : codec A) P d x :
  codec_ok c P d → (d ≤ maxNestingDepth)%nat → P x →
  ∃ data, Marshal c x = Some data ∧ Unmarshal c data (c_zero c) = (x, false).
Proof.
  intros Hc Hd Hx. destruct (Hc x Hx) as (j & Hm & Hw & _ & Hu). exists (jraw j). unfold Marshal, Unmarshal.
  by rewrite Hm, (parse_wf d j Hw Hd).
Qed.

Lemma codec_ok_weaken {A} (c : codec A) (P Q : A → Prop) d d' :
  codec_ok c P d → (∀ x, Q x → P x) → (d ≤ d')%nat → codec_ok c Q d'.
Proof.
  intros Hc HQ Hd x Hx. destruct (Hc x (HQ x Hx)) as (j & H1 & H2 & H3). exists j. split; [done|].
  split; [by eapply wf_mono|done].
Qed.

Lemma ParseUint_dec n : 0 ≤ n < 2 ^ 64 → ParseUint (dec n) = Some n.
Proof.
  intros Hn. unfold dec. replace (n <? 0) with false by lia. destruct (dec_nonneg_val n) as (H1 & H2 & H3); [lia|].
  unfold ParseUint. rewrite bool_decide_eq_false_2 by done. replace (forallb _ _) with true; cbn [negb orb].
  - rewrite H3. by replace (n <? 2 ^ 64) with true by lia.
  - symmetry. apply forallb_forall. intros x Hx%list_elem_of_In. rewrite Forall_forall in H2. auto.
Qed.

Lemma uint64_ok : codec_ok c_uint64 (λ n, 0 ≤ n < 2 ^ 64) 0.
Proof.
  intros n Hn. eexists. split; [done|]. split; [apply num_ok_dec; lia|]. split; [done|]. cbn.
  rewrite ParseUint_dec by done. by replace (n <? 2 ^ 64) with true by lia.
Qed.

Lemma bool_ok : codec_ok c_bool (λ _, True) 0.
Proof. intros b _. by eexists. Qed.

Lemma string_ok : codec_ok c_string (λ s, ValidString s = true) 0.
Proof.
  intros s Hs. eexists. split; [done|]. split; [apply escape_str_ok|]. cbn. rewrite compact_escape.
  split; [done|]. by rewrite unquote_escape, repair_valid.
Qed.

Lemma bytes_ok : codec_ok c_bytes (λ s, ∃ o, s = goslice_of o) 0.
Proof.
  intros s [[b|] ->]; eexists; split; try done. split; [apply str_ok_b64|]. cbn. rewrite compact_b64. split; [done|].
  by rewrite unquote_b64; cbn; rewrite b64_decode_encode.
Qed.

Lemma slice_ok {A} (c : codec A) P d :
  codec_ok c P d → codec_ok (c_slice c) (λ s, ∃ o, s = goslice_of o ∧ Forall P (default [] o)) (S d).
Proof.
  intros Hc s ([l|] & -> & Hl); [|by eexists]. change (Forall P l) in Hl. cbn [goslice_of]. cbn [c_slice c_marshal c_unmarshal c_zero].
  assert (H : ∃ js, mapM (c_marshal c) l = Some js ∧ Forall (wf d) js ∧ compact <$> js = js ∧ length js = length l ∧
    decode_elements c [] js = (l, false)).
  { clear -Hc Hl. induction Hl as [|x k Hx Hk (js & H1 & H2 & H3 & H4 & H5)].
    { exists []. split; [done|]. split; [constructor|done]. }
    destruct (Hc x Hx) as (j & J1 & J2 & J3 & J4). exists (j :: js). cbn [mapM decode_elements head tail default].
    rewrite J1. cbn [mbind option_bind]. rewrite H1. unfold Datatypes.id. rewrite J4, H5. split; [done|]. split; [by constructor|].
    rewrite fmap_cons, J3, H3. cbn [length]. by rewrite H4. }
  destruct H as (js & -> & H2 & H3 & H4 & H5). eexists. split; [done|]. split; [by split|].
  split; [cbn; by rewrite H3|]. unfold jarr, decode_slice. destruct js as [|j js]; [by destruct l|].
  cbn [backing]. rewrite H5. by rewrite drop_nil.
Qed.

Lemma raw_ok d :
  (d ≤ maxNestingDepth)%nat → codec_ok c_raw (λ m, ∃ j, m = Some (jraw j) ∧ wf d j ∧ compact j = j) d.
Proof.
  intros Hd m (j & -> & Hw & Hc). exists j. cbn [c_raw c_marshal c_unmarshal]. rewrite (parse_wf d j Hw Hd), Hc. done.
Qed.

(** *** Maps *)

Lemma sorted_members_perm {A} (m : gmap bytes A) : sorted_members m ≡ₚ map_to_list m.
Proof. apply merge_sort_Permutation. Qed.

Definition put_entry {A} (m : gmap bytes A) (kv : bytes * A) : gmap bytes A := <[kv.1 := kv.2]> m.

Lemma foldl_put_entry {A} (l : list (bytes * A)) m :
  NoDup l.*1 → foldl put_entry m l = list_to_map l ∪ m.
Proof.
  revert m. induction l as [|[k x] l IH]; intros m Hnd; [symmetry; apply map_empty_union|].
  cbn [fmap list_fmap] in Hnd. apply NoDup_cons in Hnd as [Hk Hnd]. cbn [foldl]. rewrite IH by done.
  unfold put_entry. cbn [fst snd list_to_map foldr].
  rewrite <-insert_union_r by (apply not_elem_of_list_to_map_1; exact Hk). apply insert_union_l.
Qed.

Lemma foldl_sorted_members {A} (m : gmap bytes A) : foldl put_entry ∅ (sorted_members m) = m.
Proof.
  assert (Hnd : NoDup (sorted_members m).*1) by (rewrite sorted_members_perm; apply NoDup_fst_map_to_list).
  rewrite foldl_put_entry, map_union_empty by done.
  rewrite (list_to_map_proper _ (map_to_list m)); [apply list_to_map_to_list|done|apply sorted_members_perm].
Qed.

(** A list of members, encoded and decoded: the keys are repaired. *)
Lemma members_ok {A} (c : codec A) P d l m :
  codec_ok c P d → Forall (λ kv, P kv.2) l →
  ∃ js, mapM (λ kv, pair (escape kv.1) <$> c_marshal c kv.2) l = Some js ∧
    Forall (λ kv, str_ok kv.1 ∧ wf d kv.2) js ∧
    (λ kv : bytes * json, (compact_string kv.1, compact kv.2)) <$> js = js ∧
    foldl (decode_entry c) (m, false) js = (foldl put_entry m ((λ kv, (repair kv.1, kv.2)) <$> l), false).
Proof.
  intros Hc Hl. revert m. induction Hl as [|[k x] l Hx Hl IH]; intros m.
  { exists []. split; [done|]. split; [constructor|done]. }
  destruct (Hc x Hx) as (j & J1 & J2 & J3 & J4). destruct (IH (<[repair k := x]> m)) as (js & H1 & H2 & H3 & H4).
  exists ((escape k, j) :: js). cbn [mapM fst snd] in *. rewrite J1. cbn [fmap option_fmap option_map mbind option_bind].
  rewrite H1. split; [done|]. split; [constructor; [by split; [apply escape_str_ok|]|done]|].
  split; [rewrite fmap_cons; cbn [fst snd]; by rewrite compact_escape, J3, H3|].
  cbn [foldl fmap list_fmap]. unfold decode_entry at 2. cbn [fst snd]. rewrite unquote_escape, J4. cbn [orb]. exact H4.
Qed.

Lemma map_ok {A} (c : codec A) P d :
  codec_ok c P d →
  codec_ok (c_map c) (λ m, ∃ m', m = Some m' ∧ map_Forall (λ k x, ValidString k = true ∧ P x) m') (S d).
Proof.
  intros Hc m (m' & -> & Hm).
  assert (Hl : Forall (λ kv, ValidString kv.1 = true ∧ P kv.2) (sorted_members m')).
  { rewrite sorted_members_perm. apply map_Forall_to_list in Hm. eapply Forall_impl; [exact Hm|]. by intros []. }
  destruct (members_ok c P d (sorted_members m') ∅ Hc) as (js & H1 & H2 & H3 & H4).
  { eapply Forall_impl; [exact Hl|]. by intros [] []. }
  cbn [c_map c_marshal c_unmarshal c_zero]. rewrite H1. eexists. split; [done|]. split; [by split|].
  split; [cbn; by rewrite H3|]. unfold jobj. cbn [default]. rewrite H4. f_equal. f_equal.
  rewrite <-(foldl_sorted_members m') at 2. f_equal. clear -Hl.
  induction Hl as [|[k x] l [Hk _] Hl IH]; [done|]. rewrite fmap_cons. cbn [fst snd] in *. by rewrite repair_valid, IH.
Qed.

(** *** Structs *)

(** Decoding the fields of [x] one after the other takes [s] to [x]. *)
Fixpoint field_chain {S} (d : nat) (fs : list (field S)) (s x : S) : Prop :=
  match fs with
  | [] => s = x
  | f :: fs => ∃ j s', f_marshal f x = Some j ∧ wf d j ∧ compact j = j ∧ f_unmarshal f j s = (s', false) ∧
      field_chain d fs s' x
  end.

Lemma field_chain_cons {S A} d d0 P name (c : codec A) get set fs (s x : S) :
  codec_ok c P d0 → (d0 ≤ d)%nat → P (get x) → get s = c_zero c → field_chain d fs (set (get x) s) x →
  field_chain d (field_of name c get set :: fs) s x.
Proof.
  intros Hc Hd Hx Hz Hf. destruct (Hc _ Hx) as (j & H1 & H2 & H3 & H4). exists j, (set (get x) s).
  cbn [field_of f_marshal f_unmarshal]. rewrite Hz, H4. split; [done|]. split; [by eapply wf_mono|done].
Qed.

(** Names that are found again. *)
Definition names_ok {S} (fs : list (field S)) : Prop :=
  Forall (λ f, ValidString (f_name f) = true ∧ find_field fs (f_name f) = Some f) fs.

Lemma struct_chain {S} d (zero : S) fs x :
  names_ok fs → field_chain d fs zero x →
  ∃ j, c_marshal (c_struct zero fs) x = Some j ∧ wf (Datatypes.S d) j ∧ compact j = j ∧
    c_unmarshal (c_struct zero fs) j zero = (x, false).
Proof.
  intros Hn Hf.
  assert (H : ∀ gs s, Forall (λ f, ValidString (f_name f) = true ∧ find_field fs (f_name f) = Some f) gs →
    field_chain d gs s x → ∃ js, mapM (λ f, pair (escape (f_name f)) <$> f_marshal f x) gs = Some js ∧
      Forall (λ kv, str_ok kv.1 ∧ wf d kv.2) js ∧
      (λ kv : bytes * json, (compact_string kv.1, compact kv.2)) <$> js = js ∧
      foldl (decode_member fs) (s, false) js = (x, false)).
  { intros gs s Hgs. revert s. induction Hgs as [|f gs [Hv Hff] Hgs IH]; intros s Hc.
    { exists []. cbn in Hc. subst x. split; [done|]. split; [constructor|done]. }
    destruct Hc as (j & s' & H1 & H2 & H3 & H4 & H5). destruct (IH s' H5) as (js & K1 & K2 & K3 & K4).
    exists ((escape (f_name f), j) :: js). cbn [mapM]. rewrite H1, K1. split; [done|].
    split; [constructor; [by split; [apply escape_str_ok|]|done]|].
    split; [rewrite fmap_cons; cbn [fst snd]; by rewrite compact_escape, H3, K3|].
    cbn [foldl]. unfold decode_member at 2. cbn [fst snd]. rewrite unquote_escape, repair_valid, Hff, H4 by done. exact K4. }
  destruct (H fs zero Hn Hf) as (js & K1 & K2 & K3 & K4). cbn [c_struct c_marshal c_unmarshal]. rewrite K1.
  eexists. split; [done|]. split; [by split|]. split; [cbn; by rewrite K3|]. done.
Qed.

(** ** Decoded values are well-typed, whatever the input *)

Definition codec_typed {A} (c : codec A) (T : A → Prop) : Prop :=
  T (c_zero c) ∧ ∀ j x, T x → T (c_unmarshal c j x).1.

Lemma Unmarshal_typed {A} (c : codec A) T data : codec_typed c T → T (Unmarshal c data (c_zero c)).1.
Proof. intros [Hz Hu]. unfold Unmarshal. destruct (parse data); [by apply Hu|done..]. Qed.

Lemma digits_val_nonneg acc ds : 0 ≤ acc → Forall (λ b, is_digit b = true) ds → 0 ≤ digits_val acc ds.
Proof.
  unfold digits_val. intros Ha Hd. revert acc Ha. induction Hd as [|b ds Hb Hd IH]; intros acc Ha; [done|].
  cbn [foldl]. apply IH. apply is_digit_range in Hb. lia.
Qed.

Lemma ParseUint_nonneg lit n : ParseUint lit = Some n → 0 ≤ n.
Proof.
  unfold ParseUint. destruct (_ || _) eqn:E; [done|]. destruct (_ <? _); [|done]. intros [= <-]. kv_bool.
  apply digits_val_nonneg; [done|]. apply Forall_forall. intros x Hx%list_elem_of_In.
  by apply (proj1 (forallb_forall is_digit lit) H0).
Qed.

Lemma uint_typed max : 0 < max → codec_typed (c_uint max) (λ n, 0 ≤ n < max).
Proof.
  intros Hm. split; [cbn; lia|]. intros j x Hx. destruct j as [| |lit| | |]; try done. cbn.
  destruct (ParseUint lit) as [n|] eqn:E; [|done]. apply ParseUint_nonneg in E.
  destruct (n <? max) eqn:El; [|done]. cbn. lia.
Qed.

Lemma any_typed {A} (c : codec A) : codec_typed c (λ _, True).
Proof. done. Qed.

Lemma getu4_range s r : getu4 s = Some r → 0 ≤ r < 65536.
Proof.
  assert (Hx : ∀ h, is_hex h = true → 0 ≤ hex_val h < 16).
  { intros h Hh. unfold is_hex, in_range, hex_val, is_digit in *. repeat case_match; lia. }
  unfold getu4. destruct s as [|[] s]; try done. destruct s as [|[] s]; try done.
  destruct s as [|h1 [|h2 [|h3 [|h4 s]]]]; try done. destruct (_ && _) eqn:E; [|done]. intros [= <-]. kv_bool.
  pose proof (Hx h1). pose proof (Hx h2). pose proof (Hx h3). pose proof (Hx h4). intuition lia.
Qed.

(** Unquoting writes encoded runes only. *)
Lemma unquote_step_scalar s out n :
  unquote_step s = Some (out, n) → (0 < n)%nat ∧ ∃ r, scalar r ∧ out = EncodeRune r.
Proof.
  assert (Ha : ∀ b : Byte.byte, byteZ b < 0x80 → ∃ r, scalar r ∧ [b] = EncodeRune r).
  { intros b Hb. exists (byteZ b). pose proof (byteZ_range b). split; [unfold scalar; lia|].
    rewrite EncodeRune_ascii by lia. by rewrite Zbyte_byteZ. }
  destruct s as [|c s]; [done|]. cbn [unquote_step]. destruct (byteZ c =? 92).
  - destruct s as [|e s]; [done|]. destruct (existsb _ _) eqn:Ee.
    { intros [= <- <-]. split; [lia|]. apply Ha. cbn [existsb] in Ee. lia. }
    do 5 (destruct (byteZ e =? _); [intros [= <- <-]; split; [lia|by apply Ha]|]).
    destruct (byteZ e =? _); [|done]. destruct (getu4 (c :: e :: s)) as [rr|] eqn:Eg; [|done].
    cbn [mbind option_bind]. apply getu4_range in Eg. destruct (_ && _) eqn:Es.
    + destruct (_ ≫= _) as [d|] eqn:Ed; intros [= <- <-]; split; try lia.
      * destruct (getu4 (drop 6 _)) as [r2|] eqn:E2; [|done]. cbn [mbind option_bind] in Ed. unfold surrogates in Ed.
        destruct (_ && _) eqn:E3 in Ed; [|done]. injection Ed as <-. eexists. split; [|done]. unfold scalar. lia.
      * exists RuneError. split; [unfold scalar, RuneError; lia|done].
    + intros [= <- <-]. split; [lia|]. exists rr. split; [unfold scalar; lia|done].
  - destruct (_ || _); [done|]. destruct (byteZ c <? 128) eqn:Ec.
    { intros [= <- <-]. split; [lia|]. apply Ha. lia. }
    pose proof (DecodeRune_width (c :: s) ltac:(done)) as Hw. pose proof (DecodeRune_decoded c s) as Hd.
    destruct (DecodeRune (c :: s)) as [r w]. intros [= <- <-]. cbn [fst snd] in *. split; [lia|].
    exists r. split; [by eapply decoded_scalar|done].
Qed.

Lemma unquote_valid raw s : unquote raw = Some s → ValidString s = true.
Proof.
  unfold unquote. revert s. induction raw as [raw IH] using (induction_ltof1 _ (@length _)). unfold ltof in IH.
  intros s H. destruct raw as [|c raw]; [by injection H as <-|].
  destruct (unquote_step (c :: raw)) as [[out n]|] eqn:E; [|cbn [unquote_go] in H; by rewrite E in H].
  destruct (unquote_step_scalar _ _ _ E) as (Hn & r & Hr & ->).
  rewrite (unquote_go_step _ _ _ E Hn) in H. destruct (unquote_go 0 _) as [t|] eqn:Et; [|done].
  injection H as <-. rewrite ValidString_encode by done. apply (IH (drop n (c :: raw))); [|done].
  rewrite length_drop. cbn [length]. lia.
Qed.

Lemma string_typed : codec_typed c_string (λ s, ValidString s = true).
Proof.
  split; [done|]. intros j x Hx. destruct j as [| | |raw| |]; try done. cbn.
  destruct (unquote raw) as [s|] eqn:E; [|done]. by eapply unquote_valid.
Qed.

Lemma decode_elements_typed {A} (c : codec A) T old l :
  codec_typed c T → Forall T old → Forall T (decode_elements c old l).1.
Proof.
  intros [Hz Hu]. revert old. induction l as [|j l IH]; intros old Hold; [constructor|]. cbn [decode_elements].
  assert (Hx : T (default (c_zero c) (head old))) by (destruct Hold; done). specialize (Hu j _ Hx).
  specialize (IH (tail old) ltac:(by destruct Hold)). destruct (c_unmarshal c j _) as [x e].
  destruct (decode_elements c (tail old) l) as [xs e']. by constructor.
Qed.

Lemma slice_typed {A} (c : codec A) T : codec_typed c T → codec_typed (c_slice c) (λ s, Forall T (backing s)).
Proof.
  intros Hc. split; [constructor|]. intros j s Hs. destruct j as [| | | |raw l|]; try done; try constructor.
  cbn [c_slice c_unmarshal decode_slice]. destruct l as [|j l]; [constructor|].
  pose proof (decode_elements_typed c T (backing s) (j :: l) Hc Hs) as H.
  destruct (decode_elements c (backing s) (j :: l)) as [xs e]. cbn [fst backing] in *.
  apply Forall_app. split; [done|]. by apply Forall_drop.
Qed.

Lemma field_typed {S A} (TS : S → Prop) (TA : A → Prop) name (c : codec A) get set j s :
  codec_typed c TA → (∀ s, TS s → TA (get s)) → (∀ a s, TA a → TS s → TS (set a s)) → TS s →
  TS (f_unmarshal (field_of name c get set) j s).1.
Proof.
  intros [_ Hc] Hg Hs H. cbn [field_of f_unmarshal]. specialize (Hc j (get s) (Hg s H)).
  destruct (c_unmarshal c j (get s)) as [a e]. by apply Hs.
Qed.

(** A property that decoding members in [J] keeps. *)
Lemma struct_keeps {S} (J : json → Prop) (TS : S → Prop) fs l s e :
  Forall (λ f, ∀ j s, J j → TS s → TS (f_unmarshal f j s).1) fs → Forall (λ kv, J kv.2) l → TS s →
  TS (foldl (decode_member fs) (s, e) l).1.
Proof.
  intros Hf Hl Hs. induction Hl as [|[k j] l Hj Hl IH] in s, e, Hs |- *; [done|]. cbn [foldl]. cbn [snd] in Hj.
  assert (H : TS (decode_member fs (s, e) (k, j)).1).
  { unfold decode_member. cbn [fst snd]. destruct (unquote k) as [key|]; [|done].
    unfold find_field. rewrite Forall_forall in Hf.
    destruct (list_find _ fs) as [[i f]|] eqn:E1.
    - apply list_find_Some in E1 as (E1 & _). apply list_elem_of_lookup_2 in E1. specialize (Hf f E1 j s Hj Hs).
      by destruct (f_unmarshal f j s).
    - destruct (list_find (λ f, foldName (f_name f) = foldName key) fs) as [[i f]|] eqn:E2; [|exact Hs].
      cbn [fmap option_fmap option_map snd].
      apply list_find_Some in E2 as (E2 & _). apply list_elem_of_lookup_2 in E2. specialize (Hf f E2 j s Hj Hs).
      by destruct (f_unmarshal f j s). }
  destruct (decode_member fs (s, e) (k, j)) as [s' e']. by apply IH.
Qed.

Lemma struct_typed {S} (TS : S → Prop) zero fs :
  TS zero → Forall (λ f, ∀ j s, TS s → TS (f_unmarshal f j s).1) fs → codec_typed (c_struct zero fs) TS.
Proof.
  intros Hz Hf. split; [done|]. intros j s Hs. destruct j as [| | | | |raw l]; try done. cbn [c_struct c_unmarshal].
  apply (struct_keeps (λ _, True)); [|by apply Forall_true|done]. eapply Forall_impl; [exact Hf|]. eauto.
Qed.
