(* ===== verification/StoreSnapshot.v ===== *)
(** * StoreSnapshot: the JSON snapshots of internal/store/store.go

    [Snapshot] encodes the in-memory map as a JSON object, [RestoreSnapshot]
    decodes such an object into the map. A value is a byte slice, so it is
    encoded in base64 and survives; a key is encoded as a JSON string, and the
    bytes of it that are not UTF-8 do not. Decoding into a map that is not nil
    adds to it. *)
From stdpp Require Import prelude gmap sorting.
From Stdlib Require Import ZArith Lia Strings.Byte.
From S2P Require Import Prelude GoIO Wal Store GoText GoUtf8 GoJson GoJsonTypes.
Local Open Scope Z_scope.

(** ** The operations

    An empty value may be a nil slice or an empty one: the operations of the
    store do not tell them apart, and JSON does. [isnil] says under which keys
    an empty value is nil; every choice is covered. *)
Section snapshot.
Context (isnil : bytes → bool).

Definition slice_of (k v : bytes) : goslice Byte.byte :=
  match v with [] => if isnil k then SNil else SMake [] [] | _ => SMake v [] end.

Definition slices (d : gmap bytes bytes) : gmap bytes (goslice Byte.byte) :=
  map_imap (λ k v, Some (slice_of k v)) d.

Definition Snapshot (s : Store) : option bytes := Marshal (c_map c_bytes) (Some (slices (data s))).

(** Whether it failed, and the map afterwards; nothing is the nil map, which
    reads as an empty one and panics on the next write. *)
Definition RestoreSnapshot (blob : bytes) (s : Store) : bool * option (gmap bytes bytes) :=
  let '(m, err) := Unmarshal (c_map c_bytes) blob (Some (slices (data s))) in
  (err, fmap (M := gmap bytes) elements <$> m).

(** ** Lemmas *)

Lemma slice_of_elements k v : elements (slice_of k v) = v.
Proof. destruct v; [|done]. unfold slice_of. by destruct (isnil k). Qed.

Lemma slice_of_nil_or_made k v : ∃ o, slice_of k v = goslice_of o.
Proof. destruct v as [|b v]; [|by exists (Some (b :: v))]. unfold slice_of. destruct (isnil k); [by exists None|by exists (Some [])]. Qed.

Lemma slices_lookup d k : slices d !! k = slice_of k <$> d !! k.
Proof. unfold slices. rewrite map_lookup_imap. by destruct (d !! k). Qed.

Lemma slices_elements d : elements <$> slices d = d.
Proof.
  apply map_eq. intros k. rewrite lookup_fmap, slices_lookup. destruct (d !! k); [|done]. cbn. f_equal.
  apply slice_of_elements.
Qed.

End snapshot.

(** The order of the members depends on the keys only. *)
Lemma key_le_total {A} (x y : bytes * A) : key_le x y ∨ key_le y x.
Proof. unfold key_le. rewrite (bytes_cmp_antisym x.1 y.1). by destruct (bytes_cmp x.1 y.1); auto. Qed.

Lemma key_le_antisym {A} (x y : bytes * A) : key_le x y → key_le y x → x.1 = y.1.
Proof.
  unfold key_le. rewrite (bytes_cmp_antisym x.1 y.1). intros H1 H2. apply bytes_cmp_eq.
  by destruct (bytes_cmp x.1 y.1).
Qed.

Lemma key_le_trans {A} (x y z : bytes * A) : key_le x y → key_le y z → key_le x z.
Proof.
  unfold key_le. intros H1 H2 H3.
  destruct (bytes_cmp x.1 y.1) eqn:E1; [|clear H1|done].
  { apply bytes_cmp_eq in E1. rewrite E1 in H3. done. }
  destruct (bytes_cmp y.1 z.1) eqn:E2; [|clear H2|done].
  { apply bytes_cmp_eq in E2. rewrite <-E2, E1 in H3. done. }
  assert (H : bytes_ltb x.1 z.1) by (eapply bytes_ltb_trans; unfold bytes_ltb; [by rewrite E1|by rewrite E2]).
  unfold bytes_ltb in H. by rewrite H3 in H.
Qed.

Lemma sorted_members_sorted {A} (m : gmap bytes A) : StronglySorted key_le (sorted_members m).
Proof.
  assert (Ht : Transitive (@key_le A)) by (intros ???; apply key_le_trans).
  assert (Hl : Total (@key_le A)) by (intros ??; apply key_le_total).
  by apply StronglySorted_merge_sort.
Qed.

Lemma sorted_members_NoDup {A} (m : gmap bytes A) : NoDup (sorted_members m).*1.
Proof. rewrite sorted_members_perm. apply NoDup_fst_map_to_list. Qed.

Lemma sorted_members_fmap {A B} (f : A → B) (m : gmap bytes A) :
  sorted_members (f <$> m) = prod_map id f <$> sorted_members m.
Proof.
  apply (StronglySorted_unique_strong key_le).
  - intros x y Hx Hy H1 H2. pose proof (key_le_antisym x y H1 H2) as Hk.
    rewrite sorted_members_perm in Hx. apply elem_of_map_to_list' in Hx.
    apply list_elem_of_fmap in Hy as ([k v] & -> & Hy). rewrite sorted_members_perm in Hy. apply elem_of_map_to_list in Hy.
    cbn in Hk. destruct x as [k' x]. cbn in *. subst k'. rewrite lookup_fmap, Hy in Hx. by injection Hx as <-.
  - apply sorted_members_sorted.
  - pose proof (sorted_members_sorted m) as H. induction H as [|x l Hl IH Hx]; [constructor|].
    rewrite fmap_cons. constructor; [done|]. apply Forall_fmap. eapply Forall_impl; [exact Hx|]. by intros y Hy.
  - rewrite sorted_members_perm, map_to_list_fmap. by rewrite sorted_members_perm.
Qed.

Lemma foldl_put_fmap {A B} (f : A → B) (l : list (bytes * A)) (m : gmap bytes A) :
  f <$> foldl put_entry m l = foldl put_entry (f <$> m) (prod_map id f <$> l).
Proof.
  revert m. induction l as [|[k x] l IH]; intros m; [done|]. rewrite fmap_cons. cbn [foldl]. rewrite IH.
  unfold put_entry at 2 4. cbn. by rewrite fmap_insert.
Qed.

(** The members of a snapshot: the keys in order, repaired. *)
Definition snapshot_members (d : gmap bytes bytes) : list (bytes * bytes) :=
  prod_map repair id <$> sorted_members d.

(** A snapshot can always be taken. It is a JSON object of depth 1 in compact
    form, and decoding it stores the members one after the other. *)
Lemma Snapshot_json isnil s :
  ∃ j, Snapshot isnil s = Some (jraw j) ∧ wf 1 j ∧ compact j = j ∧
    ∀ isnil' s', RestoreSnapshot isnil' (jraw j) s' = (false, Some (foldl put_entry (data s') (snapshot_members (data s)))).
Proof.
  assert (Hl : Forall (λ kv : bytes * goslice Byte.byte, ∃ o, kv.2 = goslice_of o) (sorted_members (slices isnil (data s)))).
  { rewrite sorted_members_perm. apply Forall_forall. intros [k v] Hk%elem_of_map_to_list. rewrite slices_lookup in Hk.
    destruct (data s !! k); [|done]. injection Hk as <-. apply slice_of_nil_or_made. }
  unfold Snapshot, Marshal, RestoreSnapshot, Unmarshal. cbn [c_map c_marshal].
  destruct (members_ok c_bytes _ 0 (sorted_members (slices isnil (data s))) ∅ bytes_ok Hl) as (js & H1 & H2 & H3 & _).
  rewrite H1. exists (jobj js). assert (Hw : wf 1 (jobj js)) by by split.
  split; [done|]. split; [done|]. split; [cbn; by rewrite H3|]. intros isnil' s'.
  rewrite (parse_wf 1) by (done || unfold maxNestingDepth; lia). unfold jobj. cbn [c_map c_unmarshal default].
  destruct (members_ok c_bytes _ 0 (sorted_members (slices isnil (data s))) (slices isnil' (data s')) bytes_ok Hl)
    as (js' & H1' & _ & _ & H4). rewrite H1 in H1'. injection H1' as <-. unfold Datatypes.id. rewrite H4.
  cbn [fmap option_fmap option_map]. do 2 f_equal. rewrite foldl_put_fmap, slices_elements. f_equal.
  unfold snapshot_members. rewrite <-(slices_elements isnil (data s)) at 2. rewrite sorted_members_fmap, <-!list_fmap_compose.
  done.
Qed.

Definition keys_valid (d : gmap bytes bytes) : Prop := map_Forall (λ k _, ValidString k = true) d.

Lemma snapshot_members_valid d m : keys_valid d → foldl put_entry m (snapshot_members d) = d ∪ m.
Proof.
  intros Hv. assert (Hl : snapshot_members d = sorted_members d).
  { unfold snapshot_members. assert (H : Forall (λ kv, ValidString kv.1 = true) (sorted_members d)).
    { rewrite sorted_members_perm. apply map_Forall_to_list in Hv. eapply Forall_impl; [exact Hv|]. by intros []. }
    clear Hv. induction H as [|[k v] l Hk Hl IH]; [done|]. rewrite fmap_cons, IH. unfold prod_map. cbn [fst snd] in *. by rewrite repair_valid. }
  rewrite Hl, foldl_put_entry by apply sorted_members_NoDup. f_equal.
  rewrite (list_to_map_proper _ (map_to_list d)); [apply list_to_map_to_list|apply sorted_members_NoDup|apply sorted_members_perm].
Qed.

(** ** Properties *)

(** C26: Snapshots round trip. When every key is valid UTF-8, a snapshot of a
    store can be taken, whatever bytes the values hold, and restoring it
    anywhere succeeds and gives every key of the snapshot its value. Keys of the
    receiving store that the snapshot does not have stay. *)
Theorem snapshot_restore isnil s :
  keys_valid (data s) →
  ∃ blob, Snapshot isnil s = Some blob ∧
    ∀ isnil' s', RestoreSnapshot isnil' blob s' = (false, Some (data s ∪ data s')).
Proof.
  intros Hv. destruct (Snapshot_json isnil s) as (j & H1 & _ & _ & H2). exists (jraw j). split; [done|].
  intros isnil' s'. by rewrite H2, snapshot_members_valid.
Qed.

Definition ex_snap_store (d : gmap bytes bytes) : Store := mkStore d (Wal.Open (mkFile [] 0 [] false)).

Lemma snapshot_restore_witness :
  let s := ex_snap_store {[bs "k" := [Byte.xff; Byte.x00]; bs "e" := []]} in
  keys_valid (data s) ∧
  ∃ blob, Snapshot (λ _, true) s = Some blob ∧
    ∀ isnil' s', RestoreSnapshot isnil' blob s' = (false, Some (data s ∪ data s')).
Proof.
  assert (Hv : keys_valid {[bs "k" := [Byte.xff; Byte.x00]; bs "e" := []]}) by (apply map_Forall_to_list; vm_compute; auto).
  split; [exact Hv|]. exact (snapshot_restore (λ _, true) (ex_snap_store _) Hv).
Defined.

Example snapshot_text :
  Snapshot (λ _, true) (ex_snap_store {[bs "k" := [Byte.xff; Byte.x00]; bs "e" := []]}) = Some (jtext "{'e':null,'k':'/wA='}").
Proof. vm_compute. reflexivity. Qed.

(** Two keys that are not UTF-8 become one. *)
Example snapshot_binary_keys :
  let d : gmap bytes bytes := {[[Byte.xfe] := bs "a"; [Byte.xff] := bs "b"]} in
  match Snapshot (λ _, false) (ex_snap_store d) with
  | Some blob => RestoreSnapshot (λ _, false) blob (ex_snap_store ∅) = (false, Some {[EncodeRune RuneError := bs "b"]})
  | None => False
  end.
Proof. vm_compute. reflexivity. Qed.

(** Restoring does not replace: a key deleted before the snapshot was taken
    is still there. *)
Example restore_keeps_old_keys :
  RestoreSnapshot (λ _, false) (bs "{}") (ex_snap_store {[bs "k" := bs "v"]}) = (false, Some {[bs "k" := bs "v"]}).
Proof. vm_compute. reflexivity. Qed.

(** Input that is not JSON is refused and leaves the map alone. *)
Lemma RestoreSnapshot_bad isnil blob s :
  (∀ j, parse blob ≠ Ret j) → RestoreSnapshot isnil blob s = (true, Some (data s)).
Proof.
  intros H. unfold RestoreSnapshot, Unmarshal. destruct (parse blob) as [j|e|]; [by specialize (H j)|..];
    cbn; by rewrite slices_elements.
Qed.

Example restore_null_is_nil_map s : RestoreSnapshot (λ _, false) (bs "null") s = (false, None).
Proof. reflexivity. Qed.
