(* ===== verification/Server.v ===== *)
(** * Server: internal/server/server.go

    The text protocol over one connection, against any store that meets the
    [KVStore] interface. The connection is a byte stream to read, a buffered
    writer over the bytes sent, and a script of the deadline calls that fail. A
    handler is a program that works on its connection and calls the store, so
    that it can be run alone, here, or interleaved with others, in
    ServerLife. *)
From stdpp Require Import prelude gmap.
From Stdlib Require Import ZArith Lia Strings.Byte.
From S2P Require Import Prelude GoIO GoText Wal Store.
Local Open Scope Z_scope.

Definition maxLineSize : Z := 64 * 1024.
Definition maxValueSize : Z := 16 * 1024 * 1024.

(** ** The connection *)

Record Conn := mkConn {
  c_in : Stream;          (* the bytes the client sends *)
  c_deadlines : list bool; (* which SetReadDeadline calls fail; past the end none does *)
  c_w : Writer;
  c_out : File            (* the bytes sent to the client *)
}.

Definition SetReadDeadline (c : Conn) : bool * Conn :=
  match c_deadlines c with
  | [] => (false, c)
  | x :: l => (x, mkConn (c_in c) l (c_w c) (c_out c))
  end.

Definition set_in (r : Stream) (c : Conn) : Conn := mkConn r (c_deadlines c) (c_w c) (c_out c).

(** [fmt.Fprint(w, ..)] and [w.Write(..)]: the error is sticky in the writer. *)
Definition fprint (b : bytes) (c : Conn) : Conn :=
  let '(_, w, f) := bufio_Write b (c_w c) (c_out c) in mkConn (c_in c) (c_deadlines c) w f.

Definition conn_Flush (c : Conn) : bool * Conn :=
  let '(e, w, f) := bufio_Flush (c_w c) (c_out c) in (e, mkConn (c_in c) (c_deadlines c) w f).

Definition conn_Close (c : Conn) : Conn :=
  mkConn (c_in c) (c_deadlines c) (c_w c) (file_Close (c_out c)).2.

(** ** Reading a line *)

Inductive line_error := ReadErr (e : io_error) | LineTooLong.

Definition strip_cr (line : bytes) : bytes :=
  match last line with
  | Some Byte.x0d => removelast line
  | _ => line
  end.

Fixpoint readLine_go (maxSize : Z) (line data : bytes) (e : io_error) : outcome line_error bytes * Stream :=
  match data with
  | [] => (Err (ReadErr e), mkStream [] e)
  | b :: data =>
      if bool_decide (b = Byte.x0a) then (Ret (strip_cr line), mkStream data e)
      else
        let line := line ++ [b] in
        if maxSize <? Zlen line then (Err LineTooLong, mkStream data e)
        else readLine_go maxSize line data e
  end.
Definition readLine (r : Stream) (maxSize : Z) : outcome line_error bytes * Stream :=
  readLine_go maxSize [] (s_data r) (s_end r).

(** ** Commands *)

Definition writeErr (msg : bytes) (c : Conn) : Conn :=
  fprint (bs "-ERR " ++ ReplaceAll msg crlf (bs " ") ++ crlf) c.

(** [err == nil && term[0] == '\r' && term[1] == '\n']. *)
Definition is_crlf (term : outcome io_error bytes) : bool :=
  match term with Ret b => bool_decide (b = crlf) | _ => false end.

(** ** Handlers

    What a handler does between reading a command and going back to its loop:
    it works on its own connection, and it calls the store. *)
Inductive prog (E A : Type) :=
| Return (a : A)
| Write (op : sop) (k : option E → prog E A)       (* store.Put, store.Delete *)
| Read (key : bytes) (k : option bytes → prog E A). (* store.Get *)
Arguments Return {E A}.
Arguments Write {E A}.
Arguments Read {E A}.

Fixpoint bind {E A B} (p : prog E A) (f : A → prog E B) : prog E B :=
  match p with
  | Return a => f a
  | Write op k => Write op (λ err, bind (k err) f)
  | Read key k => Read key (λ v, bind (k v) f)
  end.

(** A write call of the interface. *)
Definition kv_exec {S E} `{KVStore S E} (op : sop) (s : S) : option E * S :=
  match op with SPut k v => kv_put k v s | SDelete k => kv_delete k s end.

(** A handler that has the store for itself. *)
Fixpoint exec {S E A} `{KVStore S E} (p : prog E A) (s : S) : A * S :=
  match p with
  | Return a => (a, s)
  | Write op k => let '(err, s) := kv_exec op s in exec (k err) s
  | Read key k => exec (k (kv_get key s)) s
  end.

Section handlers.
Context {E : Type}.
(** The text of a store's error, and the Unicode tables of [ToUpper] and
    [%q] for runes beyond ASCII. *)
Variable errText : E → bytes.
Variable upper : Z → Z.
Variable print : Z → bool.

(** Whether the connection must be closed, and the connection. *)
Definition handlePut (fields : list bytes) (c : Conn) : prog E (bool * Conn) :=
  match fields with
  | [_; key; len] =>
      match Atoi len with
      | None => Return (false, writeErr (bs "invalid value length " ++ Quote print len) c)
      | Some n =>
          if n <? 0 then Return (false, writeErr (bs "invalid value length " ++ Quote print len) c)
          else if maxValueSize <? n then
            Return (true, writeErr (bs "value length " ++ dec n ++ bs " exceeds max " ++ dec maxValueSize) c)
          else
            let '(e, c) := SetReadDeadline c in
            if e : bool then Return (true, c)
            else match ReadFull n (c_in c) with
            | (Ret value, r) =>
                let '(term, r) := ReadFull 2 r in
                let c := set_in r c in
                if is_crlf term then
                  Write (SPut key value) (λ err,
                    match err with
                    | Some e => Return (false, writeErr (bs "put failed: " ++ errText e) c)
                    | None => Return (false, fprint (bs "+OK" ++ crlf) c)
                    end)
                else Return (true, writeErr (bs "malformed PUT terminator") c)
            | (_, r) => Return (true, set_in r c)
            end
      end
  | _ =>
      Return (false, writeErr (bs "PUT requires <key> <valueLen>, got " ++ dec (Zlen fields - 1) ++ bs " args") c)
  end.

Definition handleGet (fields : list bytes) (c : Conn) : prog E Conn :=
  match fields with
  | [_; key] =>
      Read key (λ v,
        match v with
        | None => Return (fprint (bs "$-1" ++ crlf) c)
        | Some v =>
            let c := fprint (bs "$" ++ dec (Zlen v) ++ crlf) c in
            let c := fprint v c in
            Return (fprint crlf c)
        end)
  | _ => Return (writeErr (bs "GET requires exactly 1 arg, got " ++ dec (Zlen fields - 1)) c)
  end.

Definition handleDel (fields : list bytes) (c : Conn) : prog E Conn :=
  match fields with
  | [_; key] =>
      Write (SDelete key) (λ err,
        match err with
        | Some e => Return (writeErr (bs "delete failed: " ++ errText e) c)
        | None => Return (fprint (bs "+OK" ++ crlf) c)
        end)
  | _ => Return (writeErr (bs "DEL requires exactly 1 arg, got " ++ dec (Zlen fields - 1)) c)
  end.

(** The switch on the command word. *)
Definition dispatch (fields : list bytes) (c : Conn) : prog E (bool * Conn) :=
  match fields with
  | [] => Return (false, c)
  | f0 :: _ =>
      let cmd := ToUpper upper f0 in
      if bool_decide (cmd = bs "PUT") then handlePut fields c
      else if bool_decide (cmd = bs "GET") then bind (handleGet fields c) (λ c, Return (false, c))
      else if bool_decide (cmd = bs "DEL") then bind (handleDel fields c) (λ c, Return (false, c))
      else Return (false, writeErr (bs "unknown command " ++ Quote print cmd) c)
  end.

(** One iteration of the loop of [handleConn]; [true] if it goes on. *)
Definition iteration (c : Conn) : prog E (bool * Conn) :=
  let '(e, c) := SetReadDeadline c in
  if e : bool then Return (false, c)
  else
    let '(line, r) := readLine (c_in c) maxLineSize in
    let c := set_in r c in
    match line with
    | Ret line =>
        let fields := Fields line in
        if bool_decide (fields = []) then Return (true, c)
        else
          bind (dispatch fields c) (λ '(fatal, c),
            let '(e, c) := conn_Flush c in
            Return (negb (e || fatal), c))
    | _ => Return (false, c)
    end.

Context {S : Type} `{KVStore S E}.

Definition conn_iter (c : Conn) (s : S) : bool * Conn * S := exec (iteration c) s.

Fixpoint conn_loop (fuel : nat) (c : Conn) (s : S) : option (Conn * S) :=
  match fuel with
  | O => None
  | Datatypes.S fuel =>
      let '(go, c, s) := conn_iter c s in
      if go : bool then conn_loop fuel c s else Some (conn_Close c, s)
  end.

(** Every iteration that goes on has consumed a newline. *)
Definition handleConn (c : Conn) (s : S) : option (Conn * S) :=
  conn_loop (Datatypes.S (length (s_data (c_in c)))) c s.

End handlers.

(** ** Clients and the protocol's meaning *)

Inductive cmd := CPut (k v : bytes) | CGet (k : bytes) | CDel (k : bytes).

Definition cmd_line (x : cmd) : bytes :=
  match x with
  | CPut k v => bs "PUT " ++ k ++ bs " " ++ dec (Zlen v)
  | CGet k => bs "GET " ++ k
  | CDel k => bs "DEL " ++ k
  end.

(** What a client sends for a command. *)
Definition cmd_bytes (x : cmd) : bytes :=
  cmd_line x ++ crlf ++ match x with CPut _ v => v ++ crlf | _ => [] end.

Definition cmd_key (x : cmd) : bytes := match x with CPut k _ | CGet k | CDel k => k end.

(** A command that can be sent: the key is one word, the line with its
    carriage return and the value are within the limits. *)
Definition cmd_ok (x : cmd) : Prop :=
  Fields (cmd_key x) = [cmd_key x] ∧ Zlen (cmd_line x) < maxLineSize ∧
  match x with CPut _ v => Zlen v ≤ maxValueSize | _ => True end.

Definition err_reply (msg : bytes) : bytes := bs "-ERR " ++ ReplaceAll msg crlf (bs " ") ++ crlf.

Definition value_reply (v : option bytes) : bytes :=
  match v with
  | None => bs "$-1" ++ crlf
  | Some v => bs "$" ++ dec (Zlen v) ++ crlf ++ v ++ crlf
  end.

Section session.
Context {S E : Type} `{KVStore S E}.
Variable errText : E → bytes.

(** The effect of a command on a map, given the error the store reported. *)
Definition map_step (x : cmd) (err : option E) (m : gmap bytes bytes) : bytes * gmap bytes bytes :=
  match x, err with
  | CPut k v, None => (bs "+OK" ++ crlf, <[k := v]> m)
  | CPut k v, Some e => (err_reply (bs "put failed: " ++ errText e), m)
  | CGet k, _ => (value_reply (m !! k), m)
  | CDel k, None => (bs "+OK" ++ crlf, delete k m)
  | CDel k, Some e => (err_reply (bs "delete failed: " ++ errText e), m)
  end.

Fixpoint map_run (xs : list (cmd * option E)) (m : gmap bytes bytes) : bytes * gmap bytes bytes :=
  match xs with
  | [] => ([], m)
  | (x, err) :: xs =>
      let '(out, m) := map_step x err m in
      let '(rest, m) := map_run xs m in (out ++ rest, m)
  end.

(** The store's own answers to the commands, in order. *)
Definition store_step (x : cmd) (s : S) : option E * S :=
  match x with
  | CPut k v => kv_put k v s
  | CGet _ => (None, s)
  | CDel k => kv_delete k s
  end.

Fixpoint store_run (xs : list cmd) (s : S) : list (option E) * S :=
  match xs with
  | [] => ([], s)
  | x :: xs =>
      let '(e, s) := store_step x s in
      let '(es, s) := store_run xs s in (e :: es, s)
  end.

End session.

(** ** Lemmas on the connection *)

Lemma SetReadDeadline_in c : c_in (SetReadDeadline c).2 = c_in c.
Proof. unfold SetReadDeadline. by destruct (c_deadlines c). Qed.

Lemma fprint_in b c : c_in (fprint b c) = c_in c.
Proof. unfold fprint. by destruct (bufio_Write _ _ _) as [[??]?]. Qed.

Lemma writeErr_in b c : c_in (writeErr b c) = c_in c.
Proof. apply fprint_in. Qed.

Lemma conn_Flush_in c : c_in (conn_Flush c).2 = c_in c.
Proof. unfold conn_Flush. by destruct (bufio_Flush _ _) as [[??]?]. Qed.

#[export] Hint Rewrite SetReadDeadline_in fprint_in writeErr_in conn_Flush_in : kv.

(** What has been handed to the writer, sent or still buffered. *)
Definition sent (c : Conn) : bytes := f_content (c_out c) ++ wb_buf (c_w c).

(** A connection on which nothing fails. *)
Definition conn_fine (c : Conn) : Prop :=
  fault_free (c_out c) ∧ wb_err (c_w c) = false ∧ writer_wf (c_w c) ∧ c_deadlines c = [].

Lemma fprint_fine b c : conn_fine c → conn_fine (fprint b c) ∧ sent (fprint b c) = sent c ++ b.
Proof.
  intros (Hf & He & Hw & Hd). unfold fprint. destruct (bufio_Write b (c_w c) (c_out c)) as [[e w] f] eqn:Eb.
  pose proof (bufio_Write_fault_free _ _ _ _ _ _ Eb Hf He) as (-> & He' & Hf').
  apply bufio_Write_spec in Eb as (_ & _ & Hw' & _ & Hs); [|done].
  split; [done|]. unfold sent. cbn [c_out c_w]. by rewrite Hs, app_assoc.
Qed.

Lemma writeErr_fine m c : conn_fine c → conn_fine (writeErr m c) ∧ sent (writeErr m c) = sent c ++ err_reply m.
Proof. apply fprint_fine. Qed.

Lemma conn_Flush_fine c : conn_fine c →
  (conn_Flush c).1 = false ∧ conn_fine (conn_Flush c).2 ∧ sent (conn_Flush c).2 = sent c ∧
  wb_buf (c_w (conn_Flush c).2) = [].
Proof.
  intros (Hf & He & Hw & Hd). unfold conn_Flush. destruct (bufio_Flush (c_w c) (c_out c)) as [[e w] f] eqn:Eb.
  pose proof (bufio_Flush_fault_free _ _ _ _ _ Eb Hf He) as (-> & He' & Hf').
  apply bufio_Flush_spec in Eb as (_ & _ & Hw' & Hs & _ & Hb); [|done]. cbn [fst snd c_w].
  split_and!; [done|done|exact Hs|by apply Hb].
Qed.

Lemma set_in_fine r c : conn_fine c → conn_fine (set_in r c).
Proof. done. Qed.

(** *** Lines *)

Lemma readLine_go_app max acc l rest e :
  Byte.x0a ∉ l → Zlen acc + Zlen l ≤ max →
  readLine_go max acc (l ++ Byte.x0a :: rest) e = (Ret (strip_cr (acc ++ l)), mkStream rest e).
Proof.
  revert acc. induction l as [|b l IH]; intros acc Hl Hmax; cbn [app readLine_go].
  { by rewrite bool_decide_eq_true_2, app_nil_r. }
  apply not_elem_of_cons in Hl as [Hb Hl]. rewrite Zlen_cons in Hmax. pose proof (Zlen_nonneg l).
  rewrite bool_decide_eq_false_2 by done.
  replace (max <? Zlen (acc ++ [b])) with false by (rewrite Zlen_snoc; lia).
  rewrite IH; [by rewrite <-app_assoc|done|]. rewrite Zlen_snoc. lia.
Qed.

Lemma strip_cr_app l : strip_cr (l ++ [Byte.x0d]) = l.
Proof. unfold strip_cr. by rewrite last_snoc, removelast_last. Qed.

(** A line ended by CR LF is read back whole. *)
Lemma readLine_crlf line rest e max :
  Byte.x0a ∉ line → Zlen line < max →
  readLine (mkStream (line ++ crlf ++ rest) e) max = (Ret line, mkStream rest e).
Proof.
  intros Hl Hmax. unfold readLine. cbn [s_data s_end].
  replace (line ++ crlf ++ rest) with ((line ++ [Byte.x0d]) ++ Byte.x0a :: rest)
    by (unfold crlf; by rewrite <-!app_assoc).
  rewrite readLine_go_app; [by rewrite app_nil_l, strip_cr_app| |].
  - rewrite elem_of_app, list_elem_of_singleton. by intros [|].
  - rewrite Zlen_snoc. unfold Zlen at 1. cbn [length]. lia.
Qed.

(** Reading a line consumes the line, and no line is longer than the limit. *)
Lemma readLine_go_reads max acc data e out r :
  readLine_go max acc data e = (out, r) →
  ∃ u, data = u ++ s_data r ∧
    ∀ line, out = Ret line → ∃ raw, u = raw ++ [Byte.x0a] ∧ line = strip_cr (acc ++ raw) ∧ (Byte.x0a ∉ raw) ∧
      (Zlen acc ≤ max → Zlen (acc ++ raw) ≤ max).
Proof.
  revert acc. induction data as [|b data IH]; intros acc; cbn [readLine_go]; [intros [= <- <-]; by exists []|].
  case_bool_decide as Hb.
  - intros [= <- <-]. exists [Byte.x0a]. subst b. split; [done|]. intros line [= <-]. exists [].
    rewrite app_nil_r. split_and!; try done. by apply not_elem_of_nil.
  - destruct (max <? Zlen (acc ++ [b])) eqn:El; [intros [= <- <-]; by exists [b]|]. intros (u & -> & Hu)%IH.
    exists (b :: u). split; [done|]. intros line (raw & -> & -> & Hn & Hm)%Hu. exists (b :: raw). rewrite <-app_assoc in *.
    split_and!; [done|done|apply not_elem_of_cons; split; [congruence|done]|]. intros _. apply Hm. lia.
Qed.

Lemma readLine_reads r out r' :
  readLine r maxLineSize = (out, r') →
  ∃ u, s_data r = u ++ s_data r' ∧
    ∀ line, out = Ret line → ∃ raw, u = raw ++ [Byte.x0a] ∧ line = strip_cr raw ∧ (Byte.x0a ∉ raw) ∧ Zlen raw ≤ maxLineSize.
Proof.
  intros (u & Hu & Hl)%readLine_go_reads. exists u. split; [done|]. intros line (raw & H1 & H2 & H3 & H4)%Hl.
  exists raw. split_and!; try done. by apply H4.
Qed.

Lemma strip_cr_len l : Zlen (strip_cr l) ≤ Zlen l.
Proof.
  unfold strip_cr. destruct l as [|x l _] using rev_ind; [done|]. rewrite last_snoc, removelast_last.
  destruct x; rewrite ?Zlen_snoc; lia.
Qed.

Lemma ReadFull_reads n r out r' : ReadFull n r = (out, r') → ∃ u, s_data r = u ++ s_data r'.
Proof.
  unfold ReadFull. destruct (_ <=? _); intros [= <- <-]; cbn [s_data].
  - eexists. symmetry. apply take_drop.
  - exists (s_data r). by rewrite app_nil_r.
Qed.

(** *** What the handlers do, whatever the store answers *)

(** A call of the store and its answer. *)
Inductive call (E : Type) := Wrote (op : sop) (err : option E) | Got (key : bytes) (v : option bytes).
Arguments Wrote {E}.
Arguments Got {E}.

(** [Q] holds of the calls a handler makes and of what it returns. *)
Fixpoint ensures {E A} (p : prog E A) (Q : list (call E) → A → Prop) : Prop :=
  match p with
  | Return a => Q [] a
  | Write op k => ∀ err, ensures (k err) (λ tr, Q (Wrote op err :: tr))
  | Read key k => ∀ v, ensures (k v) (λ tr, Q (Got key v :: tr))
  end.

Lemma ensures_mono {E A} (p : prog E A) (Q Q' : list (call E) → A → Prop) :
  ensures p Q → (∀ tr a, Q tr a → Q' tr a) → ensures p Q'.
Proof. revert Q Q'. induction p; intros Q Q' Hp HQ; cbn in *; eauto. Qed.

Lemma ensures_bind {E A B} (p : prog E A) (f : A → prog E B) (Q : list (call E) → B → Prop) :
  ensures p (λ tr a, ensures (f a) (λ tr', Q (tr ++ tr'))) → ensures (bind p f) Q.
Proof.
  revert Q. induction p as [a|op k IH|key k IH]; intros Q Hp; cbn in *; [done| |].
  - intros err. apply IH. exact (Hp err).
  - intros v. apply IH. exact (Hp v).
Qed.

Section performed.
Context {S E : Type} `{KVStore S E}.

(** The store gives these answers, one after the other. *)
Fixpoint performed (tr : list (call E)) (s s' : S) : Prop :=
  match tr with
  | [] => s' = s
  | Wrote op err :: tr => (kv_exec op s).1 = err ∧ performed tr (kv_exec op s).2 s'
  | Got key v :: tr => kv_get key s = v ∧ performed tr s s'
  end.

Lemma exec_ensures {A} (p : prog E A) Q (s : S) :
  ensures p Q → ∃ tr, Q tr (exec p s).1 ∧ performed tr s (exec p s).2.
Proof.
  revert Q s. induction p as [a|op k IH|key k IH]; intros Q s Hp; cbn in *; [by exists []| |].
  - destruct (kv_exec op s) as [err s1] eqn:E1. destruct (IH err _ s1 (Hp err)) as (tr & HQ & Htr).
    exists (Wrote op err :: tr). cbn. by rewrite E1.
  - destruct (IH _ _ s (Hp (kv_get key s))) as (tr & HQ & Htr). by exists (Got key (kv_get key s) :: tr).
Qed.

Lemma performed_app tr tr' s s1 s2 : performed tr s s1 → performed tr' s1 s2 → performed (tr ++ tr') s s2.
Proof. revert s. induction tr as [|[op err|key v] tr IH]; intros s; cbn; [by intros ->|intros [? ?] ?; split; [done|by eapply IH]..]. Qed.

End performed.

(** *** A well-behaved client *)

Definition cmd_fields (x : cmd) : list bytes :=
  match x with
  | CPut k v => [bs "PUT"; k; dec (Zlen v)]
  | CGet k => [bs "GET"; k]
  | CDel k => [bs "DEL"; k]
  end.

Lemma cmd_line_fields x : cmd_ok x → Fields (cmd_line x) = cmd_fields x.
Proof.
  intros (Hk & _). destruct x as [k v|k|k]; cbn [cmd_line cmd_fields cmd_key] in *.
  - change (bs "PUT " ++ k ++ bs " " ++ dec (Zlen v)) with (bs "PUT" ++ Byte.x20 :: k ++ Byte.x20 :: dec (Zlen v)).
    rewrite !Fields_app_space, Hk, Fields_dec by (done || apply Zlen_nonneg). done.
  - change (bs "GET " ++ k) with (bs "GET" ++ Byte.x20 :: k). by rewrite Fields_app_space, Hk.
  - change (bs "DEL " ++ k) with (bs "DEL" ++ Byte.x20 :: k). by rewrite Fields_app_space, Hk.
Qed.

Lemma dec_no_newline n : 0 ≤ n → Byte.x0a ∉ dec n.
Proof. intros Hn. apply (Fields_no_newline (dec n)). rewrite Fields_dec by done. by apply list_elem_of_singleton. Qed.

Lemma cmd_line_no_newline x : cmd_ok x → Byte.x0a ∉ cmd_line x.
Proof.
  intros (Hk & _).
  assert (Hn : Byte.x0a ∉ cmd_key x).
  { apply (Fields_no_newline (cmd_key x)). rewrite Hk. by apply list_elem_of_singleton. }
  destruct x as [k v|k|k]; cbn [cmd_line cmd_key] in *; rewrite !elem_of_app.
  - pose proof (dec_no_newline (Zlen v) (Zlen_nonneg v)).
    intros [Hin|[|[Hin|]]]; try done; by apply (bool_decide_eq_true_2 _) in Hin.
  - intros [Hin|]; [by apply (bool_decide_eq_true_2 _) in Hin|done].
  - intros [Hin|]; [by apply (bool_decide_eq_true_2 _) in Hin|done].
Qed.

Lemma cmds_length xs : (length xs ≤ length (concat (cmd_bytes <$> xs)))%nat.
Proof.
  induction xs as [|x xs IH]; [done|]. rewrite fmap_cons. cbn [concat length]. rewrite length_app.
  assert (2 ≤ length (cmd_bytes x))%nat; [|lia].
  unfold cmd_bytes, crlf. rewrite !length_app. cbn [length]. lia.
Qed.

(** The command a call answers, and the reply to it. *)
Definition cmd_of {E} (t : call E) : cmd :=
  match t with Wrote (SPut k v) _ => CPut k v | Wrote (SDelete k) _ => CDel k | Got k _ => CGet k end.

Definition reply_of {E} (errText : E → bytes) (t : call E) : bytes :=
  match t with
  | Wrote _ None => bs "+OK" ++ crlf
  | Wrote (SPut _ _) (Some e) => err_reply (bs "put failed: " ++ errText e)
  | Wrote (SDelete _) (Some e) => err_reply (bs "delete failed: " ++ errText e)
  | Got _ v => value_reply v
  end.

Section commands.
Context {E : Type} (errText : E → bytes) (upper : Z → Z) (print : Z → bool).

Lemma dispatch_cmd x c rest e :
  cmd_ok x → conn_fine c →
  c_in c = mkStream (match x with CPut _ v => v ++ crlf | _ => [] end ++ rest) e →
  ensures (dispatch errText upper print (cmd_fields x) c) (λ tr '(fatal, c'),
    fatal = false ∧ conn_fine c' ∧ c_in c' = mkStream rest e ∧
    ∃ t, tr = [t] ∧ cmd_of t = x ∧ sent c' = sent c ++ reply_of errText t).
Proof.
  intros (_ & _ & Hv) Hc Hin. destruct x as [k v|k|k]; cbn [cmd_fields dispatch].
  - change (ToUpper upper (bs "PUT")) with (bs "PUT"). rewrite bool_decide_eq_true_2 by done.
    pose proof (Zlen_nonneg v). cbn [handlePut]. unfold maxValueSize in *. rewrite Atoi_dec by lia.
    replace (Zlen v <? 0) with false by lia. replace (_ <? Zlen v) with false by lia.
    unfold SetReadDeadline. pose proof Hc as (_ & _ & _ & Hd). rewrite Hd.
    rewrite Hin, <-app_assoc, ReadFull_app, (ReadFull_app' 2 crlf) by done. cbn [is_crlf].
    rewrite bool_decide_eq_true_2 by done.
    assert (Hc' : conn_fine (set_in (mkStream rest e) c)) by done. cbn [ensures]. intros [er|]; cbn [ensures].
    + destruct (writeErr_fine (bs "put failed: " ++ errText er) _ Hc') as [Hf1 Hs1].
      split; [done|]. split; [done|]. split; [by rewrite writeErr_in|]. eauto.
    + destruct (fprint_fine (bs "+OK" ++ crlf) _ Hc') as [Hf1 Hs1].
      split; [done|]. split; [done|]. split; [by rewrite fprint_in|]. eauto.
  - change (ToUpper upper (bs "GET")) with (bs "GET").
    rewrite bool_decide_eq_false_2, bool_decide_eq_true_2 by done. cbn [handleGet bind ensures].
    cbn [app] in Hin. intros [v|]; cbn [bind ensures].
    + destruct (fprint_fine (bs "$" ++ dec (Zlen v) ++ crlf) c Hc) as [Hf1 Hs1].
      destruct (fprint_fine v _ Hf1) as [Hf2 Hs2]. destruct (fprint_fine crlf _ Hf2) as [Hf3 Hs3].
      split; [done|]. split; [done|]. split; [by rewrite !fprint_in|]. eexists. split; [done|]. split; [done|].
      cbn [reply_of value_reply]. by rewrite Hs3, Hs2, Hs1, <-!app_assoc.
    + destruct (fprint_fine (bs "$-1" ++ crlf) c Hc) as [Hf1 Hs1].
      split; [done|]. split; [done|]. split; [by rewrite fprint_in|]. eauto.
  - change (ToUpper upper (bs "DEL")) with (bs "DEL").
    rewrite !bool_decide_eq_false_2, bool_decide_eq_true_2 by done. cbn [handleDel bind ensures].
    cbn [app] in Hin. intros [er|]; cbn [bind ensures].
    + destruct (writeErr_fine (bs "delete failed: " ++ errText er) _ Hc) as [Hf1 Hs1].
      split; [done|]. split; [done|]. split; [by rewrite writeErr_in|]. eauto.
    + destruct (fprint_fine (bs "+OK" ++ crlf) _ Hc) as [Hf1 Hs1].
      split; [done|]. split; [done|]. split; [by rewrite fprint_in|]. eauto.
Qed.

(** One command: the store is called once, the reply goes out and the loop goes
    on behind it. *)
Lemma iteration_cmd x c rest e :
  cmd_ok x → conn_fine c → c_in c = mkStream (cmd_bytes x ++ rest) e →
  ensures (iteration errText upper print c) (λ tr '(go, c'),
    go = true ∧ conn_fine c' ∧ c_in c' = mkStream rest e ∧ wb_buf (c_w c') = [] ∧
    ∃ t, tr = [t] ∧ cmd_of t = x ∧ sent c' = sent c ++ reply_of errText t).
Proof.
  intros Hx Hc Hin. unfold iteration, SetReadDeadline. pose proof Hc as (_ & _ & _ & Hd). rewrite Hd, Hin.
  unfold cmd_bytes. rewrite <-!app_assoc, readLine_crlf;
    [|by apply cmd_line_no_newline|by destruct Hx as (_ & ? & _)].
  rewrite cmd_line_fields by done. rewrite bool_decide_eq_false_2 by (by destruct x).
  apply ensures_bind. eapply ensures_mono.
  { by apply (dispatch_cmd x (set_in (mkStream (match x with CPut _ v => v ++ crlf | _ => [] end ++ rest) e) c) rest e). }
  intros tr [fatal c'] (-> & Hc' & Hin' & t & -> & Ht & Hs).
  destruct (conn_Flush_fine c' Hc') as (Hfl & Hc2 & Hs2 & Hb2). pose proof (conn_Flush_in c') as Hi2.
  destruct (conn_Flush c') as [er c2]. cbn [fst snd ensures app] in *. subst er.
  split; [done|]. split; [done|]. split; [by rewrite Hi2|]. split; [done|]. exists t. split; [done|]. split; [done|].
  by rewrite Hs2, Hs.
Qed.

End commands.

Section client.
Context {S E : Type} `{KVStoreOk S E}.
Variables (errText : E → bytes) (upper : Z → Z) (print : Z → bool).

Lemma conn_iter_cmd x c s rest e :
  cmd_ok x → conn_fine c → c_in c = mkStream (cmd_bytes x ++ rest) e →
  ∃ c', conn_iter errText upper print c s = (true, c', (store_step x s).2) ∧
    conn_fine c' ∧ c_in c' = mkStream rest e ∧ wb_buf (c_w c') = [] ∧
    sent c' = sent c ++ (map_step errText x (store_step x s).1 (kv_abs s)).1.
Proof.
  intros Hx Hc Hin. destruct (exec_ensures _ _ s (iteration_cmd errText upper print x c rest e Hx Hc Hin)) as (tr & HQ & Htr).
  unfold conn_iter. destruct (exec _ s) as [[go c'] s']. cbn [fst snd] in *.
  destruct HQ as (-> & Hc' & Hin' & Hb & t & -> & <- & Hs). exists c'. rewrite Hs.
  destruct t as [[k v|k] er|k v]; cbn [performed cmd_of store_step map_step reply_of kv_exec fst snd] in *.
  - destruct Htr as [<- ->]. split_and!; try done. by destruct (kv_put k v s).1.
  - destruct Htr as [<- ->]. split_and!; try done. by destruct (kv_delete k s).1.
  - destruct Htr as [<- ->]. by rewrite kv_get_abs.
Qed.

Lemma map_step_abs x s : kv_abs (store_step x s).2 = (map_step errText x (store_step x s).1 (kv_abs s)).2.
Proof.
  destruct x as [k v|k|k]; cbn [store_step map_step]; [|done|].
  - rewrite kv_put_abs. by destruct (kv_put k v s).1.
  - rewrite kv_delete_abs. by destruct (kv_delete k s).1.
Qed.

(** A connection whose input is a sequence of commands. *)
Lemma conn_loop_session xs fuel c s :
  Forall cmd_ok xs → conn_fine c → wb_buf (c_w c) = [] → c_in c = mkStream (concat (cmd_bytes <$> xs)) EOF →
  (length xs < fuel)%nat →
  ∃ c', conn_loop errText upper print fuel c s = Some (c', (store_run xs s).2) ∧
    f_content (c_out c') = sent c ++ (map_run errText (zip xs (store_run xs s).1) (kv_abs s)).1 ∧
    kv_abs (store_run xs s).2 = (map_run errText (zip xs (store_run xs s).1) (kv_abs s)).2.
Proof.
  revert fuel c s. induction xs as [|x xs IH]; intros fuel c s Hxs Hc Hb Hin Hf;
    (destruct fuel as [|fuel]; [cbn in Hf; lia|]); cbn [conn_loop].
  - unfold conn_iter, iteration, SetReadDeadline. pose proof Hc as ((Hff & Hcl) & _ & _ & Hd). rewrite Hd, Hin. cbn.
    eexists. split; [done|]. cbn. unfold sent, file_Close, next_fault. rewrite Hcl, Hff, Hb. cbn.
    by rewrite !app_nil_r.
  - apply Forall_cons in Hxs as [Hx Hxs]. cbn [fmap list_fmap concat] in Hin.
    destruct (conn_iter_cmd x c s _ _ Hx Hc Hin) as (c1 & -> & Hc1 & Hin1 & Hb1 & Hs1).
    destruct (IH fuel c1 (store_step x s).2 Hxs Hc1 Hb1 Hin1) as (c' & Hl & Hout & Habs); [cbn in Hf; lia|].
    pose proof (map_step_abs x s) as Hm. cbn [store_run]. destruct (store_step x s) as [er s1]. cbn [fst snd] in *.
    destruct (store_run xs s1) as [es s2]. cbn [fst snd zip map_run] in *. rewrite Hm in *.
    cbn [zip_with map_run]. destruct (map_step errText x er (kv_abs s)) as [out m]. cbn [fst snd] in *.
    destruct (map_run errText (zip xs es) m) as [o2 m2]. cbn [fst snd] in *.
    exists c'. split; [done|]. split; [by rewrite Hout, Hs1, <-app_assoc|done].
Qed.

End client.

(** *** Any client *)

(** One turn of the loop: the bytes read from the client, the write that was
    made, with the store's answer, and the reply. *)
Record Exchange (E : Type) := mkExchange {
  x_in : bytes;
  x_write : option (sop * option E);
  x_reply : bytes
}.
Arguments mkExchange {E}.
Arguments x_in {E}.
Arguments x_write {E}.
Arguments x_reply {E}.

(** The bytes of a request for a write, within the protocol's limits. *)
Inductive asks (upper : Z → Z) : bytes → sop → Prop :=
| asks_put raw word key len value :
    Byte.x0a ∉ raw → Zlen raw ≤ maxLineSize → Fields (strip_cr raw) = [word; key; len] →
    ToUpper upper word = bs "PUT" → Atoi len = Some (Zlen value) → Zlen value ≤ maxValueSize →
    asks upper (raw ++ [Byte.x0a] ++ value ++ crlf) (SPut key value)
| asks_del raw word key :
    Byte.x0a ∉ raw → Zlen raw ≤ maxLineSize → Fields (strip_cr raw) = [word; key] →
    ToUpper upper word = bs "DEL" → asks upper (raw ++ [Byte.x0a]) (SDelete key).

(** A write is one the client asked for, and the reply says what became of it;
    otherwise the reply is no acknowledgement. *)
Definition honest {E} (errText : E → bytes) (upper : Z → Z) (x : Exchange E) : Prop :=
  match x_write x with
  | Some (op, err) => asks upper (x_in x) op ∧ x_reply x = reply_of errText (Wrote op err)
  | None => ¬ bs "+" `prefix_of` x_reply x
  end.

(** The reply [r] goes to the writer, unless an earlier write failed; a
    failure may cut it. *)
Definition delivers (r : bytes) (c c' : Conn) : Prop :=
  writer_wf (c_w c) →
  writer_wf (c_w c') ∧ sent c' `prefix_of` sent c ++ r ∧
  (wb_err (c_w c') = false → sent c' = sent c ++ r) ∧
  (wb_err (c_w c) = true → sent c' = sent c ∧ wb_err (c_w c') = true).

Lemma delivers_same c c' : c_w c' = c_w c → c_out c' = c_out c → delivers [] c c'.
Proof. intros Hw Ho Hwf. unfold sent. rewrite Hw, Ho, app_nil_r. done. Qed.

Lemma delivers_trans r r' c c1 c2 : delivers r c c1 → delivers r' c1 c2 → delivers (r ++ r') c c2.
Proof.
  intros H1 H2 Hw. destruct (H1 Hw) as (Hw1 & Hp1 & He1 & Hs1). destruct (H2 Hw1) as (Hw2 & Hp2 & He2 & Hs2).
  split; [done|]. rewrite app_assoc. destruct (wb_err (c_w c1)) eqn:E1.
  - destruct (Hs2 eq_refl) as [-> E2]. split_and!; [by apply prefix_app_r|by rewrite E2|].
    intros E. destruct (Hs1 E) as [-> _]. done.
  - rewrite <-(He1 eq_refl). split_and!; [done|done|]. intros E. by destruct (Hs1 E).
Qed.

Lemma fprint_delivers b c : delivers b c (fprint b c).
Proof.
  intros Hw. unfold fprint. destruct (bufio_Write b (c_w c) (c_out c)) as [[e w] f] eqn:Eb.
  assert (Hst : wb_err (c_w c) = true → f = c_out c ∧ w = c_w c).
  { intros E. rewrite bufio_Write_sticky in Eb by done. by injection Eb as <- <- <-. }
  apply bufio_Write_spec in Eb as (_ & _ & Hw' & He & Hs); [|done]. unfold sent. cbn [c_out c_w].
  split; [done|]. rewrite <-app_assoc. split_and!.
  - destruct e; [done|by rewrite Hs].
  - intros E. rewrite E in He. by rewrite <-He in Hs.
  - intros E. by destruct (Hst E) as [-> ->].
Qed.

Lemma flush_delivers c : delivers [] c (conn_Flush c).2.
Proof.
  intros Hw. unfold conn_Flush. destruct (bufio_Flush (c_w c) (c_out c)) as [[e w] f] eqn:Eb.
  assert (Hst : wb_err (c_w c) = true → f = c_out c ∧ w = c_w c).
  { intros E. unfold bufio_Flush in Eb. rewrite E in Eb. by injection Eb as <- <- <-. }
  apply bufio_Flush_spec in Eb as (_ & _ & Hw' & Hs & _ & _); [|done]. unfold sent in *. cbn [c_out c_w snd].
  rewrite app_nil_r, Hs. split_and!; [done..|]. intros E. by destruct (Hst E) as [-> ->].
Qed.

(** From connection [c] to [c'], with [u] read and [r] written. *)
Definition moves (u r : bytes) (c c' : Conn) : Prop := s_data (c_in c) = u ++ s_data (c_in c') ∧ delivers r c c'.

Lemma moves_trans u r u' r' c c1 c2 : moves u r c c1 → moves u' r' c1 c2 → moves (u ++ u') (r ++ r') c c2.
Proof. intros [H1 H2] [H3 H4]. split; [by rewrite H1, H3, app_assoc|by eapply delivers_trans]. Qed.

Lemma fprint_moves b c : moves [] b c (fprint b c).
Proof. split; [by rewrite fprint_in|apply fprint_delivers]. Qed.

Lemma flush_moves c : moves [] [] c (conn_Flush c).2.
Proof. split; [by rewrite conn_Flush_in|apply flush_delivers]. Qed.

Lemma set_in_moves u r c : s_data (c_in c) = u ++ s_data r → moves u [] c (set_in r c).
Proof. intros Hu. split; [done|by apply delivers_same]. Qed.

Lemma deadline_moves c : moves [] [] c (SetReadDeadline c).2.
Proof. unfold SetReadDeadline. destruct (c_deadlines c); (split; [done|by apply delivers_same]). Qed.

Lemma nil_no_ack : ¬ bs "+" `prefix_of` [].
Proof. by intros [t Ht]. Qed.
Lemma err_no_ack m : ¬ bs "+" `prefix_of` err_reply m.
Proof. by intros [t Ht]. Qed.
Lemma value_no_ack v : ¬ bs "+" `prefix_of` value_reply v.
Proof. by destruct v; intros [t Ht]. Qed.

Definition writes_of {E} (tr : list (call E)) : list (sop * option E) :=
  omap (λ t, match t with Wrote op err => Some (op, err) | _ => None end) tr.

Section exchange.
Context {E : Type} (errText : E → bytes) (upper : Z → Z) (print : Z → bool).

(** What a handler does about the line [raw]: it reads [u] more and replies [r]. *)
Definition answered (raw : bytes) (c c' : Conn) (tr : list (call E)) : Prop :=
  ∃ u r, moves u r c c' ∧
    ((writes_of tr = [] ∧ ¬ bs "+" `prefix_of` r) ∨
     ∃ op err, writes_of tr = [(op, err)] ∧ asks upper (raw ++ [Byte.x0a] ++ u) op ∧ r = reply_of errText (Wrote op err)).

Lemma answered_err raw c m : answered raw c (writeErr m c) [].
Proof. exists [], (err_reply m). split; [apply fprint_moves|]. left. split; [done|apply err_no_ack]. Qed.

Lemma answered_quiet raw u c c' : moves u [] c c' → answered raw c c' [].
Proof. intros Hm. exists u, []. split; [done|]. left. split; [done|apply nil_no_ack]. Qed.

Lemma answered_trans raw u c c1 c2 tr r :
  moves u [] c c1 → moves [] r c1 c2 →
  (writes_of tr = [] ∧ ¬ bs "+" `prefix_of` r) ∨
  (∃ op err, writes_of tr = [(op, err)] ∧ asks upper (raw ++ [Byte.x0a] ++ u) op ∧ r = reply_of errText (Wrote op err)) →
  answered raw c c2 tr.
Proof.
  intros H1 H2 H3. exists u, r. split; [|done]. pose proof (moves_trans _ _ _ _ _ _ _ H1 H2) as H. by rewrite app_nil_r in H.
Qed.

Section line.
Context (raw : bytes) (Hnl : Byte.x0a ∉ raw) (Hlen : Zlen raw ≤ maxLineSize).

Lemma handlePut_answered fields c :
  Fields (strip_cr raw) = fields → (∀ f0, head fields = Some f0 → ToUpper upper f0 = bs "PUT") →
  ensures (handlePut errText print fields c) (λ tr x, answered raw c x.2 tr).
Proof.
  intros Hf Hup. unfold handlePut. destruct fields as [|word [|key [|len [|]]]]; try apply answered_err.
  destruct (Atoi len) as [n|] eqn:En; [|apply answered_err].
  destruct (n <? 0) eqn:E0; [apply answered_err|]. destruct (maxValueSize <? n) eqn:Em; [apply answered_err|].
  pose proof (deadline_moves c) as Hd. destruct (SetReadDeadline c) as [[|] c1]; [by eapply answered_quiet|]. cbn [snd] in Hd.
  destruct (ReadFull n (c_in c1)) as [v r] eqn:Er. pose proof (ReadFull_reads _ _ _ _ Er) as [u Hu].
  assert (Hquiet : ∀ u r', s_data (c_in c1) = u ++ s_data r' → moves u [] c (set_in r' c1)).
  { intros u' r' Hu'. apply (moves_trans [] [] u' [] _ c1); [done|by apply set_in_moves]. }
  destruct v as [v|e|]; [|by eapply answered_quiet, Hquiet..].
  apply ReadFull_Ret in Er as (Hv & Hd1 & _); [|lia].
  destruct (ReadFull 2 r) as [t r2] eqn:Et. pose proof (ReadFull_reads _ _ _ _ Et) as [u2 Hu2]. rewrite Hu2 in Hd1.
  destruct (is_crlf t) eqn:Ec.
  - assert (Hask : asks upper (raw ++ [Byte.x0a] ++ v ++ crlf) (SPut key v)).
    { eapply asks_put; try done; [by apply Hup|by rewrite En, Hv|lia]. }
    destruct t as [t| |]; try done. cbn in Ec. kv_bool. subst t. apply ReadFull_Ret in Et as (_ & Et & _); [|lia].
    rewrite Hu2 in Et. apply app_inv_tail in Et as ->.
    cbn [ensures]. intros [er|]; (eapply answered_trans; [by apply (Hquiet (v ++ crlf)); rewrite Hd1, app_assoc|apply fprint_moves|]);
      right; eauto.
  - eapply answered_trans; [by apply (Hquiet (v ++ u2)); rewrite Hd1, app_assoc|apply fprint_moves|].
    left. split; [done|apply err_no_ack].
Qed.

Lemma handleGet_answered fields c :
  ensures (handleGet fields c : prog E Conn) (λ tr c', answered raw c c' tr).
Proof.
  unfold handleGet. destruct fields as [|word [|key [|]]]; try apply answered_err. cbn [ensures].
  intros v. assert (H : ∀ c', moves [] (value_reply v) c c' → answered raw c c' [Got key v]).
  { intros c' Hm. exists [], (value_reply v). split; [done|]. left. split; [done|apply value_no_ack]. }
  destruct v as [v|]; apply H; [|apply fprint_moves]. cbn [value_reply].
  replace (bs "$" ++ dec (Zlen v) ++ crlf ++ v ++ crlf) with ((bs "$" ++ dec (Zlen v) ++ crlf) ++ v ++ crlf) by (by rewrite <-!app_assoc).
  apply (moves_trans [] _ [] _ _ (fprint (bs "$" ++ dec (Zlen v) ++ crlf) c)); [apply fprint_moves|].
  apply (moves_trans [] _ [] _ _ (fprint v (fprint (bs "$" ++ dec (Zlen v) ++ crlf) c))); apply fprint_moves.
Qed.

Lemma handleDel_answered fields c :
  Fields (strip_cr raw) = fields → (∀ f0, head fields = Some f0 → ToUpper upper f0 = bs "DEL") →
  ensures (handleDel errText fields c) (λ tr c', answered raw c c' tr).
Proof.
  intros Hf Hup. unfold handleDel. destruct fields as [|word [|key [|]]]; try apply answered_err. cbn [ensures].
  assert (Hask : asks upper (raw ++ [Byte.x0a] ++ []) (SDelete key)) by (rewrite app_nil_r; eapply asks_del; eauto).
  intros [er|]; eexists [], _; (split; [apply fprint_moves|]); right; eauto.
Qed.

Lemma dispatch_answered c :
  ensures (dispatch errText upper print (Fields (strip_cr raw)) c) (λ tr x, answered raw c x.2 tr).
Proof.
  unfold dispatch. destruct (Fields (strip_cr raw)) as [|f0 fs] eqn:Ef.
  { apply (answered_quiet raw []). split; [done|by apply delivers_same]. }
  assert (Hsnd : ∀ p : prog E Conn, ensures p (λ tr c', answered raw c c' tr) →
    ensures (bind p (λ c, Return (false, c))) (λ tr x, answered raw c x.2 tr)).
  { intros p Hp. apply ensures_bind. eapply ensures_mono; [exact Hp|]. intros tr c' H. cbn. by rewrite app_nil_r. }
  case_bool_decide; [apply handlePut_answered; [done|by intros ? [= <-]]|].
  case_bool_decide; [apply Hsnd, handleGet_answered|].
  case_bool_decide; [|apply answered_err]. apply Hsnd, handleDel_answered; [done|by intros ? [= <-]].
Qed.

End line.

(** One turn of the loop, whatever the client sent and the store answers. *)
Lemma iteration_exchange c :
  ensures (iteration errText upper print c) (λ tr '(go, c'), ∃ x,
    moves (x_in x) (x_reply x) c c' ∧ honest errText upper x ∧ writes_of tr = option_list (x_write x) ∧
    (go = true → x_in x ≠ [])).
Proof.
  unfold iteration. pose proof (deadline_moves c) as Hd. destruct (SetReadDeadline c) as [[|] c1]; cbn [snd] in Hd.
  { exists (mkExchange [] None []). by split_and!; [|apply nil_no_ack|..]. }
  destruct (readLine (c_in c1) maxLineSize) as [line r] eqn:Er. destruct (readLine_reads _ _ _ Er) as (u & Hu & Hline).
  pose proof (moves_trans _ _ _ _ _ _ _ Hd (set_in_moves u r c1 Hu)) as Hm. cbn [app] in Hm.
  destruct line as [line| |]; [|by exists (mkExchange u None []); split_and!; [|apply nil_no_ack|..]..].
  destruct (Hline line eq_refl) as (raw & -> & -> & Hnl & Hlen). case_bool_decide.
  { exists (mkExchange (raw ++ [Byte.x0a]) None []). split_and!; [done|apply nil_no_ack|done|]. intros _. by destruct raw. }
  apply ensures_bind. eapply ensures_mono; [by apply dispatch_answered|]. intros tr [fatal c2] (u & rep & Hm2 & Hans).
  pose proof (flush_moves c2) as Hfl. destruct (conn_Flush c2) as [e c3]. cbn [fst snd ensures] in *.
  pose proof (moves_trans _ _ _ _ _ _ _ Hm (moves_trans _ _ _ _ _ _ _ Hm2 Hfl)) as Hall. cbn [app] in Hall.
  rewrite !app_nil_r, <-app_assoc in Hall. rewrite app_nil_r.
  assert (Hne : raw ++ [Byte.x0a] ++ u ≠ []) by (by destruct raw).
  destruct Hans as [[Hw Hno]|(op & err & Hw & Hask & ->)].
  - by exists (mkExchange (raw ++ [Byte.x0a] ++ u) None rep).
  - by exists (mkExchange (raw ++ [Byte.x0a] ++ u) (Some (op, err)) (reply_of errText (Wrote op err))).
Qed.

End exchange.

Section loop.
Context {S E : Type} `{KVStore S E}.
Variables (errText : E → bytes) (upper : Z → Z) (print : Z → bool).

(** The writes among the calls. *)
Definition written (ws : list (sop * option E)) : S → S → Prop := performed ((λ w, Wrote w.1 w.2) <$> ws).

Lemma performed_written tr s s' : performed tr s s' → written (writes_of tr) s s'.
Proof. revert s. induction tr as [|[op err|key v] tr IH]; intros s; cbn; [done|intros [? ?]; split; [done|by apply IH]|intros [_ ?]; by apply IH]. Qed.

(** The loop ends, and goes through exchanges. *)
Lemma conn_loop_exchanges fuel c s :
  (length (s_data (c_in c)) < fuel)%nat →
  ∃ c' s' xs, conn_loop errText upper print fuel c s = Some (c', s') ∧
    concat (x_in <$> xs) `prefix_of` s_data (c_in c) ∧ delivers (concat (x_reply <$> xs)) c c' ∧
    Forall (honest errText upper) xs ∧ written (omap x_write xs) s s'.
Proof.
  revert c s. induction fuel as [|fuel IH]; intros c s Hf; [lia|]. cbn [conn_loop]. unfold conn_iter.
  destruct (exec_ensures _ _ s (iteration_exchange errText upper print c)) as (tr & HQ & Htr).
  destruct (exec _ s) as [[go c1] s1]. cbn [fst snd] in *. destruct HQ as (x & [Hin Hout] & Hh & Hw & Hne).
  apply performed_written in Htr. rewrite Hw in Htr.
  assert (Homap : ∀ xs, omap x_write (x :: xs) = option_list (x_write x) ++ omap x_write xs).
  { intros xs. cbn. by destruct (x_write x). }
  destruct go.
  - destruct (IH c1 s1) as (c' & s' & xs & Hl & Hpre & Hdel & Hall & Hwr).
    { rewrite Hin, length_app in Hf. specialize (Hne eq_refl). destruct (x_in x); [done|]. cbn in Hf. lia. }
    exists c', s', (x :: xs). split; [done|]. rewrite !fmap_cons. cbn [concat]. split_and!.
    + rewrite Hin. by apply prefix_app.
    + by eapply delivers_trans.
    + by apply List.Forall_cons.
    + rewrite Homap. unfold written. rewrite fmap_app. by eapply performed_app.
  - exists (conn_Close c1), s1, [x]. cbn [fmap list_fmap concat]. rewrite !app_nil_r. split; [done|]. split_and!.
    + rewrite Hin. by apply prefix_app_r.
    + intros Hwf. destruct (Hout Hwf) as (H1 & H2 & H3 & H4).
      assert (Hcl : sent (conn_Close c1) = sent c1).
      { unfold sent, conn_Close, file_Close. cbn [c_out c_w]. destruct (f_closed _); [done|]. by destruct (next_fault _). }
      rewrite Hcl. done.
    + by apply List.Forall_cons.
    + by rewrite Homap, app_nil_r.
Qed.

End loop.

(** *** The server over the durable store *)

(** The protocol's limits keep every record below the log's limit. *)
Lemma protocol_rec_ok ty k v : Zlen k ≤ maxLineSize → Zlen v ≤ maxValueSize → rec_ok (mkRec ty k v).
Proof.
  intros Hk Hv. unfold rec_ok. rewrite Zlen_encode_body, maxBodySize_value. cbn [Wal.Key Wal.Value].
  unfold maxLineSize, maxValueSize in *. lia.
Qed.

(** A client's writes are a history of the store, and the last one it reported
    as done is acknowledged. *)
Lemma written_run (ws : list (sop * option walop_error)) s s' n a :
  written ws s s' → (a ≤ n)%nat →
  let r := foldl sstep (s, n, a) ws.*1 in
  r.1.1 = s' ∧ (a ≤ r.2)%nat ∧ ∀ (i : nat) op, ws !! i = Some (op, None) → (n + i < r.2)%nat.
Proof.
  revert s n a. induction ws as [|[op err] ws IH]; intros s n a Hw Ha; cbn in Hw; [by subst s'|].
  assert (Hx : kv_exec op s = sexec op s) by (by destruct op). rewrite Hx in Hw.
  cbn [fmap list_fmap foldl sstep fst]. destruct (sexec op s) as [er s1]. cbn [fst snd] in Hw. destruct Hw as [-> Hw].
  assert (Hgo : ∀ a', (a ≤ a' ≤ Datatypes.S n)%nat → (err = None → a' = Datatypes.S n) →
    let r := foldl sstep (s1, Datatypes.S n, a') ws.*1 in
    r.1.1 = s' ∧ (a ≤ r.2)%nat ∧ ∀ (i : nat) op', ((op, err) :: ws) !! i = Some (op', None) → (n + i < r.2)%nat).
  { intros a' Ha' He. destruct (IH s1 (Datatypes.S n) a' Hw) as (H1 & H2 & H3); [lia|]. split; [done|]. split; [lia|].
    intros [|i] op'; cbn; [intros [= _ ->]; specialize (He eq_refl); lia|]. intros Hi%H3. lia. }
  destruct err as [e|]; apply Hgo; (lia || done).
Qed.

Lemma honest_rec_ok errText upper (xs : list (Exchange walop_error)) :
  Forall (honest errText upper) xs → Forall rec_ok (rec_of <$> (omap x_write xs).*1).
Proof.
  induction 1 as [|x xs Hx Hxs IH]; [constructor|]. cbn. unfold honest in Hx. destruct (x_write x) as [[op err]|]; [|done].
  cbn. apply List.Forall_cons; [|done]. destruct Hx as [[raw word key len value _ Hl Hf _ _ Hv|raw word key _ Hl Hf _] _].
  - apply protocol_rec_ok; [|done]. pose proof (strip_cr_len raw). pose proof (Fields_len (strip_cr raw) key) as Hk.
    rewrite Hf in Hk. specialize (Hk ltac:(set_solver)). lia.
  - apply protocol_rec_ok; [|done]. pose proof (strip_cr_len raw). pose proof (Fields_len (strip_cr raw) key) as Hk.
    rewrite Hf in Hk. specialize (Hk ltac:(set_solver)). lia.
Qed.

(** ** Properties *)


Definition ex_cmds : list cmd :=
  [CPut (bs "k") [Byte.x0d; Byte.x0a; Byte.x00]; CGet (bs "k"); CDel (bs "k"); CGet (bs "k")].
Definition ex_new_store : Store := mkStore (rebuild []) (Wal.Open (mkFile [] 0 [] false)).


(** The server ends. On every byte stream a client may send, with any
    failures of the connection, [handleConn] returns after finitely many
    iterations. *)
Theorem server_total {S E} `{KVStore S E} errText upper print c (s : S) :
  ∃ c' s', handleConn errText upper print c s = Some (c', s').
Proof.
  destruct (conn_loop_exchanges errText upper print (Datatypes.S (length (s_data (c_in c)))) c s)
    as (c' & s' & _ & Hl & _); [lia|eauto].
Qed.

(** C6: What the server acknowledges survives a crash. Let a client send any
    bytes, and let anything fail on the connection and on the log's file, the
    store having been opened on a log of whole, synced records. The server goes
    through exchanges: each is some bytes of the client's, at most one write,
    which those bytes ask for, and a reply, which is [+OK] exactly when there
    is a write and the store reported success. The client receives these
    replies in order, or a prefix of them. And after a crash at the end the
    store opens with the old records and a prefix of the writes that contains
    every one that was answered [+OK]. *)
Theorem server_durable errText upper print base f inp deadlines out :
  f_content f = encodes base → f_synced f = length (f_content f) → Forall rec_ok base →
  let s := mkStore (rebuild base) (Wal.Open f) in
  ∃ c' s' xs,
    handleConn errText upper print (mkConn inp deadlines NewWriter out) s = Some (c', s') ∧
    concat (x_in <$> xs) `prefix_of` s_data inp ∧
    f_content (c_out c') `prefix_of` f_content out ++ concat (x_reply <$> xs) ∧
    Forall (honest errText upper) xs ∧ written (omap x_write xs) s s' ∧
    ∀ img, crash_image (file (log s')) img →
    ∃ k s'', Store.Open (mkDisk (Some (mkFile img (length img) [] false)) false false EOF) = Ret s'' ∧
      data s'' = rebuild (base ++ take k (rec_of <$> (omap x_write xs).*1)) ∧
      ∀ (i : nat) op, omap x_write xs !! i = Some (op, None) → (i < k)%nat.
Proof.
  intros Hc Hs Hb s. set (c := mkConn inp deadlines NewWriter out).
  destruct (conn_loop_exchanges errText upper print (Datatypes.S (length (s_data (c_in c)))) c s)
    as (c' & s' & xs & Hl & Hin & Hout & Hh & Hw); [lia|]. exists c', s', xs. split; [done|]. split; [done|].
  destruct Hout as (_ & Hout & _); [apply Nat.le_0_l|]. split.
  { etrans; [|etrans; [exact Hout|]]; unfold sent; cbn; [by apply prefix_app_r|by rewrite app_nil_r]. }
  split; [done|]. split; [done|]. intros img Himg.
  destruct (written_run _ s s' O O Hw) as (<- & _ & Hack); [lia|].
  destruct (srun_recover base f (omap x_write xs).*1 img Hc Hs Hb (honest_rec_ok _ _ xs Hh) Himg) as (k & s'' & Hk & HO & Hd).
  exists k, s''. split; [done|]. split; [done|]. intros i op Hi%Hack. exact (Nat.lt_le_trans _ _ _ Hi Hk).
Qed.

(** A line that is no command, a write, and half of another; the connection
    breaks within the second reply. *)
Definition ex_input : Stream :=
  mkStream (bs "nonsense" ++ crlf ++ cmd_bytes (CPut (bs "k") (bs "v")) ++ bs "PUT x 5") OtherErr.
Definition ex_output : File := mkFile [] 0 [FOk; FFail 2] false.

Lemma server_durable_witness :
  let s := mkStore (rebuild []) (Wal.Open (mkFile [] 0 [] false)) in
  ∃ c' s' xs,
    handleConn (λ _, []) id (λ _, false) (mkConn ex_input [] NewWriter ex_output) s = Some (c', s') ∧
    concat (x_in <$> xs) `prefix_of` s_data ex_input ∧
    f_content (c_out c') `prefix_of` f_content ex_output ++ concat (x_reply <$> xs) ∧
    Forall (honest (λ _, []) id) xs ∧ written (omap x_write xs) s s' ∧
    ∀ img, crash_image (file (log s')) img →
    ∃ k s'', Store.Open (mkDisk (Some (mkFile img (length img) [] false)) false false EOF) = Ret s'' ∧
      data s'' = rebuild ([] ++ take k (rec_of <$> (omap x_write xs).*1)) ∧
      ∀ (i : nat) op, omap x_write xs !! i = Some (op, None) → (i < k)%nat.
Proof.
  apply (server_durable (λ _, []) id (λ _, false) [] (mkFile [] 0 [] false) ex_input [] ex_output);
    [reflexivity|reflexivity|constructor].
Defined.

(** A bad length is not fatal. After a PUT line whose length does not
    parse or is negative, the server reports an error and goes on reading
    where the value starts: if the value holds commands, they are executed. *)
Theorem server_bad_length {S E} `{KVStoreOk S E} errText upper print k len xs (s : S) out :
  Fields k = [k] → Fields len = [len] → Zlen (bs "PUT " ++ k ++ bs " " ++ len) < maxLineSize →
  (match Atoi len with None => True | Some n => n < 0 end) →
  Forall cmd_ok xs → fault_free out →
  let value := concat (cmd_bytes <$> xs) in
  let c := mkConn (mkStream ((bs "PUT " ++ k ++ bs " " ++ len) ++ crlf ++ value) EOF) [] NewWriter out in
  ∃ c', handleConn errText upper print c s = Some (c', (store_run xs s).2).
Proof.
  intros Hk Hlen Hl Hat Hxs Hout value c. unfold handleConn. cbn [c_in c s_data].
  set (fuel := length _). cbn [conn_loop]. unfold conn_iter, iteration. cbn [SetReadDeadline c_deadlines c c_in].
  assert (Hkn : ∀ w, Fields w = [w] → Byte.x0a ∉ w).
  { intros w Hw. apply (Fields_no_newline w). rewrite Hw. by apply list_elem_of_singleton. }
  rewrite readLine_crlf; [| |done].
  2: { rewrite !elem_of_app. intros [Hin|[Hin|[Hin|Hin]]];
       [by apply (bool_decide_eq_true_2 _) in Hin|by apply (Hkn k)|by apply (bool_decide_eq_true_2 _) in Hin|by apply (Hkn len)]. }
  change (bs "PUT " ++ k ++ bs " " ++ len) with (bs "PUT" ++ Byte.x20 :: k ++ Byte.x20 :: len).
  rewrite !Fields_app_space, Hk, Hlen by done. rewrite bool_decide_eq_false_2 by done.
  change (Fields (bs "PUT") ++ [k] ++ [len]) with [bs "PUT"; k; len]. cbn [dispatch].
  change (ToUpper upper (bs "PUT")) with (bs "PUT"). rewrite bool_decide_eq_true_2 by done.
  set (msg := bs "invalid value length " ++ Quote print len).
  assert (handlePut errText print [bs "PUT"; k; len] (set_in (mkStream value EOF) c)
    = Return (false, writeErr msg (set_in (mkStream value EOF) c))) as ->.
  { cbn [handlePut]. destruct (Atoi len) as [n|]; [|done]. by replace (n <? 0) with true by lia. }
  destruct (writeErr_fine msg (set_in (mkStream value EOF) c)) as [Hf Hs].
  { split_and!; try done. unfold writer_wf. cbn. lia. }
  destruct (conn_Flush_fine _ Hf) as (He & Hf2 & _ & Hb). pose proof (conn_Flush_in (writeErr msg (set_in (mkStream value EOF) c))) as Hi.
  rewrite writeErr_in in Hi. cbn [bind]. destruct (conn_Flush _) as [e c2]. cbn [fst snd negb orb] in *. subst e. cbn [negb orb exec].
  destruct (conn_loop_session errText upper print xs fuel c2 s Hxs Hf2 Hb Hi) as (c' & Hl' & _); [|eauto].
  subst fuel value. pose proof (cmds_length xs). rewrite !length_app. cbn [crlf length]. lia.
Qed.

Lemma server_bad_length_witness :
  ∃ c', handleConn (λ _, []) id (λ _, false)
    (mkConn (mkStream ((bs "PUT " ++ bs "k" ++ bs " " ++ bs "-1") ++ crlf ++ concat (cmd_bytes <$> [CDel (bs "other")])) EOF)
       [] NewWriter (mkFile [] 0 [] false)) ex_new_store
    = Some (c', (store_run [CDel (bs "other")] ex_new_store).2).
Proof.
  apply (server_bad_length (λ _, []) id (λ _, false) (bs "k") (bs "-1") [CDel (bs "other")] ex_new_store
    (mkFile [] 0 [] false)); try reflexivity; try done.
  repeat constructor; vm_compute; reflexivity.
Defined.

(** An error reply is one line, whatever the message holds. *)
Lemma server_error_one_line m c :
  conn_fine c →
  ∃ t, sent (writeErr m c) = sent c ++ bs "-ERR " ++ t ++ crlf ∧ ¬ contains t crlf.
Proof.
  intros Hc. exists (ReplaceAll m crlf (bs " ")). split; [by apply writeErr_fine|apply ReplaceAll_no_crlf].
Qed.
