(* ===== verification/Listeners.v ===== *)
(** * Listeners: the accept loop that server.go, leader.go and tcp_transport.go share

    Three types of the program serve connections in the same way: [Serve]
    stores the listener in a field and accepts in a loop, one goroutine per
    connection; [Close] closes the listener that the field holds at that
    moment. The three instances are in ServerLife,
    LeaderLife and TcpTransport. *)
From stdpp Require Import prelude.
From Stdlib Require Import ZArith Lia Strings.Byte.
From S2P Require Import Prelude.
Local Open Scope Z_scope.

(** A listener of package net: the address it is bound to. *)
Record Listener := mkLn { ln_addr : bytes; ln_closed : bool }.

(** [C] is what the goroutine of a connection works on. *)
Record Life (C : Type) := mkLife {
  field : option nat;          (* the field that holds the listener *)
  listeners : list Listener;   (* every listener made so far *)
  loops : list (nat * bool);   (* the calls of Serve: their listener, and whether they still run *)
  conns : list (nat * C)       (* the connections accepted so far, with their listener *)
}.
Arguments mkLife {C}.
Arguments field {C}.
Arguments listeners {C}.
Arguments loops {C}.
Arguments conns {C}.

Section life.
Context {C : Type}.
Implicit Types l : Life C.

Definition no_listener : Life C := mkLife None [] [] [].

(** [net.Listen("tcp", addr)], when it succeeds. *)
Definition listen (addr : bytes) l : nat * Life C :=
  (length (listeners l), mkLife (field l) (listeners l ++ [mkLn addr false]) (loops l) (conns l)).

(** The entry of [Serve]. *)
Definition serve (ln : nat) l : Life C :=
  mkLife (Some ln) (listeners l) (loops l ++ [(ln, true)]) (conns l).

(** The loop of call [j]: [Accept] returns a connection, as long as the
    listener is open. *)
Definition accept (j : nat) (c : C) l : option (Life C) :=
  match loops l !! j with
  | Some (ln, true) =>
      match listeners l !! ln with
      | Some (mkLn _ false) => Some (mkLife (field l) (listeners l) (loops l) (conns l ++ [(ln, c)]))
      | _ => None
      end
  | _ => None
  end.

(** [Accept] returns an error, and so does [Serve]. *)
Definition accept_error (j : nat) l : option (Life C) :=
  match loops l !! j with
  | Some (ln, true) => Some (mkLife (field l) (listeners l) (<[j := (ln, false)]> (loops l)) (conns l))
  | _ => None
  end.

(** [true] is an error: the listener was closed before. *)
Definition close l : bool * Life C :=
  match field l with
  | None => (false, l)
  | Some ln =>
      match listeners l !! ln with
      | Some (mkLn a false) => (false, mkLife (field l) (<[ln := mkLn a true]> (listeners l)) (loops l) (conns l))
      | _ => (true, l)
      end
  end.

Definition addr l : option bytes := field l ≫= λ ln, ln_addr <$> listeners l !! ln.

(** What the goroutines of the program may do, in any order. *)
Inductive life_step l : Life C → Prop :=
| LListen a : life_step l (listen a l).2
| LServe ln : is_Some (listeners l !! ln) → life_step l (serve ln l)
| LAccept j c l' : accept j c l = Some l' → life_step l l'
| LError j l' : accept_error j l = Some l' → life_step l l'
| LClose : life_step l (close l).2
| LWork i ln c c' : conns l !! i = Some (ln, c) →
    life_step l (mkLife (field l) (listeners l) (loops l) (<[i := (ln, c')]> (conns l))).

(** The listener in the field and those of the loops exist. *)
Definition life_ok l : Prop :=
  (∀ ln, field l = Some ln → is_Some (listeners l !! ln)) ∧
  Forall (λ x : nat * bool, is_Some (listeners l !! x.1)) (loops l).

Definition closed (ln : nat) l : Prop := ∃ a, listeners l !! ln = Some (mkLn a true).

Definition accepted_on (ln : nat) l : nat := length (filter (λ x : nat * C, x.1 = ln) (conns l)).

(** ** Lemmas *)

Lemma life_ok_step l l' : life_ok l → life_step l l' → life_ok l'.
Proof.
  intros [Hf Hl] Hs.
  assert (Hins : ∀ ln x, is_Some (listeners l !! ln) → ∀ k, is_Some (listeners l !! k) →
    is_Some (<[ln := x]> (listeners l) !! k)).
  { intros ln x Hln k Hk. apply lookup_lt_is_Some. rewrite length_insert. by apply lookup_lt_is_Some. }
  assert (Happ : ∀ x k, is_Some (listeners l !! k) → is_Some ((listeners l ++ [x]) !! k)).
  { intros x k [y Hy]. exists y. by apply lookup_app_l_Some. }
  destruct Hs as [a|ln Hln|j c l' Ha|j l' Ha| |i ln c c' Hc].
  - split; cbn; [intros ln Hln; apply Happ; by apply Hf|]. eapply Forall_impl; [exact Hl|]. intros x. apply Happ.
  - split; cbn; [by intros k [= <-]|]. apply Forall_app. split; [done|]. by apply List.Forall_cons.
  - unfold accept in Ha. repeat case_match; try done. injection Ha as <-. by split.
  - unfold accept_error in Ha. destruct (loops l !! j) as [[ln []]|] eqn:E; try done. injection Ha as <-.
    split; [done|]. cbn. apply Forall_insert; [done|]. cbn. rewrite Forall_lookup in Hl. by apply (Hl j (ln, true)).
  - unfold close. destruct (field l) as [ln|] eqn:Ef; [|split; [intros ln Hln; cbn in Hln; congruence|done]].
    destruct (listeners l !! ln) as [[a []]|] eqn:El; try (split; [cbn; rewrite Ef; exact Hf|exact Hl]).
    split; cbn; [intros k [= <-]; apply Hins; rewrite El; eauto|].
    eapply Forall_impl; [exact Hl|]. intros x Hx. apply Hins; [rewrite El; eauto|done].
  - by split.
Qed.

(** A listener that is closed stays closed and accepts nothing. *)
Lemma closed_step ln l l' : closed ln l → life_step l l' → closed ln l' ∧ accepted_on ln l' = accepted_on ln l.
Proof.
  intros [a Ha] Hs. unfold closed, accepted_on. destruct Hs as [b|k Hk|j c l' Hj|j l' Hj| |i k c c' Hc]; cbn.
  - split; [|done]. exists a. by apply lookup_app_l_Some.
  - eauto.
  - unfold accept in Hj. destruct (loops l !! j) as [[k []]|]; try done.
    destruct (listeners l !! k) as [[b []]|] eqn:Ek; try done. injection Hj as <-. cbn. split; [eauto|].
    rewrite filter_app, filter_cons_False, filter_nil, app_nil_r; [done|]. cbn. intros ->. rewrite Ha in Ek. done.
  - unfold accept_error in Hj. destruct (loops l !! j) as [[k []]|]; try done. injection Hj as <-. eauto.
  - unfold close. destruct (field l) as [k|]; [|eauto]. destruct (listeners l !! k) as [[b []]|] eqn:Ek; try eauto.
    cbn. split; [|done]. destruct (decide (k = ln)) as [->|Hne]; [rewrite Ha in Ek; done|].
    exists a. by rewrite list_lookup_insert_ne.
  - split; [eauto|]. rewrite <-(list_insert_id (conns l) i (k, c)) at 2 by done.
    rewrite !insert_take_drop by (by eapply lookup_lt_Some). rewrite !filter_app, !length_app, !filter_cons. cbn.
    by destruct (decide (k = ln)).
Qed.

Lemma close_closes ln l : life_ok l → field l = Some ln → closed ln (close l).2.
Proof.
  intros [Hf _] Hln. unfold close. rewrite Hln. destruct (Hf ln Hln) as [[a []] Hx]; rewrite Hx; [by exists a|].
  exists a. cbn. apply list_lookup_insert_eq. by eapply lookup_lt_Some.
Qed.

End life.
