(* ===== verification/ServerLife.v ===== *)
(** * ServerLife: the Server of internal/server/server.go with many clients

    The server's goroutines are the accept loops, one handler per connection,
    and the callers of [Close] and [Addr]; they interleave. A handler runs its
    turns as [Server.iteration] says, and a call of the store takes several
    steps: one for each section of the method in which it holds a lock. *)
From stdpp Require Import prelude gmap.
From Stdlib Require Import ZArith Lia Strings.Byte.
From S2P Require Import Prelude GoIO GoText Wal Store Server Listeners.
Local Open Scope Z_scope.

(** ** Calls of the store, step by step *)

(** The points of a write call at which it holds no lock, and what it does from
    one to the next: it gets to another point, or returns. *)
Class KVSteps (S E : Type) `{KVStore S E} := {
  point : Type;
  call_start : point;
  call_step : sop → point → S → (point + option E) * S
}.
Arguments point S E {_ _}.

(** A write call that has the store for itself. *)
Fixpoint call_alone {S E} `{KVSteps S E} (fuel : nat) (op : sop) (p : point S E) (s : S) : option (option E * S) :=
  match call_step op p s with
  | (inr err, s) => Some (err, s)
  | (inl p, s) => match fuel with O => None | Datatypes.S fuel => call_alone fuel op p s end
  end.

(** The effect of a write on a map. *)
Definition op_map (op : sop) (m : gmap bytes bytes) : gmap bytes bytes :=
  match op with SPut k v => <[k := v]> m | SDelete k => delete k m end.

(** What a caller may rely on when other calls run in between: the visible map
    changes when a call returns with success, and not before. *)
Class KVStepsOk (S E : Type) `{KVStoreOk S E} `{!KVSteps S E} := {
  call_left : point S E → nat;
  call_goes_on op p s p' s' : call_step op p s = (inl p', s') → kv_abs s' = kv_abs s ∧ (call_left p' < call_left p)%nat;
  call_returns op p s err s' : call_step op p s = (inr err, s') →
    kv_abs s' = match err with None => op_map op (kv_abs s) | Some _ => kv_abs s end;
  call_method op s : call_alone (call_left call_start) op call_start s = Some (kv_exec op s)
}.

(** [Put] and [Delete] of the durable store: the log's mutex is held by [Append]
    and by [Sync], the store's by the update of the map. *)
#[global] Instance Store_KVSteps : KVSteps Store walop_error := {
  point := pc;
  call_start := PStart;
  call_step op p s :=
    match p with
    | PStart =>
        let '(e, l) := Append (rec_of op) (log s) in
        (match e with Some e => inr (Some e) | None => inl PAppended end, mkStore (data s) l)
    | PAppended =>
        let '(e, l) := Sync (log s) in
        (match e with Some e => inr (Some e) | None => inl PSynced end, mkStore (data s) l)
    | _ => (inr None, mkStore (apply_record (data s) (rec_of op)) (log s))
    end
}.

Definition sections_left (p : point Store walop_error) : nat :=
  match p : pc with PStart => 2 | PAppended => 1 | _ => 0 end.

#[global] Instance Store_KVStepsOk : KVStepsOk Store walop_error.
Proof.
  refine (Build_KVStepsOk Store walop_error _ _ _ sections_left _ _ _).
  - intros op p s p' s'. cbn. destruct p; [| |done..].
    + destruct (Append _ _) as [[e|] l]; [done|]. intros [= <- <-]. cbn. split; [done|lia].
    + destruct (Sync _) as [[e|] l]; [done|]. intros [= <- <-]. cbn. split; [done|lia].
  - intros op p s err s'. cbn. destruct p; [| |intros [= <- <-]; by destruct op..].
    + destruct (Append _ _) as [[e|] l]; [|done]. by intros [= <- <-].
    + destruct (Sync _) as [[e|] l]; [|done]. by intros [= <- <-].
  - intros op s. assert (Hx : kv_exec op s = sexec op s) by (by destruct op). rewrite Hx, sexec_unfold. cbn.
    destruct (Append (rec_of op) (log s)) as [[e|] l]; [done|]. cbn. by destruct (Sync l) as [[e|] l'].
Defined.

(** ** The server *)

(** In nanoseconds. *)
Definition defaultIdleTimeout : Z := 30 * 1000000000.

(** Where a handler is: at the head of its loop, in a turn, with the rest of the
    turn and the point of the call it is in, or returned. *)
Inductive hstate (S E : Type) `{KVSteps S E} :=
| Reading
| Calling (p : prog E (bool * Conn)) (at_ : point S E)
| Ended.
Arguments Reading {S E _ _}.
Arguments Calling {S E _ _}.
Arguments Ended {S E _ _}.

(** The connection of a handler is as it was when its turn began. *)
Record Server (S E : Type) `{KVSteps S E} := mkServer {
  store : S;
  life : Life (Conn * hstate S E);
  IdleTimeout : Z
}.
Arguments mkServer {S E _ _}.
Arguments store {S E _ _}.
Arguments life {S E _ _}.
Arguments IdleTimeout {S E _ _}.

Section server.
Context {S E : Type} `{KVSteps S E}.
Variables (errText : E → bytes) (upper : Z → Z) (print : Z → bool).
Implicit Types srv : Server S E.

Definition New (s : S) : Server S E := mkServer s no_listener 0.

Definition idleTimeout srv : Z := if 0 <? IdleTimeout srv then IdleTimeout srv else defaultIdleTimeout.

Definition set_life (l : Life (Conn * hstate S E)) srv : Server S E := mkServer (store srv) l (IdleTimeout srv).

(** [Serve] up to its loop, which is [Accept] and [AcceptError]. *)
Definition Serve (ln : nat) srv : Server S E := set_life (serve ln (life srv)) srv.

(** [listens] says whether the address can be bound; nothing is an error. *)
Definition ListenAndServe (listens : bytes → bool) (a : bytes) srv : option (Server S E) :=
  if listens a then
    let '(ln, l) := listen a (life srv) in Some (Serve ln (set_life l srv))
  else None.

Definition Accept (j : nat) (c : Conn) srv : option (Server S E) :=
  (λ l, set_life l srv) <$> accept j (c, Reading) (life srv).
Definition AcceptError (j : nat) srv : option (Server S E) :=
  (λ l, set_life l srv) <$> accept_error j (life srv).

Definition Addr srv : option bytes := addr (life srv).
Definition Close srv : bool * Server S E := let '(e, l) := close (life srv) in (e, set_life l srv).

(** A handler's next step: it reads a command and starts its turn, its call of
    the store moves on or returns, or its turn ends. The last component is a
    call that returns in this step. *)
Definition handler_step (c : Conn) (h : hstate S E) (s : S) : option (Conn * hstate S E * S * option (call E)) :=
  match h with
  | Reading => Some (c, Calling (iteration errText upper print c) call_start, s, None)
  | Calling (Write op k) p =>
      match call_step op p s with
      | (inl p, s) => Some (c, Calling (Write op k) p, s, None)
      | (inr err, s) => Some (c, Calling (k err) call_start, s, Some (Wrote op err))
      end
  | Calling (Read key k) _ =>
      let v := kv_get key s in Some (c, Calling (k v) call_start, s, Some (Got key v))
  | Calling (Return (go, c)) _ =>
      Some (if go : bool then (c, Reading, s, None) else (conn_Close c, Ended, s, None))
  | Ended => None
  end.

(** The handler of connection [i] makes a step. *)
Definition handle (i : nat) srv : option (Server S E * option (call E)) :=
  match conns (life srv) !! i with
  | Some (ln, (c, h)) =>
      '(c, h, s, t) ← handler_step c h (store srv);
      let l := life srv in
      Some (mkServer s (mkLife (field l) (listeners l) (loops l) (<[i := (ln, (c, h))]> (conns l))) (IdleTimeout srv), t)
  | None => None
  end.

(** ** Clients *)

(** What happens next: a client that sends the commands [xs] and then closes
    its side is accepted, a handler runs, or the server is started or closed. *)
Inductive event :=
| EListen (a : bytes)
| EServe (ln : nat)
| EAccept (j : nat) (xs : list cmd)
| EError (j : nat)
| EHandle (i : nat)
| EClose.

Definition client (xs : list cmd) : Conn :=
  mkConn (mkStream (concat (cmd_bytes <$> xs)) EOF) [] NewWriter (mkFile [] 0 [] false).

(** The server, what its clients are sending, and the calls of the store that
    have returned, with the client they were made for. An event that is not
    possible leaves them alone. *)
Record World := mkWorld {
  srv_ : Server S E;
  clients : list (list cmd);
  hist : list (nat * call E)
}.

Definition step (w : World) (e : event) : World :=
  let srv := srv_ w in
  let same srv := mkWorld srv (clients w) (hist w) in
  match e with
  | EListen a => same (default srv (ListenAndServe (λ _, true) a srv))
  | EServe ln => if decide (is_Some (listeners (life srv) !! ln)) then same (Serve ln srv) else w
  | EAccept j xs => match Accept j (client xs) srv with Some srv => mkWorld srv (clients w ++ [xs]) (hist w) | None => w end
  | EError j => same (default srv (AcceptError j srv))
  | EHandle i =>
      match handle i srv with
      | Some (srv, t) => mkWorld srv (clients w) (hist w ++ ((i,.) <$> option_list t))
      | None => w
      end
  | EClose => same (Close srv).2
  end.

Definition run (evs : list event) (w : World) : World := foldl step w evs.

Definition start (s : S) : World := mkWorld (New s) [] [].

Definition event_ok (e : event) : Prop := match e with EAccept _ xs => Forall cmd_ok xs | _ => True end.

(** The calls made for client [i], in order. *)
Definition mine (i : nat) (h : list (nat * call E)) : list (call E) := (filter (λ x, x.1 = i) h).*2.

(** A single map, starting as [m], gives these answers and ends as [m']; a write
    that the store reports as failed leaves it alone. *)
Fixpoint explains (h : list (call E)) (m m' : gmap bytes bytes) : Prop :=
  match h with
  | [] => m' = m
  | Wrote op None :: h => explains h (op_map op m) m'
  | Wrote _ (Some _) :: h => explains h m m'
  | Got key v :: h => m !! key = v ∧ explains h m m'
  end.

End server.

(** ** Lemmas *)

Section serial.
Context {S E : Type} `{KVStepsOk S E}.
Variables (errText : E → bytes) (upper : Z → Z) (print : Z → bool).

Lemma explains_app h h' m m1 m2 : explains h m m1 → explains (E := E) h' m1 m2 → explains (h ++ h') m m2.
Proof. revert m. induction h as [|[op [e|]|k v] h IH]; intros m; cbn; [by intros ->|by apply IH..|]. intros [? ?] ?. split; eauto. Qed.

(** A step changes the map as the call that returns in it says. *)
Lemma handler_step_map c h (s : S) c' h' s' t :
  handler_step errText upper print c h s = Some (c', h', s', t) → explains (option_list t) (kv_abs s) (kv_abs s').
Proof.
  destruct h as [|p pt|]; cbn; [by intros [= <- <- <- <-]| |done].
  destruct p as [[[] c1]|op k|key k]; [by intros [= <- <- <- <-]..| |].
  - destruct (call_step op pt s) as [[p'|err] s1] eqn:Ec; intros [= <- <- <- <-]; cbn.
    + by destruct (call_goes_on _ _ _ _ _ Ec).
    + apply call_returns in Ec. by destruct err.
  - intros [= <- <- <- <-]. cbn. by rewrite kv_get_abs.
Qed.

(** How many steps a handler needs that has [rest] commands to read. *)
Definition turn_steps : nat := call_left (call_start : point S E) + 3.
Definition steps_left (h : hstate S E) (rest : list cmd) : nat :=
  match h with
  | Reading => turn_steps * length rest + 2
  | Calling (Write _ _) p => turn_steps * length rest + 4 + call_left p
  | Calling (Read _ _) _ => turn_steps * length rest + 4
  | Calling (Return (true, _)) _ => turn_steps * length rest + 3
  | Calling (Return (false, _)) _ => 1
  | Ended => 0
  end.

(** The rest of a turn that serves the command [x], after the calls [tr0]. *)
Definition serves (x : cmd) (rest : list cmd) (c : Conn) (tr0 : list (call E)) (p : prog E (bool * Conn)) : Prop :=
  ensures p (λ tr '(go, c'), go = true ∧ conn_fine c' ∧ c_in c' = mkStream (concat (cmd_bytes <$> rest)) EOF ∧
    wb_buf (c_w c') = [] ∧ ∃ t, tr0 ++ tr = [t] ∧ cmd_of t = x ∧ sent c' = sent c ++ reply_of errText t).

(** The rest of the last turn, in which the input ends. *)
Definition ends (c : Conn) (p : prog E (bool * Conn)) : Prop :=
  ∃ c', p = Return (false, c') ∧ sent c' = sent c ∧ wb_buf (c_w c') = [].

(** A handler whose client sends [xs], after the calls [calls]. *)
Definition handler_at (xs : list cmd) (calls : list (call E)) (c : Conn) (h : hstate S E) (rest : list cmd) : Prop :=
  wb_buf (c_w c) = [] ∧
  match h with
  | Reading =>
      conn_fine c ∧ c_in c = mkStream (concat (cmd_bytes <$> rest)) EOF ∧
      xs = (cmd_of <$> calls) ++ rest ∧ sent c = concat (reply_of errText <$> calls)
  | Calling p _ =>
      (∃ x old tr0, calls = old ++ tr0 ∧ xs = (cmd_of <$> old) ++ x :: rest ∧
         sent c = concat (reply_of errText <$> old) ∧ serves x rest c tr0 p) ∨
      (rest = [] ∧ xs = cmd_of <$> calls ∧ sent c = concat (reply_of errText <$> calls) ∧ ends c p)
  | Ended => xs = cmd_of <$> calls ∧ sent c = concat (reply_of errText <$> calls)
  end.

Lemma ensures_leaf {A} (p : prog E A) Q : ensures p Q → ∃ tr a, Q tr a.
Proof.
  revert Q. induction p as [a|op k IH|key k IH]; intros Q Hp; cbn in *; [eauto| |].
  - destruct (IH None _ (Hp None)) as (tr & a & HQ). eauto.
  - destruct (IH None _ (Hp None)) as (tr & a & HQ). eauto.
Qed.

(** A turn makes one call. *)
Lemma serves_call x rest c tr0 p :
  serves x rest c tr0 p → match p with Return _ => True | _ => tr0 = [] end.
Proof.
  intros Hp. destruct p as [a|op k|key k]; [done| |].
  - destruct (ensures_leaf _ _ (Hp None)) as (tr & [go c'] & _ & _ & _ & _ & t & Ht & _).
    destruct tr0 as [|? [|? ?]]; [done|by destruct tr..].
  - destruct (ensures_leaf _ _ (Hp None)) as (tr & [go c'] & _ & _ & _ & _ & t & Ht & _).
    destruct tr0 as [|? [|? ?]]; [done|by destruct tr..].
Qed.

Lemma serves_write x rest c tr0 op k err :
  serves x rest c tr0 (Write op k) → serves x rest c (tr0 ++ [Wrote op err]) (k err).
Proof. intros Hp. eapply ensures_mono; [exact (Hp err)|]. intros tr [go c']. by rewrite <-app_assoc. Qed.

Lemma serves_read x rest c tr0 key k v :
  serves x rest c tr0 (Read key k) → serves x rest c (tr0 ++ [Got key v]) (k v).
Proof. intros Hp. eapply ensures_mono; [exact (Hp v)|]. intros tr [go c']. by rewrite <-app_assoc. Qed.

(** The call of a turn has returned: the turn ends next. *)
Lemma serves_returned x rest c tr0 t p :
  serves x rest c (tr0 ++ [t]) p → ∃ c', p = Return (true, c').
Proof.
  intros Hp. pose proof (serves_call _ _ _ _ _ Hp) as Hc. destruct p as [[go c']|op k|key k].
  - destruct Hp as [-> _]. by exists c'.
  - by destruct tr0.
  - by destruct tr0.
Qed.

(** The first turn of the rest. *)
Lemma turn_starts xs calls c rest pt :
  Forall cmd_ok xs → handler_at xs calls c Reading rest →
  ∃ rest', handler_at xs calls c (Calling (iteration errText upper print c) pt) rest' ∧
    (steps_left (Calling (iteration errText upper print c) call_start) rest' < steps_left Reading rest)%nat.
Proof.
  intros Hok (Hb & Hf & Hin & Hx & Hs). destruct rest as [|x rest].
  - destruct Hf as (Hf1 & Hf2 & Hf3 & Hd). assert (Hit : ∃ c', iteration errText upper print c = Return (false, c') ∧
      sent c' = sent c ∧ wb_buf (c_w c') = []).
    { unfold iteration, SetReadDeadline. rewrite Hd, Hin. cbn. eexists. split; [done|]. done. }
    exists []. destruct Hit as (c' & Hit & Hs' & Hb'). rewrite Hit. split; [|cbn; lia]. split; [done|]. right.
    rewrite app_nil_r in Hx. split_and!; [done..|]. by exists c'.
  - assert (Hxo : cmd_ok x).
    { rewrite Hx in Hok. apply Forall_app in Hok as [_ Hok]. by apply Forall_cons in Hok as [? _]. }
    rewrite fmap_cons in Hin. cbn [concat] in Hin.
    pose proof (iteration_cmd errText upper print x c _ _ Hxo Hf Hin) as Hit. exists rest.
    assert (Hsv : serves x rest c [] (iteration errText upper print c)) by exact Hit.
    split; [split; [done|]; left; exists x, calls, []; by rewrite app_nil_r|].
    unfold steps_left, turn_steps. cbn [length].
    destruct (iteration errText upper print c) as [[[] c']|op k|key k]; lia.
Qed.

(** A step of a handler: its client is served further, and less is left. *)
Lemma handler_at_step xs calls c h (s : S) c' h' s' t rest :
  Forall cmd_ok xs → handler_at xs calls c h rest →
  handler_step errText upper print c h s = Some (c', h', s', t) →
  ∃ rest', handler_at xs (calls ++ option_list t) c' h' rest' ∧ (steps_left h' rest' < steps_left h rest)%nat.
Proof.
  intros Hok Hat. destruct h as [|p pt|]; cbn [handler_step]; [| |done].
  { intros [= <- <- <- <-]. cbn [option_list]. rewrite app_nil_r. by apply turn_starts. }
  destruct Hat as [Hb [(x & old & tr0 & -> & Hx & Hs & Hsv)|(-> & Hx & Hs & c1 & -> & Hs1 & Hb1)]].
  - destruct p as [[go c1]|op k|key k].
    + destruct Hsv as (-> & Hf & Hin & Hb1 & t1 & Ht & Hc & Hs1). intros [= <- <- <- <-]. cbn [option_list]. rewrite app_nil_r in *.
      subst tr0. exists rest. split; [|cbn; lia]. split; [done|]. split; [done|]. split; [done|].
      rewrite !fmap_app, <-app_assoc. cbn. rewrite Hc, concat_app, Hs1, Hs. cbn. by rewrite app_nil_r.
    + destruct (call_step op pt s) as [[p'|err] s1] eqn:Ec; intros [= <- <- <- <-]; cbn [option_list].
      * rewrite app_nil_r. exists rest. apply call_goes_on in Ec as [_ Hlt]. split; [|cbn; lia]. split; [done|]. left.
        by exists x, old, tr0.
      * pose proof (serves_write _ _ _ _ _ _ err Hsv) as Hnext. destruct (serves_returned _ _ _ _ _ _ Hnext) as [c1 Hr].
        exists rest. split; [split; [done|]; left; exists x, old, (tr0 ++ [Wrote op err]); by rewrite app_assoc|].
        rewrite Hr. cbn. lia.
    + intros [= <- <- <- <-]. cbn [option_list].
      pose proof (serves_read _ _ _ _ _ _ (kv_get key s) Hsv) as Hnext. destruct (serves_returned _ _ _ _ _ _ Hnext) as [c1 Hr].
      exists rest. split; [split; [done|]; left; exists x, old, (tr0 ++ [Got key (kv_get key s)]); by rewrite app_assoc|].
      rewrite Hr. cbn. lia.
  - intros [= <- <- <- <-]. cbn [option_list]. rewrite app_nil_r. exists []. split; [|cbn; lia].
    assert (Hcl : sent (conn_Close c1) = sent c1).
    { unfold sent, conn_Close, file_Close. cbn [c_out c_w]. destruct (f_closed _); [done|]. by destruct (next_fault _). }
    split; [done|]. split; [done|]. by rewrite Hcl, Hs1.
Qed.
(** Client [i], who sends [xs], and its handler, which needs at most [n] more
    steps. *)
Definition client_at (w : World (S := S) (E := E)) (i : nat) (xs : list cmd) (n : nat) : Prop :=
  clients w !! i = Some xs ∧
  ∃ ln c h rest, conns (life (srv_ w)) !! i = Some (ln, (c, h)) ∧
    handler_at xs (mine i (hist w)) c h rest ∧ (steps_left h rest ≤ n)%nat.

Lemma client_at_mono w i xs n n' : client_at w i xs n → (n ≤ n')%nat → client_at w i xs n'.
Proof.
  intros (Hx & ln & c & h & rest & Hc & Hat & Hn) Hle. split; [done|]. exists ln, c, h, rest. split_and!; [done..|lia].
Qed.

Definition handles (i : nat) (e : event) : bool := match e with EHandle j => bool_decide (j = i) | _ => false end.

Lemma mine_app i (h h' : list (nat * call E)) : mine i (h ++ h') = mine i h ++ mine i h'.
Proof. unfold mine. by rewrite filter_app, fmap_app. Qed.

Lemma mine_step i j (t : option (call E)) :
  mine i ((j,.) <$> option_list t) = if decide (j = i) then option_list t else [].
Proof.
  unfold mine. destruct t as [t|]; [|by destruct (decide (j = i))]. change ((j,.) <$> option_list (Some t)) with [(j, t)].
  rewrite filter_cons, filter_nil. cbn [fst]. by destruct (decide (j = i)).
Qed.

Lemma mine_none i (h : list (nat * call E)) : Forall (λ x, x.1 < i)%nat h → mine i h = [].
Proof.
  unfold mine. induction 1 as [|[j x] h Hj Hh IH]; [done|]. cbn in Hj. rewrite filter_cons_False; [done|]. cbn. lia.
Qed.

(** An event that leaves the connections, or adds some, leaves a client as it
    is. *)
Lemma client_at_same w w' i xs n :
  client_at w i xs n → hist w' = hist w → clients w `prefix_of` clients w' →
  conns (life (srv_ w)) `prefix_of` conns (life (srv_ w')) → client_at w' i xs n.
Proof.
  intros (Hx & ln & c & h & rest & Hc & Hat & Hn) Hh Hcl Hco. split; [by eapply prefix_lookup_Some|].
  exists ln, c, h, rest. rewrite Hh. split_and!; [by eapply prefix_lookup_Some|done..].
Qed.

Lemma client_at_handle w i j xs n :
  Forall cmd_ok xs → client_at w i xs n →
  client_at (step errText upper print w (EHandle j)) i xs (if decide (j = i) then pred n else n).
Proof.
  intros Hok Hcl. pose proof Hcl as (Hx & ln & c & h & rest & Hc & Hat & Hn). cbn [step]. unfold handle.
  destruct (decide (j = i)) as [->|Hne].
  - rewrite Hc. destruct (handler_step errText upper print c h (store (srv_ w))) as [[[[c' h'] s'] t]|] eqn:Eh.
    + cbn [mbind option_bind]. destruct (handler_at_step _ _ _ _ _ _ _ _ _ _ Hok Hat Eh) as (rest' & Hat' & Hlt).
      split; [done|]. exists ln, c', h', rest'. cbn [srv_ hist life conns]. split_and!.
      * apply list_lookup_insert_eq. by eapply lookup_lt_Some.
      * rewrite mine_app, mine_step, decide_True by done. exact Hat'.
      * lia.
    + cbn. destruct h as [|[]|]; cbn in Eh; try done; [by destruct a as [[] ?]|by destruct (call_step _ _ _) as [[]]|].
      split; [done|]. exists ln, c, Ended, rest. cbn. split_and!; [done..|lia].
  - destruct (conns (life (srv_ w)) !! j) as [[ln' [c0 h0]]|]; [|done].
    destruct (handler_step errText upper print c0 h0 (store (srv_ w))) as [[[[c' h'] s'] t]|]; [|done]. cbn [mbind option_bind].
    split; [done|]. exists ln, c, h, rest. cbn [srv_ hist life conns]. split_and!; [by rewrite list_lookup_insert_ne| |done].
    by rewrite mine_app, mine_step, decide_False, app_nil_r by done.
Qed.

Lemma client_at_step w e i xs n :
  Forall cmd_ok xs → client_at w i xs n →
  client_at (step errText upper print w e) i xs (if handles i e then pred n else n).
Proof.
  intros Hok Hcl. destruct e as [a|ln|j ys|j|j|]; cbn [handles]; try (by eapply client_at_same).
  - cbn [step]. destruct (decide _); [|done]. by eapply client_at_same.
  - cbn [step]. unfold Accept, accept. destruct (loops _ !! j) as [[ln []]|]; try done.
    destruct (listeners _ !! ln) as [[a []]|]; try done. cbn.
    eapply client_at_same; [done|done|by apply prefix_app_r|by apply prefix_app_r].
  - cbn [step]. unfold AcceptError, accept_error. destruct (loops _ !! j) as [[ln []]|]; by eapply client_at_same.
  - pose proof (client_at_handle w i j xs n Hok Hcl) as Hh. case_bool_decide; destruct (decide (j = i)); done.
  - cbn [step]. unfold Close, close. destruct (field _) as [ln|]; [|by eapply client_at_same].
    destruct (listeners _ !! ln) as [[a []]|]; by eapply client_at_same.
Qed.

Record serial (s0 : S) (w : World (S := S) (E := E)) : Prop := {
  se_map : explains (hist w).*2 (kv_abs s0) (kv_abs (store (srv_ w)));
  se_clients : Forall (Forall cmd_ok) (clients w);
  se_hist : Forall (λ x : nat * call E, (x.1 < length (clients w))%nat) (hist w);
  se_length : length (conns (life (srv_ w))) = length (clients w);
  se_conns i xs : clients w !! i = Some xs → client_at w i xs (turn_steps * length xs + 2)
}.
(** What an event does to the clients, the history and the map. *)
Lemma step_shape w e :
  event_ok e → Forall (Forall cmd_ok) (clients w) → length (conns (life (srv_ w))) = length (clients w) →
  let w' := step errText upper print w e in
  length (conns (life (srv_ w'))) = length (clients w') ∧ Forall (Forall cmd_ok) (clients w') ∧
  (∃ ys, clients w' = clients w ++ ys ∧ ∀ (j : nat) xs, ys !! j = Some xs →
     ∃ ln, conns (life (srv_ w')) !! (length (clients w) + j)%nat = Some (ln, (client xs, Reading))) ∧
  ∃ hs, hist w' = hist w ++ hs ∧ Forall (λ x : nat * call E, (x.1 < length (clients w))%nat) hs ∧
    explains hs.*2 (kv_abs (store (srv_ w))) (kv_abs (store (srv_ w'))).
Proof.
  intros He Hok Hlen. cbv zeta.
  assert (Hkeep : ∀ l,
    conns l = conns (life (srv_ w)) → let w' := mkWorld (set_life l (srv_ w)) (clients w) (hist w) in
    length (conns (life (srv_ w'))) = length (clients w') ∧ Forall (Forall cmd_ok) (clients w') ∧
    (∃ ys, clients w' = clients w ++ ys ∧ ∀ (j : nat) xs, ys !! j = Some xs →
       ∃ ln, conns (life (srv_ w')) !! (length (clients w) + j)%nat = Some (ln, (client xs, Reading))) ∧
    ∃ hs, hist w' = hist w ++ hs ∧ Forall (λ x : nat * call E, (x.1 < length (clients w))%nat) hs ∧
      explains hs.*2 (kv_abs (store (srv_ w))) (kv_abs (store (srv_ w')))).
  { intros l Hl. cbn. rewrite Hl. split_and!; [done..|exists []; by rewrite app_nil_r|exists []; by rewrite app_nil_r]. }
  assert (Hsame : w = mkWorld (set_life (life (srv_ w)) (srv_ w)) (clients w) (hist w)) by (by destruct w as [[]]).
  destruct e as [a|ln|j ys|j|j|]; cbn [step].
  - by apply (Hkeep (serve _ (listen a (life (srv_ w))).2)).
  - destruct (decide _); [by apply Hkeep|]. rewrite Hsame. by apply Hkeep.
  - unfold Accept, accept. destruct (loops _ !! j) as [[ln []]|]; cbn [fmap option_fmap option_map]; try (rewrite Hsame; by apply Hkeep).
    destruct (listeners _ !! ln) as [[a []]|]; cbn [fmap option_fmap option_map]; try (rewrite Hsame; by apply Hkeep).
    cbn. split_and!; [by rewrite !length_app, Hlen|by apply Forall_app; split; [|apply List.Forall_cons]| |exists []; by rewrite app_nil_r].
    exists [ys]. split; [done|]. intros [|?] xs [= <-]. rewrite Nat.add_0_r, <-Hlen, lookup_app_r, Nat.sub_diag by done. by exists ln.
  - unfold AcceptError, accept_error. destruct (loops _ !! j) as [[ln []]|]; cbn [fmap option_fmap option_map default];
      [by apply Hkeep|rewrite Hsame; by apply Hkeep..].
  - unfold handle. destruct (conns (life (srv_ w)) !! j) as [[ln [c h]]|] eqn:Ej; [|rewrite Hsame; by apply Hkeep].
    destruct (handler_step errText upper print c h (store (srv_ w))) as [[[[c' h'] s'] t]|] eqn:Eh;
      cbn [mbind option_bind]; [|rewrite Hsame; by apply Hkeep].
    apply handler_step_map in Eh. cbn [srv_ clients hist life conns store]. split_and!; [by rewrite length_insert|done|exists []; by rewrite app_nil_r|].
    exists ((j,.) <$> option_list t). split; [done|]. rewrite <-list_fmap_compose. cbn [compose snd].
    split; [|by rewrite list_fmap_id]. apply Forall_fmap, Forall_forall. intros x _. cbn.
    rewrite <-Hlen. by eapply lookup_lt_Some.
  - unfold Close, close. destruct (field _) as [ln|]; [|by apply Hkeep].
    destruct (listeners _ !! ln) as [[a []]|]; by apply Hkeep.
Qed.

Lemma serial_step s0 w e : event_ok e → serial s0 w → serial s0 (step errText upper print w e).
Proof.
  intros He [Hmap Hcs Hhist Hln Hcl].
  destruct (step_shape w e He Hcs Hln) as (Hl & Hok & (ys & Hys & Hnew) & hs & Hhs & Hlt & Hex).
  pose proof (λ i xs n, client_at_step w e i xs n) as Hst. set (w' := step errText upper print w e) in *.
  split; [|done| |done|].
  - rewrite Hhs, fmap_app. by eapply explains_app.
  - assert (Hmono : ∀ h : list (nat * call E), Forall (λ x, x.1 < length (clients w))%nat h → Forall (λ x, x.1 < length (clients w'))%nat h).
    { intros h Hh. eapply Forall_impl; [exact Hh|]. intros x. rewrite Hys, length_app. cbn. lia. }
    rewrite Hhs. apply Forall_app. auto.
  - intros i xs Hi. rewrite Hys in Hi. apply lookup_app_Some in Hi as [Hi|[Hge Hi]].
    + eapply client_at_mono; [apply Hst; [|exact (Hcl i xs Hi)]|destruct (handles i e); lia].
      by apply (proj1 (Forall_lookup _ _) Hcs i).
    + destruct (Hnew _ _ Hi) as [ln Hc]. rewrite Nat.add_comm, Nat.sub_add in Hc by done.
      split; [rewrite Hys; by apply lookup_app_Some; right|].
      exists ln, (client xs), Reading, xs. split; [done|]. split; [|done].
      assert (Hm : mine i (hist w') = []).
      { apply mine_none. rewrite Hhs. apply Forall_app. split; (eapply Forall_impl; [done|]); cbn; intros x; lia. }
      rewrite Hm. split; [done|]. split; [|done]. split_and!; try done. apply Nat.le_0_l.
Qed.

Lemma serial_run s0 evs w : Forall event_ok evs → serial s0 w → serial s0 (run errText upper print evs w).
Proof.
  intros Hev. revert w. induction Hev as [|e evs He Hev IH]; intros w Hs; [done|]. cbn. apply IH. by apply serial_step.
Qed.

Lemma serial_start s0 : serial s0 (start s0).
Proof. by split. Qed.

(** Given enough steps a handler ends. *)
Lemma client_at_run evs w i xs n :
  Forall cmd_ok xs → client_at w i xs n →
  client_at (run errText upper print evs w) i xs (n - length (filter (λ e, handles i e = true) evs)).
Proof.
  intros Hok. revert w n. induction evs as [|e evs IH]; intros w n Hw; cbn [run foldl]; [by rewrite Nat.sub_0_r|].
  pose proof (IH _ _ (client_at_step w e i xs n Hok Hw)) as H'. rewrite filter_cons.
  destruct (handles i e); [rewrite decide_True by done|rewrite decide_False by done; exact H'].
  cbn [length]. unfold run in H'. by replace (n - Datatypes.S (length (filter (λ e0, handles i e0 = true) evs)))%nat
    with (pred n - length (filter (λ e0, handles i e0 = true) evs))%nat by lia.
Qed.

End serial.

(** ** Properties *)

Definition busy {S E} `{KVSteps S E} (h : hstate S E) : bool := match h with Calling _ _ => true | _ => false end.
Definition ended {S E} `{KVSteps S E} (h : hstate S E) : bool := match h with Ended => true | _ => false end.

(** C3: Concurrent clients are served as by a single map. Let any number of
    clients connect, each sending its commands over a connection that does not
    fail, and let the accept loops, the handlers and, within the store, the
    sections of their calls run in any order, with listeners opened and closed
    meanwhile. At every moment the calls of the store that have returned, in the
    order in which they took effect, are what a single map would have answered,
    and the store represents that map. The calls made for a client are those of
    its first commands, in order, and it has received exactly the replies to
    them, except that the reply to the last one may be on its way; a client
    whose handler has ended was served completely. The order is fixed: whatever
    happens later only extends it. *)
Theorem server_serializable {S E} `{KVStepsOk S E} errText upper print evs (s0 : S) :
  Forall event_ok evs →
  let w := run errText upper print evs (start s0) in
  explains (hist w).*2 (kv_abs s0) (kv_abs (store (srv_ w))) ∧
  (∀ i xs, clients w !! i = Some xs →
   ∃ ln c h old last, conns (life (srv_ w)) !! i = Some (ln, (c, h)) ∧ mine i (hist w) = old ++ last ∧
     (cmd_of <$> (old ++ last)) `prefix_of` xs ∧ f_content (c_out c) = concat (reply_of errText <$> old) ∧
     (length last ≤ 1)%nat ∧ (busy h = false → last = []) ∧ (ended h = true → cmd_of <$> old = xs)) ∧
  ∀ evs', hist w `prefix_of` hist (run errText upper print evs' w).
Proof.
  intros Hev w. pose proof (serial_run errText upper print s0 evs _ Hev (serial_start errText s0)) as [Hmap _ _ _ Hcl].
  split; [exact Hmap|]. split.
  - intros i xs Hi. destruct (Hcl i xs Hi) as (_ & ln & c & h & rest & Hc & [Hb Hat] & _).
    assert (Hsent : sent c = f_content (c_out c)) by (unfold sent; by rewrite Hb, app_nil_r).
    exists ln, c, h. destruct h as [|p pt|].
    + destruct Hat as (_ & _ & -> & Hs). exists (mine i (hist w)), []. rewrite app_nil_r, <-Hsent.
      split_and!; try done; [by apply prefix_app_r|cbn; lia].
    + destruct Hat as [(x & old & tr0 & Hm & -> & Hs & Hsv)|(_ & -> & Hs & _)].
      * destruct (ensures_leaf _ _ Hsv) as (tr & [go c'] & _ & _ & _ & _ & t & Ht & <- & _).
        exists old, tr0. rewrite <-Hsent. split_and!; try done.
        -- rewrite fmap_app. apply prefix_app. destruct tr0 as [|t' [|? ?]]; [by exists (cmd_of t :: rest)| |by destruct tr].
           injection Ht as -> ->. by exists rest.
        -- apply (f_equal length) in Ht. rewrite length_app in Ht. cbn in Ht. lia.
      * exists (mine i (hist w)), []. rewrite app_nil_r, <-Hsent. split_and!; try done. cbn. lia.
    + destruct Hat as (-> & Hs). exists (mine i (hist w)), []. rewrite app_nil_r, <-Hsent. split_and!; try done. cbn. lia.
  - intros evs'. clear. generalize w. clear w. induction evs' as [|e evs' IH]; intros w; [done|]. cbn. etrans; [|apply IH].
    destruct e as [a|ln|j ys|j|j|]; cbn [step]; try done.
    + by destruct (decide _).
    + by destruct (Accept _ _ _).
    + destruct (handle _ _ _ _ _) as [[srv t]|]; [|done]. cbn. by apply prefix_app_r.
Qed.

(** C31: Every client is served. In the same setting, let a client be connected,
    and let its handler make [turn_steps] steps for each of its commands and two
    more, whatever else happens in between. Then the handler has ended, the
    client's commands have all been carried out, in order, and it has received
    all the replies. *)
Theorem server_serves {S E} `{KVStepsOk S E} errText upper print evs evs' (s0 : S) i xs :
  Forall event_ok evs →
  let w := run errText upper print evs (start s0) in
  clients w !! i = Some xs →
  ((turn_steps (S := S) (E := E)) * length xs + 2 ≤ length (filter (λ e, handles i e = true) evs'))%nat →
  let w' := run errText upper print evs' w in
  ∃ ln c, conns (life (srv_ w')) !! i = Some (ln, (c, Ended)) ∧ cmd_of <$> mine i (hist w') = xs ∧
    f_content (c_out c) = concat (reply_of errText <$> mine i (hist w')).
Proof.
  intros Hev w Hi Hn w'. pose proof (serial_run errText upper print s0 evs _ Hev (serial_start errText s0)) as [_ Hcs _ _ Hcl].
  assert (Hok : Forall cmd_ok xs) by exact (proj1 (Forall_lookup _ _) Hcs i xs Hi).
  pose proof (client_at_run errText upper print evs' w i xs _ Hok (Hcl i xs Hi)) as (_ & ln & c & h & rest & Hc & [Hb Hat'] & Hle).
  assert (h = Ended) as ->.
  { destruct h as [|[[[] ?]|? ?|? ?] ?|]; cbn in Hle; [lia..|done]. }
  destruct Hat' as [-> Hs]. exists ln, c. split; [done|]. split; [done|].
  transitivity (sent c); [unfold sent; by rewrite Hb, app_nil_r|exact Hs].
Qed.

(** Two clients write the same key, and their calls of the store interleave:
    both append, the second syncs and updates the map, then the first. *)
Definition ex_accepted : list event :=
  [EListen (bs ":6380"); EAccept 0 [CPut (bs "k") (bs "1"); CGet (bs "k")]; EAccept 0 [CPut (bs "k") (bs "2")]].
Definition ex_events : list event :=
  ex_accepted ++ (EHandle <$> [0; 1; 0; 1; 1; 1; 0; 0; 0; 1; 0; 0; 0]%nat).

Lemma ex_events_ok : Forall event_ok ex_events.
Proof. repeat constructor; vm_compute; discriminate || reflexivity. Qed.

Lemma server_serializable_witness :
  let w := run (λ _, []) id (λ _, false) ex_events (start ex_new_store) in
  hist w = [(1%nat, Wrote (SPut (bs "k") (bs "2")) None); (0%nat, Wrote (SPut (bs "k") (bs "1")) None);
            (0%nat, Got (bs "k") (Some (bs "1")))] ∧
  explains (hist w).*2 (kv_abs ex_new_store) (kv_abs (store (srv_ w))) ∧
  (∀ i xs, clients w !! i = Some xs →
   ∃ ln c h old last, conns (life (srv_ w)) !! i = Some (ln, (c, h)) ∧ mine i (hist w) = old ++ last ∧
     (cmd_of <$> (old ++ last)) `prefix_of` xs ∧ f_content (c_out c) = concat (reply_of (λ _, []) <$> old) ∧
     (length last ≤ 1)%nat ∧ (busy h = false → last = []) ∧ (ended h = true → cmd_of <$> old = xs)) ∧
  ∀ evs', hist w `prefix_of` hist (run (λ _, []) id (λ _, false) evs' w).
Proof.
  split; [vm_compute; reflexivity|].
  apply (server_serializable (λ _, []) id (λ _, false) ex_events ex_new_store). exact ex_events_ok.
Defined.

Lemma server_serves_witness :
  let w := run (λ _, []) id (λ _, false) ex_accepted (start ex_new_store) in
  let w' := run (λ _, []) id (λ _, false) (EHandle <$> [1; 0; 1; 1; 0; 1; 1; 1; 1]%nat) w in
  ∃ ln c, conns (life (srv_ w')) !! 1%nat = Some (ln, (c, Ended)) ∧ cmd_of <$> mine 1 (hist w') = [CPut (bs "k") (bs "2")] ∧
    f_content (c_out c) = concat (reply_of (λ _, []) <$> mine 1 (hist w')).
Proof.
  apply (server_serves (λ _, []) id (λ _, false) ex_accepted (EHandle <$> [1; 0; 1; 1; 0; 1; 1; 1; 1]%nat) ex_new_store 1
    [CPut (bs "k") (bs "2")]).
  - repeat constructor; vm_compute; discriminate || reflexivity.
  - vm_compute. reflexivity.
  - apply Nat.leb_le. vm_compute. reflexivity.
Defined.

(** ** Closing *)

Section closing.
Context {S E : Type} `{KVSteps S E}.
Variables (errText : E → bytes) (upper : Z → Z) (print : Z → bool).

Lemma step_life (w : World (S := S) (E := E)) e :
  rtc life_step (life (srv_ w)) (life (srv_ (step errText upper print w e))).
Proof.
  destruct e as [a|ln|j xs|j|i|]; cbn [step].
  - unfold ListenAndServe. cbn. eapply rtc_l; [apply (LListen _ a)|]. apply rtc_once.
    apply (LServe (listen a (life (srv_ w))).2). cbn. rewrite lookup_app_r, Nat.sub_diag by done. eauto.
  - destruct (decide _); [|done]. by apply rtc_once, LServe.
  - unfold Accept. destruct (accept j _ (life (srv_ w))) as [l|] eqn:E1; [|done]. by eapply rtc_once, LAccept.
  - unfold AcceptError. destruct (accept_error j (life (srv_ w))) as [l|] eqn:E1; [|done]. by eapply rtc_once, LError.
  - unfold handle. destruct (conns (life (srv_ w)) !! i) as [[ln [c h]]|] eqn:Ei; [|done].
    destruct (handler_step errText upper print c h (store (srv_ w))) as [[[[c' h'] s'] t]|]; [|done].
    by eapply rtc_once, LWork.
  - unfold Close. pose proof (LClose (life (srv_ w))) as Hc. destruct (close (life (srv_ w))) as [e l]. by apply rtc_once.
Qed.

Lemma run_life evs (w : World (S := S) (E := E)) :
  rtc life_step (life (srv_ w)) (life (srv_ (run errText upper print evs w))).
Proof.
  revert w. induction evs as [|e evs IH]; intros w; [done|]. cbn. etrans; [apply step_life|apply IH].
Qed.

End closing.

(** C36: Closing stops accepting. Once [Close] was called while the server was
    serving on a listener, no client is accepted on it any more, whatever the
    other goroutines do, calls of [Serve] included. *)
Theorem server_close_stops {S E} `{KVSteps S E} errText upper print evs evs' (s0 : S) ln :
  let w := run errText upper print evs (start s0) in
  field (life (srv_ w)) = Some ln →
  let w' := run errText upper print evs' (mkWorld (Close (srv_ w)).2 (clients w) (hist w)) in
  accepted_on ln (life (srv_ w')) = accepted_on ln (life (srv_ w)).
Proof.
  intros w Hln w'. set (l := life (srv_ w)) in *.
  assert (Hok : life_ok l).
  { eapply (rtc_invariant life_step life_ok); [|apply run_life|by split]. intros a b. apply life_ok_step. }
  set (l1 := life (Close (srv_ w)).2).
  assert (Hc : closed ln l1 ∧ accepted_on ln l1 = accepted_on ln l).
  { pose proof (close_closes ln l Hok Hln) as Hcl. subst l1. unfold Close, accepted_on, close in *. fold l. rewrite Hln in *.
    by destruct (listeners l !! ln) as [[a []]|]. }
  destruct Hc as [Hc <-].
  assert (H' : closed ln (life (srv_ w')) ∧ accepted_on ln (life (srv_ w')) = accepted_on ln l1); [|by destruct H'].
  eapply (rtc_invariant life_step (λ l, closed ln l ∧ accepted_on ln l = accepted_on ln l1));
    [|apply run_life|by split].
  intros a b [Ha <-] Hab. by eapply closed_step.
Qed.

Lemma server_close_stops_witness :
  let w := run (λ _, []) id (λ _, false) ex_events (start ex_new_store) in
  field (life (srv_ w)) = Some 0%nat ∧
  accepted_on 0 (life (srv_ (run (λ _, []) id (λ _, false) [EAccept 0 [CGet (bs "k")]; EHandle 1]
    (mkWorld (Close (srv_ w)).2 (clients w) (hist w))))) = accepted_on 0 (life (srv_ w)).
Proof.
  assert (Hf : field (life (srv_ (run (λ _, []) id (λ _, false) ex_events (start ex_new_store)))) = Some 0%nat) by (vm_compute; reflexivity).
  split; [exact Hf|].
  exact (server_close_stops (λ _, []) id (λ _, false) ex_events [EAccept 0 [CGet (bs "k")]; EHandle 1] ex_new_store 0 Hf).
Defined.

(** [Close] before [Serve] has stored its listener reports success and has no
    effect: the server accepts clients afterwards. *)
Example close_before_serve :
  let w := run (λ _, []) id (λ _, false) [EClose; EListen (bs ":6380"); EAccept 0 [CGet (bs "k")]] (start ex_new_store) in
  (Close (srv_ (start ex_new_store))).1 = false ∧ accepted_on 0 (life (srv_ w)) = 1%nat.
Proof. vm_compute. done. Qed.

(** ** Durability with many clients *)

Section durable.
Context (errText : walop_error → bytes) (upper : Z → Z) (print : Z → bool) (base : list WRecord).

(** The record of a call that has appended is in the log, and of one that has
    synced in its acknowledged part. *)
Definition call_logged (h : hstate Store walop_error) (att : list WRecord) (acked : nat) : Prop :=
  match h with
  | Calling (Write op _) p =>
      match p : pc with
      | PStart => True
      | PAppended => rec_of op ∈ att
      | _ => rec_of op ∈ take acked att
      end
  | _ => True
  end.

Lemma elem_take_mono (r : WRecord) (n n' : nat) l l' :
  r ∈ take n l → (n ≤ n')%nat → l `prefix_of` l' → r ∈ take n' l'.
Proof.
  intros Hr Hn [k ->]. rewrite <-(take_drop n (take n' (l ++ k))), take_take, Nat.min_l by done.
  apply elem_of_app. left. rewrite take_app. apply elem_of_app. by left.
Qed.

Lemma call_logged_mono h att acked att' acked' :
  call_logged h att acked → att `prefix_of` att' → (acked ≤ acked')%nat → call_logged h att' acked'.
Proof.
  intros Hh Hp Hle. destruct h as [|[a|op k|key k] p|]; try done. cbn in *.
  destruct p; try done; try (by eapply elem_take_mono). destruct Hp as [l ->]. apply elem_of_app. by left.
Qed.

Lemma handler_logged c h s c' h' s' t att acked :
  handler_step errText upper print c h s = Some (c', h', s', t) →
  log_inv base (log s, att, acked) → call_logged h att acked →
  ∃ att' acked', log_inv base (log s', att', acked') ∧ att `prefix_of` att' ∧ (acked ≤ acked')%nat ∧ call_logged h' att' acked' ∧
    (∀ r, r ∈ att' → r ∈ att ∨ ∃ op k p, h = Calling (Write op k) p ∧ r = rec_of op) ∧
    (∀ op, t = Some (Wrote op None) → rec_of op ∈ take acked' att').
Proof.
  intros Hst Hlog Hh.
  assert (Hstart : ∀ p, call_logged (Calling p call_start) att acked) by (by intros []).
  assert (Hkeep : ∀ h' (t' : option (call walop_error)), call_logged h' att acked → (∀ op, t' = Some (Wrote op None) → rec_of op ∈ take acked att) →
    ∃ att' acked', log_inv base (log s, att', acked') ∧ att `prefix_of` att' ∧ (acked ≤ acked')%nat ∧ call_logged h' att' acked' ∧
    (∀ r, r ∈ att' → r ∈ att ∨ ∃ op k p, h = Calling (Write op k) p ∧ r = rec_of op) ∧
    (∀ op, t' = Some (Wrote op None) → rec_of op ∈ take acked' att')).
  { intros h1 t1 Hh1 Ht1. exists att, acked. split_and!; auto. }
  destruct h as [|[[go c1]|op k|key k] p|]; cbn [handler_step] in Hst; [| | | |done].
  - injection Hst as <- <- <- <-. by apply Hkeep.
  - destruct go; injection Hst as <- <- <- <-; by apply Hkeep.
  - cbn in Hst. destruct p; cbn in Hst.
    + pose proof (log_inv_append base _ _ _ (rec_of op) Hlog) as Happ.
      assert (Hr : ∀ r, r ∈ att ++ [rec_of op] → r ∈ att ∨ ∃ op0 k0 p0, Calling (Write op k) PStart =
        (Calling (Write op0 k0) p0 : hstate Store walop_error) ∧ r = rec_of op0).
      { intros r [Hr| ->%list_elem_of_singleton]%elem_of_app; eauto 10. }
      destruct (Append (rec_of op) (log s)) as [[e|] l]; injection Hst as <- <- <- <-; exists (att ++ [rec_of op]), acked;
        (split_and!; [done|by apply prefix_app_r|done| |done|done]); [by destruct (k (Some e))|].
      cbn. apply elem_of_app. right. by apply list_elem_of_singleton.
    + pose proof (log_inv_step base _ WSync Hlog) as Hsy. cbn [wstep] in Hsy. pose proof Hlog as (_ & _ & _ & Hle & _).
      destruct (Sync (log s)) as [[e|] l]; injection Hst as <- <- <- <-.
      * exists att, acked. split_and!; [done..|by destruct (k (Some e))|auto|done].
      * exists att, (length att). split_and!; [done..| |auto|done]. cbn. by rewrite firstn_all.
    + injection Hst as <- <- <- <-. exists att, acked. split_and!; [done..|by destruct (k None)|auto|]. by intros ? [= <-].
    + injection Hst as <- <- <- <-. exists att, acked. split_and!; [done..|by destruct (k None)|auto|]. by intros ? [= <-].
    + injection Hst as <- <- <- <-. exists att, acked. split_and!; [done..|by destruct (k None)|auto|]. by intros ? [= <-].
  - injection Hst as <- <- <- <-. by apply Hkeep.
Qed.
Definition op_cmd (op : sop) : cmd := match op with SPut k v => CPut k v | SDelete k => CDel k end.

(** What the log holds: the records [att] of writes that clients sent, of which
    the first [acked] are synced, and among those all that have returned. *)
Record logged (w : World (S := Store) (E := walop_error)) (att : list WRecord) (acked : nat) : Prop := {
  lo_log : log_inv base (log (store (srv_ w)), att, acked);
  lo_calls i ln c h : conns (life (srv_ w)) !! i = Some (ln, (c, h)) → call_logged h att acked;
  lo_sent r : r ∈ att → ∃ i xs op, clients w !! i = Some xs ∧ op_cmd op ∈ xs ∧ r = rec_of op;
  lo_hist j op : (j, Wrote op None) ∈ hist w → rec_of op ∈ take acked att
}.

Lemma handler_at_write xs calls c op k p rest :
  handler_at errText xs calls c (Calling (Write op k) p : hstate Store walop_error) rest → op_cmd op ∈ xs.
Proof.
  intros [_ [(x & old & tr0 & _ & -> & _ & Hsv)|(_ & _ & _ & c' & Hp & _)]]; [|done].
  pose proof (serves_call errText _ _ _ _ _ Hsv) as ->.
  destruct (ensures_leaf _ _ (Hsv None)) as (tr & [go c'] & _ & _ & _ & _ & t & Ht & <- & _).
  injection Ht as <- ->. apply elem_of_app. right. destruct op; apply elem_of_cons; by left.
Qed.

(** An event outside the handlers. *)
Lemma logged_same w w' att acked :
  logged w att acked → store (srv_ w') = store (srv_ w) → hist w' = hist w → clients w `prefix_of` clients w' →
  (∀ i x, conns (life (srv_ w')) !! i = Some x → conns (life (srv_ w)) !! i = Some x ∨ x.2.2 = Reading) →
  logged w' att acked.
Proof.
  intros [H1 H2 H3 H4] Hs Hh Hcl Hco. split; [by rewrite Hs| | |by rewrite Hh].
  - intros i ln c h Hi. destruct (Hco _ _ Hi) as [Hi'|Hr]; [by eapply H2|]. cbn in Hr. by subst h.
  - intros r Hr. destruct (H3 r Hr) as (i & xs & op & Hi & ? & ?). exists i, xs, op. split; [|done].
    by eapply prefix_lookup_Some.
Qed.

Lemma logged_handle s0 w att acked i :
  serial errText s0 w → logged w att acked →
  ∃ att' acked', logged (step errText upper print w (EHandle i)) att' acked'.
Proof.
  intros [_ _ _ Hlen Hcl] Hw. pose proof Hw as [H1 H2 H3 H4]. cbn [step]. unfold handle.
  destruct (conns (life (srv_ w)) !! i) as [[ln [c h]]|] eqn:Ei; [|eauto].
  destruct (handler_step errText upper print c h (store (srv_ w))) as [[[[c' h'] s'] t]|] eqn:Eh; [|eauto]. cbn [mbind option_bind].
  destruct (handler_logged _ _ _ _ _ _ _ _ _ Eh H1 (H2 _ _ _ _ Ei)) as (att' & acked' & Hlog & Hp & Hle & Hh & Hnew & Ht).
  exists att', acked'. split; cbn [srv_ store life conns hist clients]; [done| | |].
  - intros j ln1 c1 h1 Hj. destruct (decide (j = i)) as [->|Hne].
    + rewrite list_lookup_insert_eq in Hj by (by eapply lookup_lt_Some). by injection Hj as <- <- <-.
    + rewrite list_lookup_insert_ne in Hj by done. eapply call_logged_mono; [by eapply H2|done..].
  - intros r Hr. destruct (Hnew r Hr) as [Ho|(op & k & p & -> & ->)]; [by apply H3|].
    destruct (lookup_lt_is_Some_2 (clients w) i) as [xs Hxs]; [rewrite <-Hlen; by eapply lookup_lt_Some|].
    destruct (Hcl i xs Hxs) as (_ & ln1 & c1 & h1 & rest & Hc1 & Hat & _). rewrite Ei in Hc1. injection Hc1 as <- <- <-.
    exists i, xs, op. split; [done|]. split; [by eapply handler_at_write|done].
  - intros j op [Hj|Hj]%elem_of_app; [eapply elem_take_mono; [by eapply H4|done..]|]. apply list_elem_of_fmap in Hj as (y & [= _ <-] & Hy).
    apply Ht. destruct t as [t|]; [|by apply not_elem_of_nil in Hy]. by apply list_elem_of_singleton in Hy as <-.
Qed.

Lemma logged_step s0 w e att acked :
  serial errText s0 w → logged w att acked → ∃ att' acked', logged (step errText upper print w e) att' acked'.
Proof.
  intros Hs Hw. destruct e as [a|ln|j ys|j|i|]; [..|by eapply logged_handle|]; exists att, acked; cbn [step].
  - eapply logged_same; [done..|]. auto.
  - destruct (decide _); [|done]. eapply logged_same; [done..|]. auto.
  - unfold Accept, accept. destruct (loops _ !! j) as [[ln []]|]; try done.
    destruct (listeners _ !! ln) as [[a []]|]; try done. cbn.
    eapply logged_same; [done|done|done|by apply prefix_app_r|]. cbn. intros i x [Hx|[_ <-]]%lookup_snoc_Some; [left; tauto|by right].
  - unfold AcceptError, accept_error. destruct (loops _ !! j) as [[ln []]|]; (eapply logged_same; [done..|]); auto.
  - unfold Close, close. destruct (field _) as [ln|]; [|eapply logged_same; [done..|]; auto].
    destruct (listeners _ !! ln) as [[a []]|]; (eapply logged_same; [done..|]); auto.
Qed.

Lemma logged_run s0 evs w att acked :
  Forall event_ok evs → serial errText s0 w → logged w att acked →
  ∃ att' acked', logged (run errText upper print evs w) att' acked'.
Proof.
  intros Hev. revert w att acked. induction Hev as [|e evs He Hev IH]; intros w att acked Hs Hw; [eauto|].
  destruct (logged_step s0 w e att acked Hs Hw) as (att1 & acked1 & Hw1). cbn. eapply IH; [|done]. by apply serial_step.
Qed.

Lemma cmd_rec_ok op : cmd_ok (op_cmd op) → rec_ok (rec_of op).
Proof.
  intros (_ & Hl & Hv). pose proof (Zlen_nonneg (bs "PUT ")).
  destruct op as [k v|k]; cbn [op_cmd cmd_line] in Hl; rewrite !Zlen_app in Hl; (apply protocol_rec_ok; [|done]);
    [pose proof (Zlen_nonneg (bs " ")); pose proof (Zlen_nonneg (dec (Zlen v)))|pose proof (Zlen_nonneg (bs "DEL "))]; lia.
Qed.

End durable.

(** C13: What is acknowledged to any client survives a crash. Run the server with
    any number of clients as above, over the durable store opened on a log of
    whole, synced records, with any failures of the log's file. Whatever a
    crash leaves of the log at any moment, the store opens: it recovers the old
    records and some records of writes that the clients sent, and among them are
    all writes for which the store has reported success, hence all that were
    answered [+OK]. *)
Theorem server_conc_durable errText upper print base f evs img :
  f_content f = encodes base → f_synced f = length (f_content f) → Forall rec_ok base → Forall event_ok evs →
  let w := run errText upper print evs (start (mkStore (rebuild base) (Wal.Open f))) in
  crash_image (file (log (store (srv_ w)))) img →
  ∃ rs s', Store.Open (mkDisk (Some (mkFile img (length img) [] false)) false false EOF) = Ret s' ∧
    data s' = rebuild (base ++ rs) ∧
    (∀ r, r ∈ rs → ∃ i xs op, clients w !! i = Some xs ∧ op_cmd op ∈ xs ∧ r = rec_of op) ∧
    ∀ j op, (j, Wrote op None) ∈ hist w → rec_of op ∈ rs.
Proof.
  intros Hc Hs Hb Hev w Himg. set (s0 := mkStore (rebuild base) (Wal.Open f)) in *.
  pose proof (serial_start errText s0) as Hs0.
  destruct (logged_run errText upper print base s0 evs (start s0) [] O Hev Hs0) as (att & acked & Hw).
  { split; [by apply log_inv_open|done|by intros r Hr%not_elem_of_nil|by intros j op Hj%not_elem_of_nil]. }
  pose proof (serial_run errText upper print s0 evs _ Hev Hs0) as [_ Hcs _ _ _]. fold w in Hw, Hcs.
  destruct Hw as [Hlog _ Hsent Hhist].
  assert (Hatt : Forall rec_ok att).
  { apply Forall_forall. intros r Hr. destruct (Hsent r Hr) as (i & xs & op & Hi & Hop & ->). apply cmd_rec_ok.
    pose proof (proj1 (Forall_lookup _ _) Hcs i xs Hi) as Hxs. by apply (proj1 (Forall_forall _ _) Hxs). }
  destruct (log_inv_replay base _ att acked img Hlog) as (k & Hrep & Hk); [by apply Forall_app|done|].
  exists (take k att). eexists. split; [by apply Open_replay|]. split; [done|]. split.
  - intros r Hr. apply Hsent. rewrite <-(take_drop k att). apply elem_of_app. by left.
  - intros j op Hj%Hhist. by eapply elem_take_mono.
Qed.

(** The crash comes when both clients have appended and the second has synced. *)
Lemma server_conc_durable_witness :
  let w := run (λ _, []) id (λ _, false) (take 9 ex_events) (start ex_new_store) in
  let img := f_content (file (log (store (srv_ w)))) in
  Zlen img = 38 ∧
  ∃ rs s', Store.Open (mkDisk (Some (mkFile img (length img) [] false)) false false EOF) = Ret s' ∧
    data s' = rebuild ([] ++ rs) ∧
    (∀ r, r ∈ rs → ∃ i xs op, clients w !! i = Some xs ∧ op_cmd op ∈ xs ∧ r = rec_of op) ∧
    ∀ j op, (j, Wrote op None) ∈ hist w → rec_of op ∈ rs.
Proof.
  split; [vm_compute; reflexivity|].
  apply (server_conc_durable (λ _, []) id (λ _, false) [] (mkFile [] 0 [] false) (take 9 ex_events)).
  - reflexivity.
  - reflexivity.
  - constructor.
  - apply Forall_take. exact ex_events_ok.
  - split; [apply prefix_take|reflexivity].
Defined.
