(* ===== verification/LeaderLife.v ===== *)
(** * LeaderLife: the Leader of internal/replication/leader.go with many followers

    The goroutines of a replication leader: the accept loops, one stream of the
    log per follower, the writers of the log, and [Close], which ends the
    streams through a channel. *)
From stdpp Require Import prelude gmap.
From Stdlib Require Import ZArith Lia Strings.Byte.
From S2P Require Import Prelude GoIO Wal Store Replication Listeners.
Local Open Scope Z_scope.

(** A connection is the offset its follower asked for and its stream. *)
Record Leader := mkLeader {
  w : WAL;
  life : Life (Z * Streamer);
  done : bool                   (* whether the channel is closed *)
}.

Definition NewLeader (l : WAL) : Leader := mkLeader l no_listener false.

Definition Serve (ln : nat) (l : Leader) : Leader := mkLeader (w l) (serve ln (life l)) (done l).

(** [listens] says whether the address can be bound; nothing is an error. *)
Definition ListenAndServe (listens : bytes → bool) (a : bytes) (l : Leader) : option Leader :=
  if listens a then
    let '(ln, lf) := listen a (life l) in Some (Serve ln (mkLeader (w l) lf (done l)))
  else None.

Definition Addr (l : Leader) : option bytes := addr (life l).

(** Nothing is a panic: closing a channel that is closed. *)
Definition Close (l : Leader) : option (bool * Leader) :=
  if done l then None
  else let '(e, lf) := close (life l) in Some (e, mkLeader (w l) lf true).

(** What the goroutines do: the program starts and closes the leader, the loops
    accept followers, whose requests are the bytes of [conn], the streams
    advance, and the log is written. A follower that sends no offset is
    dropped. *)
Inductive leader_step (l : Leader) : Leader → Prop :=
| DListen a l' : ListenAndServe (λ _, true) a l = Some l' → leader_step l l'
| DServe ln : is_Some (listeners (life l) !! ln) → leader_step l (Serve ln l)
| DAccept j conn st lf :
    handleFollower conn = Some st → accept j (pos st, st) (life l) = Some lf →
    leader_step l (mkLeader (w l) lf (done l))
| DError j lf : accept_error j (life l) = Some lf → leader_step l (mkLeader (w l) lf (done l))
| DClose e l' : Close l = Some (e, l') → leader_step l l'
| DStream i ln from s s' :
    conns (life l) !! i = Some (ln, (from, s)) → stream_step (w l) (done l) s s' →
    leader_step l (mkLeader (w l)
      (mkLife (field (life l)) (listeners (life l)) (loops (life l)) (<[i := (ln, (from, s'))]> (conns (life l)))) (done l))
| DAppend rec : leader_step l (mkLeader (Append rec (w l)).2 (life l) (done l))
| DSync : leader_step l (mkLeader (Sync (w l)).2 (life l) (done l)).

(** A run in which the log is not written, and the number of times that
    connection [i] moves in it. *)
Inductive quiet_run (i : nat) : nat → Leader → Leader → Prop :=
| quiet_nil l : quiet_run i 0 l l
| quiet_move n l l' l'' :
    leader_step l l' → w l' = w l → conns (life l') !! i ≠ conns (life l) !! i →
    quiet_run i n l' l'' → quiet_run i (S n) l l''
| quiet_other n l l' l'' :
    leader_step l l' → w l' = w l → conns (life l') !! i = conns (life l) !! i →
    quiet_run i n l' l'' → quiet_run i n l l''.

(** ** Lemmas *)

Definition streams_ok (l : Leader) : Prop :=
  wal_ok (w l) ∧ Forall (λ x : nat * (Z * Streamer), stream_ok x.2.1 (w l, x.2.2)) (conns (life l)).

Lemma handleFollower_start conn st : handleFollower conn = Some st → st = stream_start (pos st) ∧ 0 ≤ pos st.
Proof.
  unfold handleFollower. destruct (read_i64 conn).1 as [o| |]; [|done..]. intros [= <-]. split; [done|]. cbn.
  destruct (o <? 0) eqn:E; lia.
Qed.

(** The log and one stream make a step. *)
Lemma streams_ok_log l l' :
  (∀ s, sys_step (w l, s) (l', s)) → wal_ok l' → streams_ok l → streams_ok (mkLeader l' (life l) (done l)).
Proof.
  intros Hstep Hok [_ Hs]. split; [done|]. cbn. eapply Forall_impl; [exact Hs|]. intros [ln [from s]] Hst.
  cbn [fst snd] in *. exact (sys_step_ok from _ _ Hst (Hstep s)).
Qed.

Lemma streams_ok_step l l' : streams_ok l → leader_step l l' → streams_ok l'.
Proof.
  intros Hs Hst. pose proof Hs as [Hw Hc].
  destruct Hst as [a l' H|ln H|j conn st lf H Ha|j lf H|e l' H|i ln from s s' Hi H|rec|].
  - unfold ListenAndServe in H. by injection H as <-.
  - done.
  - unfold accept in Ha. destruct (loops (life l) !! j) as [[k []]|]; try done.
    destruct (listeners (life l) !! k) as [[b []]|]; try done. injection Ha as <-. split; [done|]. cbn.
    apply Forall_app. split; [done|]. apply List.Forall_cons; [|done]. cbn.
    destruct (handleFollower_start _ _ H) as [Hst Hp]. rewrite Hst. unfold stream_start. cbn.
    split_and!; try done; cbn; [lia..|]. by rewrite Z.sub_diag.
  - unfold accept_error in H. destruct (loops (life l) !! j) as [[k []]|]; try done. by injection H as <-.
  - unfold Close, close in H. destruct (done l); [done|]. destruct (field (life l)) as [k|]; [|by injection H as <- <-].
    by destruct (listeners (life l) !! k) as [[b []]|]; injection H as <- <-.
  - split; [done|]. cbn [w life conns]. apply Forall_insert; [done|]. cbn [fst snd].
    eapply (sys_step_ok from (w l, s)); [|by eapply sys_stream]. by apply (proj1 (Forall_lookup _ _) Hc i (ln, (from, s))).
  - apply streams_ok_log; [intros; apply sys_append|by apply Append_ok|done].
  - apply streams_ok_log; [intros; apply sys_sync|by apply Sync_ok|done].
Qed.

(** How many steps a stream can make after the channel is closed. *)
Definition steps_left (l : WAL) (s : Streamer) : nat :=
  match st_phase s with
  | SRet _ => 0
  | SWait ch => if chan_closed l ch then 4 else 1
  | SLoop => if pos s <? durableOff l then 3 else 2
  end.

(** A copy ends the stream or brings it to the frontier. *)
Lemma stream_iter_copied l d s :
  pos s < durableOff l →
  (∃ e, st_phase (stream_iter l d s) = SRet e) ∨
  (st_phase (stream_iter l d s) = SLoop ∧ durableOff l ≤ pos (stream_iter l d s)).
Proof.
  intros Hp. unfold stream_iter. replace (pos s <? durableOff l) with true by lia.
  generalize (take (Z.to_nat (durableOff l - pos s)) (drop (Z.to_nat (pos s)) (f_content (file l)))). intros chunk.
  assert (H : ∀ ph, (∃ e, ph = SRet e) ∨ ph = SLoop →
    let s' := mkStreamer (pos s + Zlen chunk) (sent s ++ chunk)
      (if Zlen chunk <? durableOff l - pos s then SRet (Some CopyEOF) else ph) in
    (∃ e, st_phase s' = SRet e) ∨ (st_phase s' = SLoop ∧ durableOff l ≤ pos s')).
  { intros ph Hph. cbn. destruct (Zlen chunk <? durableOff l - pos s) eqn:E; [by left; eexists|].
    destruct Hph as [[e ->]| ->]; [by left; eexists|]. right. split; [done|]. lia. }
  destruct d as [|n|]; [by apply H; right| |by apply H; left; eexists].
  destruct chunk as [|b chunk]; [by apply H; right|]. left. by eexists.
Qed.

Lemma stream_step_left l s s' : stream_step l true s s' → (steps_left l s' < steps_left l s)%nat.
Proof.
  intros Hst. unfold steps_left. destruct Hst as [d s Hp|s ch Hp _|s ch Hp Hc]; rewrite Hp.
  - destruct (pos s <? durableOff l) eqn:Ep.
    + destruct (stream_iter_copied l d s) as [[e ->]|[-> Hd]]; [lia|lia|].
      replace (_ <? durableOff l) with false by lia. lia.
    + unfold stream_iter. rewrite Ep. cbn. unfold chan_closed. rewrite bool_decide_eq_false_2 by lia. lia.
  - cbn. destruct (chan_closed l ch); lia.
  - cbn. rewrite Hc. destruct (pos s <? durableOff l); lia.
Qed.

Lemma steps_left_le l s : (steps_left l s ≤ 4)%nat.
Proof. unfold steps_left. repeat case_match; lia. Qed.

(** Once the channel is closed it stays so, and a connection that moves is a
    stream that makes a step. *)
Lemma leader_step_closed l l' i ln from s :
  leader_step l l' → done l = true → conns (life l) !! i = Some (ln, (from, s)) →
  done l' = true ∧
  (conns (life l') !! i = conns (life l) !! i ∨
   ∃ s', conns (life l') !! i = Some (ln, (from, s')) ∧ stream_step (w l) true s s').
Proof.
  intros Hst Hd Hi. destruct Hst as [a l' H|k H|j conn st lf H Ha|j lf H|e l' H|k kn kf x x' Hk H|rec|].
  - unfold ListenAndServe in H. injection H as <-. auto.
  - auto.
  - split; [done|]. left. unfold accept in Ha. repeat case_match; try done. injection Ha as <-. cbn.
    rewrite Hi. by apply lookup_app_l_Some.
  - split; [done|]. left. unfold accept_error in H. repeat case_match; try done. by injection H as <-.
  - unfold Close in H. by rewrite Hd in H.
  - split; [done|]. cbn [life conns]. destruct (decide (k = i)) as [->|Hne]; [|left; by apply list_lookup_insert_ne].
    right. exists x'. rewrite Hi in Hk. injection Hk as <- <- <-. rewrite Hd in H. split; [|done].
    apply list_lookup_insert_eq. by eapply lookup_lt_Some.
  - auto.
  - auto.
Qed.

Lemma quiet_run_left i n l l' :
  quiet_run i n l l' → ∀ ln from s, done l = true → conns (life l) !! i = Some (ln, (from, s)) →
  ∃ s', done l' = true ∧ conns (life l') !! i = Some (ln, (from, s')) ∧
    (n + steps_left (w l') s' ≤ steps_left (w l) s)%nat.
Proof.
  induction 1 as [l|n l l1 l2 Hst Hw Hne Hr IH|n l l1 l2 Hst Hw Heq Hr IH]; intros ln from s Hd Hi.
  - exists s. split_and!; [done..|lia].
  - destruct (leader_step_closed _ _ _ _ _ _ Hst Hd Hi) as [Hd1 [?|(s1 & Hi1 & Hs1)]]; [done|].
    destruct (IH _ _ _ Hd1 Hi1) as (s2 & Hd2 & Hi2 & Hn). exists s2. split_and!; [done..|].
    apply stream_step_left in Hs1. rewrite Hw in Hn. lia.
  - destruct (leader_step_closed _ _ _ _ _ _ Hst Hd Hi) as [Hd1 _]. rewrite <-Heq in Hi.
    destruct (IH _ _ _ Hd1 Hi) as (s2 & Hd2 & Hi2 & Hn). exists s2. rewrite Hw in Hn. by split_and!.
Qed.

(** After [Close] a stream that has not returned can make a step. *)
Lemma stream_enabled l i ln from s :
  done l = true → conns (life l) !! i = Some (ln, (from, s)) →
  (∃ r, st_phase s = SRet r) ∨
  ∃ l', leader_step l l' ∧ w l' = w l ∧ conns (life l') !! i ≠ conns (life l) !! i.
Proof.
  intros Hd Hi. assert (H : (∃ r, st_phase s = SRet r) ∨ ∃ s', stream_step (w l) (done l) s s').
  { rewrite Hd. destruct (st_phase s) as [|ch|e] eqn:Ep.
    - right. eexists. by apply (step_iter (w l) true DstOk).
    - right. eexists. by eapply step_done.
    - eauto. }
  destruct H as [H|[s' Hs]]; [by left|right]. eexists. split; [by eapply DStream|]. split; [done|]. cbn [life conns].
  rewrite list_lookup_insert_eq by (by eapply lookup_lt_Some). rewrite Hi. intros [= ->].
  rewrite Hd in Hs. apply stream_step_left in Hs. lia.
Qed.

(** ** Properties *)


(** C37: Closing ends the streams. Take a follower that is connected when
    [Close] returns, and any run of the leader from there in which the log is
    not written: other followers, the accept loops and the rest of the program
    may do anything. Its stream makes at most four more steps, and at every
    moment of the run it has returned or can make one. A step may be a write to
    the follower's connection, so the stream returns once that write does. *)
Theorem leader_close_ends l e l1 i n l2 :
  Close l = Some (e, l1) → (i < length (conns (life l1)))%nat → quiet_run i n l1 l2 →
  (n ≤ 4)%nat ∧
  ∃ ln from s, conns (life l2) !! i = Some (ln, (from, s)) ∧
    ((∃ r, st_phase s = SRet r) ∨
     ∃ l3, leader_step l2 l3 ∧ w l3 = w l2 ∧ conns (life l3) !! i ≠ conns (life l2) !! i).
Proof.
  intros Hc Hi Hr. assert (Hd : done l1 = true).
  { unfold Close in Hc. destruct (done l); [done|]. destruct (close (life l)). by injection Hc as <- <-. }
  destruct (lookup_lt_is_Some_2 _ _ Hi) as [[ln [from s]] Hs].
  destruct (quiet_run_left i n l1 l2 Hr ln from s Hd Hs) as (s' & Hd' & Hs' & Hn).
  split; [pose proof (steps_left_le (w l1) s); lia|]. exists ln, from, s'. split; [done|]. by eapply stream_enabled.
Qed.

(** The second [Close] of a leader panics. *)
Example leader_close_twice l e l' : Close l = Some (e, l') → Close l' = None.
Proof. unfold Close. destruct (done l); [done|]. destruct (close (life l)). by intros [= <- <-]. Qed.

(** A log of eight bytes is served to a follower that asks for the bytes from
    the third on, and a record is appended and synced meanwhile. *)
Definition ex_log : File := mkFile (bs "abcdefgh") 8 [] false.
Definition ex_writes : WAL := (Sync (Append (mkRec RecordPut (bs "k") (bs "v")) (Wal.Open ex_log)).2).2.
Definition ex_sent (l : WAL) (s : Streamer) : Leader :=
  mkLeader l (mkLife (Some O) [mkLn (bs ":7400") false] [(O, true)] [(O, (3, s))]) false.
Definition ex_first : Streamer := stream_iter (Wal.Open ex_log) DstOk (stream_start 3).
Definition ex_second : Streamer := stream_iter ex_writes DstOk ex_first.

Lemma ex_leader_run : rtc leader_step (NewLeader (Wal.Open ex_log)) (ex_sent ex_writes ex_second).
Proof.
  eapply rtc_l; [apply (DListen _ (bs ":7400")); reflexivity|].
  eapply rtc_l; [apply (DAccept _ 0 (mkStream (put_i64 3) EOF) (stream_start 3)); reflexivity|].
  eapply rtc_l; [apply (DStream _ 0 0 3 (stream_start 3) ex_first); [reflexivity|by apply (step_iter _ _ DstOk)]|].
  eapply rtc_l; [apply (DAppend _ (mkRec RecordPut (bs "k") (bs "v")))|]. eapply rtc_l; [apply DSync|].
  apply rtc_once. apply (DStream (ex_sent ex_writes ex_first) 0 0 3 ex_first ex_second); [reflexivity|].
  apply (step_iter _ _ DstOk). vm_compute. reflexivity.
Qed.


(** The leader is closed, and the follower's stream goes to wait and returns. *)
Definition ex_closed (s : Streamer) : Leader :=
  mkLeader ex_writes (mkLife (Some O) [mkLn (bs ":7400") true] [(O, true)] [(O, (3, s))]) true.
Definition ex_waits : Streamer := stream_iter ex_writes DstOk ex_second.
Definition ex_returned : Streamer := mkStreamer (pos ex_waits) (sent ex_waits) (SRet None).

Lemma ex_quiet : quiet_run 0 2 (ex_closed ex_second) (ex_closed ex_returned).
Proof.
  eapply (quiet_move _ _ _ (ex_closed ex_waits)); [|reflexivity|vm_compute; discriminate|].
  - apply (DStream (ex_closed ex_second) 0 0 3 ex_second); [reflexivity|]. apply (step_iter _ _ DstOk). vm_compute. reflexivity.
  - eapply (quiet_move _ _ _ (ex_closed ex_returned)); [|reflexivity|vm_compute; discriminate|apply quiet_nil].
    apply (DStream (ex_closed ex_waits) 0 0 3 ex_waits); [reflexivity|]. eapply step_done; vm_compute; reflexivity.
Qed.

Lemma leader_close_ends_witness :
  Close (ex_sent ex_writes ex_second) = Some (false, ex_closed ex_second) ∧
  (2 ≤ 4)%nat ∧
  ∃ ln from s, conns (life (ex_closed ex_returned)) !! 0%nat = Some (ln, (from, s)) ∧
    ((∃ r, st_phase s = SRet r) ∨
     ∃ l3, leader_step (ex_closed ex_returned) l3 ∧ w l3 = w (ex_closed ex_returned) ∧
       conns (life l3) !! 0%nat ≠ conns (life (ex_closed ex_returned)) !! 0%nat).
Proof.
  split; [reflexivity|].
  apply (leader_close_ends (ex_sent ex_writes ex_second) false (ex_closed ex_second) 0 2 (ex_closed ex_returned)).
  - reflexivity.
  - cbn. lia.
  - exact ex_quiet.
Defined.
