(* ===== verification/RaftNode.v ===== *)
(** * RaftNode: internal/raft/raft.go, with persist.go and snapshot.go

    One member of a Raft cluster: its state, the handlers of the two incoming
    RPCs, the code run on each reply, elections, proposals, commit
    advancement, the apply loop, and what is written to and read from the
    state file. A handler is a function of the node; [None] is a Go panic (an
    index out of range), and the RPCs it starts are returned as a list of
    calls. *)
From stdpp Require Import prelude gmap.
From Stdlib Require Import ZArith Lia Strings.Byte.
From S2P Require Import Prelude.
Local Open Scope Z_scope.

(** ** Data *)

Inductive Role := Follower | Candidate | Leader.

#[global] Instance Role_eq_dec : EqDecision Role.
Proof. solve_decision. Defined.

(** [Command] is a Go slice, which may be nil. *)
Record LogEntry := mkEntry { Term : Z; Command : option bytes }.

#[global] Instance LogEntry_eq_dec : EqDecision LogEntry.
Proof. solve_decision. Defined.

Record ApplyMsg := mkApply { CommandIndex : Z; ACommand : bytes }.

#[global] Instance ApplyMsg_eq_dec : EqDecision ApplyMsg.
Proof. solve_decision. Defined.

Record RequestVoteArgs := mkRV {
  rv_Term : Z; rv_CandidateId : bytes; rv_LastLogIndex : Z; rv_LastLogTerm : Z }.
Record RequestVoteReply := mkRVReply { rvr_Term : Z; rvr_VoteGranted : bool }.
Record AppendEntriesArgs := mkAE {
  ae_Term : Z; ae_LeaderId : bytes; ae_PrevLogIndex : Z; ae_PrevLogTerm : Z;
  ae_Entries : list LogEntry; ae_LeaderCommit : Z }.
Record AppendEntriesReply := mkAEReply {
  aer_Term : Z; aer_Success : bool; aer_ConflictIndex : Z; aer_ConflictTerm : Z }.

Record persistentState := mkPS { CurrentTerm : Z; VotedFor : bytes; Log : list LogEntry }.
Record Snapshot := mkSnap { LastIncludedIndex : Z; LastIncludedTerm : Z; SnapData : bytes }.

Record Node := mkNode {
  id : bytes;
  peers : list bytes;
  statePath : bool;             (* whether a state file is configured *)
  snapshotPath : bool;          (* whether a snapshot file is configured *)
  snapshotIndex : Z;
  snapshotTerm : Z;
  currentTerm : Z;
  votedFor : bytes;
  log : list LogEntry;
  commitIndex : Z;
  lastApplied : Z;
  role : Role;
  leaderId : bytes;
  lastHeartbeat : Z;
  nextIndex : gmap bytes Z;
  matchIndex : gmap bytes Z;
  commitNotify : bool;          (* whether the one-place channel is full *)
  votes : gmap Z Z;             (* the vote counter captured by the goroutines of each election, by term *)
  disk : option persistentState;(* the state file *)
  snapDisk : option Snapshot;   (* the snapshot file *)
  faults : list bool            (* which of the coming file replacements fail; past the end none does *)
}.

(** ** Field updates *)

Definition set_persistent (t : Z) (v : bytes) (l : list LogEntry) (n : Node) : Node :=
  mkNode (id n) (peers n) (statePath n) (snapshotPath n) (snapshotIndex n) (snapshotTerm n)
    t v l (commitIndex n) (lastApplied n) (role n) (leaderId n) (lastHeartbeat n)
    (nextIndex n) (matchIndex n) (commitNotify n) (votes n) (disk n) (snapDisk n) (faults n).
Definition set_role (r : Role) (n : Node) : Node :=
  mkNode (id n) (peers n) (statePath n) (snapshotPath n) (snapshotIndex n) (snapshotTerm n)
    (currentTerm n) (votedFor n) (log n) (commitIndex n) (lastApplied n) r (leaderId n) (lastHeartbeat n)
    (nextIndex n) (matchIndex n) (commitNotify n) (votes n) (disk n) (snapDisk n) (faults n).
Definition set_leaderId (l : bytes) (n : Node) : Node :=
  mkNode (id n) (peers n) (statePath n) (snapshotPath n) (snapshotIndex n) (snapshotTerm n)
    (currentTerm n) (votedFor n) (log n) (commitIndex n) (lastApplied n) (role n) l (lastHeartbeat n)
    (nextIndex n) (matchIndex n) (commitNotify n) (votes n) (disk n) (snapDisk n) (faults n).
Definition set_heartbeat (now : Z) (n : Node) : Node :=
  mkNode (id n) (peers n) (statePath n) (snapshotPath n) (snapshotIndex n) (snapshotTerm n)
    (currentTerm n) (votedFor n) (log n) (commitIndex n) (lastApplied n) (role n) (leaderId n) now
    (nextIndex n) (matchIndex n) (commitNotify n) (votes n) (disk n) (snapDisk n) (faults n).
Definition set_commit (c a : Z) (notify : bool) (n : Node) : Node :=
  mkNode (id n) (peers n) (statePath n) (snapshotPath n) (snapshotIndex n) (snapshotTerm n)
    (currentTerm n) (votedFor n) (log n) c a (role n) (leaderId n) (lastHeartbeat n)
    (nextIndex n) (matchIndex n) notify (votes n) (disk n) (snapDisk n) (faults n).
Definition set_indices (nx mt : gmap bytes Z) (n : Node) : Node :=
  mkNode (id n) (peers n) (statePath n) (snapshotPath n) (snapshotIndex n) (snapshotTerm n)
    (currentTerm n) (votedFor n) (log n) (commitIndex n) (lastApplied n) (role n) (leaderId n) (lastHeartbeat n)
    nx mt (commitNotify n) (votes n) (disk n) (snapDisk n) (faults n).
Definition set_votes (v : gmap Z Z) (n : Node) : Node :=
  mkNode (id n) (peers n) (statePath n) (snapshotPath n) (snapshotIndex n) (snapshotTerm n)
    (currentTerm n) (votedFor n) (log n) (commitIndex n) (lastApplied n) (role n) (leaderId n) (lastHeartbeat n)
    (nextIndex n) (matchIndex n) (commitNotify n) v (disk n) (snapDisk n) (faults n).
Definition set_snapshot (i t : Z) (n : Node) : Node :=
  mkNode (id n) (peers n) (statePath n) (snapshotPath n) i t
    (currentTerm n) (votedFor n) (log n) (commitIndex n) (lastApplied n) (role n) (leaderId n) (lastHeartbeat n)
    (nextIndex n) (matchIndex n) (commitNotify n) (votes n) (disk n) (snapDisk n) (faults n).
Definition set_disk (d : option persistentState) (sd : option Snapshot) (fl : list bool) (n : Node) : Node :=
  mkNode (id n) (peers n) (statePath n) (snapshotPath n) (snapshotIndex n) (snapshotTerm n)
    (currentTerm n) (votedFor n) (log n) (commitIndex n) (lastApplied n) (role n) (leaderId n) (lastHeartbeat n)
    (nextIndex n) (matchIndex n) (commitNotify n) (votes n) d sd fl.

(** ** The state file *)

Definition next_fault (n : Node) : bool * list bool :=
  match faults n with [] => (false, []) | x :: l => (x, l) end.

(** The file is replaced by a rename, so a failure at any earlier step leaves
    the old state. The error is returned, and most callers ignore it. *)
Definition persist (n : Node) : bool * Node :=
  if statePath n then
    let '(err, fl) := next_fault n in
    if err : bool then (true, set_disk (disk n) (snapDisk n) fl n)
    else (false, set_disk (Some (mkPS (currentTerm n) (votedFor n) (log n))) (snapDisk n) fl n)
  else (false, n).

(** [bad] says that the file exists but cannot be read or decoded. *)
Definition restoreState (bad : bool) (n : Node) : option Node :=
  if statePath n then
    match disk n with
    | None => Some n
    | Some ps =>
        if bad then None
        else Some (set_persistent (CurrentTerm ps) (VotedFor ps) (Log ps) n)
    end
  else Some n.

(** A snapshot that cannot be read is an error, which [NewNode] treats like a
    missing one. *)
Definition LatestSnapshot (bad : bool) (n : Node) : option Snapshot :=
  if snapshotPath n then (if bad then None else snapDisk n) else None.

(** [NewNode] on the two files; [None] is an error. *)
Definition NewNode (nid : bytes) (ps : list bytes) (sp snp : bool)
    (d : option persistentState) (sd : option Snapshot) (badState badSnap : bool) (fl : list bool) : option Node :=
  let n := mkNode nid ps sp snp 0 0 0 [] [mkEntry 0 None] 0 0 Follower [] 0 ∅ ∅ false ∅ d sd fl in
  let n :=
    match LatestSnapshot badSnap n with
    | None => n
    | Some snap =>
        set_commit (LastIncludedIndex snap) (LastIncludedIndex snap) false
          (set_snapshot (LastIncludedIndex snap) (LastIncludedTerm snap)
            (set_persistent (currentTerm n) (votedFor n) [mkEntry (LastIncludedTerm snap) None] n))
    end in
  n ← restoreState badState n;
  match log n with
  | [] => Some (set_persistent (currentTerm n) (votedFor n) [mkEntry 0 None] n)
  | _ => Some n
  end.

(** ** Log access *)

(** An index expression [n.log[i]]; out of range panics. *)
Definition log_at (l : list LogEntry) (i : Z) : option LogEntry :=
  if (0 <=? i) && (i <? Zlen l) then l !! Z.to_nat i else None.

Definition lastLogIndexAndTerm (n : Node) : option (Z * Z) :=
  let last := u64 (Zlen (log n) - 1) in
  e ← log_at (log n) last; Some (last, Term e).

(** ** Elections *)

Inductive call :=
| CallVote (peer : bytes) (args : RequestVoteArgs)
| CallAppend (peer : bytes) (args : AppendEntriesArgs).

Definition becomeFollower (term : Z) (n : Node) : Node :=
  (persist (set_persistent term [] (log n) (set_role Follower n))).2.

Definition sendAppendEntries (n : Node) (peer : bytes) : option call :=
  let nextIdx := default 0 (nextIndex n !! peer) in
  let nextIdx := if nextIdx <? 1 then 1 else nextIdx in
  let prevLogIndex := nextIdx - 1 in
  prev ← log_at (log n) prevLogIndex;
  let entries := if nextIdx <? Zlen (log n) then drop (Z.to_nat nextIdx) (log n) else [] in
  Some (CallAppend peer (mkAE (currentTerm n) (id n) prevLogIndex (Term prev) entries (commitIndex n))).

Definition broadcastAppendEntries (n : Node) : option (list call) :=
  mapM (sendAppendEntries n) (peers n).

Definition becomeLeader (n : Node) : option (Node * list call) :=
  let n := set_leaderId (id n) (set_role Leader n) in
  '(lastIdx, _) ← lastLogIndexAndTerm n;
  let n := set_indices (list_to_map ((λ p : bytes, (p, u64 (lastIdx + 1))) <$> peers n))
             (list_to_map ((λ p : bytes, (p, 0)) <$> peers n)) n in
  cs ← broadcastAppendEntries n;
  Some (n, cs).

Definition startElection (now : Z) (n : Node) : option (Node * list call) :=
  let n := set_persistent (u64 (currentTerm n + 1)) (id n) (log n) (set_role Candidate n) in
  let n := (persist (set_heartbeat now n)).2 in
  let term := currentTerm n in
  '(lastIdx, lastTerm) ← lastLogIndexAndTerm n;
  let n := set_votes (<[term := 1]> (votes n)) n in
  Some (n, (λ p : bytes, CallVote p (mkRV term (id n) lastIdx lastTerm)) <$> peers n).

(** The body of [electionLoop] after its timer fired. *)
Definition electionTick (now timeout : Z) (n : Node) : option (Node * list call) :=
  if negb (bool_decide (role n = Leader)) && (timeout <=? now - lastHeartbeat n)
  then startElection now n else Some (n, []).

(** The goroutine of [startElection], on a reply; [term] is the election's. *)
Definition onVoteReply (term : Z) (reply : RequestVoteReply) (n : Node) : option (Node * list call) :=
  if currentTerm n <? rvr_Term reply then Some (becomeFollower (rvr_Term reply) n, [])
  else if negb (bool_decide (role n = Candidate)) || negb (currentTerm n =? term) then Some (n, [])
  else if rvr_VoteGranted reply then
    let v := default 0 (votes n !! term) + 1 in
    let needed := (Zlen (peers n) + 1) / 2 + 1 in
    let n := set_votes (<[term := v]> (votes n)) n in
    if needed <=? v then becomeLeader n else Some (n, [])
  else Some (n, []).

(** ** Replication *)

(** The body of [heartbeatLoop] at a tick. *)
Definition heartbeatTick (n : Node) : option (list call) :=
  if bool_decide (role n = Leader) then broadcastAppendEntries n else Some [].

(** The number of nodes, the leader included, known to hold index [idx]. *)
Definition replicas (n : Node) (idx : Z) : Z :=
  1 + Zlen (filter (λ p : bytes, idx ≤ default 0 (matchIndex n !! p)) (peers n)).

(** The loop from [idx] down to [commitIndex]: the index to commit, if any. *)
Fixpoint advance_go (n : Node) (idx : nat) : option Z :=
  if Z.of_nat idx <=? commitIndex n then None
  else match idx with
  | O => None
  | S idx' =>
      if bool_decide (Term <$> log n !! idx = Some (currentTerm n)) then
        if Zlen (peers n) + 1 <? replicas n (Z.of_nat idx) * 2 then Some (Z.of_nat idx)
        else advance_go n idx'
      else advance_go n idx'
  end.

(** An empty log makes the loop start at 2^64-1, where the index panics. *)
Definition maybeAdvanceCommitIndex (n : Node) : option Node :=
  match log n with
  | [] => if commitIndex n <? u64 (-1) then None else Some n
  | _ =>
      match advance_go n (length (log n) - 1) with
      | Some idx => Some (set_commit idx (lastApplied n) true n)
      | None => Some n
      end
  end.

(** The last index above 0 with the given term, or 0. *)
Fixpoint find_term (l : list LogEntry) (t : Z) (i : nat) : nat :=
  match i with
  | O => O
  | S i' => if bool_decide (Term <$> l !! i = Some t) then i else find_term l t i'
  end.

(** The new [nextIndex[peer]] after a rejected append. *)
Definition backup (n : Node) (peer : bytes) (reply : AppendEntriesReply) : Z :=
  if negb (aer_ConflictTerm reply =? 0) then
    let found := Z.of_nat (find_term (log n) (aer_ConflictTerm reply) (length (log n) - 1)) in
    if 0 <? found then u64 (found + 1) else aer_ConflictIndex reply
  else if 0 <? aer_ConflictIndex reply then aer_ConflictIndex reply
  else
    let nx := default 0 (nextIndex n !! peer) in
    if 1 <? nx then nx - 1 else nx.

(** The goroutine of [sendAppendEntries], on a reply to [args]. *)
Definition onAppendReply (peer : bytes) (args : AppendEntriesArgs) (reply : AppendEntriesReply)
    (n : Node) : option (Node * list call) :=
  if currentTerm n <? aer_Term reply then Some (becomeFollower (aer_Term reply) n, [])
  else if negb (bool_decide (role n = Leader)) || negb (currentTerm n =? ae_Term args) then Some (n, [])
  else if aer_Success reply then
    let newMatch := u64 (ae_PrevLogIndex args + Zlen (ae_Entries args)) in
    let old := default 0 (matchIndex n !! peer) in
    let mt := if old <? newMatch then <[peer := newMatch]> (matchIndex n) else matchIndex n in
    let n := set_indices (<[peer := u64 (default 0 (mt !! peer) + 1)]> (nextIndex n)) mt n in
    n ← maybeAdvanceCommitIndex n;
    Some (n, [])
  else
    match log n with
    | [] => None
    | _ =>
        let n := set_indices (<[peer := backup n peer reply]> (nextIndex n)) (matchIndex n) n in
        c ← sendAppendEntries n peer;
        Some (n, [c])
    end.

(** ** Incoming RPCs *)

Definition HandleRequestVote (now : Z) (args : RequestVoteArgs) (n : Node) : option (RequestVoteReply * Node) :=
  if rv_Term args <? currentTerm n then Some (mkRVReply (currentTerm n) false, n)
  else
    let n := if currentTerm n <? rv_Term args then becomeFollower (rv_Term args) n else n in
    '(lastIdx, lastTerm) ← lastLogIndexAndTerm n;
    let logOK := (lastTerm <? rv_LastLogTerm args) ||
      ((rv_LastLogTerm args =? lastTerm) && (lastIdx <=? rv_LastLogIndex args)) in
    let canVote := bool_decide (votedFor n = []) || bool_decide (votedFor n = rv_CandidateId args) in
    if logOK && canVote then
      let n := (persist (set_persistent (currentTerm n) (rv_CandidateId args) (log n) n)).2 in
      Some (mkRVReply (currentTerm n) true, set_heartbeat now n)
    else Some (mkRVReply (currentTerm n) false, n).

(** The first index of the run of entries with term [t] that ends at [i]. *)
Fixpoint conflict_go (l : list LogEntry) (t : Z) (i : nat) : nat :=
  match i with
  | S (S _ as i') => if bool_decide (Term <$> l !! i' = Some t) then conflict_go l t i' else i
  | _ => i
  end.

(** The loop over the received entries, the next of which belongs at [idx]. *)
Fixpoint append_entries (l : list LogEntry) (idx : Z) (entries : list LogEntry) : option (list LogEntry) :=
  match entries with
  | [] => Some l
  | entry :: entries =>
      if idx <? Zlen l then
        e ← log_at l idx;
        if Term e =? Term entry then append_entries l (u64 (idx + 1)) entries
        else append_entries (take (Z.to_nat idx) l ++ [entry]) (u64 (idx + 1)) entries
      else append_entries (l ++ [entry]) (u64 (idx + 1)) entries
  end.

Definition HandleAppendEntries (now : Z) (args : AppendEntriesArgs) (n : Node) : option (AppendEntriesReply * Node) :=
  if ae_Term args <? currentTerm n then Some (mkAEReply (currentTerm n) false 0 0, n)
  else
    let n := set_heartbeat now (set_leaderId (ae_LeaderId args) (becomeFollower (ae_Term args) n)) in
    if Zlen (log n) <=? ae_PrevLogIndex args then
      Some (mkAEReply (currentTerm n) false (Zlen (log n)) 0, n)
    else
      prev ← log_at (log n) (ae_PrevLogIndex args);
      if negb (Term prev =? ae_PrevLogTerm args) then
        Some (mkAEReply (currentTerm n) false
                (Z.of_nat (conflict_go (log n) (Term prev) (Z.to_nat (ae_PrevLogIndex args)))) (Term prev), n)
      else
        l ← append_entries (log n) (u64 (ae_PrevLogIndex args + 1)) (ae_Entries args);
        let n := set_persistent (currentTerm n) (votedFor n) l n in
        let n := match ae_Entries args with [] => n | _ => (persist n).2 end in
        let lastNew := u64 (ae_PrevLogIndex args + Zlen (ae_Entries args)) in
        let n := if commitIndex n <? ae_LeaderCommit args then
                   set_commit (if ae_LeaderCommit args <? lastNew then ae_LeaderCommit args else lastNew)
                     (lastApplied n) true n
                 else n in
        Some (mkAEReply (currentTerm n) true 0 0, n).

(** ** Clients, applying, snapshots *)

(** Index, term, and whether this node is the leader. *)
Definition Propose (command : option bytes) (n : Node) : option ((Z * Z * bool) * Node * list call) :=
  if negb (bool_decide (role n = Leader)) then Some ((0, currentTerm n, false), n, [])
  else
    let l := log n ++ [mkEntry (currentTerm n) command] in
    let idx := u64 (Zlen l - 1) in
    let n := set_persistent (currentTerm n) (votedFor n) l n in
    let n := set_indices (nextIndex n) (<[id n := idx]> (matchIndex n)) n in
    let n := (persist n).2 in
    cs ← broadcastAppendEntries n;
    Some ((idx, currentTerm n, true), n, cs).

(** [applyLoop] takes the lock anew for every entry. [applyWake] receives from
    [commitNotify]; [applyOne] is one iteration of its inner loop, with the
    message it sends, if any. *)
Definition applyWake (n : Node) : Node := set_commit (commitIndex n) (lastApplied n) false n.

Definition applyOne (n : Node) : option (option ApplyMsg * Node) :=
  let i := u64 (lastApplied n + 1) in
  e ← log_at (log n) i;
  Some ((λ c : bytes, mkApply i c) <$> Command e, set_commit (commitIndex n) i (commitNotify n) n).

Definition LogSnapshot (n : Node) : list LogEntry := log n.

Record NodeState := mkState { st_Role : Role; st_Term : Z; st_LeaderId : bytes }.
Definition State (n : Node) : NodeState := mkState (role n) (currentTerm n) (leaderId n).

Definition writeSnapshot (snap : Snapshot) (n : Node) : bool * Node :=
  if snapshotPath n then
    let '(err, fl) := next_fault n in
    if err : bool then (true, set_disk (disk n) (snapDisk n) fl n)
    else (false, set_disk (disk n) (Some snap) fl n)
  else (false, n).

(** [true] is an error. *)
Definition TakeSnapshot (upToIndex : Z) (data : bytes) (n : Node) : option (bool * Node) :=
  if commitIndex n <? upToIndex then Some (true, n)
  else if upToIndex <? snapshotIndex n then Some (false, n)
  else if Zlen (log n) <=? upToIndex then Some (true, n)
  else
    e ← log_at (log n) upToIndex;
    let lastTerm := Term e in
    let '(err, n) := writeSnapshot (mkSnap upToIndex lastTerm data) n in
    if err : bool then Some (true, n)
    else
      let newLog := mkEntry lastTerm None :: drop (Z.to_nat (upToIndex + 1)) (log n) in
      let n := set_persistent (currentTerm n) (votedFor n) newLog n in
      Some (persist (set_snapshot upToIndex lastTerm n)).

(** ** Lemmas *)

(** *** The log *)

Lemma log_at_Some l i e : log_at l i = Some e ↔ 0 ≤ i < Zlen l ∧ l !! Z.to_nat i = Some e.
Proof.
  unfold log_at. destruct ((0 <=? i) && (i <? Zlen l)) eqn:E.
  - split; [intros; split; [lia|done]|by intros [_ ?]].
  - split; [done|]. intros [? _]. lia.
Qed.

Lemma log_at_lookup l i : 0 ≤ i < Zlen l → log_at l i = l !! Z.to_nat i.
Proof. intros. unfold log_at. by replace ((0 <=? i) && (i <? Zlen l)) with true by lia. Qed.

Lemma log_at_is_Some l i : 0 ≤ i < Zlen l → ∃ e, log_at l i = Some e ∧ l !! Z.to_nat i = Some e.
Proof.
  intros Hi. rewrite log_at_lookup by done.
  destruct (lookup_lt_is_Some_2 l (Z.to_nat i)) as [e He]; [unfold Zlen in Hi; lia|eauto].
Qed.

Lemma u64_id z : 0 ≤ z < 2 ^ 64 → u64 z = z.
Proof. apply Z.mod_small. Qed.

(** The log of a Go program: not empty, and no longer than a slice can be. *)
Definition log_ok (l : list LogEntry) : Prop := 0 < Zlen l < 2 ^ 63.

Lemma lastLogIndexAndTerm_ok n :
  log_ok (log n) →
  ∃ e, last (log n) = Some e ∧ lastLogIndexAndTerm n = Some (Zlen (log n) - 1, Term e).
Proof.
  intros Hl. unfold lastLogIndexAndTerm. unfold log_ok in Hl. rewrite u64_id by lia.
  destruct (log_at_is_Some (log n) (Zlen (log n) - 1)) as (e & He & Hlk); [lia|]. exists e.
  rewrite He. split; [|done]. rewrite last_lookup, <-Hlk. f_equal. unfold Zlen in *. lia.
Qed.

(** Keep our own entries as long as their terms agree with the leader's, and
    take the leader's from the first disagreement or from our end on. *)
Fixpoint merge (own entries : list LogEntry) : list LogEntry :=
  match entries, own with
  | [], _ => own
  | _, [] => entries
  | e :: es, x :: own => if Term x =? Term e then x :: merge own es else entries
  end.

(** The loop over the entries computes [merge] behind the common part. *)
Lemma append_entries_merge l idx es :
  0 ≤ idx ≤ Zlen l → Zlen l < 2 ^ 63 → idx + Zlen es < 2 ^ 63 →
  append_entries l idx es = Some (take (Z.to_nat idx) l ++ merge (drop (Z.to_nat idx) l) es).
Proof.
  revert l idx. induction es as [|e es IH]; intros l idx Hi Hl Hes; cbn [append_entries].
  { destruct (drop _ l) eqn:Ed; cbn [merge]; by rewrite <-Ed, take_drop. }
  rewrite Zlen_cons in Hes. pose proof (Zlen_nonneg es). rewrite u64_id by lia.
  destruct (idx <? Zlen l) eqn:Elt.
  - destruct (log_at_is_Some l idx) as (x & -> & Hx); [lia|]. cbn [mbind option_bind].
    rewrite (drop_S l x (Z.to_nat idx)) by done. cbn [merge].
    replace (Z.to_nat (idx + 1)) with (S (Z.to_nat idx)) in IH by lia.
    destruct (Term x =? Term e) eqn:Et.
    + rewrite IH by lia. replace (Z.to_nat (idx + 1)) with (S (Z.to_nat idx)) by lia.
      by rewrite (take_S_r _ _ x), <-app_assoc.
    + assert (Hlen : Zlen (take (Z.to_nat idx) l ++ [e]) = idx + 1).
      { rewrite Zlen_snoc, Zlen_take; unfold Zlen in *; lia. }
      rewrite IH by lia.
      rewrite firstn_all2, skipn_all2 by (unfold Zlen in Hlen; lia). rewrite <-app_assoc. by destruct es.
  - assert (idx = Zlen l) as -> by lia.
    assert (Hlen : Zlen (l ++ [e]) = Zlen l + 1) by apply Zlen_snoc.
    rewrite IH by lia. rewrite (firstn_all2 (n := Z.to_nat (Zlen l)) l) by (unfold Zlen; lia).
    rewrite (skipn_all2 (n := Z.to_nat (Zlen l)) l) by (unfold Zlen; lia).
    rewrite firstn_all2, skipn_all2 by (unfold Zlen in *; lia). rewrite <-app_assoc. by destruct es.
Qed.

Lemma merge_terms own es i e :
  es !! i = Some e → Term <$> merge own es !! i = Some (Term e).
Proof.
  revert own i. induction es as [|e0 es IH]; intros own i; [done|].
  destruct own as [|x own]; cbn [merge]; [by intros ->|].
  destruct (Term x =? Term e0) eqn:Et; [|by intros ->]. destruct i as [|i]; cbn.
  - intros [= ->]. cbn. f_equal. lia.
  - apply IH.
Qed.

Lemma merge_length own es : (length (merge own es) = Nat.max (length own) (length es)
  ∨ length (merge own es) = length es)%nat.
Proof.
  revert own. induction es as [|e es IH]; intros own.
  { destruct own; cbn; left; lia. }
  destruct own as [|x own]; cbn [merge]; [right; done|].
  destruct (Term x =? Term e); [|by right]. cbn. destruct (IH own) as [->| ->]; [left|right]; lia.
Qed.

(** Merging the same entries again changes nothing. *)
Lemma merge_idem own es : merge (merge own es) es = merge own es.
Proof.
  revert own. induction es as [|e es IH]; intros own; [by destruct own|].
  destruct own as [|x own]; cbn [merge].
  - rewrite Z.eqb_refl. f_equal. specialize (IH []). destruct es; [done|exact IH].
  - destruct (Term x =? Term e) eqn:Et; cbn [merge].
    + by rewrite Et, IH.
    + rewrite Z.eqb_refl. f_equal. specialize (IH []). destruct es; [done|exact IH].
Qed.

(** *** Searching the log *)

Lemma find_term_spec l t i :
  (find_term l t i ≤ i)%nat ∧
  ((0 < find_term l t i)%nat → Term <$> l !! find_term l t i = Some t) ∧
  ∀ j, (find_term l t i < j ≤ i)%nat → Term <$> l !! j ≠ Some t.
Proof.
  induction i as [|i (IH1 & IH2 & IH3)]; cbn [find_term]; [split_and!; [lia|lia|intros; lia]|].
  case_bool_decide as Hd; [split_and!; [lia|done|intros; lia]|].
  split_and!; [lia|done|]. intros j Hj. destruct (decide (j = S i)) as [->|]; [done|]. apply IH3. lia.
Qed.

Lemma conflict_go_spec l t i :
  Term <$> l !! i = Some t →
  (conflict_go l t i ≤ i)%nat ∧ ((1 ≤ i)%nat → (1 ≤ conflict_go l t i)%nat) ∧
  (∀ j, (conflict_go l t i ≤ j ≤ i)%nat → Term <$> l !! j = Some t) ∧
  ((1 < conflict_go l t i)%nat → Term <$> l !! pred (conflict_go l t i) ≠ Some t).
Proof.
  induction i as [|[|i] IH]; intros Hi.
  1,2: cbn [conflict_go]; split_and!; [lia|lia| |lia]; intros j Hj.
  { by replace j with 0%nat by lia. }
  { by replace j with 1%nat by lia. }
  change (conflict_go l t (S (S i))) with
    (if bool_decide (Term <$> l !! S i = Some t) then conflict_go l t (S i) else S (S i)).
  case_bool_decide as Hd.
  - destruct (IH Hd) as (H1 & H2 & H3 & H4). split_and!; [lia|lia| |done].
    intros j Hj. destruct (decide (j = S (S i))) as [->|]; [done|]. apply H3. lia.
  - split_and!; [lia|lia| |done]. intros j Hj. by replace j with (S (S i)) by lia.
Qed.

Lemma advance_go_spec n i :
  (∀ idx, advance_go n i = Some idx →
     commitIndex n < idx ≤ Z.of_nat i ∧ Term <$> log n !! Z.to_nat idx = Some (currentTerm n) ∧
     Zlen (peers n) + 1 < replicas n idx * 2) ∧
  (∀ j, commitIndex n < j ≤ Z.of_nat i → 0 < j → Term <$> log n !! Z.to_nat j = Some (currentTerm n) →
     Zlen (peers n) + 1 < replicas n j * 2 → ∃ idx, advance_go n i = Some idx ∧ j ≤ idx).
Proof.
  induction i as [|i [IH1 IH2]].
  { cbn [advance_go]. split; [by intros idx; destruct (_ <=? _)|intros; lia]. }
  change (advance_go n (S i)) with
    (if Z.of_nat (S i) <=? commitIndex n then None
     else if bool_decide (Term <$> log n !! S i = Some (currentTerm n)) then
       if Zlen (peers n) + 1 <? replicas n (Z.of_nat (S i)) * 2 then Some (Z.of_nat (S i))
       else advance_go n i
     else advance_go n i).
  destruct (Z.of_nat (S i) <=? commitIndex n) eqn:El; [split; [done|intros; kv_bool; lia]|]. apply Z.leb_gt in El.
  case_bool_decide as Ht.
  - destruct (Zlen (peers n) + 1 <? _) eqn:Em; kv_bool.
    + split; [intros idx [= <-]; rewrite Nat2Z.id; split_and!; [lia..|done|lia]|].
      intros j Hj _ _ _. eexists. split; [done|lia].
    + split; [intros idx Hx; destruct (IH1 idx Hx) as (? & ? & ?); split_and!; [lia..|done|done]|].
      intros j Hj H0 Hjt Hjm. destruct (decide (j = Z.of_nat (S i))) as [->|]; [lia|]. apply IH2; [lia|done..].
  - split; [intros idx Hx; destruct (IH1 idx Hx) as (? & ? & ?); split_and!; [lia..|done|done]|].
    intros j Hj H0 Hjt Hjm. destruct (decide (j = Z.of_nat (S i))) as [->|].
    { rewrite Nat2Z.id in Hjt. done. }
    apply IH2; [lia|done..].
Qed.

(** *** The handlers, field by field *)

Lemma persist_eq n : ∃ d fl, (persist n).2 = set_disk d (snapDisk n) fl n.
Proof.
  unfold persist. destruct (statePath n); [|exists (disk n), (faults n); by destruct n].
  destruct (next_fault n) as [[|] fl]; cbn [snd]; eauto.
Qed.

Lemma becomeFollower_eq t n :
  ∃ d fl, becomeFollower t n = set_disk d (snapDisk n) fl (set_persistent t [] (log n) (set_role Follower n)).
Proof. apply (persist_eq (set_persistent t [] (log n) (set_role Follower n))). Qed.

(** What no handler of an incoming RPC changes. *)
Definition frame (n n' : Node) : Prop :=
  id n' = id n ∧ peers n' = peers n ∧ statePath n' = statePath n ∧ snapshotPath n' = snapshotPath n ∧ lastApplied n' = lastApplied n ∧
  nextIndex n' = nextIndex n ∧ matchIndex n' = matchIndex n ∧ votes n' = votes n.

Definition ae_fits (args : AppendEntriesArgs) : Prop :=
  0 ≤ ae_PrevLogIndex args ∧ ae_PrevLogIndex args + Zlen (ae_Entries args) + 1 < 2 ^ 63.

(** The log after accepting the entries of [args]. *)
Definition accepted (args : AppendEntriesArgs) (l : list LogEntry) : list LogEntry :=
  let k := Z.to_nat (ae_PrevLogIndex args + 1) in take k l ++ merge (drop k l) (ae_Entries args).

Definition new_commit (args : AppendEntriesArgs) (c : Z) : Z :=
  if c <? ae_LeaderCommit args then Z.min (ae_LeaderCommit args) (ae_PrevLogIndex args + Zlen (ae_Entries args))
  else c.

Lemma HandleAppendEntries_stale now args n :
  ae_Term args < currentTerm n →
  HandleAppendEntries now args n = Some (mkAEReply (currentTerm n) false 0 0, n).
Proof. intros Ht. unfold HandleAppendEntries. by replace (_ <? _) with true by lia. Qed.

(** The three outcomes of a request that is not stale. *)
Lemma HandleAppendEntries_cases now args n :
  log_ok (log n) → ae_fits args → currentTerm n ≤ ae_Term args →
  ∃ r n', HandleAppendEntries now args n = Some (r, n') ∧
    frame n n' ∧ currentTerm n' = ae_Term args ∧ votedFor n' = [] ∧ role n' = Follower ∧
    aer_Term r = ae_Term args ∧
    ((Zlen (log n) ≤ ae_PrevLogIndex args ∧ log n' = log n ∧ commitIndex n' = commitIndex n ∧
      aer_Success r = false ∧ aer_ConflictIndex r = Zlen (log n) ∧ aer_ConflictTerm r = 0) ∨
     (∃ t, Term <$> log n !! Z.to_nat (ae_PrevLogIndex args) = Some t ∧ t ≠ ae_PrevLogTerm args ∧
        log n' = log n ∧ commitIndex n' = commitIndex n ∧ aer_Success r = false ∧
        aer_ConflictIndex r = Z.of_nat (conflict_go (log n) t (Z.to_nat (ae_PrevLogIndex args))) ∧
        aer_ConflictTerm r = t) ∨
     (Term <$> log n !! Z.to_nat (ae_PrevLogIndex args) = Some (ae_PrevLogTerm args) ∧
        log n' = accepted args (log n) ∧ commitIndex n' = new_commit args (commitIndex n) ∧
        aer_Success r = true)).
Proof.
  intros Hl [Hp Hfit] Ht. unfold HandleAppendEntries. replace (ae_Term args <? currentTerm n) with false by lia.
  destruct (becomeFollower_eq (ae_Term args) n) as (d & fl & ->).
  set (n1 := set_heartbeat _ _). change (log n1) with (log n). pose proof (Zlen_nonneg (ae_Entries args)).
  destruct (Zlen (log n) <=? ae_PrevLogIndex args) eqn:Ele; kv_bool.
  { eexists _, _. split; [done|]. split; [by split_and!|]. split_and!; try done. left. by split_and!. }
  destruct (log_at_is_Some (log n) (ae_PrevLogIndex args)) as (e & -> & He); [lia|]. cbn [mbind option_bind].
  destruct (Term e =? ae_PrevLogTerm args) eqn:Et; kv_bool; cbn [negb].
  2: { eexists _, _. split; [done|]. split; [by split_and!|]. split_and!; try done. right; left.
       exists (Term e). rewrite He. by split_and!. }
  unfold log_ok in Hl. rewrite (u64_id (ae_PrevLogIndex args + 1)) by lia. rewrite append_entries_merge by lia. cbn [mbind option_bind].
  fold (accepted args (log n)). set (n2 := set_persistent _ _ (accepted args (log n)) n1).
  set (n3 := match ae_Entries args with [] => n2 | _ => _ end).
  assert (∃ d fl, n3 = set_disk d (snapDisk n) fl n2) as (d3 & fl3 & ->).
  { subst n3. destruct (ae_Entries args); [exists d, fl; done|]. apply (persist_eq n2). }
  rewrite u64_id by lia. cbn [commitIndex set_disk]. change (commitIndex n2) with (commitIndex n).
  eexists _, _. split; [done|].
  unfold new_commit. destruct (commitIndex n <? ae_LeaderCommit args) eqn:Ec; (split; [by split_and!|]); split_and!; try done;
    right; right; rewrite He; cbn [fmap option_fmap option_map]; rewrite Et; split_and!; try done.
  cbn [commitIndex set_commit]. destruct (ae_LeaderCommit args <? _) eqn:Em; kv_bool; lia.
Qed.

Lemma HandleAppendEntries_success now args n r n' :
  HandleAppendEntries now args n = Some (r, n') → aer_Success r = true → r = mkAEReply (currentTerm n') true 0 0.
Proof.
  unfold HandleAppendEntries. intros H Hs.
  destruct (_ <? _); [by injection H as <- <-|]. destruct (_ <=? _); [by injection H as <- <-|].
  destruct (log_at _ _); [|done]. cbn [mbind option_bind] in H. destruct (negb _); [by injection H as <- <-|].
  destruct (append_entries _ _ _); [|done]. by injection H as <- <-.
Qed.

Lemma accepted_terms args l :
  log_ok l → ae_fits args → ae_PrevLogIndex args < Zlen l →
  (∀ i, (i ≤ Z.to_nat (ae_PrevLogIndex args))%nat → accepted args l !! i = l !! i) ∧
  (∀ i e, ae_Entries args !! i = Some e →
     Term <$> accepted args l !! (Z.to_nat (ae_PrevLogIndex args + 1) + i)%nat = Some (Term e)) ∧
  ae_PrevLogIndex args + Zlen (ae_Entries args) < Zlen (accepted args l) ≤
    Z.max (Zlen l) (ae_PrevLogIndex args + Zlen (ae_Entries args) + 1).
Proof.
  intros Hl [Hp Hfit] Hlt. unfold accepted. set (k := Z.to_nat (ae_PrevLogIndex args + 1)).
  assert (Hk : length (take k l) = k) by (rewrite length_take; unfold Zlen in *; lia).
  split_and!.
  - intros i Hi. rewrite lookup_app_l by lia. apply lookup_take_lt. lia.
  - intros i e He. rewrite lookup_app_r by lia. replace (k + i - length (take k l))%nat with i by lia.
    by apply merge_terms.
  - unfold Zlen. rewrite length_app, Hk. destruct (merge_length (drop k l) (ae_Entries args)) as [->| ->]; lia.
  - unfold Zlen. rewrite length_app, Hk.
    destruct (merge_length (drop k l) (ae_Entries args)) as [->| ->]; rewrite ?length_drop; unfold Zlen in *; lia.
Qed.

Lemma accepted_ok args l : log_ok l → ae_fits args → ae_PrevLogIndex args < Zlen l → log_ok (accepted args l).
Proof.
  intros Hl Hfit Hlt. destruct (accepted_terms args l Hl Hfit Hlt) as (_ & _ & Hlen).
  pose proof (Zlen_nonneg (ae_Entries args)). unfold log_ok, ae_fits in *. lia.
Qed.

(** Accepting the same entries again changes nothing. *)
Lemma accepted_idem args l :
  ae_fits args → ae_PrevLogIndex args < Zlen l → accepted args (accepted args l) = accepted args l.
Proof.
  intros [Hp Hfit] Hlt. unfold accepted. set (k := Z.to_nat (ae_PrevLogIndex args + 1)).
  assert (Hk : length (take k l) = k) by (rewrite length_take; unfold Zlen in *; lia).
  rewrite take_app_length', drop_app_length' by done. by rewrite merge_idem.
Qed.

(** *** Votes *)

(** The candidate's log is at least as up to date as ours. *)
Definition up_to_date (args : RequestVoteArgs) (l : list LogEntry) : Prop :=
  ∃ e, last l = Some e ∧
    (Term e < rv_LastLogTerm args ∨ (rv_LastLogTerm args = Term e ∧ Zlen l - 1 ≤ rv_LastLogIndex args)).

Lemma HandleRequestVote_cases now args n :
  log_ok (log n) →
  ∃ r n', HandleRequestVote now args n = Some (r, n') ∧
    frame n n' ∧ log n' = log n ∧ commitIndex n' = commitIndex n ∧
    currentTerm n' = Z.max (currentTerm n) (rv_Term args) ∧ rvr_Term r = currentTerm n' ∧
    role n' = (if currentTerm n <? rv_Term args then Follower else role n) ∧
    (rvr_VoteGranted r = true ↔
       currentTerm n ≤ rv_Term args ∧ up_to_date args (log n) ∧
       (currentTerm n < rv_Term args ∨ votedFor n = [] ∨ votedFor n = rv_CandidateId args)) ∧
    votedFor n' = (if rvr_VoteGranted r then rv_CandidateId args
                   else if currentTerm n <? rv_Term args then [] else votedFor n).
Proof.
  intros Hl. unfold HandleRequestVote. destruct (rv_Term args <? currentTerm n) eqn:Es; kv_bool.
  { eexists _, n. split; [done|]. split; [by split_and!|]. cbn. replace (currentTerm n <? rv_Term args) with false by lia.
    split_and!; try done; [lia|]. split; [done|lia]. }
  set (n1 := if currentTerm n <? rv_Term args then _ else n).
  assert (H1 : frame n n1 ∧ log n1 = log n ∧ commitIndex n1 = commitIndex n ∧ currentTerm n1 = rv_Term args ∧
    role n1 = (if currentTerm n <? rv_Term args then Follower else role n) ∧
    votedFor n1 = (if currentTerm n <? rv_Term args then [] else votedFor n)).
  { subst n1. destruct (currentTerm n <? rv_Term args) eqn:Et; kv_bool.
    - by destruct (becomeFollower_eq (rv_Term args) n) as (d & fl & ->).
    - split_and!; try done. lia. }
  destruct H1 as (Hfr & Hlg & Hc & Ht & Hr & Hv).
  destruct (lastLogIndexAndTerm_ok n1) as (e & Hlast & ->); [by rewrite Hlg|]. cbn [mbind option_bind].
  set (logOK := _ || _). set (canVote := _ || _).
  assert (Hlog : logOK = true ↔ up_to_date args (log n)).
  { unfold logOK, up_to_date. rewrite Hlg in *. rewrite Hlast. split.
    - intros. exists e. split; [done|]. lia.
    - intros (e' & [= <-] & ?). lia. }
  assert (Hcan : canVote = true ↔ currentTerm n < rv_Term args ∨ votedFor n = [] ∨ votedFor n = rv_CandidateId args).
  { unfold canVote. rewrite orb_true_iff, !bool_decide_eq_true, Hv.
    destruct (currentTerm n <? rv_Term args) eqn:Et; kv_bool; [intuition lia|]. intuition lia. }
  destruct (logOK && canVote) eqn:Eg.
  - destruct (persist_eq (set_persistent (currentTerm n1) (rv_CandidateId args) (log n1) n1)) as (d & fl & ->).
    eexists _, _. split; [done|]. cbn. split; [exact Hfr|]. rewrite Hlg, Hc, Ht, Hr. split_and!; try done; [lia|].
    apply andb_true_iff in Eg as [E1 E2]. split; [|done]. intros _. split_and!; [done|by apply Hlog|by apply Hcan].
  - eexists _, _. split; [done|]. cbn. split; [exact Hfr|]. rewrite Hlg, Hc, Ht, Hr, Hv. split_and!; try done; [lia|].
    split; [done|]. intros (_ & H1%Hlog & H2%Hcan). rewrite H1, H2 in Eg. done.
Qed.

Lemma maybeAdvance_commit n n' : maybeAdvanceCommitIndex n = Some n' → commitIndex n ≤ commitIndex n'.
Proof.
  unfold maybeAdvanceCommitIndex. destruct (log n) as [|e l] eqn:El.
  - destruct (_ <? _); [done|]. intros [= ->]. done.
  - destruct (advance_go n _) as [idx|] eqn:Ea; intros [= <-]; [|done].
    apply advance_go_spec in Ea as (? & _). cbn. lia.
Qed.

Lemma maybeAdvance_none n :
  log n ≠ [] → Zlen (log n) - 1 ≤ commitIndex n → maybeAdvanceCommitIndex n = Some n.
Proof.
  intros Hne Hc. unfold maybeAdvanceCommitIndex. destruct (log n) as [|e l] eqn:El; [done|].
  assert (0 < length (log n))%nat by (rewrite El; cbn; lia). rewrite <-El in *.
  destruct (advance_go n _) as [idx|] eqn:Ea; [|done]. apply advance_go_spec in Ea as (? & _). unfold Zlen in Hc. lia.
Qed.

Lemma TakeSnapshot_total i blob n : 0 ≤ i → is_Some (TakeSnapshot i blob n).
Proof.
  intros Hi. unfold TakeSnapshot. destruct (commitIndex n <? i); [by eexists|]. destruct (i <? snapshotIndex n); [by eexists|].
  destruct (Zlen (log n) <=? i) eqn:E; [by eexists|]. destruct (log_at_is_Some (log n) i) as (e & -> & _); [lia|].
  cbn [mbind option_bind]. destruct (writeSnapshot _ n) as [[|] n']; by eexists.
Qed.

(** *** One node under arbitrary messages *)

Definition sentinel : LogEntry := mkEntry 0 None.

(** Everything that can happen to a node, whatever the network delivers. *)
Inductive nstep (n : Node) : Node → Prop :=
| NElection now timeout n' cs : electionTick now timeout n = Some (n', cs) → nstep n n'
| NVoteReply term reply n' cs : onVoteReply term reply n = Some (n', cs) → nstep n n'
| NAppendReply peer args reply n' cs : onAppendReply peer args reply n = Some (n', cs) → nstep n n'
| NRequestVote now args r n' : HandleRequestVote now args n = Some (r, n') → nstep n n'
| NAppendEntries now args r n' : HandleAppendEntries now args n = Some (r, n') → nstep n n'
| NPropose command r n' cs : Propose command n = Some (r, n', cs) → nstep n n'
| NApplyWake : nstep n (applyWake n)
| NApplyOne m n' : lastApplied n < commitIndex n → applyOne n = Some (m, n') → nstep n n'
| NSnapshot i data err n' : TakeSnapshot i data n = Some (err, n') → nstep n n'.

(** The state file holds the term, the vote and the log; a node that never
    wrote one is in its initial state. *)
Definition mirrored (n : Node) : Prop :=
  statePath n = true ∧ faults n = [] ∧ log n ≠ [] ∧
  (disk n = Some (mkPS (currentTerm n) (votedFor n) (log n)) ∨
   (disk n = None ∧ snapDisk n = None ∧ currentTerm n = 0 ∧ votedFor n = [] ∧ log n = [sentinel])).

Lemma persist_mirrored n : statePath n = true → faults n = [] → log n ≠ [] → mirrored (persist n).2.
Proof. intros Hs Hf Hne. unfold persist, next_fault. rewrite Hs, Hf. cbn. by split_and!; [..|left]. Qed.

Lemma becomeFollower_mirrored t n : mirrored n → mirrored (becomeFollower t n).
Proof. intros (Hs & Hf & Hne & _). by apply persist_mirrored. Qed.

Lemma append_entries_not_nil l idx es l' : append_entries l idx es = Some l' → l ≠ [] → l' ≠ [].
Proof.
  revert l idx. induction es as [|e es IH]; intros l idx; cbn [append_entries]; [by intros [= ->]|].
  assert (Hsnoc : ∀ k : list LogEntry, k ++ [e] ≠ []) by (by intros []).
  destruct (_ <? _).
  - destruct (log_at l idx) as [x|]; [|done]. cbn [mbind option_bind].
    destruct (_ =? _); intros H ?; by eapply IH.
  - intros H ?. by eapply IH.
Qed.

Lemma becomeLeader_mirrored n n' cs : mirrored n → becomeLeader n = Some (n', cs) → mirrored n'.
Proof.
  unfold becomeLeader. intros Hm. destruct (lastLogIndexAndTerm _) as [[i t]|]; [|done]. cbn [mbind option_bind].
  destruct (broadcastAppendEntries _); [|done]. by intros [= <- <-].
Qed.

Lemma maybeAdvance_eq n n' : maybeAdvanceCommitIndex n = Some n' →
  n' = n ∨ ∃ c, n' = set_commit c (lastApplied n) true n.
Proof.
  unfold maybeAdvanceCommitIndex. destruct (log n).
  - destruct (_ <? _); [done|]. intros [= ->]. by left.
  - destruct (advance_go n _); intros [= <-]; eauto.
Qed.

Lemma nstep_mirrored n n' : nstep n n' → mirrored n → mirrored n'.
Proof.
  intros Hstep Hm. pose proof Hm as (Hs & Hf & Hne & _).
  destruct Hstep as [now tm n' cs H|term reply n' cs H|peer args reply n' cs H|now args r n' H|now args r n' H
    |cmd r n' cs H| |m n' _ H|i data err n' H].
  - unfold electionTick in H. destruct (_ && _); [|by injection H as <- <-].
    unfold startElection in H. destruct (lastLogIndexAndTerm _) as [[i t]|]; [|done]. injection H as <- <-.
    by apply (persist_mirrored (set_heartbeat now
      (set_persistent (u64 (currentTerm n + 1)) (id n) (log n) (set_role Candidate n)))).
  - unfold onVoteReply in H. destruct (_ <? _); [injection H as <- <-; by apply becomeFollower_mirrored|].
    destruct (_ || _); [by injection H as <- <-|]. destruct (rvr_VoteGranted reply); [|by injection H as <- <-].
    destruct (_ <=? _); [|by injection H as <- <-]. eapply becomeLeader_mirrored; [|exact H]. done.
  - unfold onAppendReply in H. destruct (_ <? _); [injection H as <- <-; by apply becomeFollower_mirrored|].
    destruct (_ || _); [by injection H as <- <-|]. destruct (aer_Success reply).
    + destruct (maybeAdvanceCommitIndex _) as [n1|] eqn:E; [|done]. injection H as <- <-.
      by apply maybeAdvance_eq in E as [->|[c ->]].
    + destruct (log n); [done|]. destruct (sendAppendEntries _ _); [|done]. by injection H as <- <-.
  - unfold HandleRequestVote in H. destruct (_ <? _); [by injection H as <- <-|].
    set (n1 := if _ <? _ then _ else n) in H.
    assert (Hm1 : mirrored n1) by (subst n1; destruct (_ <? _); [by apply becomeFollower_mirrored|done]).
    destruct (lastLogIndexAndTerm n1) as [[i t]|]; [|done]. cbn [mbind option_bind] in H.
    destruct (_ && _); injection H as <- <-; [|done]. destruct Hm1 as (Hs1 & Hf1 & Hne1 & _).
    by apply (persist_mirrored (set_persistent (currentTerm n1) (rv_CandidateId args) (log n1) n1)).
  - unfold HandleAppendEntries in H. destruct (_ <? _); [by injection H as <- <-|].
    pose proof (becomeFollower_mirrored (ae_Term args) n Hm) as Hm1. set (n1 := becomeFollower _ n) in *.
    destruct (_ <=? _); [by injection H as <- <-|].
    destruct (log_at _ _) as [e|]; [|done]. cbn [mbind option_bind] in H.
    destruct (negb _); [by injection H as <- <-|].
    destruct (append_entries _ _ _) as [l|] eqn:El; [|done]. cbn [mbind option_bind] in H.
    set (n2 := set_persistent _ _ l _) in H.
    set (n3 := match ae_Entries args with [] => n2 | _ => _ end) in H.
    assert (Hm3 : mirrored n3).
    { subst n3. destruct Hm1 as (Hs1 & Hf1 & Hne1 & Hd1). pose proof (append_entries_not_nil _ _ _ _ El Hne1).
      destruct (ae_Entries args); [|by apply persist_mirrored]. by injection El as <-. }
    destruct (_ <? ae_LeaderCommit args); by injection H as <- <-.
  - unfold Propose in H. destruct (negb _); [by injection H as <- <- <-|].
    destruct (broadcastAppendEntries _); [|done]. injection H as <- <- <-. apply persist_mirrored; [done..|]. by destruct (log n).
  - done.
  - unfold applyOne in H. destruct (log_at _ _); [|done]. by injection H as <- <-.
  - unfold TakeSnapshot in H. destruct (_ <? _); [by injection H as <- <-|]. destruct (_ <? _); [by injection H as <- <-|].
    destruct (_ <=? _); [by injection H as <- <-|]. destruct (log_at _ _) as [e|]; [|done]. cbn [mbind option_bind] in H.
    assert (Hw : writeSnapshot (mkSnap i (Term e) data) n =
      (false, if snapshotPath n then set_disk (disk n) (Some (mkSnap i (Term e) data)) [] n else n)).
    { unfold writeSnapshot, next_fault. rewrite Hf. by destruct (snapshotPath n). }
    rewrite Hw in H. injection H as H.
    assert (Hsnd : ∀ p : bool * Node, p = (err, n') → n' = p.2) by (by intros ? ->). rewrite (Hsnd _ H).
    apply persist_mirrored; by destruct (snapshotPath n).
Qed.

(** The node a restart builds from the files of [n]. *)
Definition restart (fl : list bool) (n : Node) : option Node :=
  NewNode (id n) (peers n) (statePath n) (snapshotPath n) (disk n) (snapDisk n) false false fl.

(** A snapshot of a log that is committed to its end. *)
Lemma TakeSnapshot_whole n i data n1 :
  1 ≤ i → commitIndex n = i → Zlen (log n) = i + 1 → snapshotIndex n ≤ i → faults n = [] →
  TakeSnapshot i data n = Some (false, n1) →
  ∃ e, log n1 = [mkEntry (Term e) None] ∧ commitIndex n1 = commitIndex n ∧ role n1 = role n ∧
    currentTerm n1 = currentTerm n ∧ peers n1 = peers n ∧ nextIndex n1 = nextIndex n.
Proof.
  intros Hi Hc Hlen Hsi Hf HT. unfold TakeSnapshot in HT.
  replace (commitIndex n <? i) with false in HT by lia. replace (i <? snapshotIndex n) with false in HT by lia.
  replace (Zlen (log n) <=? i) with false in HT by lia.
  destruct (log_at_is_Some (log n) i) as (e & He & _); [lia|]. rewrite He in HT. cbn [mbind option_bind] in HT.
  unfold writeSnapshot, next_fault in HT. rewrite Hf in HT. exists e.
  assert (Hd : drop (Z.to_nat (i + 1)) (log n) = []) by (apply skipn_all2; unfold Zlen in Hlen; lia).
  destruct (snapshotPath n); cbn [log set_disk] in HT; rewrite Hd in HT; injection HT as HT;
    (edestruct persist_eq as (d & fl & Hpe); rewrite HT in Hpe; cbn in Hpe; subst n1; done).
Qed.

(** A leader that believes a peer to be past the end of its log panics. *)
Lemma broadcast_panics n p nx :
  p ∈ peers n → nextIndex n !! p = Some nx → 1 ≤ nx → Zlen (log n) < nx → broadcastAppendEntries n = None.
Proof.
  intros Hp Hnx H1 Hlen. destruct (broadcastAppendEntries n) as [cs|] eqn:E; [|done]. exfalso.
  apply mapM_Some in E. apply list_elem_of_lookup in Hp as [k Hk]. destruct (Forall2_lookup_l _ _ _ _ _ E Hk) as (x & _ & Hs).
  unfold sendAppendEntries in Hs. rewrite Hnx in Hs. cbn [default] in Hs. unfold Datatypes.id in Hs.
  replace (nx <? 1) with false in Hs by lia. unfold log_at in Hs.
  by replace ((0 <=? nx - 1) && (nx - 1 <? Zlen (log n))) with false in Hs by lia.
Qed.

(** ** Properties *)

Definition entry (t : Z) (c : bytes) : LogEntry := mkEntry t (Some c).

(** A node of a three-member cluster with a given term and log. *)
Definition ex_node (t : Z) (l : list LogEntry) : Node :=
  set_persistent t [] l
    (mkNode (bs "a") [bs "b"; bs "c"] true false 0 0 0 [] [] 0 0 Follower [] 0 ∅ ∅ false ∅ None None []).


Definition ex_ae : AppendEntriesArgs :=
  mkAE 3 (bs "b") 1 1 [entry 1 (bs "x"); entry 3 (bs "y")] 2.
Definition ex_follower : Node :=
  ex_node 2 [sentinel; entry 1 (bs "w"); entry 1 (bs "x"); entry 2 (bs "z"); entry 2 (bs "z")].


(** AppendEntries is idempotent. Delivering an accepted request again is
    accepted with the same reply and leaves the log and the commit index as
    they are. *)
Theorem raft_append_idempotent now now' args n r n1 :
  log_ok (log n) → ae_fits args → currentTerm n ≤ ae_Term args →
  HandleAppendEntries now args n = Some (r, n1) → aer_Success r = true →
  ∃ n2, HandleAppendEntries now' args n1 = Some (r, n2) ∧
    log n2 = log n1 ∧ commitIndex n2 = commitIndex n1 ∧ currentTerm n2 = currentTerm n1.
Proof.
  intros Hl Hfit Ht HH Hs.
  destruct (HandleAppendEntries_cases now args n Hl Hfit Ht) as (r1 & n1' & HH1 & _ & Hct & _ & _ & Hrt & Hcases).
  rewrite HH in HH1. injection HH1 as <- <-.
  destruct Hcases as [(_ & _ & _ & Hs' & _)|[(t & _ & _ & _ & _ & Hs' & _)|(Hat & Hlog & Hcom & _)]]; [congruence..|].
  assert (Hlt : ae_PrevLogIndex args < Zlen (log n)).
  { destruct (log n !! _) eqn:Elk; [|done]. apply lookup_lt_Some in Elk. destruct Hfit. unfold Zlen. lia. }
  destruct (accepted_terms args (log n) Hl Hfit Hlt) as (Hpre & _ & Hlen).
  assert (Hl1 : log_ok (log n1)) by (rewrite Hlog; by apply accepted_ok).
  destruct (HandleAppendEntries_cases now' args n1 Hl1 Hfit) as (r2 & n2 & HH2 & _ & Hct2 & _ & _ & Hrt2 & Hcases2); [lia|].
  assert (Hat1 : Term <$> log n1 !! Z.to_nat (ae_PrevLogIndex args) = Some (ae_PrevLogTerm args)).
  { by rewrite Hlog, Hpre. }
  destruct Hcases2 as [(Hge & _)|[(t & Hat' & Hne & _)|(_ & Hlog2 & Hcom2 & Hs2)]].
  - destruct Hlen as [Hlen _]. rewrite <-Hlog in Hlen. pose proof (Zlen_nonneg (ae_Entries args)). lia.
  - congruence.
  - assert (r2 = r) as -> by (rewrite (HandleAppendEntries_success _ _ _ _ _ HH Hs), (HandleAppendEntries_success _ _ _ _ _ HH2 Hs2); congruence).
    exists n2. split_and!; [done| |..|congruence].
    + rewrite Hlog2, Hlog. by apply accepted_idem.
    + rewrite Hcom2, Hcom. unfold new_commit. destruct (commitIndex n <? _) eqn:E1; kv_bool.
      * destruct (Z.min _ _ <? _); [done|done].
      * by replace (commitIndex n <? ae_LeaderCommit args) with false by lia.
Qed.

Definition ex_appended : Node :=
  match HandleAppendEntries 7 ex_ae ex_follower with Some (_, n) => n | None => ex_follower end.

Lemma raft_append_idempotent_witness :
  ∃ n2, HandleAppendEntries 8 ex_ae ex_appended = Some (mkAEReply 3 true 0 0, n2) ∧
    log n2 = log ex_appended ∧ commitIndex n2 = commitIndex ex_appended ∧ currentTerm n2 = currentTerm ex_appended.
Proof.
  apply (raft_append_idempotent 7 8 ex_ae ex_follower (mkAEReply 3 true 0 0) ex_appended).
  - split; vm_compute; reflexivity.
  - split; vm_compute; [discriminate|reflexivity].
  - vm_compute. discriminate.
  - vm_compute. reflexivity.
  - reflexivity.
Defined.

(** What a rejecting follower reports. *)
Definition hint_ok (args : AppendEntriesArgs) (l : list LogEntry) (r : AppendEntriesReply) : Prop :=
  if aer_ConflictTerm r =? 0 then aer_ConflictIndex r ≤ ae_PrevLogIndex args
  else
    aer_ConflictIndex r ≤ ae_PrevLogIndex args ∧
    (∀ j, aer_ConflictIndex r ≤ Z.of_nat j ≤ ae_PrevLogIndex args →
       Term <$> l !! j = Some (aer_ConflictTerm r)) ∧
    (1 < aer_ConflictIndex r →
       Term <$> l !! Z.to_nat (aer_ConflictIndex r - 1) ≠ Some (aer_ConflictTerm r)).

Lemma hint_correct now args n r n' :
  log_ok (log n) → ae_fits args → currentTerm n ≤ ae_Term args →
  HandleAppendEntries now args n = Some (r, n') → aer_Success r = false →
  hint_ok args (log n) r ∧ (1 ≤ ae_PrevLogIndex args → 1 ≤ aer_ConflictIndex r).
Proof.
  intros Hl Hfit Ht HH Hs.
  destruct (HandleAppendEntries_cases now args n Hl Hfit Ht) as (r1 & n1 & HH1 & _ & _ & _ & _ & _ & Hcases).
  rewrite HH in HH1. injection HH1 as <- <-. unfold hint_ok, log_ok, ae_fits in *.
  destruct Hcases as [(Hle & _ & _ & _ & Hci & Hct)|[(t & Hat & Hne & _ & _ & _ & Hci & Hct)|(_ & _ & _ & Hs')]]; [| |congruence].
  - rewrite Hct, Hci. cbn. split; lia.
  - destruct (conflict_go_spec (log n) t (Z.to_nat (ae_PrevLogIndex args)) Hat) as (H1 & H2 & H3 & H4).
    rewrite Hct, Hci. split; [|lia]. destruct (t =? 0); [lia|]. split_and!; [lia| |].
    + intros j Hj. apply H3. lia.
    + intros Hgt. replace (Z.to_nat _) with (pred (conflict_go (log n) t (Z.to_nat (ae_PrevLogIndex args)))) by lia.
      apply H4. lia.
Qed.

(** A leader whose append is rejected in its own term retries at a smaller
    index, if it has no entry of the reported conflict term behind the point
    of conflict; RaftSafety shows that it has none. *)
Lemma backup_progress now peer args ldr n r n' :
  log_ok (log n) → log_ok (log ldr) → ae_fits args → 1 ≤ ae_PrevLogIndex args < Zlen (log ldr) →
  role ldr = Leader → ae_Term args = currentTerm ldr →
  Term <$> log ldr !! Z.to_nat (ae_PrevLogIndex args) = Some (ae_PrevLogTerm args) →
  currentTerm n ≤ ae_Term args → HandleAppendEntries now args n = Some (r, n') → aer_Success r = false →
  (∀ j, ae_PrevLogIndex args < Z.of_nat j → aer_ConflictTerm r ≠ 0 → Term <$> log ldr !! j ≠ Some (aer_ConflictTerm r)) →
  ∃ ldr' args', onAppendReply peer args r ldr = Some (ldr', [CallAppend peer args']) ∧
    log ldr' = log ldr ∧ 0 ≤ ae_PrevLogIndex args' < ae_PrevLogIndex args.
Proof.
  intros Hl Hll Hfit Hp Hro Hterm Hat Ht HH Hs Hno.
  destruct (hint_correct now args n r n' Hl Hfit Ht HH Hs) as [Hh Hci].
  destruct (HandleAppendEntries_cases now args n Hl Hfit Ht) as (r1 & n1 & HH1 & _ & _ & _ & _ & Hrt & Hcases).
  rewrite HH in HH1. injection HH1 as <- <-.
  unfold onAppendReply. rewrite Hrt, Hterm, Z.ltb_irrefl, Z.eqb_refl, Hro, Hs, bool_decide_eq_true_2 by done. cbn [negb orb].
  set (b := backup ldr peer r).
  assert (Hb : 1 ≤ b ≤ ae_PrevLogIndex args).
  { subst b. unfold backup, hint_ok, log_ok in *. destruct (aer_ConflictTerm r =? 0) eqn:Ec; kv_bool; cbn [negb].
    - replace (0 <? aer_ConflictIndex r) with true by lia. lia.
    - destruct (find_term_spec (log ldr) (aer_ConflictTerm r) (length (log ldr) - 1)) as (H1 & H2 & H3).
      set (f := find_term _ _ _) in *. destruct (0 <? Z.of_nat f) eqn:Ef; kv_bool; [|lia].
      specialize (H2 ltac:(lia)). unfold Zlen in Hll. rewrite u64_id by lia.
      assert (Z.of_nat f ≠ ae_PrevLogIndex args) as Hne.
      { intros E. rewrite <-E, Nat2Z.id, H2 in Hat. injection Hat as E2. destruct Hcases as [Hc|[Hc|Hc]].
        - destruct Hc as (_ & _ & _ & _ & _ & ?). congruence.
        - destruct Hc as (t & _ & Hne & _ & _ & _ & _ & ?). congruence.
        - destruct Hc as (_ & _ & _ & ?). congruence. }
      destruct (decide (ae_PrevLogIndex args < Z.of_nat f)) as [Hgt|]; [|lia]. by destruct (Hno f Hgt Ec). }
  clearbody b. destruct (log ldr) as [|e0 l0] eqn:El; [unfold log_ok, Zlen in Hll; cbn in Hll; lia|]. rewrite <-El in *. clear e0 l0 El.
  unfold sendAppendEntries. cbn [nextIndex set_indices log]. rewrite lookup_insert_eq.
  cbn [default]. unfold Datatypes.id. replace (b <? 1) with false by lia.
  destruct (log_at_is_Some (log ldr) (b - 1)) as (e & -> & _); [lia|]. cbn [mbind option_bind].
  eexists _, _. split; [done|]. split; [done|]. cbn. lia.
Qed.

Definition ex_leader : Node :=
  set_role Leader (ex_node 4 [sentinel; entry 1 (bs "w"); entry 1 (bs "x"); entry 3 (bs "y"); entry 4 (bs "z")]).
(** An index the leader may commit: an entry of its own term, held by a
    majority. *)
Definition committable (n : Node) (j : Z) : Prop :=
  0 < j ∧ Term <$> log n !! Z.to_nat j = Some (currentTerm n) ∧ Zlen (peers n) + 1 < replicas n j * 2.

(** C33: The commit rule. [maybeAdvanceCommitIndex] never panics on a node's
    log. It moves the commit index to the largest index above it that holds an
    entry of the current term and is replicated on a majority, and changes
    nothing when there is none. *)
Theorem raft_commit_rule n :
  log_ok (log n) → 0 ≤ commitIndex n →
  ∃ n', maybeAdvanceCommitIndex n = Some n' ∧ commitIndex n ≤ commitIndex n' ∧
    (commitIndex n < commitIndex n' → committable n (commitIndex n') ∧ commitIndex n' < Zlen (log n)) ∧
    (∀ j, committable n j → j ≤ commitIndex n').
Proof.
  intros Hl Hc. unfold maybeAdvanceCommitIndex.
  destruct (log n) as [|e0 l0] eqn:El; [unfold log_ok, Zlen in Hl; cbn in Hl; lia|]. rewrite <-El in *. clear e0 l0 El.
  destruct (advance_go_spec n (length (log n) - 1)) as [H1 H2].
  assert (Hmax : ∀ j, committable n j → commitIndex n < j → ∃ idx, advance_go n (length (log n) - 1) = Some idx ∧ j ≤ idx).
  { intros j (Hj & Hjt & Hjm) Hgt. apply H2; try done. split; [done|].
    destruct (log n !! Z.to_nat j) eqn:Ej; [|done]. apply lookup_lt_Some in Ej. lia. }
  destruct (advance_go n _) as [idx|] eqn:Ea.
  - destruct (H1 idx eq_refl) as (Hr & Hrt & Hrm). unfold log_ok, Zlen in *.
    eexists. split; [done|]. cbn. split_and!; [lia| |].
    + intros _. split; [by split_and!; [lia|..]|lia].
    + intros j Hj. destruct (decide (commitIndex n < j)) as [Hgt|]; [|lia].
      destruct (Hmax j Hj Hgt) as (i & [= <-] & ?). done.
  - exists n. split_and!; [done|lia|lia|]. intros j Hj. destruct (decide (commitIndex n < j)) as [Hgt|]; [|lia].
    destruct (Hmax j Hj Hgt) as (i & ? & _). done.
Qed.

Definition ex_commit : Node := set_indices ∅ {[bs "b" := 4; bs "c" := 2]} ex_leader.

Lemma raft_commit_rule_witness :
  ∃ n', maybeAdvanceCommitIndex ex_commit = Some n' ∧ commitIndex ex_commit ≤ commitIndex n' ∧
    (commitIndex ex_commit < commitIndex n' → committable ex_commit (commitIndex n') ∧ commitIndex n' < Zlen (log ex_commit)) ∧
    (∀ j, committable ex_commit j → j ≤ commitIndex n').
Proof. apply (raft_commit_rule ex_commit); [split; vm_compute; reflexivity|vm_compute; discriminate]. Defined.

(** C34: The vote rule. A vote is granted exactly when the request is not stale,
    the candidate's log is at least as up to date as ours, and we have not
    voted for another candidate in the request's term. The reply carries our
    new term, and the log is unchanged. *)
Theorem raft_vote_rule now args n :
  log_ok (log n) →
  ∃ r n', HandleRequestVote now args n = Some (r, n') ∧
    (rvr_VoteGranted r = true ↔
       currentTerm n ≤ rv_Term args ∧
       (∃ e, last (log n) = Some e ∧
          (Term e < rv_LastLogTerm args ∨
           (rv_LastLogTerm args = Term e ∧ Zlen (log n) - 1 ≤ rv_LastLogIndex args))) ∧
       (currentTerm n < rv_Term args ∨ votedFor n = [] ∨ votedFor n = rv_CandidateId args)) ∧
    (rvr_VoteGranted r = true → votedFor n' = rv_CandidateId args ∧ currentTerm n' = rv_Term args) ∧
    rvr_Term r = Z.max (currentTerm n) (rv_Term args) ∧ currentTerm n' = rvr_Term r ∧ log n' = log n.
Proof.
  intros Hl. destruct (HandleRequestVote_cases now args n Hl) as (r & n' & HH & _ & Hlog & _ & Ht & Hrt & _ & Hg & Hv).
  exists r, n'. split; [done|]. split; [exact Hg|]. split_and!; try congruence.
  - intros Hgr. rewrite Hgr in Hv. apply Hg in Hgr as (? & _). split; [done|lia].
Qed.

Definition ex_candidate : RequestVoteArgs := mkRV 3 (bs "b") 4 2.

Lemma raft_vote_rule_witness :
  ∃ r n', HandleRequestVote 7 ex_candidate ex_follower = Some (r, n') ∧
    (rvr_VoteGranted r = true ↔
       currentTerm ex_follower ≤ rv_Term ex_candidate ∧
       (∃ e, last (log ex_follower) = Some e ∧
          (Term e < rv_LastLogTerm ex_candidate ∨
           (rv_LastLogTerm ex_candidate = Term e ∧ Zlen (log ex_follower) - 1 ≤ rv_LastLogIndex ex_candidate))) ∧
       (currentTerm ex_follower < rv_Term ex_candidate ∨ votedFor ex_follower = [] ∨
          votedFor ex_follower = rv_CandidateId ex_candidate)) ∧
    (rvr_VoteGranted r = true → votedFor n' = rv_CandidateId ex_candidate ∧ currentTerm n' = rv_Term ex_candidate) ∧
    rvr_Term r = Z.max (currentTerm ex_follower) (rv_Term ex_candidate) ∧ currentTerm n' = rvr_Term r ∧
    log n' = log ex_follower.
Proof. apply (raft_vote_rule 7 ex_candidate ex_follower). split; vm_compute; reflexivity. Defined.


Definition ex_fresh : Node :=
  mkNode (bs "a") [bs "b"; bs "c"] true true 0 0 0 [] [sentinel] 0 0 Follower [] 0 ∅ ∅ false ∅ None None [].

Definition ex_voted : Node :=
  match HandleRequestVote 7 (mkRV 5 (bs "c") 0 0) ex_fresh with Some (_, n) => n | None => ex_fresh end.


(** C40: Snapshots make a leader panic. A snapshot shortens the log, and the
    indices of the peers stay as they were. Let a leader that has committed its
    whole log, with a peer that has all of it, take a snapshot of it. The next
    heartbeat reads the entry before the peer's next index, which is now past
    the end of the log, and panics; with at least two entries in the snapshot
    so does the next proposal. *)
Theorem raft_snapshot_panics n i data n1 p command :
  1 ≤ i → commitIndex n = i → Zlen (log n) = i + 1 → snapshotIndex n ≤ i → faults n = [] →
  role n = Leader → p ∈ peers n → nextIndex n !! p = Some (i + 1) →
  TakeSnapshot i data n = Some (false, n1) →
  heartbeatTick n1 = None ∧ (2 ≤ i → Propose command n1 = None).
Proof.
  intros Hi Hc Hlen Hsi Hf Hro Hp Hnx HT.
  destruct (TakeSnapshot_whole n i data n1 Hi Hc Hlen Hsi Hf HT) as (e & Hl1 & _ & Hr1 & _ & Hp1 & Hn1).
  split.
  - unfold heartbeatTick. rewrite Hr1, Hro, bool_decide_eq_true_2 by done.
    apply (broadcast_panics n1 p (i + 1)); [by rewrite Hp1|by rewrite Hn1|lia|]. rewrite Hl1. unfold Zlen. cbn. lia.
  - intros Hi2. unfold Propose. rewrite Hr1, Hro, bool_decide_eq_true_2 by done. cbn [negb]. set (n2 := set_indices _ _ _).
    destruct (persist_eq n2) as (d & fl & ->). rewrite (broadcast_panics _ p (i + 1)); [done|..]; cbn; [by rewrite Hp1|by rewrite Hn1|lia|].
    rewrite Hl1. unfold Zlen. cbn. lia.
Qed.

Definition ex_snap_leader : Node :=
  mkNode (bs "a") [bs "b"; bs "c"] true true 0 0 1 (bs "a") [sentinel; entry 1 (bs "x"); entry 1 (bs "y")] 2 2 Leader (bs "a") 0
    {[bs "b" := 3; bs "c" := 1]} {[bs "b" := 2; bs "c" := 0]} false ∅ None None [].

Lemma raft_snapshot_panics_witness :
  ∃ n1, TakeSnapshot 2 (bs "{}") ex_snap_leader = Some (false, n1) ∧ heartbeatTick n1 = None ∧ Propose (Some (bs "z")) n1 = None.
Proof.
  eexists. split; [reflexivity|].
  match goal with |- heartbeatTick ?m = None ∧ _ =>
    destruct (raft_snapshot_panics ex_snap_leader 2 (bs "{}") m (bs "b") (Some (bs "z"))) as [H1 H2];
      try reflexivity; try (vm_compute; discriminate) end.
  - apply list_elem_of_here.
  - split; [exact H1|]. apply H2. lia.
Defined.

(** Snapshots stall commitment. A snapshot shortens the log but leaves the
    commit index and the indices of the entries behind it as they were. After
    a snapshot of a fully committed log, a proposal that does not panic, since
    no peer has come as far, is given index 1 again, and the leader commits nothing, whatever its followers acknowledge, until
    the log has grown past the old commit index once more. *)
Theorem raft_snapshot_stall n i data n1 command r n2 cs mt n3 :
  log_ok (log n) → 1 ≤ i → commitIndex n = i → Zlen (log n) = i + 1 → snapshotIndex n ≤ i → faults n = [] →
  TakeSnapshot i data n = Some (false, n1) → role n = Leader →
  Propose command n1 = Some (r, n2, cs) →
  maybeAdvanceCommitIndex (set_indices (nextIndex n2) mt n2) = Some n3 →
  r = (1, currentTerm n, true) ∧ Zlen (log n2) = 2 ∧ commitIndex n3 = i.
Proof.
  intros Hl Hi Hc Hlen Hsi Hf HT Hro HP HM.
  destruct (TakeSnapshot_whole n i data n1 Hi Hc Hlen Hsi Hf HT) as (e & Hl1 & Hc1 & Hr1 & Ht1 & _).
  unfold Propose in HP. rewrite Hr1, Hro, Hl1, Ht1 in HP. cbn [negb bool_decide] in HP.
  rewrite bool_decide_eq_true_2 in HP by done. cbn [negb] in HP.
  destruct (broadcastAppendEntries _); [|done]. injection HP as <- <- <-.
  rewrite maybeAdvance_none in HM; [injection HM as <-|..].
  all: edestruct persist_eq as (d & fl & ->); cbn [log set_disk set_indices set_persistent commitIndex]; try done.
  - cbn [currentTerm set_disk set_indices set_persistent]. rewrite ?Ht1. by split_and!; [..|rewrite Hc1].
  - rewrite Hc1, Hc. vm_compute (Zlen _). lia.
Qed.

Definition ex_snap : Node := set_commit 4 4 false ex_leader.
Definition ex_snapped : Node := match TakeSnapshot 4 [] ex_snap with Some (_, n) => n | None => ex_snap end.
Definition ex_proposed : Node :=
  match Propose (Some (bs "new")) ex_snapped with Some (_, n, _) => n | None => ex_snapped end.

Lemma raft_snapshot_stall_witness :
  ∃ cs n3, Propose (Some (bs "new")) ex_snapped = Some ((1, 4, true), ex_proposed, cs) ∧
    maybeAdvanceCommitIndex (set_indices (nextIndex ex_proposed) {[bs "b" := 1; bs "c" := 1]} ex_proposed) = Some n3 ∧
    (1, 4, true) = (1, currentTerm ex_snap, true) ∧ Zlen (log ex_proposed) = 2 ∧ commitIndex n3 = 4.
Proof.
  eexists _, _. split; [reflexivity|]. split; [reflexivity|].
  eapply (raft_snapshot_stall ex_snap 4 [] ex_snapped (Some (bs "new")) _ ex_proposed _ {[bs "b" := 1; bs "c" := 1]});
    try reflexivity; try (split; vm_compute; reflexivity); vm_compute; discriminate.
Defined.
