(* ===== verification/RaftCluster.v ===== *)
(** * RaftCluster: the nodes of internal/raft exchanging RPCs

    A cluster is a set of nodes and the RPCs under way. Every RPC is a
    goroutine of its caller: the request is delivered to the callee at most
    once, the reply comes back at most once, and either may be lost, as with
    the transports of internal/raft. Nodes crash and restart from their state
    files. The state machine may take snapshots at any time. The model covers every
    interleaving of these events. *)
From stdpp Require Import prelude gmap list.
From Stdlib Require Import ZArith Lia Strings.Byte.
From S2P Require Import Prelude RaftNode.
Local Open Scope Z_scope.

(** ** State and events *)

(** A request under way, with whether the calling process still waits for it,
    or a reply on its way back to the caller. *)
Inductive rpc :=
| VoteReq (live : bool) (from to : bytes) (args : RequestVoteArgs)
| VoteRep (from to : bytes) (args : RequestVoteArgs) (reply : RequestVoteReply)
| AppendReq (live : bool) (from to : bytes) (args : AppendEntriesArgs)
| AppendRep (from to : bytes) (args : AppendEntriesArgs) (reply : AppendEntriesReply).

Record Cluster := mkCluster {
  nodes : gmap bytes Node;
  net : list rpc;
  ballots : list (bytes * Z * bytes);   (* every vote given: voter, term, candidate *)
  applied : list (bytes * ApplyMsg)     (* every message sent to an apply channel *)
}.

Inductive event :=
| EElection (i : bytes) (now timeout : Z)   (* the election timer of [i] fires *)
| EHeartbeat (i : bytes)                    (* the heartbeat ticker of [i] fires *)
| EPropose (i : bytes) (command : option bytes)
| EDeliver (k : nat) (now : Z)              (* the [k]-th RPC arrives *)
| EDrop (k : nat)                           (* the [k]-th RPC is lost *)
| EApply (i : bytes)                        (* one iteration of the apply loop of [i] *)
| ERestart (i : bytes)                      (* [i] crashes and starts again *)
| ESnapshot (i : bytes) (upTo : Z) (blob : bytes).  (* the state machine of [i] calls [TakeSnapshot] *)

Definition to_rpc (i : bytes) (x : call) : rpc :=
  match x with
  | CallVote peer args => VoteReq true i peer args
  | CallAppend peer args => AppendReq true i peer args
  end.

(** The state with node [i] changed, [rest] of the RPCs kept and new calls
    started by [i]. *)
Definition update (c : Cluster) (i : bytes) (n : Node) (rest : list rpc) (cs : list call)
    (bs : list (bytes * Z * bytes)) : Cluster :=
  mkCluster (<[i := n]> (nodes c)) (rest ++ (to_rpc i <$> cs)) (ballots c ++ bs) (applied c).

Definition enabled {A} (o : option A) : outcome () A :=
  match o with Some a => Ret a | None => Err () end.

(** A crash of [i]: its goroutines are gone, requests already sent may still
    arrive. *)
Definition orphan (i : bytes) (m : rpc) : option rpc :=
  match m with
  | VoteReq live from to args => Some (VoteReq (live && negb (bool_decide (from = i))) from to args)
  | AppendReq live from to args => Some (AppendReq (live && negb (bool_decide (from = i))) from to args)
  | VoteRep from _ _ _ | AppendRep from _ _ _ => if bool_decide (from = i) then None else Some m
  end.

Definition deliver (c : Cluster) (m : rpc) (rest : list rpc) (now : Z) : outcome () Cluster :=
  match m with
  | VoteReq live from to args =>
      n ← enabled (nodes c !! to);
      '(reply, n') ← or_panic (HandleRequestVote now args n);
      Ret (update c to n' (rest ++ (if live then [VoteRep from to args reply] else [])) []
             (if rvr_VoteGranted reply then [(to, rv_Term args, rv_CandidateId args)] else []))
  | AppendReq live from to args =>
      n ← enabled (nodes c !! to);
      '(reply, n') ← or_panic (HandleAppendEntries now args n);
      Ret (update c to n' (rest ++ (if live then [AppendRep from to args reply] else [])) [] [])
  | VoteRep from to args reply =>
      n ← enabled (nodes c !! from);
      '(n', cs) ← or_panic (onVoteReply (rv_Term args) reply n);
      Ret (update c from n' rest cs [])
  | AppendRep from to args reply =>
      n ← enabled (nodes c !! from);
      '(n', cs) ← or_panic (onAppendReply to args reply n);
      Ret (update c from n' rest cs [])
  end.

(** One event. [Err] means that the event cannot happen in this state; terms
    and log lengths stay within the machine's limits. *)
Definition step (ev : event) (c : Cluster) : outcome () Cluster :=
  match ev with
  | EElection i now timeout =>
      n ← enabled (nodes c !! i);
      _ ← fail_if (2 ^ 64 <=? currentTerm n + 1) ();
      '(n', cs) ← or_panic (electionTick now timeout n);
      Ret (update c i n' (net c) cs
             (if bool_decide (currentTerm n' = currentTerm n) then [] else [(i, currentTerm n', i)]))
  | EHeartbeat i =>
      n ← enabled (nodes c !! i);
      cs ← or_panic (heartbeatTick n);
      Ret (update c i n (net c) cs [])
  | EPropose i command =>
      n ← enabled (nodes c !! i);
      _ ← fail_if (2 ^ 62 <=? Zlen (log n) + 1) ();
      '(_, n', cs) ← or_panic (Propose command n);
      Ret (update c i n' (net c) cs [])
  | EDeliver k now =>
      m ← enabled (net c !! k);
      deliver c m (delete k (net c)) now
  | EDrop k =>
      _ ← enabled (net c !! k);
      Ret (mkCluster (nodes c) (delete k (net c)) (ballots c) (applied c))
  | EApply i =>
      n ← enabled (nodes c !! i);
      _ ← fail_if (commitIndex n <=? lastApplied n) ();
      '(m, n') ← or_panic (applyOne n);
      Ret (mkCluster (<[i := n']> (nodes c)) (net c) (ballots c)
             (applied c ++ match m with Some m => [(i, m)] | None => [] end))
  | ERestart i =>
      n ← enabled (nodes c !! i);
      n' ← enabled (restart [] n);
      Ret (mkCluster (<[i := n']> (nodes c)) (omap (orphan i) (net c)) (ballots c) (applied c))
  | ESnapshot i upTo blob =>
      n ← enabled (nodes c !! i);
      _ ← fail_if (upTo <? 0) ();
      '(_, n') ← or_panic (TakeSnapshot upTo blob n);
      Ret (mkCluster (<[i := n']> (nodes c)) (net c) (ballots c) (applied c))
  end.

Fixpoint run (evs : list event) (c : Cluster) : outcome () Cluster :=
  match evs with
  | [] => Ret c
  | ev :: evs => c ← step ev c; run evs c
  end.

(** Snapshots shorten a log without shifting the indices kept elsewhere; what
    holds of runs holds of those that take none. *)
Definition snapshots (ev : event) : bool := match ev with ESnapshot _ _ _ => true | _ => false end.
Definition no_snapshots (evs : list event) : Prop := Forall (λ ev, snapshots ev = false) evs.

(** A fresh cluster with state files that can be written. *)
Definition fresh (ids : list bytes) (i : bytes) : Node :=
  mkNode i (filter (λ j : bytes, j ≠ i) ids) true false 0 0 0 [] [sentinel] 0 0 Follower [] 0 ∅ ∅ false ∅ None None [].
Definition init (ids : list bytes) : Cluster :=
  mkCluster (list_to_map ((λ i : bytes, (i, fresh ids i)) <$> ids)) [] [] [].

Definition reachable (ids : list bytes) (c : Cluster) : Prop := ∃ evs, run evs (init ids) = Ret c.


(** ** Invariants of the nodes and of the messages under way *)

Definition node_inv (ids : list bytes) (i : bytes) (n : Node) : Prop :=
  id n = i ∧ peers n = filter (λ j : bytes, j ≠ i) ids ∧ snapshotPath n = false ∧ mirrored n ∧
  Zlen (log n) < 2 ^ 62 ∧ 0 ≤ currentTerm n < 2 ^ 64 ∧ 0 ≤ commitIndex n ∧
  (role n = Leader → ∀ p : bytes,
     0 ≤ default 0 (nextIndex n !! p) ≤ Zlen (log n) ∧ 0 ≤ default 0 (matchIndex n !! p) < Zlen (log n)).

(** What the sender's state says about its AppendEntries requests: a leader's
    log covers the requests of its term, and a candidate has sent none. *)
Definition args_ok (n : Node) (args : AppendEntriesArgs) : Prop :=
  0 ≤ ae_PrevLogIndex args ∧ ae_PrevLogIndex args + Zlen (ae_Entries args) + 1 < 2 ^ 62 ∧
  0 ≤ ae_Term args ≤ currentTerm n ∧
  (ae_Term args = currentTerm n → role n ≠ Candidate ∧
     (role n = Leader → ae_PrevLogIndex args + Zlen (ae_Entries args) < Zlen (log n))).

(** A rejection in the request's own term carries a usable hint. *)
Definition reply_ok (args : AppendEntriesArgs) (r : AppendEntriesReply) : Prop :=
  aer_Term r < 2 ^ 64 ∧
  (aer_Term r = ae_Term args → aer_Success r = false → 0 ≤ aer_ConflictIndex r ≤ ae_PrevLogIndex args) ∧
  ae_Term args ≤ aer_Term r.

Definition sender (m : rpc) : bytes :=
  match m with
  | VoteReq _ from _ _ | VoteRep from _ _ _ | AppendReq _ from _ _ | AppendRep from _ _ _ => from
  end.

Definition msg_ok (n : Node) (m : rpc) : Prop :=
  match m with
  | VoteReq _ _ _ args => 0 ≤ rv_Term args ≤ currentTerm n
  | VoteRep _ _ args reply => 0 ≤ rv_Term args ≤ currentTerm n ∧ 0 ≤ rvr_Term reply < 2 ^ 64
  | AppendReq _ _ _ args => args_ok n args
  | AppendRep _ _ args reply => args_ok n args ∧ reply_ok args reply
  end.

(** How a node may change: its term does not decrease, and within a term it
    can only go from candidate to leader, or from either to follower, and a
    leader's log does not shrink. *)
Definition evolves (n n' : Node) : Prop :=
  currentTerm n ≤ currentTerm n' ∧
  (currentTerm n' = currentTerm n →
     (role n' = Candidate → role n = Candidate) ∧
     (role n' = Leader → role n = Candidate ∨ (role n = Leader ∧ Zlen (log n) ≤ Zlen (log n')))).

Lemma evolves_refl n : evolves n n.
Proof. split; [lia|]. intros _. split; [done|]. intros. right. split; [done|lia]. Qed.

Lemma evolves_follower n n' : currentTerm n ≤ currentTerm n' → role n' = Follower → evolves n n'.
Proof. intros Ht Hr. split; [done|]. intros _. by rewrite Hr. Qed.

Lemma msg_ok_evolves n n' m : evolves n n' → msg_ok n m → msg_ok n' m.
Proof.
  intros [Ht Hrole].
  assert (Hargs : ∀ args, args_ok n args → args_ok n' args).
  { intros args (H1 & H2 & H3 & H4). split_and!; try done; [lia..|]. intros Heq.
    assert (currentTerm n' = currentTerm n) as Hsame by lia. destruct (Hrole Hsame) as [Hc Hl].
    destruct H4 as [Hn4 Hl4]; [lia|]. split; [auto|]. intros Hld. destruct (Hl Hld) as [|[Hld' Hlen]]; [done|].
    specialize (Hl4 Hld'). lia. }
  destruct m; cbn; [lia|lia|apply Hargs|]. intros [??]. auto.
Qed.

(** *** The effect of each handler *)

Section handler_effects.
Context (ids : list bytes) (i : bytes).

Lemma node_inv_log n : node_inv ids i n → log_ok (log n).
Proof.
  intros (_ & _ & _ & (_ & _ & Hne & _) & Hl & _). unfold log_ok. split; [|lia].
  destruct (log n) as [|e l]; [done|]. rewrite Zlen_cons. pose proof (Zlen_nonneg l). lia.
Qed.

Lemma node_inv_commit n k a b : node_inv ids i n → 0 ≤ k → node_inv ids i (set_commit k a b n).
Proof. intros (H1 & H2 & H3 & Hm & H4 & H5 & _ & H7) Hk. exact (conj H1 (conj H2 (conj H3 (conj Hm (conj H4 (conj H5 (conj Hk H7))))))). Qed.

(** A leader's requests are covered by its log. *)
Lemma sendAppendEntries_ok n p :
  node_inv ids i n → role n = Leader →
  ∃ args, sendAppendEntries n p = Some (CallAppend p args) ∧ args_ok n args.
Proof.
  intros Hn Hr. pose proof (node_inv_log n Hn) as Hl. destruct Hn as (_ & _ & _ & _ & Hlen & Ht & _ & Hx).
  destruct (Hx Hr p) as [Hnx _]. unfold log_ok in Hl. unfold sendAppendEntries.
  set (nx := if default 0 (nextIndex n !! p) <? 1 then 1 else default 0 (nextIndex n !! p)).
  assert (Hnx' : 1 ≤ nx ≤ Zlen (log n)) by (subst nx; destruct (_ <? 1) eqn:E; kv_bool; lia).
  destruct (log_at_is_Some (log n) (nx - 1)) as (e & -> & _); [lia|]. cbn [mbind option_bind].
  eexists. split; [done|]. unfold args_ok. cbn.
  assert (Hent : nx - 1 + Zlen (if nx <? Zlen (log n) then drop (Z.to_nat nx) (log n) else []) < Zlen (log n)).
  { destruct (nx <? Zlen (log n)) eqn:E; kv_bool; [|unfold Zlen at 1; cbn; lia].
    rewrite Zlen_drop; unfold Zlen in *; lia. }
  split_and!; try lia. intros _. rewrite Hr. split; [done|]. intros _. exact Hent.
Qed.

Lemma broadcast_ok n :
  node_inv ids i n → role n = Leader →
  ∃ cs, broadcastAppendEntries n = Some cs ∧
    Forall (λ x, ∃ p args, x = CallAppend p args ∧ args_ok n args) cs.
Proof.
  intros Hn Hr. unfold broadcastAppendEntries.
  assert (H : ∀ ps, ∃ cs, mapM (sendAppendEntries n) ps = Some cs ∧
    Forall (λ x, ∃ p args, x = CallAppend p args ∧ args_ok n args) cs); [|apply H].
  induction ps as [|p ps (cs & Hm & Hcs)]; [by exists []|].
  destruct (sendAppendEntries_ok n p Hn Hr) as (args & Hs & Ha).
  exists (CallAppend p args :: cs). cbn. rewrite Hs. cbn. rewrite Hm. split; [done|]. constructor; eauto.
Qed.

Lemma becomeFollower_inv n t :
  node_inv ids i n → currentTerm n ≤ t < 2 ^ 64 →
  node_inv ids i (becomeFollower t n) ∧ evolves n (becomeFollower t n).
Proof.
  intros (H1 & H2 & H3 & Hm & H4 & H5 & H6 & H7) Ht. pose proof (becomeFollower_mirrored t n Hm) as Hm'.
  destruct (becomeFollower_eq t n) as (d & fl & E). rewrite E in *. split.
  - split_and!; try done; cbn; lia.
  - apply evolves_follower; [cbn; lia|done].
Qed.

Lemma becomeLeader_inv n :
  node_inv ids i n → role n = Candidate →
  ∃ n' cs, becomeLeader n = Some (n', cs) ∧ node_inv ids i n' ∧ evolves n n' ∧
    role n' = Leader ∧ currentTerm n' = currentTerm n ∧ votes n' = votes n ∧
    Forall (λ x, ∃ p args, x = CallAppend p args ∧ args_ok n' args) cs.
Proof.
  intros Hn Hc. pose proof (node_inv_log n Hn) as Hl. unfold becomeLeader.
  destruct (lastLogIndexAndTerm_ok (set_leaderId (id n) (set_role Leader n)) Hl) as (e & _ & ->).
  cbn [mbind option_bind log set_leaderId set_role peers]. unfold log_ok in Hl. rewrite u64_id by lia.
  set (n' := set_indices _ _ _).
  assert (Hmap : ∀ (ps : list bytes) (v : Z) (p : bytes),
    default 0 ((list_to_map ((λ p : bytes, (p, v)) <$> ps) : gmap bytes Z) !! p) = 0 ∨
    default 0 ((list_to_map ((λ p : bytes, (p, v)) <$> ps) : gmap bytes Z) !! p) = v).
  { intros ps v p. induction ps as [|q ps IH]; [by left|]. cbn [fmap list_fmap list_to_map].
    cbn. destruct (decide (q = p)) as [->|]; [rewrite lookup_insert_eq; by right|by rewrite lookup_insert_ne]. }
  assert (Hn' : node_inv ids i n').
  { destruct Hn as (H1 & H2 & H3 & Hm & H4 & H5 & H6 & H7). split_and!; [done|done|done|exact Hm|exact H4|apply H5|apply H5|exact H6|].
    intros _ p. cbn [nextIndex matchIndex log n' set_indices].
    destruct (Hmap (peers n) (Zlen (log n) - 1 + 1) p) as [->| ->], (Hmap (peers n) 0 p) as [->| ->]; cbn; lia. }
  destruct (broadcast_ok n' Hn' eq_refl) as (cs & -> & Hcs). eexists _, _. split; [done|]. split; [done|].
  split; [|by split_and!]. split; [cbn; lia|]. intros _. split; [done|]. intros _. by left.
Qed.

(** No vote is counted and no leadership begins. *)
Definition quiet (n n' : Node) : Prop :=
  votes n' = votes n ∧ (role n' = Leader → role n = Leader ∧ currentTerm n' = currentTerm n).

Definition calls_ok (n : Node) (cs : list call) : Prop :=
  Forall (λ x, ∃ p args, x = CallAppend p args ∧ args_ok n args) cs.

Lemma becomeFollower_quiet n t : quiet n (becomeFollower t n).
Proof. by destruct (becomeFollower_eq t n) as (d & fl & ->). Qed.

Lemma electionTick_inv now timeout n :
  node_inv ids i n → currentTerm n + 1 < 2 ^ 64 →
  ∃ n' cs, electionTick now timeout n = Some (n', cs) ∧ node_inv ids i n' ∧ evolves n n' ∧
    ((n' = n ∧ cs = []) ∨
     (currentTerm n' = currentTerm n + 1 ∧ role n' = Candidate ∧ votes n' = <[currentTerm n + 1 := 1]> (votes n) ∧
      ∃ li lt, cs = (λ p : bytes, CallVote p (mkRV (currentTerm n + 1) i li lt)) <$> peers n)).
Proof.
  intros Hn Ht. unfold electionTick. destruct (_ && _).
  2: { eexists _, _. split; [done|]. split; [done|]. split; [apply evolves_refl|by left]. }
  pose proof (node_inv_log n Hn) as Hl. unfold startElection.
  destruct Hn as (H1 & H2 & H3 & (Hs & Hf & Hne & _) & H4 & H5 & H6 & H7).
  set (n1 := set_heartbeat _ _). pose proof (persist_mirrored n1 Hs Hf Hne) as Hm.
  destruct (persist_eq n1) as (d & fl & E). rewrite E in *.
  destruct (lastLogIndexAndTerm_ok (set_disk d (snapDisk n1) fl n1) Hl) as (e & _ & ->). cbn [mbind option_bind].
  assert (Hct : currentTerm n1 = currentTerm n + 1) by (cbn; apply u64_id; lia).
  eexists _, _. split; [done|]. cbn [currentTerm set_disk]. rewrite Hct. split; [|split].
  - unfold node_inv. cbn [currentTerm set_votes set_disk]. rewrite Hct.
    split; [done|]. split; [done|]. split; [done|]. split; [exact Hm|]. split; [done|]. split; [lia|]. by split.
  - split; cbn [currentTerm set_votes set_disk]; lia.
  - right. split_and!; [by cbn [currentTerm set_votes set_disk]|done|done|].
    eexists _, _. cbn. by rewrite H1.
Qed.

Lemma onVoteReply_inv term reply n :
  node_inv ids i n → 0 ≤ rvr_Term reply < 2 ^ 64 →
  ∃ n' cs, onVoteReply term reply n = Some (n', cs) ∧ node_inv ids i n' ∧ evolves n n' ∧ calls_ok n' cs ∧
    (quiet n n' ∨
     (rvr_VoteGranted reply = true ∧ currentTerm n = term ∧ currentTerm n' = term ∧
      votes n' = <[term := default 0 (votes n !! term) + 1]> (votes n) ∧
      (role n' = Leader → (Zlen (peers n) + 1) / 2 + 1 ≤ default 0 (votes n !! term) + 1))).
Proof.
  intros Hn Hr. unfold onVoteReply. pose proof Hn as (_ & _ & _ & _ & _ & Ht & _).
  destruct (currentTerm n <? rvr_Term reply) eqn:Et; kv_bool.
  { eexists _, _. split; [done|]. destruct (becomeFollower_inv n (rvr_Term reply) Hn) as [Ha Hb]; [lia|].
    split_and!; [done|done|constructor|]. left. apply becomeFollower_quiet. }
  assert (Hsame : ∃ n' cs, Some (n, []) = Some (n', cs) ∧ node_inv ids i n' ∧ evolves n n' ∧ calls_ok n' cs ∧ quiet n n').
  { eexists _, _. split; [done|]. split_and!; try done; [apply evolves_refl|constructor]. }
  destruct (negb (bool_decide (role n = Candidate)) || _) eqn:Es.
  { destruct Hsame as (n' & cs & ? & ? & ? & ? & ?). exists n', cs. by split_and!; [..|left]. }
  apply orb_false_iff in Es as [Ec Etm]. kv_bool.
  destruct (rvr_VoteGranted reply).
  2: { destruct Hsame as (n' & cs & ? & ? & ? & ? & ?). exists n', cs. by split_and!; [..|left]. }
  set (n1 := set_votes _ n).
  assert (Hn1 : node_inv ids i n1) by exact Hn.
  destruct (_ <=? _) eqn:Ev; kv_bool.
  - destruct (becomeLeader_inv n1 Hn1 Ec) as (n' & cs & -> & Hn' & He & Hld & Htn & Hv & Hcs).
    exists n', cs. split_and!; try done. right. split_and!; try done; by rewrite Htn.
  - eexists _, _. split; [done|]. split; [done|]. split; [apply (evolves_refl n)|]. split; [constructor|].
    right. split_and!; try done. change (role n1) with (role n). rewrite Ec. done.
Qed.

Lemma onAppendReply_inv peer args reply n :
  node_inv ids i n → args_ok n args → reply_ok args reply →
  ∃ n' cs, onAppendReply peer args reply n = Some (n', cs) ∧ node_inv ids i n' ∧ evolves n n' ∧ calls_ok n' cs ∧ quiet n n'.
Proof.
  intros Hn (Ha1 & Ha2 & Ha3 & Ha4) (Hr1 & Hr2 & Hr3). unfold onAppendReply.
  pose proof Hn as (H1 & H2 & H3 & Hm & H4 & H5 & H6 & H7). pose proof (node_inv_log n Hn) as Hl.
  destruct (currentTerm n <? aer_Term reply) eqn:Et; kv_bool.
  { eexists _, _. split; [done|]. destruct (becomeFollower_inv n (aer_Term reply) Hn) as [Ha Hb]; [lia|].
    split_and!; [done|done|constructor|]. apply becomeFollower_quiet. }
  destruct (negb (bool_decide (role n = Leader)) || _) eqn:Es.
  { eexists _, _. split; [done|]. split_and!; try done; [apply evolves_refl|constructor]. }
  apply orb_false_iff in Es as [Ec Etm]. kv_bool. specialize (H7 Ec). destruct Ha4 as [_ Ha4]; [done|]. specialize (Ha4 Ec).
  pose proof (Zlen_nonneg (ae_Entries args)).
  destruct (aer_Success reply) eqn:Esu.
  - rewrite (u64_id (ae_PrevLogIndex args + Zlen (ae_Entries args))) by lia. set (nm := ae_PrevLogIndex args + Zlen (ae_Entries args)) in *.
    set (mt := if _ <? nm then _ else _).
    assert (Hmt : ∀ p : bytes, 0 ≤ default 0 (mt !! p) < Zlen (log n)).
    { intros p. subst mt. destruct (_ <? nm); [|by apply H7].
      destruct (decide (peer = p)) as [->|]; [rewrite lookup_insert_eq; cbn; unfold Datatypes.id; lia|].
      rewrite lookup_insert_ne by done. by apply H7. }
    pose proof (Hmt peer) as Hpe. rewrite u64_id by lia.
    set (n1 := set_indices _ mt n).
    assert (Hn1 : node_inv ids i n1).
    { split_and!; [done|done|done|exact Hm|exact H4|apply H5|apply H5|exact H6|]. intros _ p.
      cbn [nextIndex matchIndex log n1 set_indices]. split; [|apply Hmt].
      destruct (decide (peer = p)) as [->|]; [rewrite lookup_insert_eq; cbn; unfold Datatypes.id in *; lia|].
      rewrite lookup_insert_ne by done. by apply H7. }
    destruct (maybeAdvanceCommitIndex n1) as [n2|] eqn:Eadv.
    2: { unfold maybeAdvanceCommitIndex in Eadv. change (log n1) with (log n) in Eadv.
         destruct (log n); [|by destruct (advance_go n1 _)]. unfold log_ok, Zlen in Hl. cbn in Hl. lia. }
    cbn [mbind option_bind]. eexists _, _. split; [done|].
    assert (Hc0 : 0 ≤ commitIndex n2).
    { apply maybeAdvance_commit in Eadv. change (commitIndex n1) with (commitIndex n) in Eadv. lia. }
    apply maybeAdvance_eq in Eadv as [->|[cc ->]].
    + split; [done|]. split; [apply (evolves_refl n)|]. by split; [constructor|].
    + split; [by apply node_inv_commit|]. split; [apply (evolves_refl n)|]. by split; [constructor|].
  - destruct (log n) as [|e0 l0] eqn:El; [unfold log_ok, Zlen in Hl; cbn in Hl; lia|]. rewrite <-El in *. clear e0 l0 El.
    assert (Hb : 0 ≤ backup n peer reply ≤ Zlen (log n)).
    { assert (aer_Term reply = ae_Term args) as Heq by lia. specialize (Hr2 Heq eq_refl).
      unfold backup, log_ok in *. destruct (negb _).
      - destruct (find_term_spec (log n) (aer_ConflictTerm reply) (length (log n) - 1)) as (Hfl & _).
        set (f := find_term _ _ _) in *. destruct (0 <? Z.of_nat f) eqn:Ef; kv_bool; [|lia].
        unfold Zlen in *. rewrite u64_id by lia. lia.
      - destruct (0 <? aer_ConflictIndex reply); [lia|]. destruct (H7 peer) as [Hnx _].
        destruct (1 <? _) eqn:E1; kv_bool; lia. }
    set (n1 := set_indices _ _ n).
    assert (Hn1 : node_inv ids i n1).
    { split_and!; [done|done|done|exact Hm|exact H4|apply H5|apply H5|exact H6|]. intros _ p.
      cbn [nextIndex matchIndex log n1 set_indices]. split; [|by apply H7].
      destruct (decide (peer = p)) as [->|]; [rewrite lookup_insert_eq; cbn; unfold Datatypes.id in *; lia|].
      rewrite lookup_insert_ne by done. by apply H7. }
    destruct (sendAppendEntries_ok n1 peer Hn1 Ec) as (a & -> & Ha). cbn [mbind option_bind].
    eexists _, _. split; [done|]. split; [done|]. split; [apply (evolves_refl n)|]. split; [|done].
    constructor; [eauto|constructor].
Qed.

Lemma HandleRequestVote_inv now args n :
  node_inv ids i n → 0 ≤ rv_Term args < 2 ^ 64 →
  ∃ r n', HandleRequestVote now args n = Some (r, n') ∧ node_inv ids i n' ∧ evolves n n' ∧ quiet n n' ∧
    0 ≤ rvr_Term r < 2 ^ 64.
Proof.
  intros Hn Ht. pose proof (node_inv_log n Hn) as Hl.
  destruct (HandleRequestVote_cases now args n Hl) as (r & n' & HH & Hfr & Hlog & Hc & Hct & Hrt & Hro & _ & _).
  pose proof Hn as (H1 & H2 & H3 & Hm & H4 & H5 & H6 & H7).
  destruct Hfr as (Hid & Hp & Hs & Hsn & Ha & Hnx & Hmt & Hv).
  exists r, n'. split; [done|]. split; [|split; [|split; [|lia]]].
  - unfold node_inv. rewrite Hid, Hp, Hsn, Hlog, Hct, Hc, Hnx, Hmt, Hro. split; [done|]. split; [done|]. split; [done|].
    split; [eapply nstep_mirrored; [by eapply NRequestVote|done]|]. split; [done|]. split; [lia|]. split; [done|].
    by destruct (_ <? _).
  - split; [lia|]. intros Heq. rewrite Hro, Hlog. replace (currentTerm n <? rv_Term args) with false by lia.
    split; [done|]. intros. by right.
  - split; [done|]. rewrite Hro. destruct (_ <? _) eqn:E; [done|]. kv_bool. intros ?. split; [done|lia].
Qed.

Lemma HandleAppendEntries_inv now args n :
  node_inv ids i n → 0 ≤ ae_PrevLogIndex args → ae_PrevLogIndex args + Zlen (ae_Entries args) + 1 < 2 ^ 62 →
  0 ≤ ae_Term args < 2 ^ 64 →
  ∃ r n', HandleAppendEntries now args n = Some (r, n') ∧ node_inv ids i n' ∧ evolves n n' ∧ quiet n n' ∧
    reply_ok args r.
Proof.
  intros Hn Hp0 Hp1 Ht. pose proof (node_inv_log n Hn) as Hl. pose proof Hn as (H1 & H2 & H3 & Hm & H4 & H5 & H6 & H7).
  destruct (decide (ae_Term args < currentTerm n)) as [Hst|Hst].
  { rewrite (HandleAppendEntries_stale now args n Hst). eexists _, _. split; [done|]. split; [done|].
    split; [apply evolves_refl|]. split; [done|]. unfold reply_ok. cbn. split; [lia|]. split; [lia|lia]. }
  assert (Hfit : ae_fits args) by (split; lia).
  destruct (HandleAppendEntries_cases now args n Hl Hfit) as (r & n' & HH & Hfr & Hct & Hvf & Hro & Hrt & Hcases); [lia|].
  destruct Hfr as (Hid & Hp & Hs & Hsn & Ha & Hnx & Hmt & Hv).
  assert (Hlen : Zlen (log n') < 2 ^ 62 ∧ 0 ≤ commitIndex n').
  { destruct Hcases as [(_ & -> & -> & _)|[(t & _ & _ & -> & -> & _)|(Hat & -> & -> & _)]]; [done..|].
    assert (Hlt : ae_PrevLogIndex args < Zlen (log n)).
    { destruct (log n !! _) eqn:Elk; [|done]. apply lookup_lt_Some in Elk. unfold Zlen. lia. }
    destruct (accepted_terms args (log n) Hl Hfit Hlt) as (_ & _ & Hle). pose proof (Zlen_nonneg (ae_Entries args)).
    split; [lia|]. unfold new_commit. destruct (_ <? _) eqn:E; kv_bool; lia. }
  exists r, n'. split; [done|]. split; [|split; [|split]].
  - unfold node_inv. rewrite Hid, Hp, Hsn, Hct, Hro. split; [done|]. split; [done|]. split; [done|].
    split; [eapply nstep_mirrored; [by eapply NAppendEntries|done]|]. split; [apply Hlen|]. split; [lia|].
    split; [apply Hlen|done].
  - apply evolves_follower; [lia|done].
  - split; [done|]. by rewrite Hro.
  - unfold reply_ok. rewrite Hrt. split; [lia|]. split; [|lia]. intros _ Hs0.
    destruct (hint_correct now args n r n' Hl Hfit ltac:(lia) HH Hs0) as [Hh Hci].
    unfold hint_ok in Hh. assert (0 ≤ aer_ConflictIndex r).
    { destruct Hcases as [(_ & _ & _ & _ & -> & _)|[(t & _ & _ & _ & _ & _ & -> & _)|(_ & _ & _ & ?)]];
        [apply Zlen_nonneg|lia|congruence]. }
    destruct (_ =? 0); [lia|]. destruct Hh as [? _]. lia.
Qed.

Lemma Propose_inv command n :
  node_inv ids i n → Zlen (log n) + 1 < 2 ^ 62 →
  ∃ r n' cs, Propose command n = Some (r, n', cs) ∧ node_inv ids i n' ∧ evolves n n' ∧ calls_ok n' cs ∧ quiet n n'.
Proof.
  intros Hn Hlen. pose proof Hn as (H1 & H2 & H3 & (Hs & Hf & Hne & _) & H4 & H5 & H6 & H7).
  pose proof (Zlen_nonneg (log n)). unfold Propose.
  case_bool_decide as Hr; cbn [negb].
  2: { eexists _, _, _. split; [done|]. split; [done|]. split; [apply evolves_refl|]. by split; [constructor|]. }
  set (l := log n ++ [mkEntry (currentTerm n) command]).
  assert (Hl : Zlen l = Zlen (log n) + 1) by apply Zlen_snoc.
  rewrite (u64_id (Zlen l - 1)) by lia. set (n1 := set_indices _ _ _).
  assert (Hne1 : log n1 ≠ []) by (cbn; subst l; by destruct (log n)).
  pose proof (persist_mirrored n1 Hs Hf Hne1) as Hm. destruct (persist_eq n1) as (d & fl & E). rewrite E in *.
  set (n2 := set_disk d _ fl n1) in *.
  assert (Hn2 : node_inv ids i n2).
  { unfold node_inv. change (log n2) with l. rewrite Hl.
    split; [done|]. split; [done|]. split; [done|]. split; [exact Hm|]. split; [lia|]. split; [done|]. split; [done|].
    intros _ p. destruct (H7 Hr p) as [Hnx Hmt]. split; [cbn; lia|].
    change (matchIndex n2) with (<[id n := Zlen l - 1]> (matchIndex n)).
    destruct (decide (id n = p)) as [->|]; [rewrite lookup_insert_eq; cbn; unfold Datatypes.id; lia|].
    rewrite lookup_insert_ne by done. lia. }
  destruct (broadcast_ok n2 Hn2 Hr) as (cs & -> & Hcs). cbn [mbind option_bind].
  eexists _, _, _. split; [done|]. split; [done|]. split; [|by split].
  split; [cbn; lia|]. intros _. split; [done|]. intros _. right. split; [done|]. change (log n2) with l. lia.
Qed.

Lemma applyOne_inv n m n' :
  node_inv ids i n → applyOne n = Some (m, n') → node_inv ids i n' ∧ evolves n n' ∧ quiet n n'.
Proof.
  unfold applyOne. intros Hn H. destruct (log_at _ _); [|done]. injection H as <- <-.
  split; [apply node_inv_commit; [done|apply Hn]|]. split; [apply (evolves_refl n)|done].
Qed.

Lemma restart_inv n :
  node_inv ids i n →
  ∃ n', restart [] n = Some n' ∧ node_inv ids i n' ∧ evolves n n' ∧ votes n' = ∅ ∧ role n' = Follower.
Proof.
  intros (H1 & H2 & H3 & (Hs & Hf & Hne & Hd) & H4 & H5 & H6 & H7).
  unfold restart, NewNode, LatestSnapshot, restoreState. cbn. rewrite Hs, H3.
  destruct Hd as [Hd|(Hd & Hsd & Ht & Hv & Hl)]; rewrite Hd; cbn.
  - destruct (log n) as [|e l] eqn:El; [done|]. eexists. split; [done|].
    split; [|split; [by apply evolves_follower|done]].
    split; [done|]. split; [done|]. split; [done|]. split; [by split_and!; [..|left]|]. done.
  - eexists. split; [done|]. rewrite Ht in *. split; [|split; [apply evolves_follower; [cbn; lia|done]|done]].
    split; [done|]. split; [done|]. split; [done|]. split; [by split_and!; [..|right]|]. cbn. split; [done|]. split; [lia|done].
Qed.

End handler_effects.

(** *** The invariant of the cluster *)

Definition inv (ids : list bytes) (ns : gmap bytes Node) (ms : list rpc) : Prop :=
  (∀ j, j ∈ ids ↔ is_Some (ns !! j)) ∧
  (∀ j n, ns !! j = Some n → node_inv ids j n) ∧
  (∀ m, m ∈ ms → ∃ n, ns !! sender m = Some n ∧ msg_ok n m).

(** A node changes, old messages are kept or lost, new ones fit the old or the
    new state of their sender. *)
Lemma inv_update ids ns ms i n n' ms' :
  inv ids ns ms → ns !! i = Some n → node_inv ids i n' → evolves n n' →
  (∀ m, m ∈ ms' → (∃ n0, ns !! sender m = Some n0 ∧ msg_ok n0 m) ∨ (sender m = i ∧ msg_ok n' m)) →
  inv ids (<[i := n']> ns) ms'.
Proof.
  intros (Hdom & Hns & Hms) Hi Hn' Hev Hms'. split; [|split].
  - intros j. rewrite Hdom. destruct (decide (i = j)) as [->|].
    + rewrite lookup_insert_eq, Hi. split; eauto.
    + by rewrite lookup_insert_ne.
  - intros j m. destruct (decide (i = j)) as [->|].
    + rewrite lookup_insert_eq. by intros [= <-].
    + rewrite lookup_insert_ne by done. apply Hns.
  - intros m Hm. destruct (decide (i = sender m)) as [E|Hne].
    + rewrite <-E, lookup_insert_eq. eexists. split; [done|]. destruct (Hms' m Hm) as [(n0 & Hn0 & Hok)|[_ Hok]]; [|done].
      rewrite <-E, Hi in Hn0. injection Hn0 as <-. by eapply msg_ok_evolves.
    + rewrite lookup_insert_ne by done. destruct (Hms' m Hm) as [?|[? _]]; [done|congruence].
Qed.

Lemma inv_update_calls ids c i n n' rest cs bl :
  inv ids (nodes c) (net c) → nodes c !! i = Some n → node_inv ids i n' → evolves n n' →
  (∀ m, m ∈ rest → m ∈ net c ∨ ∃ n0, nodes c !! sender m = Some n0 ∧ msg_ok n0 m) →
  (∀ x, x ∈ cs → msg_ok n' (to_rpc i x)) →
  inv ids (nodes (update c i n' rest cs bl)) (net (update c i n' rest cs bl)).
Proof.
  intros Hinv Hi Hn' Hev Hrest Hcs. apply (inv_update ids (nodes c) (net c) i n n'); try done.
  cbn [net update]. intros m Hm. apply elem_of_app in Hm as [Hm|Hm].
  - left. destruct (Hrest m Hm) as [Hin|?]; [|done]. by apply Hinv.
  - apply list_elem_of_fmap in Hm as (x & -> & Hx). right. split; [by destruct x|]. by apply Hcs.
Qed.

Lemma calls_ok_msgs n cs i : calls_ok n cs → ∀ x, x ∈ cs → msg_ok n (to_rpc i x).
Proof. intros H x Hx. unfold calls_ok in H. rewrite Forall_forall in H. by destruct (H x Hx) as (p & args & -> & Ha). Qed.

(** What a step does, given the invariant: it never panics, except possibly
    in the apply loop, and keeps the invariant. *)
Definition good (ids : list bytes) (o : outcome () Cluster) : Prop :=
  match o with Ret c => inv ids (nodes c) (net c) | Err _ => True | Panic => False end.

Lemma deliver_inv ids c k m now :
  inv ids (nodes c) (net c) → net c !! k = Some m → good ids (deliver c m (delete k (net c)) now).
Proof.
  intros Hinv Hk. pose proof (list_elem_of_lookup_2 _ _ _ Hk) as Hm.
  destruct (proj2 (proj2 Hinv) m Hm) as (sn & Hsn & Hok). pose proof (proj1 (proj2 Hinv) _ _ Hsn) as (_ & _ & _ & _ & _ & Hst & _).
  assert (Hrest : ∀ m', m' ∈ delete k (net c) → m' ∈ net c ∨ ∃ n0, nodes c !! sender m' = Some n0 ∧ msg_ok n0 m').
  { intros m' Hm'. left. by eapply list_elem_of_delete_inv. }
  destruct m as [live from to args|from to args reply|live from to args|from to args reply]; cbn [deliver sender msg_ok] in *.
  - destruct (nodes c !! to) as [n|] eqn:En; [|done]. cbn [enabled mbind outcome_bind].
    destruct (HandleRequestVote_inv ids to now args n) as (r & n' & -> & Hn' & Hev & _ & Hr); [by apply Hinv|lia|].
    cbn [good or_panic mbind outcome_bind]. apply (inv_update_calls ids c to n); try done; [|by intros x ?%not_elem_of_nil].
    intros m' [Hm'|Hm']%elem_of_app; [by apply Hrest|]. destruct live; [|by apply not_elem_of_nil in Hm'].
    apply list_elem_of_singleton in Hm' as ->. right. exists sn. by split_and!.
  - rewrite Hsn. cbn [enabled mbind outcome_bind].
    destruct (onVoteReply_inv ids from (rv_Term args) reply sn) as (n' & cs & -> & Hn' & Hev & Hcs & _); [by apply Hinv|lia|].
    cbn [good or_panic mbind outcome_bind]. apply (inv_update_calls ids c from sn); try done. by apply calls_ok_msgs.
  - destruct (nodes c !! to) as [n|] eqn:En; [|done]. cbn [enabled mbind outcome_bind].
    pose proof Hok as (Ha1 & Ha2 & Ha3 & _).
    destruct (HandleAppendEntries_inv ids to now args n) as (r & n' & -> & Hn' & Hev & _ & Hr); [by apply Hinv|lia..|].
    cbn [good or_panic mbind outcome_bind]. apply (inv_update_calls ids c to n); try done; [|by intros x ?%not_elem_of_nil].
    intros m' [Hm'|Hm']%elem_of_app; [by apply Hrest|]. destruct live; [|by apply not_elem_of_nil in Hm'].
    apply list_elem_of_singleton in Hm' as ->. right. exists sn. by split.
  - rewrite Hsn. cbn [enabled mbind outcome_bind].
    destruct (onAppendReply_inv ids from to args reply sn) as (n' & cs & -> & Hn' & Hev & Hcs & _); [by apply Hinv|apply Hok..|].
    cbn [good or_panic mbind outcome_bind]. apply (inv_update_calls ids c from sn); try done. by apply calls_ok_msgs.
Qed.

Lemma orphan_ok i m m' n : orphan i m = Some m' → msg_ok n m → sender m' = sender m ∧ msg_ok n m'.
Proof. destruct m; cbn; try case_bool_decide; intros [= <-]; done. Qed.

Lemma step_inv ids ev c :
  snapshots ev = false → inv ids (nodes c) (net c) → good ids (step ev c) ∨ (∃ i, ev = EApply i ∧ step ev c = Panic).
Proof.
  intros Hsn Hinv. pose proof Hinv as (_ & Hns & Hms).
  destruct ev as [i now tm|i|i command|k now|k|i|i|i upTo blob]; [..|done]; cbn [step].
  - left. destruct (nodes c !! i) as [n|] eqn:En; [|done]. cbn [enabled mbind outcome_bind].
    destruct (_ <=? _) eqn:Et; kv_bool; [done|]. cbn [fail_if outcome_bind].
    destruct (electionTick_inv ids i now tm n) as (n' & cs & -> & Hn' & Hev & Hcase); [by apply Hns|lia|].
    cbn [good or_panic mbind outcome_bind]. apply (inv_update_calls ids c i n); try done; [auto|]. intros x Hx.
    destruct Hcase as [[_ ->]|(Htn & _ & _ & li & lt & ->)]; [by apply not_elem_of_nil in Hx|].
    apply list_elem_of_fmap in Hx as (p & -> & _). cbn. pose proof (Hns _ _ En) as (_ & _ & _ & _ & _ & ? & _). lia.
  - left. destruct (nodes c !! i) as [n|] eqn:En; [|done]. cbn [enabled mbind outcome_bind].
    assert (∃ cs, heartbeatTick n = Some cs ∧ calls_ok n cs) as (cs & -> & Hcs).
    { unfold heartbeatTick. case_bool_decide as Hr; [|exists []; by split; [|constructor]].
      apply (broadcast_ok ids i); [by apply Hns|done]. }
    cbn [good or_panic mbind outcome_bind]. apply (inv_update_calls ids c i n); try done; [by apply Hns|apply evolves_refl|auto|by apply calls_ok_msgs].
  - left. destruct (nodes c !! i) as [n|] eqn:En; [|done]. cbn [enabled mbind outcome_bind].
    destruct (_ <=? _) eqn:Et; kv_bool; [done|]. cbn [fail_if outcome_bind].
    destruct (Propose_inv ids i command n) as (r & n' & cs & -> & Hn' & Hev & Hcs & _); [by apply Hns|lia|].
    cbn [good or_panic mbind outcome_bind]. apply (inv_update_calls ids c i n); try done; [auto|by apply calls_ok_msgs].
  - left. destruct (net c !! k) as [m|] eqn:Ek; [|done]. by apply deliver_inv.
  - left. destruct (net c !! k) as [m|] eqn:Ek; [|done]. cbn. split; [apply Hinv|]. split; [done|].
    intros m' Hm'. apply Hms. by eapply list_elem_of_delete_inv.
  - destruct (nodes c !! i) as [n|] eqn:En; [|by left]. cbn [enabled mbind outcome_bind].
    destruct (_ <=? _); [by left|]. cbn [fail_if outcome_bind].
    destruct (applyOne n) as [[m n']|] eqn:Ea; [left|right; by exists i]. cbn.
    destruct (applyOne_inv ids i n m n') as (Hn' & Hev & _); [by apply Hns|done|].
    apply (inv_update ids (nodes c) (net c) i n); try done. intros m' Hm'. left. by apply Hms.
  - left. destruct (nodes c !! i) as [n|] eqn:En; [|done]. cbn [enabled mbind outcome_bind].
    destruct (restart_inv ids i n) as (n' & -> & Hn' & Hev & _); [by apply Hns|]. cbn.
    apply (inv_update ids (nodes c) (net c) i n); try done. intros m' Hm'.
    apply list_elem_of_omap in Hm' as (m & Hm & Ho). destruct (Hms m Hm) as (n0 & Hn0 & Hok). left. exists n0.
    destruct (orphan_ok i m m' n0 Ho Hok) as [-> ?]. done.
Qed.

Lemma init_inv ids : NoDup ids → inv ids (nodes (init ids)) (net (init ids)).
Proof.
  intros Hnd.
  assert (Hlk : ∀ j n, nodes (init ids) !! j = Some n ↔ j ∈ ids ∧ n = fresh ids j).
  { intros j n. cbn [nodes init]. rewrite <-elem_of_list_to_map.
    - rewrite list_elem_of_fmap. split; [intros (x & [= -> ->] & ?); done|intros [? ->]; eauto].
    - rewrite <-list_fmap_compose. cbn. by rewrite list_fmap_id. }
  split; [|split].
  - intros j. split; [intros Hj; exists (fresh ids j); by apply Hlk|]. by intros [n [? _]%Hlk].
  - intros j n [_ ->]%Hlk. split; [done|]. split; [done|]. split; [done|]. split; [by split_and!; [..|right]|].
    cbn. by split_and!.
  - by intros m ?%not_elem_of_nil.
Qed.

Lemma run_inv ids evs c c' :
  no_snapshots evs → inv ids (nodes c) (net c) → run evs c = Ret c' → inv ids (nodes c') (net c').
Proof.
  intros Hsn. revert c. induction Hsn as [|ev evs Hev _ IH]; intros c Hinv; cbn [run]; [by intros [= <-]|].
  destruct (step_inv ids ev c Hev Hinv) as [Hg|(i & -> & ->)]; [|done].
  destruct (step ev c) as [c1| |]; [|done..]. cbn. by apply IH.
Qed.

(** ** Counting votes *)

(** The vote an RPC is about: candidate, voter, term. *)
Definition vkey (m : rpc) : option (bytes * bytes * Z) :=
  match m with
  | VoteReq _ from to args | VoteRep from to args _ => Some (from, to, rv_Term args)
  | _ => None
  end.
Definition vkeys (ms : list rpc) : list (bytes * bytes * Z) := omap vkey ms.

Definition vmsg_ok (ids : list bytes) (bl : list (bytes * Z * bytes)) (m : rpc) : Prop :=
  match m with
  | VoteReq _ from to args => to ∈ ids ∧ to ≠ from ∧ rv_CandidateId args = from
  | VoteRep from to args reply =>
      to ∈ ids ∧ to ≠ from ∧ rv_CandidateId args = from ∧
      (rvr_VoteGranted reply = true → (to, rv_Term args, from) ∈ bl)
  | _ => True
  end.

(** The voters behind a count: distinct members whose votes were given and
    are no longer under way. *)
Definition voters (ids : list bytes) (bl : list (bytes * Z * bytes)) (ks : list (bytes * bytes * Z))
    (i : bytes) (t v : Z) : Prop :=
  ∃ V, NoDup V ∧ Zlen V = v ∧ ∀ j, j ∈ V → j ∈ ids ∧ (j, t, i) ∈ bl ∧ (i, j, t) ∉ ks.

(** A majority of the members satisfies [P]. *)
Definition most (ids : list bytes) (P : bytes → Prop) : Prop :=
  ∃ V, NoDup V ∧ Zlen ids < 2 * Zlen V ∧ ∀ j, j ∈ V → j ∈ ids ∧ P j.

Definition majority (ids : list bytes) (bl : list (bytes * Z * bytes)) (i : bytes) (t : Z) : Prop :=
  most ids (λ j, (j, t, i) ∈ bl).

Definition vinv (ids : list bytes) (ns : gmap bytes Node) (ms : list rpc) (bl : list (bytes * Z * bytes)) : Prop :=
  NoDup (vkeys ms) ∧ (∀ m, m ∈ ms → vmsg_ok ids bl m) ∧
  (∀ i n t v, ns !! i = Some n → votes n !! t = Some v → t ≤ currentTerm n ∧ voters ids bl (vkeys ms) i t v) ∧
  (∀ i n, ns !! i = Some n → role n = Leader → majority ids bl i (currentTerm n)).

Lemma vmsg_ok_mono ids bl bl' m : (∀ x, x ∈ bl → x ∈ bl') → vmsg_ok ids bl m → vmsg_ok ids bl' m.
Proof. intros Hbl. destruct m; cbn; [done| |done..]. intros (? & ? & ? & ?). split_and!; auto. Qed.

Lemma voters_mono ids bl bl' ks ks' i t v :
  (∀ x, x ∈ bl → x ∈ bl') → (∀ j, (i, j, t) ∈ ks' → (i, j, t) ∈ ks) →
  voters ids bl ks i t v → voters ids bl' ks' i t v.
Proof.
  intros Hbl Hks (V & H1 & H2 & H3). exists V. split_and!; try done. intros j Hj.
  destruct (H3 j Hj) as (? & ? & ?). split_and!; auto.
Qed.

Lemma majority_mono ids bl bl' i t : (∀ x, x ∈ bl → x ∈ bl') → majority ids bl i t → majority ids bl' i t.
Proof.
  intros Hbl (V & H1 & H2 & H3). exists V. split_and!; try done. intros j Hj. destruct (H3 j Hj). auto.
Qed.

(** A step at a node that counts no vote and wins no election. *)
Lemma vinv_quiet ids ns ms bl i n n' ms' bl' :
  vinv ids ns ms bl → ns !! i = Some n → currentTerm n ≤ currentTerm n' →
  (∀ t v, votes n' !! t = Some v → votes n !! t = Some v) →
  (role n' = Leader → role n = Leader ∧ currentTerm n' = currentTerm n) →
  NoDup (vkeys ms') → (∀ x, x ∈ vkeys ms' → x ∈ vkeys ms) → (∀ m, m ∈ ms' → vmsg_ok ids bl' m) →
  (∀ x, x ∈ bl → x ∈ bl') → vinv ids (<[i := n']> ns) ms' bl'.
Proof.
  intros (_ & _ & Hv & Hld) Hi Ht Hvotes Hrole Hnd Hks Hms Hbl. split; [done|]. split; [done|]. split.
  - intros j m t v Hj Hjv.
    assert (t ≤ currentTerm m ∧ voters ids bl (vkeys ms) j t v) as [Hle Hvo].
    { destruct (decide (i = j)) as [->|].
      - rewrite lookup_insert_eq in Hj. injection Hj as <-. destruct (Hv j n t v Hi) as [? ?]; [by apply Hvotes|]. split; [lia|done].
      - rewrite lookup_insert_ne in Hj by done. by eapply Hv. }
    split; [done|]. eapply voters_mono; [done| |done]. auto.
  - intros j m Hj Hr. eapply majority_mono; [done|]. destruct (decide (i = j)) as [->|].
    + rewrite lookup_insert_eq in Hj. injection Hj as <-. destruct (Hrole Hr) as [? ->]. by apply Hld.
    + rewrite lookup_insert_ne in Hj by done. by apply Hld.
Qed.

Lemma vkeys_app ms ms' : vkeys (ms ++ ms') = vkeys ms ++ vkeys ms'.
Proof. apply omap_app. Qed.

Lemma vkeys_perm ms ms' : ms ≡ₚ ms' → vkeys ms ≡ₚ vkeys ms'.
Proof. intros Hp. unfold vkeys. by rewrite Hp. Qed.

Lemma vkeys_delete k ms m : ms !! k = Some m →
  vkeys ms ≡ₚ match vkey m with Some x => x :: vkeys (delete k ms) | None => vkeys (delete k ms) end.
Proof.
  intros Hk. rewrite (vkeys_perm ms (m :: delete k ms)) by by apply delete_Permutation.
  cbn. unfold vkeys. by destruct (vkey m).
Qed.

(** AppendEntries calls carry no votes. *)
Lemma calls_vkeys n cs i : calls_ok n cs → vkeys (to_rpc i <$> cs) = [].
Proof.
  intros H. induction H as [|x cs (p & args & -> & _) _ IH]; [done|]. cbn. exact IH.
Qed.

Lemma calls_vmsg n cs i ids bl m : calls_ok n cs → m ∈ to_rpc i <$> cs → vmsg_ok ids bl m.
Proof.
  intros H (x & -> & Hx)%list_elem_of_fmap. unfold calls_ok in H. rewrite Forall_forall in H.
  by destruct (H x Hx) as (p & args & -> & _).
Qed.

Lemma filter_ne_notin (ids : list bytes) (i : bytes) : i ∉ ids → filter (λ j : bytes, j ≠ i) ids = ids.
Proof.
  induction ids as [|x ids IH]; [done|]. intros [? Hi]%not_elem_of_cons.
  rewrite filter_cons_True by (by intros ->). by rewrite IH.
Qed.

(** The other members of a cluster are all but one. *)
Lemma Zlen_filter_ne (ids : list bytes) (i : bytes) :
  NoDup ids → i ∈ ids → Zlen ids = Zlen (filter (λ j : bytes, j ≠ i) ids) + 1.
Proof.
  induction 1 as [|x ids Hx Hnd IH]; [by intros ?%not_elem_of_nil|]. intros Hi.
  rewrite Zlen_cons. destruct (decide (x = i)) as [->|Hne].
  - rewrite filter_cons_False by (by intros ?). rewrite filter_ne_notin by done. lia.
  - rewrite filter_cons_True, Zlen_cons by done. apply elem_of_cons in Hi as [?|Hi]; [congruence|]. specialize (IH Hi). lia.
Qed.

(** A node stands for election. *)
Lemma vinv_election ids c i n n' li lt :
  NoDup ids → inv ids (nodes c) (net c) → vinv ids (nodes c) (net c) (ballots c) → nodes c !! i = Some n →
  currentTerm n' = currentTerm n + 1 → role n' = Candidate → votes n' = <[currentTerm n + 1 := 1]> (votes n) →
  vinv ids (<[i := n']> (nodes c))
    (net c ++ (to_rpc i <$> ((λ p : bytes, CallVote p (mkRV (currentTerm n + 1) i li lt)) <$> peers n)))
    (ballots c ++ [(i, currentTerm n + 1, i)]).
Proof.
  intros Hids (Hdom & Hns & Hms) (Hnd & Hvm & Hv & Hld) Hi Ht Hr Hvo.
  pose proof (Hns i n Hi) as (_ & Hp & _). set (t := currentTerm n + 1) in *.
  set (new := to_rpc i <$> _).
  assert (Hnew : vkeys new = (λ p : bytes, (i, p, t)) <$> peers n).
  { unfold new, vkeys. clear. induction (peers n) as [|p ps IH]; [done|]. cbn. f_equal. exact IH. }
  assert (Hold : ∀ j s, (i, j, s) ∈ vkeys (net c) → s < t).
  { intros j s (m & Hm & Hk)%list_elem_of_omap. destruct (Hms m Hm) as (n0 & Hn0 & Hok).
    destruct m; cbn in Hk; try done; injection Hk as -> -> <-; cbn in Hn0, Hok; rewrite Hi in Hn0; injection Hn0 as <-;
      subst t; lia. }
  assert (Hfrom : ∀ a j s, (a, j, s) ∈ vkeys new → a = i ∧ s = t ∧ j ≠ i ∧ j ∈ ids).
  { intros a j s. rewrite Hnew. intros (p & [= -> -> ->] & Hpin)%list_elem_of_fmap. rewrite Hp in Hpin.
    apply list_elem_of_filter in Hpin as [? ?]. done. }
  assert (Hbl : ∀ x, x ∈ ballots c → x ∈ ballots c ++ [(i, t, i)]) by (intros; apply elem_of_app; by left).
  split; [|split; [|split]].
  - rewrite vkeys_app. apply NoDup_app. split; [done|]. split.
    + intros [[a j] s] Ha Hb. destruct (Hfrom a j s Hb) as (-> & -> & _). specialize (Hold _ _ Ha). lia.
    + rewrite Hnew. apply NoDup_fmap_2; [by intros ?? [= ->]|]. rewrite Hp. by apply NoDup_filter.
  - intros m [Hm|Hm]%elem_of_app; [eapply vmsg_ok_mono; [done|auto]|].
    apply list_elem_of_fmap in Hm as (x & -> & (p & -> & Hpin)%list_elem_of_fmap). cbn. rewrite Hp in Hpin.
    apply list_elem_of_filter in Hpin as [? ?]. done.
  - intros j m s v Hj Hjv. rewrite vkeys_app. destruct (decide (i = j)) as [<-|Hne].
    + rewrite lookup_insert_eq in Hj. injection Hj as <-. rewrite Hvo in Hjv. destruct (decide (t = s)) as [<-|Hts].
      * rewrite lookup_insert_eq in Hjv. injection Hjv as <-. split; [lia|]. exists [i]. split_and!; [apply NoDup_singleton|done|].
        intros j Hj%list_elem_of_singleton. subst j. split_and!; [apply Hdom; eauto|apply elem_of_app; right; by apply list_elem_of_singleton|].
        intros [Hin|Hin]%elem_of_app; [specialize (Hold _ _ Hin); lia|]. by destruct (Hfrom _ _ _ Hin) as (_ & _ & ? & _).
      * rewrite lookup_insert_ne in Hjv by done. destruct (Hv i n s v Hi Hjv) as [Hle Hvt]. split; [lia|].
        eapply voters_mono; [done| |done]. intros j [Hin|Hin]%elem_of_app; [done|].
        destruct (Hfrom _ _ _ Hin) as (_ & ? & _). lia.
    + rewrite lookup_insert_ne in Hj by done. destruct (Hv j m s v Hj Hjv) as [Hle Hvt]. split; [done|].
      eapply voters_mono; [done| |done]. intros j' [Hin|Hin]%elem_of_app; [done|].
      destruct (Hfrom _ _ _ Hin) as (? & _). congruence.
  - intros j m Hj Hjr. eapply majority_mono; [done|]. destruct (decide (i = j)) as [<-|Hne].
    + rewrite lookup_insert_eq in Hj. injection Hj as <-. congruence.
    + rewrite lookup_insert_ne in Hj by done. by apply Hld.
Qed.

(** A granted vote is counted, and may win the election. *)
Lemma vinv_counted ids c k from to args reply n n' cs :
  NoDup ids → inv ids (nodes c) (net c) → vinv ids (nodes c) (net c) (ballots c) →
  net c !! k = Some (VoteRep from to args reply) → nodes c !! from = Some n →
  rvr_VoteGranted reply = true → currentTerm n = rv_Term args → currentTerm n' = rv_Term args →
  votes n' = <[rv_Term args := default 0 (votes n !! rv_Term args) + 1]> (votes n) →
  (role n' = Leader → (Zlen (peers n) + 1) / 2 + 1 ≤ default 0 (votes n !! rv_Term args) + 1) →
  calls_ok n' cs →
  vinv ids (<[from := n']> (nodes c)) (delete k (net c) ++ (to_rpc from <$> cs)) (ballots c).
Proof.
  intros Hids (Hdom & Hns & Hms) (Hnd & Hvm & Hv & Hld) Hk Hi Hg Ht Ht' Hvo Hlead Hcs.
  set (t := rv_Term args) in *. pose proof (vkeys_delete k (net c) _ Hk) as Hperm. cbn in Hperm.
  destruct (Hvm _ (list_elem_of_lookup_2 _ _ _ Hk)) as (Hto & Hne & _ & Hbal). specialize (Hbal Hg).
  rewrite Hperm in Hnd. apply NoDup_cons in Hnd as [Hfresh Hnd].
  assert (Hkeys : vkeys (delete k (net c) ++ (to_rpc from <$> cs)) = vkeys (delete k (net c))).
  { by rewrite vkeys_app, (calls_vkeys n'), app_nil_r. }
  assert (Hsub : ∀ x, x ∈ vkeys (delete k (net c)) → x ∈ vkeys (net c)).
  { intros x Hx. rewrite Hperm. by apply elem_of_cons; right. }
  assert (Hcount : voters ids (ballots c) (vkeys (delete k (net c))) from t (default 0 (votes n !! t) + 1)).
  { assert (∃ V, NoDup V ∧ Zlen V = default 0 (votes n !! t) ∧
      ∀ j, j ∈ V → j ∈ ids ∧ (j, t, from) ∈ ballots c ∧ (from, j, t) ∉ vkeys (net c)) as (V & HV1 & HV2 & HV3).
    { destruct (votes n !! t) as [v|] eqn:Ev; [by apply (Hv from n)|]. exists []. split_and!; [constructor|done|].
      by intros j ?%not_elem_of_nil. }
    exists (to :: V). split_and!.
    - apply NoDup_cons. split; [|done]. intros Hin. destruct (HV3 _ Hin) as (_ & _ & Hno). apply Hno. rewrite Hperm. by apply elem_of_cons; left.
    - rewrite Zlen_cons. lia.
    - intros j [->|Hj]%elem_of_cons; [done|]. destruct (HV3 j Hj) as (? & ? & ?). split_and!; auto. }
  split; [by rewrite Hkeys|]. split; [|split].
  - intros m [Hm|Hm]%elem_of_app; [|by eapply calls_vmsg]. apply Hvm. by eapply list_elem_of_delete_inv.
  - intros j m s v Hj Hjv. rewrite Hkeys. destruct (decide (from = j)) as [<-|].
    + rewrite lookup_insert_eq in Hj. injection Hj as <-. rewrite Hvo in Hjv. destruct (decide (t = s)) as [<-|].
      * rewrite lookup_insert_eq in Hjv. injection Hjv as <-. split; [lia|done].
      * rewrite lookup_insert_ne in Hjv by done. destruct (Hv from n s v Hi Hjv) as [? Hvt]. split; [lia|].
        eapply voters_mono; [done| |done]. auto.
    + rewrite lookup_insert_ne in Hj by done. destruct (Hv j m s v Hj Hjv) as [? Hvt]. split; [done|].
      eapply voters_mono; [done| |done]. auto.
  - intros j m Hj Hjr. destruct (decide (from = j)) as [<-|].
    + rewrite lookup_insert_eq in Hj. injection Hj as <-. rewrite Ht'. specialize (Hlead Hjr).
      destruct Hcount as (V & HV1 & HV2 & HV3). exists V. split_and!; [done| |intros j Hj; by destruct (HV3 j Hj) as (? & ? & _)].
      destruct (Hns from n Hi) as (_ & Hp & _). pose proof (Z.div_mod (Zlen (peers n) + 1) 2 ltac:(lia)).
      pose proof (Z.mod_pos_bound (Zlen (peers n) + 1) 2 ltac:(lia)). assert (Zlen ids = Zlen (peers n) + 1) as ->; [|lia].
      rewrite Hp. apply Zlen_filter_ne; [done|]. apply Hdom. eauto.
    + rewrite lookup_insert_ne in Hj by done. by apply Hld.
Qed.

Section step_votes.
Context (ids : list bytes) (Hids : NoDup ids) (c : Cluster).
Context (Hinv : inv ids (nodes c) (net c)) (Hvinv : vinv ids (nodes c) (net c) (ballots c)).

(** A quiet step that starts only AppendEntries calls. *)
Lemma vinv_update_quiet i n n' rest cs bl :
  nodes c !! i = Some n → evolves n n' → quiet n n' → calls_ok n' cs →
  NoDup (vkeys rest) → (∀ x, x ∈ vkeys rest → x ∈ vkeys (net c)) →
  (∀ m, m ∈ rest → vmsg_ok ids (ballots c ++ bl) m) →
  let c' := update c i n' rest cs bl in vinv ids (nodes c') (net c') (ballots c').
Proof.
  intros Hi [Ht _] [Hv Hr] Hcs Hnd Hks Hms c'.
  assert (Hkeys : vkeys (net c') = vkeys rest) by (cbn; by rewrite vkeys_app, (calls_vkeys n'), app_nil_r).
  eapply vinv_quiet; [exact Hvinv|done..|by rewrite Hv|done| | | |].
  - by rewrite Hkeys.
  - by rewrite Hkeys.
  - cbn [net c' update ballots]. intros m [Hm|Hm]%elem_of_app; [by apply Hms|by eapply calls_vmsg].
  - cbn [c' update ballots]. intros x Hx. apply elem_of_app. by left.
Qed.

Lemma rest_vmsg k bl m : m ∈ delete k (net c) → vmsg_ok ids (ballots c ++ bl) m.
Proof.
  intros Hm. apply (vmsg_ok_mono _ (ballots c)); [intros; apply elem_of_app; by left|].
  apply Hvinv. by eapply list_elem_of_delete_inv.
Qed.

Lemma rest_keys k m : net c !! k = Some m → NoDup (vkeys (delete k (net c))) ∧
  (∀ x, x ∈ vkeys (delete k (net c)) → x ∈ vkeys (net c)) ∧
  (∀ x, vkey m = Some x → x ∈ vkeys (net c) ∧ x ∉ vkeys (delete k (net c))).
Proof.
  intros Hk. pose proof (vkeys_delete k (net c) m Hk) as Hp. destruct Hvinv as [Hnd _]. rewrite Hp in Hnd.
  destruct (vkey m) as [y|].
  - apply NoDup_cons in Hnd as [Hn Hnd]. split_and!; [done| |].
    + intros x Hx. rewrite Hp. apply elem_of_cons. by right.
    + intros x [= ->]. split; [rewrite Hp; apply elem_of_cons; by left|done].
  - split_and!; [done| |done]. intros x Hx. by rewrite Hp.
Qed.

Lemma deliver_vinv k m now c' :
  net c !! k = Some m → deliver c m (delete k (net c)) now = Ret c' → vinv ids (nodes c') (net c') (ballots c').
Proof.
  intros Hk. pose proof (list_elem_of_lookup_2 _ _ _ Hk) as Hm. destruct (rest_keys k m Hk) as (Hnd & Hsub & Hkey).
  destruct (proj2 (proj2 Hinv) m Hm) as (sn & Hsn & Hok).
  pose proof (proj1 (proj2 Hinv) _ _ Hsn) as (_ & _ & _ & _ & _ & Hst & _).
  pose proof (proj1 (proj2 Hvinv) m Hm) as Hvok.
  destruct m as [live from to args|from to args reply|live from to args|from to args reply]; cbn [deliver sender msg_ok vkey] in *.
  - destruct (nodes c !! to) as [n|] eqn:En; [|done]. cbn [enabled mbind outcome_bind].
    destruct (HandleRequestVote_inv ids to now args n) as (r & n' & -> & Hn' & Hev & Hq & Hr); [by apply Hinv|lia|].
    cbn [or_panic mbind outcome_bind]. intros [= <-]. destruct (Hkey _ eq_refl) as [Hin Hnin].
    set (bl := if rvr_VoteGranted r then _ else _). destruct Hvok as (Hto & Hne & Hcand).
    eapply vinv_update_quiet; try done; [by constructor|..].
    + destruct live; [|by rewrite app_nil_r]. rewrite vkeys_app. apply NoDup_app. split; [done|]. cbn. split; [|apply NoDup_singleton].
      intros x Hx Hy%list_elem_of_singleton. by subst x.
    + intros x. rewrite vkeys_app. intros [Hx|Hx]%elem_of_app; [auto|]. destruct live; [|by apply not_elem_of_nil in Hx].
      apply list_elem_of_singleton in Hx as ->. done.
    + intros m' [Hm'|Hm']%elem_of_app; [by eapply rest_vmsg|]. destruct live; [|by apply not_elem_of_nil in Hm'].
      apply list_elem_of_singleton in Hm' as ->. split_and!; try done. intros Hgr. apply elem_of_app. right.
      subst bl. rewrite Hgr, Hcand. by apply list_elem_of_singleton.
  - rewrite Hsn. cbn [enabled mbind outcome_bind].
    destruct (onVoteReply_inv ids from (rv_Term args) reply sn) as (n' & cs & -> & Hn' & Hev & Hcs & Hcase); [by apply Hinv|lia|].
    cbn [or_panic mbind outcome_bind]. intros [= <-]. destruct Hcase as [Hq|(Hg & Ht & Ht' & Hvo & Hlead)].
    + eapply vinv_update_quiet; try done. intros m' Hm'. by eapply rest_vmsg.
    + cbn. rewrite app_nil_r. by eapply vinv_counted.
  - destruct (nodes c !! to) as [n|] eqn:En; [|done]. cbn [enabled mbind outcome_bind]. pose proof Hok as (Ha1 & Ha2 & Ha3 & _).
    destruct (HandleAppendEntries_inv ids to now args n) as (r & n' & -> & Hn' & Hev & Hq & Hr); [by apply Hinv|lia..|].
    cbn [or_panic mbind outcome_bind]. intros [= <-]. eapply vinv_update_quiet; try done; [by constructor|..].
    + rewrite vkeys_app. destruct live; cbn; by rewrite app_nil_r.
    + intros x. rewrite vkeys_app. destruct live; cbn; rewrite app_nil_r; auto.
    + intros m' [Hm'|Hm']%elem_of_app; [by eapply rest_vmsg|]. destruct live; [|by apply not_elem_of_nil in Hm'].
      by apply list_elem_of_singleton in Hm' as ->.
  - rewrite Hsn. cbn [enabled mbind outcome_bind].
    destruct (onAppendReply_inv ids from to args reply sn) as (n' & cs & -> & Hn' & Hev & Hcs & Hq); [by apply Hinv|apply Hok..|].
    cbn [or_panic mbind outcome_bind]. intros [= <-]. eapply vinv_update_quiet; try done. intros m' Hm'. by eapply rest_vmsg.
Qed.

Lemma step_vinv ev c' : snapshots ev = false → step ev c = Ret c' → vinv ids (nodes c') (net c') (ballots c').
Proof.
  intros Hsn. pose proof Hinv as (_ & Hns & Hms). pose proof Hvinv as (Hnd & Hvm & _).
  assert (Hall : ∀ bl m, m ∈ net c → vmsg_ok ids (ballots c ++ bl) m).
  { intros bl m Hm. apply (vmsg_ok_mono _ (ballots c)); [intros; apply elem_of_app; by left|auto]. }
  destruct ev as [i now tm|i|i command|k now|k|i|i|i upTo blob]; [..|done]; cbn [step].
  - destruct (nodes c !! i) as [n|] eqn:En; [|done]. cbn [enabled mbind outcome_bind].
    destruct (_ <=? _) eqn:Et; kv_bool; [done|]. cbn [fail_if outcome_bind].
    destruct (electionTick_inv ids i now tm n) as (n' & cs & -> & Hn' & Hev & Hcase); [by apply Hns|lia|].
    cbn [or_panic mbind outcome_bind]. intros [= <-]. destruct Hcase as [[-> ->]|(Htn & Hr & Hvo & li & lt & ->)].
    + eapply vinv_update_quiet; try done; [by constructor|auto].
    + rewrite bool_decide_eq_false_2 by lia. cbn [nodes net ballots update]. rewrite Htn. by apply vinv_election.
  - destruct (nodes c !! i) as [n|] eqn:En; [|done]. cbn [enabled mbind outcome_bind].
    destruct (heartbeatTick n) as [cs|] eqn:Eh; [|done]. cbn [or_panic mbind outcome_bind]. intros [= <-].
    eapply vinv_update_quiet; try done; [apply evolves_refl| |auto].
    unfold heartbeatTick in Eh. case_bool_decide as Hr; [|injection Eh as <-; by constructor].
    destruct (broadcast_ok ids i n (Hns _ _ En) Hr) as (cs' & E & Hcs). by rewrite Eh in E; injection E as <-.
  - destruct (nodes c !! i) as [n|] eqn:En; [|done]. cbn [enabled mbind outcome_bind].
    destruct (_ <=? _) eqn:Et; kv_bool; [done|]. cbn [fail_if outcome_bind].
    destruct (Propose_inv ids i command n) as (r & n' & cs & -> & Hn' & Hev & Hcs & Hq); [by apply Hns|lia|].
    cbn [or_panic mbind outcome_bind]. intros [= <-]. eapply vinv_update_quiet; try done; auto.
  - destruct (net c !! k) as [m|] eqn:Ek; [|done]. cbn [enabled mbind outcome_bind]. by apply deliver_vinv.
  - destruct (net c !! k) as [m|] eqn:Ek; [|done]. cbn [enabled mbind outcome_bind]. intros [= <-]. cbn.
    destruct (rest_keys k m Ek) as (Hnd' & Hsub & _). destruct Hvinv as (_ & _ & Hv & Hld).
    split; [done|]. split; [intros m' Hm'; apply Hvm; by eapply list_elem_of_delete_inv|]. split; [|done].
    intros i n t v Hi Hiv. destruct (Hv i n t v Hi Hiv) as [? Hvt]. split; [done|].
    eapply voters_mono; [done| |done]. auto.
  - destruct (nodes c !! i) as [n|] eqn:En; [|done]. cbn [enabled mbind outcome_bind].
    destruct (_ <=? _); [done|]. cbn [fail_if outcome_bind].
    destruct (applyOne n) as [[m n']|] eqn:Ea; [|done]. cbn [or_panic mbind outcome_bind]. intros [= <-]. cbn.
    destruct (applyOne_inv ids i n m n') as (Hn' & [Ht _] & [Hv Hr]); [by apply Hns|done|].
    eapply vinv_quiet; [exact Hvinv|done..|by rewrite Hv|done|done|auto|auto|auto].
  - destruct (nodes c !! i) as [n|] eqn:En; [|done]. cbn [enabled mbind outcome_bind].
    destruct (restart_inv ids i n) as (n' & -> & Hn' & [Ht _] & Hv & Hr); [by apply Hns|]. cbn [enabled mbind outcome_bind].
    intros [= <-]. cbn.
    assert (Hkeys : vkeys (omap (orphan i) (net c)) `sublist_of` vkeys (net c)).
    { clear. unfold vkeys. induction (net c) as [|m ms IH]; [done|]. cbn.
      destruct m; cbn; try case_bool_decide; cbn; first [done|by constructor]. }
    eapply vinv_quiet; [exact Hvinv|done|done| | | | | |auto].
    + intros t v. rewrite Hv. done.
    + rewrite Hr. done.
    + by eapply sublist_NoDup.
    + intros x Hx. by eapply elem_of_sublist.
    + intros m (m0 & Hm0 & Ho)%list_elem_of_omap. specialize (Hvm m0 Hm0).
      destruct m0; cbn in Ho; try case_bool_decide; try done; by injection Ho as <-.
Qed.

End step_votes.

Lemma run_vinv ids evs c c' :
  NoDup ids → no_snapshots evs → inv ids (nodes c) (net c) → vinv ids (nodes c) (net c) (ballots c) → run evs c = Ret c' →
  vinv ids (nodes c') (net c') (ballots c').
Proof.
  intros Hids Hsn. revert c. induction Hsn as [|ev evs Hev _ IH]; intros c Hinv Hv; cbn [run]; [by intros [= <-]|].
  destruct (step_inv ids ev c Hev Hinv) as [Hg|(i & -> & ->)]; [|done].
  destruct (step ev c) as [c1| |] eqn:Es; [|done..]. cbn. apply IH; [exact Hg|exact (step_vinv ids Hids c Hinv Hv ev c1 Hev Es)].
Qed.

Lemma init_vinv ids : NoDup ids → vinv ids (nodes (init ids)) (net (init ids)) (ballots (init ids)).
Proof.
  intros Hnd. pose proof (init_inv ids Hnd) as (_ & Hns & _).
  assert (Hlk : ∀ j n, nodes (init ids) !! j = Some n → n = fresh ids j).
  { intros j n Hj%elem_of_list_to_map_2. by apply list_elem_of_fmap in Hj as (x & [= -> ->] & _). }
  split; [constructor|]. split; [by intros m ?%not_elem_of_nil|]. split.
  - by intros i n t v ->%Hlk.
  - by intros i n ->%Hlk.
Qed.

(** Two majorities share a member. *)
Lemma most_meet ids P Q : most ids P → most ids Q → ∃ j, P j ∧ Q j.
Proof.
  intros (V & HV1 & HV2 & HV3) (W & HW1 & HW2 & HW3).
  destruct (decide (Exists (λ v, v ∈ W) V)) as [Hex|Hno].
  - apply Exists_exists in Hex as (v & Hv & Hw). exists v. split; [apply HV3, Hv|apply HW3, Hw].
  - exfalso. assert (Hnd : NoDup (V ++ W)).
    { apply NoDup_app. split_and!; try done. intros v Hv Hw. apply Hno, Exists_exists. eauto. }
    assert (Hsub : V ++ W ⊆+ ids).
    { apply NoDup_submseteq; [done|]. intros v [Hv|Hv]%elem_of_app; [apply HV3, Hv|apply HW3, Hv]. }
    apply submseteq_length in Hsub. rewrite length_app in Hsub. unfold Zlen in *. lia.
Qed.

Lemma most_impl ids (P Q : bytes → Prop) : (∀ j, P j → Q j) → most ids P → most ids Q.
Proof. intros H (V & ? & ? & HV). exists V. split_and!; try done. intros j Hj. destruct (HV j Hj). auto. Qed.

Lemma majorities_meet ids bl i j t :
  majority ids bl i t → majority ids bl j t → ∃ v, (v, t, i) ∈ bl ∧ (v, t, j) ∈ bl.
Proof. apply most_meet. Qed.

(** ** Example runs *)

Definition A : bytes := bs "a".
Definition B : bytes := bs "b".
Definition C : bytes := bs "c".

(** A and C stand for election in term 1 and B votes for A, which becomes
    leader. A's first heartbeat makes B forget its vote, and B votes for C as
    well. *)
Definition ex_two_leaders : list event :=
  [EElection A 300 300; EElection C 300 300;
   EDeliver 0 301;   (* A's request reaches B, which votes for A *)
   EDeliver 3 302;   (* the vote reaches A *)
   EDeliver 3 303;   (* A's heartbeat reaches B *)
   EDeliver 2 304;   (* C's request reaches B, which votes for C *)
   EDeliver 4 305].  (* the vote reaches C *)

(** Then A commits its entry with B's help, and C, whose entry has the same
    term and index, commits its own with B's help. *)
Definition ex_divergence : list event :=
  ex_two_leaders ++
  [EPropose A (Some (bs "x")); EPropose C (Some (bs "y"));
   EDeliver 6 306;   (* A's entry reaches B *)
   EDeliver 9 307;   (* B's acknowledgement reaches A *)
   EApply A;
   EDeliver 8 308;   (* C's entry reaches B, which believes it has it *)
   EDeliver 8 309;   (* B's acknowledgement reaches C *)
   EApply C].

Definition state_of (c : Cluster) (i : bytes) : option (Role * Z) :=
  (λ n, (role n, currentTerm n)) <$> nodes c !! i.

(** Evaluate a run and a decidable property of its result. *)
Lemma run_check evs c (P : Cluster → Prop) `{∀ c', Decision (P c')} :
  (match run evs c with Ret c' => bool_decide (P c') | _ => false end) = true →
  ∃ c', run evs c = Ret c' ∧ P c'.
Proof. destruct (run evs c) as [c'| |]; [|done..]. intros H1%bool_decide_eq_true. eauto. Qed.

(** A alone stands for election and wins with B's vote. *)
Definition ex_one_leader : list event := [EElection A 300 300; EDeliver 0 301; EDeliver 1 302].

(** A wins term 1, commits an entry with B and takes a snapshot. *)
Definition ex_snapshot_run : list event :=
  ex_one_leader ++ [EPropose A (Some (bs "x")); EDeliver 3 310; EDeliver 4 311; EApply A; ESnapshot A 1 (bs "{}")].

Lemma no_snapshots_check evs : forallb (λ ev, negb (snapshots ev)) evs = true → no_snapshots evs.
Proof. induction evs as [|ev evs IH]; [constructor|]. cbn. intros [H1 H2]%andb_true_iff. apply List.Forall_cons; [by apply negb_true_iff|by apply IH]. Qed.

Lemma snapshot_step_total ev c : snapshots ev = true → step ev c ≠ Panic.
Proof.
  destruct ev as [| | | | | | |i upTo blob]; try done. intros _. cbn [step].
  destruct (nodes c !! i) as [n|]; [|done]. cbn [enabled mbind outcome_bind]. destruct (upTo <? 0) eqn:E; [done|]. kv_bool.
  cbn [fail_if outcome_bind]. destruct (TakeSnapshot_total upTo blob n ltac:(lia)) as [[err n'] ->]. done.
Qed.

(** ** Properties *)

(** In every state that a cluster reaches without snapshots no event but an
    application can panic. *)
Lemma step_no_panic ids evs c ev :
  NoDup ids → no_snapshots evs → run evs (init ids) = Ret c → (∀ i, ev ≠ EApply i) → step ev c ≠ Panic.
Proof.
  intros Hids Hsn Hrun Hev. pose proof (run_inv ids evs _ _ Hsn (init_inv ids Hids) Hrun) as Hinv.
  destruct (snapshots ev) eqn:Es; [by apply snapshot_step_total|].
  destruct (step_inv ids ev c Es Hinv) as [Hg|(i & -> & _)]; [|by destruct (Hev i)]. by destruct (step ev c).
Qed.

(** With snapshots it does panic. A commits an entry with B and takes a
    snapshot of it; its next heartbeat indexes past the end of its log. *)
Theorem raft_snapshot_run_panics :
  ∃ c, run ex_snapshot_run (init [A; B; C]) = Ret c ∧ state_of c A = Some (Leader, 1) ∧ step (EHeartbeat A) c = Panic.
Proof.
  destruct (run_check ex_snapshot_run (init [A; B; C]) (λ c, state_of c A = Some (Leader, 1) ∧
    (λ n, match heartbeatTick n with None => true | _ => false end) <$> nodes c !! A = Some true)) as (c & Hc & Hst & Hh); [vm_compute; reflexivity|].
  exists c. split; [done|]. split; [done|]. cbn [step]. destruct (nodes c !! A) as [n|]; [|done].
  injection Hh as Hh. cbn [enabled mbind outcome_bind]. by destruct (heartbeatTick n).
Qed.

(** C4: Election safety, conditionally. As long as no node has given its vote
    in a term to two candidates and none has taken a snapshot, there is at most
    one leader per term. So counting votes, discarding stale replies, restarting
    and the majority rule are right; without snapshots, what breaks election
    safety is only a vote given twice. *)
Theorem raft_election_safety ids evs c i j n m :
  NoDup ids → no_snapshots evs → run evs (init ids) = Ret c →
  (∀ v t a b, (v, t, a) ∈ ballots c → (v, t, b) ∈ ballots c → a = b) →
  nodes c !! i = Some n → nodes c !! j = Some m → role n = Leader → role m = Leader →
  currentTerm n = currentTerm m → i = j.
Proof.
  intros Hids Hsn Hrun Hone Hi Hj Hn Hm Ht.
  pose proof (run_vinv ids evs _ _ Hids Hsn (init_inv ids Hids) (init_vinv ids Hids) Hrun) as (_ & _ & _ & Hld).
  pose proof (Hld i n Hi Hn) as Mi. pose proof (Hld j m Hj Hm) as Mj. rewrite Ht in Mi.
  destruct (majorities_meet ids _ i j _ Mi Mj) as (v & Hvi & Hvj). by eapply Hone.
Qed.

Lemma raft_election_safety_witness :
  ∃ c n, run ex_one_leader (init [A; B; C]) = Ret c ∧ nodes c !! A = Some n ∧ role n = Leader ∧
    ∀ j m, nodes c !! j = Some m → role m = Leader → currentTerm n = currentTerm m → A = j.
Proof.
  destruct (run_check ex_one_leader (init [A; B; C]) (λ c, state_of c A = Some (Leader, 1) ∧
    ballots c = [(A, 1, A); (B, 1, A)])) as (c & Hc & Hst & Hbl); [vm_compute; reflexivity|].
  unfold state_of in Hst. destruct (nodes c !! A) as [n|] eqn:En; [|discriminate]. injection Hst as Hr Ht.
  exists c, n. split; [exact Hc|]. split; [exact En|]. split; [exact Hr|]. intros j m Hj Hm Htm.
  apply (raft_election_safety [A; B; C] ex_one_leader c A j n m); try assumption.
  - apply (bool_decide_unpack _). vm_compute. exact I.
  - apply no_snapshots_check. reflexivity.
  - rewrite Hbl. intros v t a b Ha%list_elem_of_In Hb%list_elem_of_In. cbn in Ha, Hb.
    destruct Ha as [Ha|[Ha|[]]], Hb as [Hb|[Hb|[]]]; congruence.
Defined.

(** Election safety does not hold. In a cluster of three nodes, without
    any crash and with working state files, two nodes can be leaders of the
    same term: [HandleAppendEntries] clears the receiver's vote also when the
    request is of the term it voted in. *)
Theorem raft_two_leaders :
  ∃ c, run ex_two_leaders (init [A; B; C]) = Ret c ∧
    state_of c A = Some (Leader, 1) ∧ state_of c C = Some (Leader, 1) ∧
    (B, 1, A) ∈ ballots c ∧ (B, 1, C) ∈ ballots c.
Proof.
  apply (run_check ex_two_leaders (init [A; B; C]) (λ c,
    state_of c A = Some (Leader, 1) ∧ state_of c C = Some (Leader, 1) ∧
    (B, 1, A) ∈ ballots c ∧ (B, 1, C) ∈ ballots c)).
  vm_compute. reflexivity.
Qed.

(** C38: State machine safety does not hold. The same three nodes can commit
    and apply different commands at the same index. *)
Theorem raft_divergent_commit :
  ∃ c, run ex_divergence (init [A; B; C]) = Ret c ∧
    applied c = [(A, mkApply 1 (bs "x")); (C, mkApply 1 (bs "y"))].
Proof.
  apply (run_check ex_divergence (init [A; B; C]) (λ c,
    applied c = [(A, mkApply 1 (bs "x")); (C, mkApply 1 (bs "y"))])).
  vm_compute. reflexivity.
Qed.
