(* ===== verification/RaftSteps.v ===== *)
(** * RaftSteps: what a step of a cluster does to a node's log

    Every step of RaftCluster that is not a snapshot changes at most one node, and as far as terms,
    logs, votes and commit indices are concerned it is of one of seven kinds.
    The safety proofs of RaftLogs and RaftSafety go by cases on the kind
    instead of on the handlers of internal/raft/raft.go. *)
From stdpp Require Import prelude gmap list.
From Stdlib Require Import ZArith Lia Strings.Byte.
From S2P Require Import Prelude RaftNode RaftCluster.
Local Open Scope Z_scope.

(** ** The kinds of steps *)

(** The log [l] contains what the request says: the entry before, and the
    entries sent. *)
Definition covers (args : AppendEntriesArgs) (l : list LogEntry) : Prop :=
  0 ≤ ae_PrevLogIndex args ∧
  Term <$> l !! Z.to_nat (ae_PrevLogIndex args) = Some (ae_PrevLogTerm args) ∧
  ae_Entries args `prefix_of` drop (S (Z.to_nat (ae_PrevLogIndex args))) l.

(** The end of the log that a candidate announces. *)
Definition announces (args : RequestVoteArgs) (l : list LogEntry) : Prop :=
  rv_LastLogIndex args = Zlen l - 1 ∧ Term <$> last l = Some (rv_LastLogTerm args).

(** The last index that a request which succeeded is known to have stored. *)
Definition ae_last (args : AppendEntriesArgs) : Z := ae_PrevLogIndex args + Zlen (ae_Entries args).

(** How node [i] goes from [n] to [n'], the votes it gives and the index it
    acknowledges. *)
Inductive kind (ev : event) (c : Cluster) (i : bytes) (n n' : Node) : list (bytes * Z * bytes) → option (Z * Z) → Prop :=
| KQuiet bl :
    log n' = log n → currentTerm n ≤ currentTerm n' →
    (role n' ≠ Follower → role n' = role n ∧ currentTerm n' = currentTerm n ∧ matchIndex n' = matchIndex n) →
    commitIndex n' = commitIndex n →
    bl = [] ∨ (∃ live from args, VoteReq live from i args ∈ net c ∧ bl = [(i, rv_Term args, rv_CandidateId args)] ∧
                 currentTerm n' = rv_Term args ∧ up_to_date args (log n)) →
    kind ev c i n n' bl None
| KRestart :
    ev = ERestart i → log n' = log n → currentTerm n' = currentTerm n → role n' = Follower → commitIndex n' = 0 →
    kind ev c i n n' [] None
| KElect :
    log n' = log n → currentTerm n' = currentTerm n + 1 → role n' = Candidate → commitIndex n' = commitIndex n →
    kind ev c i n n' [(i, currentTerm n', i)] None
| KWin :
    log n' = log n → currentTerm n' = currentTerm n → role n = Candidate → role n' = Leader →
    commitIndex n' = commitIndex n → (∀ p, default 0 (matchIndex n' !! p) = 0) →
    kind ev c i n n' [] None
| KPropose cmd :
    log n' = log n ++ [mkEntry (currentTerm n) cmd] → currentTerm n' = currentTerm n → role n = Leader →
    role n' = Leader → commitIndex n' = commitIndex n →
    (∀ p, p ≠ i → matchIndex n' !! p = matchIndex n !! p) →
    kind ev c i n n' [] None
| KAccept live from args :
    AppendReq live from i args ∈ net c → currentTerm n ≤ ae_Term args → currentTerm n' = ae_Term args →
    role n' = Follower → Term <$> log n !! Z.to_nat (ae_PrevLogIndex args) = Some (ae_PrevLogTerm args) →
    log n' = accepted args (log n) → commitIndex n' = new_commit args (commitIndex n) →
    kind ev c i n n' [] (Some (ae_Term args, ae_last args))
| KAck peer args reply :
    AppendRep i peer args reply ∈ net c → aer_Success reply = true → ae_Term args = currentTerm n →
    role n = Leader → role n' = Leader → currentTerm n' = currentTerm n → log n' = log n →
    (∀ p, matchIndex n' !! p = matchIndex n !! p ∨ (p = peer ∧ matchIndex n' !! p = Some (ae_last args))) →
    commitIndex n' = commitIndex n ∨
      (commitIndex n < commitIndex n' ∧ Term <$> log n' !! Z.to_nat (commitIndex n') = Some (currentTerm n') ∧
       Zlen (peers n') + 1 < replicas n' (commitIndex n') * 2) →
    kind ev c i n n' [] None.

(** One iteration of the apply loop, with the message sent, if any. *)
Definition applies (i : bytes) (n n' : Node) (ap : list (bytes * ApplyMsg)) : Prop :=
  lastApplied n < commitIndex n ∧ lastApplied n' = u64 (lastApplied n + 1) ∧ log n' = log n ∧
  ∃ e, log n !! Z.to_nat (lastApplied n') = Some e ∧
    ap = match Command e with Some x => [(i, mkApply (lastApplied n') x)] | None => [] end.

(** A message in the network after the step: an old one, or one that the new
    state of node [i] accounts for. *)
Definition sent (c : Cluster) (i : bytes) (n' : Node) (ak : option (Z * Z)) (m : rpc) : Prop :=
  match m with
  | VoteReq _ from to args =>
      (∃ live, VoteReq live from to args ∈ net c) ∨
      (from = i ∧ role n' = Candidate ∧ rv_Term args = currentTerm n' ∧ announces args (log n'))
  | VoteRep _ _ _ _ => True
  | AppendReq _ from to args =>
      (∃ live, AppendReq live from to args ∈ net c) ∨
      (from = i ∧ role n' = Leader ∧ ae_Term args = currentTerm n' ∧ covers args (log n') ∧
       ae_LeaderCommit args = commitIndex n' ∧ ae_last args = Zlen (log n') - 1)
  | AppendRep from to args reply =>
      AppendRep from to args reply ∈ net c ∨
      (to = i ∧ (∃ live, AppendReq live from to args ∈ net c) ∧
       (aer_Success reply = true → ak = Some (ae_Term args, ae_last args)))
  end.

(** Messages that were there before. *)
Lemma sent_old c i n' ak m : m ∈ net c → sent c i n' ak m.
Proof. destruct m; cbn; eauto. Qed.

(** ** The calls of a leader and of a candidate *)

Lemma sendAppendEntries_covers n p x :
  sendAppendEntries n p = Some x →
  ∃ args, x = CallAppend p args ∧ ae_Term args = currentTerm n ∧ covers args (log n) ∧
    ae_LeaderCommit args = commitIndex n ∧ ae_last args = Zlen (log n) - 1.
Proof.
  unfold sendAppendEntries. set (nx := if _ <? 1 then _ else _).
  destruct (log_at (log n) (nx - 1)) as [e|] eqn:Ee; [|done]. cbn [mbind option_bind]. intros [= <-].
  apply log_at_Some in Ee as [Hr He]. eexists. split; [done|]. cbn. split; [done|].
  split; [|split; [reflexivity|]].
  2: { unfold ae_last. cbn [ae_PrevLogIndex ae_Entries]. destruct (nx <? Zlen (log n)) eqn:E; kv_bool; [|unfold Zlen at 1; cbn; lia].
       rewrite Zlen_drop; unfold Zlen in *; lia. }
  split; [cbn; lia|]. cbn. rewrite He. split; [done|]. replace (S (Z.to_nat (nx - 1))) with (Z.to_nat nx) by lia.
  destruct (nx <? Zlen (log n)); [reflexivity|apply prefix_nil].
Qed.

Lemma broadcast_covers n cs :
  broadcastAppendEntries n = Some cs → ∀ x, x ∈ cs →
  ∃ p args, x = CallAppend p args ∧ ae_Term args = currentTerm n ∧ covers args (log n) ∧
    ae_LeaderCommit args = commitIndex n ∧ ae_last args = Zlen (log n) - 1.
Proof.
  intros H%mapM_Some x Hx. apply list_elem_of_lookup in Hx as [k Hk].
  destruct (Forall2_lookup_r _ _ _ _ _ H Hk) as (p & _ & Hs).
  apply sendAppendEntries_covers in Hs as (args & -> & ?). eauto.
Qed.

(** The calls started by a node in state [n']. *)
Definition calls_sent (i : bytes) (n' : Node) (cs : list call) : Prop :=
  ∀ c ak x, x ∈ cs → sent c i n' ak (to_rpc i x).

Lemma calls_sent_nil i n' : calls_sent i n' [].
Proof. by intros c ak x ?%not_elem_of_nil. Qed.

Lemma broadcast_sent i n cs : broadcastAppendEntries n = Some cs → role n = Leader → calls_sent i n cs.
Proof.
  intros Hb Hr c ak x Hx. destruct (broadcast_covers n cs Hb x Hx) as (p & args & -> & ? & ? & ? & ?).
  cbn. right. by split_and!.
Qed.

Section handlers.
Context (ids : list bytes) (ev : event) (i : bytes) (c : Cluster).

Lemma becomeFollower_kind n t : currentTerm n ≤ t → kind ev c i n (becomeFollower t n) [] None.
Proof.
  intros Ht. destruct (becomeFollower_eq t n) as (d & fl & ->). apply KQuiet; cbn; auto. done.
Qed.

Lemma same_kind n : kind ev c i n n [] None.
Proof. apply KQuiet; auto. done. Qed.

Lemma electionTick_kind now timeout n n' cs :
  node_inv ids i n → currentTerm n + 1 < 2 ^ 64 → electionTick now timeout n = Some (n', cs) →
  calls_sent i n' cs ∧ kind ev c i n n' (if bool_decide (currentTerm n' = currentTerm n) then [] else [(i, currentTerm n', i)]) None.
Proof.
  intros Hn Ht. unfold electionTick. destruct (_ && _).
  2: { intros [= <- <-]. rewrite bool_decide_eq_true_2 by done. split; [apply calls_sent_nil|apply same_kind]. }
  pose proof (node_inv_log ids i n Hn) as Hl. destruct Hn as (Hid & _ & _ & _ & _ & Hc & _).
  unfold startElection. set (n1 := set_heartbeat _ _). destruct (persist_eq n1) as (d & fl & ->).
  destruct (lastLogIndexAndTerm_ok (set_disk d (snapDisk n1) fl n1) Hl) as (e & He & ->). cbn [mbind option_bind].
  assert (Hct : currentTerm n1 = currentTerm n + 1) by (cbn; apply u64_id; lia).
  intros [= <- <-]. cbn [currentTerm set_votes set_disk]. rewrite bool_decide_eq_false_2 by lia. split.
  - intros c' ak x (p & -> & _)%list_elem_of_fmap. right. split_and!; try done. split; [done|]. exact (f_equal (fmap Term) He).
  - match goal with |- kind _ _ _ _ ?n2 _ _ => change (kind ev c i n n2 [(i, currentTerm n2, i)] None) end.
    by apply KElect.
Qed.

Lemma heartbeatTick_sent n cs : heartbeatTick n = Some cs → calls_sent i n cs.
Proof.
  unfold heartbeatTick. case_bool_decide; [by intros; apply broadcast_sent|]. intros [= <-]. apply calls_sent_nil.
Qed.

Lemma match_zero (ps : list bytes) (p : bytes) :
  default 0 ((list_to_map ((λ p : bytes, (p, 0)) <$> ps) : gmap bytes Z) !! p) = 0.
Proof.
  induction ps as [|q ps IH]; [done|]. cbn. destruct (decide (q = p)) as [->|].
  - by rewrite lookup_insert_eq.
  - by rewrite lookup_insert_ne.
Qed.

Lemma becomeLeader_kind v n n' cs :
  becomeLeader (set_votes v n) = Some (n', cs) → role n = Candidate → calls_sent i n' cs ∧ kind ev c i n n' [] None.
Proof.
  unfold becomeLeader. destruct (lastLogIndexAndTerm _) as [[li lt]|]; [|done]. cbn [mbind option_bind].
  destruct (broadcastAppendEntries _) as [cs'|] eqn:Eb; [|done]. cbn [mbind option_bind]. intros [= <- <-] Hr.
  split; [by eapply broadcast_sent|]. apply KWin; try done. intros p. apply match_zero.
Qed.

Lemma onVoteReply_kind term reply n n' cs :
  onVoteReply term reply n = Some (n', cs) → calls_sent i n' cs ∧ kind ev c i n n' [] None.
Proof.
  unfold onVoteReply. destruct (currentTerm n <? rvr_Term reply) eqn:Et; kv_bool.
  { intros [= <- <-]. split; [apply calls_sent_nil|]. apply becomeFollower_kind. lia. }
  destruct (negb (bool_decide (role n = Candidate)) || _) eqn:Es.
  { intros [= <- <-]. split; [apply calls_sent_nil|apply same_kind]. }
  apply orb_false_iff in Es as [Ec _]. kv_bool. destruct (rvr_VoteGranted reply).
  2: { intros [= <- <-]. split; [apply calls_sent_nil|apply same_kind]. }
  destruct (_ <=? _).
  - intros H. by apply becomeLeader_kind in H.
  - intros [= <- <-]. split; [apply calls_sent_nil|]. apply KQuiet; auto. done.
Qed.

End handlers.

Section more_handlers.
Context (ids : list bytes) (ev : event) (i : bytes) (c : Cluster).

Lemma maybeAdvance_kind n n' :
  maybeAdvanceCommitIndex n = Some n' → 0 ≤ commitIndex n →
  currentTerm n' = currentTerm n ∧ role n' = role n ∧ log n' = log n ∧ matchIndex n' = matchIndex n ∧
  (commitIndex n' = commitIndex n ∨
    (commitIndex n < commitIndex n' ∧ Term <$> log n' !! Z.to_nat (commitIndex n') = Some (currentTerm n') ∧
     Zlen (peers n') + 1 < replicas n' (commitIndex n') * 2)).
Proof.
  unfold maybeAdvanceCommitIndex. intros H Hc.
  assert (Hcase : n' = n ∨ ∃ idx, advance_go n (length (log n) - 1) = Some idx ∧ n' = set_commit idx (lastApplied n) true n).
  { destruct (log n) as [|e l] eqn:El; [destruct (_ <? _); [done|]; left; congruence|].
    destruct (advance_go n _) as [idx|]; injection H as <-; eauto. }
  destruct Hcase as [->|(idx & Ea & ->)]; [tauto|].
  apply advance_go_spec in Ea as (Hlt & Ht & Hr). split_and!; try done. right. split; [cbn; lia|]. by split.
Qed.

Lemma onAppendReply_kind peer args reply n n' cs :
  node_inv ids i n → 0 ≤ ae_last args < 2 ^ 62 → AppendRep i peer args reply ∈ net c →
  onAppendReply peer args reply n = Some (n', cs) → calls_sent i n' cs ∧ kind ev c i n n' [] None.
Proof.
  intros Hn Hal Hin. unfold onAppendReply. destruct (currentTerm n <? aer_Term reply) eqn:Et; kv_bool.
  { intros [= <- <-]. split; [apply calls_sent_nil|]. apply becomeFollower_kind. lia. }
  destruct (negb (bool_decide (role n = Leader)) || _) eqn:Es.
  { intros [= <- <-]. split; [apply calls_sent_nil|apply same_kind]. }
  apply orb_false_iff in Es as [Ec Etm]. kv_bool. destruct (aer_Success reply) eqn:Esu.
  - fold (ae_last args). rewrite (u64_id (ae_last args)) by lia. set (mt := if _ <? ae_last args then _ else _).
    set (n1 := set_indices _ mt n). destruct (maybeAdvanceCommitIndex n1) as [n2|] eqn:Ea; [|done].
    cbn [mbind option_bind]. intros [= <- <-]. split; [apply calls_sent_nil|].
    apply maybeAdvance_kind in Ea as (Ht & Hr & Hl & Hmt & Hco); [|apply Hn].
    eapply (KAck ev c i n n2 peer args reply); try done; [by rewrite Hr|]. intros p. rewrite Hmt.
    change (matchIndex n1) with mt. subst mt. clear. destruct (default 0 (matchIndex n !! peer) <? ae_last args); [|by left].
    destruct (decide (peer = p)) as [->|]; [right; by rewrite lookup_insert_eq|left; by rewrite lookup_insert_ne].
  - destruct (log n); [done|]. set (n1 := set_indices _ _ n).
    destruct (sendAppendEntries n1 peer) as [x|] eqn:Ex; [|done]. cbn [mbind option_bind]. intros [= <- <-].
    apply sendAppendEntries_covers in Ex as (a & -> & Ha1 & Ha2 & Ha3 & Ha4). split.
    + intros c' ak y ->%list_elem_of_singleton. right. by split_and!.
    + apply KQuiet; auto. done.
Qed.

Lemma HandleRequestVote_kind now live from args n r n' :
  node_inv ids i n → VoteReq live from i args ∈ net c → HandleRequestVote now args n = Some (r, n') →
  kind ev c i n n' (if rvr_VoteGranted r then [(i, rv_Term args, rv_CandidateId args)] else []) None.
Proof.
  intros Hn Hin HH. pose proof (node_inv_log ids i n Hn) as Hl.
  destruct (HandleRequestVote_cases now args n Hl)
    as (r' & n0 & HH' & (_ & _ & _ & _ & _ & _ & Hmt & _) & Hlog & Hc & Hct & Hrt & Hro & Hg & _).
  rewrite HH in HH'. injection HH' as <- <-. apply KQuiet; [done|lia| |done|].
  - rewrite Hro. destruct (_ <? _) eqn:E; [done|]. kv_bool. intros _. split_and!; [done|lia|done].
  - destruct (rvr_VoteGranted r); [|by left]. right. destruct (proj1 Hg eq_refl) as (? & ? & _).
    exists live, from, args. split_and!; [done|done|lia|done].
Qed.

Lemma HandleAppendEntries_kind now live from args n r n' :
  node_inv ids i n → 0 ≤ ae_PrevLogIndex args → ae_last args + 1 < 2 ^ 62 → AppendReq live from i args ∈ net c →
  HandleAppendEntries now args n = Some (r, n') →
  ∃ ak, kind ev c i n n' [] ak ∧ (aer_Success r = true → ak = Some (ae_Term args, ae_last args)).
Proof.
  intros Hn Hp Hal Hin HH. pose proof (node_inv_log ids i n Hn) as Hl. unfold ae_last in Hal.
  destruct (decide (ae_Term args < currentTerm n)) as [Hst|Hst].
  { rewrite (HandleAppendEntries_stale now args n Hst) in HH. injection HH as <- <-. exists None.
    split; [apply same_kind|done]. }
  destruct (HandleAppendEntries_cases now args n Hl) as (r' & n0 & HH' & _ & Hct & _ & Hro & _ & Hcases); [split; lia|lia|].
  rewrite HH in HH'. injection HH' as <- <-.
  assert (Hrej : log n' = log n → commitIndex n' = commitIndex n → kind ev c i n n' [] None).
  { intros. apply KQuiet; auto; [lia|]. by rewrite Hro. }
  destruct Hcases as [(_ & Hlog & Hc & Hs & _)|[(t & _ & _ & Hlog & Hc & Hs & _)|(Hat & Hlog & Hc & _)]].
  - exists None. rewrite Hs. by split; [apply Hrej|].
  - exists None. rewrite Hs. by split; [apply Hrej|].
  - eexists. split; [|done]. eapply KAccept; try done. lia.
Qed.

Lemma Propose_kind command n r n' cs :
  node_inv ids i n → Propose command n = Some (r, n', cs) → calls_sent i n' cs ∧ kind ev c i n n' [] None.
Proof.
  intros (Hid & _). unfold Propose. case_bool_decide as Hr; cbn [negb].
  2: { intros [= <- <- <-]. split; [apply calls_sent_nil|apply same_kind]. }
  set (n1 := set_indices _ _ _). destruct (persist_eq n1) as (d & fl & ->).
  destruct (broadcastAppendEntries _) as [cs'|] eqn:Eb; [|done]. cbn [mbind option_bind]. intros [= <- <- <-].
  split; [by eapply broadcast_sent|]. eapply KPropose; try done. intros p Hp. cbn. apply lookup_insert_ne. congruence.
Qed.

Lemma applyOne_kind n m n' :
  applyOne n = Some (m, n') → kind ev c i n n' [] None ∧ commitIndex n' = commitIndex n ∧
  (lastApplied n < commitIndex n → applies i n n' match m with Some a => [(i, a)] | None => [] end).
Proof.
  unfold applyOne. destruct (log_at _ _) as [e|] eqn:Ee; [|done]. cbn [mbind option_bind]. intros [= <- <-].
  apply log_at_Some in Ee as [Hr Hlk]. split; [apply KQuiet; auto; done|]. split; [done|]. intros Hlt.
  split; [done|]. split; [done|]. split; [done|]. exists e. split; [done|]. by destruct (Command e).
Qed.

Lemma restart_kind n n' : ev = ERestart i → node_inv ids i n → restart [] n = Some n' → kind ev c i n n' [] None.
Proof.
  intros Hev (_ & _ & H3 & (Hs & _ & Hne & Hd) & _). unfold restart, NewNode, LatestSnapshot, restoreState. cbn. rewrite Hs, H3.
  destruct Hd as [Hd|(Hd & _ & Ht & _ & Hl)]; rewrite Hd; cbn.
  - destruct (log n) as [|e l] eqn:El; [done|]. intros [= <-]. by apply KRestart.
  - intros [= <-]. by apply KRestart.
Qed.

End more_handlers.

(** ** Every step is of one of the kinds *)

Lemma becomeFollower_la t n : lastApplied (becomeFollower t n) = lastApplied n.
Proof. by destruct (becomeFollower_eq t n) as (d & fl & ->). Qed.

Lemma becomeLeader_la n n' cs : becomeLeader n = Some (n', cs) → lastApplied n' = lastApplied n.
Proof.
  unfold becomeLeader. destruct (lastLogIndexAndTerm _) as [[li lt]|]; [|done]. cbn [mbind option_bind].
  destruct (broadcastAppendEntries _); [|done]. intros [= <- <-]. done.
Qed.

Lemma electionTick_la now tm n n' cs : electionTick now tm n = Some (n', cs) → lastApplied n' = lastApplied n.
Proof.
  unfold electionTick. destruct (_ && _); [|intros [= <- <-]; done].
  unfold startElection. set (n1 := set_heartbeat _ _). destruct (persist_eq n1) as (d & fl & ->).
  destruct (lastLogIndexAndTerm _) as [[li lt]|]; [|done]. intros [= <- <-]. done.
Qed.

Lemma onVoteReply_la term reply n n' cs : onVoteReply term reply n = Some (n', cs) → lastApplied n' = lastApplied n.
Proof.
  unfold onVoteReply. destruct (_ <? _); [intros [= <- <-]; apply becomeFollower_la|].
  destruct (_ || _); [intros [= <- <-]; done|].
  destruct (rvr_VoteGranted reply); [|intros [= <- <-]; done].
  destruct (_ <=? _); [|intros [= <- <-]; done]. by intros ->%becomeLeader_la.
Qed.

Lemma onAppendReply_la peer args reply n n' cs : onAppendReply peer args reply n = Some (n', cs) → lastApplied n' = lastApplied n.
Proof.
  unfold onAppendReply. destruct (_ <? _); [intros [= <- <-]; apply becomeFollower_la|].
  destruct (_ || _); [intros [= <- <-]; done|]. destruct (aer_Success reply).
  - destruct (maybeAdvanceCommitIndex _) as [n2|] eqn:E; [|done]. intros [= <- <-].
    by apply maybeAdvance_eq in E as [->|[cc ->]].
  - destruct (log n); [done|]. destruct (sendAppendEntries _ _); [|done]. intros [= <- <-]. done.
Qed.

Lemma HandleRequestVote_la now args n r n' :
  log_ok (log n) → HandleRequestVote now args n = Some (r, n') → lastApplied n' = lastApplied n.
Proof.
  intros Hl HH. destruct (HandleRequestVote_cases now args n Hl) as (r' & m & HH' & (_ & _ & _ & _ & Hla & _) & _).
  rewrite HH in HH'. injection HH' as <- <-. done.
Qed.

Lemma HandleAppendEntries_la now args n r n' :
  log_ok (log n) → ae_fits args → HandleAppendEntries now args n = Some (r, n') → lastApplied n' = lastApplied n.
Proof.
  intros Hl Hf HH. destruct (decide (ae_Term args < currentTerm n)) as [?|?].
  { rewrite HandleAppendEntries_stale in HH by done. injection HH as <- <-. done. }
  destruct (HandleAppendEntries_cases now args n Hl Hf) as (r' & m & HH' & (_ & _ & _ & _ & Hla & _) & _); [lia|].
  rewrite HH in HH'. injection HH' as <- <-. done.
Qed.

Lemma Propose_la command n r n' cs : Propose command n = Some (r, n', cs) → lastApplied n' = lastApplied n.
Proof.
  unfold Propose. destruct (negb _); [intros [= <- <- <-]; done|]. set (n1 := set_indices _ _ _).
  destruct (persist_eq n1) as (d & fl & ->). destruct (broadcastAppendEntries _); [|done]. intros [= <- <- <-]. done.
Qed.

Lemma restart_la ids i n n' : node_inv ids i n → restart [] n = Some n' → lastApplied n' = 0.
Proof.
  intros (_ & _ & H3 & (Hs & _ & _ & Hd) & _). unfold restart, NewNode, LatestSnapshot, restoreState. cbn.
  rewrite Hs, H3. destruct Hd as [Hd|(Hd & _)]; rewrite Hd; cbn; [destruct (log n)|]; intros [= <-]; done.
Qed.

(** What is applied changes only in the apply loop and in a restart. *)
Definition lives (ev : event) (i : bytes) (n n' : Node) (ap : list (bytes * ApplyMsg)) : Prop :=
  (ev = ERestart i ∧ lastApplied n' = 0 ∧ ap = []) ∨
  ((∀ j, ev ≠ ERestart j) ∧ commitIndex n' = commitIndex n ∧ applies i n n' ap) ∨
  ((∀ j, ev ≠ ERestart j) ∧ lastApplied n' = lastApplied n ∧ ap = []).

(** One step at node [i]. *)
Record stepped (ev : event) (c c' : Cluster) (i : bytes) (n n' : Node) (bl : list (bytes * Z * bytes)) (ak : option (Z * Z))
    (ap : list (bytes * ApplyMsg)) : Prop := {
  s_node : nodes c !! i = Some n;
  s_nodes : nodes c' = <[i := n']> (nodes c);
  s_ballots : ballots c' = ballots c ++ bl;
  s_applied : applied c' = applied c ++ ap;
  s_kind : kind ev c i n n' bl ak;
  s_net : ∀ m, m ∈ net c' → sent c i n' ak m;
  s_lives : lives ev i n n' ap
}.
Arguments s_node {_ _ _ _ _ _ _ _ _} _.
Arguments s_nodes {_ _ _ _ _ _ _ _ _} _.
Arguments s_ballots {_ _ _ _ _ _ _ _ _} _.
Arguments s_applied {_ _ _ _ _ _ _ _ _} _.
Arguments s_kind {_ _ _ _ _ _ _ _ _} _.
Arguments s_net {_ _ _ _ _ _ _ _ _} _ _ _.
Arguments s_lives {_ _ _ _ _ _ _ _ _} _.


Lemma stepped_update ev c i n n' rest cs bl ak :
  (∀ j, ev ≠ ERestart j) → nodes c !! i = Some n → kind ev c i n n' bl ak → calls_sent i n' cs → (∀ m, m ∈ rest → sent c i n' ak m) → lastApplied n' = lastApplied n →
  stepped ev c (update c i n' rest cs bl) i n n' bl ak [].
Proof.
  intros Hev Hi Hk Hcs Hrest Hla. split; try done; [by rewrite app_nil_r| |by right; right].
  cbn [net update]. intros m [Hm|Hm]%elem_of_app; [by apply Hrest|].
  apply list_elem_of_fmap in Hm as (x & -> & Hx). by apply Hcs.
Qed.

Lemma rest_sent c k i n' ak m : m ∈ delete k (net c) → sent c i n' ak m.
Proof. intros Hm. apply sent_old. by eapply list_elem_of_delete_inv. Qed.

(** A message is lost. *)
Definition lost (ev : event) (c c' : Cluster) : Prop :=
  (∃ k, ev = EDrop k) ∧ nodes c' = nodes c ∧ ballots c' = ballots c ∧ applied c' = applied c ∧ ∀ m, m ∈ net c' → m ∈ net c.

Section step_cases.
Context (ids : list bytes) (c : Cluster) (Hinv : inv ids (nodes c) (net c)).

Lemma append_bounds from n args :
  nodes c !! from = Some n → args_ok n args → 0 ≤ ae_PrevLogIndex args ∧ 0 ≤ ae_last args ∧ ae_last args + 1 < 2 ^ 62.
Proof. intros Hn (? & ? & _). unfold ae_last. pose proof (Zlen_nonneg (ae_Entries args)). lia. Qed.

Lemma deliver_stepped ev k m now c' :
  (∀ j, ev ≠ ERestart j) → net c !! k = Some m → deliver c m (delete k (net c)) now = Ret c' →
  ∃ i n n' bl ak ap, stepped ev c c' i n n' bl ak ap.
Proof.
  intros Hev Hk. pose proof (list_elem_of_lookup_2 _ _ _ Hk) as Hm. pose proof Hinv as (_ & Hns & Hms).
  destruct (Hms m Hm) as (sn & Hsn & Hok).
  destruct m as [live from to args|from to args reply|live from to args|from to args reply]; cbn [deliver sender msg_ok] in *.
  - destruct (nodes c !! to) as [n|] eqn:En; [|done]. cbn [enabled mbind outcome_bind].
    destruct (HandleRequestVote now args n) as [[r n']|] eqn:EH; [|done]. cbn [or_panic mbind outcome_bind]. intros [= <-].
    do 6 eexists. apply (stepped_update ev c to n); [done|done|by eapply (HandleRequestVote_kind ids), EH; [apply Hns|]|apply calls_sent_nil| |].
    + intros m [Hm'|Hm']%elem_of_app; [by eapply rest_sent|]. destruct live; [|by apply not_elem_of_nil in Hm'].
      by apply list_elem_of_singleton in Hm' as ->.
    + eapply HandleRequestVote_la; [by eapply node_inv_log, Hns|done].
  - rewrite Hsn. cbn [enabled mbind outcome_bind].
    destruct (onVoteReply _ reply sn) as [[n' cs]|] eqn:EH; [|done]. cbn [or_panic mbind outcome_bind]. intros [= <-].
    destruct (onVoteReply_kind ev from c _ _ _ _ _ EH) as [Hcs Hkd].
    do 6 eexists. apply (stepped_update ev c from sn); [done..| |by eapply onVoteReply_la]. intros m. apply rest_sent.
  - destruct (nodes c !! to) as [n|] eqn:En; [|done]. cbn [enabled mbind outcome_bind].
    destruct (HandleAppendEntries now args n) as [[r n']|] eqn:EH; [|done]. cbn [or_panic mbind outcome_bind]. intros [= <-].
    destruct (append_bounds from sn args Hsn Hok) as (Hb1 & Hb2 & Hb3).
    destruct (HandleAppendEntries_kind ids ev to c now live from args n r n') as (ak & Hkd & Hak); try done; [by apply Hns|].
    do 6 eexists. apply (stepped_update ev c to n); [done|done|exact Hkd|apply calls_sent_nil| |].
    + intros m [Hm'|Hm']%elem_of_app; [by eapply rest_sent|]. destruct live; [|by apply not_elem_of_nil in Hm'].
      apply list_elem_of_singleton in Hm' as ->. right. split_and!; eauto.
    + eapply HandleAppendEntries_la; [by eapply node_inv_log, Hns| |done]. unfold ae_last in *. split; lia.
  - rewrite Hsn. cbn [enabled mbind outcome_bind].
    destruct (onAppendReply to args reply sn) as [[n' cs]|] eqn:EH; [|done]. cbn [or_panic mbind outcome_bind]. intros [= <-].
    destruct Hok as [Hok _]. destruct (append_bounds from sn args Hsn Hok) as (Hb1 & Hb2 & Hb3).
    destruct (onAppendReply_kind ids ev from c to args reply sn n' cs) as [Hcs Hkd]; try done; [by apply Hns|lia|].
    do 6 eexists. apply (stepped_update ev c from sn); [done..| |by eapply onAppendReply_la]. intros m. apply rest_sent.
Qed.

Lemma orphan_sent i n' ak m m' : orphan i m = Some m' → m ∈ net c → sent c i n' ak m'.
Proof. destruct m; cbn; try case_bool_decide; intros [= <-] Hm; cbn; eauto. Qed.

Lemma step_stepped ev c' :
  snapshots ev = false → step ev c = Ret c' → lost ev c c' ∨ ∃ i n n' bl ak ap, stepped ev c c' i n n' bl ak ap.
Proof.
  intros Hsn. pose proof Hinv as (_ & Hns & Hms).
  destruct ev as [i now tm|i|i command|k now|k|i|i|i upTo blob]; [..|done]; cbn [step].
  - destruct (nodes c !! i) as [n|] eqn:En; [|done]. cbn [enabled mbind outcome_bind].
    destruct (_ <=? _) eqn:Et; kv_bool; [done|]. cbn [fail_if outcome_bind].
    destruct (electionTick now tm n) as [[n' cs]|] eqn:EH; [|done]. cbn [or_panic mbind outcome_bind]. intros [= <-].
    destruct (electionTick_kind ids (EElection i now tm) i c now tm n n' cs) as [Hcs Hkd]; [by apply Hns|lia|done|]. right.
    do 6 eexists. apply (stepped_update _ c i n); [done..|intros m; apply sent_old|by eapply electionTick_la].
  - destruct (nodes c !! i) as [n|] eqn:En; [|done]. cbn [enabled mbind outcome_bind].
    destruct (heartbeatTick n) as [cs|] eqn:EH; [|done]. cbn [or_panic mbind outcome_bind]. intros [= <-]. right.
    do 6 eexists. apply (stepped_update _ c i n); [done|done|apply same_kind|by apply heartbeatTick_sent|intros m; apply sent_old|done].
  - destruct (nodes c !! i) as [n|] eqn:En; [|done]. cbn [enabled mbind outcome_bind].
    destruct (_ <=? _) eqn:Et; kv_bool; [done|]. cbn [fail_if outcome_bind].
    destruct (Propose command n) as [[[r n'] cs]|] eqn:EH; [|done]. cbn [or_panic mbind outcome_bind]. intros [= <-].
    destruct (Propose_kind ids (EPropose i command) i c command n r n' cs) as [Hcs Hkd]; [by apply Hns|done|]. right.
    do 6 eexists. apply (stepped_update _ c i n); [done..|intros m; apply sent_old|by eapply Propose_la].
  - destruct (net c !! k) as [m|] eqn:Ek; [|done]. cbn [enabled mbind outcome_bind]. intros Hd. right. by eapply deliver_stepped.
  - destruct (net c !! k) as [m|] eqn:Ek; [|done]. cbn [enabled mbind outcome_bind]. intros [= <-]. left.
    split; [by exists k|]. split_and!; try done. cbn. intros m' Hm'. by eapply list_elem_of_delete_inv.
  - destruct (nodes c !! i) as [n|] eqn:En; [|done]. cbn [enabled mbind outcome_bind].
    destruct (_ <=? _) eqn:Et; kv_bool; [done|]. cbn [fail_if outcome_bind].
    destruct (applyOne n) as [[m n']|] eqn:EH; [|done]. cbn [or_panic mbind outcome_bind]. intros [= <-].
    destruct (applyOne_kind (EApply i) i c n m n' EH) as (Hkd & Hc & Ha). right.
    do 6 eexists. split; [done| |by cbn; rewrite app_nil_r| |exact Hkd| |]; cbn; [done|done|intros m0; apply sent_old|].
    right. left. split; [done|]. split; [done|]. by apply Ha.
  - destruct (nodes c !! i) as [n|] eqn:En; [|done]. cbn [enabled mbind outcome_bind].
    destruct (restart [] n) as [n'|] eqn:EH; [|done]. cbn [enabled mbind outcome_bind]. intros [= <-]. right.
    exists i, n, n', [], None, []. pose proof (Hns _ _ En) as Hn.
    split; cbn; [done|done|by rewrite app_nil_r|by rewrite app_nil_r|by eapply restart_kind| |left; by split_and!; [|eapply restart_la|]].
    intros m (m0 & Hm0 & Ho)%list_elem_of_omap. by eapply orphan_sent.
Qed.

End step_cases.
