(* ===== verification/RaftLogs.v ===== *)
(** * RaftLogs: the logs of a cluster agree

    As long as no node gives its vote in a term twice, the logs of the nodes
    of RaftCluster satisfy the log matching property of Raft: if two logs hold
    entries of the same term at the same index, they are equal up to there.
    The proof keeps, for every term, the log of the leader of that term. *)
From stdpp Require Import prelude gmap list.
From Stdlib Require Import ZArith Lia Strings.Byte.
From S2P Require Import Prelude RaftNode RaftCluster RaftSteps.
Local Open Scope Z_scope.

(** ** Logs that agree up to an index *)

Definition agree (k : nat) (l l' : list LogEntry) : Prop :=
  (k < length l)%nat ∧ ∀ j, (j ≤ k)%nat → l !! j = l' !! j.

Lemma agree_take k l l' : (k < length l)%nat → agree k l l' ↔ take (S k) l = take (S k) l'.
Proof.
  intros Hk. split.
  - intros [_ H]. apply list_eq. intros j. destruct (decide (j < S k)%nat).
    + rewrite !lookup_take_lt by done. apply H. lia.
    + by rewrite !lookup_take_ge by lia.
  - intros H. split; [done|]. intros j Hj. rewrite <-(lookup_take_lt l (S k)), <-(lookup_take_lt l' (S k)) by lia. by rewrite H.
Qed.

#[global] Instance agree_dec k l l' : Decision (agree k l l').
Proof.
  destruct (decide (k < length l)%nat) as [Hk|Hk]; [|right; intros [? _]; done].
  destruct (decide (take (S k) l = take (S k) l')) as [E|E]; [left|right]; rewrite agree_take; done.
Defined.

Lemma agree_refl k l : (k < length l)%nat → agree k l l.
Proof. done. Qed.

Lemma agree_sym k l l' : agree k l l' → agree k l' l.
Proof.
  intros [Hk H]. split; [|intros j Hj; by rewrite H]. apply lookup_lt_is_Some. rewrite <-H by done. by apply lookup_lt_is_Some.
Qed.

Lemma agree_trans k l1 l2 l3 : agree k l1 l2 → agree k l2 l3 → agree k l1 l3.
Proof. intros [Hk H] [_ H']. split; [done|]. intros j Hj. by rewrite H, H'. Qed.

Lemma agree_le j k l l' : (j ≤ k)%nat → agree k l l' → agree j l l'.
Proof. intros Hjk [Hk H]. split; [lia|]. intros i Hi. apply H. lia. Qed.

Lemma agree_prefix k l l' : l `prefix_of` l' → (k < length l)%nat → agree k l l'.
Proof. intros [x ->] Hk. split; [done|]. intros j Hj. by rewrite lookup_app_l by lia. Qed.

Lemma agree_lookup k l l' e : agree k l l' → l !! k = Some e → l' !! k = Some e.
Proof. intros [_ H] He. by rewrite <-H. Qed.

(** ** Accepting entries *)

Lemma merge_cases own es :
  (∀ k x e, own !! k = Some x → es !! k = Some e → Term x = Term e → x = e) →
  (es `prefix_of` own ∧ merge own es = own) ∨ (¬ es `prefix_of` own ∧ merge own es = es).
Proof.
  revert own. induction es as [|e es IH]; intros own Hm; [left; split; [apply prefix_nil|by destruct own]|].
  destruct own as [|x own]; cbn [merge]; [right; split; [by intros ?%prefix_nil_inv|done]|].
  destruct (Term x =? Term e) eqn:Et; kv_bool.
  - pose proof (Hm 0%nat x e eq_refl eq_refl Et) as ->.
    destruct (IH own (λ k, Hm (S k))) as [[Hp ->]|[Hp ->]]; [left|right]; (split; [|done]).
    + by apply prefix_cons.
    + by intros ?%prefix_cons_inv_2.
  - right. split; [|done]. by intros ->%prefix_cons_inv_1.
Qed.

Section accept.
Context (args : AppendEntriesArgs) (own l : list LogEntry).
Context (Hcov : covers args l).
Context (Hprev : Term <$> own !! Z.to_nat (ae_PrevLogIndex args) = Some (ae_PrevLogTerm args)).
Context (Hmatch : ∀ k x e, own !! k = Some x → l !! k = Some e → Term x = Term e → agree k own l).

Lemma accept_prev : agree (Z.to_nat (ae_PrevLogIndex args)) own l.
Proof.
  destruct Hcov as (_ & Hl & _). destruct (own !! _) as [x|] eqn:Ex; [|done]. destruct (l !! _) as [e|] eqn:Ee; [|done].
  cbn in *. eapply Hmatch; [done..|congruence].
Qed.

(** Either nothing changes, because the log has all the entries already, or
    the new log is what the request says. *)
Lemma accept_cases : let p := Z.to_nat (ae_PrevLogIndex args) in
  (accepted args own = own ∧ ae_Entries args `prefix_of` drop (S p) own) ∨
  (accepted args own = take (S p) l ++ ae_Entries args ∧ ¬ ae_Entries args `prefix_of` drop (S p) own).
Proof.
  intros p. unfold accepted. destruct Hcov as (Hp0 & _ & Hpre).
  replace (Z.to_nat (ae_PrevLogIndex args + 1)) with (S p) by lia. fold p in Hpre.
  destruct (merge_cases (drop (S p) own) (ae_Entries args)) as [[Hin ->]|[Hin ->]].
  - intros k x e Hx He Ht. rewrite lookup_drop in Hx. eapply prefix_lookup_Some in He; [|done]. rewrite lookup_drop in He.
    destruct (Hmatch _ _ _ Hx He Ht) as [_ H]. specialize (H _ (Nat.le_refl _)). congruence.
  - left. by rewrite take_drop.
  - right. split; [|done]. f_equal. apply agree_take; apply accept_prev.
Qed.

Lemma accept_prefix : take (S (Z.to_nat (ae_PrevLogIndex args))) l ++ ae_Entries args `prefix_of` l.
Proof.
  destruct Hcov as (_ & _ & Hpre). set (p := Z.to_nat _) in *. rewrite <-(take_drop (S p) l) at 2. by apply prefix_app.
Qed.

Lemma accept_prefix_length :
  length (take (S (Z.to_nat (ae_PrevLogIndex args))) l ++ ae_Entries args) = S (Z.to_nat (ae_last args)).
Proof.
  destruct Hcov as (Hp & _). destruct accept_prev as [Hlt _].
  pose proof (agree_sym _ _ _ accept_prev) as [Hlt' _]. rewrite length_app, length_take. unfold ae_last, Zlen. lia.
Qed.

(** The new log agrees with the leader's up to the last entry sent, *)
Lemma accept_last : agree (Z.to_nat (ae_last args)) (accepted args own) l.
Proof.
  pose proof accept_prefix as Hpre. pose proof accept_prefix_length as Hlen. pose proof accept_prev as [Hlt Hag].
  destruct accept_cases as [[-> Hin]|[-> _]]; [|apply agree_prefix; [done|lia]].
  eapply (agree_trans _ _ (take (S (Z.to_nat (ae_PrevLogIndex args))) l ++ ae_Entries args)).
  - apply agree_sym, agree_prefix; [|lia]. rewrite <-(take_drop (S (Z.to_nat (ae_PrevLogIndex args))) own).
    replace (take _ l) with (take (S (Z.to_nat (ae_PrevLogIndex args))) own); [by apply prefix_app|]. by apply agree_take; [|split].
  - apply agree_prefix; [done|lia].
Qed.

(** keeps what agreed with the leader's, *)
Lemma accept_keeps k : agree k own l → agree k (accepted args own) l.
Proof.
  intros Hk. destruct accept_cases as [[-> _]|[Heq Hno]]; [done|]. apply (agree_le _ (Z.to_nat (ae_last args))); [|apply accept_last].
  destruct (decide (k ≤ Z.to_nat (ae_last args))%nat) as [?|Hgt]; [done|]. destruct Hno.
  pose proof accept_prefix_length as Hlen. pose proof accept_prefix as [tl Htl]. destruct Hk as [Hk Hag].
  set (p := Z.to_nat (ae_PrevLogIndex args)) in *.
  assert (Htk : length (take (S p) l) = S p).
  { pose proof (agree_sym _ _ _ accept_prev) as [? _]. rewrite length_take. fold p in H. lia. }
  exists (drop (S p + length (ae_Entries args)) own). apply list_eq. intros j. rewrite lookup_drop.
  rewrite length_app, Htk in Hlen. destruct (decide (j < length (ae_Entries args))%nat).
  - rewrite lookup_app_l by done. rewrite Hag by lia. rewrite Htl, <-app_assoc, lookup_app_r by lia.
    rewrite Htk, lookup_app_l by lia. f_equal. lia.
  - rewrite lookup_app_r, lookup_drop by lia. f_equal. lia.
Qed.

(** and has no other entries than its own and the leader's. *)
Lemma accept_only k : (k < length (accepted args own))%nat →
  agree k (accepted args own) own ∨ agree k (accepted args own) l.
Proof.
  intros Hk. destruct accept_cases as [[Heq _]|[Heq _]]; rewrite Heq in *; [by left|]. right.
  apply agree_prefix; [apply accept_prefix|done].
Qed.

End accept.

(** ** The log of the leader of each term *)

(** For every term that had a leader: who it was, and its log as far as it got. *)
Notation leaders := (gmap Z (bytes * list LogEntry)).

(** No entry is of a later term than [t], and every entry comes from the
    leader of its term, as does everything before it. *)
Definition good_log (T : leaders) (t : Z) (l : list LogEntry) : Prop :=
  l !! 0%nat = Some sentinel ∧
  ∀ k e, (0 < k)%nat → l !! k = Some e → Term e ≤ t ∧ ∃ o l', T !! Term e = Some (o, l') ∧ agree k l l'.

(** A node that leads, or once led, the term [t]. *)
Definition past (t : Z) (n : Node) : Prop := t < currentTerm n ∨ (t = currentTerm n ∧ role n ≠ Candidate).

Record linv (ids : list bytes) (T : leaders) (c : Cluster) : Prop := {
  li_term t o l : T !! t = Some (o, l) →
    1 ≤ t ∧ good_log T t l ∧ majority ids (ballots c) o t ∧ ∃ n, nodes c !! o = Some n ∧ past t n;
  li_node i n : nodes c !! i = Some n → good_log T (currentTerm n) (log n);
  li_pos i n : nodes c !! i = Some n → role n ≠ Follower → 1 ≤ currentTerm n;
  li_leader i n : nodes c !! i = Some n → role n = Leader → T !! currentTerm n = Some (i, log n);
  li_req live from to args : AppendReq live from to args ∈ net c →
    ∃ l, T !! ae_Term args = Some (from, l) ∧ covers args l;
  li_rep from to args reply : AppendRep from to args reply ∈ net c →
    ∃ l, T !! ae_Term args = Some (from, l) ∧ covers args l
}.

Arguments li_term {_ _ _} _.
Arguments li_node {_ _ _} _.
Arguments li_pos {_ _ _} _.
Arguments li_leader {_ _ _} _.
Arguments li_req {_ _ _} _.
Arguments li_rep {_ _ _} _.

(** Leaders' logs only grow. *)
Definition grows (T T' : leaders) : Prop :=
  ∀ t o l, T !! t = Some (o, l) → ∃ l', T' !! t = Some (o, l') ∧ l `prefix_of` l'.

Lemma grows_refl T : grows T T.
Proof. intros t o l H. by exists l. Qed.

Lemma covers_prefix args l l' : l `prefix_of` l' → covers args l → covers args l'.
Proof.
  intros [x ->] (H1 & H2 & H3). split; [done|]. destruct (l !! _) as [e|] eqn:Ee; [|done]. split.
  - by rewrite (lookup_app_l_Some _ _ _ _ Ee).
  - apply lookup_lt_Some in Ee. rewrite drop_app_le by lia. by apply prefix_app_r.
Qed.

Lemma good_log_grows T T' t t' l : grows T T' → t ≤ t' → good_log T t l → good_log T' t' l.
Proof.
  intros Hg Ht [H0 H]. split; [done|]. intros k e Hk He. destruct (H k e Hk He) as (Hle & o & l' & HT & Ha).
  split; [lia|]. destruct (Hg _ _ _ HT) as (l'' & HT' & Hp). exists o, l''. split; [done|].
  eapply agree_trans; [done|]. apply agree_prefix; [done|]. by apply agree_sym in Ha as [? _].
Qed.

(** Two good logs with entries of the same term at an index agree up to it. *)
Lemma good_logs_match T t1 t2 l1 l2 k e1 e2 :
  good_log T t1 l1 → good_log T t2 l2 → l1 !! k = Some e1 → l2 !! k = Some e2 → Term e1 = Term e2 → agree k l1 l2.
Proof.
  intros [Hz1 H1] [Hz2 H2] He1 He2 Ht. destruct k as [|k].
  - split; [by apply lookup_lt_Some in He1|]. intros j Hj. assert (j = 0%nat) as -> by lia. congruence.
  - destruct (H1 (S k) e1 ltac:(lia) He1) as (_ & o & l & HT & Ha). destruct (H2 (S k) e2 ltac:(lia) He2) as (_ & o' & l' & HT' & Ha').
    rewrite Ht, HT' in HT. injection HT as -> ->. eapply agree_trans; [done|]. by apply agree_sym.
Qed.

(** ** One step *)

(** The leaders after a step to state [n'] at node [i]. *)
Definition lead (i : bytes) (n' : Node) (T : leaders) : leaders :=
  if bool_decide (role n' = Leader) then <[currentTerm n' := (i, log n')]> T else T.

Definition one_vote (bl : list (bytes * Z * bytes)) : Prop :=
  ∀ v t a b, (v, t, a) ∈ bl → (v, t, b) ∈ bl → a = b.

Lemma kind_term ev c i n n' bl ak : kind ev c i n n' bl ak → currentTerm n ≤ currentTerm n'.
Proof. destruct 1; lia. Qed.

Lemma kind_past ev c i n n' bl ak t : kind ev c i n n' bl ak → past t n → past t n'.
Proof.
  intros Hk [Hp|[-> Hp]]; [left; apply kind_term in Hk; lia|]. unfold past.
  destruct Hk as [bl _ Ht Hr _ _|_ _ Ht Hr _|_ Ht _ _|_ Ht _ Hr _ _|cmd _ Ht _ Hr _ _|live from args _ Ht Ht' Hr _ _ _|peer args reply _ _ _ _ Hr Ht _ _ _].
  - destruct (decide (currentTerm n < currentTerm n')); [by left|]. right. split; [lia|]. intros Hc.
    rewrite Hc in Hr. destruct Hr as (? & _); [done|congruence].
  - right. by rewrite Hr.
  - left. lia.
  - right. by rewrite Hr.
  - right. by rewrite Hr.
  - destruct (decide (currentTerm n < currentTerm n')); [by left|]. right. rewrite Hr. split; [lia|done].
  - right. by rewrite Hr.
Qed.

Section one_step.
Context (ids : list bytes) (T : leaders) (ev : event) (c c' : Cluster) (i : bytes) (n n' : Node).
Context (bl : list (bytes * Z * bytes)) (ak : option (Z * Z)) (ap : list (bytes * ApplyMsg)).
Context (Hlinv : linv ids T c) (Hst : stepped ev c c' i n n' bl ak ap).
Context (Hv : vinv ids (nodes c') (net c') (ballots c')) (Hone : one_vote (ballots c')).

(** A term has no leader before the one that wins it. *)
Lemma win_fresh : role n = Candidate → role n' = Leader → currentTerm n' = currentTerm n → T !! currentTerm n = None.
Proof.
  intros Hc Hl Ht. destruct (T !! currentTerm n) as [[o l]|] eqn:ET; [|done]. exfalso.
  destruct (li_term Hlinv _ _ _ ET) as (_ & _ & Hmaj & m & Hm & Hpast).
  destruct Hst as [Hi Hns Hbl _ _ _ _]. destruct Hv as (_ & _ & _ & Hld).
  assert (nodes c' !! i = Some n') as Hi' by (rewrite Hns; apply lookup_insert_eq).
  pose proof (Hld i n' Hi' Hl) as Hmaj'. rewrite Ht in Hmaj'.
  destruct (majorities_meet ids (ballots c') o i (currentTerm n)) as (v & Hvo & Hvi); [|done|].
  { eapply majority_mono; [|done]. rewrite Hbl. intros x Hx. apply elem_of_app. by left. }
  pose proof (Hone _ _ _ _ Hvo Hvi) as ->. rewrite Hi in Hm. injection Hm as <-.
  destruct Hpast as [?|[_ ?]]; [lia|done].
Qed.

Lemma lead_leader : role n' = Leader → lead i n' T = <[currentTerm n' := (i, log n')]> T.
Proof. intros Hr. unfold lead. by rewrite bool_decide_eq_true_2. Qed.

(** A leader after the step led the term before, with a shorter log, or there
    was none. *)
Lemma lead_before : role n' = Leader →
  T !! currentTerm n' = None ∨ (∃ l, T !! currentTerm n' = Some (i, l) ∧ l `prefix_of` log n').
Proof.
  intros Hr. pose proof (s_node Hst) as Hi. pose proof (li_leader Hlinv i n Hi) as Hld. pose proof win_fresh as Hwin.
  destruct (s_kind Hst) as [bl' Hlog _ Hro _ _|_ _ _ Hf _|_ _ Hc _|Hlog Ht Hc _ _ _|cmd Hlog Ht Hc _ _ _|live from args _ _ _ Hf _ _ _|peer args reply _ _ _ Hc _ Ht Hlog _ _].
  - rewrite Hr in Hro. destruct Hro as (Hc & -> & _); [done|]. right. exists (log n). rewrite Hlog. auto.
  - congruence.
  - congruence.
  - left. rewrite Ht. by apply Hwin.
  - right. exists (log n). rewrite Ht, Hlog. split; [auto|]. by apply prefix_app_r.
  - congruence.
  - right. exists (log n). rewrite Ht, Hlog. auto.
Qed.

Lemma lead_grows : grows T (lead i n' T).
Proof.
  intros t o l HT. unfold lead. case_bool_decide as Hr; [|by exists l]. destruct (decide (currentTerm n' = t)) as [<-|Hne].
  - rewrite lookup_insert_eq. destruct (lead_before Hr) as [?|(l' & HT' & Hp)]; [congruence|].
    rewrite HT in HT'. injection HT' as -> ->. eauto.
  - rewrite lookup_insert_ne by done. by exists l.
Qed.

End one_step.

Section one_step_linv.
Context (ids : list bytes) (T : leaders) (ev : event) (c c' : Cluster) (i : bytes) (n n' : Node).
Context (bl : list (bytes * Z * bytes)) (ak : option (Z * Z)) (ap : list (bytes * ApplyMsg)).
Context (Hlinv : linv ids T c) (Hst : stepped ev c c' i n n' bl ak ap).
Context (Hinv : inv ids (nodes c) (net c)).
Context (Hv : vinv ids (nodes c') (net c') (ballots c')) (Hone : one_vote (ballots c')).
Let T' := lead i n' T.

Lemma step_grows : grows T T'.
Proof. by eapply lead_grows. Qed.

Lemma good_log_match t l : T !! t = Some l → ∀ k x e,
  log n !! k = Some x → l.2 !! k = Some e → Term x = Term e → agree k (log n) l.2.
Proof.
  intros HT k x e. destruct l as [o l]. destruct (li_term Hlinv _ _ _ HT) as (_ & Hgl & _).
  eapply good_logs_match; [|done]. eapply li_node; [done|]. by apply Hst.
Qed.

(** The log of the node that steps is good again. *)
Lemma step_good_log : good_log T' (currentTerm n') (log n').
Proof.
  pose proof step_grows as Hg. pose proof (s_node Hst) as Hi.
  pose proof (li_node Hlinv i n Hi) as Hgl. pose proof (kind_term _ _ _ _ _ _ _ (s_kind Hst)) as Hle.
  assert (Hsame : log n' = log n → good_log T' (currentTerm n') (log n')).
  { intros ->. by eapply good_log_grows. }
  pose proof good_log_match as Hmatch. pose proof (good_log_grows _ _ _ _ _ Hg Hle Hgl) as [H0 Hold].
  destruct (s_kind Hst) as [bl' Hlog _ _ _ _|_ Hlog _ _ _|Hlog _ _ _|Hlog _ _ _ _ _|cmd Hlog Ht _ Hr _ _|live from args Hin Hta Hta' _ Hprev Hlog _|peer args reply _ _ _ _ _ _ Hlog _ _]; try by apply Hsame.
  - assert (HT' : T' !! currentTerm n' = Some (i, log n')) by (subst T'; rewrite lead_leader by done; apply lookup_insert_eq).
    split; [rewrite Hlog; by apply lookup_app_l_Some|]. intros k e Hk He. pose proof He as Hk'. rewrite Hlog in He.
    apply lookup_snoc_Some in He as [[Hlt He]|[-> <-]].
    + destruct (Hold k e Hk He) as (? & o & l' & ? & Ha). split; [done|]. exists o, l'. split; [done|].
      eapply agree_trans; [|done]. rewrite Hlog. apply agree_sym, agree_prefix; [by apply prefix_app_r|done].
    + cbn. rewrite <-Ht. split; [lia|]. exists i, (log n'). split; [done|]. apply agree_refl. by apply lookup_lt_Some in Hk'.
  - destruct (li_req Hlinv _ _ _ _ Hin) as (l & HT & Hcov). specialize (Hmatch _ _ HT). cbn in Hmatch.
    destruct (li_term Hlinv _ _ _ HT) as (_ & Hl & _). rewrite <-Hta' in Hl.
    pose proof (good_log_grows _ _ _ _ _ Hg (Z.le_refl _) Hl) as [_ Hldr].
    assert (Hk0 : agree 0 (log n) (log n')).
    { pose proof (accept_prev args (log n) l Hcov Hprev Hmatch) as Hp. pose proof (accept_keeps args (log n) l Hcov Hprev Hmatch 0) as Hk.
      eapply agree_trans; [by eapply agree_le, Hp; apply Nat.le_0_l|]. rewrite Hlog. apply agree_sym, Hk. eapply agree_le, Hp. lia. }
    split; [by apply (agree_lookup 0 (log n))|]. intros k e Hk He. rewrite Hlog in *.
    pose proof (lookup_lt_Some _ _ _ He) as Hlt.
    destruct (accept_only args (log n) l Hcov Hprev Hmatch k Hlt) as [Ha|Ha].
    + destruct (Hold k e Hk (agree_lookup _ _ _ _ Ha He)) as (? & o & l' & ? & Ha'). split; [done|]. exists o, l'.
      split; [done|]. by eapply agree_trans.
    + destruct (Hldr k e Hk (agree_lookup _ _ _ _ Ha He)) as (? & o & l' & ? & Ha'). split; [done|]. exists o, l'.
      split; [done|]. by eapply agree_trans.
Qed.

Lemma step_pos : role n' ≠ Follower → 1 ≤ currentTerm n'.
Proof.
  intros Hr. pose proof (s_node Hst) as Hi. pose proof (li_pos Hlinv i n Hi) as Hpos.
  pose proof (proj1 (proj2 Hinv) i n Hi) as (_ & _ & _ & _ & _ & Ht0 & _).
  destruct (s_kind Hst) as [bl' _ _ Hro _ _|_ _ _ Hf _|_ Ht _ _|_ Ht Hc _ _ _|cmd _ Ht Hc _ _ _|live from args _ _ _ Hf _ _ _|peer args reply _ _ _ Hc _ Ht _ _ _].
  - destruct (Hro Hr) as (Heq & -> & _). apply Hpos. congruence.
  - done.
  - lia.
  - rewrite Ht. apply Hpos. congruence.
  - rewrite Ht. apply Hpos. congruence.
  - done.
  - rewrite Ht. apply Hpos. congruence.
Qed.

(** Terms led before keep their voters, and their leaders do not stand again. *)
Lemma step_term_old t o l : T !! t = Some (o, l) →
  1 ≤ t ∧ good_log T' t l ∧ majority ids (ballots c') o t ∧ ∃ n0, nodes c' !! o = Some n0 ∧ past t n0.
Proof.
  intros HT. pose proof step_grows as Hg. destruct (li_term Hlinv _ _ _ HT) as (H1 & H2 & H3 & m & Hm & Hp).
  pose proof Hst as [Hi Hns Hbl _ Hk _ _]. split; [done|]. split; [by eapply good_log_grows; [|apply Z.le_refl|]|]. split.
  - eapply majority_mono; [|done]. rewrite Hbl. intros x Hx. apply elem_of_app. by left.
  - rewrite Hns. destruct (decide (i = o)) as [<-|]; [rewrite lookup_insert_eq|rewrite lookup_insert_ne by done; eauto].
    eexists. split; [done|]. eapply kind_past; [done|]. congruence.
Qed.

Lemma stepped_linv : linv ids T' c'.
Proof.
  pose proof step_grows as Hg. pose proof step_good_log as Hgood.
  pose proof Hst as [Hi Hns Hbl _ Hk Hnet _].
  assert (Hi' : nodes c' !! i = Some n') by (rewrite Hns; apply lookup_insert_eq).
  assert (Hother : ∀ j m, nodes c' !! j = Some m → (j = i ∧ m = n') ∨ (j ≠ i ∧ nodes c !! j = Some m)).
  { intros j m. rewrite Hns. destruct (decide (i = j)) as [->|]; [rewrite lookup_insert_eq; intros [= <-]; by left|].
    rewrite lookup_insert_ne by done. by right. }
  assert (Hcov : ∀ from args, (∃ l, T !! ae_Term args = Some (from, l) ∧ covers args l) →
    ∃ l, T' !! ae_Term args = Some (from, l) ∧ covers args l).
  { intros from args (l & HT & Hc). destruct (Hg _ _ _ HT) as (l' & HT' & Hp). exists l'. split; [done|]. by eapply covers_prefix. }
  split.
  - intros t o l HT. unfold T', lead in HT. case_bool_decide as Hr; [destruct (decide (currentTerm n' = t)) as [<-|Hne]|].
    + rewrite lookup_insert_eq in HT. injection HT as <- <-. pose proof Hv as (_ & _ & _ & Hld).
      split; [|split; [done|split; [by apply Hld|]]]; [|exists n'; split; [done|]; right; by rewrite Hr].
      apply step_pos. by rewrite Hr.
    + rewrite lookup_insert_ne in HT by done. by apply step_term_old.
    + by apply step_term_old.
  - intros j m Hj. destruct (Hother j m Hj) as [[-> ->]|[_ Hjm]]; [done|]. eapply good_log_grows; [done|apply Z.le_refl|]. by eapply li_node.
  - intros j m Hj Hr. destruct (Hother j m Hj) as [[-> ->]|[_ Hjm]]; [by apply step_pos|by eapply li_pos].
  - intros j m Hj Hr. destruct (Hother j m Hj) as [[-> ->]|[Hne Hjm]].
    + unfold T'. rewrite lead_leader by done. apply lookup_insert_eq.
    + pose proof (li_leader Hlinv j m Hjm Hr) as HT. unfold T', lead. case_bool_decide as Hr'; [|done].
      rewrite lookup_insert_ne; [done|]. intros Heq. pose proof Hv as (_ & _ & _ & Hld).
      pose proof (Hld j m Hj Hr) as Mj. pose proof (Hld i n' Hi' Hr') as Mi. rewrite Heq in Mi.
      destruct (majorities_meet ids _ i j _ Mi Mj) as (v & Hvi & Hvj). apply Hne. by eapply Hone.
  - intros live from to args Hm. specialize (Hnet _ Hm) as [[live' Hin]|(-> & Hr & Ht & Hc & _)].
    + apply Hcov. by eapply li_req.
    + exists (log n'). split; [|done]. unfold T'. rewrite lead_leader, Ht by done. apply lookup_insert_eq.
  - intros from to args reply Hm. apply Hcov. specialize (Hnet _ Hm) as [Hin|(_ & [live Hin] & _)]; [by eapply li_rep|by eapply li_req].
Qed.

End one_step_linv.

Lemma init_linv ids : linv ids ∅ (init ids).
Proof.
  assert (Hlk : ∀ j n, nodes (init ids) !! j = Some n → n = fresh ids j).
  { intros j n Hj%elem_of_list_to_map_2. by apply list_elem_of_fmap in Hj as (x & [= -> ->] & _). }
  split; try done.
  - intros i n ->%Hlk. split; [done|]. intros [|k] e Hk He; [lia|done].
  - by intros i n ->%Hlk.
  - by intros i n ->%Hlk.
  - by intros ???? ?%not_elem_of_nil.
  - by intros ???? ?%not_elem_of_nil.
Qed.

(** Losing a message keeps the logs as they are. *)
Lemma lost_linv ids T ev c c' : lost ev c c' → linv ids T c → linv ids T c'.
Proof.
  intros (_ & Hn & Hb & _ & Hm) [H1 H2 H3 H4 H5 H6]. split; rewrite ?Hn, ?Hb; eauto.
Qed.

(** Terms do not decrease along a log. *)
Lemma good_log_sorted ids T c t l j k a b :
  linv ids T c → good_log T t l → (j ≤ k)%nat → l !! j = Some a → l !! k = Some b → Term a ≤ Term b.
Proof.
  intros HL [H0 Hl] Hjk Ha Hb. destruct k as [|k].
  { assert (j = 0%nat) as -> by lia. rewrite Ha in Hb. injection Hb as ->. lia. }
  destruct (Hl (S k) b ltac:(lia) Hb) as (_ & o & l' & HT & Hag).
  destruct (li_term HL _ _ _ HT) as (Hpos & [H0' Hl'] & _). destruct Hag as [_ Hag].
  rewrite (Hag j) in Ha by lia. destruct j as [|j].
  - rewrite H0' in Ha. injection Ha as <-. cbn. lia.
  - by apply (Hl' (S j)); [lia|].
Qed.

Lemma good_log_last T t l : good_log T t l → ∃ e, last l = Some e ∧ l !! (length l - 1)%nat = Some e.
Proof.
  intros [H0 _]. apply lookup_lt_Some in H0. destruct (lookup_lt_is_Some_2 l (length l - 1)) as [e He]; [lia|].
  exists e. split; [|done]. rewrite last_lookup, <-He. f_equal. lia.
Qed.
