(* ===== verification/RaftSafety.v ===== *)
(** * RaftSafety: what a cluster commits

    As long as no node gives its vote in a term twice, the nodes of
    RaftCluster commit and apply the same commands at the same indices, and
    the apply loop never runs past the end of a log. The proof follows the
    argument for Raft: a committed entry is held by a majority, a new leader
    is voted for by a majority whose logs are not newer than its own, so it
    holds the entry. On top of the leaders' logs of RaftLogs it records which
    indices each node has acknowledged in each term. *)
From stdpp Require Import prelude gmap list.
From Stdlib Require Import ZArith Lia Strings.Byte.
From S2P Require Import Prelude RaftNode RaftCluster RaftSteps RaftLogs.
Local Open Scope Z_scope.

(** ** Acknowledged, committed, blocked *)

(** The acknowledgements given: node, term, index. *)
Notation acks := (list (bytes * Z * nat)).

(** Node [j] has stored the log of the leader of term [t] up to [k]: it said
    so, or it is the leader. *)
Definition acked (T : leaders) (A : acks) (j : bytes) (t : Z) (k : nat) : Prop :=
  Exists (λ a : bytes * Z * nat, a.1 = (j, t) ∧ (k ≤ a.2)%nat) A ∨
  match T !! t with Some (o, l) => o = j ∧ (k < length l)%nat | None => False end.

#[global] Instance acked_dec T A j t k : Decision (acked T A j t k).
Proof. unfold acked. destruct (T !! t) as [[o l]|]; apply _. Defined.

(** An entry of term [t] at index [k] is stored by a majority. *)
Definition committed (ids : list bytes) (T : leaders) (A : acks) (t : Z) (k : nat) : Prop :=
  (∃ o l e, T !! t = Some (o, l) ∧ l !! k = Some e ∧ Term e = t) ∧ most ids (λ j, acked T A j t k).

(** A majority has not stored index [k] in term [t] and never will. *)
Definition blocked (ids : list bytes) (T : leaders) (A : acks) (ns : gmap bytes Node) (t : Z) (k : nat) : Prop :=
  most ids (λ j, ¬ acked T A j t k ∧ ∃ n, ns !! j = Some n ∧ t < currentTerm n).

(** A leader of a term after [t], and not after [u], has not got index [k] of
    term [t]'s log [l]. *)
Definition overridden (T : leaders) (t : Z) (k : nat) (l : list LogEntry) (u : Z) : Prop :=
  ∃ t' o' l', t < t' ≤ u ∧ T !! t' = Some (o', l') ∧ ¬ agree k l' l.

(** The entries of [l] up to [z] are committed, in a term up to [t]. *)
Definition settled (ids : list bytes) (T : leaders) (A : acks) (t : Z) (l : list LogEntry) (z : Z) : Prop :=
  z = 0 ∨ ∃ t0 k0 o0 l0, t0 ≤ t ∧ committed ids T A t0 k0 ∧ T !! t0 = Some (o0, l0) ∧
            (Z.to_nat z ≤ k0)%nat ∧ agree (Z.to_nat z) l l0.

(** The log [lc] of a candidate is as new as the log [lv] of a voter. *)
Definition newer (lc lv : list LogEntry) : Prop :=
  ∃ ec ev, last lc = Some ec ∧ last lv = Some ev ∧
    (Term ev < Term ec ∨ (Term ev = Term ec ∧ (length lv ≤ length lc)%nat)).

(** The vote of [v] in term [t] was given with log [vlog]: it holds all that
    [v] had acknowledged before, unless a later leader overrode it. *)
Definition voted_with (T : leaders) (A : acks) (v : bytes) (t : Z) (vlog : list LogEntry) : Prop :=
  (∃ u, good_log T u vlog) ∧
  ∀ s k o l, s < t → acked T A v s k → T !! s = Some (o, l) → agree k vlog l ∨ overridden T s k l (t - 1).

Record ainv (ids : list bytes) (T : leaders) (A : acks) (c : Cluster) : Prop := {
  (* acknowledgements *)
  ai_ack p t k : (p, t, k) ∈ A →
    ∃ o l n, T !! t = Some (o, l) ∧ (k < length l)%nat ∧ nodes c !! p = Some n ∧ t ≤ currentTerm n;
  ai_keep p t k o l n : acked T A p t k → T !! t = Some (o, l) → nodes c !! p = Some n →
    agree k (log n) l ∨ overridden T t k l (currentTerm n);
  ai_rep from to args reply : AppendRep from to args reply ∈ net c → aer_Success reply = true →
    (to, ae_Term args, Z.to_nat (ae_last args)) ∈ A;
  ai_match i n p v : nodes c !! i = Some n → role n = Leader → matchIndex n !! p = Some v → 0 < v → p ≠ i →
    (p, currentTerm n, Z.to_nat v) ∈ A;
  (* votes *)
  ai_ballot v t cnd : (v, t, cnd) ∈ ballots c → (∃ n, nodes c !! v = Some n ∧ t ≤ currentTerm n) ∧
    ∃ m, nodes c !! cnd = Some m ∧ t ≤ currentTerm m;
  ai_vote v t cnd : (v, t, cnd) ∈ ballots c → T !! t = None → ∃ vlog, voted_with T A v t vlog ∧
    ∀ m, nodes c !! cnd = Some m → currentTerm m = t → role m = Candidate → newer (log m) vlog;
  ai_req live from to args m : VoteReq live from to args ∈ net c → nodes c !! from = Some m →
    currentTerm m = rv_Term args → role m = Candidate → announces args (log m);
  (* every later leader holds what is or can be committed *)
  ai_complete t t' o l o' l' k e : t < t' → T !! t = Some (o, l) → T !! t' = Some (o', l') →
    l !! k = Some e → Term e = t → agree k l' l ∨ blocked ids T A (nodes c) t k;
  (* commit indices *)
  ai_commit i n : nodes c !! i = Some n → settled ids T A (currentTerm n) (log n) (commitIndex n);
  ai_mcommit live from to args o l : AppendReq live from to args ∈ net c → T !! ae_Term args = Some (o, l) →
    settled ids T A (ae_Term args) l (ae_LeaderCommit args);
  ai_mlast live from to args : AppendReq live from to args ∈ net c → ae_LeaderCommit args ≤ ae_last args;
  ai_la i n : nodes c !! i = Some n → 0 ≤ lastApplied n;
  ai_applied i a : (i, a) ∈ applied c → 0 ≤ CommandIndex a ∧
    ∃ t k o l e, committed ids T A t k ∧ T !! t = Some (o, l) ∧ (Z.to_nat (CommandIndex a) ≤ k)%nat ∧
      l !! Z.to_nat (CommandIndex a) = Some e ∧ Command e = Some (ACommand a)
}.

Arguments ai_ack {_ _ _ _} _.
Arguments ai_keep {_ _ _ _} _.
Arguments ai_rep {_ _ _ _} _.
Arguments ai_match {_ _ _ _} _.
Arguments ai_ballot {_ _ _ _} _.
Arguments ai_vote {_ _ _ _} _.
Arguments ai_req {_ _ _ _} _.
Arguments ai_complete {_ _ _ _} _.
Arguments ai_commit {_ _ _ _} _.
Arguments ai_mcommit {_ _ _ _} _.
Arguments ai_mlast {_ _ _ _} _.
Arguments ai_la {_ _ _ _} _.
Arguments ai_applied {_ _ _ _} _.

Lemma committed_not_blocked ids T A ns t k : committed ids T A t k → blocked ids T A ns t k → False.
Proof. intros [_ Hc] Hb. by destruct (most_meet _ _ _ Hc Hb) as (j & ? & ? & _). Qed.

(** What is committed in two terms agrees. *)
Lemma committed_agree ids T A c t t' k o l o' l' :
  ainv ids T A c → committed ids T A t k → t ≤ t' → T !! t = Some (o, l) → T !! t' = Some (o', l') → agree k l' l.
Proof.
  intros HA Hc Ht HT HT'. pose proof Hc as [(o0 & l0 & e & HT0 & He & Hte) _]. rewrite HT in HT0. injection HT0 as <- <-.
  destruct (decide (t = t')) as [->|].
  - rewrite HT in HT'. injection HT' as <- <-. apply agree_refl. by apply lookup_lt_Some in He.
  - destruct (ai_complete HA t t' o l o' l' k e) as [?|Hb]; try done; [lia|]. by destruct (committed_not_blocked _ _ _ _ _ _ Hc Hb).
Qed.

(** What is committed is within the log. *)
Lemma settled_bound ids T A t l z : settled ids T A t l z → l ≠ [] → 0 ≤ z → z < Zlen l.
Proof.
  intros [->|(t0 & k0 & o0 & l0 & _ & _ & _ & _ & [Hlt _])] Hne Hz; unfold Zlen; [|lia]. destruct l; [done|]. cbn. lia.
Qed.

(** The acknowledgements after a step at node [i]. *)
Definition acknowledge (i : bytes) (ak : option (Z * Z)) (A : acks) : acks :=
  match ak with Some (t, z) => (i, t, Z.to_nat z) :: A | None => A end.

(** ** One step *)

Section one_step.
Context (ids : list bytes) (T : leaders) (A : acks) (evt : event) (c c' : Cluster) (i : bytes) (n n' : Node).
Context (bl : list (bytes * Z * bytes)) (ak : option (Z * Z)) (ap : list (bytes * ApplyMsg)).
Context (Hids : NoDup ids) (Hlinv : linv ids T c) (Hainv : ainv ids T A c) (Hst : stepped evt c c' i n n' bl ak ap).
Context (Hinv : inv ids (nodes c) (net c)) (Hvc : vinv ids (nodes c) (net c) (ballots c)).
Context (Hv : vinv ids (nodes c') (net c') (ballots c')) (Hone : one_vote (ballots c')).
Let T' := lead i n' T.
Let A' := acknowledge i ak A.

Lemma s_grows : grows T T'.
Proof. by eapply lead_grows. Qed.

Lemma s_linv : linv ids T' c'.
Proof. by eapply stepped_linv. Qed.

Lemma s_term : currentTerm n ≤ currentTerm n'.
Proof. eapply kind_term, Hst. Qed.

Lemma s_lookup j m : nodes c' !! j = Some m → (j = i ∧ m = n') ∨ (j ≠ i ∧ nodes c !! j = Some m).
Proof.
  rewrite (s_nodes Hst). destruct (decide (i = j)) as [->|]; [rewrite lookup_insert_eq; intros [= <-]; by left|].
  rewrite lookup_insert_ne by done. by right.
Qed.

Lemma s_lookup_old j m : nodes c !! j = Some m → ∃ m', nodes c' !! j = Some m' ∧ currentTerm m ≤ currentTerm m'.
Proof.
  rewrite (s_nodes Hst). pose proof (s_node Hst) as Hi. pose proof s_term.
  destruct (decide (i = j)) as [->|]; [rewrite lookup_insert_eq|rewrite lookup_insert_ne by done].
  - rewrite Hi. intros [= <-]. eauto.
  - intros Hj. exists m. split; [done|lia].
Qed.

(** A term's log only changes at the node that leads it. *)
Lemma s_T_back t o l : T' !! t = Some (o, l) → T !! t = Some (o, l) ∨ (t = currentTerm n' ∧ o = i ∧ l = log n' ∧ role n' = Leader).
Proof.
  unfold T', lead. case_bool_decide; [|by left]. destruct (decide (currentTerm n' = t)) as [<-|].
  - rewrite lookup_insert_eq. intros [= <- <-]. by right.
  - rewrite lookup_insert_ne by done. by left.
Qed.

Lemma s_T_none t : T' !! t = None → T !! t = None.
Proof. destruct (T !! t) as [[o l]|] eqn:E; [|done]. destruct (s_grows _ _ _ E) as (l' & -> & _). done. Qed.

(** What a leader adds is of its own term. *)
Lemma s_T_new t o l l' k e : T !! t = Some (o, l) → T' !! t = Some (o, l') → (length l ≤ k)%nat → l' !! k = Some e → Term e = t.
Proof.
  intros HT HT' Hk He. pose proof (li_leader Hlinv i n (s_node Hst)) as Hld.
  pose proof win_fresh ids T evt c c' i n n' bl ak ap Hlinv Hst Hv Hone as Hwin.
  destruct (s_T_back _ _ _ HT') as [HT''|(-> & -> & -> & Hr)].
  { rewrite HT in HT''. injection HT'' as <-. apply lookup_lt_Some in He. lia. }
  destruct (s_kind Hst) as [bl' Hlog _ Hro _ _|_ _ _ Hf _|_ _ Hc _|Hlog Ht Hc _ _ _|cmd Hlog Ht Hc _ _ _|live from args _ _ _ Hf _ _ _|peer args reply _ _ _ Hc _ Ht Hlog _ _].
  - destruct Hro as (Hc & Ht & _); [by rewrite Hr|]. rewrite Ht, Hld in HT by congruence. injection HT as <-.
    rewrite Hlog in He. apply lookup_lt_Some in He. lia.
  - congruence.
  - congruence.
  - rewrite Ht, Hwin in HT; done.
  - rewrite Ht, Hld in HT by done. injection HT as <-. rewrite Hlog in He.
    apply lookup_snoc_Some in He as [[Hlt _]|[_ <-]]; [lia|]. cbn. congruence.
  - congruence.
  - rewrite Ht, Hld in HT by done. injection HT as <-. rewrite Hlog in He. apply lookup_lt_Some in He. lia.
Qed.

Lemma acked_mono j t k : acked T A j t k → acked T' A' j t k.
Proof.
  intros [H|H]; [left|right].
  - unfold A', acknowledge. destruct ak as [[s z]|]; [by constructor 2|done].
  - destruct (T !! t) as [[o l]|] eqn:E; [|done]. destruct (s_grows _ _ _ E) as (l' & -> & Hp).
    destruct H as [-> Hk]. split; [done|]. apply prefix_length in Hp. lia.
Qed.

Lemma s_ack_term t z : ak = Some (t, z) → t = currentTerm n'.
Proof. destruct (s_kind Hst); congruence. Qed.

Lemma acked_back j t k : acked T' A' j t k → acked T A j t k ∨ (j = i ∧ t = currentTerm n').
Proof.
  pose proof s_ack_term as Hak. intros [H|H].
  - unfold A', acknowledge in H. destruct ak as [[s z]|]; [|left; by left]. apply Exists_cons in H as [[[= <- <-] _]|H].
    + right. split; [done|]. by eapply Hak.
    + left. by left.
  - destruct (T' !! t) as [[o l]|] eqn:E; [|done]. destruct H as [-> Hk].
    destruct (s_T_back _ _ _ E) as [HT|(-> & -> & _)]; [|by right]. left. right. by rewrite HT.
Qed.

Lemma acked_length j t k o l : acked T A j t k → T !! t = Some (o, l) → (k < length l)%nat.
Proof.
  intros [H|H] HT.
  - apply Exists_exists in H as ([[p s] k'] & Hin & [= -> ->] & Hle). destruct (ai_ack Hainv _ _ _ Hin) as (o' & l' & _ & HT' & Hk & _).
    rewrite HT in HT'. injection HT' as <- <-. cbn in Hle. lia.
  - rewrite HT in H. apply H.
Qed.

Lemma committed_mono t k : committed ids T A t k → committed ids T' A' t k.
Proof.
  intros [(o & l & e & HT & He & Ht) Hm]. split; [|eapply most_impl, Hm; intros j; apply acked_mono].
  destruct (s_grows _ _ _ HT) as (l' & HT' & Hp). exists o, l', e. split_and!; try done. by eapply prefix_lookup_Some.
Qed.

Lemma blocked_mono t k : blocked ids T A (nodes c) t k → blocked ids T' A' (nodes c') t k.
Proof.
  apply most_impl. intros j (Hna & m & Hm & Ht). destruct (s_lookup_old j m Hm) as (m' & Hm' & Hle). split; [|exists m'; split; [done|lia]].
  intros [Ha|[-> ->]]%acked_back; [done|]. pose proof s_term. rewrite (s_node Hst) in Hm. injection Hm as <-. lia.
Qed.

(** What a term's log has at an index already passed stays. *)
Lemma agree_grows k t o l l' x : T !! t = Some (o, l) → T' !! t = Some (o, l') → agree k x l → agree k x l'.
Proof.
  intros HT HT' Ha. destruct (s_grows _ _ _ HT) as (l'' & HT'' & Hp). rewrite HT' in HT''. injection HT'' as <-.
  eapply agree_trans; [done|]. apply agree_prefix; [done|]. by apply agree_sym in Ha as [? _].
Qed.

Lemma overridden_mono t k o l l' u u' :
  T !! t = Some (o, l) → (k < length l)%nat → T' !! t = Some (o, l') → u ≤ u' → overridden T t k l u → overridden T' t k l' u'.
Proof.
  intros HT Hk HT' Hu (s & o1 & l1 & Hs & HT1 & Hno). destruct (s_grows _ _ _ HT1) as (l1' & HT1' & Hp1).
  exists s, o1, l1'. split; [lia|]. split; [done|]. intros Ha. apply Hno.
  assert (Ha2 : agree k l1' l).
  { eapply agree_trans; [done|]. apply agree_sym. eapply (agree_grows k t o l l'); [done..|]. by apply agree_refl. }
  destruct (decide (k < length l1)%nat) as [Hlt|Hge].
  { eapply agree_trans; [|done]. by apply agree_prefix. }
  exfalso. destruct (lookup_lt_is_Some_2 l k Hk) as [e He]. pose proof (agree_lookup _ _ _ _ (agree_sym _ _ _ Ha2) He) as He1.
  pose proof (s_T_new s o1 l1 l1' k e HT1 HT1' ltac:(lia) He1) as Hte.
  destruct (li_term Hlinv _ _ _ HT) as (? & [Hz Hle] & _). destruct k as [|k].
  - rewrite Hz in He. injection He as <-. cbn in Hte. lia.
  - destruct (Hle (S k) e ltac:(lia) He) as [? _]. lia.
Qed.

Lemma settled_mono t t' l l' z :
  settled ids T A t l z → t ≤ t' → (∀ k, agree k l l → agree k l' l) → settled ids T' A' t' l' z.
Proof.
  intros [->|(t0 & k0 & o0 & l0 & Ht & Hc & HT & Hz & Ha)] Hle Hl; [by left|]. right.
  destruct (s_grows _ _ _ HT) as (l0' & HT' & Hp). exists t0, k0, o0, l0'. split; [lia|]. split; [by apply committed_mono|].
  split_and!; try done. eapply agree_grows; [done..|]. eapply agree_trans; [|done]. apply Hl, agree_refl. apply Ha.
Qed.

(** *** Acknowledgements *)

(** A node that accepts entries of term [t1] keeps what it has acknowledged,
    or the leader of [t1] has not got it. *)
Lemma accept_override args l1 t k o l own :
  T !! ae_Term args = Some l1 → covers args l1.2 →
  Term <$> own !! Z.to_nat (ae_PrevLogIndex args) = Some (ae_PrevLogTerm args) →
  (∀ j x e, own !! j = Some x → l1.2 !! j = Some e → Term x = Term e → agree j own l1.2) →
  t ≤ ae_Term args → T !! t = Some (o, l) → agree k own l →
  agree k (accepted args own) l ∨ overridden T t k l (ae_Term args).
Proof.
  intros HT1 Hcov Hprev Hmatch Hle HT Ha. destruct l1 as [o1 l1]. cbn in *. destruct (decide (agree k l1 l)) as [Hy|Hn].
  - left. eapply agree_trans; [|exact Hy]. apply accept_keeps; try done. eapply agree_trans; [done|]. by apply agree_sym.
  - right. exists (ae_Term args), o1, l1. split; [|done]. destruct (decide (t = ae_Term args)) as [->|]; [|lia].
    rewrite HT in HT1. injection HT1 as <- <-. destruct Hn. apply agree_refl. by apply agree_sym in Ha as [? _].
Qed.

(** The term of an acknowledgement is not ahead of the node. *)
Lemma acked_term j t k m : acked T A j t k → nodes c !! j = Some m → t ≤ currentTerm m.
Proof.
  intros [H|H] Hm.
  - apply Exists_exists in H as ([[p s] k'] & Hin & [= -> ->] & _).
    destruct (ai_ack Hainv _ _ _ Hin) as (_ & _ & m' & _ & _ & Hm' & ?). congruence.
  - destruct (T !! t) as [[o l]|] eqn:E; [|done]. destruct H as [-> _].
    destruct (li_term Hlinv _ _ _ E) as (_ & _ & _ & m' & Hm' & Hp). rewrite Hm in Hm'. injection Hm' as <-.
    destruct Hp; lia.
Qed.

(** What the node that steps had acknowledged before. *)
Lemma step_keep_old t k o l : acked T A i t k → T !! t = Some (o, l) →
  agree k (log n') l ∨ overridden T t k l (currentTerm n').
Proof.
  intros Hack HT. pose proof (s_node Hst) as Hi. pose proof s_term as Hle.
  pose proof (acked_term i t k n Hack Hi) as Htn.
  pose proof (good_log_match ids T evt c c' i n n' bl ak ap Hlinv Hst) as Hmatch.
  assert (Hov : overridden T t k l (currentTerm n) → overridden T t k l (currentTerm n')).
  { intros (s & o1 & l1 & ? & ?). exists s, o1, l1. split; [lia|done]. }
  destruct (ai_keep Hainv i t k o l n Hack HT Hi) as [Ha|Ho]; [|right; by apply Hov].
  destruct (s_kind Hst) as [bl' Hlog _ _ _ _|_ Hlog _ _ _|Hlog _ _ _|Hlog _ _ _ _ _|cmd Hlog Ht _ Hr _ _|live from args Hin Hta Hta' _ Hprev Hlog _|peer args reply _ _ _ _ _ _ Hlog _ _];
    try (left; by rewrite Hlog).
  - left. rewrite Hlog. eapply agree_trans; [|done]. apply agree_sym, agree_prefix; [by apply prefix_app_r|apply Ha].
  - destruct (li_req Hlinv _ _ _ _ Hin) as (l1 & HT1 & Hcov). rewrite Hlog, Hta'.
    eapply (accept_override args (from, l1)); try done; [|lia]. by apply (Hmatch _ _ HT1).
Qed.

(** What it acknowledges now it has. *)
Lemma step_keep_new t z : ak = Some (t, z) → ∃ o l, T !! t = Some (o, l) ∧ agree (Z.to_nat z) (log n') l.
Proof.
  pose proof (good_log_match ids T evt c c' i n n' bl ak ap Hlinv Hst) as Hmatch.
  destruct (s_kind Hst) as [| | | | |live from args Hin Hta Hta' _ Hprev Hlog _|]; try done. intros [= <- <-].
  destruct (li_req Hlinv _ _ _ _ Hin) as (l1 & HT1 & Hcov). exists from, l1. split; [done|]. rewrite Hlog.
  apply accept_last; try done. by apply (Hmatch _ _ HT1).
Qed.

Lemma step_ack p t k : (p, t, k) ∈ A' →
  ∃ o l m, T' !! t = Some (o, l) ∧ (k < length l)%nat ∧ nodes c' !! p = Some m ∧ t ≤ currentTerm m.
Proof.
  intros Hin. assert (Hnew : ∀ z, ak = Some (t, z) → p = i → k = Z.to_nat z →
    ∃ o l m, T' !! t = Some (o, l) ∧ (k < length l)%nat ∧ nodes c' !! p = Some m ∧ t ≤ currentTerm m).
  { intros z Hak -> ->. destruct (step_keep_new t z Hak) as (o & l & HT & Ha). destruct (s_grows _ _ _ HT) as (l' & HT' & Hp).
    exists o, l', n'. split; [done|]. apply prefix_length in Hp. apply agree_sym in Ha as [? _]. split; [lia|].
    split; [rewrite (s_nodes Hst); apply lookup_insert_eq|]. rewrite (s_ack_term t z Hak). lia. }
  assert (Hold : (p, t, k) ∈ A → ∃ o l m, T' !! t = Some (o, l) ∧ (k < length l)%nat ∧ nodes c' !! p = Some m ∧ t ≤ currentTerm m).
  { intros Ha. destruct (ai_ack Hainv _ _ _ Ha) as (o & l & m & HT & Hk & Hm & Ht).
    destruct (s_grows _ _ _ HT) as (l' & HT' & Hp). destruct (s_lookup_old p m Hm) as (m' & Hm' & Hle).
    exists o, l', m'. apply prefix_length in Hp. split_and!; [done|lia|done|lia]. }
  unfold A', acknowledge in Hin. clear A'. destruct ak as [[s z]|]; [|auto].
  apply elem_of_cons in Hin as [[= -> -> ->]|Hin]; [by eapply Hnew|auto].
Qed.

Lemma step_keep p t k o l m : acked T' A' p t k → T' !! t = Some (o, l) → nodes c' !! p = Some m →
  agree k (log m) l ∨ overridden T' t k l (currentTerm m).
Proof.
  intros Hack HT' Hm. destruct (decide (acked T A p t k)) as [Hold|Hnew].
  - assert (∃ l0, T !! t = Some (o, l0)) as [l0 HT].
    { destruct Hold as [H|H].
      - apply Exists_exists in H as ([[q s] k'] & Hin & [= -> ->] & _). destruct (ai_ack Hainv _ _ _ Hin) as (o1 & l1 & _ & HT & _).
        destruct (s_grows _ _ _ HT) as (l2 & HT2 & _). rewrite HT' in HT2. injection HT2 as <- <-. eauto.
      - destruct (T !! t) as [[o1 l1]|] eqn:HT; [|done]. destruct (s_grows _ _ _ HT) as (l2 & HT2 & _).
        rewrite HT' in HT2. injection HT2 as <- <-. eauto. }
    pose proof (acked_length p t k o l0 Hold HT) as Hk.
    assert (agree k (log m) l0 ∨ overridden T t k l0 (currentTerm m)) as [Ha|Ho].
    { destruct (s_lookup p m Hm) as [[-> ->]|[_ Hm']]; [by eapply step_keep_old|by eapply ai_keep]. }
    + left. by eapply agree_grows.
    + right. eapply overridden_mono; try done; lia.
  - destruct (acked_back p t k Hack) as [?|[-> ->]]; [done|]. destruct (s_lookup i m Hm) as [[_ ->]|[? _]]; [|done]. left.
    destruct (s_T_back _ _ _ HT') as [HT|(_ & -> & -> & _)].
    2: { apply agree_refl. destruct Hack as [H|H]; [|rewrite HT' in H; apply H].
         apply Exists_exists in H as ([[q s] k'] & Hin & [= -> ->] & Hle). destruct (step_ack _ _ _ Hin) as (o1 & l1 & _ & HT1 & Hk & _).
         rewrite HT' in HT1. injection HT1 as <- <-. cbn in Hle. lia. }
    destruct Hack as [H|H]; [|destruct Hnew; right; by rewrite HT' in H; rewrite HT].
    pose proof step_keep_new as Hkn. unfold A', acknowledge in H. clear A'. destruct ak as [[s z]|]; [|by destruct Hnew; left].
    apply Exists_cons in H as [[[= ->] Hz]|H]; [|by destruct Hnew; left].
    destruct (Hkn _ _ eq_refl) as (o1 & l1 & HT1 & Ha). rewrite HT in HT1. injection HT1 as <- <-. by eapply agree_le.
Qed.

Lemma step_rep from to args reply : AppendRep from to args reply ∈ net c' → aer_Success reply = true →
  (to, ae_Term args, Z.to_nat (ae_last args)) ∈ A'.
Proof.
  intros Hin Hs. destruct (s_net Hst _ Hin) as [Hold|(-> & _ & Hak)].
  - unfold A', acknowledge. pose proof (ai_rep Hainv _ _ _ _ Hold Hs). destruct ak as [[s z]|]; [|done].
    by apply elem_of_cons; right.
  - unfold A'. rewrite (Hak Hs). by apply elem_of_cons; left.
Qed.

Lemma ack_old x : x ∈ A → x ∈ A'.
Proof. unfold A', acknowledge. destruct ak as [[s z]|]; [|done]. intros. by apply elem_of_cons; right. Qed.

Lemma step_match j m p v : nodes c' !! j = Some m → role m = Leader → matchIndex m !! p = Some v → 0 < v → p ≠ j →
  (p, currentTerm m, Z.to_nat v) ∈ A'.
Proof.
  intros Hm Hr Hp Hv0 Hne. destruct (s_lookup j m Hm) as [[-> ->]|[_ Hm']]; [|apply ack_old; by eapply ai_match].
  pose proof (s_node Hst) as Hi. apply ack_old.
  pose proof (λ H1 H2, ai_match Hainv i n p v Hi H1 H2 Hv0 Hne) as Hold.
  destruct (s_kind Hst) as [bl' _ _ Hro _ _|_ _ _ Hf _|_ _ Hc _|_ _ _ _ _ Hz|cmd _ Ht Hc _ _ Hmt|live from args _ _ _ Hf _ _ _|peer args reply Hin Hs Hta Hc _ Ht _ Hmt _].
  - destruct Hro as (Hc & -> & Hmt); [by rewrite Hr|]. apply Hold; congruence.
  - congruence.
  - congruence.
  - specialize (Hz p). rewrite Hp in Hz. cbn in Hz. unfold Datatypes.id in Hz. lia.
  - rewrite Ht. apply Hold; [done|]. by rewrite <-Hmt.
  - congruence.
  - rewrite Ht. destruct (Hmt p) as [Hmp|[-> Hmp]]; [apply Hold; congruence|].
    rewrite Hp in Hmp. injection Hmp as ->. rewrite <-Hta. by eapply ai_rep.
Qed.

(** *** Votes *)

(** The votes given in the step: none, one for a request under way, or the
    node's own. *)
Lemma step_new_ballot v t cnd : (v, t, cnd) ∈ bl →
  v = i ∧ t = currentTerm n' ∧ log n' = log n ∧
  ((∃ live args, VoteReq live cnd i args ∈ net c ∧ rv_Term args = t ∧ cnd ≠ i ∧ up_to_date args (log n)) ∨
   (cnd = i ∧ currentTerm n < t)).
Proof.
  destruct (s_kind Hst) as [bl' Hlog _ _ _ Hbl| |Hlog Ht _ _| | | |]; try by intros ?%not_elem_of_nil.
  - destruct Hbl as [->|(live & from & args & Hin & -> & Ht & Hup)]; [by intros ?%not_elem_of_nil|].
    intros [= -> -> ->]%list_elem_of_singleton. split_and!; try done. left. pose proof Hvc as (_ & Hvm & _).
    destruct (Hvm _ Hin) as (_ & Hne & Hcand). rewrite Hcand. exists live, args. by split_and!.
  - intros [= -> -> ->]%list_elem_of_singleton. split_and!; try done. right. split; [done|lia].
Qed.

Lemma step_ballot v t cnd : (v, t, cnd) ∈ ballots c' → (∃ m, nodes c' !! v = Some m ∧ t ≤ currentTerm m) ∧
  ∃ m, nodes c' !! cnd = Some m ∧ t ≤ currentTerm m.
Proof.
  assert (Hup : ∀ j, (∃ m, nodes c !! j = Some m ∧ t ≤ currentTerm m) → ∃ m, nodes c' !! j = Some m ∧ t ≤ currentTerm m).
  { intros j (m & Hm & Ht). destruct (s_lookup_old j m Hm) as (m' & Hm' & ?). exists m'. split; [done|lia]. }
  rewrite (s_ballots Hst). intros [Hold|Hnew]%elem_of_app.
  - destruct (ai_ballot Hainv _ _ _ Hold) as [? ?]. auto.
  - assert (Hi' : nodes c' !! i = Some n') by (rewrite (s_nodes Hst); apply lookup_insert_eq).
    destruct (step_new_ballot _ _ _ Hnew) as (-> & -> & _ & [(live & args & Hin & Ht & _)|[-> _]]).
    + split; [exists n'; split; [done|lia]|]. apply Hup. destruct Hinv as (_ & _ & Hms).
      destruct (Hms _ Hin) as (m & Hm & Hok). cbn in Hm, Hok. exists m. split; [done|lia].
    + split; exists n'; (split; [done|lia]).
Qed.

Lemma up_to_date_newer args lc lv : announces args lc → up_to_date args lv → newer lc lv.
Proof.
  intros [Hi Ht] (ev & Hev & Hcmp). destruct (last lc) as [ec|] eqn:Ec; [|done]. cbn in Ht. injection Ht as Ht.
  exists ec, ev. split_and!; try done. rewrite <-Ht, Hi in Hcmp. destruct Hcmp as [?|[? Hl]]; [by left|right].
  unfold Zlen in Hl. split; [done|lia].
Qed.

(** The log a vote is given with holds what the voter acknowledged. *)
Lemma step_voted_with t : log n' = log n → currentTerm n' = t → T' !! t = None → voted_with T' A' i t (log n).
Proof.
  intros Hlog <- Hnone. pose proof (s_node Hst) as Hi. split.
  - exists (currentTerm n). eapply good_log_grows; [apply s_grows|apply Z.le_refl|]. by eapply li_node.
  - intros s k o l Hs Hack HT. rewrite <-Hlog.
    assert (Hi' : nodes c' !! i = Some n') by (rewrite (s_nodes Hst); apply lookup_insert_eq).
    destruct (step_keep i s k o l n' Hack HT Hi') as [?|(s' & o' & l' & Hs' & HT' & Hno)]; [by left|right].
    exists s', o', l'. split; [|done]. destruct (decide (s' = currentTerm n')) as [->|]; [congruence|lia].
Qed.

Lemma voted_with_mono v t vlog m : voted_with T A v t vlog → nodes c !! v = Some m → t ≤ currentTerm m → voted_with T' A' v t vlog.
Proof.
  intros [[u Hg] Hw] Hm Ht. split; [exists u; by eapply good_log_grows; [apply s_grows|apply Z.le_refl|]|].
  intros s k o l Hs Hack HT'. destruct (acked_back _ _ _ Hack) as [Hold|[-> ->]].
  - destruct (T !! s) as [[o1 l1]|] eqn:HT.
    + destruct (s_grows _ _ _ HT) as (l2 & HT2 & _). rewrite HT' in HT2. injection HT2 as <- <-.
      pose proof (acked_length v s k o l1 Hold HT) as Hk.
      destruct (Hw s k o l1 Hs Hold HT) as [?|?]; [left; by eapply agree_grows|right; by eapply overridden_mono].
    + destruct Hold as [H|H]; [|by rewrite HT in H]. apply Exists_exists in H as ([[q s'] k'] & Hin & [= -> ->] & _).
      destruct (ai_ack Hainv _ _ _ Hin) as (? & ? & ? & ? & _). congruence.
  - pose proof s_term. rewrite (s_node Hst) in Hm. injection Hm as <-. lia.
Qed.

Lemma step_candidate : role n' = Candidate → log n' = log n ∧
  ((role n = Candidate ∧ currentTerm n' = currentTerm n) ∨ currentTerm n < currentTerm n').
Proof.
  intros Hr. destruct (s_kind Hst) as [bl' Hlog _ Hro _ _|_ _ _ Hr' _|Hlog Ht _ _|_ _ _ Hr' _ _|cmd _ _ _ Hr' _ _|live from args _ _ _ Hr' _ _ _|peer args reply _ _ _ _ Hr' _ _ _ _]; try congruence.
  - destruct Hro as (Hc & Ht & _); [by rewrite Hr|]. split; [done|]. left. split; [congruence|done].
  - split; [done|]. right. lia.
Qed.

Lemma step_vote v t cnd : (v, t, cnd) ∈ ballots c' → T' !! t = None → ∃ vlog, voted_with T' A' v t vlog ∧
  ∀ m, nodes c' !! cnd = Some m → currentTerm m = t → role m = Candidate → newer (log m) vlog.
Proof.
  pose proof (s_node Hst) as Hi.
  rewrite (s_ballots Hst). intros [Hold|Hnew]%elem_of_app Hnone.
  - destruct (ai_vote Hainv _ _ _ Hold (s_T_none _ Hnone)) as (vlog & Hw & Hnewer).
    destruct (ai_ballot Hainv _ _ _ Hold) as [(m & Hm & Ht) (mc & Hmc & Htc)].
    exists vlog. split; [by eapply voted_with_mono|]. intros m' Hm' Ht' Hr'.
    destruct (s_lookup cnd m' Hm') as [[-> ->]|[_ Hm1]]; [|by apply Hnewer]. rewrite Hi in Hmc. injection Hmc as <-.
    destruct (step_candidate Hr') as [Hlog [[Hr Hteq]|Hlt]]; [|lia]. rewrite Hlog. apply Hnewer; [done|congruence|done].
  - destruct (step_new_ballot _ _ _ Hnew) as (-> & -> & Hlog & Hcase). exists (log n). split; [by apply step_voted_with|].
    intros m Hm Ht Hr. destruct Hcase as [(live & args & Hin & Hta & Hne & Hup)|[-> _]].
    + destruct (s_lookup cnd m Hm) as [[-> _]|[_ Hm']]; [done|]. eapply up_to_date_newer; [|done].
      eapply (ai_req Hainv); [done..|congruence|done].
    + destruct (s_lookup i m Hm) as [[_ ->]|[? _]]; [|done]. rewrite Hlog.
      destruct (good_log_last T (currentTerm n) (log n)) as (e & He & _); [by eapply li_node|]. exists e, e. by split_and!; [..|right].
Qed.

Lemma step_req live from to args m : VoteReq live from to args ∈ net c' → nodes c' !! from = Some m →
  currentTerm m = rv_Term args → role m = Candidate → announces args (log m).
Proof.
  intros Hin Hm Ht Hr. destruct (s_net Hst _ Hin) as [[live' Hold]|(-> & _ & _ & Han)].
  - destruct (s_lookup from m Hm) as [[-> ->]|[_ Hm']]; [|by eapply ai_req].
    pose proof (s_node Hst) as Hi. destruct (step_candidate Hr) as [Hlog [[Hrn Hteq]|Hlt]].
    + rewrite Hlog. eapply (ai_req Hainv); [done..|congruence|done].
    + destruct Hinv as (_ & _ & Hms). destruct (Hms _ Hold) as (m0 & Hm0 & Hok). cbn in Hm0, Hok.
      rewrite Hi in Hm0. injection Hm0 as <-. lia.
  - by destruct (s_lookup i m Hm) as [[_ ->]|[? _]].
Qed.

(** *** Leader completeness *)

(** A candidate whose log is as new as one that holds index [k] of term [s]
    holds it too, or it cannot be committed. *)
Lemma newer_holds s k o l e vlog u :
  T !! s = Some (o, l) → l !! k = Some e → Term e = s → s < currentTerm n → T !! currentTerm n = None →
  good_log T u vlog → agree k vlog l → newer (log n) vlog →
  agree k (log n) l ∨ blocked ids T A (nodes c) s k.
Proof.
  intros HT He Hte Hs Hnone Hgv Hav (ec & ev & Hec & Hev & Hcmp).
  pose proof (li_node Hlinv i n (s_node Hst)) as Hgc.
  destruct (li_term Hlinv _ _ _ HT) as (Hpos & _).
  destruct (good_log_last _ _ _ Hgc) as (ec' & Hec' & Hlc). rewrite Hec in Hec'. injection Hec' as <-.
  destruct (good_log_last _ _ _ Hgv) as (ev' & Hev' & Hlv). rewrite Hev in Hev'. injection Hev' as <-.
  pose proof (agree_lookup _ _ _ _ (agree_sym _ _ _ Hav) He) as Hvk.
  assert (Hkv : (k ≤ length vlog - 1)%nat) by (destruct Hav; lia).
  pose proof (good_log_sorted ids T c u vlog k _ e ev Hlinv Hgv Hkv Hvk Hlv) as Hsv.
  assert (Hec0 : (0 < length (log n) - 1)%nat).
  { destruct (length (log n) - 1)%nat eqn:E; [|lia]. destruct Hgc as [H0 _]. rewrite H0 in Hlc. injection Hlc as <-. cbn in Hcmp. lia. }
  destruct (proj2 Hgc _ ec Hec0 Hlc) as (Hle & oc & lc & HTc & Hac).
  destruct Hcmp as [Hlt|[Heq Hlen]].
  - destruct (ai_complete Hainv s (Term ec) o l oc lc k e) as [Ha|?]; try done; [lia| |by right]. left.
    destruct (decide (k ≤ length (log n) - 1)%nat) as [Hk|Hk].
    { eapply agree_trans; [|done]. by eapply agree_le. }
    exfalso. destruct (li_term Hlinv _ _ _ HTc) as (_ & Hglc & _).
    pose proof (agree_lookup _ _ _ _ Hac Hlc) as H1. pose proof (agree_lookup _ _ _ _ (agree_sym _ _ _ Ha) He) as H2.
    pose proof (good_log_sorted ids T c _ lc (length (log n) - 1) k ec e Hlinv Hglc ltac:(lia) H1 H2). lia.
  - left. eapply agree_trans; [|exact Hav]. apply (agree_le k (length vlog - 1)); [done|].
    assert (∃ x, log n !! (length vlog - 1)%nat = Some x ∧ Term x = Term ev) as (x & Hx & Htx).
    { assert (Hev0 : (0 < length vlog - 1)%nat).
      { destruct (length vlog - 1)%nat eqn:E; [|lia]. destruct Hgv as [H0 _]. rewrite H0 in Hlv. injection Hlv as <-. cbn in Hsv. lia. }
      destruct (proj2 Hgv _ ev Hev0 Hlv) as (_ & o2 & l2 & HT2 & Ha2). rewrite Heq, HTc in HT2. injection HT2 as <- <-.
      pose proof (agree_lookup _ _ _ _ Ha2 Hlv) as H2. exists ev. split; [|done].
      destruct Hac as [_ Hac]. rewrite Hac by lia. done. }
    by eapply good_logs_match.
Qed.

(** The winner of an election holds what may be committed in earlier terms. *)
Lemma win_complete s k o l e :
  role n = Candidate → role n' = Leader → currentTerm n' = currentTerm n → bl = [] →
  s < currentTerm n → T !! s = Some (o, l) → l !! k = Some e → Term e = s →
  agree k (log n) l ∨ blocked ids T A (nodes c) s k.
Proof.
  intros Hc Hl Ht Hbl Hs HT He Hte. pose proof (s_node Hst) as Hi.
  pose proof (win_fresh ids T evt c c' i n n' bl ak ap Hlinv Hst Hv Hone Hc Hl Ht) as Hnone.
  assert (Hmaj : majority ids (ballots c) i (currentTerm n)).
  { pose proof Hv as (_ & _ & _ & Hld). pose proof (s_ballots Hst) as Hb. rewrite Hbl, app_nil_r in Hb.
    rewrite <-Hb, <-Ht. apply Hld; [|done]. rewrite (s_nodes Hst). apply lookup_insert_eq. }
  destruct Hmaj as (V & HV1 & HV2 & HV3). destruct (decide (Exists (λ j, acked T A j s k) V)) as [Hex|Hno].
  - apply Exists_exists in Hex as (j & Hj & Hack). destruct (HV3 j Hj) as [_ Hbal].
    destruct (ai_vote Hainv _ _ _ Hbal Hnone) as (vlog & [[u Hg] Hw] & Hnewer).
    destruct (Hw s k o l Hs Hack HT) as [Ha|(s' & o' & l' & Hs' & HT' & Hna)].
    + eapply newer_holds; try done. by apply Hnewer.
    + right. destruct (ai_complete Hainv s s' o l o' l' k e) as [?|?]; try done. lia.
  - right. exists V. split_and!; try done. intros j Hj. destruct (HV3 j Hj) as [Hjd Hbal]. split; [done|]. split.
    + intros Hack. apply Hno, Exists_exists. eauto.
    + destruct (ai_ballot Hainv _ _ _ Hbal) as [(m & Hm & Htm) _]. exists m. split; [done|lia].
Qed.

(** What a leader appends after a later term has begun can never be committed. *)
Lemma late_blocked s s' o l o' l' k :
  s < s' → T !! s = Some (o, l) → (length l ≤ k)%nat → T !! s' = Some (o', l') → blocked ids T' A' (nodes c') s k.
Proof.
  intros Hs HT Hk HT'. destruct (li_term Hlinv _ _ _ HT') as (_ & _ & (V & HV1 & HV2 & HV3) & _).
  exists V. split_and!; try done. intros j Hj. destruct (HV3 j Hj) as [Hjd Hbal]. split; [done|].
  destruct (ai_ballot Hainv _ _ _ Hbal) as [(m & Hm & Htm) _]. destruct (s_lookup_old j m Hm) as (m' & Hm' & Hle). split.
  - intros [Hack|[-> ->]]%acked_back; [pose proof (acked_length _ _ _ _ _ Hack HT); lia|].
    destruct (s_lookup i m' Hm') as [[_ ->]|[? _]]; [lia|done].
  - exists m'. split; [done|lia].
Qed.

(** A term that is first led now has no entries yet. *)
Lemma first_empty s o l k e : T !! s = None → T' !! s = Some (o, l) → l !! k = Some e → Term e = s → log n' = log n → False.
Proof.
  intros HT HT' He Hte Hlog. destruct (s_T_back _ _ _ HT') as [?|(Hs & -> & -> & Hr)]; [congruence|].
  pose proof (step_pos ids T evt c c' i n n' bl ak ap Hlinv Hst Hinv) as Hpos. rewrite Hr in Hpos. specialize (Hpos ltac:(done)).
  rewrite Hlog in He. destruct (li_node Hlinv i n (s_node Hst)) as [H0 Hg]. destruct k as [|k].
  - rewrite H0 in He. injection He as <-. cbn in Hte. lia.
  - destruct (Hg (S k) e ltac:(lia) He) as (_ & o1 & l1 & HT1 & _). congruence.
Qed.

(** A term that is led now and was not before was just won. *)
Lemma new_leader_won s o l : T !! s = None → T' !! s = Some (o, l) →
  role n = Candidate ∧ role n' = Leader ∧ currentTerm n' = currentTerm n ∧ bl = [] ∧ log n' = log n ∧ s = currentTerm n ∧ l = log n.
Proof.
  intros HT HT'. destruct (s_T_back _ _ _ HT') as [?|(-> & -> & -> & Hr)]; [congruence|].
  pose proof (li_leader Hlinv i n (s_node Hst)) as Hld.
  destruct (s_kind Hst) as [bl' Hlog _ Hro _ _|_ _ _ Hf _|_ _ Hc _|Hlog Ht Hc _ _ _|cmd Hlog Ht Hc _ _ _|live from args _ _ _ Hf _ _ _|peer args reply _ _ _ Hc _ Ht Hlog _ _]; try congruence.
  - destruct Hro as (Hc & Ht & _); [by rewrite Hr|]. rewrite Ht, Hld in HT; congruence.
  - by split_and!.
  - rewrite Ht, Hld in HT; congruence.
  - rewrite Ht, Hld in HT; congruence.
Qed.

Lemma step_complete s s' o l o' l' k e : s < s' → T' !! s = Some (o, l) → T' !! s' = Some (o', l') →
  l !! k = Some e → Term e = s → agree k l' l ∨ blocked ids T' A' (nodes c') s k.
Proof.
  intros Hs HT HT' He Hte. destruct (T !! s) as [[o1 l1]|] eqn:E1.
  2: { destruct (new_leader_won _ _ _ E1 HT) as (_ & _ & _ & _ & Hlog & _). by destruct (first_empty s o l k e). }
  destruct (s_grows _ _ _ E1) as (l2 & HT2 & Hp). rewrite HT in HT2. injection HT2 as <- <-.
  destruct (T !! s') as [[o2 l2]|] eqn:E2.
  - destruct (decide (k < length l1)%nat) as [Hk|Hk]; [|right; eapply late_blocked; [exact Hs|done|lia|done]].
    pose proof (agree_lookup _ _ _ _ (agree_sym _ _ _ (agree_prefix _ _ _ Hp Hk)) He) as He1.
    destruct (ai_complete Hainv s s' o l1 o2 l2 k e) as [Ha|Hb]; try done; [left|right; by apply blocked_mono].
    destruct (s_grows _ _ _ E2) as (l3 & HT3 & Hp2). rewrite HT' in HT3. injection HT3 as <- <-.
    eapply (agree_grows k s); [done..|]. apply agree_sym. eapply (agree_grows k s'); [done..|]. by apply agree_sym.
  - destruct (new_leader_won _ _ _ E2 HT') as (Hc & Hr & Ht & Hbl & _ & -> & ->).
    destruct (s_T_back _ _ _ HT) as [HTo|(-> & _)]; [|lia]. rewrite E1 in HTo. injection HTo as ->.
    destruct (win_complete s k o l e) as [?|?]; try done; [by left|right; by apply blocked_mono].
Qed.

(** *** Commit indices *)

(** A leader that advances its commit index counts a majority. *)
Lemma count_committed z : role n = Leader → role n' = Leader → currentTerm n' = currentTerm n → log n' = log n →
  0 < z → Term <$> log n' !! Z.to_nat z = Some (currentTerm n') → Zlen (peers n') + 1 < replicas n' z * 2 →
  node_inv ids i n' → committed ids T' A' (currentTerm n') (Z.to_nat z).
Proof.
  intros Hr Hr' Ht Hlog Hz Hterm Hrep (_ & Hp & _). set (k := Z.to_nat z) in *.
  assert (HT' : T' !! currentTerm n' = Some (i, log n')) by (unfold T'; rewrite lead_leader by done; apply lookup_insert_eq).
  destruct (log n' !! k) as [e|] eqn:Ee; [|done]. cbn in Hterm. injection Hterm as Hterm. split; [by exists i, (log n'), e|].
  assert (Hi' : nodes c' !! i = Some n') by (rewrite (s_nodes Hst); apply lookup_insert_eq).
  assert (Hiid : i ∈ ids) by (apply Hinv; rewrite (s_node Hst); eauto).
  exists (i :: filter (λ p : bytes, z ≤ default 0 (matchIndex n' !! p)) (peers n')). split; [|split].
  - apply NoDup_cons. split; [|rewrite Hp; by apply NoDup_filter, NoDup_filter]. rewrite Hp.
    intros [_ [? _]%list_elem_of_filter]%list_elem_of_filter. done.
  - rewrite (Zlen_filter_ne ids i) by done. rewrite <-Hp, Zlen_cons. unfold replicas in Hrep. lia.
  - intros j [->|Hj]%elem_of_cons.
    + split; [done|]. right. rewrite HT'. split; [done|]. by apply lookup_lt_Some in Ee.
    + apply list_elem_of_filter in Hj as [Hmt Hj]. rewrite Hp in Hj. apply list_elem_of_filter in Hj as [Hne Hjd]. split; [done|]. left.
      destruct (matchIndex n' !! j) as [v|] eqn:Ev; cbn in Hmt; unfold Datatypes.id in *; [|lia].
      pose proof (step_match i n' j v Hi' Hr' Ev ltac:(lia) Hne) as Hin. apply Exists_exists. eexists. split; [done|]. split; [done|]. cbn. lia.
Qed.

(** A follower takes over the leader's commit index as far as its log goes. *)
Lemma accept_settled live from args :
  AppendReq live from i args ∈ net c → currentTerm n ≤ ae_Term args →
  Term <$> log n !! Z.to_nat (ae_PrevLogIndex args) = Some (ae_PrevLogTerm args) →
  settled ids T A (ae_Term args) (accepted args (log n)) (new_commit args (commitIndex n)).
Proof.
  intros Hin Hle Hprev. pose proof (s_node Hst) as Hi.
  destruct (li_req Hlinv _ _ _ _ Hin) as (l1 & HT1 & Hcov).
  pose proof (good_log_match ids T evt c c' i n n' bl ak ap Hlinv Hst _ _ HT1) as Hmatch. cbn in Hmatch.
  pose proof (accept_last _ _ _ Hcov Hprev Hmatch) as Hlast.
  destruct (proj1 (proj2 Hinv) i n Hi) as (_ & _ & _ & _ & _ & _ & Hc0 & _).
  unfold new_commit. fold (ae_last args). destruct (_ <? _) eqn:E; kv_bool.
  - destruct (ai_mcommit Hainv _ _ _ _ _ _ Hin HT1) as [?|(t0 & k0 & o0 & l0 & Ht0 & Hc & HT0 & Hk & Ha)]; [lia|].
    right. exists t0, k0, o0, l0. split_and!; try done; [lia|].
    eapply agree_trans; [eapply agree_le; [|exact Hlast]; lia|]. eapply agree_le; [|exact Ha]. lia.
  - destruct (ai_commit Hainv i n Hi) as [?|(t0 & k0 & o0 & l0 & Ht0 & Hc & HT0 & Hk & Ha)]; [by left|].
    right. exists t0, k0, o0, l0. split_and!; try done; [lia|].
    pose proof (committed_agree ids T A c t0 (ae_Term args) k0 o0 l0 from l1 Hainv Hc ltac:(lia) HT0 HT1) as Hag.
    pose proof (agree_le _ _ _ _ Hk Hag) as Hag'. eapply agree_trans; [|exact Hag'].
    apply accept_keeps; try done. eapply agree_trans; [done|]. by apply agree_sym.
Qed.

Lemma step_commit_self : node_inv ids i n' → settled ids T' A' (currentTerm n') (log n') (commitIndex n').
Proof.
  intros Hn'. pose proof (s_node Hst) as Hi. pose proof (ai_commit Hainv i n Hi) as Hold.
  pose proof s_term as Hle. pose proof count_committed as Hcount. pose proof accept_settled as Hacc. pose proof settled_mono as Hmono.
  destruct (proj1 (proj2 Hinv) i n Hi) as (_ & _ & _ & _ & _ & _ & Hc0 & _).
  assert (Hsame : log n' = log n → commitIndex n' = commitIndex n → settled ids T' A' (currentTerm n') (log n') (commitIndex n')).
  { intros -> ->. by eapply Hmono. }
  destruct (s_kind Hst) as [bl' Hlog _ _ Hc _|_ Hlog _ _ Hc|Hlog _ _ Hc|Hlog _ _ _ Hc _|cmd Hlog Ht _ Hr Hc _|live from args Hin Hta Hta' _ Hprev Hlog Hc|peer args reply _ _ _ Hr Hr' Ht Hlog _ [Hc|(Hlt & Hte & Hrep)]];
    try by apply Hsame.
  - rewrite Hc. by left.
  - rewrite Hlog, Hc. eapply Hmono; [done|done|]. intros k Hk. apply agree_sym, agree_prefix; [by apply prefix_app_r|apply Hk].
  - rewrite Hlog, Hc, Hta'. eapply Hmono; [by eapply Hacc|lia|]. done.
  - right. exists (currentTerm n'), (Z.to_nat (commitIndex n')), i, (log n'). split; [lia|].
    split; [apply Hcount; try done; lia|]. split; [unfold T'; rewrite lead_leader by done; apply lookup_insert_eq|].
    split; [lia|]. apply agree_refl. destruct (log n' !! _) as [e|] eqn:Ee; [|done]. by apply lookup_lt_Some in Ee.
Qed.

Lemma step_mcommit live from to args o l : node_inv ids i n' → AppendReq live from to args ∈ net c' →
  T' !! ae_Term args = Some (o, l) → settled ids T' A' (ae_Term args) l (ae_LeaderCommit args).
Proof.
  intros Hn' Hin HT'. destruct (s_net Hst _ Hin) as [[live' Hold]|(_ & Hr & Ht & _ & Hc & _)].
  - destruct (li_req Hlinv _ _ _ _ Hold) as (l0 & HT & _). destruct (s_grows _ _ _ HT) as (l1 & HT1 & Hp).
    rewrite HT' in HT1. injection HT1 as -> <-. eapply settled_mono; [by eapply ai_mcommit|lia|].
    intros k [Hk _]. by apply agree_sym, agree_prefix.
  - unfold T' in HT'. rewrite lead_leader, Ht, lookup_insert_eq in HT' by done. injection HT' as <- <-.
    rewrite Ht, Hc. by apply step_commit_self.
Qed.

Lemma step_mlast live from to args : node_inv ids i n' → AppendReq live from to args ∈ net c' →
  ae_LeaderCommit args ≤ ae_last args.
Proof.
  intros Hn' Hin. destruct (s_net Hst _ Hin) as [[live' Hold]|(_ & _ & _ & _ & -> & ->)]; [by eapply ai_mlast|].
  pose proof (step_commit_self Hn') as Hset. destruct Hn' as (_ & _ & _ & (_ & _ & Hne & _) & _ & _ & Hc0 & _).
  pose proof (settled_bound _ _ _ _ _ _ Hset Hne Hc0). lia.
Qed.

Lemma step_applied j a : (j, a) ∈ applied c' → 0 ≤ CommandIndex a ∧
  ∃ t k o l e, committed ids T' A' t k ∧ T' !! t = Some (o, l) ∧ (Z.to_nat (CommandIndex a) ≤ k)%nat ∧
    l !! Z.to_nat (CommandIndex a) = Some e ∧ Command e = Some (ACommand a).
Proof.
  rewrite (s_applied Hst). pose proof (s_node Hst) as Hi.
  assert (Hgoal : ∀ t k o l e z, committed ids T A t k → T !! t = Some (o, l) → (Z.to_nat z ≤ k)%nat → l !! Z.to_nat z = Some e →
    ∃ t k o l e', committed ids T' A' t k ∧ T' !! t = Some (o, l) ∧ (Z.to_nat z ≤ k)%nat ∧ l !! Z.to_nat z = Some e' ∧ Command e' = Command e).
  { intros t k o l e z Hc HT Hk He. destruct (s_grows _ _ _ HT) as (l' & HT' & Hp). exists t, k, o, l', e.
    split_and!; try done; [by apply committed_mono|by eapply prefix_lookup_Some]. }
  intros [Hold|Hnew]%elem_of_app.
  - destruct (ai_applied Hainv _ _ Hold) as (H0 & t & k & o & l & e & Hc & HT & Hk & He & <-). split; [done|]. by eapply Hgoal.
  - destruct (s_lives Hst) as [(_ & _ & ->)|[(_ & _ & Hlt & Hidx & _ & e & He & ->)|(_ & _ & ->)]]; try by apply not_elem_of_nil in Hnew.
    destruct (Command e) as [x|] eqn:Hce; [|by apply not_elem_of_nil in Hnew].
    apply list_elem_of_singleton in Hnew as [= -> ->]. cbn [CommandIndex ACommand]. pose proof (ai_la Hainv i n Hi) as Hla.
    destruct (ai_commit Hainv i n Hi) as [?|(t0 & k0 & o0 & l0 & _ & Hc & HT0 & Hk & Ha)]; [lia|].
    destruct (proj1 (proj2 Hinv) i n Hi) as (_ & _ & _ & _ & Hlen & _). pose proof Ha as [Hkl Hag].
    rewrite u64_id in Hidx by (unfold Zlen in Hlen; lia). split; [lia|]. rewrite <-Hce.
    eapply Hgoal; [done..|lia|]. rewrite <-Hag by lia. done.
Qed.

(** *** What is committed stays *)

Lemma commit_stable : agree (Z.to_nat (commitIndex n)) (log n) (log n').
Proof.
  pose proof (s_node Hst) as Hi. pose proof (li_node Hlinv i n Hi) as [H0 _]. apply lookup_lt_Some in H0 as Hlen.
  pose proof (good_log_match ids T evt c c' i n n' bl ak ap Hlinv Hst) as Hmatch.
  destruct (proj1 (proj2 Hinv) i n Hi) as (_ & _ & _ & (_ & _ & Hne & _) & _ & _ & Hc0 & _).
  pose proof (ai_commit Hainv i n Hi) as Hset. pose proof (settled_bound _ _ _ _ _ _ Hset Hne Hc0) as Hb. unfold Zlen in Hb.
  assert (Hself : agree (Z.to_nat (commitIndex n)) (log n) (log n)) by (apply agree_refl; lia).
  destruct (s_kind Hst) as [bl' Hlog _ _ _ _|_ Hlog _ _ _|Hlog _ _ _|Hlog _ _ _ _ _|cmd Hlog _ _ _ _ _|live from args Hin Hta _ _ Hprev Hlog _|peer args reply _ _ _ _ _ _ Hlog _ _];
    try by rewrite Hlog.
  - rewrite Hlog. apply agree_prefix; [by apply prefix_app_r|lia].
  - destruct (li_req Hlinv _ _ _ _ Hin) as (l1 & HT1 & Hcov). specialize (Hmatch _ _ HT1). cbn in Hmatch.
    assert (Hal : agree (Z.to_nat (commitIndex n)) (log n) l1).
    { destruct Hset as [->|(t0 & k0 & o0 & l0 & Ht0 & Hc & HT0 & Hk & Ha)].
      - eapply agree_le, (accept_prev args); try done. lia.
      - pose proof (committed_agree ids T A c t0 (ae_Term args) k0 o0 l0 from l1 Hainv Hc ltac:(lia) HT0 HT1) as Hag.
        eapply agree_trans; [exact Ha|]. apply agree_sym. by eapply agree_le. }
    rewrite Hlog. eapply agree_trans; [exact Hal|]. by apply agree_sym, accept_keeps.
Qed.

Lemma commit_mono : evt ≠ ERestart i → commitIndex n ≤ commitIndex n'.
Proof.
  intros Hev. destruct (s_kind Hst) as [bl' _ _ _ Hc _|He _ _ _ _|_ _ _ Hc|_ _ _ _ Hc _|cmd _ _ _ _ Hc _|live from args Hin _ _ _ _ _ Hc|peer args reply _ _ _ _ _ _ _ _ [Hc|(Hlt & _)]]; try lia; [done|].
  rewrite Hc. unfold new_commit. fold (ae_last args). pose proof (ai_mlast Hainv _ _ _ _ Hin). destruct (_ <? _) eqn:E; kv_bool; lia.
Qed.

Lemma stepped_ainv : (∀ j m, nodes c' !! j = Some m → node_inv ids j m) → ainv ids T' A' c'.
Proof.
  intros Hns. assert (Hi' : nodes c' !! i = Some n') by (rewrite (s_nodes Hst); apply lookup_insert_eq).
  pose proof (Hns i n' Hi') as Hn'. split.
  - apply step_ack.
  - apply step_keep.
  - apply step_rep.
  - apply step_match.
  - apply step_ballot.
  - apply step_vote.
  - apply step_req.
  - apply step_complete.
  - intros j m Hm. destruct (s_lookup j m Hm) as [[-> ->]|[_ Hm']]; [by apply step_commit_self|].
    eapply settled_mono; [by eapply ai_commit|lia|done].
  - intros live from to args o l. by apply step_mcommit.
  - intros live from to args. by apply step_mlast.
  - intros j m Hm. destruct (s_lookup j m Hm) as [[-> ->]|[_ Hm']]; [|by eapply ai_la].
    pose proof (ai_la Hainv i n (s_node Hst)). destruct (s_lives Hst) as [(_ & -> & _)|[(_ & _ & _ & -> & _)|(_ & -> & _)]]; try done.
    apply Z.mod_pos_bound. lia.
  - apply step_applied.
Qed.

End one_step.

(** ** Runs *)

Lemma init_ainv ids : ainv ids ∅ [] (init ids).
Proof.
  assert (Hlk : ∀ j n, nodes (init ids) !! j = Some n → n = fresh ids j).
  { intros j n Hj%elem_of_list_to_map_2. by apply list_elem_of_fmap in Hj as (x & [= -> ->] & _). }
  split; try done; try by intros * ?%not_elem_of_nil.
  - by intros i n p v ->%Hlk.
  - intros i n ->%Hlk. by left.
  - by intros i n ->%Hlk.
Qed.

Lemma lost_ainv ids T A ev c c' : lost ev c c' → ainv ids T A c → ainv ids T A c'.
Proof.
  intros (_ & Hn & Hb & Ha & Hm) [H1 H2 H3 H4 H5 H6 H7 H8 H9 H10 H11 H12 H13]. split; rewrite ?Hn, ?Hb, ?Ha; eauto.
Qed.

Lemma step_ballots ids ev c c' x : snapshots ev = false → inv ids (nodes c) (net c) → step ev c = Ret c' → x ∈ ballots c → x ∈ ballots c'.
Proof.
  intros Hsn Hinv Hs Hx. destruct (step_stepped ids c Hinv ev c' Hsn Hs) as [(_ & _ & -> & _)|(i & n & n' & bl & ak & ap & Hst)]; [done|].
  rewrite (s_ballots Hst). apply elem_of_app. by left.
Qed.

Lemma run_ballots ids evs c c' x : no_snapshots evs → inv ids (nodes c) (net c) → run evs c = Ret c' → x ∈ ballots c → x ∈ ballots c'.
Proof.
  intros Hsn. revert c. induction Hsn as [|ev evs Hev _ IH]; intros c Hinv; cbn [run]; [by intros [= <-]|].
  destruct (step_inv ids ev c Hev Hinv) as [Hg|(i & -> & ->)]; [|done].
  destruct (step ev c) as [c1| |] eqn:Es; [|done..]. cbn. intros Hr Hx. eapply IH; [exact Hg|exact Hr|exact (step_ballots ids ev c c1 x Hev Hinv Es Hx)].
Qed.

(** Later leaders' logs and commitments extend earlier ones. *)
Definition extends (ids : list bytes) (T : leaders) (A : acks) (T' : leaders) (A' : acks) : Prop :=
  grows T T' ∧ ∀ t k, committed ids T A t k → committed ids T' A' t k.

Lemma extends_refl ids T A : extends ids T A T A.
Proof. split; [apply grows_refl|done]. Qed.

Lemma extends_trans ids T A T' A' T'' A'' :
  extends ids T A T' A' → extends ids T' A' T'' A'' → extends ids T A T'' A''.
Proof.
  intros [Hg Hc] [Hg' Hc']. split; [|auto]. intros t o l HT. destruct (Hg _ _ _ HT) as (l1 & HT1 & Hp).
  destruct (Hg' _ _ _ HT1) as (l2 & HT2 & Hp2). exists l2. split; [done|]. by etrans.
Qed.

(** Everything known about a reachable state. *)
Record reach (ids : list bytes) (T : leaders) (A : acks) (c : Cluster) : Prop := {
  r_inv : inv ids (nodes c) (net c);
  r_vinv : vinv ids (nodes c) (net c) (ballots c);
  r_linv : linv ids T c;
  r_ainv : ainv ids T A c
}.

Lemma step_reach ids ev T A c c' :
  NoDup ids → snapshots ev = false → reach ids T A c → step ev c = Ret c' → one_vote (ballots c') →
  (lost ev c c' ∧ reach ids T A c') ∨
  ∃ i n n' bl ak ap, stepped ev c c' i n n' bl ak ap ∧ reach ids (lead i n' T) (acknowledge i ak A) c' ∧
    extends ids T A (lead i n' T) (acknowledge i ak A).
Proof.
  intros Hids Hsn [Hinv Hv HL HA] Hs Hone. pose proof (step_vinv ids Hids c Hinv Hv ev c' Hsn Hs) as Hv'.
  pose proof (run_inv ids [ev] c c' ltac:(by repeat constructor) Hinv ltac:(cbn; by rewrite Hs)) as Hinv'.
  destruct (step_stepped ids c Hinv ev c' Hsn Hs) as [Hl|(i & n & n' & bl & ak & ap & Hst)]; [left|right].
  - split; [done|]. split; [done|done|by eapply lost_linv|by eapply lost_ainv].
  - exists i, n, n', bl, ak, ap. split; [done|]. split.
    + split; [done|done|by eapply stepped_linv|]. eapply stepped_ainv; try done. apply Hinv'.
    + split; [by eapply lead_grows|]. intros t k. by eapply committed_mono.
Qed.

Lemma run_reach_from ids evs T A c c' :
  NoDup ids → no_snapshots evs → reach ids T A c → run evs c = Ret c' → one_vote (ballots c') →
  ∃ T' A', reach ids T' A' c' ∧ extends ids T A T' A'.
Proof.
  intros Hids Hsn. revert T A c. induction Hsn as [|ev evs Hev Hsn IH]; intros T A c Hr; cbn [run].
  { intros [= <-] _. exists T, A. split; [done|apply extends_refl]. }
  destruct (step_inv ids ev c Hev (r_inv _ _ _ _ Hr)) as [Hg|(i & -> & ->)]; [|done].
  destruct (step ev c) as [c1| |] eqn:Es; [|done..]. cbn. intros Hrun Hone.
  assert (Hone1 : one_vote (ballots c1)).
  { intros v t a b Ha Hb. eapply Hone; (eapply run_ballots; [exact Hsn|exact Hg|done..]). }
  destruct (step_reach ids ev T A c c1 Hids Hev Hr Es Hone1) as [[_ Hr1]|(i & n & n' & bl & ak & ap & _ & Hr1 & He1)].
  - by eapply IH.
  - destruct (IH _ _ c1 Hr1 Hrun Hone) as (T2 & A2 & Hr2 & He2). exists T2, A2. split; [done|]. by eapply extends_trans.
Qed.

Lemma init_reach ids : NoDup ids → reach ids ∅ [] (init ids).
Proof. intros Hids. split; [by apply init_inv|by apply init_vinv|apply init_linv|apply init_ainv]. Qed.

Lemma run_safe ids evs c :
  NoDup ids → no_snapshots evs → run evs (init ids) = Ret c → one_vote (ballots c) → ∃ T A, reach ids T A c.
Proof.
  intros Hids Hsn Hr Hone. destruct (run_reach_from ids evs _ _ _ _ Hids Hsn (init_reach ids Hids) Hr Hone) as (T & A & H & _). eauto.
Qed.

(** The entries committed in two terms are the same as far as both go. *)
Lemma committed_same ids T A c t t' k k' o l o' l' z :
  ainv ids T A c → committed ids T A t k → committed ids T A t' k' → T !! t = Some (o, l) → T !! t' = Some (o', l') →
  (z ≤ k)%nat → (z ≤ k')%nat → agree z l l'.
Proof.
  intros HA Hc Hc' HT HT' Hz Hz'. destruct (Z.le_ge_cases t t').
  - apply agree_sym. by apply (agree_le z k), (committed_agree ids T A c t t' k o l o' l').
  - by apply (agree_le z k'), (committed_agree ids T A c t' t k' o' l' o l).
Qed.


(** ** Example run *)

(** A wins term 1 with B's vote, commits an entry with B and tells B; then B
    wins term 2 with C's vote. *)
Definition ex_committed : list event :=
  ex_one_leader ++
  [EPropose A (Some (bs "x"));
   EDeliver 3 310;   (* the entry reaches B *)
   EDeliver 4 311;   (* B's acknowledgement reaches A *)
   EApply A;
   EHeartbeat A;
   EDeliver 4 320;   (* the heartbeat reaches B *)
   EApply B;
   EElection B 1000 300;
   EDeliver 7 1001;  (* B's request reaches C *)
   EDeliver 7 1002]. (* the vote reaches B *)

Definition log_of (c : Cluster) (i : bytes) : option (list LogEntry * Z) :=
  (λ n, (log n, commitIndex n)) <$> nodes c !! i.

Lemma ex_committed_run :
  ∃ c, run ex_committed (init [A; B; C]) = Ret c ∧
    (state_of c A = Some (Leader, 1) ∧ state_of c B = Some (Leader, 2)) ∧
    (log_of c A = Some ([sentinel; entry 1 (bs "x")], 1) ∧ log_of c B = Some ([sentinel; entry 1 (bs "x")], 1)) ∧
    ballots c = [(A, 1, A); (B, 1, A); (B, 2, B); (C, 2, B)] ∧
    applied c = [(A, mkApply 1 (bs "x")); (B, mkApply 1 (bs "x"))].
Proof.
  apply (run_check ex_committed (init [A; B; C]) (λ c,
    (state_of c A = Some (Leader, 1) ∧ state_of c B = Some (Leader, 2)) ∧
    (log_of c A = Some ([sentinel; entry 1 (bs "x")], 1) ∧ log_of c B = Some ([sentinel; entry 1 (bs "x")], 1)) ∧
    ballots c = [(A, 1, A); (B, 1, A); (B, 2, B); (C, 2, B)] ∧
    applied c = [(A, mkApply 1 (bs "x")); (B, mkApply 1 (bs "x"))])).
  vm_compute. reflexivity.
Qed.

Lemma ex_ids : NoDup [A; B; C].
Proof. apply (bool_decide_unpack _). vm_compute. exact I. Qed.

Lemma ex_no_snapshots : no_snapshots ex_committed.
Proof. by apply no_snapshots_check. Qed.

Lemma ex_one_vote : one_vote [(A, 1, A); (B, 1, A); (B, 2, B); (C, 2, B)].
Proof.
  intros v t a b Ha%list_elem_of_In Hb%list_elem_of_In. cbn in Ha, Hb.
  destruct Ha as [Ha|[Ha|[Ha|[Ha|[]]]]], Hb as [Hb|[Hb|[Hb|[Hb|[]]]]]; congruence.
Qed.

(** As long as no node has voted twice in a term or taken a snapshot, the apply
    loop never reads past the end of the log: no step at all panics. *)
Lemma apply_no_panic ids evs c ev :
  NoDup ids → no_snapshots evs → run evs (init ids) = Ret c → one_vote (ballots c) → step ev c ≠ Panic.
Proof.
  intros Hids Hsn Hr Hone Hp. destruct (run_safe ids evs c Hids Hsn Hr Hone) as (T & As & [Hinv _ HL HA]).
  destruct (snapshots ev) eqn:Es; [by apply (snapshot_step_total ev c)|].
  destruct (step_inv ids ev c Es Hinv) as [Hg|(i & -> & _)]; [by rewrite Hp in Hg|]. cbn [step] in Hp.
  destruct (nodes c !! i) as [n|] eqn:Hn; [|done]. cbn [enabled mbind outcome_bind] in Hp.
  destruct (_ <=? _) eqn:E; kv_bool; [done|]. cbn [fail_if outcome_bind] in Hp.
  destruct (proj1 (proj2 Hinv) i n Hn) as (_ & _ & _ & (_ & _ & Hne & _) & Hlen & _ & Hc0 & _).
  pose proof (settled_bound _ _ _ _ _ _ (ai_commit HA i n Hn) Hne Hc0) as Hb.
  pose proof (ai_la HA i n Hn) as Hla. unfold applyOne in Hp. rewrite u64_id in Hp by lia.
  destruct (log_at_is_Some (log n) (lastApplied n + 1)) as (e & He & _); [lia|]. rewrite He in Hp. done.
Qed.

(** ** Properties *)

(** C2: State machine safety, conditionally. As long as no node has given its
    vote in a term to two candidates and none has taken a snapshot, no two
    commands are ever applied at the same index, by whatever nodes, in whatever
    order messages arrive, get lost or nodes crash. *)
Theorem raft_state_machine_safety ids evs c i j a b :
  NoDup ids → no_snapshots evs → run evs (init ids) = Ret c → one_vote (ballots c) →
  (i, a) ∈ applied c → (j, b) ∈ applied c → CommandIndex a = CommandIndex b → ACommand a = ACommand b.
Proof.
  intros Hids Hsn Hr Hone Ha Hb Hidx. destruct (run_safe ids evs c Hids Hsn Hr Hone) as (T & As & [_ _ _ HA]).
  destruct (ai_applied HA _ _ Ha) as (_ & t & k & o & l & e & Hc & HT & Hk & He & Hce).
  destruct (ai_applied HA _ _ Hb) as (_ & t' & k' & o' & l' & e' & Hc' & HT' & Hk' & He' & Hce').
  rewrite <-Hidx in Hk', He'.
  pose proof (committed_same _ _ _ _ _ _ _ _ _ _ _ _ _ HA Hc Hc' HT HT' Hk Hk') as Hag.
  pose proof (agree_lookup _ _ _ _ Hag He). congruence.
Qed.

Lemma raft_state_machine_safety_witness :
  ∃ c a b, run ex_committed (init [A; B; C]) = Ret c ∧ applied c = [(A, a); (B, b)] ∧
    CommandIndex a = CommandIndex b ∧ ACommand a = ACommand b.
Proof.
  destruct ex_committed_run as (c & Hc & _ & _ & Hbl & Hap). eexists c, _, _. split; [exact Hc|]. split; [exact Hap|].
  split; [reflexivity|]. apply (raft_state_machine_safety [A; B; C] ex_committed c A B); [exact ex_ids|exact ex_no_snapshots|exact Hc|rewrite Hbl; exact ex_one_vote| | |reflexivity];
    rewrite Hap; apply list_elem_of_In; cbn; tauto.
Defined.

(** C5: Leader completeness, conditionally. As long as no node has voted
    twice in a term or taken a snapshot, whatever a node takes for committed is
    in its own log and in the log of every leader of the same or a later
    term. *)
Theorem raft_leader_completeness ids evs c i j n m :
  NoDup ids → no_snapshots evs → run evs (init ids) = Ret c → one_vote (ballots c) →
  nodes c !! i = Some n → nodes c !! j = Some m → role n = Leader → currentTerm m ≤ currentTerm n →
  commitIndex m < Zlen (log m) ∧
  take (S (Z.to_nat (commitIndex m))) (log n) = take (S (Z.to_nat (commitIndex m))) (log m).
Proof.
  intros Hids Hsn Hr Hone Hn Hm Hl Ht. destruct (run_safe ids evs c Hids Hsn Hr Hone) as (T & As & [Hinv _ HL HA]).
  pose proof (ai_commit HA j m Hm) as Hset. destruct (proj1 (proj2 Hinv) j m Hm) as (_ & _ & _ & (_ & _ & Hne & _) & _ & _ & Hc0 & _).
  split; [by eapply settled_bound|].
  enough (agree (Z.to_nat (commitIndex m)) (log n) (log m)) as Hag by (by apply agree_take; [apply Hag|]).
  destruct Hset as [Hz|(t0 & k0 & o0 & l0 & Ht0 & Hc & HT0 & Hk & Ha)].
  - rewrite Hz. destruct (li_node HL i n Hn) as [H1 _]. destruct (li_node HL j m Hm) as [H2 _].
    split; [by apply lookup_lt_Some in H1|]. intros x Hx. change (Z.to_nat 0) with 0%nat in Hx. assert (x = 0%nat) as -> by lia. congruence.
  - pose proof (li_leader HL i n Hn Hl) as HT.
    pose proof (committed_agree _ _ _ _ _ (currentTerm n) _ _ _ _ _ HA Hc ltac:(lia) HT0 HT) as Hag.
    eapply agree_trans; [eapply agree_le; [exact Hk|exact Hag]|]. by apply agree_sym.
Qed.

Lemma raft_leader_completeness_witness :
  ∃ c n m, run ex_committed (init [A; B; C]) = Ret c ∧ nodes c !! B = Some n ∧ nodes c !! A = Some m ∧
    currentTerm n = 2 ∧ commitIndex m = 1 ∧ take 2 (log n) = take 2 (log m).
Proof.
  destruct ex_committed_run as (c & Hc & [HA HB] & [LA LB] & Hbl & _). unfold state_of, log_of in *.
  destruct (nodes c !! A) as [m|] eqn:Em; [|discriminate]. destruct (nodes c !! B) as [n|] eqn:En; [|discriminate].
  injection HA as HrA HtA. injection HB as HrB HtB. injection LA as _ HcA. exists c, n, m.
  split; [exact Hc|]. split; [exact En|]. split; [exact Em|]. split; [exact HtB|]. split; [exact HcA|].
  change 2%nat with (S (Z.to_nat 1)). rewrite <-HcA.
  apply (raft_leader_completeness [A; B; C] ex_committed c B A n m); try assumption; [exact ex_ids|exact ex_no_snapshots|rewrite Hbl; exact ex_one_vote|lia].
Defined.

(** C17: No panics as long as no snapshot is taken. In every state that a
    cluster reaches without snapshots, whatever was lost, delayed, reordered or
    crashed before, no timeout, heartbeat, proposal, delivery, restart or first
    snapshot indexes a log out of range; and as long as no node has voted twice
    in a term, neither does the apply loop. *)
Theorem raft_no_panic ids evs c ev :
  NoDup ids → no_snapshots evs → run evs (init ids) = Ret c → (∀ i, ev = EApply i → one_vote (ballots c)) →
  step ev c ≠ Panic.
Proof.
  intros Hids Hsn Hr Hev.
  destruct ev as [i now tm|i|i command|k now|k|i|i|i upTo blob]; try (by eapply step_no_panic).
  eapply apply_no_panic; try done. by eapply Hev.
Qed.

(** A node is about to apply the entry it has committed, and a message is about
    to be delivered to a cluster with two leaders. *)
Definition ex_ready : list event := take (length ex_one_leader + 3) ex_committed.

Lemma raft_no_panic_witness :
  (∃ c, run ex_ready (init [A; B; C]) = Ret c ∧ log_of c A = Some ([sentinel; entry 1 (bs "x")], 1) ∧
     lastApplied <$> nodes c !! A = Some 0 ∧ step (EApply A) c ≠ Panic) ∧
  ∃ c, run ex_two_leaders (init [A; B; C]) = Ret c ∧ step (EDeliver 1 400) c ≠ Panic.
Proof.
  split.
  - destruct (run_check ex_ready (init [A; B; C]) (λ c, log_of c A = Some ([sentinel; entry 1 (bs "x")], 1) ∧
      lastApplied <$> nodes c !! A = Some 0 ∧ ballots c = [(A, 1, A); (B, 1, A)])) as (c & Hc & Hl & Ha & Hbl);
      [vm_compute; reflexivity|].
    exists c. split; [exact Hc|]. split; [exact Hl|]. split; [exact Ha|].
    apply (raft_no_panic [A; B; C] ex_ready c (EApply A) ex_ids); [by apply no_snapshots_check|exact Hc|].
    intros _ _. rewrite Hbl. intros v t x y Hx%list_elem_of_In Hy%list_elem_of_In. cbn in Hx, Hy.
    destruct Hx as [Hx|[Hx|[]]], Hy as [Hy|[Hy|[]]]; congruence.
  - destruct (run_check ex_two_leaders (init [A; B; C]) (λ _, True)) as (c & Hc & _); [vm_compute; reflexivity|].
    exists c. split; [exact Hc|]. apply (raft_no_panic [A; B; C] ex_two_leaders c); [exact ex_ids| |exact Hc|discriminate].
    apply no_snapshots_check. reflexivity.
Defined.

(** C15: Log matching, conditionally. As long as no node has voted twice in a
    term or taken a snapshot, two logs that hold entries of the same term at an
    index are equal up to and including it. *)
Theorem raft_log_matching ids evs c i j n m k e e' :
  NoDup ids → no_snapshots evs → run evs (init ids) = Ret c → one_vote (ballots c) →
  nodes c !! i = Some n → nodes c !! j = Some m → log n !! k = Some e → log m !! k = Some e' → Term e = Term e' →
  take (S k) (log n) = take (S k) (log m).
Proof.
  intros Hids Hsn Hr Hone Hn Hm He He' Ht. destruct (run_safe ids evs c Hids Hsn Hr Hone) as (T & As & [_ _ HL _]).
  apply agree_take; [by apply lookup_lt_Some in He|].
  by eapply (good_logs_match T); [eapply li_node, Hn|eapply li_node, Hm|..].
Qed.

Lemma raft_log_matching_witness :
  ∃ c n m, run ex_committed (init [A; B; C]) = Ret c ∧ nodes c !! A = Some n ∧ nodes c !! B = Some m ∧
    take 2 (log n) = take 2 (log m).
Proof.
  destruct ex_committed_run as (c & Hc & _ & [LA LB] & Hbl & _). unfold log_of in *.
  destruct (nodes c !! A) as [n|] eqn:En; [|discriminate]. destruct (nodes c !! B) as [m|] eqn:Em; [|discriminate].
  injection LA as LA _. injection LB as LB _. exists c, n, m. split; [exact Hc|]. split; [exact En|]. split; [exact Em|].
  apply (raft_log_matching [A; B; C] ex_committed c A B n m 1 (entry 1 (bs "x")) (entry 1 (bs "x"))); try assumption;
    [exact ex_ids|exact ex_no_snapshots|rewrite Hbl; exact ex_one_vote|rewrite LA; reflexivity|rewrite LB; reflexivity|reflexivity].
Defined.

(** A rejection is never at index 0, and the leader has no entry of the term
    that the follower reports behind the point of conflict: such an entry and
    the follower's come from the same leader. *)
Lemma rejected_conflict now args n r n' l T t t' :
  log_ok (log n) → ae_fits args → currentTerm n ≤ ae_Term args →
  HandleAppendEntries now args n = Some (r, n') → aer_Success r = false →
  good_log T t l → good_log T t' (log n) →
  Term <$> l !! Z.to_nat (ae_PrevLogIndex args) = Some (ae_PrevLogTerm args) →
  1 ≤ ae_PrevLogIndex args ∧
  ∀ j, ae_PrevLogIndex args < Z.of_nat j → aer_ConflictTerm r ≠ 0 → Term <$> l !! j ≠ Some (aer_ConflictTerm r).
Proof.
  intros Hln Hfit Hle HH Hs [Hl0 Hgl] [Hn0 Hgn] Hat. pose proof Hfit as [Hp0 _].
  destruct (HandleAppendEntries_cases now args n Hln Hfit Hle) as (r1 & n1 & HH1 & _ & _ & _ & _ & _ & Hcases).
  rewrite HH in HH1. injection HH1 as <- <-.
  destruct Hcases as [(Hlen & _ & _ & _ & _ & Hct)|[(u & Hu & Hne & _ & _ & _ & _ & Hct)|(_ & _ & _ & ?)]]; [..|congruence].
  { split; [unfold log_ok in Hln; lia|]. intros. done. }
  assert (Hpos : 1 ≤ ae_PrevLogIndex args).
  { destruct (decide (ae_PrevLogIndex args = 0)) as [Hz|]; [|lia]. rewrite Hz in Hu, Hat. change (Z.to_nat 0) with 0%nat in *.
    rewrite Hn0 in Hu. rewrite Hl0 in Hat. cbn in *. congruence. }
  split; [done|]. intros j Hj _ Hjt. rewrite Hct in Hjt. set (p := Z.to_nat (ae_PrevLogIndex args)) in *.
  destruct (l !! j) as [e|] eqn:Ee; [|done]. destruct (log n !! p) as [x|] eqn:Ex; [|done]. cbn in *.
  destruct (Hgl j e ltac:(lia) Ee) as (_ & o & l' & HT & [_ Ha]). destruct (Hgn p x ltac:(lia) Ex) as (_ & o' & l'' & HT' & [_ Ha']).
  injection Hjt as He. injection Hu as Hx. rewrite He in HT. rewrite Hx, HT in HT'. injection HT' as <- <-.
  rewrite (Ha p) in Hat by lia. rewrite (Ha' p) in Ex by lia. rewrite Ex in Hat. cbn in Hat. congruence.
Qed.

(** C35: Fast backup makes progress. Consider a state that a cluster reaches
    without snapshots and without a node voting twice in a term, in which a
    request of a leader's present term is under way to a node that is not in a
    later term. If the node rejects it, the leader, on the reply, does not
    panic and retries with a request that starts at a strictly smaller index.
    So after finitely many rejections the logs are found to agree. *)
Theorem raft_backup_progress ids evs c live i j args ldr n now r n' :
  NoDup ids → no_snapshots evs → run evs (init ids) = Ret c → one_vote (ballots c) →
  AppendReq live i j args ∈ net c → nodes c !! i = Some ldr → nodes c !! j = Some n →
  role ldr = Leader → ae_Term args = currentTerm ldr → currentTerm n ≤ ae_Term args →
  HandleAppendEntries now args n = Some (r, n') → aer_Success r = false →
  ∃ ldr' args', onAppendReply j args r ldr = Some (ldr', [CallAppend j args']) ∧
    log ldr' = log ldr ∧ 0 ≤ ae_PrevLogIndex args' < ae_PrevLogIndex args.
Proof.
  intros Hids Hsn Hr Hone Hin Hi Hj Hro Hterm Hle HH Hs.
  destruct (run_safe ids evs c Hids Hsn Hr Hone) as (T & As & [Hinv _ HL _]).
  destruct (li_req HL _ _ _ _ Hin) as (l & HT & Hcov). rewrite Hterm, (li_leader HL i ldr Hi Hro) in HT. injection HT as <-.
  destruct (proj2 (proj2 Hinv) _ Hin) as (ldr0 & Hi0 & Ha1 & Ha2 & _). cbn in Hi0. rewrite Hi in Hi0. injection Hi0 as <-.
  pose proof (node_inv_log ids i ldr (proj1 (proj2 Hinv) i ldr Hi)) as Hll.
  pose proof (node_inv_log ids j n (proj1 (proj2 Hinv) j n Hj)) as Hln.
  assert (Hfit : ae_fits args) by (split; lia). pose proof Hcov as (_ & Hat & _).
  pose proof (li_node HL i ldr Hi) as Hgl. pose proof (li_node HL j n Hj) as Hgn.
  destruct (rejected_conflict now args n r n' (log ldr) T (currentTerm ldr) (currentTerm n)) as [Hpos Hconf]; try done.
  apply (backup_progress now j args ldr n r n'); try done.
  split; [lia|]. destruct (log ldr !! _) as [e|] eqn:Ee; [|done]. apply lookup_lt_Some in Ee. unfold Zlen. lia.
Qed.

(** In the run above B's first request of term 2 to C is about an index that C
    has not got. *)
Definition ex_probe (c : Cluster) : option AppendEntriesArgs :=
  match net c !! 8%nat with
  | Some (AppendReq _ from to args) => if bool_decide (from = B) && bool_decide (to = C) then Some args else None
  | _ => None
  end.

Lemma ex_probe_in c args : ex_probe c = Some args → ∃ live, AppendReq live B C args ∈ net c.
Proof.
  unfold ex_probe. destruct (net c !! 8%nat) as [[]|] eqn:E; try done. destruct (bool_decide_reflect (from = B)) as [->|]; [|done].
  destruct (bool_decide_reflect (to = C)) as [->|]; [|done]. cbn. intros [= ->].
  eexists. by eapply list_elem_of_lookup_2.
Qed.

Definition ex_rejects (c : Cluster) : bool :=
  match ex_probe c, nodes c !! C with
  | Some args, Some n =>
      bool_decide (ae_Term args = 2) && bool_decide (currentTerm n = 2) &&
      match HandleAppendEntries 1100 args n with Some (r, _) => negb (aer_Success r) | None => false end
  | _, _ => false
  end.

Lemma ex_rejects_spec c : ex_rejects c = true → ∃ live args n r n', AppendReq live B C args ∈ net c ∧ nodes c !! C = Some n ∧
  ae_Term args = 2 ∧ currentTerm n = 2 ∧ HandleAppendEntries 1100 args n = Some (r, n') ∧ aer_Success r = false.
Proof.
  unfold ex_rejects. destruct (ex_probe c) as [args|] eqn:Ep; [|done]. destruct (nodes c !! C) as [n|]; [|done].
  destruct (HandleAppendEntries 1100 args n) as [[r n']|] eqn:EH; [|by rewrite andb_false_r].
  intros [[H1%bool_decide_eq_true H2%bool_decide_eq_true]%andb_true_iff H3%negb_true_iff]%andb_true_iff.
  destruct (ex_probe_in c args Ep) as [live Hin]. by exists live, args, n, r, n'.
Qed.

Lemma raft_backup_progress_witness :
  ∃ c args ldr r ldr' args', run ex_committed (init [A; B; C]) = Ret c ∧ nodes c !! B = Some ldr ∧ ae_Term args = 2 ∧
    aer_Success r = false ∧ onAppendReply C args r ldr = Some (ldr', [CallAppend C args']) ∧
    ae_PrevLogIndex args' < ae_PrevLogIndex args.
Proof.
  destruct (run_check ex_committed (init [A; B; C]) (λ c, state_of c B = Some (Leader, 2) ∧
    ballots c = [(A, 1, A); (B, 1, A); (B, 2, B); (C, 2, B)] ∧ ex_rejects c = true)) as (c & Hc & Hst & Hbl & Hrej);
    [vm_compute; reflexivity|].
  apply ex_rejects_spec in Hrej as (live & args & n & r & n' & Hin & Hn & Hta & Htn & HH & Hs).
  unfold state_of in Hst. destruct (nodes c !! B) as [ldr|] eqn:El; [|discriminate]. injection Hst as Hro Ht.
  destruct (raft_backup_progress [A; B; C] ex_committed c live B C args ldr n 1100 r n') as (ldr' & args' & H1 & _ & _ & H2);
    try assumption; [exact ex_ids|exact ex_no_snapshots|rewrite Hbl; exact ex_one_vote|lia..|].
  exists c, args, ldr, r, ldr', args'. split; [exact Hc|]. split; [exact El|]. split; [exact Hta|]. split; [exact Hs|]. split; [exact H1|exact H2].
Defined.
