(* ===== verification/RaftTransport.v ===== *)
(** * RaftTransport: internal/raft/transport.go and the wire format of
    tcp_transport.go

    The in-memory transport with its partition table, which hands RPCs to the
    registered nodes, and the length-prefixed envelope of the TCP transport. *)
From stdpp Require Import prelude gmap.
From Stdlib Require Import ZArith Lia Strings.Byte.
From S2P Require Import Prelude GoIO RaftNode.
Local Open Scope Z_scope.

(** ** MemTransport *)

Record MemTransport := mkMem {
  nodes : gmap bytes Node;
  partitions : gmap bytes (gmap bytes bool)
}.

Definition NewMemTransport : MemTransport := mkMem ∅ ∅.

Definition Register (i : bytes) (n : Node) (t : MemTransport) : MemTransport :=
  mkMem (<[i := n]> (nodes t)) (partitions t).
Definition Unregister (i : bytes) (t : MemTransport) : MemTransport :=
  mkMem (delete i (nodes t)) (partitions t).

Definition Partition (from to : bytes) (t : MemTransport) : MemTransport :=
  let m := default ∅ (partitions t !! from) in
  mkMem (nodes t) (<[from := <[to := true]> m]> (partitions t)).

Definition Heal (from to : bytes) (t : MemTransport) : MemTransport :=
  match partitions t !! from with
  | Some m => mkMem (nodes t) (<[from := delete to m]> (partitions t))
  | None => t
  end.

Definition HealAll (t : MemTransport) : MemTransport := mkMem (nodes t) ∅.

Definition isPartitioned (from to : bytes) (t : MemTransport) : bool :=
  match partitions t !! from with
  | Some m => default false (m !! to)
  | None => false
  end.

Definition getNode (i : bytes) (t : MemTransport) : option Node := nodes t !! i.

Inductive rpc_error := Partitioned | UnknownPeer.

(** The call runs the peer's handler; [Panic] is a panic in it. *)
Definition RequestVote (now : Z) (peer : bytes) (args : RequestVoteArgs) (t : MemTransport) :
    outcome rpc_error RequestVoteReply * MemTransport :=
  if isPartitioned (rv_CandidateId args) peer t then (Err Partitioned, t)
  else match getNode peer t with
  | None => (Err UnknownPeer, t)
  | Some node =>
      match HandleRequestVote now args node with
      | None => (Panic, t)
      | Some (r, node) => (Ret r, Register peer node t)
      end
  end.

Definition AppendEntries (now : Z) (peer : bytes) (args : AppendEntriesArgs) (t : MemTransport) :
    outcome rpc_error AppendEntriesReply * MemTransport :=
  if isPartitioned (ae_LeaderId args) peer t then (Err Partitioned, t)
  else match getNode peer t with
  | None => (Err UnknownPeer, t)
  | Some node =>
      match HandleAppendEntries now args node with
      | None => (Panic, t)
      | Some (r, node) => (Ret r, Register peer node t)
      end
  end.

(** Histories of changes to the transport. *)
Inductive top :=
| TRegister (i : bytes) (n : Node) | TUnregister (i : bytes)
| TPartition (from to : bytes) | THeal (from to : bytes) | THealAll
| TVote (now : Z) (peer : bytes) (args : RequestVoteArgs)
| TAppend (now : Z) (peer : bytes) (args : AppendEntriesArgs).

Definition texec (t : MemTransport) (op : top) : MemTransport :=
  match op with
  | TRegister i n => Register i n t
  | TUnregister i => Unregister i t
  | TPartition from to => Partition from to t
  | THeal from to => Heal from to t
  | THealAll => HealAll t
  | TVote now peer args => (RequestVote now peer args t).2
  | TAppend now peer args => (AppendEntries now peer args t).2
  end.

(** Whether a link is cut: the last operation on it decides. *)
Definition cut_by (from to : bytes) (cut : bool) (op : top) : bool :=
  match op with
  | TPartition a b => if bool_decide (a = from ∧ b = to) then true else cut
  | THeal a b => if bool_decide (a = from ∧ b = to) then false else cut
  | THealAll => false
  | _ => cut
  end.
Definition cut (from to : bytes) (ops : list top) : bool := foldl (cut_by from to) false ops.

(** ** The envelope of the TCP transport *)

Definition rpcRequestVote : Byte.byte := Byte.x01.
Definition rpcAppendEntries : Byte.byte := Byte.x02.

Record rpcEnvelope := mkEnv { EType : Byte.byte; Payload : bytes }.

Definition envelope_header (env : rpcEnvelope) : bytes := [EType env] ++ put_le 4 (u32 (Zlen (Payload env))).

(** [true] is an error. *)
Definition writeEnvelope (env : rpcEnvelope) (w : Writer) (f : File) : bool * Writer * File :=
  let '(err, w, f) := bufio_Write (envelope_header env) w f in
  if err then (true, w, f) else bufio_Write (Payload env) w f.

Inductive envelope_error := EnvIO (e : io_error) | PayloadTooLarge (length : Z).

Definition maxPayload : Z := Z.shiftl 32 20.

Definition readEnvelope (r : Stream) : outcome envelope_error rpcEnvelope * Stream :=
  let '(hdr, r) := ReadFull 5 r in
  match hdr with
  | Panic => (Panic, r)
  | Err e => (Err (EnvIO e), r)
  | Ret hdr =>
      let length := get_le (drop 1 hdr) in
      if maxPayload <? length then (Err (PayloadTooLarge length), r)
      else
        let '(payload, r) := ReadFull length r in
        match payload with
        | Panic => (Panic, r)
        | Err e => (Err (EnvIO e), r)
        | Ret payload =>
            match hdr with
            | [] => (Panic, r)
            | b :: _ => (Ret (mkEnv b payload), r)
            end
        end
  end.

(** ** Lemmas *)

Lemma texec_cut from to t op : isPartitioned from to (texec t op) = cut_by from to (isPartitioned from to t) op.
Proof.
  destruct op as [i n|i|a b|a b| |now peer args|now peer args]; cbn [texec cut_by]; try done.
  - unfold isPartitioned, Partition. cbn [partitions]. destruct (decide (a = from)) as [->|Ha].
    + rewrite lookup_insert_eq. destruct (decide (b = to)) as [->|Hb].
      * rewrite lookup_insert_eq, bool_decide_eq_true_2 by done. done.
      * rewrite lookup_insert_ne, bool_decide_eq_false_2 by (done || by intros [??]). by destruct (partitions t !! from).
    + by rewrite lookup_insert_ne, bool_decide_eq_false_2 by (done || by intros [??]).
  - unfold isPartitioned, Heal. destruct (decide (a = from)) as [->|Ha].
    + destruct (partitions t !! from) as [m|] eqn:Em.
      * cbn [partitions]. rewrite lookup_insert_eq. destruct (decide (b = to)) as [->|Hb].
        -- rewrite lookup_delete_eq, bool_decide_eq_true_2 by done. done.
        -- by rewrite lookup_delete_ne, bool_decide_eq_false_2 by (done || by intros [??]).
      * rewrite Em. by destruct (bool_decide _).
    + rewrite bool_decide_eq_false_2 by (done || by intros [??]). destruct (partitions t !! a); [|done].
      cbn [partitions]. by rewrite lookup_insert_ne.
  - unfold RequestVote. destruct (isPartitioned _ peer t); [done|]. destruct (getNode peer t); [|done].
    by destruct (HandleRequestVote _ _ _) as [[??]|].
  - unfold AppendEntries. destruct (isPartitioned _ peer t); [done|]. destruct (getNode peer t); [|done].
    by destruct (HandleAppendEntries _ _ _) as [[??]|].
Qed.

(** *** The envelope *)

Definition envelope_bytes (env : rpcEnvelope) : bytes := envelope_header env ++ Payload env.

(** A writer that does not fail passes the envelope on. *)
Lemma writeEnvelope_content env w f :
  fault_free f → wb_err w = false → writer_wf w →
  ∃ w' f', writeEnvelope env w f = (false, w', f') ∧ fault_free f' ∧ wb_err w' = false ∧ writer_wf w' ∧
    f_content f' ++ wb_buf w' = (f_content f ++ wb_buf w) ++ envelope_bytes env.
Proof.
  intros Hf He Hw. unfold writeEnvelope.
  destruct (bufio_Write (envelope_header env) w f) as [[e1 w1] f1] eqn:E1.
  pose proof (bufio_Write_fault_free _ _ _ _ _ _ E1 Hf He) as (-> & He1 & Hf1).
  apply bufio_Write_spec in E1 as (_ & _ & Hw1 & _ & Hb1); [|done].
  destruct (bufio_Write (Payload env) w1 f1) as [[e2 w2] f2] eqn:E2.
  pose proof (bufio_Write_fault_free _ _ _ _ _ _ E2 Hf1 He1) as (-> & He2 & Hf2).
  apply bufio_Write_spec in E2 as (_ & _ & Hw2 & _ & Hb2); [|done].
  exists w2, f2. repeat (split; [done|]). rewrite Hb2, app_assoc, Hb1. unfold envelope_bytes. by rewrite <-!app_assoc.
Qed.

(** The reader takes the envelope and no more, or refuses its length. *)
Lemma readEnvelope_bytes env rest e :
  Zlen (Payload env) < 2 ^ 32 →
  ∃ r, readEnvelope (mkStream (envelope_bytes env ++ rest) e) =
    (if Zlen (Payload env) <=? maxPayload then Ret env else Err (PayloadTooLarge (Zlen (Payload env))), r) ∧
    (Zlen (Payload env) ≤ maxPayload → r = mkStream rest e).
Proof.
  intros Hlen. pose proof (Zlen_nonneg (Payload env)). unfold readEnvelope, envelope_bytes. rewrite <-app_assoc.
  rewrite (ReadFull_app' 5 (envelope_header env)).
  2: { unfold envelope_header. rewrite Zlen_app, Zlen_put_le. done. }
  assert (Hgl : get_le (drop 1 (envelope_header env)) = Zlen (Payload env)).
  { change (drop 1 (envelope_header env)) with (put_le 4 (u32 (Zlen (Payload env)))). rewrite get_put_u32, !u32_id; try done; rewrite ?u32_id; lia. }
  rewrite Hgl. destruct (Zlen (Payload env) <=? maxPayload) eqn:El; kv_bool.
  - replace (maxPayload <? Zlen (Payload env)) with false by lia. rewrite ReadFull_app. cbn [envelope_header app].
    eexists. split; [by destruct env|done].
  - replace (maxPayload <? Zlen (Payload env)) with true by lia. eexists. split; [done|lia].
Qed.

(** ** Properties *)

(** Partitions. After any history of the in-memory transport, a vote
    request from a candidate is refused exactly when the last operation on the
    link cut it; otherwise it runs the peer's handler on the peer's node and
    changes no other node. *)
Theorem transport_partition ops now peer args :
  let t := foldl texec NewMemTransport ops in
  (RequestVote now peer args t).1 =
    (if cut (rv_CandidateId args) peer ops then Err Partitioned
     else match nodes t !! peer with
          | None => Err UnknownPeer
          | Some n => match HandleRequestVote now args n with Some (r, _) => Ret r | None => Panic end
          end) ∧
  ∀ j, j ≠ peer → nodes (RequestVote now peer args t).2 !! j = nodes t !! j.
Proof.
  intros t.
  assert (Hcut : ∀ ops t0, isPartitioned (rv_CandidateId args) peer (foldl texec t0 ops) =
    foldl (cut_by (rv_CandidateId args) peer) (isPartitioned (rv_CandidateId args) peer t0) ops).
  { intros l. induction l as [|op l IH]; intros t0; [done|]. cbn [foldl]. by rewrite IH, texec_cut. }
  unfold RequestVote, getNode. fold t. rewrite (Hcut ops NewMemTransport : isPartitioned _ peer t = cut _ peer ops).
  destruct (cut _ peer ops); [done|]. destruct (nodes t !! peer) as [n|]; [|done].
  destruct (HandleRequestVote now args n) as [[r n']|]; [|done]. split; [done|]. intros j Hj. cbn.
  by rewrite lookup_insert_ne.
Qed.

(** The envelope. Writing an envelope to a connection that does not fail
    and reading the bytes back yields the envelope and leaves the following
    bytes, if its payload is at most 32 MiB; a larger payload is sent but
    refused by the reader. *)
Theorem envelope_roundtrip env w f err w' f' rest e :
  Zlen (Payload env) < 2 ^ 32 → fault_free f → wb_err w = false → writer_wf w →
  writeEnvelope env w f = (err, w', f') →
  err = false ∧ ∃ b, f_content f' ++ wb_buf w' = (f_content f ++ wb_buf w) ++ b ∧
  ∃ r, readEnvelope (mkStream (b ++ rest) e) =
    (if Zlen (Payload env) <=? maxPayload then Ret env else Err (PayloadTooLarge (Zlen (Payload env))), r) ∧
    (Zlen (Payload env) ≤ maxPayload → r = mkStream rest e).
Proof.
  intros Hlen Hf He Hw H. destruct (writeEnvelope_content env w f Hf He Hw) as (w2 & f2 & H2 & _ & _ & _ & Hb).
  rewrite H2 in H. injection H as <- <- <-. split; [done|]. exists (envelope_bytes env). split; [done|].
  by apply readEnvelope_bytes.
Qed.

Lemma envelope_roundtrip_witness :
  ∃ w' f', writeEnvelope (mkEnv rpcRequestVote (bs "{}")) NewWriter (mkFile [] 0 [] false) = (false, w', f') ∧
    ∃ b, f_content f' ++ wb_buf w' = ([] ++ []) ++ b ∧
    ∃ r, readEnvelope (mkStream (b ++ bs "more") EOF) = (Ret (mkEnv rpcRequestVote (bs "{}")), r) ∧
      (Zlen (bs "{}") ≤ maxPayload → r = mkStream (bs "more") EOF).
Proof.
  destruct (writeEnvelope (mkEnv rpcRequestVote (bs "{}")) NewWriter (mkFile [] 0 [] false)) as [[err w'] f'] eqn:Ew.
  assert (Hw : writer_wf NewWriter) by apply Nat.le_0_l.
  destruct (envelope_roundtrip (mkEnv rpcRequestVote (bs "{}")) NewWriter (mkFile [] 0 [] false) err w' f' (bs "more") EOF
    eq_refl (conj eq_refl eq_refl) eq_refl Hw Ew) as (-> & H).
  exists w', f'. split; [reflexivity|exact H].
Defined.
