(* ===== verification/SimTransport.v ===== *)
(** * SimTransport: internal/raft/sim_transport.go

    The transport of the fault-injection tests: every RPC draws a number from
    a seeded generator and is dropped if the number is below the drop rate of
    its link; every RPC is recorded. The generator belongs to math/rand; it is
    a function of the seed and the number of draws so far. A rate is a
    float64: a rational, an infinity or not a number. *)
From stdpp Require Import prelude gmap.
From Stdlib Require Import ZArith QArith Lia Lqa Strings.Byte.
From S2P Require Import Prelude RaftNode RaftTransport.
Local Open Scope Z_scope.

(** ** float64 *)

Inductive float64 := Fin (q : Q) | PosInf | NegInf | NaN.

(** [x < r] for a finite [x]. *)
Definition below (x : Q) (r : float64) : bool :=
  match r with Fin q => negb (Qle_bool q x) | PosInf => true | NegInf | NaN => false end.

(** ** The transport *)

Record SimEvent := mkEvent { From : bytes; To : bytes; EvType : bytes; Dropped : bool }.

Record SimTransport := mkSim {
  draws : nat;                                 (* the state of the generator *)
  seed : Z;
  simNodes : gmap bytes Node;
  dropRate : gmap bytes (gmap bytes float64);
  history : list SimEvent
}.

Definition NewSimTransport (sd : Z) : SimTransport := mkSim 0 sd ∅ ∅ [].

Definition SimRegister (i : bytes) (n : Node) (t : SimTransport) : SimTransport :=
  mkSim (draws t) (seed t) (<[i := n]> (simNodes t)) (dropRate t) (history t).

Definition SetDropRate (from to : bytes) (rate : float64) (t : SimTransport) : SimTransport :=
  let m := default ∅ (dropRate t !! from) in
  mkSim (draws t) (seed t) (simNodes t) (<[from := <[to := rate]> m]> (dropRate t)) (history t).

Definition SetBidirectionalDropRate (a b : bytes) (rate : float64) (t : SimTransport) : SimTransport :=
  SetDropRate b a rate (SetDropRate a b rate t).

Definition SimPartition (from to : bytes) : SimTransport → SimTransport := SetDropRate from to (Fin 1).
Definition SimHeal (from to : bytes) : SimTransport → SimTransport := SetDropRate from to (Fin 0).
Definition SimHealAll (t : SimTransport) : SimTransport :=
  mkSim (draws t) (seed t) (simNodes t) ∅ (history t).

Definition History (t : SimTransport) : list SimEvent := history t.
Definition Seed (t : SimTransport) : Z := seed t.

(** A link without an entry has rate 0. *)
Definition rate_of (from to : bytes) (t : SimTransport) : float64 :=
  match dropRate t !! from with
  | Some m => default (Fin 0) (m !! to)
  | None => Fin 0
  end.

Definition record (from to typ : bytes) (dropped : bool) (t : SimTransport) : SimTransport :=
  mkSim (draws t) (seed t) (simNodes t) (dropRate t) (history t ++ [mkEvent from to typ dropped]).

Definition simGetNode (i : bytes) (t : SimTransport) : option Node := simNodes t !! i.

Inductive sim_error := SimDropped | SimUnknownPeer.

Section sim.
(** [rand.New(rand.NewSource(seed))]: draw number [k] of [Float64]. *)
Context (Float64 : Z → nat → Q).

Definition shouldDrop (from to : bytes) (t : SimTransport) : bool * SimTransport :=
  (below (Float64 (seed t) (draws t)) (rate_of from to t),
   mkSim (S (draws t)) (seed t) (simNodes t) (dropRate t) (history t)).

Definition SimRequestVote (now : Z) (peer : bytes) (args : RequestVoteArgs) (t : SimTransport) :
    outcome sim_error RequestVoteReply * SimTransport :=
  let '(dropped, t) := shouldDrop (rv_CandidateId args) peer t in
  let t := record (rv_CandidateId args) peer (bs "RequestVote") dropped t in
  if dropped : bool then (Err SimDropped, t)
  else match simGetNode peer t with
  | None => (Err SimUnknownPeer, t)
  | Some node =>
      match HandleRequestVote now args node with
      | None => (Panic, t)
      | Some (r, node) => (Ret r, SimRegister peer node t)
      end
  end.

Definition SimAppendEntries (now : Z) (peer : bytes) (args : AppendEntriesArgs) (t : SimTransport) :
    outcome sim_error AppendEntriesReply * SimTransport :=
  let '(dropped, t) := shouldDrop (ae_LeaderId args) peer t in
  let t := record (ae_LeaderId args) peer (bs "AppendEntries") dropped t in
  if dropped : bool then (Err SimDropped, t)
  else match simGetNode peer t with
  | None => (Err SimUnknownPeer, t)
  | Some node =>
      match HandleAppendEntries now args node with
      | None => (Panic, t)
      | Some (r, node) => (Ret r, SimRegister peer node t)
      end
  end.

(** ** Histories *)

Inductive simop :=
| SRegister (i : bytes) (n : Node)
| SRate (from to : bytes) (rate : float64)
| SRate2 (a b : bytes) (rate : float64)
| SPartition (from to : bytes) | SHeal (from to : bytes) | SHealAll
| SVote (now : Z) (peer : bytes) (args : RequestVoteArgs)
| SAppend (now : Z) (peer : bytes) (args : AppendEntriesArgs).

(** What a caller sees of an operation. *)
Inductive simres :=
| RNone
| RVote (r : outcome sim_error RequestVoteReply)
| RAppend (r : outcome sim_error AppendEntriesReply).

Definition simexec (op : simop) (t : SimTransport) : simres * SimTransport :=
  match op with
  | SRegister i n => (RNone, SimRegister i n t)
  | SRate from to rate => (RNone, SetDropRate from to rate t)
  | SRate2 a b rate => (RNone, SetBidirectionalDropRate a b rate t)
  | SPartition from to => (RNone, SimPartition from to t)
  | SHeal from to => (RNone, SimHeal from to t)
  | SHealAll => (RNone, SimHealAll t)
  | SVote now peer args => let '(r, t) := SimRequestVote now peer args t in (RVote r, t)
  | SAppend now peer args => let '(r, t) := SimAppendEntries now peer args t in (RAppend r, t)
  end.

Fixpoint simrun (ops : list simop) (t : SimTransport) : list simres * SimTransport :=
  match ops with
  | [] => ([], t)
  | op :: ops =>
      let '(r, t) := simexec op t in
      let '(rs, t) := simrun ops t in (r :: rs, t)
  end.

End sim.

(** ** The in-memory transport, seen through the same operations *)

Definition rename {A} (r : outcome rpc_error A) : outcome sim_error A :=
  match r with
  | Ret a => Ret a
  | Err Partitioned => Err SimDropped
  | Err UnknownPeer => Err SimUnknownPeer
  | Panic => Panic
  end.

Definition memexec (op : simop) (m : MemTransport) : simres * MemTransport :=
  match op with
  | SRegister i n => (RNone, Register i n m)
  | SPartition from to => (RNone, Partition from to m)
  | SHeal from to => (RNone, Heal from to m)
  | SHealAll => (RNone, HealAll m)
  | SVote now peer args => let '(r, m) := RequestVote now peer args m in (RVote (rename r), m)
  | SAppend now peer args => let '(r, m) := AppendEntries now peer args m in (RAppend (rename r), m)
  | SRate _ _ _ | SRate2 _ _ _ => (RNone, m)
  end.

Fixpoint memrun (ops : list simop) (m : MemTransport) : list simres * MemTransport :=
  match ops with
  | [] => ([], m)
  | op :: ops =>
      let '(r, m) := memexec op m in
      let '(rs, m) := memrun ops m in (r :: rs, m)
  end.

(** Links are cut and healed, and no rate in between is set. *)
Definition cut_op (op : simop) : Prop :=
  match op with SRate _ _ _ | SRate2 _ _ _ => False | _ => True end.

(** The event an RPC leaves behind, given what its caller saw. *)
Definition was_dropped {A} (r : outcome sim_error A) : bool :=
  match r with Err SimDropped => true | _ => false end.

Definition event_of (op : simop) (r : simres) : list SimEvent :=
  match op, r with
  | SVote _ peer args, RVote r => [mkEvent (rv_CandidateId args) peer (bs "RequestVote") (was_dropped r)]
  | SAppend _ peer args, RAppend r => [mkEvent (ae_LeaderId args) peer (bs "AppendEntries") (was_dropped r)]
  | _, _ => []
  end.

Definition events_of (ops : list simop) (rs : list simres) : list SimEvent :=
  concat (zip_with event_of ops rs).

(** ** Lemmas *)

Lemma rate_of_set from to rate a b t :
  rate_of a b (SetDropRate from to rate t) = if bool_decide (from = a ∧ to = b) then rate else rate_of a b t.
Proof.
  unfold rate_of, SetDropRate. cbn [dropRate]. destruct (decide (from = a)) as [->|Ha].
  - rewrite lookup_insert_eq. destruct (decide (to = b)) as [->|Hb].
    + by rewrite lookup_insert_eq, bool_decide_eq_true_2.
    + rewrite lookup_insert_ne, bool_decide_eq_false_2 by (done || by intros [??]). by destruct (dropRate t !! a).
  - by rewrite lookup_insert_ne, bool_decide_eq_false_2 by (done || by intros [??]).
Qed.

(** Rate 1 drops every draw, rate 0 none. *)
Lemma below_one x : (0 <= x < 1)%Q → below x (Fin 1) = true ∧ below x (Fin 0) = false.
Proof.
  intros [H0 H1]. cbn. destruct (Qle_bool 1 x) eqn:E1; [apply Qle_bool_iff in E1; lra|].
  destruct (Qle_bool 0 x) eqn:E0; [done|]. apply Qle_bool_iff in H0. congruence.
Qed.

Record sim_mem (t : SimTransport) (m : MemTransport) : Prop := {
  sm_nodes : simNodes t = nodes m;
  sm_rates from to : rate_of from to t = if isPartitioned from to m then Fin 1 else Fin 0
}.

Section refinement.
Context (Float64 : Z → nat → Q) (Hf : ∀ s k, (0 <= Float64 s k < 1)%Q).

Lemma shouldDrop_mem from to t m :
  sim_mem t m → (shouldDrop Float64 from to t).1 = isPartitioned from to m ∧ sim_mem (shouldDrop Float64 from to t).2 m.
Proof.
  intros [Hn Hr]. split; [|by split]. unfold shouldDrop. cbn [fst]. rewrite Hr.
  destruct (below_one _ (Hf (seed t) (draws t))) as [H1 H0]. by destruct (isPartitioned from to m).
Qed.

Lemma sim_mem_step op t m :
  cut_op op → sim_mem t m →
  (simexec Float64 op t).1 = (memexec op m).1 ∧ sim_mem (simexec Float64 op t).2 (memexec op m).2.
Proof.
  intros Hc Hs. pose proof Hs as [Hn Hr].
  destruct op as [i n|a b rate|a b rate|a b|a b| |now peer args|now peer args]; cbn [simexec memexec fst snd] in *; try done.
  - split; [done|]. split; [cbn; by rewrite Hn|done].
  - split; [done|]. split; [done|]. intros f g. pose proof (texec_cut f g m (TPartition a b)) as Ht. cbn [texec cut_by] in Ht.
    unfold SimPartition. rewrite rate_of_set, Hr, Ht. by destruct (bool_decide _).
  - split; [done|]. split; [unfold Heal; by destruct (partitions m !! a)|]. intros f g.
    pose proof (texec_cut f g m (THeal a b)) as Ht. cbn [texec cut_by] in Ht.
    unfold SimHeal. rewrite rate_of_set, Hr, Ht. by destruct (bool_decide _).
  - unfold SimRequestVote, RequestVote. destruct (shouldDrop_mem (rv_CandidateId args) peer t m Hs) as [H1 [Hn2 Hr2]].
    destruct (shouldDrop Float64 _ _ t) as [dr t']. cbn [fst snd] in *. subst dr.
    destruct (isPartitioned _ peer m); [by split|]. unfold simGetNode, getNode. cbn [record simNodes]. rewrite Hn2.
    destruct (nodes m !! peer) as [node|]; [|by split]. destruct (HandleRequestVote now args node) as [[r n']|]; [|by split].
    split; [done|]. split; [cbn; by rewrite Hn2|exact Hr2].
  - unfold SimAppendEntries, AppendEntries. destruct (shouldDrop_mem (ae_LeaderId args) peer t m Hs) as [H1 [Hn2 Hr2]].
    destruct (shouldDrop Float64 _ _ t) as [dr t']. cbn [fst snd] in *. subst dr.
    destruct (isPartitioned _ peer m); [by split|]. unfold simGetNode, getNode. cbn [record simNodes]. rewrite Hn2.
    destruct (nodes m !! peer) as [node|]; [|by split]. destruct (HandleAppendEntries now args node) as [[r n']|]; [|by split].
    split; [done|]. split; [cbn; by rewrite Hn2|exact Hr2].
Qed.

Lemma simrun_mem ops t m :
  Forall cut_op ops → sim_mem t m →
  (simrun Float64 ops t).1 = (memrun ops m).1 ∧ sim_mem (simrun Float64 ops t).2 (memrun ops m).2.
Proof.
  intros Hc. revert t m. induction Hc as [|op ops Hop Hc IH]; intros t m Hs; [done|]. cbn [simrun memrun].
  destruct (sim_mem_step op t m Hop Hs) as [H1 H2]. destruct (simexec Float64 op t) as [r t'], (memexec op m) as [r' m'].
  cbn [fst snd] in *. subst r'. destruct (IH t' m' H2) as [H3 H4].
  destruct (simrun Float64 ops t') as [rs t''], (memrun ops m') as [rs' m'']. cbn [fst snd] in *. by subst rs'.
Qed.
End refinement.

Lemma simexec_event Float64 op t :
  let '(r, t') := simexec Float64 op t in
  history t' = history t ++ event_of op r ∧ draws t' = (draws t + length (event_of op r))%nat ∧ seed t' = seed t.
Proof.
  destruct op as [i n|a b rate|a b rate|a b|a b| |now peer args|now peer args]; cbn [simexec];
    try (by cbn; rewrite app_nil_r; split_and!; try lia).
  - unfold SimRequestVote, shouldDrop. cbn [record]. destruct (below _ _); [cbn; repeat split; lia|].
    unfold simGetNode. cbn [record simNodes].
    destruct (simNodes t !! peer) as [node|]; [|cbn; repeat split; lia].
    destruct (HandleRequestVote now args node) as [[r n']|]; cbn; repeat split; lia.
  - unfold SimAppendEntries, shouldDrop. cbn [record]. destruct (below _ _); [cbn; repeat split; lia|].
    unfold simGetNode. cbn [record simNodes].
    destruct (simNodes t !! peer) as [node|]; [|cbn; repeat split; lia].
    destruct (HandleAppendEntries now args node) as [[r n']|]; cbn; repeat split; lia.
Qed.

(** ** Properties *)

(** C28: As long as links are only cut and healed, the simulation transport is
    the in-memory transport: every RPC returns the same reply or the matching
    error, and the nodes end in the same states, whatever the seed. *)
Theorem sim_refines_mem Float64 sd ops :
  (∀ s k, (0 <= Float64 s k < 1)%Q) → Forall cut_op ops →
  (simrun Float64 ops (NewSimTransport sd)).1 = (memrun ops NewMemTransport).1 ∧
  simNodes (simrun Float64 ops (NewSimTransport sd)).2 = nodes (memrun ops NewMemTransport).2.
Proof.
  intros Hf Hc. assert (H0 : sim_mem (NewSimTransport sd) NewMemTransport).
  { split; [done|]. intros from to. unfold rate_of, isPartitioned. cbn. by rewrite !lookup_empty. }
  destruct (simrun_mem Float64 Hf ops _ _ Hc H0) as [H1 [H2 _]]. done.
Qed.

(** The record is exact. It holds one event for every RPC, in the order of
    the calls, marked as dropped exactly when the caller got the error for a
    dropped message, and one number was drawn for each. *)
Theorem sim_history_exact Float64 ops t :
  let '(rs, t') := simrun Float64 ops t in
  History t' = History t ++ events_of ops rs ∧ draws t' = (draws t + length (events_of ops rs))%nat ∧ Seed t' = Seed t.
Proof.
  revert t. induction ops as [|op ops IH]; intros t; cbn [simrun].
  { rewrite app_nil_r. split_and!; [done|cbn; lia|done]. }
  pose proof (simexec_event Float64 op t) as H. destruct (simexec Float64 op t) as [r t1]. specialize (IH t1).
  destruct (simrun Float64 ops t1) as [rs t2]. destruct H as (H1 & H2 & H3), IH as (H4 & H5 & H6).
  unfold History, Seed in *. unfold events_of in *. cbn [zip_with concat]. rewrite length_app, H4, H5, H6, H1, H2, H3.
  split_and!; [by rewrite app_assoc|lia|done].
Qed.

Definition ex_sim_node : Node := default (mkNode [] [] false false 0 0 0 [] [] 0 0 Follower [] 0 ∅ ∅ false ∅ None None [])
  (NewNode (bs "n1") [bs "n0"] false false None None false false []).
Definition ex_sim_vote : simop := SVote 7 (bs "n1") (mkRV 1 (bs "n0") 0 0).
Definition ex_sim_ops : list simop :=
  [SRegister (bs "n1") ex_sim_node; SPartition (bs "n0") (bs "n1"); ex_sim_vote; SHeal (bs "n0") (bs "n1"); ex_sim_vote].

Lemma sim_refines_mem_witness :
  (simrun (λ _ _, 1 # 2) ex_sim_ops (NewSimTransport 42)).1 =
    [RNone; RNone; RVote (Err SimDropped); RNone; RVote (Ret (mkRVReply 1 true))] ∧
  simNodes (simrun (λ _ _, 1 # 2) ex_sim_ops (NewSimTransport 42)).2 = nodes (memrun ex_sim_ops NewMemTransport).2.
Proof.
  destruct (sim_refines_mem (λ _ _, 1 # 2) 42 ex_sim_ops) as [H1 H2].
  - intros _ _. split; [discriminate|reflexivity].
  - repeat (apply List.Forall_cons; [exact I|]). apply List.Forall_nil.
  - split; [|exact H2]. rewrite H1. vm_compute. reflexivity.
Defined.

(** The draws are shared by all links, in the order in which the calls come:
    with the same seed and the same rates, two RPCs of two links that run in
    the other order are dropped differently. *)
Example sim_order_matters :
  let rng := λ (_ : Z) k, match k with O => 1 # 10 | _ => 9 # 10 end in
  let half := SimRegister (bs "n1") ex_sim_node (SetDropRate (bs "n0") (bs "n1") (Fin (1 # 2))
    (SetDropRate (bs "n0") (bs "n2") (Fin (1 # 2)) (NewSimTransport 42))) in
  let v1 := ex_sim_vote in let v2 := SVote 7 (bs "n2") (mkRV 1 (bs "n0") 0 0) in
  (simrun rng [v1; v2] half).1 = [RVote (Err SimDropped); RVote (Err SimUnknownPeer)] ∧
  (simrun rng [v2; v1] half).1 = [RVote (Err SimDropped); RVote (Ret (mkRVReply 1 true))].
Proof. vm_compute. done. Qed.
