(* ===== verification/RaftWire.v ===== *)
(** * RaftWire: the JSON of the Raft types

    The structs of internal/raft that are marshalled: log entries, the RPC
    arguments and replies, the state file and the snapshot file, each with its
    field names, and the conversions to the types of [RaftNode], where a slice
    is its elements. *)
From stdpp Require Import prelude gmap.
From Stdlib Require Import ZArith Lia Strings.Byte.
From S2P Require Import Prelude GoText GoUtf8 GoJson GoJsonTypes RaftNode.
Local Open Scope Z_scope.

(** ** Log entries *)

Record wEntry := mkWEntry { we_Term : Z; we_Command : goslice Byte.byte }.

Definition c_LogEntry : codec wEntry := c_struct (mkWEntry 0 SNil) [
  field_of (bs "Term") c_uint64 we_Term (λ x w, mkWEntry x (we_Command w));
  field_of (bs "Command") c_bytes we_Command (λ x w, mkWEntry (we_Term w) x)].

Definition entry_out (e : LogEntry) : wEntry := mkWEntry (Term e) (goslice_of (Command e)).
Definition entry_in (w : wEntry) : LogEntry := mkEntry (we_Term w) (to_option (we_Command w)).

(** ** RPCs *)

Definition c_RequestVoteArgs : codec RequestVoteArgs := c_struct (mkRV 0 [] 0 0) [
  field_of (bs "Term") c_uint64 rv_Term
    (λ x a, mkRV x (rv_CandidateId a) (rv_LastLogIndex a) (rv_LastLogTerm a));
  field_of (bs "CandidateId") c_string rv_CandidateId
    (λ x a, mkRV (rv_Term a) x (rv_LastLogIndex a) (rv_LastLogTerm a));
  field_of (bs "LastLogIndex") c_uint64 rv_LastLogIndex
    (λ x a, mkRV (rv_Term a) (rv_CandidateId a) x (rv_LastLogTerm a));
  field_of (bs "LastLogTerm") c_uint64 rv_LastLogTerm
    (λ x a, mkRV (rv_Term a) (rv_CandidateId a) (rv_LastLogIndex a) x)].

Definition c_RequestVoteReply : codec RequestVoteReply := c_struct (mkRVReply 0 false) [
  field_of (bs "Term") c_uint64 rvr_Term (λ x a, mkRVReply x (rvr_VoteGranted a));
  field_of (bs "VoteGranted") c_bool rvr_VoteGranted (λ x a, mkRVReply (rvr_Term a) x)].

Record wAppendArgs := mkWAE {
  wa_Term : Z; wa_LeaderId : bytes; wa_PrevLogIndex : Z; wa_PrevLogTerm : Z;
  wa_Entries : goslice wEntry; wa_LeaderCommit : Z }.

Definition c_AppendEntriesArgs : codec wAppendArgs := c_struct (mkWAE 0 [] 0 0 SNil 0) [
  field_of (bs "Term") c_uint64 wa_Term
    (λ x a, mkWAE x (wa_LeaderId a) (wa_PrevLogIndex a) (wa_PrevLogTerm a) (wa_Entries a) (wa_LeaderCommit a));
  field_of (bs "LeaderId") c_string wa_LeaderId
    (λ x a, mkWAE (wa_Term a) x (wa_PrevLogIndex a) (wa_PrevLogTerm a) (wa_Entries a) (wa_LeaderCommit a));
  field_of (bs "PrevLogIndex") c_uint64 wa_PrevLogIndex
    (λ x a, mkWAE (wa_Term a) (wa_LeaderId a) x (wa_PrevLogTerm a) (wa_Entries a) (wa_LeaderCommit a));
  field_of (bs "PrevLogTerm") c_uint64 wa_PrevLogTerm
    (λ x a, mkWAE (wa_Term a) (wa_LeaderId a) (wa_PrevLogIndex a) x (wa_Entries a) (wa_LeaderCommit a));
  field_of (bs "Entries") (c_slice c_LogEntry) wa_Entries
    (λ x a, mkWAE (wa_Term a) (wa_LeaderId a) (wa_PrevLogIndex a) (wa_PrevLogTerm a) x (wa_LeaderCommit a));
  field_of (bs "LeaderCommit") c_uint64 wa_LeaderCommit
    (λ x a, mkWAE (wa_Term a) (wa_LeaderId a) (wa_PrevLogIndex a) (wa_PrevLogTerm a) (wa_Entries a) x)].

(** Without new entries [sendAppendEntries] leaves the slice nil. *)
Definition append_out (a : AppendEntriesArgs) : wAppendArgs :=
  mkWAE (ae_Term a) (ae_LeaderId a) (ae_PrevLogIndex a) (ae_PrevLogTerm a)
    (match ae_Entries a with [] => SNil | l => SMake (entry_out <$> l) [] end) (ae_LeaderCommit a).
Definition append_in (w : wAppendArgs) : AppendEntriesArgs :=
  mkAE (wa_Term w) (wa_LeaderId w) (wa_PrevLogIndex w) (wa_PrevLogTerm w)
    (entry_in <$> elements (wa_Entries w)) (wa_LeaderCommit w).

Definition c_AppendEntriesReply : codec AppendEntriesReply := c_struct (mkAEReply 0 false 0 0) [
  field_of (bs "Term") c_uint64 aer_Term
    (λ x a, mkAEReply x (aer_Success a) (aer_ConflictIndex a) (aer_ConflictTerm a));
  field_of (bs "Success") c_bool aer_Success
    (λ x a, mkAEReply (aer_Term a) x (aer_ConflictIndex a) (aer_ConflictTerm a));
  field_of (bs "ConflictIndex") c_uint64 aer_ConflictIndex
    (λ x a, mkAEReply (aer_Term a) (aer_Success a) x (aer_ConflictTerm a));
  field_of (bs "ConflictTerm") c_uint64 aer_ConflictTerm
    (λ x a, mkAEReply (aer_Term a) (aer_Success a) (aer_ConflictIndex a) x)].

(** ** The state file and the snapshot file *)

Record wState := mkWState { ws_CurrentTerm : Z; ws_VotedFor : bytes; ws_Log : goslice wEntry }.

Definition c_persistentState : codec wState := c_struct (mkWState 0 [] SNil) [
  field_of (bs "current_term") c_uint64 ws_CurrentTerm (λ x w, mkWState x (ws_VotedFor w) (ws_Log w));
  field_of (bs "voted_for") c_string ws_VotedFor (λ x w, mkWState (ws_CurrentTerm w) x (ws_Log w));
  field_of (bs "log") (c_slice c_LogEntry) ws_Log (λ x w, mkWState (ws_CurrentTerm w) (ws_VotedFor w) x)].

Definition state_out (p : persistentState) : wState :=
  mkWState (CurrentTerm p) (VotedFor p) (SMake (entry_out <$> Log p) []).
Definition state_in (w : wState) : persistentState :=
  mkPS (ws_CurrentTerm w) (ws_VotedFor w) (entry_in <$> elements (ws_Log w)).

Record wSnapshot := mkWSnap { wn_Index : Z; wn_Term : Z; wn_Data : option bytes }.

Definition c_Snapshot : codec wSnapshot := c_struct (mkWSnap 0 0 None) [
  field_of (bs "last_included_index") c_uint64 wn_Index (λ x w, mkWSnap x (wn_Term w) (wn_Data w));
  field_of (bs "last_included_term") c_uint64 wn_Term (λ x w, mkWSnap (wn_Index w) x (wn_Data w));
  field_of (bs "data") c_raw wn_Data (λ x w, mkWSnap (wn_Index w) (wn_Term w) x)].

Definition snap_out (s : Snapshot) : wSnapshot := mkWSnap (LastIncludedIndex s) (LastIncludedTerm s) (Some (SnapData s)).
Definition snap_in (w : wSnapshot) : Snapshot := mkSnap (wn_Index w) (wn_Term w) (default [] (wn_Data w)).

(** ** Round trips *)

Definition u64_ok (n : Z) : Prop := 0 ≤ n < 2 ^ 64.
Definition name_ok (s : bytes) : Prop := ValidString s = true.

(** Discharge the fields with a basic type, in order. *)
Ltac fields_ok :=
  repeat (first [eapply field_chain_cons; [apply uint64_ok|lia|assumption|reflexivity|]
                |eapply field_chain_cons; [apply string_ok|lia|assumption|reflexivity|]
                |eapply field_chain_cons; [apply bool_ok|lia|exact I|reflexivity|]
                |eapply field_chain_cons; [apply bytes_ok|lia|assumption|reflexivity|]]).

Ltac struct_ok :=
  apply struct_chain; [by repeat (apply Forall_cons; split; [split; reflexivity|])|]; fields_ok.

Definition wentry_ok (w : wEntry) : Prop := u64_ok (we_Term w) ∧ ∃ o, we_Command w = goslice_of o.

Lemma entry_codec_ok : codec_ok c_LogEntry wentry_ok 1.
Proof. intros [t cmd] [Ht Hc]. struct_ok. reflexivity. Qed.

Lemma vote_args_ok :
  codec_ok c_RequestVoteArgs
    (λ a, u64_ok (rv_Term a) ∧ name_ok (rv_CandidateId a) ∧ u64_ok (rv_LastLogIndex a) ∧ u64_ok (rv_LastLogTerm a)) 1.
Proof. intros [t c i lt] (H1 & H2 & H3 & H4). struct_ok. reflexivity. Qed.

Lemma vote_reply_ok : codec_ok c_RequestVoteReply (λ a, u64_ok (rvr_Term a)) 1.
Proof. intros [t g] H. struct_ok. reflexivity. Qed.

Lemma append_reply_ok :
  codec_ok c_AppendEntriesReply
    (λ a, u64_ok (aer_Term a) ∧ u64_ok (aer_ConflictIndex a) ∧ u64_ok (aer_ConflictTerm a)) 1.
Proof. intros [t s ci ct] (H1 & H2 & H3). struct_ok. reflexivity. Qed.

Definition wentries_ok (s : goslice wEntry) : Prop := ∃ o, s = goslice_of o ∧ Forall wentry_ok (default [] o).

Lemma entries_codec_ok : codec_ok (c_slice c_LogEntry) wentries_ok 2.
Proof. apply slice_ok, entry_codec_ok. Qed.

Lemma append_args_ok :
  codec_ok c_AppendEntriesArgs
    (λ a, u64_ok (wa_Term a) ∧ name_ok (wa_LeaderId a) ∧ u64_ok (wa_PrevLogIndex a) ∧ u64_ok (wa_PrevLogTerm a) ∧
          wentries_ok (wa_Entries a) ∧ u64_ok (wa_LeaderCommit a)) 3.
Proof.
  intros [t l pi pt es lc] (H1 & H2 & H3 & H4 & H5 & H6). struct_ok.
  eapply field_chain_cons; [apply entries_codec_ok|lia|exact H5|reflexivity|]. fields_ok. reflexivity.
Qed.

Lemma state_codec_ok :
  codec_ok c_persistentState
    (λ w, u64_ok (ws_CurrentTerm w) ∧ name_ok (ws_VotedFor w) ∧ wentries_ok (ws_Log w)) 3.
Proof.
  intros [t v l] (H1 & H2 & H3). struct_ok.
  eapply field_chain_cons; [apply entries_codec_ok|lia|exact H3|reflexivity|]. reflexivity.
Qed.

(** The data of a snapshot is JSON of its own. *)
Lemma snapshot_codec_ok d :
  (d ≤ maxNestingDepth)%nat →
  codec_ok c_Snapshot
    (λ w, u64_ok (wn_Index w) ∧ u64_ok (wn_Term w) ∧ ∃ j, wn_Data w = Some (jraw j) ∧ wf d j ∧ compact j = j) (S d).
Proof.
  intros Hd [i t data] (H1 & H2 & H3). struct_ok.
  eapply field_chain_cons; [by apply raw_ok|lia|exact H3|reflexivity|]. reflexivity.
Qed.

(** *** In the types of the node *)

Definition entry_ok (e : LogEntry) : Prop := u64_ok (Term e).

Lemma entry_in_out e : entry_in (entry_out e) = e.
Proof. by destruct e as [t [c|]]. Qed.

Lemma entries_in_out (l : list LogEntry) : entry_in <$> (entry_out <$> l) = l.
Proof. induction l as [|e l IH]; [done|]. by rewrite !fmap_cons, entry_in_out, IH. Qed.

Lemma wentries_out (l : list LogEntry) : Forall entry_ok l → Forall wentry_ok (entry_out <$> l).
Proof. intros H. apply Forall_fmap. eapply Forall_impl; [exact H|]. intros e He. split; [exact He|]. by eexists. Qed.

Definition append_ok (a : AppendEntriesArgs) : Prop :=
  u64_ok (ae_Term a) ∧ name_ok (ae_LeaderId a) ∧ u64_ok (ae_PrevLogIndex a) ∧ u64_ok (ae_PrevLogTerm a) ∧
  Forall entry_ok (ae_Entries a) ∧ u64_ok (ae_LeaderCommit a).

Lemma append_in_out a : append_in (append_out a) = a.
Proof.
  destruct a as [t l pi pt es lc]. unfold append_in, append_out. cbn. f_equal. destruct es as [|e es]; [done|].
  exact (entries_in_out (e :: es)).
Qed.

Lemma append_out_ok a :
  append_ok a →
  let w := append_out a in
  u64_ok (wa_Term w) ∧ name_ok (wa_LeaderId w) ∧ u64_ok (wa_PrevLogIndex w) ∧ u64_ok (wa_PrevLogTerm w) ∧
  wentries_ok (wa_Entries w) ∧ u64_ok (wa_LeaderCommit w).
Proof.
  intros (H1 & H2 & H3 & H4 & H5 & H6). unfold append_out. cbn. repeat (split; [done|]). split; [|done].
  destruct (ae_Entries a) as [|e es]; [by exists None|]. exists (Some (entry_out <$> e :: es)). split; [done|].
  by apply wentries_out.
Qed.

Definition state_ok (p : persistentState) : Prop :=
  u64_ok (CurrentTerm p) ∧ name_ok (VotedFor p) ∧ Forall entry_ok (Log p).

Lemma state_in_out p : state_in (state_out p) = p.
Proof. destruct p as [t v l]. unfold state_in, state_out. cbn. by rewrite entries_in_out. Qed.

Lemma state_out_ok p :
  state_ok p → u64_ok (ws_CurrentTerm (state_out p)) ∧ name_ok (ws_VotedFor (state_out p)) ∧ wentries_ok (ws_Log (state_out p)).
Proof.
  intros (H1 & H2 & H3). split; [done|]. split; [done|]. exists (Some (entry_out <$> Log p)). split; [done|].
  by apply wentries_out.
Qed.

(** ** What arrives is well-typed *)

Definition wentry_typed (w : wEntry) : Prop := u64_ok (we_Term w).
Definition wentries_typed (s : goslice wEntry) : Prop := Forall wentry_typed (backing s).

Lemma entry_codec_typed : codec_typed c_LogEntry wentry_typed.
Proof.
  apply struct_typed; [done|]. apply List.Forall_cons; [|apply List.Forall_cons; [|done]]; intros j s Hs.
  - by eapply (field_typed wentry_typed (λ n, 0 ≤ n < 2 ^ 64)); [by apply uint_typed|..].
  - by eapply (field_typed wentry_typed (λ _ : goslice Byte.byte, True)); [apply any_typed|..].
Qed.

Lemma entries_codec_typed : codec_typed (c_slice c_LogEntry) wentries_typed.
Proof. apply slice_typed, entry_codec_typed. Qed.

Ltac typed_fields T :=
  repeat (apply List.Forall_cons; [|]); [..|by apply List.Forall_nil];
  intros j s Hs; first
    [ eapply (field_typed T (λ n, 0 ≤ n < 2 ^ 64)); [by apply uint_typed|..|exact Hs]
    | eapply (field_typed T name_ok); [apply string_typed|..|exact Hs]
    | eapply (field_typed T (λ _ : bool, True)); [apply any_typed|..|exact Hs]
    | eapply (field_typed T (λ _ : goslice Byte.byte, True)); [apply any_typed|..|exact Hs]
    | eapply (field_typed T (λ _ : option bytes, True)); [apply any_typed|..|exact Hs]
    | eapply (field_typed T wentries_typed); [apply entries_codec_typed|..|exact Hs] ];
  clear; unfold T; cbn; unfold u64_ok; intros; intuition.

Definition vote_args_typed (a : RequestVoteArgs) : Prop :=
  u64_ok (rv_Term a) ∧ name_ok (rv_CandidateId a) ∧ u64_ok (rv_LastLogIndex a) ∧ u64_ok (rv_LastLogTerm a).

Lemma vote_args_codec_typed : codec_typed c_RequestVoteArgs vote_args_typed.
Proof. apply struct_typed; [by repeat split|]. typed_fields vote_args_typed. Qed.

Definition vote_reply_typed (a : RequestVoteReply) : Prop := u64_ok (rvr_Term a).

Lemma vote_reply_codec_typed : codec_typed c_RequestVoteReply vote_reply_typed.
Proof. apply struct_typed; [done|]. typed_fields vote_reply_typed. Qed.

Definition append_args_typed (a : wAppendArgs) : Prop :=
  u64_ok (wa_Term a) ∧ name_ok (wa_LeaderId a) ∧ u64_ok (wa_PrevLogIndex a) ∧ u64_ok (wa_PrevLogTerm a) ∧
  wentries_typed (wa_Entries a) ∧ u64_ok (wa_LeaderCommit a).

Lemma append_args_codec_typed : codec_typed c_AppendEntriesArgs append_args_typed.
Proof. apply struct_typed; [by repeat split; first [done|apply List.Forall_nil]|]. typed_fields append_args_typed. Qed.

Definition append_reply_typed (a : AppendEntriesReply) : Prop :=
  u64_ok (aer_Term a) ∧ u64_ok (aer_ConflictIndex a) ∧ u64_ok (aer_ConflictTerm a).

Lemma append_reply_codec_typed : codec_typed c_AppendEntriesReply append_reply_typed.
Proof. apply struct_typed; [by repeat split; first [done|apply List.Forall_nil]|]. typed_fields append_reply_typed. Qed.

Definition wstate_typed (w : wState) : Prop :=
  u64_ok (ws_CurrentTerm w) ∧ name_ok (ws_VotedFor w) ∧ wentries_typed (ws_Log w).

Lemma state_codec_typed : codec_typed c_persistentState wstate_typed.
Proof. apply struct_typed; [by repeat split; first [done|apply List.Forall_nil]|]. typed_fields wstate_typed. Qed.

Definition wsnap_typed (w : wSnapshot) : Prop := u64_ok (wn_Index w) ∧ u64_ok (wn_Term w).

Lemma snapshot_codec_typed : codec_typed c_Snapshot wsnap_typed.
Proof. apply struct_typed; [by repeat split; first [done|apply List.Forall_nil]|]. typed_fields wsnap_typed. Qed.

Lemma entries_in_typed s : wentries_typed s → Forall entry_ok (entry_in <$> elements s).
Proof.
  intros H. apply Forall_fmap. destruct s as [|v t]; [constructor|]. unfold wentries_typed in H. cbn in H.
  apply Forall_app in H as [H _]. exact H.
Qed.

Lemma append_in_typed w : append_args_typed w → append_ok (append_in w).
Proof. intros (H1 & H2 & H3 & H4 & H5 & H6). repeat (split; [done|]). split; [by apply entries_in_typed|done]. Qed.

Lemma state_in_typed w : wstate_typed w → state_ok (state_in w).
Proof. intros (H1 & H2 & H3). split; [done|]. split; [done|]. by apply entries_in_typed. Qed.
