(* ===== verification/RaftTyped.v ===== *)
(** * RaftTyped: the fields of a Raft node stay within their Go types

    The model has integers and byte strings where the code has [uint64] and
    names that pass through JSON. [node_typed] says that every number of a node
    is a [uint64] and every name is valid UTF-8; the handlers of the two
    requests keep it when their arguments have these types, and their replies
    can be encoded. *)
From stdpp Require Import prelude gmap.
From Stdlib Require Import ZArith Lia Strings.Byte.
From S2P Require Import Prelude GoText GoUtf8 GoJson GoJsonTypes RaftNode RaftWire.
Local Open Scope Z_scope.

Definition snap_typed (s : Snapshot) : Prop := u64_ok (LastIncludedIndex s) ∧ u64_ok (LastIncludedTerm s).

Record node_typed (n : Node) : Prop := mkTyped {
  ty_id : name_ok (id n);
  ty_snapshotIndex : u64_ok (snapshotIndex n);
  ty_snapshotTerm : u64_ok (snapshotTerm n);
  ty_currentTerm : u64_ok (currentTerm n);
  ty_votedFor : name_ok (votedFor n);
  ty_log : Forall entry_ok (log n);
  ty_commitIndex : u64_ok (commitIndex n);
  ty_lastApplied : u64_ok (lastApplied n);
  ty_leaderId : name_ok (leaderId n);
  ty_nextIndex : map_Forall (λ _, u64_ok) (nextIndex n);
  ty_matchIndex : map_Forall (λ _, u64_ok) (matchIndex n);
  ty_disk : ∀ ps, disk n = Some ps → state_ok ps;
  ty_snapDisk : ∀ s, snapDisk n = Some s → snap_typed s
}.

(** ** Field updates *)

Lemma u64_wrap z : u64_ok (u64 z).
Proof. unfold u64_ok, u64. by apply Z.mod_pos_bound. Qed.

Lemma u64_zero : u64_ok 0.
Proof. done. Qed.

Lemma name_nil : name_ok [].
Proof. done. Qed.

Lemma typed_persistent t v l n :
  node_typed n → u64_ok t → name_ok v → Forall entry_ok l → node_typed (set_persistent t v l n).
Proof. intros [] ???. by constructor. Qed.

Lemma typed_role r n : node_typed n → node_typed (set_role r n).
Proof. intros []. by constructor. Qed.

Lemma typed_leaderId l n : node_typed n → name_ok l → node_typed (set_leaderId l n).
Proof. intros [] ?. by constructor. Qed.

Lemma typed_heartbeat now n : node_typed n → node_typed (set_heartbeat now n).
Proof. intros []. by constructor. Qed.

Lemma typed_commit c a b n : node_typed n → u64_ok c → u64_ok a → node_typed (set_commit c a b n).
Proof. intros [] ??. by constructor. Qed.

Lemma typed_indices nx mt n :
  node_typed n → map_Forall (λ _, u64_ok) nx → map_Forall (λ _, u64_ok) mt → node_typed (set_indices nx mt n).
Proof. intros [] ??. by constructor. Qed.

Lemma typed_votes v n : node_typed n → node_typed (set_votes v n).
Proof. intros []. by constructor. Qed.

Lemma typed_snapshot i t n : node_typed n → u64_ok i → u64_ok t → node_typed (set_snapshot i t n).
Proof. intros [] ??. by constructor. Qed.

Lemma typed_disk d sd fl n :
  node_typed n → (∀ ps, d = Some ps → state_ok ps) → (∀ s, sd = Some s → snap_typed s) → node_typed (set_disk d sd fl n).
Proof. intros [] ??. by constructor. Qed.

Create HintDb typed.
#[export] Hint Resolve typed_persistent typed_role typed_leaderId typed_heartbeat typed_commit typed_indices typed_votes
  typed_snapshot u64_wrap u64_zero name_nil ty_id ty_currentTerm ty_votedFor ty_log ty_commitIndex ty_lastApplied
  ty_leaderId ty_nextIndex ty_matchIndex ty_snapshotIndex ty_snapshotTerm : typed.

Lemma persist_typed n : node_typed n → node_typed (persist n).2.
Proof.
  intros H. unfold persist. destruct (statePath n); [|done]. destruct (next_fault n) as [[|] fl]; cbn;
    (apply typed_disk; [done| |apply H]); [apply H|]. intros ps [= <-]. split; [apply H|]. split; apply H.
Qed.
#[export] Hint Resolve persist_typed : typed.

Lemma becomeFollower_typed t n : node_typed n → u64_ok t → node_typed (becomeFollower t n).
Proof. intros H Ht. unfold becomeFollower. auto 7 with typed. Qed.
#[export] Hint Resolve becomeFollower_typed : typed.

(** ** Looking things up *)

Lemma log_at_typed l i e : Forall entry_ok l → log_at l i = Some e → entry_ok e.
Proof. intros Hl [_ H]%log_at_Some. by eapply (Forall_lookup_1 _ _ _ _ Hl). Qed.

(** ** Handlers *)

Lemma HandleRequestVote_typed now args n r n' :
  node_typed n → vote_args_typed args → HandleRequestVote now args n = Some (r, n') →
  node_typed n' ∧ vote_reply_typed r.
Proof.
  intros H (H1 & H2 & _) E. unfold HandleRequestVote in E.
  destruct (_ <? currentTerm n); [injection E as <- <-; split; [done|apply H]|].
  set (m := if _ <? _ then _ else n) in E. assert (Hm : node_typed m) by (subst m; destruct (_ <? _); auto with typed).
  clearbody m. destruct (lastLogIndexAndTerm m) as [[i t]|]; [|done]. cbn [mbind option_bind] in E.
  destruct (_ && _); injection E as <- <-; [|split; [done|apply Hm]].
  set (k := (persist _).2). assert (Hk : node_typed k).
  { subst k. apply persist_typed, typed_persistent; [done|apply Hm|done|apply Hm]. }
  split; [by apply typed_heartbeat|apply Hk].
Qed.

Lemma append_entries_typed l idx es l' :
  append_entries l idx es = Some l' → Forall entry_ok l → Forall entry_ok es → Forall entry_ok l'.
Proof.
  intros E Hl Hes. revert l idx E Hl. induction Hes as [|e es He Hes IH]; intros l idx E Hl; cbn [append_entries] in E.
  { by injection E as <-. }
  destruct (_ <? _).
  - destruct (log_at l idx) as [x|]; [|done]. cbn [mbind option_bind] in E. destruct (_ =? _); [by eapply IH|].
    eapply IH; [exact E|]. apply Forall_app. split; [by apply Forall_take|by constructor].
  - eapply IH; [exact E|]. apply Forall_app. split; [done|by constructor].
Qed.

Lemma conflict_go_le l t i : (conflict_go l t i ≤ i)%nat.
Proof.
  induction i as [|[|i] IH]; [done|done|]. change (conflict_go l t (S (S i))) with
    (if bool_decide (Term <$> l !! S i = Some t) then conflict_go l t (S i) else S (S i)).
  destruct (bool_decide _); lia.
Qed.

Lemma plain_reply_typed t s : u64_ok t → append_reply_typed (mkAEReply t s 0 0).
Proof. intros Ht. split; [exact Ht|]. split; exact u64_zero. Qed.

Lemma HandleAppendEntries_typed now args n r n' :
  node_typed n → Zlen (log n) < 2 ^ 63 → append_ok args → HandleAppendEntries now args n = Some (r, n') →
  node_typed n' ∧ append_reply_typed r.
Proof.
  intros H Hlen (H1 & H2 & H3 & H4 & H5 & H6) E. unfold HandleAppendEntries in E.
  destruct (_ <? currentTerm n); [injection E as <- <-; split; [done|apply plain_reply_typed, H]|].
  set (m := set_heartbeat _ _) in E.
  assert (Hm : node_typed m) by (subst m; apply typed_heartbeat, typed_leaderId; [by apply becomeFollower_typed|done]).
  assert (Hlm : Zlen (log m) < 2 ^ 63).
  { subst m. cbn. unfold becomeFollower, persist. destruct (statePath _); [|done]. destruct (next_fault _) as [[|] ?]; done. }
  clearbody m. pose proof (Zlen_nonneg (log m)).
  destruct (Zlen (log m) <=? _) eqn:Ep; kv_bool.
  { injection E as <- <-. split; [done|]. split; [apply Hm|]. split; [unfold u64_ok; cbn; lia|done]. }
  destruct (log_at (log m) _) as [prev|] eqn:El; [|done]. cbn [mbind option_bind] in E.
  pose proof (log_at_typed _ _ _ (ty_log m Hm) El) as Hprev. destruct (negb _).
  { injection E as <- <-. split; [done|]. split; [apply Hm|]. split; [|done]. cbn.
    pose proof (conflict_go_le (log m) (Term prev) (Z.to_nat (ae_PrevLogIndex args))). unfold u64_ok in *. lia. }
  destruct (append_entries _ _ _) as [l|] eqn:Ea; [|done]. cbn [mbind option_bind] in E.
  apply append_entries_typed in Ea; [|apply Hm|done]. injection E as <- <-.
  set (k := match ae_Entries args with [] => _ | _ => _ end).
  assert (Hk : node_typed k).
  { subst k. destruct (ae_Entries args); [|apply persist_typed]; (apply typed_persistent; [done|apply Hm|apply Hm|done]). }
  clearbody k. destruct (_ <? ae_LeaderCommit args); [|split; [done|apply plain_reply_typed, Hk]].
  split; [|apply plain_reply_typed, Hk]. apply typed_commit; [done| |apply Hk]. destruct (_ <? _); [done|apply u64_wrap].
Qed.

Lemma one_entry_typed t : u64_ok t → Forall entry_ok [mkEntry t None].
Proof. intros Ht. apply List.Forall_cons; [exact Ht|apply List.Forall_nil]. Qed.

