(* ===== verification/RaftPersist.v ===== *)
(** * RaftPersist: the files of internal/raft/persist.go and snapshot.go

    RaftNode keeps a node's state file and snapshot file as the values they
    hold. Here they are bytes: a file is replaced by writing a temporary file,
    syncing it and renaming it, each of which may fail, and a crash may undo
    renames that were not yet durable. The theorems say that the values are
    what RaftNode says they are. *)
From stdpp Require Import prelude gmap.
From Stdlib Require Import ZArith Lia Strings.Byte.
From S2P Require Import Prelude GoIO GoText GoUtf8 GoJson GoJsonTypes Wal Store StoreSnapshot RaftNode RaftWire RaftTyped.
Local Open Scope Z_scope.

(** ** A name in the file system and its temporary neighbour *)

Record Path := mkPath {
  base : option File;       (* what the name referred to at the start *)
  newer : list File;        (* what was renamed to it since, newest first *)
  tmp : option File;
  os_faults : list fault    (* the outcomes of the next system calls *)
}.

Definition current (p : Path) : option File :=
  match newer p with f :: _ => Some f | [] => base p end.

(** What a crash leaves under the name: [lost] renames are undone, and of the
    file what is durable for certain, with any part of the rest. The process
    being killed is the case [lost = 0] with the full content. *)
Definition crash (p : Path) (lost : nat) (img : option bytes) : Prop :=
  (lost ≤ length (newer p))%nat ∧
  match drop lost (newer p) with
  | f :: _ => ∃ b, img = Some b ∧ crash_image f b
  | [] => match base p with Some f => ∃ b, img = Some b ∧ crash_image f b | None => img = None end
  end.

Inductive replace_error := MarshalErr | CreateErr | WriteErr | FsyncErr | RenameErr.

Definition next_os (l : list fault) : fault * list fault :=
  match l with [] => (FOk, []) | x :: l => (x, l) end.

(** [os.Create], [Write], [Sync], [Close] and [os.Rename], in this order. A
    failure closes the file and leaves it under the temporary name. *)
Definition replace (data : bytes) (p : Path) : option replace_error * Path :=
  match next_os (os_faults p) with
  | (FFail _, fl) => (Some CreateErr, mkPath (base p) (newer p) (tmp p) fl)
  | (FOk, fl) =>
      let '(_, err, f) := file_Write data (mkFile [] 0 fl false) in
      if err then
        let '(_, f) := file_Close f in (Some WriteErr, mkPath (base p) (newer p) (Some f) (f_faults f))
      else
        let '(err, f) := file_Sync f in
        if err : bool then
          let '(_, f) := file_Close f in (Some FsyncErr, mkPath (base p) (newer p) (Some f) (f_faults f))
        else
          let '(_, f) := file_Close f in
          match next_os (f_faults f) with
          | (FFail _, fl) => (Some RenameErr, mkPath (base p) (newer p) (Some f) fl)
          | (FOk, fl) => (None, mkPath (base p) (f :: newer p) None fl)
          end
  end.

(** [os.ReadFile]. *)
Inductive file_read := FNotExist | FReadErr | FContent (b : bytes).
Definition read_image (img : option bytes) : file_read :=
  match img with None => FNotExist | Some b => FContent b end.

(** ** The state file *)

Definition node_state (n : Node) : persistentState := mkPS (currentTerm n) (votedFor n) (log n).

Definition persist_file (n : Node) (p : Path) : option replace_error * Path :=
  if statePath n then
    match Marshal c_persistentState (state_out (node_state n)) with
    | None => (Some MarshalErr, p)
    | Some data => replace data p
    end
  else (None, p).

Inductive restore_error := RestoreRead | RestoreUnmarshal.

Definition restore_file (r : file_read) (n : Node) : outcome restore_error Node :=
  if statePath n then
    match r with
    | FNotExist => Ret n
    | FReadErr => Err RestoreRead
    | FContent b =>
        let '(w, err) := Unmarshal c_persistentState b (c_zero c_persistentState) in
        if err then Err RestoreUnmarshal
        else let ps := state_in w in Ret (set_persistent (CurrentTerm ps) (VotedFor ps) (Log ps) n)
    end
  else Ret n.

(** ** The snapshot file *)

Definition snapshot_file (snap : Snapshot) (n : Node) (p : Path) : option replace_error * Path :=
  if snapshotPath n then
    match Marshal c_Snapshot (snap_out snap) with
    | None => (Some MarshalErr, p)
    | Some data => replace data p
    end
  else (None, p).

Definition latest_file (r : file_read) (n : Node) : outcome restore_error (option Snapshot) :=
  if snapshotPath n then
    match r with
    | FNotExist => Ret None
    | FReadErr => Err RestoreRead
    | FContent b =>
        let '(w, err) := Unmarshal c_Snapshot b (c_zero c_Snapshot) in
        if err then Err RestoreUnmarshal else Ret (Some (snap_in w))
    end
  else Ret None.

(** ** Lemmas *)

(** A file of which everything is durable. *)
Definition sealed (f : File) : Prop := f_synced f = length (f_content f).

Lemma sealed_crash f img : sealed f → crash_image f img → img = f_content f.
Proof.
  intros Hs [H1 H2]. rewrite Hs, firstn_all in H1. apply prefix_length in H1 as Hl. apply prefix_length in H2 as Hl2.
  destruct H1 as [k ->]. rewrite length_app in *. destruct k; [by rewrite app_nil_r|]. cbn in *. lia.
Qed.

(** A replacement either leaves the name alone or has put a durable file with
    exactly the new content there. *)
Lemma replace_cases data p :
  let '(err, p') := replace data p in
  base p' = base p ∧
  match err with
  | Some _ => newer p' = newer p
  | None => ∃ f, newer p' = f :: newer p ∧ f_content f = data ∧ sealed f
  end.
Proof.
  unfold replace. destruct (next_os (os_faults p)) as [[|n] fl]; [|done].
  unfold file_Write, file_Sync, file_Close. cbn [f_closed].
  destruct (GoIO.next_fault (mkFile [] 0 fl false)) as [[|k] fl1]; cbn [f_closed];
    (match goal with |- context [GoIO.next_fault ?f] => destruct (GoIO.next_fault f) as [[|?] fl2] end); cbn [f_closed]; try done.
  all: try (match goal with |- context [GoIO.next_fault ?f] => destruct (GoIO.next_fault f) as [[|?] fl3] end); cbn [f_closed f_faults]; try done.
  all: destruct (next_os fl3) as [[|?] fl4]; try done; split; [done|]; eexists; split; [done|]; by split.
Qed.

Definition decodes (b : bytes) (ps : persistentState) : Prop :=
  Unmarshal c_persistentState b (c_zero c_persistentState) = (state_out ps, false).

(** The file [f] holds the state [d], durably. *)
Definition holds (f : option File) (d : option persistentState) : Prop :=
  match f, d with
  | None, None => True
  | Some f, Some ps => sealed f ∧ decodes (f_content f) ps
  | _, _ => False
  end.

Lemma node_state_encodes n :
  node_typed n → ∃ data, Marshal c_persistentState (state_out (node_state n)) = Some data ∧ decodes data (node_state n).
Proof.
  intros [_ _ _ Ht Hv Hl _ _ _ _ _ _ _]. destruct (codec_roundtrip _ _ _ (state_out (node_state n)) state_codec_ok) as (data & H1 & H2).
  - apply Nat.leb_le. vm_compute. reflexivity.
  - by apply state_out_ok.
  - by exists data.
Qed.

Lemma restore_decodes n b ps :
  statePath n = true → decodes b ps →
  restore_file (FContent b) n = Ret (set_persistent (CurrentTerm ps) (VotedFor ps) (Log ps) n).
Proof. intros Hp Hd. unfold restore_file. rewrite Hp, Hd. by rewrite state_in_out. Qed.

(** One call of [persist] on the bytes. *)
Lemma persist_file_cases n p :
  node_typed n → statePath n = true →
  let '(err, p') := persist_file n p in
  base p' = base p ∧
  match err with
  | Some _ => newer p' = newer p
  | None => ∃ f, newer p' = f :: newer p ∧ sealed f ∧ decodes (f_content f) (node_state n)
  end.
Proof.
  intros Hn Hp. unfold persist_file. rewrite Hp. destruct (node_state_encodes n Hn) as (data & -> & Hd).
  pose proof (replace_cases data p) as H. destruct (replace data p) as [[e|] p']; [done|].
  destruct H as (H1 & f & H2 & H3 & H4). split; [done|]. exists f. by rewrite H3.
Qed.

(** A sequence of calls: the file, and the states whose call returned no error,
    newest first. *)
Definition persists (ns : list Node) (p : Path) : Path * list persistentState :=
  foldl (λ '(p, acks) n,
    let '(err, p) := persist_file n p in
    (p, match err with None => node_state n :: acks | Some _ => acks end)) (p, []) ns.

Lemma persists_versions ns p acks b :
  Forall (λ n, node_typed n ∧ statePath n = true) ns → base p = b →
  Forall2 (λ f ps, sealed f ∧ decodes (f_content f) ps) (newer p) acks →
  let '(p', acks') := foldl (λ '(p, acks) n,
    let '(err, p) := persist_file n p in
    (p, match err with None => node_state n :: acks | Some _ => acks end)) (p, acks) ns in
  base p' = b ∧ Forall2 (λ f ps, sealed f ∧ decodes (f_content f) ps) (newer p') acks'.
Proof.
  intros Hns. revert p acks. induction Hns as [|n ns [Hn Hs] Hns IH]; intros p acks Hb Hv; [done|]. cbn [foldl].
  pose proof (persist_file_cases n p Hn Hs) as H. destruct (persist_file n p) as [[e|] p1].
  - destruct H as [H1 H2]. apply IH; [by rewrite H1|by rewrite H2].
  - destruct H as (H1 & f & H2 & H3). apply IH; [by rewrite H1|]. rewrite H2. by constructor.
Qed.

(** ** Properties *)

(** C10: The state file is replaced atomically. Let a node persist any sequence
    of states with any system calls failing. After a crash the file holds
    exactly one of the states whose [persist] returned no error, complete, or
    what was there at the start; which one it is depends only on how many of
    the renames were durable. When all were, as after the process is killed, it
    is the last one. The node restores that state. *)
Theorem state_file_atomic ns b fl :
  Forall (λ n, node_typed n ∧ statePath n = true) ns → (∀ f, b = Some f → sealed f) →
  let '(p, acks) := persists ns (mkPath b [] None fl) in
  ∀ lost img m, statePath m = true → crash p lost img →
  (∃ ps, acks !! lost = Some ps ∧
    restore_file (read_image img) m = Ret (set_persistent (CurrentTerm ps) (VotedFor ps) (Log ps) m)) ∨
  (lost = length acks ∧ img = f_content <$> b).
Proof.
  intros Hns Hb. pose proof (persists_versions ns (mkPath b [] None fl) [] b Hns eq_refl ltac:(by constructor)) as H.
  unfold persists. destruct (foldl _ _ ns) as [p acks]. destruct H as [Hbase Hv]. intros lost img m Hm [Hlost Hc].
  destruct (drop lost (newer p)) as [|f rest] eqn:Ed.
  - right. assert (Hl : lost = length (newer p)).
    { apply (f_equal length) in Ed. rewrite length_drop in Ed. cbn in Ed. lia. }
    split; [by rewrite Hl, (Forall2_length _ _ _ Hv)|]. rewrite Hbase in Hc. destruct b as [f|]; [|done].
    destruct Hc as (c & -> & Hc). cbn. f_equal. by apply sealed_crash; [apply Hb|].
  - left. assert (Hf : newer p !! lost = Some f) by (rewrite <-(Nat.add_0_r lost), <-lookup_drop, Ed; done).
    destruct (Forall2_lookup_l _ _ _ _ _ Hv Hf) as (ps & Hps & Hse & Hd). exists ps. split; [done|].
    destruct Hc as (c & -> & Hc). rewrite (sealed_crash f c Hse Hc). by apply restore_decodes.
Qed.


(** C27: Snapshots of the store reach the file. A snapshot the store produces
    can always be encoded. If the replacement of the file succeeds, the file is
    durable and [LatestSnapshot] reads back the same index, term and data;
    otherwise the old snapshot stays. *)
Theorem store_snapshot_file isnil s i t n p :
  u64_ok i → u64_ok t → snapshotPath n = true →
  ∃ blob, StoreSnapshot.Snapshot isnil s = Some blob ∧
    let snap := mkSnap i t blob in
    let '(err, p') := snapshot_file snap n p in
    err ≠ Some MarshalErr ∧
    match err with
    | None => ∃ f, current p' = Some f ∧ sealed f ∧ latest_file (FContent (f_content f)) n = Ret (Some snap)
    | Some _ => current p' = current p
    end.
Proof.
  intros Hi Ht Hn. destruct (Snapshot_json isnil s) as (j & Hj & Hw & Hc & _). exists (jraw j). split; [done|]. cbv zeta.
  assert (Hd : (1 ≤ maxNestingDepth)%nat) by (apply Nat.leb_le; vm_compute; reflexivity).
  destruct (codec_roundtrip _ _ _ (snap_out (mkSnap i t (jraw j))) (snapshot_codec_ok 1 Hd)) as (data & Hm & Hu).
  { apply Nat.leb_le. vm_compute. reflexivity. }
  { split; [done|]. split; [done|]. by exists j. }
  unfold snapshot_file, latest_file. rewrite Hn, Hm. pose proof (replace_cases data p) as H.
  assert (Hne : (replace data p).1 ≠ Some MarshalErr).
  { unfold replace. repeat case_match; done. }
  destruct (replace data p) as [[e|] p']; (split; [done|]).
  - destruct H as [H1 H2]. unfold current. by rewrite H1, H2.
  - destruct H as (_ & f & H2 & H3 & H4). exists f. unfold current. rewrite H2. split; [done|]. split; [done|].
    by rewrite H3, Hu.
Qed.

(** ** Concrete runs *)

Definition ex_persist_node : Node :=
  mkNode (bs "n0") [bs "n1"] true true 0 0 0 [] [mkEntry 0 None] 0 0 Follower [] 0 ∅ ∅ false ∅ None None [].

Lemma ex_persist_typed t v : u64_ok t → name_ok v → node_typed (set_persistent t v [mkEntry 0 None] ex_persist_node).
Proof. intros Ht Hv. constructor; try done; try apply map_Forall_empty. by apply List.Forall_cons. Qed.

Definition ex_voted : Node := set_persistent 1 (bs "a") [mkEntry 0 None] ex_persist_node.
Definition ex_unvoted : Node := set_persistent 1 [] [mkEntry 0 None] ex_persist_node.

Lemma state_file_atomic_witness :
  let '(p, acks) := persists [ex_unvoted; ex_voted; ex_persist_node] (mkPath None [] None [FOk; FOk; FOk; FOk; FOk; FOk; FFail 3]) in
  ∀ lost img m, statePath m = true → crash p lost img →
  (∃ ps, acks !! lost = Some ps ∧
    restore_file (read_image img) m = Ret (set_persistent (CurrentTerm ps) (VotedFor ps) (Log ps) m)) ∨
  (lost = length acks ∧ img = f_content <$> @None File).
Proof.
  apply (state_file_atomic [ex_unvoted; ex_voted; ex_persist_node] None); [|done].
  repeat (apply List.Forall_cons; [split; [by apply ex_persist_typed|reflexivity]|]). apply List.Forall_nil.
Defined.

(** The path holds the state without the vote; the node has voted since, and the
    rename of its next [persist] fails. *)
Definition ex_unvoted_path : Path := (persist_file ex_unvoted (mkPath None [] None (replicate 9 FOk ++ [FFail 0]))).2.
Definition ex_voting : Node := set_disk (Some (node_state ex_unvoted)) None [] ex_voted.

Lemma ex_voting_typed : node_typed ex_voting.
Proof.
  assert (H : node_typed ex_voted) by (by apply ex_persist_typed). destruct H. constructor; try done.
  intros ps [= <-]. split; [done|]. split; [done|]. by apply List.Forall_cons.
Qed.


Lemma store_snapshot_file_witness :
  let s := ex_snap_store {[bs "k" := [Byte.xff]]} in
  ∃ blob, StoreSnapshot.Snapshot (λ _, false) s = Some blob ∧
    let snap := mkSnap 7 2 blob in
    let '(err, p') := snapshot_file snap ex_persist_node (mkPath None [] None []) in
    err ≠ Some MarshalErr ∧
    match err with
    | None => ∃ f, current p' = Some f ∧ sealed f ∧ latest_file (FContent (f_content f)) ex_persist_node = Ret (Some snap)
    | Some _ => current p' = current (mkPath None [] None [])
    end.
Proof.
  intros s. apply (store_snapshot_file (λ _, false) s 7 2 ex_persist_node (mkPath None [] None [])); [done|done|reflexivity].
Defined.

(** The directory is not synced after the rename. If a crash undoes the last
    rename, a node whose [persist] had succeeded and that had granted its vote
    restores a state without the vote, and grants it again in the same term. *)
Example lost_rename_votes_twice :
  let '(p, acks) := persists [ex_unvoted; ex_voted] (mkPath None [] None []) in
  fst <$> HandleRequestVote 5 (mkRV 1 (bs "a") 0 0) ex_persist_node = Some (mkRVReply 1 true) ∧
  acks = [node_state ex_voted; node_state ex_unvoted] ∧
  ∃ img m, crash p 1 (Some img) ∧ restore_file (FContent img) ex_persist_node = Ret m ∧
    fst <$> HandleRequestVote 9 (mkRV 1 (bs "b") 0 0) m = Some (mkRVReply 1 true).
Proof.
  destruct (persists [ex_unvoted; ex_voted] (mkPath None [] None [])) as [p acks] eqn:E.
  split; [vm_compute; reflexivity|]. vm_compute in E. injection E as <- <-. split; [reflexivity|].
  eexists _, _. split; [split; [apply Nat.leb_le; reflexivity|]; eexists; split; [reflexivity|]; split; reflexivity|].
  split; [vm_compute; reflexivity|]. vm_compute. reflexivity.
Qed.
