(* ===== verification/TcpTransport.v ===== *)
(** * TcpTransport: internal/raft/tcp_transport.go

    RPCs over connections: the server side reads one envelope, decodes the
    arguments, runs the handler of the local node and writes the reply; the
    client side dials, sends, and decodes what comes back. A connection is the
    stream of bytes that arrive on it and the file the other side reads. *)
From stdpp Require Import prelude gmap.
From Stdlib Require Import ZArith Lia Strings.Byte.
From S2P Require Import Prelude GoIO GoText GoUtf8 GoJson GoJsonTypes Listeners RaftNode RaftTransport RaftWire RaftTyped.
Local Open Scope Z_scope.

(** ** The transport *)

Record TCPTransport := mkTCP {
  t_node : option Node;
  t_addrs : gmap bytes bytes;
  t_life : Life (Stream * File)
}.

Definition NewTCPTransport (addrs : gmap bytes bytes) : TCPTransport := mkTCP None addrs no_listener.

Definition Register (i : bytes) (n : Node) (t : TCPTransport) : TCPTransport :=
  mkTCP (Some n) (t_addrs t) (t_life t).

Inductive serve_error := NoAddress | ListenErr.

(** [Serve] up to its loop; [listens] says whether an address can be bound. *)
Definition Serve (i : bytes) (listens : bytes → bool) (t : TCPTransport) : outcome serve_error TCPTransport :=
  match t_addrs t !! i with
  | None => Err NoAddress
  | Some addr =>
      if listens addr then
        let '(ln, l) := listen addr (t_life t) in Ret (mkTCP (t_node t) (t_addrs t) (serve ln l))
      else Err ListenErr
  end.

(** [true] is an error. *)
Definition Close (t : TCPTransport) : bool * TCPTransport :=
  let '(e, l) := close (t_life t) in (e, mkTCP (t_node t) (t_addrs t) l).

(** ** The server side *)

(** Errors of the reply are ignored, and the connection is closed. *)
Definition send_reply (ty : Byte.byte) (data : option bytes) (out : File) : File :=
  let '(_, w, out) := writeEnvelope (mkEnv ty (default [] data)) NewWriter out in
  let '(_, _, out) := bufio_Flush w out in
  (file_Close out).2.

(** One connection; a panic is one of the handlers. *)
Definition handleConn (now : Z) (conn : Stream) (out : File) (node : option Node) : outcome () (option Node * File) :=
  match readEnvelope conn, node with
  | (Panic, _), _ => Panic
  | (Err _, _), _ | (Ret _, _), None => Ret (node, (file_Close out).2)
  | (Ret env, _), Some n =>
      if bool_decide (EType env = rpcRequestVote) then
        let '(args, err) := Unmarshal c_RequestVoteArgs (Payload env) (c_zero c_RequestVoteArgs) in
        if err then Ret (node, (file_Close out).2)
        else
          '(reply, n) ← or_panic (HandleRequestVote now args n);
          Ret (Some n, send_reply rpcRequestVote (Marshal c_RequestVoteReply reply) out)
      else if bool_decide (EType env = rpcAppendEntries) then
        let '(args, err) := Unmarshal c_AppendEntriesArgs (Payload env) (c_zero c_AppendEntriesArgs) in
        if err then Ret (node, (file_Close out).2)
        else
          '(reply, n) ← or_panic (HandleAppendEntries now (append_in args) n);
          Ret (Some n, send_reply rpcAppendEntries (Marshal c_AppendEntriesReply reply) out)
      else Ret (node, (file_Close out).2)
  end.

(** The loop of [Serve] call [j] accepts a connection and its goroutine handles
    it; nothing if the listener is closed. *)
Definition accept_conn (now : Z) (j : nat) (conn : Stream) (out : File) (t : TCPTransport) :
    option (outcome () TCPTransport) :=
  l ← accept j (conn, out) (t_life t);
  Some ('(node, _) ← handleConn now conn out (t_node t); Ret (mkTCP node (t_addrs t) l)).

(** ** The client side *)

(** A connection that was dialled: where the request goes, and what comes back
    for the bytes that were sent. *)
Record Dialed := mkDialed { d_out : File; d_in : bytes → Stream }.

Inductive tcp_error := NoPeer | DialErr | SendErr | RecvErr (e : envelope_error) | DecodeErr.

(** [net] is the network: the connection to an address, if it can be made. *)
Definition dial (net : bytes → option Dialed) (peer : bytes) (t : TCPTransport) : outcome tcp_error Dialed :=
  match t_addrs t !! peer with
  | None => Err NoPeer
  | Some addr => match net addr with Some c => Ret c | None => Err DialErr end
  end.

(** The part the two calls have in common: send an envelope, read the one that
    comes back. *)
Definition exchange (ty : Byte.byte) (data : bytes) (conn : Dialed) : outcome tcp_error bytes :=
  let '(err, bw, out) := writeEnvelope (mkEnv ty data) NewWriter (d_out conn) in
  if err then Err SendErr
  else
    let '(err, _, out) := bufio_Flush bw out in
    if err : bool then Err SendErr
    else match readEnvelope (d_in conn (f_content out)) with
    | (Ret env, _) => Ret (Payload env)
    | (Err e, _) => Err (RecvErr e)
    | (Panic, _) => Panic
    end.

Definition RequestVote (net : bytes → option Dialed) (peer : bytes) (args : RequestVoteArgs) (t : TCPTransport) :
    outcome tcp_error RequestVoteReply :=
  conn ← dial net peer t;
  payload ← exchange rpcRequestVote (default [] (Marshal c_RequestVoteArgs args)) conn;
  let '(reply, err) := Unmarshal c_RequestVoteReply payload (c_zero c_RequestVoteReply) in
  if err : bool then Err DecodeErr else Ret reply.

Definition AppendEntries (net : bytes → option Dialed) (peer : bytes) (args : AppendEntriesArgs) (t : TCPTransport) :
    outcome tcp_error AppendEntriesReply :=
  conn ← dial net peer t;
  payload ← exchange rpcAppendEntries (default [] (Marshal c_AppendEntriesArgs (append_out args))) conn;
  let '(reply, err) := Unmarshal c_AppendEntriesReply payload (c_zero c_AppendEntriesReply) in
  if err : bool then Err DecodeErr else Ret reply.

(** ** Lemmas *)

Definition fresh_file : File := mkFile [] 0 [] false.

Lemma fresh_fault_free : fault_free fresh_file.
Proof. by split. Qed.

Lemma NewWriter_wf : writer_wf NewWriter.
Proof. apply Nat.le_0_l. Qed.

(** What an envelope written to a fresh connection and flushed leaves there. *)
Lemma write_flush env :
  ∃ w f w' f', writeEnvelope env NewWriter fresh_file = (false, w, f) ∧ bufio_Flush w f = (false, w', f') ∧
    f_content f' = envelope_bytes env.
Proof.
  destruct (writeEnvelope_content env NewWriter fresh_file) as (w & f & H1 & H2 & H3 & H4 & H5);
    [apply fresh_fault_free|done|apply NewWriter_wf|].
  destruct (bufio_Flush w f) as [[e w'] f'] eqn:Ef. exists w, f, w', f'.
  pose proof (bufio_Flush_fault_free _ _ _ _ _ Ef H2 H3) as (-> & _ & _).
  pose proof Ef as (_ & _ & _ & Hb & _ & He)%bufio_Flush_spec; [|done].
  split; [done|]. split; [done|]. rewrite He, app_nil_r in Hb by done. rewrite Hb. exact H5.
Qed.

Lemma Close_keeps_content f : f_content (file_Close f).2 = f_content f.
Proof. unfold file_Close. destruct (f_closed f); [done|]. by destruct (GoIO.next_fault f). Qed.

Lemma send_reply_content ty data : f_content (send_reply ty (Some data) fresh_file) = envelope_bytes (mkEnv ty data).
Proof.
  unfold send_reply. destruct (write_flush (mkEnv ty data)) as (w & f & w' & f' & H1 & H2 & H3). cbn [default].
  unfold Datatypes.id. by rewrite H1, H2, Close_keeps_content.
Qed.

Lemma exchange_fresh ty data serve :
  exchange ty data (mkDialed fresh_file serve) =
    match readEnvelope (serve (envelope_bytes (mkEnv ty data))) with
    | (Ret env, _) => Ret (Payload env)
    | (Err e, _) => Err (RecvErr e)
    | (Panic, _) => Panic
    end.
Proof.
  unfold exchange. cbn [d_out d_in]. destruct (write_flush (mkEnv ty data)) as (w & f & w' & f' & H1 & H2 & H3).
  by rewrite H1, H2, H3.
Qed.

Lemma readEnvelope_small ty data e :
  Zlen data ≤ maxPayload → ∃ r, readEnvelope (mkStream (envelope_bytes (mkEnv ty data)) e) = (Ret (mkEnv ty data), r).
Proof.
  intros Hd. destruct (readEnvelope_bytes (mkEnv ty data) [] e) as (r & Hr & _).
  { cbn [Payload]. change maxPayload with 33554432 in Hd. lia. }
  rewrite app_nil_r in Hr. cbn [Payload] in Hr. replace (Zlen data <=? maxPayload) with true in Hr by lia. eauto.
Qed.

(** *** The replies are short *)

Lemma dec_go_length fuel n acc : (length (dec_go fuel n acc) ≤ fuel + length acc)%nat.
Proof.
  revert n acc. induction fuel as [|fuel IH]; intros n acc; [cbn; lia|]. cbn [dec_go].
  destruct (n <? 10); [cbn [length]; lia|]. specialize (IH (n / 10) (Zbyte (48 + n mod 10) :: acc)). cbn [length] in IH. lia.
Qed.

Lemma dec_length n : u64_ok n → Zlen (dec n) ≤ 65.
Proof.
  intros [Hn Hm]. unfold dec. replace (n <? 0) with false by lia. unfold dec_nonneg, Zlen.
  pose proof (dec_go_length (S (Z.to_nat (Z.log2 n))) n []) as H. cbn [length] in H.
  assert (Z.log2 n < 64); [|lia]. destruct (decide (n = 0)) as [->|]; [done|]. apply Z.log2_lt_pow2; lia.
Qed.

(** A record of a few numbers and booleans takes little space. *)
Ltac short_record :=
  repeat (rewrite Zlen_cons || rewrite Zlen_app || rewrite Zlen_nil); change maxPayload with 33554432; lia.

Lemma vote_reply_size reply data :
  u64_ok (rvr_Term reply) → Marshal c_RequestVoteReply reply = Some data → Zlen data ≤ maxPayload.
Proof.
  intros Ht H. unfold Marshal in H. cbn in H. injection H as <-. pose proof (dec_length _ Ht).
  destruct (rvr_VoteGranted reply); cbn; short_record.
Qed.

Lemma append_reply_size reply data :
  u64_ok (aer_Term reply) → u64_ok (aer_ConflictIndex reply) → u64_ok (aer_ConflictTerm reply) →
  Marshal c_AppendEntriesReply reply = Some data → Zlen data ≤ maxPayload.
Proof.
  intros H1 H2 H3 H. unfold Marshal in H. cbn in H. injection H as <-.
  pose proof (dec_length _ H1). pose proof (dec_length _ H2). pose proof (dec_length _ H3).
  destruct (aer_Success reply); cbn; short_record.
Qed.

(** *** Requests are no larger than what carried them *)

Lemma decode_elements_length {A} (c : codec A) old l : length (decode_elements c old l).1 = length l.
Proof.
  revert old. induction l as [|j l IH]; intros old; [done|]. cbn [decode_elements]. specialize (IH (tail old)).
  destruct (c_unmarshal c j _), (decode_elements c (tail old) l). cbn [fst length] in *. lia.
Qed.

Lemma decode_slice_length {A} (c : codec A) N j (old : goslice A) :
  small N j → (length (elements old) ≤ N)%nat → (length (elements (decode_slice c j old).1) ≤ N)%nat.
Proof.
  intros Hj Ho. destruct Hj as [| | | |raw l Hl _|]; try done; [cbn; lia|]. cbn [decode_slice]. destruct l as [|j l]; [cbn; lia|].
  pose proof (decode_elements_length c (backing old) (j :: l)) as H.
  destruct (decode_elements c (backing old) (j :: l)) as [xs e]. cbn [fst elements] in *. lia.
Qed.

Lemma append_args_small data :
  (length (elements (wa_Entries (Unmarshal c_AppendEntriesArgs data (c_zero c_AppendEntriesArgs)).1)) ≤ length data)%nat.
Proof.
  unfold Unmarshal. destruct (parse data) as [j| |] eqn:E; [|cbn; lia..]. apply parse_small in E.
  destruct E as [| | | | |raw l Hl]; try (cbn; lia).
  apply (struct_keeps (small (length data)) (λ a, (length (elements (wa_Entries a)) ≤ length data)%nat)); [|done|cbn; lia].
  do 4 (apply List.Forall_cons; [intros j s _ Hs; cbn [field_of f_unmarshal]; by destruct (c_unmarshal _ j _)|]).
  apply List.Forall_cons; [intros j s Hj Hs|].
  - cbn [field_of f_unmarshal c_slice c_unmarshal]. pose proof (decode_slice_length c_LogEntry _ j (wa_Entries s) Hj Hs) as H.
    destruct (decode_slice c_LogEntry j (wa_Entries s)) as [es e]. exact H.
  - apply List.Forall_cons; [intros j s _ Hs; cbn [field_of f_unmarshal]; by destruct (c_unmarshal _ j _)|constructor].
Qed.

Lemma readEnvelope_payload r env r' : readEnvelope r = (Ret env, r') → Zlen (Payload env) ≤ maxPayload.
Proof.
  unfold readEnvelope. destruct (ReadFull 5 r) as [[hdr|e|] r1]; try done.
  destruct (maxPayload <? _) eqn:E; [done|]. kv_bool. pose proof (get_le_range (drop 1 hdr)).
  destruct (ReadFull _ r1) as [[p|e|] r2] eqn:E2; try done. apply ReadFull_Ret in E2 as (Hl & _); [|lia].
  destruct hdr as [|b hdr]; [done|]. intros [= <- _]. cbn [Payload]. lia.
Qed.

(** *** No request makes a handler panic *)

Lemma HandleAppendEntries_total now args n :
  0 < Zlen (log n) → 0 ≤ ae_PrevLogIndex args → Zlen (log n) + Zlen (ae_Entries args) < 2 ^ 63 →
  is_Some (HandleAppendEntries now args n).
Proof.
  intros Hl Hp Hes. pose proof (Zlen_nonneg (ae_Entries args)). unfold HandleAppendEntries.
  destruct (_ <? currentTerm n); [by eexists|]. set (m := set_heartbeat _ _).
  assert (Hm : log m = log n).
  { subst m. cbn. unfold becomeFollower, persist. destruct (statePath _); [|done]. by destruct (RaftNode.next_fault _) as [[|] ?]. }
  rewrite Hm. clearbody m. destruct (Zlen (log n) <=? _) eqn:E; kv_bool; [by eexists|].
  destruct (log_at_is_Some (log n) (ae_PrevLogIndex args)) as (prev & -> & _); [lia|]. cbn [mbind option_bind].
  destruct (negb _); [by eexists|]. rewrite (u64_id (ae_PrevLogIndex args + 1)) by lia.
  rewrite append_entries_merge by lia. cbn [mbind option_bind]. by eexists.
Qed.

Lemma HandleAppendEntries_log now args n r n' :
  HandleAppendEntries now args n = Some (r, n') → log n ≠ [] → log n' ≠ [].
Proof.
  intros H Hn. unfold HandleAppendEntries in H. destruct (_ <? currentTerm n); [by injection H as _ <-|].
  set (m := set_heartbeat _ _) in H. assert (Hm : log m = log n).
  { subst m. cbn. unfold becomeFollower, persist. destruct (statePath _); [|done]. by destruct (RaftNode.next_fault _) as [[|] ?]. }
  rewrite Hm in H. destruct (_ <=? _); [injection H as _ <-; by rewrite Hm|]. destruct (log_at _ _); [|done].
  cbn [mbind option_bind] in H. destruct (negb _); [injection H as _ <-; by rewrite Hm|].
  destruct (append_entries _ _ _) as [l'|] eqn:Ea; [|done]. apply append_entries_not_nil in Ea; [|done].
  cbn [mbind option_bind] in H. injection H as _ <-. set (k := match ae_Entries args with [] => _ | _ => _ end).
  assert (Hk : log k = l').
  { subst k. destruct (ae_Entries args); [done|]. unfold persist. destruct (statePath _); [|done].
    by destruct (RaftNode.next_fault _) as [[|] ?]. }
  destruct (_ <? ae_LeaderCommit args); cbn [log set_commit]; by rewrite Hk.
Qed.

(** *** Calls that arrive *)

(** What a peer that serves one connection sends back. *)
Definition peer_stream (now : Z) (n : Node) (req : bytes) : Stream :=
  match handleConn now (mkStream req EOF) fresh_file (Some n) with
  | Ret (_, out) => mkStream (f_content out) EOF
  | _ => mkStream [] EOF
  end.

(** The size of the JSON of the arguments. *)
Definition fits {A} (c : codec A) (x : A) : Prop := Zlen (default [] (Marshal c x)) ≤ maxPayload.

Lemma handleConn_vote now args n reply n' :
  vote_args_typed args → fits c_RequestVoteArgs args → HandleRequestVote now args n = Some (reply, n') →
  ∃ data, Marshal c_RequestVoteArgs args = Some data ∧
    handleConn now (mkStream (envelope_bytes (mkEnv rpcRequestVote data)) EOF) fresh_file (Some n) =
    Ret (Some n', send_reply rpcRequestVote (Marshal c_RequestVoteReply reply) fresh_file).
Proof.
  intros Ha Hf H. destruct (codec_roundtrip _ _ _ args vote_args_ok) as (data & Hm & Hu); [apply Nat.leb_le; vm_compute; done|done|].
  exists data. split; [done|]. unfold fits in Hf. rewrite Hm in Hf. destruct (readEnvelope_small rpcRequestVote data EOF Hf) as [r Hr].
  unfold handleConn. rewrite Hr. cbn [EType Payload]. rewrite bool_decide_eq_true_2 by done. rewrite Hu, H. done.
Qed.

Lemma handleConn_append now args n reply n' :
  append_ok args → fits c_AppendEntriesArgs (append_out args) → HandleAppendEntries now args n = Some (reply, n') →
  ∃ data, Marshal c_AppendEntriesArgs (append_out args) = Some data ∧
    handleConn now (mkStream (envelope_bytes (mkEnv rpcAppendEntries data)) EOF) fresh_file (Some n) =
    Ret (Some n', send_reply rpcAppendEntries (Marshal c_AppendEntriesReply reply) fresh_file).
Proof.
  intros Ha Hf H. destruct (codec_roundtrip _ _ _ (append_out args) append_args_ok) as (data & Hm & Hu);
    [apply Nat.leb_le; vm_compute; done|by apply append_out_ok|].
  exists data. split; [done|]. unfold fits in Hf. rewrite Hm in Hf. destruct (readEnvelope_small rpcAppendEntries data EOF Hf) as [r Hr].
  unfold handleConn. rewrite Hr. cbn [EType Payload]. rewrite bool_decide_eq_false_2 by done.
  rewrite bool_decide_eq_true_2 by done. rewrite Hu, append_in_out, H. done.
Qed.

(** A reply that is small enough is read back. *)
Lemma reply_read ty data : Zlen data ≤ maxPayload →
  ∃ r, readEnvelope (mkStream (f_content (send_reply ty (Some data) fresh_file)) EOF) = (Ret (mkEnv ty data), r).
Proof. rewrite send_reply_content. apply readEnvelope_small. Qed.

Lemma ret_bind {E A B} (a : A) (f : A → outcome E B) : (Ret a ≫= f) = f a.
Proof. done. Qed.

Lemma RequestVote_returns net peer args t conn data payload reply :
  dial net peer t = Ret conn → Marshal c_RequestVoteArgs args = Some data →
  exchange rpcRequestVote data conn = Ret payload →
  Unmarshal c_RequestVoteReply payload (c_zero c_RequestVoteReply) = (reply, false) →
  RequestVote net peer args t = Ret reply.
Proof.
  intros Hd Hm Hx Hu. unfold RequestVote. rewrite Hd, ret_bind, Hm. change (default [] (Some data)) with data.
  by rewrite Hx, ret_bind, Hu.
Qed.

(** ** Properties *)

(** Once closed, the transport handles no connection that comes in through the
    listener it served on. *)
Lemma tcp_closed_refuses now j conn out t ln :
  life_ok (t_life t) → field (t_life t) = Some ln → fst <$> loops (t_life t) !! j = Some ln →
  accept_conn now j conn out (Close t).2 = None.
Proof.
  intros Hok Hf Hj. pose proof (close_closes ln (t_life t) Hok Hf) as [a Ha]. unfold accept_conn, Close.
  assert (Hl : loops (close (t_life t)).2 = loops (t_life t)).
  { unfold close. rewrite Hf. by destruct (listeners (t_life t) !! ln) as [[b []]|]. }
  destruct (close (t_life t)) as [e l]. cbn [snd t_life] in *. unfold accept. rewrite Hl.
  destruct (loops (t_life t) !! j) as [[k []]|]; [|done..]. injection Hj as ->. by rewrite Ha.
Qed.

(** C23: Any bytes. Whatever a connection delivers and however writing the reply
    fails, a node with a non-empty log handles the connection without a panic,
    and its fields stay within their types. *)
Theorem tcp_robust now conn out n :
  node_typed n → 0 < Zlen (log n) < 2 ^ 62 →
  ∃ n' out', handleConn now conn out (Some n) = Ret (Some n', out') ∧ node_typed n' ∧ log n' ≠ [].
Proof.
  intros Hn Hl. assert (Hne : log n ≠ []) by (destruct (log n); [change (0 < 0 < 2 ^ 62) in Hl; lia|done]).
  assert (Hstay : ∃ n' out', Ret (Some n, (file_Close out).2) = @Ret () _ (Some n', out') ∧ node_typed n' ∧ log n' ≠ [])
    by (by exists n, (file_Close out).2).
  unfold handleConn. destruct (readEnvelope conn) as [[env|e|] r] eqn:Er; [|exact Hstay|].
  2: { exfalso. unfold readEnvelope in Er. pose proof (ReadFull_not_Panic 5 conn) as H5.
       destruct (ReadFull 5 conn) as [[hdr|e|] r1] eqn:E5; try done. destruct (_ <? _); [done|].
       pose proof (ReadFull_not_Panic (get_le (drop 1 hdr)) r1) as H6.
       destruct (ReadFull _ r1) as [[p|e|] r2]; try done. apply ReadFull_Ret in E5 as [H7 _]; [|lia]. by destruct hdr. }
  apply readEnvelope_payload in Er. destruct (bool_decide _).
  - pose proof (Unmarshal_typed _ _ (Payload env) vote_args_codec_typed) as Ht.
    destruct (Unmarshal c_RequestVoteArgs _ _) as [args [|]]; [exact Hstay|]. cbn [fst] in Ht.
    destruct (HandleRequestVote_cases now args n) as (r' & n' & E & _ & Hlog & _); [unfold log_ok; lia|].
    rewrite E. go_red. exists n'. eexists. split; [done|]. split; [apply (HandleRequestVote_typed now args n r' n' Hn Ht E)|by rewrite Hlog].
  - destruct (bool_decide _); [|exact Hstay].
    pose proof (Unmarshal_typed _ _ (Payload env) append_args_codec_typed) as Ht.
    pose proof (append_args_small (Payload env)) as Hs.
    destruct (Unmarshal c_AppendEntriesArgs _ _) as [args [|]]; [exact Hstay|]. cbn [fst] in Ht, Hs.
    apply append_in_typed in Ht.
    destruct (HandleAppendEntries_total now (append_in args) n) as [[r' n'] E]; [lia|apply Ht| |].
    { cbn [append_in ae_Entries]. unfold Zlen in *. rewrite length_fmap. change maxPayload with 33554432 in Er. lia. }
    rewrite E. go_red. exists n'. eexists. split; [done|]. split; [apply (HandleAppendEntries_typed now (append_in args) n r' n' Hn ltac:(lia) Ht E)|].
    by eapply HandleAppendEntries_log.
Qed.

(** A concrete peer: its log holds one entry of term 1. *)
Definition ex_tcp_node : Node :=
  mkNode (bs "n1") [bs "n0"] false false 0 0 1 [] [mkEntry 0 None; mkEntry 1 (Some (bs "x"))] 0 0 Follower [] 0 ∅ ∅ false ∅
    None None [].

Lemma ex_tcp_node_typed : node_typed ex_tcp_node.
Proof.
  constructor; try done; try apply map_Forall_empty.
  apply List.Forall_cons; [done|]. apply List.Forall_cons; [done|apply List.Forall_nil].
Qed.

(** A request of a peer that claims term 7, an impossible commit index and an
    entry that overwrites the node's; the reply cannot be written. *)
Definition ex_hostile : bytes :=
  envelope_bytes (mkEnv rpcAppendEntries (jtext
    "{'Term': 7, 'LeaderId': 'n0', 'PrevLogIndex': 0, 'Entries': [{'term': 7, 'command': 'eQ=='}], 'LeaderCommit': 18446744073709551615}")).

Lemma tcp_robust_witness :
  match handleConn 7 (mkStream ex_hostile EOF) (mkFile [] 0 [FFail 0] false) (Some ex_tcp_node) with
  | Ret (Some n, _) => (currentTerm n, log n, commitIndex n) = (7, [mkEntry 0 None; mkEntry 7 (Some (bs "y"))], 1)
  | _ => False
  end ∧
  ∃ n' out', handleConn 7 (mkStream ex_hostile EOF) (mkFile [] 0 [FFail 0] false) (Some ex_tcp_node) =
    Ret (Some n', out') ∧ node_typed n' ∧ log n' ≠ [].
Proof.
  split; [vm_compute; reflexivity|]. apply tcp_robust; [exact ex_tcp_node_typed|by vm_compute].
Defined.

(** C9: AppendEntries over TCP. A call to a peer that serves the connection
    returns what the in-memory transport returns for that peer: its node
    handled exactly the arguments that were sent. The conditions are that the
    peer's address is known and reachable and nothing fails on the connection,
    that names are valid UTF-8 and numbers are within 64 bits, that the peer's
    log is not empty, and that the JSON of the request fits the 32 MiB the
    receiver accepts. *)
Theorem tcp_append_entries now net peer addr args n t mt :
  t_addrs t !! peer = Some addr → net addr = Some (mkDialed fresh_file (peer_stream now n)) →
  getNode peer mt = Some n → isPartitioned (ae_LeaderId args) peer mt = false →
  node_typed n → 0 < Zlen (log n) → Zlen (log n) + Zlen (ae_Entries args) < 2 ^ 63 →
  append_ok args → fits c_AppendEntriesArgs (append_out args) →
  ∃ reply n', RaftTransport.AppendEntries now peer args mt = (Ret reply, RaftTransport.Register peer n' mt) ∧
    AppendEntries net peer args t = Ret reply ∧
    ∃ data out, Marshal c_AppendEntriesArgs (append_out args) = Some data ∧
      handleConn now (mkStream (envelope_bytes (mkEnv rpcAppendEntries data)) EOF) fresh_file (Some n) = Ret (Some n', out).
Proof.
  intros Haddr Hnet Hget Hpart Hn Hl Hlen Ha Hfit. pose proof (Zlen_nonneg (ae_Entries args)).
  destruct (HandleAppendEntries_total now args n) as [[reply n'] Hh]; [done|apply Ha|done|].
  destruct (HandleAppendEntries_typed now args n reply n' Hn ltac:(lia) Ha Hh) as [_ Hr].
  destruct (handleConn_append now args n reply n' Ha Hfit Hh) as (data & Hm & Hc).
  exists reply, n'. split; [unfold RaftTransport.AppendEntries; by rewrite Hpart, Hget, Hh|]. split; [|by exists data; eexists].
  destruct (codec_roundtrip _ _ _ reply append_reply_ok) as (rd & Hrm & Hru); [apply Nat.leb_le; vm_compute; done|done|].
  unfold AppendEntries, dial. rewrite Haddr, Hnet. go_red. rewrite Hm. cbn [default]. unfold Datatypes.id.
  rewrite exchange_fresh. unfold peer_stream. rewrite Hc, Hrm.
  destruct Hr as (R1 & R2 & R3). destruct (reply_read rpcAppendEntries rd (append_reply_size _ _ R1 R2 R3 Hrm)) as [r ->].
  go_red. cbn [Payload]. by rewrite Hru.
Qed.

Definition ex_tcp_args : AppendEntriesArgs :=
  mkAE 2 (bs "n0") 1 1 [mkEntry 2 (Some (bs "set")); mkEntry 2 None] 1.
Definition ex_tcp_addrs : gmap bytes bytes := {[ bs "n1" := bs ":7001" ]}.
Definition ex_tcp_net (addr : bytes) : option Dialed :=
  if bool_decide (addr = bs ":7001") then Some (mkDialed fresh_file (peer_stream 7 ex_tcp_node)) else None.

Lemma ex_tcp_args_ok : append_ok ex_tcp_args.
Proof.
  unfold append_ok, u64_ok, name_ok, ex_tcp_args. cbn [ae_Term ae_LeaderId ae_PrevLogIndex ae_PrevLogTerm ae_Entries ae_LeaderCommit].
  split; [lia|]. split; [vm_compute; reflexivity|]. split; [lia|]. split; [lia|]. split; [|lia].
  apply List.Forall_cons; [done|]. apply List.Forall_cons; [done|apply List.Forall_nil].
Qed.

Lemma tcp_append_entries_witness :
  ∃ reply n', RaftTransport.AppendEntries 7 (bs "n1") ex_tcp_args (RaftTransport.Register (bs "n1") ex_tcp_node NewMemTransport) =
      (Ret reply, RaftTransport.Register (bs "n1") n' (RaftTransport.Register (bs "n1") ex_tcp_node NewMemTransport)) ∧
    AppendEntries ex_tcp_net (bs "n1") ex_tcp_args (NewTCPTransport ex_tcp_addrs) = Ret reply ∧
    ∃ data out, Marshal c_AppendEntriesArgs (append_out ex_tcp_args) = Some data ∧
      handleConn 7 (mkStream (envelope_bytes (mkEnv rpcAppendEntries data)) EOF) fresh_file (Some ex_tcp_node) = Ret (Some n', out).
Proof.
  apply (tcp_append_entries 7 ex_tcp_net (bs "n1") (bs ":7001") ex_tcp_args ex_tcp_node (NewTCPTransport ex_tcp_addrs)
    (RaftTransport.Register (bs "n1") ex_tcp_node NewMemTransport)).
  - vm_compute. reflexivity.
  - unfold ex_tcp_net. rewrite bool_decide_eq_true_2 by reflexivity. reflexivity.
  - vm_compute. reflexivity.
  - vm_compute. reflexivity.
  - exact ex_tcp_node_typed.
  - vm_compute. reflexivity.
  - vm_compute. reflexivity.
  - exact ex_tcp_args_ok.
  - unfold fits. vm_compute. congruence.
Defined.

(** RequestVote over TCP, in the same way. *)
Theorem tcp_request_vote now net peer addr args n t mt :
  t_addrs t !! peer = Some addr → net addr = Some (mkDialed fresh_file (peer_stream now n)) →
  getNode peer mt = Some n → isPartitioned (rv_CandidateId args) peer mt = false →
  node_typed n → log_ok (log n) → vote_args_typed args → fits c_RequestVoteArgs args →
  ∃ reply n', RaftTransport.RequestVote now peer args mt = (Ret reply, RaftTransport.Register peer n' mt) ∧
    RequestVote net peer args t = Ret reply ∧
    ∃ data out, Marshal c_RequestVoteArgs args = Some data ∧
      handleConn now (mkStream (envelope_bytes (mkEnv rpcRequestVote data)) EOF) fresh_file (Some n) = Ret (Some n', out).
Proof.
  intros Haddr Hnet Hget Hpart Hn Hl Ha Hfit.
  destruct (HandleRequestVote_cases now args n Hl) as (reply & n' & Hh & _).
  destruct (HandleRequestVote_typed now args n reply n' Hn Ha Hh) as [_ Hr].
  destruct (handleConn_vote now args n reply n' Ha Hfit Hh) as (data & Hm & Hc).
  exists reply, n'. split; [unfold RaftTransport.RequestVote; by rewrite Hpart, Hget, Hh|]. split; [|by exists data; eexists].
  destruct (codec_roundtrip _ _ _ reply vote_reply_ok) as (rd & Hrm & Hru); [apply Nat.leb_le; vm_compute; done|done|].
  assert (Hx : exchange rpcRequestVote data (mkDialed fresh_file (peer_stream now n)) = Ret rd).
  {  rewrite exchange_fresh. unfold peer_stream. rewrite Hc, Hrm.
  destruct (reply_read rpcRequestVote rd (vote_reply_size _ _ Hr Hrm)) as [r ->]. done. }
  apply (RequestVote_returns net peer args t (mkDialed fresh_file (peer_stream now n)) data rd reply); [|done..].
  unfold dial. by rewrite Haddr, Hnet.
Qed.
