(* ===== verification/Kvengine.v ===== *)
(** * Kvengine: the Raft-backed store of cmd/kvengine/main.go

    A write is proposed to the Raft log as a JSON command; committed commands
    come back through the apply channel and are executed on the local store,
    which is also where reads go. Every hundredth command takes a snapshot. *)
From stdpp Require Import prelude gmap sorting.
From Stdlib Require Import ZArith Lia Strings.Byte.
From S2P Require Import Prelude GoIO GoText GoUtf8 GoJson GoJsonTypes Wal Store StoreSnapshot RaftNode RaftWire.
Local Open Scope Z_scope.

(** ** Commands *)

(** The struct that [applyRaftToStore] decodes into. *)
Record Cmd := mkCmd { Op : bytes; CKey : bytes; CVal : bytes }.

Definition cmd_fields : list (field Cmd) := [
  field_of (bs "op") c_string Op (λ x c, mkCmd x (CKey c) (CVal c));
  field_of (bs "k") c_string CKey (λ x c, mkCmd (Op c) x (CVal c));
  field_of (bs "v") c_string CVal (λ x c, mkCmd (Op c) (CKey c) x)].
Definition c_Cmd : codec Cmd := c_struct (mkCmd [] [] []) cmd_fields.

(** [json.Marshal] of the map literals of [Put] and [Delete]; the error is
    ignored, and a nil slice proposed. *)
Definition put_map (key value : bytes) : gmap bytes bytes :=
  {[bs "op" := bs "put"; bs "k" := key; bs "v" := value]}.
Definition del_map (key : bytes) : gmap bytes bytes := {[bs "op" := bs "del"; bs "k" := key]}.
Definition encode_cmd (m : gmap bytes bytes) : option bytes := Marshal (c_map c_string) (Some m).

(** ** The apply loop *)

Definition snapshotEvery : Z := 100.

(** The raft node, the store, and the counter [applied]. *)
Record Applier := mkApplier { a_node : Node; a_store : Store; applied : Z }.

Section apply.
Context (isnil : bytes → bool).

(** One message; nothing is a panic. Errors of the store are ignored, those of
    decoding and of [TakeSnapshot] logged. *)
Definition apply_msg (msg : ApplyMsg) (a : Applier) : option Applier :=
  match Unmarshal c_Cmd (ACommand msg) (c_zero c_Cmd) with
  | (_, true) => Some a
  | (cmd, false) =>
      let s :=
        if bool_decide (Op cmd = bs "put") then (Put (CKey cmd) (CVal cmd) (a_store a)).2
        else if bool_decide (Op cmd = bs "del") then (Delete (CKey cmd) (a_store a)).2
        else a_store a in
      let n := applied a + 1 in
      if n mod snapshotEvery =? 0 then
        '(_, node) ← TakeSnapshot (CommandIndex msg) (default [] (StoreSnapshot.Snapshot isnil s)) (a_node a);
        Some (mkApplier node s n)
      else Some (mkApplier (a_node a) s n)
  end.

Fixpoint applyRaftToStore (msgs : list ApplyMsg) (a : Applier) : option Applier :=
  match msgs with
  | [] => Some a
  | msg :: msgs => a ← apply_msg msg a; applyRaftToStore msgs a
  end.

End apply.

(** ** raftStore *)

Inductive raft_store_error :=
| NotLeaderTry (leader : bytes)
| NotLeader
| LeaderChanged (index got want : Z)
| TimedOut (index : Z).

(** Iteration [i] of [waitApplied] finds the clock and the log at [obs i]: the
    other goroutines run meanwhile. The deadline is five seconds after the call.
    Nothing is an iteration count that does not suffice. *)
Fixpoint wait_loop (fuel : nat) (obs : nat → Z * list LogEntry) (i : nat) (logIndex term deadline : Z) :
    option (option raft_store_error) :=
  match fuel with
  | O => None
  | S fuel =>
      let '(now, snap) := obs i in
      if now <? deadline then
        if logIndex <? Zlen snap then
          match log_at snap logIndex with
          | Some e => Some (if Term e =? term then None else Some (LeaderChanged logIndex (Term e) term))
          | None => None
          end
        else wait_loop fuel obs (S i) logIndex term deadline
      else Some (Some (TimedOut logIndex))
  end.

(** In milliseconds. *)
Definition applyTimeout : Z := 5000.
Definition pollInterval : Z := 5.

(** An iteration that goes on sleeps five milliseconds. *)
Definition waitApplied (start : Z) (obs : nat → Z * list LogEntry) (logIndex term : Z) : option (option raft_store_error) :=
  wait_loop (S (Z.to_nat (applyTimeout / pollInterval))) obs 0 logIndex term (start + applyTimeout).

(** The common part of [Put] and [Delete]. The node is read twice, as [before]
    by [State] and as [n] by [Propose], between which other goroutines may run;
    the result is the error, the node after [Propose] and the calls it starts. *)
Definition propose_wait (m : gmap bytes bytes) (before n : Node) (start : Z) (obs : nat → Z * list LogEntry) :
    option (option raft_store_error * Node * list call) :=
  let state := State before in
  if negb (bool_decide (st_Role state = Leader)) then Some (Some (NotLeaderTry (st_LeaderId state)), n, [])
  else
    '(idx, term, ok, n, cs) ← Propose (encode_cmd m) n;
    if negb ok then Some (Some NotLeader, n, cs)
    else r ← waitApplied start obs idx term; Some (r, n, cs).

Definition raft_Put (key value : bytes) := propose_wait (put_map key value).
Definition raft_Delete (key : bytes) := propose_wait (del_map key).
Definition raft_Get (key : bytes) (s : Store) : option bytes := Get key s.
Definition raft_Len (s : Store) : Z := Len s.

(** ** Lemmas *)

(** *** Commands *)

Lemma put_map_members k v : sorted_members (put_map k v) = [(bs "k", k); (bs "op", bs "put"); (bs "v", v)].
Proof. vm_compute. reflexivity. Qed.

Lemma del_map_members k : sorted_members (del_map k) = [(bs "k", k); (bs "op", bs "del")].
Proof. vm_compute. reflexivity. Qed.

(** A map of strings, encoded: an object of escaped strings. *)
Definition strings (l : list (bytes * bytes)) : list (bytes * json) := (λ kv, (escape kv.1, jstr kv.2)) <$> l.

Lemma encode_cmd_json m : encode_cmd m = Some (jraw (jobj (strings (sorted_members m)))).
Proof.
  unfold encode_cmd, Marshal. cbn [c_map c_marshal]. unfold strings.
  assert (H : ∀ l : list (bytes * bytes), mapM (λ kv, pair (escape kv.1) <$> c_marshal c_string kv.2) l =
    Some ((λ kv, (escape kv.1, jstr kv.2)) <$> l)); [|by rewrite H].
  induction l as [|[k v] l IH]; [done|]. cbn [mapM]. rewrite IH. done.
Qed.

Lemma parse_strings l : parse (jraw (jobj (strings l))) = Ret (jobj (strings l)).
Proof.
  apply (parse_wf 1); [|unfold maxNestingDepth; lia]. split; [done|]. unfold strings. apply Forall_fmap, Forall_forall.
  intros [k v] _. split; apply escape_str_ok.
Qed.

(** Decoding the members of a command. *)
Definition set_member (c : Cmd) (kv : bytes * bytes) : Cmd :=
  if bool_decide (kv.1 = bs "op") then mkCmd (repair kv.2) (CKey c) (CVal c)
  else if bool_decide (kv.1 = bs "k") then mkCmd (Op c) (repair kv.2) (CVal c)
  else mkCmd (Op c) (CKey c) (repair kv.2).

Lemma find_op : find_field cmd_fields (bs "op") = Some (field_of (bs "op") c_string Op (λ x c, mkCmd x (CKey c) (CVal c))).
Proof. reflexivity. Qed.
Lemma find_k : find_field cmd_fields (bs "k") = Some (field_of (bs "k") c_string CKey (λ x c, mkCmd (Op c) x (CVal c))).
Proof. reflexivity. Qed.
Lemma find_v : find_field cmd_fields (bs "v") = Some (field_of (bs "v") c_string CVal (λ x c, mkCmd (Op c) (CKey c) x)).
Proof. reflexivity. Qed.

Lemma decode_strings l c :
  Forall (λ kv, kv.1 ∈ [bs "op"; bs "k"; bs "v"]) l →
  c_unmarshal c_Cmd (jobj (strings l)) c = (foldl set_member c l, false).
Proof.
  intros Hl. unfold c_Cmd, jobj. cbn [c_struct c_unmarshal]. revert c. induction Hl as [|[k v] l Hk Hl IH]; intros c; [done|].
  unfold strings. rewrite fmap_cons. fold (strings l). cbn [foldl fst snd] in *. rewrite <-IH. f_equal.
  unfold decode_member, set_member. cbn [fst snd]. rewrite unquote_escape.
  apply elem_of_cons in Hk as [->|Hk]; [|apply elem_of_cons in Hk as [->|Hk]; [|apply list_elem_of_singleton in Hk as ->]].
  - change (repair (bs "op")) with (bs "op"). rewrite find_op. cbn [f_unmarshal field_of c_string c_unmarshal jstr].
    by rewrite unquote_escape.
  - change (repair (bs "k")) with (bs "k"). rewrite find_k. cbn [f_unmarshal field_of c_string c_unmarshal jstr].
    by rewrite unquote_escape.
  - change (repair (bs "v")) with (bs "v"). rewrite find_v. cbn [f_unmarshal field_of c_string c_unmarshal jstr].
    by rewrite unquote_escape.
Qed.

Lemma decode_put k v data :
  encode_cmd (put_map k v) = Some data → Unmarshal c_Cmd data (c_zero c_Cmd) = (mkCmd (bs "put") (repair k) (repair v), false).
Proof.
  rewrite encode_cmd_json, put_map_members. intros H. apply (inj Some) in H. subst data. unfold Unmarshal. rewrite parse_strings, decode_strings; [done|].
  repeat (apply List.Forall_cons; [by apply (bool_decide_unpack _)|]). apply List.Forall_nil.
Qed.

Lemma decode_del k data :
  encode_cmd (del_map k) = Some data → Unmarshal c_Cmd data (c_zero c_Cmd) = (mkCmd (bs "del") (repair k) [], false).
Proof.
  rewrite encode_cmd_json, del_map_members. intros H. apply (inj Some) in H. subst data. unfold Unmarshal. rewrite parse_strings, decode_strings; [done|].
  repeat (apply List.Forall_cons; [by apply (bool_decide_unpack _)|]). apply List.Forall_nil.
Qed.

(** *** Applying *)

(** The record a message leads to, if any. *)
Definition cmd_rec (c : Cmd) : option WRecord :=
  if bool_decide (Op c = bs "put") then Some (mkRec RecordPut (CKey c) (CVal c))
  else if bool_decide (Op c = bs "del") then Some (mkRec RecordDelete (CKey c) [])
  else None.
Definition msg_rec (msg : ApplyMsg) : option WRecord :=
  match Unmarshal c_Cmd (ACommand msg) (c_zero c_Cmd) with (c, false) => cmd_rec c | _ => None end.

(** A store whose log's file does not fail. *)
Definition store_fine (s : Store) : Prop := fault_free (file (Store.log s)) ∧ wb_err (w (Store.log s)) = false.

(** The store after a command. *)
Lemma exec_cmd_fine c s :
  store_fine s →
  let s' := if bool_decide (Op c = bs "put") then (Put (CKey c) (CVal c) s).2
            else if bool_decide (Op c = bs "del") then (Delete (CKey c) s).2 else s in
  data s' = foldl apply_record (data s) (option_list (cmd_rec c)) ∧ store_fine s'.
Proof.
  intros [Hf He]. unfold cmd_rec. destruct (bool_decide (Op c = bs "put")).
  - destruct (sexec_fault_free (SPut (CKey c) (CVal c)) s Hf He) as (_ & H1 & H2 & H3). by split.
  - destruct (bool_decide (Op c = bs "del")); [|by split].
    destruct (sexec_fault_free (SDelete (CKey c)) s Hf He) as (_ & H1 & H2 & H3). by split.
Qed.

Lemma apply_msg_fine isnil msg a :
  store_fine (a_store a) → 0 ≤ CommandIndex msg →
  ∃ a', apply_msg isnil msg a = Some a' ∧ store_fine (a_store a') ∧
    data (a_store a') = foldl apply_record (data (a_store a)) (option_list (msg_rec msg)).
Proof.
  intros Hf Hi. unfold apply_msg, msg_rec. destruct (Unmarshal c_Cmd _ _) as [c [|]]; [by exists a|].
  pose proof (exec_cmd_fine c (a_store a) Hf) as H. cbv zeta in H. set (s := if bool_decide _ then _ else _) in *.
  clearbody s. destruct H as [H1 H2]. destruct (_ =? 0); [|by eexists].
  destruct (TakeSnapshot_total (CommandIndex msg) (default [] (StoreSnapshot.Snapshot isnil s)) (a_node a) Hi) as [[e n'] ->].
  by eexists.
Qed.

Lemma applyRaftToStore_fine isnil msgs a :
  store_fine (a_store a) → Forall (λ m, 0 ≤ CommandIndex m) msgs →
  ∃ a', applyRaftToStore isnil msgs a = Some a' ∧ store_fine (a_store a') ∧
    data (a_store a') = foldl apply_record (data (a_store a)) (omap msg_rec msgs).
Proof.
  intros Hf Hm. revert a Hf. induction Hm as [|msg msgs Hi Hm IH]; intros a Hf; [by exists a|]. cbn [applyRaftToStore].
  destruct (apply_msg_fine isnil msg a Hf Hi) as (a1 & -> & Hf1 & Hd1). cbn [mbind option_bind].
  destruct (IH a1 Hf1) as (a2 & -> & Hf2 & Hd2). exists a2. split; [done|]. split; [done|]. rewrite Hd2, Hd1.
  cbn [omap list_omap]. by destruct (msg_rec msg).
Qed.

(** *** Applying again *)

(** A list of writes sets a key, or leaves every value of it alone. *)
Definition touches (k : bytes) (r : WRecord) : Prop := Key r = k ∧ (Type_ r = RecordPut ∨ Type_ r = RecordDelete).

Lemma key_effect_untouched k rs o : Forall (λ r, ¬ touches k r) rs → foldl (key_effect k) o rs = o.
Proof.
  intros H. revert o. induction H as [|r rs Hr H IH]; intros o; [done|]. cbn [foldl]. rewrite IH.
  unfold key_effect, touches in *. repeat case_bool_decide; try done; exfalso; tauto.
Qed.

Lemma key_effect_touched k rs o o' : Exists (touches k) rs → foldl (key_effect k) o rs = foldl (key_effect k) o' rs.
Proof.
  intros H. revert o o'. induction H as [r rs [Hk Ht]|r rs H IH]; intros o o'; cbn [foldl]; [|apply IH].
  f_equal. unfold key_effect. rewrite bool_decide_eq_true_2 by done. destruct Ht as [Ht|Ht]; rewrite Ht; reflexivity.
Qed.

Lemma reapply d rs qs : qs `prefix_of` rs → foldl apply_record (foldl apply_record d qs) rs = foldl apply_record d rs.
Proof.
  intros [rest ->]. apply map_eq. intros k. rewrite !foldl_apply_lookup.
  assert (Hdec : ∀ r, Decision (touches k r)) by (intros r; unfold touches; apply _).
  destruct (decide (Exists (touches k) (qs ++ rest))) as [H|H]; [by apply key_effect_touched|].
  apply not_Exists_Forall in H; [|done]. apply Forall_app in H as [H1 H2]. by rewrite (key_effect_untouched k qs).
Qed.

(** *** Waiting *)

(** The clock of the polls: five milliseconds pass between two. *)
Definition clock_ok (start : Z) (obs : nat → Z * list LogEntry) : Prop :=
  start ≤ (obs O).1 ∧ ∀ i, (obs i).1 + pollInterval ≤ (obs (S i)).1.

Lemma clock_at start obs i : clock_ok start obs → start + pollInterval * Z.of_nat i ≤ (obs i).1.
Proof. intros [H0 H]. induction i as [|i IH]; [lia|]. specialize (H i). unfold pollInterval in *. lia. Qed.

Lemma wait_loop_returns obs start fuel i logIndex term :
  clock_ok start obs → 0 ≤ logIndex → applyTimeout < pollInterval * (Z.of_nat fuel + Z.of_nat i) →
  (pollInterval * Z.of_nat i ≤ applyTimeout) →
  is_Some (wait_loop fuel obs i logIndex term (start + applyTimeout)).
Proof.
  intros Hc Hi. revert i. induction fuel as [|fuel IH]; intros i Hf Hle; [unfold pollInterval in *; lia|]. cbn [wait_loop].
  pose proof (clock_at start obs i Hc) as Ht. destruct (obs i) as [now snap]. cbn [fst] in Ht.
  destruct (now <? start + applyTimeout) eqn:E; [|by eexists]. destruct (logIndex <? Zlen snap) eqn:El.
  - destruct (log_at_is_Some snap logIndex) as (e & -> & _); [lia|]. by eexists.
  - apply IH; unfold pollInterval, applyTimeout in *; lia.
Qed.

(** The leader's log after a proposal ends with it. *)
Lemma Propose_leader c n :
  role n = Leader → Zlen (log n) < 2 ^ 63 → ∀ r n' cs, Propose c n = Some (r, n', cs) →
  r = (Zlen (log n), currentTerm n, true) ∧ log n' = log n ++ [mkEntry (currentTerm n) c] ∧
  commitIndex n' = commitIndex n ∧ lastApplied n' = lastApplied n.
Proof.
  intros Hr Hl r n' cs. unfold Propose. rewrite bool_decide_eq_true_2 by done. cbn [negb].
  rewrite Zlen_snoc. replace (Zlen (log n) + 1 - 1) with (Zlen (log n)) by lia.
  pose proof (Zlen_nonneg (log n)). rewrite u64_id by lia. unfold persist. cbn [statePath set_indices set_persistent].
  destruct (statePath n); [destruct (RaftNode.next_fault _) as [[|] fl]|];
    (destruct (broadcastAppendEntries _); [|done]); intros [= <- <- <-]; done.
Qed.

Lemma propose_wait_leader m before n start obs err n' cs :
  role before = Leader → role n = Leader → Zlen (log n) < 2 ^ 63 →
  propose_wait m before n start obs = Some (err, n', cs) →
  log n' = log n ++ [mkEntry (currentTerm n) (encode_cmd m)] ∧ commitIndex n' = commitIndex n ∧ lastApplied n' = lastApplied n ∧
  waitApplied start obs (Zlen (log n)) (currentTerm n) = Some err.
Proof.
  intros Hb Hr Hl. unfold propose_wait, State. cbn [st_Role]. rewrite bool_decide_eq_true_2 by done. cbn [negb].
  destruct (Propose (encode_cmd m) n) as [[[r n1] cs1]|] eqn:Ep; [|done]. destruct (Propose_leader _ n Hr Hl _ _ _ Ep) as (-> & H1 & H2 & H3).
  cbn [mbind option_bind negb]. destruct (waitApplied _ _ _ _) as [r|] eqn:Ew; [|done]. cbn [mbind option_bind].
  intros [= <- <- <-]. done.
Qed.

(** The message of an entry that is about to be applied. *)
Lemma applyOne_entry m i e c :
  0 ≤ i < 2 ^ 63 → lastApplied m = i - 1 → log m !! Z.to_nat i = Some e → Command e = Some c →
  applyOne m = Some (Some (mkApply i c), set_commit (commitIndex m) i (commitNotify m) m).
Proof.
  intros Hi Hla He Hc. unfold applyOne. rewrite Hla. replace (u64 (i - 1 + 1)) with i by (rewrite u64_id; lia).
  rewrite log_at_lookup, He by (apply lookup_lt_Some in He; unfold Zlen; lia). cbn [mbind option_bind]. by rewrite Hc.
Qed.

Lemma command_cases k v :
  ∃ cmd, encode_cmd (put_map k v) = Some cmd ∧
    ∀ i, msg_rec (mkApply i cmd) = Some (mkRec RecordPut (repair k) (repair v)).
Proof.
  eexists. split; [apply encode_cmd_json|]. intros i. unfold msg_rec. cbn [ACommand].
  by rewrite (decode_put k v) by apply encode_cmd_json.
Qed.

(** ** Properties *)

(** Commands round trip. A key and a value that are valid UTF-8 come out of
    the log as they went in, for writes and for deletes. *)
Theorem command_roundtrip k v :
  ValidString k = true → ValidString v = true →
  (∃ data, encode_cmd (put_map k v) = Some data ∧ Unmarshal c_Cmd data (c_zero c_Cmd) = (mkCmd (bs "put") k v, false)) ∧
  (∃ data, encode_cmd (del_map k) = Some data ∧ Unmarshal c_Cmd data (c_zero c_Cmd) = (mkCmd (bs "del") k [], false)).
Proof.
  intros Hk Hv. split; eexists; (split; [apply encode_cmd_json|]).
  - rewrite (decode_put k v) by apply encode_cmd_json. by rewrite !repair_valid.
  - rewrite (decode_del k) by apply encode_cmd_json. by rewrite repair_valid.
Qed.

Lemma command_roundtrip_witness :
  (∃ data, encode_cmd (put_map (bs "k") (jtext "a'b")) = Some data ∧
    Unmarshal c_Cmd data (c_zero c_Cmd) = (mkCmd (bs "put") (bs "k") (jtext "a'b"), false)) ∧
  (∃ data, encode_cmd (del_map (bs "k")) = Some data ∧
    Unmarshal c_Cmd data (c_zero c_Cmd) = (mkCmd (bs "del") (bs "k") [], false)).
Proof. apply (command_roundtrip (bs "k") (jtext "a'b")); vm_compute; reflexivity. Defined.

(** Other bytes do not: two keys become one, and two values the same. *)
Example command_binary_collision :
  encode_cmd (put_map [Byte.xfe] [Byte.x80]) = encode_cmd (put_map [Byte.xff] [Byte.xc0]) ∧
  encode_cmd (put_map [Byte.xfe] [Byte.x80]) = encode_cmd (put_map [Byte.xfe] [Byte.xc0]).
Proof. vm_compute. done. Qed.

(** C11: A write reaches every replica's store. Let a leader accept a PUT of a
    key and a value that are valid UTF-8. The command is the last entry of its
    log, and on any replica whose next entry to apply is that one and whose
    store's file does not fail, the apply loop hands it to the store: the key
    then has the value, and no other key changes. *)
Theorem put_reaches_store isnil k v before n start obs err n' cs m a :
  ValidString k = true → ValidString v = true →
  role before = Leader → role n = Leader → 0 < Zlen (log n) < 2 ^ 62 →
  raft_Put k v before n start obs = Some (err, n', cs) →
  log m !! Z.to_nat (Zlen (log n)) = last (log n') → lastApplied m = Zlen (log n) - 1 → store_fine (a_store a) →
  ∃ msg m' a', applyOne m = Some (Some msg, m') ∧ apply_msg isnil msg a = Some a' ∧
    Get k (a_store a') = Some v ∧ ∀ k', k' ≠ k → Get k' (a_store a') = Get k' (a_store a).
Proof.
  intros Hk Hv Hb Hr Hl Hp Hm Hla Hf. destruct (propose_wait_leader _ _ _ _ _ _ _ _ Hb Hr ltac:(lia) Hp) as (Hlog & _ & _ & _).
  rewrite Hlog, last_snoc in Hm. destruct (command_cases k v) as (cmd & Hd & Hrec).
  rewrite (applyOne_entry m (Zlen (log n)) _ cmd ltac:(lia) Hla Hm Hd).
  destruct (apply_msg_fine isnil (mkApply (Zlen (log n)) cmd) a Hf ltac:(cbn; lia)) as (a' & Ha & _ & Hdata).
  eexists _, _, a'. split; [reflexivity|]. split; [exact Ha|]. rewrite Hrec, !repair_valid in Hdata by done.
  change (data (a_store a') = <[k := v]> (data (a_store a))) in Hdata. unfold Get. rewrite Hdata. split; [apply lookup_insert_eq|].
  intros k' Hne. by apply lookup_insert_ne.
Qed.

Definition ex_raft_leader : Node :=
  mkNode (bs "n0") [bs "n1"; bs "n2"] false false 0 0 1 (bs "n0") [mkEntry 0 None] 0 0 RaftNode.Leader (bs "n0") 0
    {[bs "n1" := 1; bs "n2" := 1]} {[bs "n1" := 0; bs "n2" := 0]} false ∅ None None [].
Definition ex_raft_log : list LogEntry := [mkEntry 0 None; mkEntry 1 (encode_cmd (put_map (bs "k") (bs "v")))].
Definition ex_raft_written : Node := set_indices (nextIndex ex_raft_leader) (<[bs "n0" := 1]> (matchIndex ex_raft_leader))
  (set_persistent 1 (bs "n0") ex_raft_log ex_raft_leader).
Definition ex_applier : Applier := mkApplier ex_raft_leader (ex_snap_store ∅) 0.

Lemma ex_raft_put : ∃ cs, raft_Put (bs "k") (bs "v") ex_raft_leader ex_raft_leader 0 (λ _, (1, ex_raft_log)) = Some (None, ex_raft_written, cs).
Proof. eexists. vm_compute. reflexivity. Qed.

Lemma put_reaches_store_witness :
  ∃ msg m' a', applyOne ex_raft_written = Some (Some msg, m') ∧ apply_msg (λ _, false) msg ex_applier = Some a' ∧
    Get (bs "k") (a_store a') = Some (bs "v") ∧
    ∀ k', k' ≠ bs "k" → Get k' (a_store a') = Get k' (a_store ex_applier).
Proof.
  destruct ex_raft_put as [cs Hp].
  apply (put_reaches_store (λ _, false) (bs "k") (bs "v") ex_raft_leader ex_raft_leader 0 (λ _, (1, ex_raft_log)) None
    ex_raft_written cs ex_raft_written ex_applier); try reflexivity; [split; reflexivity|exact Hp|split; [split|]; reflexivity].
Defined.

(** Replicas converge. Apply the same committed messages on two replicas
    that start from the same map and whose disks do not fail; one of them may
    have crashed after some number of messages and apply all of them again to
    what it had. Neither panics, and both stores end with the same map. *)
Theorem replicas_converge isnil isnil' msgs r a b :
  Forall (λ m, 0 ≤ CommandIndex m) msgs → store_fine (a_store a) → store_fine (a_store b) →
  data (a_store b) = foldl apply_record (data (a_store a)) (omap msg_rec (take r msgs)) →
  ∃ a' b', applyRaftToStore isnil msgs a = Some a' ∧ applyRaftToStore isnil' msgs b = Some b' ∧
    data (a_store a') = data (a_store b').
Proof.
  intros Hm Ha Hb Hd. destruct (applyRaftToStore_fine isnil msgs a Ha Hm) as (a' & H1 & _ & H2).
  destruct (applyRaftToStore_fine isnil' msgs b Hb Hm) as (b' & H3 & _ & H4). exists a', b'. split; [done|]. split; [done|].
  rewrite H2, H4, Hd. symmetry. apply reapply. rewrite <-(take_drop r msgs) at 2. rewrite omap_app. by apply prefix_app_r.
Qed.

Lemma replicas_converge_witness :
  let msgs := [mkApply 1 (default [] (encode_cmd (put_map (bs "k") (bs "v")))); mkApply 2 (bs "junk")] in
  ∃ a' b', applyRaftToStore (λ _, true) msgs ex_applier = Some a' ∧
    applyRaftToStore (λ _, false) msgs (mkApplier ex_raft_leader (ex_snap_store {[bs "k" := bs "v"]}) 99) = Some b' ∧
    data (a_store a') = data (a_store b').
Proof.
  apply (replicas_converge (λ _, true) (λ _, false) _ 1 ex_applier (mkApplier ex_raft_leader (ex_snap_store {[bs "k" := bs "v"]}) 99)).
  - repeat (apply List.Forall_cons; [done|]). apply List.Forall_nil.
  - split; [split|]; reflexivity.
  - split; [split|]; reflexivity.
  - vm_compute. reflexivity.
Defined.

(** Waiting ends. However the log changes meanwhile, [waitApplied] returns,
    since its polls are five milliseconds apart and it gives up after five
    seconds; the thousand and one iterations of the model suffice. *)
Theorem wait_applied_returns start obs logIndex term :
  clock_ok start obs → 0 ≤ logIndex → is_Some (waitApplied start obs logIndex term).
Proof.
  intros Hc Hi. apply wait_loop_returns; [done|done|..]; unfold applyTimeout, pollInterval; [|lia].
  change (5000 / 5) with 1000. lia.
Qed.

Lemma wait_applied_returns_witness : is_Some (waitApplied 0 (λ i, (5 * Z.of_nat i, [])) 7 1).
Proof. apply (wait_applied_returns 0 (λ i, (5 * Z.of_nat i, [])) 7 1); [split; [reflexivity|]; cbn; unfold pollInterval; lia|done]. Defined.

(** C39: A write is acknowledged when it is in the leader's own log. If the
    first poll finds the log as the proposal left it, PUT returns success at
    once: nothing has been committed or applied, and no other node has the
    entry. *)
Theorem put_acks_before_commit k v n start obs now r n' cs :
  role n = RaftNode.Leader → Zlen (log n) < 2 ^ 63 →
  Propose (encode_cmd (put_map k v)) n = Some (r, n', cs) → obs O = (now, log n') → now < start + applyTimeout →
  raft_Put k v n n start obs = Some (None, n', cs) ∧ commitIndex n' = commitIndex n ∧ lastApplied n' = lastApplied n.
Proof.
  intros Hr Hl Hp Ho Hnow. destruct (Propose_leader _ n Hr Hl _ _ _ Hp) as (-> & Hlog & H2 & H3). split; [|done].
  unfold raft_Put, propose_wait, State. cbn [st_Role]. rewrite bool_decide_eq_true_2 by done. cbn [negb]. rewrite Hp.
  cbn [mbind option_bind negb]. unfold waitApplied. cbn [wait_loop]. rewrite Ho, Hlog.
  replace (now <? start + applyTimeout) with true by lia. rewrite Zlen_snoc. replace (Zlen (log n) <? Zlen (log n) + 1) with true by lia.
  pose proof (Zlen_nonneg (log n)). rewrite log_at_lookup by (rewrite Zlen_snoc; lia).
  rewrite lookup_app_r by (unfold Zlen; lia). replace (Z.to_nat (Zlen (log n)) - length (log n))%nat with O by (unfold Zlen; lia).
  cbn. by rewrite Z.eqb_refl.
Qed.

Lemma put_acks_before_commit_witness :
  ∃ cs, raft_Put (bs "k") (bs "v") ex_raft_leader ex_raft_leader 0 (λ _, (1, ex_raft_log)) = Some (None, ex_raft_written, cs) ∧
    commitIndex ex_raft_written = commitIndex ex_raft_leader ∧ lastApplied ex_raft_written = lastApplied ex_raft_leader.
Proof.
  eexists. eapply (put_acks_before_commit (bs "k") (bs "v") ex_raft_leader 0 (λ _, (1, ex_raft_log)) 1); reflexivity.
Defined.

(** Such a write can be lost: the leader acknowledges it, and then follows the
    leader of a later term, which never saw it. *)
Example acknowledged_write_lost :
  let other := mkEntry 2 (Some (bs "{}")) in
  match raft_Put (bs "k") (bs "v") ex_raft_leader ex_raft_leader 0 (λ _, (1, ex_raft_log)) with
  | Some (err, n, _) =>
      err = None ∧
      match HandleAppendEntries 9 (mkAE 2 (bs "n1") 0 0 [other] 1) n with
      | Some (reply, n) => aer_Success reply = true ∧ log n = [mkEntry 0 None; other] ∧ commitIndex n = 1
      | None => False
      end
  | None => False
  end.
Proof. vm_compute. done. Qed.

(** A node that is not the leader refuses, and its log stays as it is. *)
Lemma raft_write_refused m before n start obs :
  role before ≠ RaftNode.Leader →
  propose_wait m before n start obs = Some (Some (NotLeaderTry (leaderId before)), n, []).
Proof. intros Hr. unfold propose_wait, State. cbn [st_Role st_LeaderId]. by rewrite bool_decide_eq_false_2. Qed.

Lemma raft_write_deposed m before n start obs :
  role before = RaftNode.Leader → role n ≠ RaftNode.Leader → propose_wait m before n start obs = Some (Some NotLeader, n, []).
Proof.
  intros Hb Hr. unfold propose_wait, State, Propose. cbn [st_Role]. rewrite bool_decide_eq_true_2 by done. cbn [negb].
  by rewrite bool_decide_eq_false_2.
Qed.

(** Errors of the local store are ignored: a message whose write fails counts
    as applied, and this replica's map stays behind the others. *)
Example apply_ignores_store_error :
  let s := mkStore ∅ (Wal.Open (mkFile [] 0 [FFail 0] false)) in
  match apply_msg (λ _, false) (mkApply 1 (default [] (encode_cmd (put_map (bs "k") (bs "v"))))) (mkApplier ex_raft_leader s 0) with
  | Some a => applied a = 1 ∧ Get (bs "k") (a_store a) = None
  | None => False
  end.
Proof. vm_compute. done. Qed.
