(* ===== verification/RaftReplicas.v ===== *)
(** * RaftReplicas: the stores of a cluster

    Composition of RaftSafety with the store of cmd/kvengine/main.go. Every
    node sends the committed commands to its own store, from the start after
    each restart. As long as no node votes twice in a term, the messages of
    two nodes never contradict each other, in any of their lives, and two
    stores that have got equally far hold the same map. *)
From stdpp Require Import prelude gmap list.
From Stdlib Require Import ZArith Lia Strings.Byte.
From S2P Require Import Prelude GoJson GoJsonTypes Wal Store RaftNode RaftCluster RaftSteps RaftLogs RaftSafety StoreSnapshot Kvengine.
Local Open Scope Z_scope.

(** ** The messages of a node *)

Definition msgs_of (i : bytes) (ap : list (bytes * ApplyMsg)) : list ApplyMsg :=
  omap (λ x : bytes * ApplyMsg, if bool_decide (x.1 = i) then Some x.2 else None) ap.

Definition restarts (i : bytes) (ev : event) : bool :=
  match ev with ERestart j => bool_decide (j = i) | _ => false end.

(** The messages that node [i] has sent since it last started; [acc] are those
    sent so far. *)
Fixpoint since_start (i : bytes) (evs : list event) (c : Cluster) (acc : list ApplyMsg) : list ApplyMsg :=
  match evs with
  | [] => acc
  | ev :: evs =>
      match step ev c with
      | Ret c' => since_start i evs c'
          (if restarts i ev then [] else acc ++ msgs_of i (drop (length (RaftCluster.applied c)) (RaftCluster.applied c')))
      | _ => acc
      end
  end.

(** The commands of a log up to index [k]. *)
Definition entry_msg (l : list LogEntry) (j : nat) : option ApplyMsg :=
  e ← l !! j; (λ x : bytes, mkApply (Z.of_nat j) x) <$> Command e.
Definition log_msgs (l : list LogEntry) (k : nat) : list ApplyMsg := omap (entry_msg l) (seq 1 k).

Lemma log_msgs_agree l l' k : agree k l l' → log_msgs l k = log_msgs l' k.
Proof.
  intros [_ H]. unfold log_msgs.
  assert (Hall : Forall (λ j, (j ≤ k)%nat) (seq 1 k)) by (apply Forall_forall; intros j Hj%elem_of_seq; lia).
  induction Hall as [|j js Hj _ IH]; [done|]. cbn. unfold entry_msg at 1 2. rewrite (H j Hj). destruct (_ : option ApplyMsg); [f_equal|]; exact IH.
Qed.

Lemma log_msgs_S l k : log_msgs l (S k) = log_msgs l k ++ match entry_msg l (S k) with Some a => [a] | None => [] end.
Proof. unfold log_msgs. rewrite seq_S, omap_app. cbn. by destruct (entry_msg l (S k)). Qed.

Lemma log_msgs_prefix l j k : (j ≤ k)%nat → log_msgs l j `prefix_of` log_msgs l k.
Proof.
  induction 1 as [|k Hjk IH]; [done|]. rewrite log_msgs_S. by apply prefix_app_r.
Qed.

Lemma log_msgs_index l k : Forall (λ m, 0 ≤ CommandIndex m) (log_msgs l k).
Proof.
  apply Forall_forall. intros m (j & _ & Hm)%list_elem_of_omap. unfold entry_msg in Hm.
  destruct (l !! j) as [e|]; [|done]. cbn in Hm. destruct (Command e); [|done]. injection Hm as <-. cbn. lia.
Qed.

Lemma msgs_of_other i ap : Forall (λ x : bytes * ApplyMsg, x.1 ≠ i) ap → msgs_of i ap = [].
Proof. induction 1 as [|x ap Hx _ IH]; [done|]. cbn. rewrite bool_decide_eq_false_2 by done. exact IH. Qed.

(** ** Every life of a node sends its committed commands, in order *)

(** The messages sent by a node that is alive. *)
Definition caught_up (i : bytes) (c : Cluster) (ms : list ApplyMsg) : Prop :=
  ∀ n, nodes c !! i = Some n → lastApplied n ≤ commitIndex n ∧ ms = log_msgs (RaftNode.log n) (Z.to_nat (lastApplied n)).

Section one_step.
Context (ids : list bytes) (T : leaders) (A : acks) (evt : event) (c c' : Cluster) (i : bytes) (n n' : Node).
Context (bl : list (bytes * Z * bytes)) (ak : option (Z * Z)) (ap : list (bytes * ApplyMsg)).
Context (Hr : reach ids T A c) (Hr' : inv ids (nodes c') (net c')) (Hst : stepped evt c c' i n n' bl ak ap).

Lemma stepped_new_applied : drop (length (RaftCluster.applied c)) (RaftCluster.applied c') = ap.
Proof. rewrite (s_applied Hst). apply drop_app_length. Qed.

Lemma stepped_tags : Forall (λ x : bytes * ApplyMsg, x.1 = i) ap.
Proof.
  destruct (s_lives Hst) as [(_ & _ & ->)|[(_ & _ & _ & _ & _ & e & _ & ->)|(_ & _ & ->)]]; try done.
  destruct (Command e); [|done]. by apply Forall_singleton.
Qed.

Lemma restarts_true j ev : restarts j ev = true ↔ ev = ERestart j.
Proof. destruct ev; cbn; try done. rewrite bool_decide_eq_true. split; [by intros ->|by intros [= ->]]. Qed.

Lemma restarts_false j ev : (∀ k, ev ≠ ERestart k) → restarts j ev = false.
Proof. destruct ev; cbn; try done. intros H. by destruct (H i0). Qed.

(** The messages after the step, at the node that steps. *)
Lemma caught_up_self ms : caught_up i c ms → caught_up i c' (if restarts i evt then [] else ms ++ msgs_of i ap).
Proof.
  intros Hcu m Hm. rewrite (s_nodes Hst), lookup_insert_eq in Hm. injection Hm as <-.
  destruct Hr as [Hinv _ HL HA]. pose proof (s_node Hst) as Hi. destruct (Hcu n Hi) as [Hle ->].
  assert (Hi' : nodes c' !! i = Some n') by (rewrite (s_nodes Hst); apply lookup_insert_eq).
  destruct (proj1 (proj2 Hr') i n' Hi') as (_ & _ & _ & _ & _ & _ & Hc0 & _).
  pose proof (commit_stable ids T A evt c c' i n n' bl ak ap HL HA Hst Hinv) as Hstab.
  pose proof (commit_mono ids T A evt c c' i n n' bl ak ap HA Hst) as Hmono.
  pose proof (ai_la HA i n Hi) as Hla.
  destruct (s_lives Hst) as [(Hev & Hla' & ->)|[(Hev & Hc & Hlt & Hla' & Hlog & e & He & ->)|(Hev & Hla' & ->)]].
  - rewrite (proj2 (restarts_true i evt) Hev), Hla'. by split.
  - rewrite restarts_false by done.
    destruct (proj1 (proj2 Hinv) i n Hi) as (_ & _ & _ & _ & Hlen & _). destruct Hstab as [Hb _].
    rewrite u64_id in Hla' by (unfold Zlen in Hlen; lia). split; [lia|]. rewrite Hla'.
    replace (Z.to_nat (lastApplied n + 1)) with (S (Z.to_nat (lastApplied n))) in * by lia.
    rewrite log_msgs_S, Hlog. f_equal. rewrite Hla' in He. replace (Z.to_nat (lastApplied n + 1)) with (S (Z.to_nat (lastApplied n))) in He by lia.
    unfold entry_msg. rewrite He. cbn [mbind option_bind]. destruct (Command e) as [x|]; cbn; [|done].
    rewrite bool_decide_eq_true_2 by done. do 2 f_equal. lia.
  - rewrite restarts_false by done. rewrite Hla'. cbn. rewrite app_nil_r.
    specialize (Hmono (Hev i)). split; [lia|]. apply log_msgs_agree. eapply agree_le; [|exact Hstab]. lia.
Qed.

Lemma caught_up_step j ms : caught_up j c ms → caught_up j c' (if restarts j evt then [] else ms ++ msgs_of j ap).
Proof.
  destruct (decide (j = i)) as [->|Hne]; [apply caught_up_self|]. intros Hcu m Hm.
  rewrite (s_nodes Hst), lookup_insert_ne in Hm by done.
  rewrite msgs_of_other, app_nil_r by (eapply Forall_impl; [apply stepped_tags|]; cbn; congruence).
  destruct (restarts j evt) eqn:E; [|by apply Hcu]. apply restarts_true in E.
  destruct (s_lives Hst) as [(Hev & _)|[(Hev & _)|(Hev & _)]]; [congruence|by destruct (Hev j)..].
Qed.

End one_step.

Lemma run_caught_up ids evs T A c c' i ms :
  NoDup ids → no_snapshots evs → reach ids T A c → caught_up i c ms → run evs c = Ret c' → one_vote (ballots c') →
  ∃ T' A', reach ids T' A' c' ∧ extends ids T A T' A' ∧ caught_up i c' (since_start i evs c ms).
Proof.
  intros Hids Hsn. revert T A c ms. induction Hsn as [|ev evs Hev Hsn IH]; intros T A c ms Hr Hcu; cbn [run since_start].
  { intros [= <-] _. exists T, A. split; [done|]. split; [apply extends_refl|done]. }
  destruct (step_inv ids ev c Hev (r_inv _ _ _ _ Hr)) as [Hg|(j & -> & ->)]; [|done].
  destruct (step ev c) as [c1| |] eqn:Es; [|done..]. cbn [mbind outcome_bind]. intros Hrun Hone.
  assert (Hone1 : one_vote (ballots c1)).
  { intros v t a b Ha Hb. eapply Hone; (eapply run_ballots; [exact Hsn|exact Hg|done..]). }
  destruct (step_reach ids ev T A c c1 Hids Hev Hr Es Hone1) as [[Hl Hr1]|(j & n & n' & bl & ak & ap & Hst & Hr1 & He1)].
  - destruct Hl as ([k ->] & Hn & _ & Ha & _). apply (IH T A c1); try done. cbn [restarts]. rewrite Ha, drop_all, app_nil_r.
    intros n. rewrite Hn. apply Hcu.
  - destruct (IH _ _ c1 (if restarts i ev then [] else ms ++ msgs_of i ap) Hr1) as (T2 & A2 & Hr2 & He2 & Hcu2); try done.
    { eapply caught_up_step; [exact Hr|exact Hg|exact Hst|done]. }
    rewrite (stepped_new_applied _ _ _ _ _ _ _ _ _ Hst). exists T2, A2. split; [done|]. split; [by eapply extends_trans|done].
Qed.

Lemma init_caught_up ids i : caught_up i (init ids) [].
Proof. intros n Hn%elem_of_list_to_map_2. by apply list_elem_of_fmap in Hn as (x & [= -> ->] & _). Qed.

Lemma since_start_app i evs1 evs2 c c1 ms :
  run evs1 c = Ret c1 → since_start i (evs1 ++ evs2) c ms = since_start i evs2 c1 (since_start i evs1 c ms).
Proof.
  revert c ms. induction evs1 as [|ev evs1 IH]; intros c ms; cbn [run since_start app]; [by intros [= ->]|].
  destruct (step ev c) as [c2| |]; [|done..]. cbn. apply IH.
Qed.

Lemma run_app evs1 evs2 c : run (evs1 ++ evs2) c = (c1 ← run evs1 c; run evs2 c1).
Proof. revert c. induction evs1 as [|ev evs1 IH]; intros c; [done|]. cbn. destruct (step ev c); [|done..]. cbn. apply IH. Qed.

(** What is committed at one time is committed later. *)
Lemma settled_extends ids T A T' A' t l z :
  extends ids T A T' A' → settled ids T A t l z → settled ids T' A' t l z.
Proof.
  intros [Hg Hc] [->|(t0 & k0 & o0 & l0 & Ht & Hcm & HT & Hz & Ha)]; [by left|]. right.
  destruct (Hg _ _ _ HT) as (l0' & HT' & Hp). exists t0, k0, o0, l0'. split_and!; auto.
  eapply agree_trans; [done|]. apply agree_prefix; [done|]. by apply agree_sym in Ha as [? _].
Qed.

(** Committed logs have the same commands as far as both are committed. *)
Lemma settled_msgs ids T A c t t' l l' z z' j k :
  ainv ids T A c → settled ids T A t l z → settled ids T A t' l' z' → Z.of_nat j ≤ z → Z.of_nat k ≤ z' → (j ≤ k)%nat →
  log_msgs l j `prefix_of` log_msgs l' k.
Proof.
  intros HA Hs Hs' Hj Hk Hjk. destruct j as [|j]; [apply prefix_nil|].
  destruct Hs as [?|(t0 & k0 & o0 & l0 & _ & Hc & HT & Hz & Ha)]; [lia|].
  destruct Hs' as [?|(t0' & k0' & o0' & l0' & _ & Hc' & HT' & Hz' & Ha')]; [lia|].
  etrans; [|by apply log_msgs_prefix]. rewrite (log_msgs_agree l l' (S j)); [done|].
  eapply agree_trans; [eapply agree_le; [|exact Ha]; lia|].
  eapply agree_trans; [eapply (committed_same ids T A c t0 t0' k0 k0'); eauto; lia|]. apply agree_sym. eapply agree_le; [|exact Ha']. lia.
Qed.

(** What node [i] sent in a life that ended after [evs1] is a prefix of what
    node [j] has sent in its present life, if it has got as far. *)
Lemma lives_prefix ids evs1 evs2 c1 c i j n m :
  NoDup ids → no_snapshots (evs1 ++ evs2) → run evs1 (init ids) = Ret c1 → run evs2 c1 = Ret c → one_vote (ballots c) →
  nodes c1 !! i = Some n → nodes c !! j = Some m → lastApplied n ≤ lastApplied m →
  since_start i evs1 (init ids) [] `prefix_of` since_start j (evs1 ++ evs2) (init ids) [].
Proof.
  intros Hids Hsn Hr1 Hr2 Hone Hn Hm Hle. pose proof (proj1 (Forall_app _ _ _) Hsn) as [Hsn1 Hsn2].
  pose proof (run_inv ids evs1 _ _ Hsn1 (init_inv ids Hids) Hr1) as Hinv1.
  assert (Hone1 : one_vote (ballots c1)) by (intros v t a b Ha Hb; eapply Hone; (eapply run_ballots; [exact Hsn2|exact Hinv1|done..])).
  destruct (run_caught_up ids evs1 _ _ _ _ i [] Hids Hsn1 (init_reach ids Hids) (init_caught_up ids i) Hr1 Hone1) as (T1 & A1 & HR1 & _ & Hi).
  destruct (run_reach_from ids evs2 _ _ _ _ Hids Hsn2 HR1 Hr2 Hone) as (T2 & A2 & HR2 & He).
  destruct (run_caught_up ids (evs1 ++ evs2) _ _ _ c j [] Hids Hsn (init_reach ids Hids) (init_caught_up ids j)) as (_ & _ & _ & _ & Hj); [by rewrite run_app, Hr1|done|].
  destruct (Hi n Hn) as [Hln ->]. destruct (Hj m Hm) as [Hlm ->].
  pose proof (ai_la (r_ainv _ _ _ _ HR1) i n Hn). pose proof (ai_la (r_ainv _ _ _ _ HR2) j m Hm).
  eapply (settled_msgs ids T2 A2 c); [apply HR2|eapply settled_extends, (ai_commit (r_ainv _ _ _ _ HR1)); done
    |by eapply (ai_commit (r_ainv _ _ _ _ HR2))|lia..].
Qed.

(** ** The stores *)

(** Messages that the store of [i] got in a life of [i] that ended, with no
    more applied than [z]. *)
Definition earlier (ids : list bytes) (evs : list event) (i : bytes) (z : Z) (ms : list ApplyMsg) : Prop :=
  ∃ evs1 evs2 c1 n1, evs = evs1 ++ evs2 ∧ run evs1 (init ids) = Ret c1 ∧ nodes c1 !! i = Some n1 ∧
    lastApplied n1 ≤ z ∧ ms `prefix_of` since_start i evs1 (init ids) [].

Lemma omap_prefix (ms ms' : list ApplyMsg) : ms `prefix_of` ms' → omap msg_rec ms `prefix_of` omap msg_rec ms'.
Proof. intros [r ->]. rewrite omap_app. by apply prefix_app_r. Qed.

(** Applying commands again, however often and however far each time. *)
Lemma reapply_all d (mss : list (list ApplyMsg)) ms :
  Forall (λ q, q `prefix_of` ms) mss →
  foldl apply_record (foldl apply_record d (omap msg_rec (concat mss))) (omap msg_rec ms) = foldl apply_record d (omap msg_rec ms).
Proof.
  intros H. revert d. induction H as [|q mss Hq _ IH]; intros d; [done|]. cbn [concat].
  rewrite omap_app, foldl_app, IH. by apply reapply, omap_prefix.
Qed.

Lemma log_msgs_length l k : (length (log_msgs l k) ≤ k)%nat.
Proof.
  induction k as [|k IH]; [done|]. rewrite log_msgs_S, length_app. destruct (entry_msg l (S k)); cbn; lia.
Qed.

(** Fewer than a hundred commands: no snapshot is taken. *)
Lemma apply_no_snapshot isnil ms a a' :
  0 ≤ applied a → applied a + Zlen ms < snapshotEvery → applyRaftToStore isnil ms a = Some a' → a_node a' = a_node a.
Proof.
  revert a. induction ms as [|m ms IH]; intros a Ha Hs; cbn [applyRaftToStore]; [by intros [= <-]|].
  rewrite Zlen_cons in Hs. pose proof (Zlen_nonneg ms). unfold snapshotEvery in *. unfold apply_msg at 1.
  destruct (Unmarshal _ _ _) as [cmd [|]]; cbn [mbind option_bind]; [apply IH; lia|].
  replace ((applied a + 1) mod snapshotEvery =? 0) with false.
  2: { unfold snapshotEvery. rewrite Z.mod_small by lia. lia. }
  cbn [mbind option_bind]. intros H'. apply IH in H'; [done|cbn; lia..].
Qed.

(** The store of a node that has applied [n]'s messages to what earlier lives
    left. *)
Lemma life_store isnil ids evs c i n Ps d a :
  NoDup ids → no_snapshots evs → run evs (init ids) = Ret c → one_vote (ballots c) → nodes c !! i = Some n →
  Forall (earlier ids evs i (lastApplied n)) Ps → store_fine (a_store a) → applied a = 0 → lastApplied n < snapshotEvery →
  data (a_store a) = foldl apply_record d (omap msg_rec (concat Ps)) →
  ∃ a', applyRaftToStore isnil (since_start i evs (init ids) []) a = Some a' ∧ a_node a' = a_node a ∧
    data (a_store a') = foldl apply_record d (omap msg_rec (since_start i evs (init ids) [])).
Proof.
  intros Hids Hsn Hr Hone Hn HP Hf Ha Hs Hd. set (ms := since_start i evs (init ids) []) in *.
  destruct (run_caught_up ids evs _ _ _ _ i [] Hids Hsn (init_reach ids Hids) (init_caught_up ids i) Hr Hone) as (T & A & HR & _ & Hcu).
  destruct (Hcu n Hn) as [_ Hms]. fold ms in Hms. pose proof (ai_la (r_ainv _ _ _ _ HR) i n Hn) as Hla.
  destruct (applyRaftToStore_fine isnil ms a Hf) as (a' & Happ & _ & Hd'); [rewrite Hms; apply log_msgs_index|].
  exists a'. split; [done|]. split.
  - eapply apply_no_snapshot; [| |done]; rewrite Ha; [lia|]. rewrite Hms. unfold Zlen.
    pose proof (log_msgs_length (RaftNode.log n) (Z.to_nat (lastApplied n))). lia.
  - rewrite Hd', Hd. apply reapply_all. eapply Forall_impl; [done|]. cbn.
    intros q (evs1 & evs2 & c1 & n1 & -> & Hr1 & Hn1 & Hle & Hq). rewrite run_app, Hr1 in Hr. etrans; [done|].
    by eapply lives_prefix.
Qed.

(** ** Properties *)

(** A writes a key and B stores it; B crashes after applying it, starts again
    and applies it a second time. *)
Definition ex_put : option bytes := encode_cmd (put_map (bs "k") (bs "v")).
Definition ex_before_crash : list event :=
  ex_one_leader ++ [EPropose A ex_put; EDeliver 3 310; EDeliver 4 311; EApply A; EHeartbeat A; EDeliver 4 320; EApply B].
Definition ex_replicated : list event :=
  ex_before_crash ++ [ERestart B; EHeartbeat A; EDeliver 6 400; EApply B].
Definition ex_msg : ApplyMsg := mkApply 1 (default [] ex_put).

(** C8: The stores of a cluster agree. As long as no node has voted twice in a
    term and fewer than a hundred commands are applied, so that no snapshot is
    taken: let each of two nodes apply the messages of its present life to a
    store that holds whatever any of its earlier lives had applied, to the same
    initial map and never further than now, and whose file does not fail. If
    both have applied up to the same index, both stores hold the same map. *)
Theorem cluster_stores_agree isnil isnil' ids evs c i j n m Ps Qs d a b :
  NoDup ids → no_snapshots evs → run evs (init ids) = Ret c → one_vote (ballots c) →
  nodes c !! i = Some n → nodes c !! j = Some m → lastApplied n = lastApplied m → lastApplied n < snapshotEvery →
  Forall (earlier ids evs i (lastApplied n)) Ps → Forall (earlier ids evs j (lastApplied m)) Qs →
  store_fine (a_store a) → store_fine (a_store b) → applied a = 0 → applied b = 0 →
  data (a_store a) = foldl apply_record d (omap msg_rec (concat Ps)) →
  data (a_store b) = foldl apply_record d (omap msg_rec (concat Qs)) →
  ∃ a' b', applyRaftToStore isnil (since_start i evs (init ids) []) a = Some a' ∧
    applyRaftToStore isnil' (since_start j evs (init ids) []) b = Some b' ∧
    a_node a' = a_node a ∧ a_node b' = a_node b ∧ data (a_store a') = data (a_store b').
Proof.
  intros Hids Hsn Hr Hone Hn Hm Heq Hs HP HQ Hfa Hfb Ha Hb Hda Hdb.
  destruct (life_store isnil ids evs c i n Ps d a) as (a' & H1 & H2 & H3); try done.
  destruct (life_store isnil' ids evs c j m Qs d b) as (b' & H4 & H5 & H6); try done; [lia|].
  exists a', b'. split_and!; try done. rewrite H3, H6. do 2 f_equal. apply (anti_symm prefix).
  - rewrite <-(app_nil_r evs) at 2. eapply (lives_prefix ids evs [] c c i j n m); rewrite ?app_nil_r; try done. lia.
  - rewrite <-(app_nil_r evs) at 2. eapply (lives_prefix ids evs [] c c j i m n); rewrite ?app_nil_r; try done. lia.
Qed.

Lemma ex_replicated_run :
  ∃ c, run ex_replicated (init [A; B; C]) = Ret c ∧
    (lastApplied <$> nodes c !! A = Some 1 ∧ lastApplied <$> nodes c !! B = Some 1) ∧
    ballots c = [(A, 1, A); (B, 1, A)].
Proof.
  apply (run_check ex_replicated (init [A; B; C]) (λ c,
    (lastApplied <$> nodes c !! A = Some 1 ∧ lastApplied <$> nodes c !! B = Some 1) ∧ ballots c = [(A, 1, A); (B, 1, A)])).
  vm_compute. reflexivity.
Qed.

Lemma ex_before_crash_run :
  ∃ c, run ex_before_crash (init [A; B; C]) = Ret c ∧ lastApplied <$> nodes c !! B = Some 1.
Proof.
  apply (run_check ex_before_crash (init [A; B; C]) (λ c, lastApplied <$> nodes c !! B = Some 1)). vm_compute. reflexivity.
Qed.

Lemma last_applied_at c (i : bytes) z : lastApplied <$> nodes c !! i = Some z → ∃ n, nodes c !! i = Some n ∧ lastApplied n = z.
Proof. destruct (nodes c !! i) as [n|]; [|done]. intros [= <-]. eauto. Qed.

Lemma cluster_stores_agree_witness :
  ∃ a' b', applyRaftToStore (λ _, true) (since_start A ex_replicated (init [A; B; C]) [])
      (mkApplier ex_raft_leader (ex_snap_store ∅) 0) = Some a' ∧
    applyRaftToStore (λ _, false) (since_start B ex_replicated (init [A; B; C]) [])
      (mkApplier ex_raft_leader (ex_snap_store {[bs "k" := bs "v"]}) 0) = Some b' ∧
    data (a_store a') = data (a_store b').
Proof.
  destruct ex_replicated_run as (c & Hc & [HA HB] & Hbl). destruct ex_before_crash_run as (c1 & Hc1 & HB1).
  apply last_applied_at in HA as (n & En & HA). apply last_applied_at in HB as (m & Em & HB).
  apply last_applied_at in HB1 as (m1 & Em1 & HB1).
  destruct (cluster_stores_agree (λ _, true) (λ _, false) [A; B; C] ex_replicated c A B n m [] [[ex_msg]] ∅
    (mkApplier ex_raft_leader (ex_snap_store ∅) 0) (mkApplier ex_raft_leader (ex_snap_store {[bs "k" := bs "v"]}) 0))
    as (a' & b' & H1 & H2 & _ & _ & H3); try assumption; try reflexivity.
  - exact ex_ids.
  - apply no_snapshots_check. reflexivity.
  - rewrite Hbl. intros v t x y Hx%list_elem_of_In Hy%list_elem_of_In. cbn in Hx, Hy.
    destruct Hx as [Hx|[Hx|[]]], Hy as [Hy|[Hy|[]]]; congruence.
  - lia.
  - rewrite HA. reflexivity.
  - constructor.
  - apply List.Forall_cons; [|apply List.Forall_nil]. exists ex_before_crash, [ERestart B; EHeartbeat A; EDeliver 6 400; EApply B], c1, m1.
    split; [reflexivity|]. split; [exact Hc1|]. split; [exact Em1|]. split; [lia|]. vm_compute. exists []. reflexivity.
  - split; [split|]; reflexivity.
  - split; [split|]; reflexivity.
  - exists a', b'. split; [exact H1|]. split; [exact H2|exact H3].
Defined.
