(* ===== verification/Kvmain.v ===== *)
(** * Kvmain: the command line of cmd/kvengine/main.go

    [main] with its two modes: one command or a server on a single store, and a
    node of a Raft cluster, whose flags and peer list are parsed here and which
    is started on the files of its data directory. A run of the program ends
    with an exit code and what it printed, or goes on serving. *)
From stdpp Require Import prelude gmap.
From Stdlib Require Import ZArith Lia Strings.Byte.
From S2P Require Import Prelude GoIO GoText GoUtf8 GoJson GoJsonTypes Wal Store StoreSnapshot Server Listeners ServerLife.
From S2P Require Import RaftNode RaftWire RaftPersist RaftTransport RaftTyped TcpTransport Kvengine.
Local Open Scope Z_scope.

(** ** strings, path/filepath *)

(** [strings.Split(s, sep)] for a separator of one byte. *)
Fixpoint split_go (sep : Byte.byte) (cur s : bytes) : list bytes :=
  match s with
  | [] => [cur]
  | b :: s => if bool_decide (b = sep) then cur :: split_go sep [] s else split_go sep (cur ++ [b]) s
  end.
Definition Split (s : bytes) (sep : Byte.byte) : list bytes := split_go sep [] s.

(** [strings.SplitN(s, sep, 2)]. *)
Fixpoint split2_go (sep : Byte.byte) (cur s : bytes) : list bytes :=
  match s with
  | [] => [cur]
  | b :: s => if bool_decide (b = sep) then [cur; s] else split2_go sep (cur ++ [b]) s
  end.
Definition SplitN2 (s : bytes) (sep : Byte.byte) : list bytes := split2_go sep [] s.

(** [strings.TrimSpace]: how many bytes the leading spaces have. *)
Fixpoint spaces (l : list (Z * nat * Byte.byte)) : nat :=
  match l with
  | (r, n, _) :: l => if IsSpace r then (n + spaces l)%nat else O
  | [] => O
  end.
Definition TrimSpace (s : bytes) : bytes :=
  let s := drop (spaces (runes 0 s)) s in
  take (length s - spaces (reverse (runes 0 s))) s.

(** [filepath.Clean] on Unix: the components that remain, last first. *)
Definition clean_step (rooted : bool) (acc : list bytes) (c : bytes) : list bytes :=
  if bool_decide (c = []) || bool_decide (c = bs ".") then acc
  else if bool_decide (c = bs "..") then
    match acc with
    | d :: acc' => if bool_decide (d = bs "..") then c :: acc else acc'
    | [] => if rooted then [] else [c]
    end
  else c :: acc.

Fixpoint join_with (sep : bytes) (l : list bytes) : bytes :=
  match l with
  | [] => []
  | [x] => x
  | x :: l => x ++ sep ++ join_with sep l
  end.

Definition Clean (path : bytes) : bytes :=
  let rooted := match path with Byte.x2f :: _ => true | _ => false end in
  let cs := reverse (foldl (clean_step rooted) [] (Split path Byte.x2f)) in
  let out := (if rooted then [Byte.x2f] else []) ++ join_with [Byte.x2f] cs in
  match out with [] => bs "." | _ => out end.

(** [filepath.Join] of two elements, the second not empty. *)
Definition Join (dir name : bytes) : bytes :=
  match dir with [] => Clean name | _ => Clean (dir ++ [Byte.x2f] ++ name) end.

(** ** The end of a process *)

Inductive message := MUsage | MOpen (e : store_error) | MPut (e : walop_error) | MDelete (e : walop_error) | MServe
  | MFlags | MMkdir | MBadPeer (spec : bytes) | MRaftNode (e : restore_error).

Record Ending := mkEnd {
  code : Z;
  stdout : bytes;
  stderr : option message;
  wal_file : option File       (* the log file afterwards *)
}.

Definition newline : bytes := [Byte.x0a].

(** ** runSingleNode *)

Section single.
Context (errText : walop_error → bytes) (upper : Z → Z) (print : Z → bool).
(** Which addresses can be bound, and what happens while the server serves. *)
Context (listens : bytes → bool) (serving : list event).

(** The deferred [s.Close()] runs when the function returns, not on
    [os.Exit]. *)
Definition returns (out : bytes) (s : Store) : Ending :=
  mkEnd 0 out None (Some (file (Store.log (Store.Close s).2))).
Definition exits (c : Z) (m : message) (s : Store) : Ending := mkEnd c [] (Some m) (Some (file (Store.log s))).

Definition run_cmd (cmd : bytes) (rest : list bytes) (s : Store) : Ending :=
  if bool_decide (cmd = bs "serve") then
    match rest with
    | [a] =>
        match ServerLife.ListenAndServe listens a (ServerLife.New s) with
        | Some srv => exits 1 MServe (ServerLife.store (ServerLife.srv_ (ServerLife.run errText upper print serving (ServerLife.mkWorld srv [] []))))
        | None => exits 1 MServe s
        end
    | _ => exits 2 MUsage s
    end
  else if bool_decide (cmd = bs "put") then
    match rest with
    | [k; v] => match Put k v s with (Some e, s) => exits 1 (MPut e) s | (None, s) => returns (bs "OK" ++ newline) s end
    | _ => exits 2 MUsage s
    end
  else if bool_decide (cmd = bs "get") then
    match rest with
    | [k] => match Get k s with None => returns (bs "(nil)" ++ newline) s | Some v => returns (v ++ newline) s end
    | _ => exits 2 MUsage s
    end
  else if bool_decide (cmd = bs "delete") then
    match rest with
    | [k] => match Delete k s with (Some e, s) => exits 1 (MDelete e) s | (None, s) => returns (bs "OK" ++ newline) s end
    | _ => exits 2 MUsage s
    end
  else exits 2 MUsage s.

(** [d] is the log file at [walPath]. *)
Definition runSingleNode (d : Disk) (args : list bytes) : outcome () Ending :=
  match args with
  | [] => Ret (mkEnd 2 [] (Some MUsage) (d_file d))
  | cmd :: rest =>
      match Store.Open d with
      | Panic => Panic
      | Err e => Ret (mkEnd 1 [] (Some (MOpen e)) (d_file d))
      | Ret s => Ret (run_cmd cmd rest s)
      end
  end.

End single.

(** ** Flags *)

Record RaftFlags := mkFlags { fl_id : bytes; fl_peers : bytes; fl_raftAddr : bytes; fl_kvAddr : bytes; fl_dataDir : bytes }.

Definition default_flags : RaftFlags := mkFlags [] [] [] (bs ":6380") (bs ".").

(** The flag's variable, set to a value. *)
Definition set_flag (name value : bytes) (f : RaftFlags) : option RaftFlags :=
  if bool_decide (name = bs "id") then Some (mkFlags value (fl_peers f) (fl_raftAddr f) (fl_kvAddr f) (fl_dataDir f))
  else if bool_decide (name = bs "peers") then Some (mkFlags (fl_id f) value (fl_raftAddr f) (fl_kvAddr f) (fl_dataDir f))
  else if bool_decide (name = bs "raft-addr") then Some (mkFlags (fl_id f) (fl_peers f) value (fl_kvAddr f) (fl_dataDir f))
  else if bool_decide (name = bs "kv-addr") then Some (mkFlags (fl_id f) (fl_peers f) (fl_raftAddr f) value (fl_dataDir f))
  else if bool_decide (name = bs "data-dir") then Some (mkFlags (fl_id f) (fl_peers f) (fl_raftAddr f) (fl_kvAddr f) value)
  else None.

(** The text of a flag: its name and, after an equals sign that is not the
    first byte, its value. *)
Fixpoint flag_value (name s : bytes) : bytes * option bytes :=
  match s with
  | [] => (name, None)
  | b :: s => if bool_decide (b = Byte.x3d) then (name, Some s) else flag_value (name ++ [b]) s
  end.

(** What an argument is: the end of the flags, bad syntax, or a flag. *)
Inductive arg := ArgStop | ArgBad | ArgFlag (name : bytes) (value : option bytes).

Definition parse_arg (s : bytes) : arg :=
  match s with
  | Byte.x2d :: Byte.x2d :: [] => ArgStop
  | Byte.x2d :: c :: rest =>
      let name := if bool_decide (c = Byte.x2d) then rest else c :: rest in
      match name with
      | [] => ArgBad
      | c :: rest =>
          if bool_decide (c = Byte.x2d) || bool_decide (c = Byte.x3d) then ArgBad
          else let '(n, v) := flag_value [c] rest in ArgFlag n v
      end
  | _ => ArgStop
  end.

(** [fs.Parse] with [flag.ExitOnError]; an error is an exit code. *)
Fixpoint Parse (args : list bytes) (f : RaftFlags) : outcome Z RaftFlags :=
  match args with
  | [] => Ret f
  | s :: args =>
      match parse_arg s with
      | ArgStop => Ret f
      | ArgBad => Err 2
      | ArgFlag name (Some v) =>
          match set_flag name v f with
          | Some f => Parse args f
          | None => Err (if bool_decide (name = bs "help") || bool_decide (name = bs "h") then 0 else 2)
          end
      | ArgFlag name None =>
          match set_flag name [] f with
          | None => Err (if bool_decide (name = bs "help") || bool_decide (name = bs "h") then 0 else 2)
          | Some _ =>
              match args with
              | [] => Err 2
              | v :: args => match set_flag name v f with Some f => Parse args f | None => Err 2 end
              end
          end
      end
  end.

(** ** Peers *)

(** The address table and the peers' ids; an error is the bad pair. *)
Fixpoint add_peers (pairs : list bytes) (addrs : gmap bytes bytes) (ids : list bytes) :
    outcome bytes (gmap bytes bytes * list bytes) :=
  match pairs with
  | [] => Ret (addrs, ids)
  | spec :: pairs =>
      match SplitN2 (TrimSpace spec) Byte.x3d with
      | [i; a] => add_peers pairs (<[i := a]> addrs) (ids ++ [i])
      | _ => Err spec
      end
  end.

Definition parse_peers (i raftAddr peersRaw : bytes) : outcome bytes (gmap bytes bytes * list bytes) :=
  match peersRaw with
  | [] => Ret ({[i := raftAddr]}, [])
  | _ => add_peers (Split peersRaw Byte.x2c) {[i := raftAddr]} []
  end.

(** ** runRaft *)

(** The file system the program finds. *)
Record Env := mkEnviron {
  mkdir_fails : bytes → bool;
  disk_at : bytes → Disk;
  read_at : bytes → file_read
}.

(** [NewNode] on the contents of the two files. *)
Definition new_node (i : bytes) (ps : list bytes) (state snap : file_read) : outcome restore_error Node :=
  let n := mkNode i ps true true 0 0 0 [] [mkEntry 0 None] 0 0 Follower [] 0 ∅ ∅ false ∅ None None [] in
  let n :=
    match latest_file snap n with
    | Ret (Some s) =>
        set_commit (LastIncludedIndex s) (LastIncludedIndex s) false
          (set_snapshot (LastIncludedIndex s) (LastIncludedTerm s)
            (set_persistent (currentTerm n) (votedFor n) [mkEntry (LastIncludedTerm s) None] n))
    | _ => n
    end in
  n ← restore_file state n;
  Ret match log n with
      | [] => set_persistent (currentTerm n) (votedFor n) [mkEntry 0 None] n
      | _ => n
      end.

(** A node that is up: its transport, which holds the node, the apply loop's
    state, and the address its server is to listen on. *)
Record Running := mkRunning { r_transport : TCPTransport; r_applier : Applier; r_kvAddr : bytes }.

(** The node runs, or the process has ended. *)
Definition runRaft (env : Env) (args : list bytes) : outcome () (Ending + Running) :=
  match Parse args default_flags with
  | Panic => Panic
  | Err c => Ret (inl (mkEnd c [] (Some MFlags) None))
  | Ret f =>
      if bool_decide (fl_id f = []) || bool_decide (fl_raftAddr f = []) then Ret (inl (mkEnd 2 [] (Some MFlags) None))
      else if mkdir_fails env (fl_dataDir f) then Ret (inl (mkEnd 1 [] (Some MMkdir) None))
      else match parse_peers (fl_id f) (fl_raftAddr f) (fl_peers f) with
      | Panic => Panic
      | Err spec => Ret (inl (mkEnd 1 [] (Some (MBadPeer spec)) None))
      | Ret (addrs, peerIDs) =>
          let d := disk_at env (Join (fl_dataDir f) (bs "kv.wal")) in
          match Store.Open d with
          | Panic => Panic
          | Err e => Ret (inl (mkEnd 1 [] (Some (MOpen e)) (d_file d)))
          | Ret s =>
              let transport := NewTCPTransport addrs in
              match new_node (fl_id f) peerIDs (read_at env (Join (fl_dataDir f) (bs "raft-state.json")))
                      (read_at env (Join (fl_dataDir f) (bs "raft-snap.json"))) with
              | Panic => Panic
              | Err e => Ret (inl (mkEnd 1 [] (Some (MRaftNode e)) (Some (file (Store.log s)))))
              | Ret node =>
                  Ret (inr (mkRunning (TcpTransport.Register (fl_id f) node transport) (mkApplier node s 0) (fl_kvAddr f)))
              end
          end
      end
  end.

(** ** main *)

(** [args] is [os.Args], the name of the program first. *)
Definition main (errText : walop_error → bytes) (upper : Z → Z) (print : Z → bool) (listens : bytes → bool)
    (serving : list event) (env : Env) (args : list bytes) : outcome () (Ending + Running) :=
  match args with
  | _ :: cmd :: rest =>
      if bool_decide (cmd = bs "raft") then runRaft env rest
      else e ← runSingleNode errText upper print listens serving (disk_at env cmd) rest; Ret (inl e)
  | _ => Ret (inl (mkEnd 2 [] (Some MUsage) None))
  end.

(** ** A shell session *)

(** One run of the program on a log file, and the map it stands for. *)
Inductive cli := CliPut (k v : bytes) | CliGet (k : bytes) | CliDelete (k : bytes).

Definition cli_args (c : cli) : list bytes :=
  match c with
  | CliPut k v => [bs "put"; k; v]
  | CliGet k => [bs "get"; k]
  | CliDelete k => [bs "delete"; k]
  end.

Definition cli_map (c : cli) (m : gmap bytes bytes) : bytes * gmap bytes bytes :=
  match c with
  | CliPut k v => (bs "OK" ++ newline, <[k := v]> m)
  | CliGet k => (default (bs "(nil)") (m !! k) ++ newline, m)
  | CliDelete k => (bs "OK" ++ newline, delete k m)
  end.

Fixpoint cli_maps (cs : list cli) (m : gmap bytes bytes) : list bytes * gmap bytes bytes :=
  match cs with
  | [] => ([], m)
  | c :: cs => let '(out, m) := cli_map c m in let '(outs, m) := cli_maps cs m in (out :: outs, m)
  end.

(** The records a command may write are below the log's limit. *)
Definition cli_recs (c : cli) : list WRecord :=
  match c with
  | CliPut k v => [mkRec RecordPut k v]
  | CliGet _ => []
  | CliDelete k => [mkRec RecordDelete k []]
  end.

(** The file that the next process finds. *)
Definition reopen (f : File) : File := mkFile (f_content f) (f_synced f) [] false.
Definition disk_of (f : option File) : Disk := mkDisk (reopen <$> f) false false EOF.

Section session.
Context (errText : walop_error → bytes) (upper : Z → Z) (print : Z → bool) (listens : bytes → bool) (serving : list event).

(** One process per command; the exit codes and outputs, and the file at the
    end. *)
Fixpoint cli_run (cs : list cli) (f : option File) : option (list (Z * bytes) * option File) :=
  match cs with
  | [] => Some ([], f)
  | c :: cs =>
      match runSingleNode errText upper print listens serving (disk_of f) (cli_args c) with
      | Ret e => '(rest, f) ← cli_run cs (wal_file e); Some ((code e, stdout e) :: rest, f)
      | _ => None
      end
  end.

(** ** Lemmas *)

(** A file of whole records. *)
Definition log_file (f : option File) (rs : list WRecord) : Prop :=
  match f with Some f => f_content f = encodes rs ∧ file_wf f | None => rs = [] end.

Lemma Close_file s : wb_buf (w (Store.log s)) = [] → file_wf (file (Store.log s)) →
  let f := file (Store.log (Store.Close s).2) in f_content f = f_content (file (Store.log s)) ∧ file_wf f.
Proof.
  intros Hb Hw. unfold Store.Close, Wal.Close, bufio_Flush. destruct (wb_err (w (Store.log s))); [done|]. rewrite Hb.
  unfold file_Close. destruct (f_closed (file (Store.log s))) eqn:E; cbn; [done|].
  by destruct (GoIO.next_fault (file (Store.log s))) as [[] ?].
Qed.

(** Opening a log file for a process. *)
Lemma Open_log f rs :
  log_file f rs → Forall rec_ok rs →
  ∃ l, Store.Open (disk_of f) = Ret (mkStore (rebuild rs) (Wal.Open l)) ∧ f_content l = encodes rs ∧ fault_free l ∧ file_wf l.
Proof.
  intros Hf Hrs. destruct f as [f|].
  - destruct Hf as [Hf Hw]. exists (reopen f). split; [by apply Open_encodes|]. by split_and!.
  - cbn in Hf. subst rs. exists (mkFile [] 0 [] false). split_and!; [done|done|done|]. apply Nat.le_0_l.
Qed.

(** A write in a process of its own. *)
Lemma cli_write op l rs :
  f_content l = encodes rs → fault_free l → file_wf l →
  let s' := (sexec op (mkStore (rebuild rs) (Wal.Open l))).2 in
  (sexec op (mkStore (rebuild rs) (Wal.Open l))).1 = None ∧
  log_file (wal_file (returns (bs "OK" ++ newline) s')) (rs ++ [rec_of op]) ∧
  rebuild (rs ++ [rec_of op]) = apply_record (rebuild rs) (rec_of op).
Proof.
  intros Hc Hf Hw. set (s := mkStore (rebuild rs) (Wal.Open l)).
  destruct (sexec_fault_free op s Hf eq_refl) as (H1 & _ & _ & _).
  destruct (sexec_content op s (Open_ok l Hw) Hf eq_refl) as (H3 & H4 & _ & (_ & H6 & _)). cbn [Store.log s Wal.Open file w] in *.
  split; [done|]. split; [|by rewrite rebuild_app].
  destruct (Close_file (sexec op s).2 H4 H6) as [H7 H8]. split; [|exact H8]. cbn [wal_file returns]. rewrite H7.
  rewrite H4, !app_nil_r in H3. rewrite H3, Hc. unfold encodes. by rewrite fmap_app, concat_app; cbn; rewrite app_nil_r.
Qed.

Lemma cli_step c f rs :
  log_file f rs → Forall rec_ok rs →
  ∃ e, runSingleNode errText upper print listens serving (disk_of f) (cli_args c) = Ret e ∧
    code e = 0 ∧ stdout e = (cli_map c (rebuild rs)).1 ∧ log_file (wal_file e) (rs ++ cli_recs c) ∧
    rebuild (rs ++ cli_recs c) = (cli_map c (rebuild rs)).2.
Proof.
  intros Hf Hrs. destruct (Open_log f rs Hf Hrs) as (l & Ho & Hc & Hff & Hw).
  destruct c as [k v|k|k]; cbn [cli_args cli_recs runSingleNode]; rewrite Ho; eexists; (split; [reflexivity|]); unfold run_cmd.
  - destruct (cli_write (SPut k v) l rs Hc Hff Hw) as (H1 & H2 & H3). rewrite apply_record_rec_of in H3. cbn [sexec] in *.
    rewrite bool_decide_eq_false_2, bool_decide_eq_true_2 by done.
    destruct (Put k v _) as [[e|] s']; [done|]. split_and!; [done|done|exact H2|exact H3].
  - rewrite !bool_decide_eq_false_2, bool_decide_eq_true_2 by done. rewrite app_nil_r.
    assert (Hl : ∀ out, log_file (wal_file (returns out (mkStore (rebuild rs) (Wal.Open l)))) rs).
    { intros out. destruct (Close_file (mkStore (rebuild rs) (Wal.Open l)) eq_refl Hw) as [H7 H8]. split; [by rewrite H7|done]. }
    unfold Get. cbn [data cli_map fst snd]. destruct (rebuild rs !! k); by split_and!.
  - destruct (cli_write (SDelete k) l rs Hc Hff Hw) as (H1 & H2 & H3). rewrite apply_record_rec_of in H3. cbn [sexec] in *.
    rewrite !bool_decide_eq_false_2, bool_decide_eq_true_2 by done.
    destruct (Delete k _) as [[e|] s']; [done|]. split_and!; [done|done|exact H2|exact H3].
Qed.

End session.

(** ** Properties *)



(** *** Peers *)

Lemma split_go_part sep cur part rest :
  sep ∉ part → split_go sep cur (part ++ sep :: rest) = (cur ++ part) :: split_go sep [] rest.
Proof.
  revert cur. induction part as [|b part IH]; intros cur Hp; cbn [app split_go].
  - by rewrite bool_decide_eq_true_2, app_nil_r.
  - apply not_elem_of_cons in Hp as [Hb Hp]. rewrite bool_decide_eq_false_2, IH, <-app_assoc by done. done.
Qed.

Lemma split_go_last sep cur part : sep ∉ part → split_go sep cur part = [cur ++ part].
Proof.
  revert cur. induction part as [|b part IH]; intros cur Hp; cbn [split_go]; [by rewrite app_nil_r|].
  apply not_elem_of_cons in Hp as [Hb Hp]. rewrite bool_decide_eq_false_2, IH, <-app_assoc by done. done.
Qed.

Lemma Split_join sep parts :
  parts ≠ [] → Forall (λ p, sep ∉ p) parts → Split (join_with [sep] parts) sep = parts.
Proof.
  intros Hne Hp. unfold Split. induction Hp as [|p parts Hp Hps IH]; [done|]. destruct parts as [|q parts].
  - by apply split_go_last.
  - cbn [join_with app]. rewrite split_go_part by done. cbn [app]. f_equal. by apply IH.
Qed.

Lemma split2_go_first sep cur i a : sep ∉ i → split2_go sep cur (i ++ sep :: a) = [cur ++ i; a].
Proof.
  revert cur. induction i as [|b i IH]; intros cur Hi; cbn [app split2_go].
  - by rewrite bool_decide_eq_true_2, app_nil_r.
  - apply not_elem_of_cons in Hi as [Hb Hi]. rewrite bool_decide_eq_false_2, IH, <-app_assoc by done. done.
Qed.

(** How a peer is written on the command line. *)
Definition peer_spec (p : bytes * bytes) : bytes := p.1 ++ Byte.x3d :: p.2.

(** An id without equals sign, no comma, and no white space around the pair. *)
Definition peer_ok (p : bytes * bytes) : Prop :=
  (Byte.x3d ∉ p.1) ∧ (Byte.x2c ∉ p.1) ∧ (Byte.x2c ∉ p.2) ∧ TrimSpace (peer_spec p) = peer_spec p.

Lemma add_peers_specs ps addrs ids :
  Forall peer_ok ps →
  add_peers (peer_spec <$> ps) addrs ids = Ret (foldl put_entry addrs ps, ids ++ ps.*1).
Proof.
  intros Hp. revert addrs ids. induction Hp as [|[i a] ps (H1 & _ & _ & H2) Hp IH]; intros addrs ids; [by rewrite app_nil_r|].
  rewrite fmap_cons. cbn [add_peers]. rewrite H2. unfold peer_spec, SplitN2. cbn [fst snd] in *.
  rewrite split2_go_first by done. cbn [app]. rewrite IH. cbn [foldl fmap list_fmap fst]. by rewrite <-app_assoc.
Qed.

(** The peer list is read as it was written. A list of peers, written with
    commas between pairs of id and address, is parsed into exactly these ids in
    this order and an address table that has their addresses and the node's
    own. *)
Theorem peers_roundtrip i raftAddr ps :
  ps ≠ [] → Forall peer_ok ps →
  parse_peers i raftAddr (join_with [Byte.x2c] (peer_spec <$> ps)) = Ret (foldl put_entry {[i := raftAddr]} ps, ps.*1).
Proof.
  intros Hne Hp. unfold parse_peers. rewrite Split_join.
  - rewrite add_peers_specs by done. destruct ps as [|[j a] ps]; [done|]. rewrite fmap_cons. unfold peer_spec at 1. cbn [fst snd].
    destruct (peer_spec <$> ps); cbn [join_with]; destruct j; done.
  - by destruct ps.
  - apply Forall_fmap. eapply Forall_impl; [exact Hp|]. intros [j a] (_ & H1 & H2 & _). unfold peer_spec. cbn in *.
    rewrite elem_of_app, elem_of_cons. intros [?|[?|?]]; done.
Qed.

Lemma peers_roundtrip_witness :
  parse_peers (bs "n0") (bs ":7000") (join_with [Byte.x2c] (peer_spec <$> [(bs "n1", bs "h:7001"); (bs "n2", bs "h:7002")])) =
  Ret (foldl put_entry {[bs "n0" := bs ":7000"]} [(bs "n1", bs "h:7001"); (bs "n2", bs "h:7002")], [bs "n1"; bs "n2"]).
Proof.
  apply (peers_roundtrip (bs "n0") (bs ":7000") [(bs "n1", bs "h:7001"); (bs "n2", bs "h:7002")]); [done|].
  repeat (apply List.Forall_cons; [split_and!; first [by apply (bool_decide_unpack _)|vm_compute; reflexivity]|]). apply List.Forall_nil.
Defined.

(** The usage's own example, and a list with a space after the comma. *)
Example peers_usage :
  match parse_peers (bs "n0") (bs ":7000") (bs "n1=:7001, n2=:7002") with
  | Ret (addrs, ids) => addrs !! bs "n0" = Some (bs ":7000") ∧ addrs !! bs "n2" = Some (bs ":7002") ∧ ids = [bs "n1"; bs "n2"]
  | _ => False
  end.
Proof. vm_compute. done. Qed.

(** An id that occurs twice is a peer twice, and is counted twice in a
    majority. *)
Example peers_duplicate :
  match parse_peers (bs "n0") (bs ":7000") (bs "n1=:7001,n1=:7001") with
  | Ret (_, ids) => ids = [bs "n1"; bs "n1"]
  | _ => False
  end.
Proof. vm_compute. done. Qed.

Example join_examples :
  Join (bs "/var/lib/kv/") (bs "kv.wal") = bs "/var/lib/kv/kv.wal" ∧ Join (bs ".") (bs "kv.wal") = bs "kv.wal" ∧
  Join (bs "a/../../b") (bs "kv.wal") = bs "../b/kv.wal" ∧ Join (bs "/..") (bs "kv.wal") = bs "/kv.wal".
Proof. vm_compute. done. Qed.

(** *** Starting a node *)

Lemma Open_not_Panic d : Store.Open d ≠ Panic.
Proof.
  unfold Store.Open, disk_opened, Replay. destruct (d_open_fails d); [done|]. destruct (d_file d) as [f|].
  - destruct (replay_loop_total (S (length (f_content f))) [] (mkStream (f_content f) (d_end d))) as [rs Hr]; [cbn; lia|].
    cbn [s_data] in *. rewrite Hr. by destruct (d_append_fails d).
  - by destruct (d_append_fails d).
Qed.

Lemma Parse_not_Panic args f : Parse args f ≠ Panic.
Proof.
  revert f. induction args as [args IH] using (induction_ltof1 _ (@length _)). unfold ltof in IH. intros f.
  destruct args as [|s args]; [done|]. cbn [Parse]. destruct (parse_arg s) as [| |name [v|]]; [done|done|..].
  - destruct (set_flag name v f) as [f'|]; [|done]. apply IH. cbn. lia.
  - destruct (set_flag name [] f); [|done]. destruct args as [|v args]; [done|].
    destruct (set_flag name v f) as [f'|]; [|done]. apply IH. cbn. lia.
Qed.

Lemma add_peers_not_Panic pairs addrs ids : add_peers pairs addrs ids ≠ Panic.
Proof.
  revert addrs ids. induction pairs as [|p pairs IH]; intros addrs ids; [done|]. cbn [add_peers].
  destruct (SplitN2 _ _) as [|i [|a [|b l]]]; try done.
Qed.

Lemma parse_peers_not_Panic i a raw : parse_peers i a raw ≠ Panic.
Proof. unfold parse_peers. destruct raw; [done|]. apply add_peers_not_Panic. Qed.

(** A node restored from files of any content is well-typed. *)
Lemma restore_file_typed r n m : node_typed n → restore_file r n = Ret m → node_typed m.
Proof.
  intros Hn. unfold restore_file. destruct (statePath n); [|by intros [= <-]]. destruct r as [| |b]; [by intros [= <-]|done|].
  pose proof (Unmarshal_typed _ _ b state_codec_typed) as Ht. destruct (Unmarshal c_persistentState b _) as [ws [|]]; [done|].
  cbn [fst] in Ht. apply state_in_typed in Ht as (H1 & H2 & H3). intros [= <-]. by apply typed_persistent.
Qed.

Lemma latest_file_typed r n s : latest_file r n = Ret (Some s) → snap_typed s.
Proof.
  unfold latest_file. destruct (snapshotPath n); [|done]. destruct r as [| |b]; [done|done|].
  pose proof (Unmarshal_typed _ _ b snapshot_codec_typed) as Ht. destruct (Unmarshal c_Snapshot b _) as [ws [|]]; [done|].
  intros [= <-]. exact Ht.
Qed.

(** What [new_node] gives: a node before its log is filled up. *)
Lemma new_node_inv i ps st sn n :
  new_node i ps st sn = Ret n →
  ∃ n1 n2, restore_file st n1 = Ret n2 ∧ (name_ok i → node_typed n1) ∧ role n1 = Follower ∧ peers n1 = ps ∧ id n1 = i ∧
    statePath n1 = true ∧
    n = match log n2 with [] => set_persistent (currentTerm n2) (votedFor n2) [mkEntry 0 None] n2 | _ => n2 end.
Proof.
  unfold new_node. set (n0 := mkNode _ _ _ _ _ _ _ _ _ _ _ _ _ _ _ _ _ _ _ _ _).
  assert (H0 : name_ok i → node_typed n0) by (by intros Hi; constructor; cbn; try apply map_Forall_empty; try apply one_entry_typed).
  set (n1 := match latest_file sn n0 with Ret (Some _) => _ | _ => _ end).
  assert (H1 : (name_ok i → node_typed n1) ∧ role n1 = Follower ∧ peers n1 = ps ∧ id n1 = i ∧ statePath n1 = true).
  { subst n1. destruct (latest_file sn n0) as [[s|]| |] eqn:Es; try done. apply latest_file_typed in Es as [Hs1 Hs2].
    split; [|done]. intros Hi. specialize (H0 Hi). apply typed_commit; [|done..]. apply typed_snapshot; [|done..].
    apply typed_persistent; [done..|]. by apply one_entry_typed. }
  clearbody n1. destruct H1 as (H1 & H2 & H3 & H4 & H5). destruct (restore_file st n1) as [n2| |] eqn:Er; [|done..].
  go_red. intros [= <-]. by exists n1, n2.
Qed.

Lemma restore_file_shape r n m :
  restore_file r n = Ret m → role m = role n ∧ peers m = peers n ∧ id m = id n.
Proof. unfold restore_file. intros H. repeat case_match; try done; by injection H as <-. Qed.

Lemma new_node_shape i ps st sn n :
  new_node i ps st sn = Ret n → log n ≠ [] ∧ role n = Follower ∧ peers n = ps ∧ id n = i ∧ (name_ok i → node_typed n).
Proof.
  intros (n1 & n2 & Hr & Ht & Hrole & Hps & Hid & _ & ->)%new_node_inv.
  destruct (restore_file_shape _ _ _ Hr) as (Er & Ep & Ei).
  assert (H2 : name_ok i → node_typed n2) by (intros Hi; eapply restore_file_typed; [by apply Ht|exact Hr]).
  destruct (log n2) as [|e l] eqn:El.
  - cbn. split_and!; try congruence. intros Hi. specialize (H2 Hi). pose proof H2 as []. apply typed_persistent; [done..|by apply one_entry_typed].
  - rewrite El. split_and!; try congruence. exact H2.
Qed.

Lemma new_node_not_Panic i ps st sn : new_node i ps st sn ≠ Panic.
Proof.
  unfold new_node. set (n1 := match latest_file sn _ with Ret (Some _) => _ | _ => _ end). clearbody n1.
  assert (H : restore_file st n1 ≠ Panic) by (unfold restore_file; repeat case_match; done).
  by destruct (restore_file st n1).
Qed.

(** C30: Starting is safe. Whatever the arguments, the log file, and the bytes of
    the state and snapshot files, the program does not panic while it starts. A
    node that comes up is a follower with the id and the peers of the command
    line and a non-empty log, and if its id is valid UTF-8, every field is within
    its type. *)
Theorem main_starts errText upper print listens serving env args :
  main errText upper print listens serving env args ≠ Panic ∧
  ∀ r, main errText upper print listens serving env args = Ret (inr r) →
    ∃ n, t_node (r_transport r) = Some n ∧ a_node (r_applier r) = n ∧ log n ≠ [] ∧ role n = Follower ∧
      (name_ok (id n) → node_typed n) ∧
      ∃ f addrs, Parse (drop 2 args) default_flags = Ret f ∧ id n = fl_id f ∧
        parse_peers (fl_id f) (fl_raftAddr f) (fl_peers f) = Ret (addrs, peers n).
Proof.
  unfold main. destruct args as [|a0 [|cmd rest]]; [done|done|]. destruct (bool_decide (cmd = bs "raft")).
  2: { unfold runSingleNode. destruct rest as [|c rest]; [done|]. pose proof (Open_not_Panic (disk_at env cmd)).
       by destruct (Store.Open (disk_at env cmd)). }
  unfold runRaft. change (drop 2 (a0 :: cmd :: rest)) with rest. pose proof (Parse_not_Panic rest default_flags).
  destruct (Parse rest default_flags) as [f|c|] eqn:Epa; [|done|done].
  destruct (_ || _); [done|]. destruct (mkdir_fails env _); [done|].
  pose proof (parse_peers_not_Panic (fl_id f) (fl_raftAddr f) (fl_peers f)).
  destruct (parse_peers (fl_id f) (fl_raftAddr f) (fl_peers f)) as [[addrs ids]|spec|] eqn:Epp; [|done|done].
  set (d := disk_at env (Join (fl_dataDir f) (bs "kv.wal"))). pose proof (Open_not_Panic d).
  destruct (Store.Open d) as [s|e|]; [|done|done].
  set (st := read_at env (Join (fl_dataDir f) (bs "raft-state.json"))).
  set (sn := read_at env (Join (fl_dataDir f) (bs "raft-snap.json"))).
  pose proof (new_node_not_Panic (fl_id f) ids st sn). pose proof (new_node_shape (fl_id f) ids st sn) as Hs.
  destruct (new_node (fl_id f) ids st sn) as [n|e|]; [|done|done]. split; [done|]. intros r [= <-].
  exists n. cbn [r_transport r_applier TcpTransport.Register t_node a_node]. destruct (Hs n eq_refl) as (Hl & Hr & Hp & Hi & Ht).
  do 4 (split; [done|]). split; [by rewrite Hi|]. exists f, addrs. by rewrite Hp.
Qed.

(** A node with two peers, whose state file holds a term and a vote, whose
    snapshot file cannot be read, and which has no log file yet. *)
Definition ex_env : Env :=
  mkEnviron (λ _, false) (λ _, mkDisk None false false EOF)
    (λ path, if bool_decide (path = bs "data/raft-state.json")
             then FContent (jtext "{'current_term': 3, 'voted_for': 'n1', 'log': null}") else FReadErr).
Definition ex_main_args : list bytes :=
  [bs "kvengine"; bs "raft"; bs "-id"; bs "n0"; bs "--peers=n1=:7001,n2=:7002"; bs "-raft-addr"; bs ":7000"; bs "-data-dir"; bs "data"].

Lemma main_starts_witness :
  main (λ _, []) (λ r, r) (λ _, false) (λ _, true) [] ex_env ex_main_args ≠ Panic ∧
  ∃ r n, main (λ _, []) (λ r, r) (λ _, false) (λ _, true) [] ex_env ex_main_args = Ret (inr r) ∧
    t_node (r_transport r) = Some n ∧ (currentTerm n, votedFor n, peers n) = (3, bs "n1", [bs "n1"; bs "n2"]) ∧
    log n ≠ [] ∧ role n = Follower ∧ node_typed n.
Proof.
  destruct (main_starts (λ _, []) (λ r, r) (λ _, false) (λ _, true) [] ex_env ex_main_args) as [H1 H2]. split; [exact H1|].
  destruct (main (λ _, []) (λ r, r) (λ _, false) (λ _, true) [] ex_env ex_main_args) as [[e|r]| |] eqn:E;
    [vm_compute in E; discriminate| |vm_compute in E; discriminate|vm_compute in E; discriminate].
  destruct (H2 r eq_refl) as (n & Hn & _ & Hl & Hr & Ht & _). exists r, n. split; [reflexivity|]. split; [exact Hn|].
  assert (Hs : match main (λ _, []) (λ r, r) (λ _, false) (λ _, true) [] ex_env ex_main_args with
    | Ret (inr r) => match t_node (r_transport r) with
        | Some n => (currentTerm n, votedFor n, peers n) = (3, bs "n1", [bs "n1"; bs "n2"]) ∧ name_ok (id n)
        | None => False end
    | _ => False end) by (vm_compute; split; reflexivity).
  rewrite E, Hn in Hs. destruct Hs as [Hs Hid]. split; [exact Hs|]. split; [exact Hl|]. split; [exact Hr|]. exact (Ht Hid).
Defined.

(** A restart resumes. When [persist] reported success and the process then
    dies, a node started on the state file has the term, the vote and the log
    that were persisted, whatever the snapshot file holds. *)
Theorem boot_resumes n p p' img ps sn :
  node_typed n → statePath n = true → log n ≠ [] → persist_file n p = (None, p') → crash p' 0 img →
  ∃ m, new_node (id n) ps (read_image img) sn = Ret m ∧
    currentTerm m = currentTerm n ∧ votedFor m = votedFor n ∧ log m = log n ∧ role m = Follower.
Proof.
  intros Hn Hs Hl Hp [_ Hc]. pose proof (persist_file_cases n p Hn Hs) as H. rewrite Hp in H.
  destruct H as (_ & f & H2 & H3 & H4). rewrite H2 in Hc. destruct Hc as (b & -> & Hb). rewrite (sealed_crash f b H3 Hb).
  unfold new_node. set (n1 := match latest_file sn _ with Ret (Some _) => _ | _ => _ end).
  assert (H1 : statePath n1 = true ∧ role n1 = Follower) by (subst n1; by repeat case_match).
  clearbody n1. destruct H1 as [Hs1 Hr1]. cbn [read_image]. rewrite (restore_decodes n1 _ _ Hs1 H4). go_red.
  eexists. split; [reflexivity|]. cbn. destruct (log n) as [|e l] eqn:El; done.
Qed.

Lemma boot_resumes_witness :
  ∃ m, new_node (id ex_voted) [bs "n1"]
      (read_image (f_content <$> current (persist_file ex_voted (mkPath None [] None [])).2)) (FContent (bs "junk")) = Ret m ∧
    currentTerm m = currentTerm ex_voted ∧ votedFor m = votedFor ex_voted ∧ log m = log ex_voted ∧ role m = Follower.
Proof.
  apply (boot_resumes ex_voted (mkPath None [] None []) (persist_file ex_voted (mkPath None [] None [])).2).
  - by apply ex_persist_typed.
  - reflexivity.
  - discriminate.
  - vm_compute. reflexivity.
  - split; [lia|]. vm_compute. eexists. split; [reflexivity|]. split; exists []; reflexivity.
Defined.
